(* ===== verification/_CoqProject ===== *)
-Q . S2P
Prelude.v
Text.v
Json.v
Float32.v
Core.v
Dag.v
Kahn.v
Cycle.v
Metrics.v
DagTheorems.v
MemoryPool.v
ArenaLock.v
TaskRunner.v
MpmcQueue.v
MpmcInv.v
MpmcTheorems.v
ThreadPool.v
ThreadPoolInv.v
ThreadPoolTheorems.v
Futures.v
Config.v
Scheduler.v
Greedy.v
Threshold.v
Optimizer.v
OptimizerEstimate.v
OptimizerProofs.v
OptimizerSearch.v
OptimizerTheorems.v
Codec.v
CodecTheorems.v
Transport.v
Reactor.v
ReactorTime.v
AsyncTransport.v
Coroutine.v
AsyncCoroutines.v
Server.v
ServerTheorems.v
Cluster.v
Discovery.v
DiscoveryTheorems.v
Generator.v
GeneratorTheorems.v
Telemetry.v
TelemetryTheorems.v
JsonTheorems.v
LogAnalyzer.v
LogAnalyzerTheorems.v
Monitor.v
MonitorTheorems.v
Main.v
MainTheorems.v
DefaultToml.v
Orchestrator.v
OrchestratorTheorems.v
Loops.v
Detector.v
Daemon.v
EndToEnd.v
ErrorPaths.v
Observed.v
Injector.v
InjectorTheorems.v
