(* ===== verification/Prelude.v ===== *)
(** * EdgeOrchestrator: a verification library

    EdgeOrchestrator (the C++ sources under [src/src/], the protocol under [src/proto/], the
    scripts under [src/tools/]) spreads a DAG of tasks over a node and its peers: a monitor
    samples the machine, discovery keeps a view of the peers, a policy turns DAG, snapshot and
    view into a plan, the orchestrator runs the plan on a thread pool or sends tasks to peers
    as framed protobuf messages, and telemetry records what happened.  The library models
    each part as executable definitions and proves what the parts promise each other, up to
    the behaviour of two nodes, or of a client and a node, talking over a fragmented stream.

    ** Conventions

    A w-bit integer is a [Z]; wrap-around is written out with [u8] .. [u64], [i64] and the
    notations of [cpp_scope].  Sums of [int64_t] durations are exact: the source leaves their
    overflow undefined, and where costs are not negative the theorems bound them by the total
    cost of the DAG.  A [float] is a binary32 of [SpecFloat].  An unordered map is a
    [gmap] whose iteration order is any instance of [IterOrder].  A fallible call returns
    [Result] or [option].  What the code observes -- answers of the kernel, clocks, file
    contents, the interleaving of threads -- is an argument of the definitions, so a theorem
    holds for all of it.  A call that has consumed all its observations without returning is
    [None], "still in progress"; theorems that something returns say how many observations are
    enough.  Concurrent code is a step function or relation with one step per access to
    shared memory, per critical section or per call into another modelled component; where a
    step is coarser its definition says so ([Daemon.activity], [ReactorTime]).

    Code outside the repository is a type class with the laws its documentation gives, and
    each has a concrete instance used by the witnesses: [StdSort], [Rng] and [Mt19937] (the
    C++ library's sort and random numbers), [FloatCast] (a cast the standard leaves undefined),
    [TomlApi] (toml++), [Protobuf] (generated code);
    [strerror] and the assignment to a Python message field are section variables.

    ** Files

    - [Prelude] (this file): machine integers, maps, folds, automation.  [Text]: stream
      extraction, [std::stol] and line splitting.  [Float32]: binary32.  [Json],
      [JsonTheorems]: Python's [json.loads], and that it reads every line telemetry writes.
    - [Core]: [core/types.hpp] and [core/result.hpp].  [Config]: [core/config.hpp] and
      [core/config.cpp].
    - [Dag]: [workload/dag.hpp] and [dag.cpp], one definition per method.  [Kahn]
      ([topological_order]), [Cycle] ([has_cycle]), [Metrics] ([critical_path_cost],
      [peak_memory_estimate]) and [DagTheorems] prove the algorithms correct.
    - [Generator], [GeneratorTheorems]: [workload/generator.cpp].
    - [MemoryPool]: [executor/memory_pool.cpp], allocation as an interleaved
      compare-and-swap loop.  [ArenaLock]: the reader/writer lock the orchestrator puts around
      it.  [TaskRunner]: [executor/task_runner.cpp].
    - [MpmcQueue], [MpmcInv], [MpmcTheorems]: [executor/mpmc_queue.hpp], the lock-free ring.
      [ThreadPool], [ThreadPoolInv], [ThreadPoolTheorems]: [executor/thread_pool.cpp] on it.
      [Futures]: [submit] and [submit_cancellable] of [executor/thread_pool.hpp].
    - [Scheduler]: [scheduler/scheduler.hpp] with the policy interface [SchedulingPolicy] and
      its laws.  [Greedy], [Threshold], [Optimizer] and its companions [OptimizerEstimate],
      [OptimizerProofs], [OptimizerSearch], [OptimizerTheorems]: the three policies, each an
      instance of the laws.
    - [Codec], [CodecTheorems]: [proto/protocol.proto] and [orchestrator/offload_codec.cpp].
    - [Transport]: [network/transport.cpp].  [Reactor]: [network/reactor.cpp]; [ReactorTime]:
      the same with a clock, its eventfd and its awaiters.  [AsyncTransport]:
      [network/async_transport.cpp], one connection at a time.  [Coroutine]: the promise types
      of [core/async.hpp] as a machine of frames.  [AsyncCoroutines]: the server's coroutines
      on that machine.  [Server], [ServerTheorems]: the whole server, its accept coroutine and
      connections interleaved with the reactor thread and the pool.
    - [Cluster]: [network/cluster_view.cpp].  [Discovery], [DiscoveryTheorems]:
      [network/peer_discovery.cpp].
    - [Telemetry], [TelemetryTheorems]: [core/logger.cpp] and [telemetry/].  [LogAnalyzer],
      [LogAnalyzerTheorems]: [tools/log_analyzer.py].
    - [Monitor], [MonitorTheorems]: [resource_monitor/] and the concept
      [ResourceMonitorLike] of [core/concepts.hpp] as a class with laws, discharged for both
      monitors.
    - [Main], [MainTheorems]: the command line, the demo and the pieces of [app/main.cpp];
      [Daemon]: its [main] from start to exit, with the callbacks and the main loop.
      [DefaultToml]: [config/default.toml] and what the program makes of it.
    - [Orchestrator], [OrchestratorTheorems]: [orchestrator/orchestrator.hpp].  [EndToEnd]:
      two nodes talking.  [ErrorPaths]: broken round trips and bad requests.  [Loops]: the
      threads of discovery, monitor and orchestrator as whole loops over time.  [Detector]:
      the table of peers, its notifications and the cluster view against a clock.  [Observed]:
      from a submission to the analyzer's report.  [Injector], [InjectorTheorems]:
      [tools/workload_injector.py].

    ** What the theorems show

    - A submitted workload: the plan covers the DAG for every policy and any monitor that
      keeps its contract; under every interleaving of the dispatching and polling thread, the
      jobs and the callbacks of discovery the reported counts add up and no task runs twice;
      the call returns.  The DAG is valid and names no unknown dependency: a dangling one is
      accepted by the code and its task never scheduled.
    - Two nodes: an offloaded task is executed by the peer exactly as described and reported
      back exactly; a DAG submitted to a peer, or injected by the client script, is run and
      answered -- whatever the fragmentation of the transfers.
    - Errors: a broken round trip costs no task, since the job runs here and is counted once; a
      request that cannot be served is refused with its reason and changes nothing.
    - Execution: running tasks never share memory although the arena is reset; the ring
      refines a bounded FIFO queue under every interleaving; the pool accounts
      for every accepted task and cannot stall with work left unless a permit was wasted;
      a future is set once, with what its callable returned or threw.
    - DAG: the structural invariant, soundness and completeness of ordering and cycle
      detection, the metrics as maxima over paths and levels, progress of [ready_tasks].
    - Policies: complete, feasible plans; the greedy choice is a best fit; the optimizer's
      search never worsens its estimate, which bounds every path and every node's load.
    - Messages: all round trips; an accepted submission is safe to schedule; frames survive
      any fragmentation; neither transport loses a descriptor; the reactor resumes each parked
      coroutine exactly once and stops; running coroutines frame by frame is running them in
      direct style, the server's coroutines do what [AsyncTransport] says, and any number of
      connections interleaved are each served as if alone.  In real time no wait ends later
      than twice the reactor thread's own delay.
    - Surroundings: advertisements arrive as sent; the cluster view is fit for the scheduler
      and a failure detector with explicit delays, table updates and notifications being
      separate steps; the threads obey a stop; every snapshot says what the kernel printed
      since the one before and both monitors keep their contract; the telemetry file is
      newline-delimited JSON, the log analyzer's report of it is exact, and after a submission
      it shows the counts the call returned; a daemon exits with 0 and leaves that file; the
      shipped configuration file, and each part of it, is the built-in configuration.  What is
      said of the metrics file needs ids free of quotes, backslashes and control characters.

    Further lemmas record where the code falls short,
    e.g. [ThreadPoolTheorems.wakeup_lost_and_join_hangs],
    [OrchestratorTheorems.job_outlives_the_call], [Reactor.second_waiter_drops_first],
    [AsyncTransport.serve_spins] and [Daemon.restarts_repeat_events].

    ** Bounds and fuel

    [Dag.kahn_loop] has one unit of fuel per entry of the in-degree table: a node is dequeued
    at most once.  [Dag.dfs_fuel] is one unit per node and edge.  Both are proved to suffice
    ([DagTheorems.topological_order_total_and_sound], [DagTheorems.has_cycle_correct]), as is
    the length of the optimizer's critical-path trace.  The busy loop of a task and the
    polling, transfer and reactor loops consume one observation per iteration; the theorems
    that they end ([TaskRunner.execute_returns],
    [OrchestratorTheorems.submit_workload_returns], [Transport.frames_survive_any_chunking],
    [Reactor.reactor_stops], [Loops.loops_stop]) give the number.  The scanner of [Json] is shown
    to have fuel enough ([Json.scan_stable]); a loop of a coroutine body is unfolded once per
    answer of the kernel, and [ServerTheorems.server_progress] shows that a connection goes on
    as long as its transfers are fewer than its fuel.  Positions of the ring are natural numbers: they
    agree with the [size_t] counters as long as fewer than 2^63 operations are performed.

    ** Not modelled

    Weak memory: the atomics are sequentially consistent.  Submissions and offload requests
    that a node serves at the same time are modelled one by one; what they share is the arena
    ([ArenaLock]), the pool ([ThreadPool]) and the server ([Server]).  Destruction order of members, the
    banner and the usage text, [flush], socket options, and moves of an [Async] object.  How
    long a sleep lasts is an input: the clock and token readings around it.  The signal
    handler's flag is an input of [Daemon.main_loop].  The syntax of TOML, the wire encoding by
    protobuf and [std::mt19937] itself are behind the classes of toml++, protobuf and the
    standard library; what toml++ answers about a parsed document is [DefaultToml.shows].  The
    build description [CMakeLists.txt] is not code the program runs.  In the scripts: argparse
    (their [main] starts from its result), numbers in digits other than ASCII, the text
    [json.dumps] prints, which needs the shortest decimal form of every double, and the
    wording of warnings. *)

From Stdlib Require Import ZArith Lia.
From stdpp Require Import base gmap strings relations numbers finite list.

Local Open Scope Z_scope.

(** * Machine integers

    Unsigned arithmetic wraps modulo the width; a signed cast keeps the
    two's-complement residue.  [Z] is the carrier everywhere. *)

Declare Scope cpp_scope.
Delimit Scope cpp_scope with cpp.

Definition u8 (z : Z) : Z := z mod 2 ^ 8.
Definition u16 (z : Z) : Z := z mod 2 ^ 16.
Definition u32 (z : Z) : Z := z mod 2 ^ 32.
Definition u64 (z : Z) : Z := z mod 2 ^ 64.
Definition i64 (z : Z) : Z := (z + 2 ^ 63) mod 2 ^ 64 - 2 ^ 63.

Definition is_u64 (z : Z) : Prop := 0 <= z < 2 ^ 64.
Definition is_i64 (z : Z) : Prop := - 2 ^ 63 <= z < 2 ^ 63.

Definition u64_max : Z := 2 ^ 64 - 1.
Definition i64_max : Z := 2 ^ 63 - 1.

Notation "x +! y" := (u64 (x + y)) (at level 50, left associativity) : cpp_scope.
Notation "x -! y" := (u64 (x - y)) (at level 50, left associativity) : cpp_scope.
Notation "x *! y" := (u64 (x * y)) (at level 40, left associativity) : cpp_scope.

Lemma u64_small z : is_u64 z -> u64 z = z.
Proof. apply Z.mod_small. Qed.

Lemma u64_range z : is_u64 (u64 z).
Proof. unfold is_u64, u64. apply Z.mod_pos_bound. lia. Qed.

Lemma i64_range z : is_i64 (i64 z).
Proof.
  unfold is_i64, i64.
  pose proof (Z.mod_pos_bound (z + 2 ^ 63) (2 ^ 64)). lia.
Qed.

Lemma i64_small z : is_i64 z -> i64 z = z.
Proof. unfold is_i64, i64. intros. rewrite Z.mod_small; lia. Qed.

(** Casting an [int64_t] to [uint64_t] and back is the identity. *)
Lemma i64_u64 z : is_i64 z -> i64 (u64 z) = z.
Proof.
  unfold i64, u64. intros H.
  rewrite Zplus_mod_idemp_l. apply (i64_small z H).
Qed.

(** * Iteration order of unordered containers

    The order in which a range-for visits an [std::unordered_map] is
    unspecified.  Every definition that iterates one goes through [iter], and
    every theorem is stated for an arbitrary instance: it holds for each
    enumeration of the entries. *)

Class IterOrder := {
  iter : forall {K V : Type} `{Countable K}, gmap K V -> list (K * V);
  iter_perm : forall {K V : Type} `{Countable K} (m : gmap K V),
      iter m ≡ₚ map_to_list m
}.

(** Two concrete orders, used to evaluate the model. *)
Definition IterCanonical : IterOrder :=
  {| iter := fun K V _ _ m => map_to_list m;
     iter_perm := fun K V _ _ m => reflexivity _ |}.

Lemma iter_reversed_perm {K V} `{Countable K} (m : gmap K V) :
  reverse (map_to_list m) ≡ₚ map_to_list m.
Proof. apply reverse_Permutation. Qed.

Definition IterReversed : IterOrder :=
  {| iter := fun K V _ _ m => reverse (map_to_list m);
     iter_perm := fun K V _ _ m => iter_reversed_perm m |}.

(** [m\[k\]] of [std::unordered_map], read: an absent key is the
    value-initialised element. *)
Definition at_or {K V} `{Countable K} (d : V) (m : gmap K V) (k : K) : V :=
  default d (m !! k).

Section Iter.
Context {IO : IterOrder} {K V : Type} `{Countable K}.
Implicit Types m : gmap K V.

Lemma elem_of_iter m k v : (k, v) ∈ iter m <-> m !! k = Some v.
Proof. rewrite iter_perm. apply elem_of_map_to_list. Qed.

Lemma NoDup_iter_fst m : NoDup ((iter m).*1).
Proof. rewrite iter_perm. apply NoDup_fst_map_to_list. Qed.

Lemma elem_of_iter_fst m k : k ∈ (iter m).*1 <-> is_Some (m !! k).
Proof.
  rewrite list_elem_of_fmap. split.
  - intros ([k' v] & -> & Hin). apply elem_of_iter in Hin. eauto.
  - intros [v Hv]. exists (k, v). rewrite elem_of_iter. eauto.
Qed.

Lemma length_iter m : length (iter m) = size m.
Proof. rewrite iter_perm. apply length_map_to_list. Qed.
End Iter.

(** The loop [for (const auto& \[id, _\] : m) acc\[id\] = c;] on an empty
    accumulator. *)
Lemma foldl_init_list {K V W} `{Countable K} (c : W) (l : list (K * V)) (m : gmap K W) (j : K) :
  foldl (fun acc '(k, _) => <[k := c]> acc) m l !! j
  = if decide (j ∈ l.*1) then Some c else m !! j.
Proof.
  revert m. induction l as [|[k v] l IH]; intros m; [done|].
  cbn [foldl]. rewrite IH, lookup_insert, fmap_cons. cbn [fst].
  repeat case_decide; set_solver.
Qed.

Lemma foldl_init_lookup {IO : IterOrder} {K V W} `{Countable K} (c : W) (m : gmap K V) (j : K) :
  foldl (fun (acc : gmap K W) '(k, _) => <[k := c]> acc) ∅ (iter m) !! j
  = (fun _ => c) <$> m !! j.
Proof.
  rewrite foldl_init_list. rewrite lookup_empty.
  case_decide as Hj; rewrite elem_of_iter_fst in Hj.
  - by destruct Hj as [v ->].
  - destruct (m !! j) eqn:E; [exfalso; eauto|done].
Qed.

(** * Lists of integers *)

(** Number of occurrences of [x] in a list. *)
Fixpoint occ {A} `{EqDecision A} (x : A) (l : list A) : Z :=
  match l with
  | [] => 0
  | y :: l' => (if decide (x = y) then 1 else 0) + occ x l'
  end.

(** Sum of [f] over a list. *)
Fixpoint sumZ {A} (f : A -> Z) (l : list A) : Z :=
  match l with
  | [] => 0
  | x :: l' => f x + sumZ f l'
  end.

Section Occ.
Context {A : Type} `{EqDecision A}.
Implicit Types l : list A.

Lemma occ_nonneg x l : 0 <= occ x l.
Proof. induction l; simpl; [lia|]. case_decide; lia. Qed.

Lemma occ_pos x l : 0 < occ x l <-> x ∈ l.
Proof.
  induction l as [|y l IH]; simpl.
  - split; [lia|]. by intros ?%not_elem_of_nil.
  - rewrite elem_of_cons, <- IH. pose proof (occ_nonneg x l).
    case_decide; split; intros; try lia; destruct_or?; try done; auto with lia.
Qed.

Lemma occ_app x l k : occ x (l ++ k) = occ x l + occ x k.
Proof. induction l; simpl; lia. Qed.
End Occ.

Section SumZ.
Context {A : Type}.
Implicit Types (f g : A -> Z) (l : list A).

Lemma sumZ_app f l k : sumZ f (l ++ k) = sumZ f l + sumZ f k.
Proof. induction l; simpl; lia. Qed.

Lemma sumZ_nonneg f l : (forall x, x ∈ l -> 0 <= f x) -> 0 <= sumZ f l.
Proof.
  induction l as [|x l IH]; simpl; intros Hf; [lia|].
  pose proof (Hf x (list_elem_of_here _ _)).
  enough (0 <= sumZ f l) by lia. apply IH. set_solver.
Qed.

Lemma sumZ_ext f g l : (forall x, x ∈ l -> f x = g x) -> sumZ f l = sumZ g l.
Proof.
  induction l as [|x l IH]; simpl; intros Hfg; [done|].
  rewrite Hfg, IH; set_solver.
Qed.

Lemma sumZ_add f g l : sumZ (fun x => f x + g x) l = sumZ f l + sumZ g l.
Proof. induction l; simpl; lia. Qed.

Lemma sumZ_le f g l : (forall x, x ∈ l -> f x <= g x) -> sumZ f l <= sumZ g l.
Proof.
  induction l as [|x l IH]; simpl; intros Hfg; [lia|].
  pose proof (Hfg x (list_elem_of_here _ _)).
  enough (sumZ f l <= sumZ g l) by lia. apply IH. set_solver.
Qed.

Lemma sumZ_elem_le f l x :
  (forall y, y ∈ l -> 0 <= f y) -> x ∈ l -> f x <= sumZ f l.
Proof.
  intros Hf Hx. apply list_elem_of_split in Hx as (l1 & l2 & ->).
  rewrite sumZ_app. simpl.
  pose proof (sumZ_nonneg f l1 ltac:(set_solver)).
  pose proof (sumZ_nonneg f l2 ltac:(set_solver)). lia.
Qed.

Lemma sumZ_all_zero f l : (forall x, x ∈ l -> f x = 0) -> sumZ f l = 0.
Proof.
  induction l as [|x l IH]; simpl; intros Hf; [done|]. rewrite (Hf x), IH; set_solver.
Qed.

Lemma sumZ_zero f l :
  (forall x, x ∈ l -> 0 <= f x) -> sumZ f l = 0 -> forall x, x ∈ l -> f x = 0.
Proof.
  intros Hf H0 x Hx. pose proof (Hf x Hx).
  pose proof (sumZ_elem_le f l x Hf Hx). lia.
Qed.

#[export] Instance sumZ_perm f : Proper ((≡ₚ) ==> eq) (sumZ f).
Proof. intros l k. induction 1; simpl; congruence || lia. Qed.
End SumZ.

Lemma sumZ_fmap {A B} (h : A -> B) (f : B -> Z) (l : list A) :
  sumZ f (h <$> l) = sumZ (fun x => f (h x)) l.
Proof. induction l; csimpl; [done|congruence]. Qed.

(** A sub-multiset has a smaller sum when the summand is nonnegative. *)
Lemma sumZ_submseteq {A} (f : A -> Z) (l k : list A) :
  (forall x, x ∈ k -> 0 <= f x) -> l ⊆+ k -> sumZ f l <= sumZ f k.
Proof.
  intros Hf Hs. apply submseteq_Permutation in Hs as (k' & Hk).
  rewrite Hk, sumZ_app.
  enough (0 <= sumZ f k') by lia.
  apply sumZ_nonneg. intros x Hx. apply Hf. rewrite Hk. set_solver.
Qed.

Lemma filter_all {A} (P : A -> Prop) `{!forall x, Decision (P x)} (l : list A) :
  Forall P l -> filter P l = l.
Proof. induction 1 as [|x l Hx _ IH]; [done|]. rewrite filter_cons_True by done. by rewrite IH. Qed.

(** Induction along a loop: the invariant sees what has been processed. *)
Lemma foldl_inv {A B} (P : list B -> A -> Prop) (f : A -> B -> A) a l :
  P [] a -> (forall done x y, P done x -> P (done ++ [y]) (f x y)) -> P l (foldl f a l).
Proof.
  intros Ha Hf. rewrite <- (app_nil_l l) at 1. revert Ha. generalize (@nil B). revert a.
  induction l as [|y l IH]; intros a k Hk; simpl; [by rewrite app_nil_r|].
  rewrite (assoc_L (++) k [y] l : k ++ y :: l = _). apply IH. by apply Hf.
Qed.

(** The same, for an invariant that also needs to know where in the list the loop is. *)
Lemma foldl_prefix_inv {A B} (P : list B -> A -> Prop) (f : A -> B -> A) a l :
  P [] a -> (forall done y rest x, l = done ++ y :: rest -> P done x -> P (done ++ [y]) (f x y)) ->
  P l (foldl f a l).
Proof.
  intros Ha Hf.
  assert (H : forall done rest x, l = done ++ rest -> P done x -> P l (foldl f x rest)).
  { intros done rest. revert done. induction rest as [|y rest IH]; intros done x E Hx; simpl.
    - by rewrite app_nil_r in E; subst.
    - apply (IH (done ++ [y])); [by rewrite <- (assoc_L (++))|by eapply Hf]. }
  by apply (H [] l).
Qed.

(** A property that steps preserve holds along a run. *)
Lemma rtc_preserve {A} (P : A -> Prop) (R : relation A) x y :
  (forall a b, P a -> R a b -> P b) -> rtc R x y -> P x -> P y.
Proof. intros Hstep Hr. induction Hr; eauto. Qed.

Lemma sum_list_with_insert {A} (f : A -> nat) (l : list A) (i : nat) (x y : A) :
  l !! i = Some x -> (sum_list_with f (<[i := y]> l) + f x = sum_list_with f l + f y)%nat.
Proof.
  revert i. induction l as [|z l IH]; intros [|i] Hi; try done; simpl in *.
  - injection Hi as ->. lia.
  - specialize (IH _ Hi). lia.
Qed.

(** Changing the summand at one element of a duplicate-free list. *)
Lemma sum_list_with_update {A} (f g : A -> nat) (l : list A) (x : A) :
  NoDup l -> x ∈ l -> (forall y, y <> x -> f y = g y) ->
  (sum_list_with g l + f x = sum_list_with f l + g x)%nat.
Proof.
  intros Hnd Hx Hfg. apply list_elem_of_split in Hx as (l1 & l2 & ->).
  apply NoDup_app in Hnd as (_ & Hn1 & [Hn2 _]%NoDup_cons).
  rewrite !sum_list_with_app. simpl.
  enough (forall l, x ∉ l -> sum_list_with f l = sum_list_with g l) as Hs.
  { rewrite (Hs l1), (Hs l2); [lia|done|]. intros Hx. apply (Hn1 x Hx). left. }
  induction l as [|y l IH]; simpl; [done|]. intros Hx.
  rewrite Hfg, IH; set_solver.
Qed.

Lemma sum_list_with_ext_le {A} (f g : A -> nat) (l : list A) :
  (forall x, (f x <= g x)%nat) -> (sum_list_with f l <= sum_list_with g l)%nat.
Proof. intros Hfg. induction l as [|y l IH]; simpl; [done|]. specialize (Hfg y). lia. Qed.

(** Left folds with [Z.max], the shape of every "take the maximum" loop. *)
Lemma foldl_max_spec {A} (f : A -> Z) (l : list A) (z : Z) :
  let r := foldl (fun acc x => Z.max acc (f x)) z l in
  z <= r /\ (forall x, x ∈ l -> f x <= r) /\ (r = z \/ exists x, x ∈ l /\ r = f x).
Proof.
  revert z. induction l as [|y l IH]; intros z; simpl.
  - split; [lia|]. split; [set_solver|auto].
  - destruct (IH (Z.max z (f y))) as (H1 & H2 & H3). split; [lia|]. split.
    + intros x [->|Hx]%elem_of_cons; [lia|auto].
    + destruct H3 as [Heq|(x & Hx & Heq)].
      * destruct (Z.max_spec z (f y)) as [[_ Hm]|[_ Hm]]; [right|left].
        -- exists y. split; [left|congruence].
        -- congruence.
      * right. exists x. split; [by right|done].
Qed.

Lemma foldl_pointwise {A B} (f g : A -> B -> A) (l : list B) (a : A) :
  (forall a b, f a b = g a b) -> foldl f a l = foldl g a l.
Proof. intros Hfg. revert a. induction l; intros a'; simpl; [done|]. by rewrite Hfg. Qed.

(** The same loop over the values of a map's entries. *)
Lemma foldl_max_entries {K} (l : list (K * Z)) (z : Z) :
  foldl (fun acc '(_, x) => Z.max acc x) z l = foldl (fun acc x => Z.max acc x.2) z l.
Proof. revert z. induction l as [|[k x] l IH]; intros z; simpl; [done|apply IH]. Qed.

(** [std::max] accumulated over the naturals a partial function yields. *)
Lemma foldl_omax_spec {A} (f : A -> option nat) (l : list A) (n : nat) :
  let r := foldl (fun m x => match f x with Some k => Nat.max m k | None => m end) n l in
  (n <= r)%nat /\ (forall x k, x ∈ l -> f x = Some k -> (k <= r)%nat) /\
  (r = n \/ exists x, x ∈ l /\ f x = Some r).
Proof.
  revert n. induction l as [|y l IH]; intros n; cbn [foldl].
  - split; [done|]. split; [set_solver|auto].
  - destruct (IH (match f y with Some k => Nat.max n k | None => n end)) as (H1 & H2 & H3).
    split; [destruct (f y); lia|]. split.
    + intros x k [->|Hx]%elem_of_cons Hk; [rewrite Hk in H1; rewrite Hk; lia|by eapply H2].
    + destruct H3 as [Heq|(x & Hx & Hk)]; [|right; exists x; split; [by right|done]].
      rewrite Heq. destruct (f y) as [k|] eqn:Hk; [|by left].
      destruct (Nat.max_spec n k) as [[_ Hm]|[_ Hm]]; rewrite Hm; [right|by left].
      exists y. split; [left|congruence].
Qed.

(** * Finite graphs *)

Section Graph.
Context {A : Type} (R : relation A).

Definition acyclic : Prop := forall x, ~ tc R x x.

(** [l] lists its elements so that every predecessor of an element occurs
    before it. *)
Definition topo_sorted (l : list A) : Prop :=
  forall l1 x l2, l = l1 ++ x :: l2 -> forall u, R u x -> u ∈ l1.

Lemma topo_sorted_nil : topo_sorted [].
Proof. intros [|??] ???; done. Qed.

Lemma topo_sorted_snoc l x :
  topo_sorted l -> (forall u, R u x -> u ∈ l) -> topo_sorted (l ++ [x]).
Proof.
  intros Hl Hx l1 y l2 Heq u Hu.
  destruct l2 as [|z l2 _] using rev_ind.
  - apply app_inj_tail in Heq as [-> ->]. auto.
  - rewrite app_comm_cons, app_assoc in Heq.
    apply app_inj_tail in Heq as [-> ->]. eauto.
Qed.

Lemma topo_sorted_app l k :
  topo_sorted l -> (forall x u, x ∈ k -> R u x -> u ∈ l) -> topo_sorted (l ++ k).
Proof.
  intros Hl. induction k as [|x k IH] using rev_ind; intros Hk.
  - by rewrite app_nil_r.
  - rewrite app_assoc. apply topo_sorted_snoc; [apply IH|]; set_solver.
Qed.

Lemma topo_sorted_prefix l k : topo_sorted (l ++ k) -> topo_sorted l.
Proof.
  intros H l1 x l2 -> u Hu. apply (H l1 x (l2 ++ k)); [|done].
  by rewrite <- app_assoc.
Qed.

(** A measure that strictly decreases along every edge excludes cycles. *)
Lemma rank_acyclic (f : A -> nat) :
  (forall x y, R x y -> (f x < f y)%nat) -> acyclic.
Proof.
  intros Hf x Hx.
  enough (forall y, tc R x y -> (f x < f y)%nat) as Hlt.
  { specialize (Hlt x Hx). lia. }
  clear Hx. intros y. induction 1 as [a b H|a b c H ? IH]; apply Hf in H; lia.
Qed.

Lemma chain_tc (l : list A) :
  (forall i a b, l !! i = Some a -> l !! S i = Some b -> R a b) ->
  forall i j a b, (i < j)%nat -> l !! i = Some a -> l !! j = Some b -> tc R a b.
Proof.
  intros Hc i j a b Hij Ha. revert b. induction Hij as [|j Hij IH]; intros b Hb.
  - apply tc_once. eauto.
  - destruct (lookup_lt_is_Some_2 l j) as [c Hc'].
    { apply lookup_lt_Some in Hb. lia. }
    eapply tc_r; eauto.
Qed.

(** A nonempty finite set in which every element has a predecessor
    contains a cycle. *)
Lemma no_source_cycle (X : list A) (x0 : A) :
  x0 ∈ X -> (forall x, x ∈ X -> exists y, y ∈ X /\ R y x) ->
  exists x, x ∈ X /\ tc R x x.
Proof.
  intros H0 Hpred.
  assert (forall n, exists l, length l = S n /\ l ⊆ X /\
            forall i a b, l !! i = Some a -> l !! S i = Some b -> R a b) as Hchain.
  { induction n as [|n (l & Hlen & Hl & Hc)].
    - exists [x0]. split; [done|]. split; [set_solver|]. intros [|i] ??; done.
    - destruct l as [|a l]; [done|].
      destruct (Hpred a) as (b & Hb & HR); [set_solver|].
      exists (b :: a :: l). split; [simpl in *; lia|]. split; [set_solver|].
      intros [|i] c d; simpl; [|apply Hc]. intros ??; by simplify_eq. }
  destruct (Hchain (length X)) as (l & Hlen & Hl & Hc).
  destruct (list_pigeonhole l X Hl) as (i & j & x & Hij & Hi & Hj); [lia|].
  exists x. split; [|by eapply chain_tc]. apply Hl. by eapply list_elem_of_lookup_2.
Qed.

(** In a duplicate-free topologically sorted list the position is a rank. *)
Lemma topo_sorted_rank (l : list A) `{EqDecision A} :
  NoDup l -> topo_sorted l ->
  exists f : A -> nat, forall x y, R x y -> y ∈ l -> x ∈ l /\ (f x < f y)%nat.
Proof.
  intros Hnd Ht. exists (fun x => default 0%nat (fst <$> list_find (x =.) l)).
  intros x y Hxy Hy.
  destruct (list_find_elem_of (y =.) l y Hy eq_refl) as [[j y'] Hj].
  pose proof Hj as (Hjl & -> & _)%list_find_Some.
  pose proof (Ht (take j l) y' (drop (S j) l)) as Hpre.
  rewrite take_drop_middle in Hpre by done.
  specialize (Hpre eq_refl x Hxy).
  apply list_elem_of_lookup in Hpre as [i Hi].
  apply lookup_take_Some in Hi as [Hi Hij].
  assert (x ∈ l) as Hx by by eapply list_elem_of_lookup_2.
  destruct (list_find_elem_of (x =.) l x) as [[i' x'] Hi']; [done..|].
  pose proof Hi' as (Hil & -> & _)%list_find_Some.
  rewrite Hj, Hi'. simpl. split; [done|].
  assert (i' = i) as -> by (eapply NoDup_lookup; eauto). lia.
Qed.

(** If moreover the list is closed under the relation, there is no cycle. *)
Lemma topo_sorted_acyclic (l : list A) `{EqDecision A} :
  NoDup l -> topo_sorted l -> (forall x y, R x y -> x ∈ l /\ y ∈ l) -> acyclic.
Proof.
  intros Hnd Ht Hcl. destruct (topo_sorted_rank l Hnd Ht) as [f Hf].
  apply (rank_acyclic f). intros x y Hxy. apply Hf; [done|]. by apply (Hcl x y).
Qed.
End Graph.

(** * Automation *)

Create HintDb edge.
Create Rewrite HintDb dag.
Create Rewrite HintDb dag_ops.
#[export] Hint Resolve u64_small u64_range i64_range i64_u64 occ_nonneg : edge.
#[export] Hint Resolve elem_of_iter NoDup_iter_fst : edge.

(** Destruct every decidable or boolean conditional and clean up. *)
Ltac split_ifs :=
  repeat (case_decide || case_match || case_bool_decide); simplify_eq/=.

(** Closes a decidable goal on concrete data by evaluation. *)
Ltac decide_now :=
  match goal with |- ?P => refine (bool_decide_eq_true_1 P _) end; vm_compute; reflexivity.
