(* ===== verification/Text.v ===== *)
(** Reading text the way the C++ library does: [std::getline], [std::istringstream >>],
    [std::stol] and [std::stoull], on strings as lists of characters in the C locale; and
    the numbers that [std::to_string] and the kernel print are read back exactly. *)

From Stdlib Require Import ZArith Lia Ascii String.
From stdpp Require Import base strings numbers pretty list.
From S2P Require Import Prelude.

Local Open Scope Z_scope.

Abbreviation chars := String.list_ascii_of_string.
Abbreviation unchars := String.string_of_list_ascii.

(** * Strings *)

Lemma chars_app s t : chars (s +:+ t) = chars s ++ chars t.
Proof. induction s as [|c s IH]; simpl; [done|]. by rewrite IH. Qed.

Lemma chars_unchars l : chars (unchars l) = l.
Proof. apply String.list_ascii_of_string_of_list_ascii. Qed.

Lemma unchars_chars s : unchars (chars s) = s.
Proof. apply String.string_of_list_ascii_of_string. Qed.

Lemma sapp_assoc (s t u : string) : (s +:+ t) +:+ u = s +:+ (t +:+ u).
Proof.
  induction s as [|c s IH]; [done|].
  change (String c ((s +:+ t) +:+ u) = String c (s +:+ (t +:+ u))). by rewrite IH.
Qed.

Lemma sapp_nil (s : string) : s +:+ "" = s.
Proof. induction s as [|c s IH]; [done|]. change (String c (s +:+ "") = String c s). by rewrite IH. Qed.

(** [s.starts_with(p)], and the rest after [p]. *)
Fixpoint strip_prefix (p s : list ascii) : option (list ascii) :=
  match p, s with
  | [], _ => Some s
  | a :: p', b :: s' => if decide (a = b) then strip_prefix p' s' else None
  | _, [] => None
  end.

Definition starts_with (p s : string) : bool := bool_decide (is_Some (strip_prefix (chars p) (chars s))).

Lemma strip_prefix_app p s : strip_prefix p (p ++ s) = Some s.
Proof. induction p as [|a p IH]; cbn [app strip_prefix]; [done|]. by rewrite decide_True. Qed.

Lemma strip_prefix_Some p s r : strip_prefix p s = Some r -> s = p ++ r.
Proof.
  revert s. induction p as [|a p IH]; intros s; cbn [strip_prefix]; [by intros [= ->]|].
  destruct s as [|b s]; [done|]. case_decide; [|done]. subst. by intros ->%IH.
Qed.

(** * Lines *)

Definition newline : string := String (ascii_of_nat 10) EmptyString.

(** [while (std::getline(f, line))]: a last line without a newline counts when it is not
    empty. *)
Fixpoint split_lines (cur : list ascii) (l : list ascii) : list string :=
  match l with
  | [] => match cur with [] => [] | _ => [unchars (rev cur)] end
  | c :: l' => if decide (c = ascii_of_nat 10) then unchars (rev cur) :: split_lines [] l'
               else split_lines (c :: cur) l'
  end.

Definition file_lines (text : string) : list string := split_lines [] (chars text).

Definition one_line (s : string) : Prop := Forall (fun c => c <> ascii_of_nat 10) (chars s).

#[export] Instance one_line_dec s : Decision (one_line s).
Proof. unfold one_line. apply _. Defined.

Lemma one_line_app s t : one_line s -> one_line t -> one_line (s +:+ t).
Proof. unfold one_line. rewrite chars_app. apply Forall_app_2. Qed.

Definition text_of (lines : list string) : string :=
  foldr (fun l acc => l +:+ newline +:+ acc) "" lines.

Lemma split_lines_one l cur rest : Forall (fun c => c <> ascii_of_nat 10) l ->
  split_lines cur (l ++ ascii_of_nat 10 :: rest) = unchars (rev cur ++ l) :: split_lines [] rest.
Proof.
  intros Hl. revert cur. induction Hl as [|c l Hc _ IH]; intros cur; cbn [app split_lines].
  - by rewrite decide_True, app_nil_r.
  - rewrite decide_False by done. rewrite IH. cbn [rev]. by rewrite <- (assoc_L (++)).
Qed.

Lemma file_lines_text lines : Forall one_line lines -> file_lines (text_of lines) = lines.
Proof.
  unfold file_lines. induction 1 as [|l lines Hl _ IH]; [done|].
  change (text_of (l :: lines)) with (l +:+ newline +:+ text_of lines).
  rewrite !chars_app. change (chars newline) with [ascii_of_nat 10]. cbn [app].
  rewrite split_lines_one by done. rewrite IH. simpl. by rewrite unchars_chars.
Qed.

(** * Numbers *)

Definition digit (c : ascii) : option Z :=
  let n := Z.of_N (N_of_ascii c) in
  if (48 <=? n) && (n <=? 57) then Some (n - 48) else None.

(** A digit of a base up to 16. *)
Definition digit_in (base : Z) (c : ascii) : option Z :=
  let n := Z.of_N (N_of_ascii c) in
  let d := if (48 <=? n) && (n <=? 57) then n - 48
           else if (97 <=? n) && (n <=? 102) then n - 87
           else if (65 <=? n) && (n <=? 70) then n - 55
           else base in
  if d <? base then Some d else None.

(** The longest run of digits: whether there is one, its value, the rest. *)
Fixpoint digits (base acc : Z) (seen : bool) (l : list ascii) : bool * Z * list ascii :=
  match l with
  | [] => (seen, acc, [])
  | c :: l' =>
      match digit_in base c with
      | Some d => digits base (acc * base + d) true l'
      | None => (seen, acc, l)
      end
  end.

Definition is_space (c : ascii) : bool :=
  let n := N_of_ascii c in ((9 <=? n) && (n <=? 13) || (n =? 32))%N.

Fixpoint skip_space (l : list ascii) : list ascii :=
  match l with
  | c :: l' => if is_space c then skip_space l' else l
  | [] => []
  end.

(** An optional sign. *)
Definition sign (l : list ascii) : bool * list ascii :=
  match l with
  | "-"%char :: l' => (true, l')
  | "+"%char :: l' => (false, l')
  | _ => (false, l)
  end.

(** * [std::istringstream] *)

(** [good] is false once the end was reached or an extraction failed. *)
Record istream := mkStream { rest : list ascii; good : bool }.

Definition istringstream (s : string) : istream := mkStream (chars s) true.

(** [s >> x] for a [uint64_t]: a stream that is not good, or that has only white space
    left, leaves [x] alone; text that is no number stores 0, a number that is too large the
    maximum; a minus sign negates modulo [2^64]. *)
Definition extract_u64 (x : Z) (s : istream) : Z * istream :=
  if good s then
    match skip_space (rest s) with
    | [] => (x, mkStream [] false)
    | l =>
        let '(negative, l) := sign l in
        let '(seen, n, l) := digits 10 0 false l in
        if seen then
          if 2 ^ 64 <=? n then (2 ^ 64 - 1, mkStream l false)
          else ((if negative then u64 (- n) else n), mkStream l (negb (bool_decide (l = []))))
        else (0, mkStream l false)
    end
  else (x, s).

Fixpoint word (l : list ascii) : list ascii * list ascii :=
  match l with
  | c :: l' => if is_space c then ([], l) else let '(w, r) := word l' in (c :: w, r)
  | [] => ([], [])
  end.

(** [s >> x] for a [std::string]. *)
Definition extract_word (x : string) (s : istream) : string * istream :=
  if good s then
    match skip_space (rest s) with
    | [] => (x, mkStream [] false)
    | l => let '(w, r) := word l in (unchars w, mkStream r (negb (bool_decide (r = []))))
    end
  else (x, s).

(** Successive extractions into the variables of a list. *)
Fixpoint extract_all (xs : list Z) (s : istream) : list Z * istream :=
  match xs with
  | [] => ([], s)
  | x :: xs' => let '(v, s) := extract_u64 x s in let '(vs, s) := extract_all xs' s in (v :: vs, s)
  end.

(** * [std::stol] and [std::stoull]

    [None] when the call throws. *)

Definition stol (s : string) : option Z :=
  let '(negative, l) := sign (skip_space (chars s)) in
  let '(seen, n, _) := digits 10 0 false l in
  let v := if negative : bool then - n else n in
  if seen : bool then if (- 2 ^ 63 <=? v) && (v <? 2 ^ 63) then Some v else None else None.

(** [std::stoull(s, nullptr, 0)]: the prefix says the base. *)
Definition stoull0 (s : string) : option Z :=
  let '(negative, l) := sign (skip_space (chars s)) in
  let '(base, l) :=
    match l with
    | "0"%char :: x :: c :: l' =>
        if ((bool_decide (x = "x"%char) || bool_decide (x = "X"%char)) && bool_decide (is_Some (digit_in 16 c)))
        then (16, c :: l') else (8, l)
    | "0"%char :: _ => (8, l)
    | _ => (10, l)
    end in
  let '(seen, n, _) := digits base 0 false l in
  if seen : bool then if n <? 2 ^ 64 then Some (if negative : bool then u64 (- n) else n) else None else None.

(** * Printed numbers are read back *)

(** The text does not go on with a digit. *)
Definition ends_number (l : list ascii) : Prop :=
  match l with c :: _ => digit_in 10 c = None | [] => True end.

Lemma digits_stop l acc : ends_number l -> digits 10 acc true l = (true, acc, l).
Proof. destruct l as [|c l]; cbn [ends_number digits]; [done|]. by intros ->. Qed.

Lemma pretty_char_digit (x : N) : (x < 10)%N -> digit_in 10 (pretty_N_char x) = Some (Z.of_N x).
Proof.
  intros Hx. assert (x ∈ [0;1;2;3;4;5;6;7;8;9])%N as Hin by (rewrite !elem_of_cons; lia).
  repeat (apply elem_of_cons in Hin as [->|Hin]; [reflexivity|]). by apply elem_of_nil in Hin.
Qed.

(** The digits [pretty_N_go] puts in front of a text. *)
Lemma digits_pretty_go (x : N) s acc seen :
  exists k, digits 10 acc seen (chars (pretty_N_go x s)) =
            digits 10 (acc * 10 ^ k + Z.of_N x) (seen || (0 <? x)%N) (chars s) /\ 0 <= k.
Proof.
  revert s acc seen. induction (N.lt_wf_0 x) as [x _ IH]; intros s acc seen.
  assert (x = 0 \/ 0 < x)%N as [->|Hx] by lia.
  { exists 0. rewrite pretty_N_go_0, orb_false_r. split; [|lia]. f_equal. lia. }
  rewrite pretty_N_go_step by done.
  assert (x `div` 10 < x)%N as Hlt by (apply N.div_lt; lia).
  destruct (IH _ Hlt (String (pretty_N_char (x `mod` 10)) s) acc seen)
    as (k & -> & Hk). exists (k + 1).
  cbn [String.list_ascii_of_string digits]. rewrite pretty_char_digit by (apply N.mod_lt; done).
  rewrite (proj2 (N.ltb_lt _ _) Hx), orb_true_r. split; [|lia]. f_equal.
  rewrite Z.pow_add_r, N2Z.inj_div, N2Z.inj_mod by lia. pose proof (Z.div_mod (Z.of_N x) 10). lia.
Qed.

Lemma digits_pretty (n : Z) l : 0 <= n -> ends_number l ->
  digits 10 0 false (chars (pretty n) ++ l) = (true, n, l).
Proof.
  intros Hn Hl. assert (exists x : N, n = Z.of_N x) as [x ->] by (exists (Z.to_N n); lia).
  assert (pretty (Z.of_N x) = pretty x) as ->.
  { destruct x; reflexivity. }
  rewrite <- (chars_unchars l) at 1. rewrite <- chars_app.
  unfold pretty, pretty_N. case_decide as Hx.
  { subst. change (chars ("0" +:+ unchars l)) with ("0"%char :: chars (unchars l)).
    rewrite chars_unchars. cbn. by apply digits_stop. }
  assert (forall y s t, pretty_N_go y s +:+ t = pretty_N_go y (s +:+ t)) as Happ.
  { intros y. induction (N.lt_wf_0 y) as [y _ IH]; intros s t.
    assert (y = 0 \/ 0 < y)%N as [->|Hy] by lia; [by rewrite !pretty_N_go_0|].
    rewrite !(pretty_N_go_step y) by done. rewrite IH by (apply N.div_lt; lia). done. }
  rewrite Happ. destruct (digits_pretty_go x ("" +:+ unchars l) 0 false) as (k & -> & _).
  change ("" +:+ unchars l) with (unchars l). rewrite chars_unchars, (proj2 (N.ltb_lt 0 x)) by lia.
  cbn [orb]. rewrite digits_stop by done. do 2 f_equal.
Qed.

(** No sign and no space in front of a printed nonnegative number. *)
Lemma pretty_head (n : Z) : 0 <= n -> exists c r, chars (pretty n) = c :: r /\ is_Some (digit_in 10 c).
Proof.
  intros Hn. pose proof (digits_pretty n [] Hn I) as H. rewrite app_nil_r in H.
  destruct (chars (pretty n)) as [|c r]; [done|]. exists c, r. split; [done|].
  cbn [digits] in H. destruct (digit_in 10 c); [eauto|done].
Qed.

Lemma digit_plain c : is_Some (digit_in 10 c) -> is_space c = false /\ forall l, sign (c :: l) = (false, c :: l).
Proof.
  intros [d Hd]. destruct c as [[] [] [] [] [] [] [] []]; try discriminate Hd; (split; [reflexivity|intros; reflexivity]).
Qed.

Lemma skip_space_replicate k l : skip_space (replicate k " "%char ++ l) = skip_space l.
Proof. by induction k. Qed.

Lemma extract_pretty x n k l : 0 <= n < 2 ^ 64 -> ends_number l ->
  extract_u64 x (mkStream (replicate k " "%char ++ chars (pretty n) ++ l) true) =
  (n, mkStream l (negb (bool_decide (l = [])))).
Proof.
  intros Hn Hl. unfold extract_u64. cbn [good rest]. rewrite skip_space_replicate.
  destruct (pretty_head n) as (c & r & E & Hc); [lia|].
  assert (skip_space (chars (pretty n) ++ l) = chars (pretty n) ++ l) as ->.
  { rewrite E. cbn [app skip_space]. by rewrite (proj1 (digit_plain c Hc)). }
  pose proof (digits_pretty n l (proj1 Hn) Hl) as Hd. rewrite E in Hd |- *. cbn [app] in Hd |- *.
  rewrite (proj2 (digit_plain c Hc)), Hd. rewrite (proj2 (Z.leb_gt (2 ^ 64) n)) by lia. done.
Qed.

(** A line of numbers, each after at least one space. *)
Definition spaced (ns : list (nat * Z)) : list ascii :=
  mjoin ((fun '(k, n) => replicate (S k) " "%char ++ chars (pretty n)) <$> ns).

Lemma spaced_ends ns l : ends_number l -> ends_number (spaced ns ++ l).
Proof. by destruct ns as [|[k n] ns]. Qed.

Lemma extract_spaced xs ns l : length xs = length ns -> Forall (fun '(_, n) => 0 <= n < 2 ^ 64) ns ->
  l <> [] -> ends_number l ->
  extract_all xs (mkStream (spaced ns ++ l) true) = (ns.*2, mkStream l true).
Proof.
  intros Hlen Hns Hl He. revert xs Hlen. induction Hns as [|[k n] ns Hn Hns IH]; intros [|x xs] Hlen; try done.
  cbn [extract_all]. change (spaced ((k, n) :: ns)) with ((replicate (S k) " "%char ++ chars (pretty n)) ++ spaced ns).
  rewrite <- !(assoc_L (++)). rewrite extract_pretty; [|exact Hn|by apply spaced_ends].
  rewrite bool_decide_eq_false_2 by (intros [_ ?]%app_eq_nil; done). cbn [negb].
  rewrite IH by (simpl in Hlen; lia). done.
Qed.
