(* ===== verification/Json.v ===== *)
(** Python's [json.loads] as [tools/log_analyzer.py] uses it, on ASCII text: the scanner of
    the standard library with its numbers, strings, constants, arrays and objects.

    The value of a number with a fraction or an exponent is the binary64 nearest to it.
    Strings are lists of code points.  The interpreter's limits on nesting depth and on the
    digits of an integer are not modelled. *)

From Stdlib Require Import ZArith Lia Ascii String SpecFloat.
From stdpp Require Import base strings numbers pretty list.
From S2P Require Import Prelude Text.

Local Open Scope Z_scope.

(** * Values *)

Inductive pyvalue :=
  | PNone
  | PBool (b : bool)
  | PInt (z : Z)
  | PFloat (x : spec_float)
  | PStr (s : list Z)
  | PList (l : list pyvalue)
  | PDict (members : list (list Z * pyvalue)).   (** as written; a later member hides an earlier one *)

Definition code (c : ascii) : Z := Z.of_N (N_of_ascii c).
Definition codes (s : string) : list Z := code <$> chars s.

(** * Scanning *)

(** The whitespace of JSON. *)
Definition is_ws (c : ascii) : bool :=
  let n := code c in (n =? 32) || (n =? 9) || (n =? 10) || (n =? 13).

Fixpoint skip_ws (l : list ascii) : list ascii :=
  match l with
  | c :: l' => if is_ws c then skip_ws l' else l
  | [] => []
  end.

(** The text after the character [c], if it starts with it. *)
Definition after (c : ascii) (l : list ascii) : option (list ascii) :=
  match l with
  | d :: l' => if decide (d = c) then Some l' else None
  | [] => None
  end.

Definition hex4 (a b c d : ascii) : option Z :=
  a ← digit_in 16 a; b ← digit_in 16 b; c ← digit_in 16 c; d ← digit_in 16 d;
  Some (((a * 16 + b) * 16 + c) * 16 + d).

Definition unescape (e : ascii) : option Z :=
  match code e with
  | 34 => Some 34 | 92 => Some 92 | 47 => Some 47 | 98 => Some 8
  | 102 => Some 12 | 110 => Some 10 | 114 => Some 13 | 116 => Some 9
  | _ => None
  end.

(** The rest of a string after its opening quote; control characters are refused. *)
Fixpoint scan_chars (l : list ascii) : option (list Z * list ascii) :=
  match l with
  | [] => None
  | c :: l1 =>
      if code c =? 34 then Some ([], l1)
      else if code c =? 92 then
        match l1 with
        | [] => None
        | e :: l2 =>
            if code e =? 117 then
              match l2 with
              | x1 :: x2 :: x3 :: x4 :: l3 =>
                  u ← hex4 x1 x2 x3 x4; '(s, r) ← scan_chars l3; Some (u :: s, r)
              | _ => None
              end
            else u ← unescape e; '(s, r) ← scan_chars l2; Some (u :: s, r)
        end
      else if code c <? 32 then None
      else '(s, r) ← scan_chars l1; Some (code c :: s, r)
  end.

(** Two escapes that form a surrogate pair are one character. *)
Fixpoint join_surrogates (s : list Z) : list Z :=
  match s with
  | hi :: s' =>
      match s' with
      | lo :: s'' =>
          if (55296 <=? hi) && (hi <=? 56319) && (56320 <=? lo) && (lo <=? 57343)
          then 65536 + (hi - 55296) * 1024 + (lo - 56320) :: join_surrogates s''
          else hi :: join_surrogates s'
      | [] => [hi]
      end
  | [] => []
  end.

Definition scan_string (l : list ascii) : option (list Z * list ascii) :=
  '(s, r) ← scan_chars l; Some (join_surrogates s, r).

(** The binary64 nearest to [num / den], both positive. *)
Definition double_ratio (neg : bool) (num den : Z) : spec_float :=
  match num, den with
  | Zpos n, Zpos d => SFdiv 53 1024 (S754_finite neg n 0) (S754_finite false d 0)
  | _, _ => S754_zero neg
  end.

Definition double_decimal (neg : bool) (mant exp : Z) : spec_float :=
  if 0 <=? exp then double_ratio neg (mant * 10 ^ exp) 1 else double_ratio neg mant (10 ^ (- exp)).

(** The fraction after an integer part: the mantissa with it, its length, the rest. *)
Definition scan_fraction (v : Z) (l : list ascii) : option (Z * Z) * list ascii :=
  match after "." l with
  | Some l1 =>
      let '(seen, f, l2) := digits 10 v false l1 in
      if seen : bool then (Some (f, Z.of_nat (length l1) - Z.of_nat (length l2)), l2) else (None, l)
  | None => (None, l)
  end.

Definition scan_exponent (l : list ascii) : option Z * list ascii :=
  match match after "e" l with Some r => Some r | None => after "E" l end with
  | Some l1 =>
      let '(neg, l2) := sign l1 in
      let '(seen, e, l3) := digits 10 0 false l2 in
      if seen : bool then (Some (if neg : bool then - e else e), l3) else (None, l)
  | None => (None, l)
  end.

Definition scan_tail (neg : bool) (v : Z) (l : list ascii) : pyvalue * list ascii :=
  let '(frac, l1) := scan_fraction v l in
  let '(ex, l2) := scan_exponent l1 in
  (match frac, ex with
   | None, None => PInt (if neg then - v else v)
   | _, _ =>
       let '(mant, n) := default (v, 0) frac in
       PFloat (double_decimal neg mant (default 0 ex - n))
   end, l2).

Definition scan_number (l : list ascii) : option (pyvalue * list ascii) :=
  let '(neg, l1) := match after "-" l with Some l' => (true, l') | None => (false, l) end in
  match after "0" l1 with
  | Some l2 => Some (scan_tail neg 0 l2)
  | None =>
      let '(seen, v, l2) := digits 10 0 false l1 in
      if seen : bool then Some (scan_tail neg v l2) else None
  end.

Definition constants : list (string * pyvalue) :=
  [("null", PNone); ("true", PBool true); ("false", PBool false); ("NaN", PFloat S754_nan);
   ("Infinity", PFloat (S754_infinity false)); ("-Infinity", PFloat (S754_infinity true))].

Fixpoint scan_constant (cs : list (string * pyvalue)) (l : list ascii) : option (pyvalue * list ascii) :=
  match cs with
  | [] => None
  | (name, v) :: cs' =>
      match strip_prefix (chars name) l with
      | Some r => Some (v, r)
      | None => scan_constant cs' l
      end
  end.

Fixpoint scan_once (fuel : nat) (l : list ascii) : option (pyvalue * list ascii) :=
  match fuel, l with
  | S n, c :: l1 =>
      if code c =? 34 then '(s, r) ← scan_string l1; Some (PStr s, r)
      else if code c =? 123 then
        match after "}" (skip_ws l1) with
        | Some r => Some (PDict [], r)
        | None => '(ms, r) ← scan_members n (skip_ws l1); Some (PDict ms, r)
        end
      else if code c =? 91 then
        match after "]" (skip_ws l1) with
        | Some r => Some (PList [], r)
        | None => '(vs, r) ← scan_elements n (skip_ws l1); Some (PList vs, r)
        end
      else match scan_constant constants l with Some vr => Some vr | None => scan_number l end
  | _, _ => None
  end
with scan_members (fuel : nat) (l : list ascii) : option (list (list Z * pyvalue) * list ascii) :=
  match fuel, l with
  | S n, c :: l1 =>
      if code c =? 34 then
        '(k, r1) ← scan_string l1;
        r2 ← after ":" (skip_ws r1);
        '(v, r3) ← scan_once n (skip_ws r2);
        match after "}" (skip_ws r3) with
        | Some r4 => Some ([(k, v)], r4)
        | None =>
            r4 ← after "," (skip_ws r3);
            '(ms, r5) ← scan_members n (skip_ws r4);
            Some ((k, v) :: ms, r5)
        end
      else None
  | _, _ => None
  end
with scan_elements (fuel : nat) (l : list ascii) : option (list pyvalue * list ascii) :=
  match fuel with
  | S n =>
      '(v, r1) ← scan_once n l;
      match after "]" (skip_ws r1) with
      | Some r2 => Some ([v], r2)
      | None =>
          r2 ← after "," (skip_ws r1);
          '(vs, r3) ← scan_elements n (skip_ws r2);
          Some (v :: vs, r3)
      end
  | O => None
  end.

(** [json.loads]: [None] is a [JSONDecodeError]. *)
Definition loads (l : list ascii) : option pyvalue :=
  let l := skip_ws l in
  '(v, r) ← scan_once (2 * length l + 2) l;
  match skip_ws r with [] => Some v | _ => None end.

(** * The fuel is enough *)

Lemma after_length c l r : after c l = Some r -> length l = S (length r).
Proof. destruct l as [|d l]; cbn; [done|]. case_decide; [|done]. by intros [= ->]. Qed.

Lemma skip_ws_le l : (length (skip_ws l) <= length l)%nat.
Proof. induction l as [|c l IH]; cbn; [done|]. destruct (is_ws c); cbn; lia. Qed.

Lemma scan_chars_shrinks n l s r : (length l <= n)%nat -> scan_chars l = Some (s, r) -> (length r < length l)%nat.
Proof.
  revert l s r. induction n as [|n IH]; intros [|c l] s r Hn; cbn in Hn; try lia; try done.
  cbn [scan_chars]. destruct (code c =? 34); [intros [= _ <-]; cbn; lia|].
  assert (Hrec : forall u l', (length l' < length (c :: l))%nat ->
    ('(s0, r0) ← scan_chars l'; Some (u :: s0, r0)) = Some (s, r) -> (length r < length (c :: l))%nat).
  { intros u l' Hl'. destruct (scan_chars l') as [[s0 r0]|] eqn:E; [|done]. cbn. intros [= _ <-].
    apply IH in E; cbn in *; lia. }
  destruct (code c =? 92).
  - destruct l as [|e l2]; [done|]. destruct (code e =? 117).
    + destruct l2 as [|x1 [|x2 [|x3 [|x4 l3]]]]; try done. destruct (hex4 x1 x2 x3 x4); [|done]. cbn [mbind option_bind].
      apply Hrec. cbn. lia.
    + destruct (unescape e); [|done]. cbn [mbind option_bind]. apply Hrec. cbn. lia.
  - destruct (code c <? 32); [done|]. apply Hrec. cbn. lia.
Qed.

Lemma scan_string_shrinks l s r : scan_string l = Some (s, r) -> (length r < length l)%nat.
Proof.
  unfold scan_string. destruct (scan_chars l) as [[s0 r0]|] eqn:E; [|done]. intros [= _ <-].
  by apply (scan_chars_shrinks (length l)) in E.
Qed.

Lemma digits_shrinks base acc seen l b v r : digits base acc seen l = (b, v, r) ->
  (length r <= length l)%nat /\ (seen = false -> b = true -> (length r < length l)%nat).
Proof.
  revert acc seen. induction l as [|c l IH]; intros acc seen; cbn; [intros [= <- _ <-]; naive_solver|].
  destruct (digit_in base c).
  - intros H%IH. cbn. destruct H. split; [lia|]. intros _ _. lia.
  - intros [= <- _ <-]. cbn. naive_solver.
Qed.

Lemma sign_le l : (length (sign l).2 <= length l)%nat.
Proof. destruct l as [|c k]; cbn; [done|]. destruct c as [[] [] [] [] [] [] [] []]; cbn; lia. Qed.

Lemma scan_tail_le neg v l x r : scan_tail neg v l = (x, r) -> (length r <= length l)%nat.
Proof.
  unfold scan_tail. destruct (scan_fraction v l) as [f l1] eqn:Ef. destruct (scan_exponent l1) as [e l2] eqn:Ee.
  intros [= _ <-]. transitivity (length l1).
  - unfold scan_exponent in Ee. destruct (match after "e" l1 with Some _ => _ | None => _ end) as [l3|] eqn:Ea; [|by injection Ee as _ <-].
    assert (length l1 = S (length l3)).
    { destruct (after "e" l1) as [x1|] eqn:E1; simplify_eq; by eapply after_length. }
    pose proof (sign_le l3). destruct (sign l3) as [neg' l4]. destruct (digits 10 0 false l4) as [[seen n] l5] eqn:Ed.
    apply digits_shrinks in Ed as [Hd _]. destruct seen; injection Ee as _ <-; cbn in *; lia.
  - unfold scan_fraction in Ef. destruct (after "." l) as [l3|] eqn:Ea; [|by injection Ef as _ <-].
    apply after_length in Ea. destruct (digits 10 v false l3) as [[seen n] l4] eqn:Ed.
    apply digits_shrinks in Ed as [Hd _]. destruct seen; injection Ef as _ <-; lia.
Qed.

Lemma scan_number_shrinks l v r : scan_number l = Some (v, r) -> (length r < length l)%nat.
Proof.
  unfold scan_number.
  assert (Hn : exists neg l1, match after "-" l with Some l' => (true, l') | None => (false, l) end = (neg, l1) /\
                 (length l1 <= length l)%nat).
  { destruct (after "-" l) as [l'|] eqn:E; [apply after_length in E|]; eexists _, _; (split; [reflexivity|lia]). }
  destruct Hn as (neg & l1 & -> & Hl). destruct (after "0" l1) as [l2|] eqn:E0.
  - apply after_length in E0. intros [= H]. apply scan_tail_le in H. lia.
  - destruct (digits 10 0 false l1) as [[seen n] l2] eqn:Ed. apply digits_shrinks in Ed as [_ Hd].
    destruct seen; [|done]. intros [= H]. apply scan_tail_le in H. specialize (Hd eq_refl eq_refl). lia.
Qed.

Lemma strip_prefix_length p l r : strip_prefix p l = Some r -> length l = (length p + length r)%nat.
Proof.
  revert l. induction p as [|a p IH]; intros l; cbn; [by intros [= ->]|].
  destruct l as [|b l]; [done|]. case_decide; [|done]. intros Hr%IH. cbn. lia.
Qed.

Lemma scan_constant_shrinks l v r : scan_constant constants l = Some (v, r) -> (length r < length l)%nat.
Proof.
  unfold constants. cbn [scan_constant].
  repeat (match goal with |- context [strip_prefix ?p l] => destruct (strip_prefix p l) as [x|] eqn:E end;
    [apply strip_prefix_length in E; intros [= _ <-]; cbn in E; lia|clear E]). done.
Qed.

Lemma scan_shrinks n :
  (forall l v r, scan_once n l = Some (v, r) -> (length r < length l)%nat) /\
  (forall l ms r, scan_members n l = Some (ms, r) -> (length r < length l)%nat) /\
  (forall l vs r, scan_elements n l = Some (vs, r) -> (length r < length l)%nat).
Proof.
  induction n as [|n (IH1 & IH2 & IH3)]; [done|]. split_and!.
  - intros [|c l] v r; [done|]. cbn [scan_once].
    pose proof (skip_ws_le l) as Hw. destruct (code c =? 34).
    { destruct (scan_string l) as [[s r0]|] eqn:E; [|done]. cbn. intros [= _ <-]. apply scan_string_shrinks in E. lia. }
    destruct (code c =? 123).
    { destruct (after "}" (skip_ws l)) as [r0|] eqn:E; [apply after_length in E; intros [= _ <-]; cbn; lia|].
      destruct (scan_members n (skip_ws l)) as [[ms r0]|] eqn:E2; [|done]. cbn. intros [= _ <-]. apply IH2 in E2. lia. }
    destruct (code c =? 91).
    { destruct (after "]" (skip_ws l)) as [r0|] eqn:E; [apply after_length in E; intros [= _ <-]; cbn; lia|].
      destruct (scan_elements n (skip_ws l)) as [[ms r0]|] eqn:E2; [|done]. cbn. intros [= _ <-]. apply IH3 in E2. lia. }
    destruct (scan_constant constants (c :: l)) as [[v0 r0]|] eqn:E.
    + intros [= -> ->]. by apply scan_constant_shrinks in E.
    + apply scan_number_shrinks.
  - intros [|c l] ms r; [done|]. cbn [scan_members]. destruct (code c =? 34); [|done].
    destruct (scan_string l) as [[k r1]|] eqn:E1; [|done]. apply scan_string_shrinks in E1. cbn [mbind option_bind].
    pose proof (skip_ws_le r1). destruct (after ":" (skip_ws r1)) as [r2|] eqn:E2; [|done]. apply after_length in E2.
    cbn [mbind option_bind]. pose proof (skip_ws_le r2).
    destruct (scan_once n (skip_ws r2)) as [[v r3]|] eqn:E3; [|done]. apply IH1 in E3. cbn [mbind option_bind].
    pose proof (skip_ws_le r3).
    destruct (after "}" (skip_ws r3)) as [r4|] eqn:E4; [apply after_length in E4; intros [= _ <-]; cbn; lia|].
    destruct (after "," (skip_ws r3)) as [r4|] eqn:E5; [|done]. apply after_length in E5. cbn [mbind option_bind].
    pose proof (skip_ws_le r4). destruct (scan_members n (skip_ws r4)) as [[ms' r5]|] eqn:E6; [|done]. apply IH2 in E6.
    intros [= _ <-]. cbn. lia.
  - intros l vs r. cbn [scan_elements]. destruct (scan_once n l) as [[v r1]|] eqn:E1; [|done]. apply IH1 in E1.
    cbn [mbind option_bind]. pose proof (skip_ws_le r1).
    destruct (after "]" (skip_ws r1)) as [r2|] eqn:E2; [apply after_length in E2; intros [= _ <-]; lia|].
    destruct (after "," (skip_ws r1)) as [r2|] eqn:E3; [|done]. apply after_length in E3. cbn [mbind option_bind].
    pose proof (skip_ws_le r2). destruct (scan_elements n (skip_ws r2)) as [[vs' r3]|] eqn:E4; [|done].
    apply IH3 in E4. intros [= _ <-]. lia.
Qed.

(** With two units per character, more fuel does not change the answer: [None] is a refusal. *)
Lemma scan_stable n : forall m, (n <= m)%nat ->
  (forall l, (2 * length l < n)%nat -> scan_once m l = scan_once n l) /\
  (forall l, (2 * length l < n)%nat -> scan_members m l = scan_members n l) /\
  (forall l, (2 * length l + 1 < n)%nat -> scan_elements m l = scan_elements n l).
Proof.
  induction n as [|n IH]; intros [|m] Hm; try lia; [split_and!; lia..|].
  destruct (IH m ltac:(lia)) as (IH1 & IH2 & IH3). destruct (scan_shrinks n) as (S1 & S2 & S3). split_and!.
  - intros [|c l] Hl; [done|]. cbn in Hl. cbn [scan_once]. pose proof (skip_ws_le l).
    rewrite IH2, IH3 by lia. done.
  - intros [|c l] Hl; [done|]. cbn in Hl. cbn [scan_members]. destruct (code c =? 34); [|done].
    destruct (scan_string l) as [[k r1]|] eqn:E1; [|done]. apply scan_string_shrinks in E1. cbn [mbind option_bind].
    pose proof (skip_ws_le r1). destruct (after ":" (skip_ws r1)) as [r2|] eqn:E2; [|done]. apply after_length in E2.
    cbn [mbind option_bind]. pose proof (skip_ws_le r2). rewrite IH1 by lia.
    destruct (scan_once n (skip_ws r2)) as [[v r3]|] eqn:E3; [|done]. apply S1 in E3. cbn [mbind option_bind].
    pose proof (skip_ws_le r3). destruct (after "}" (skip_ws r3)) as [r4|]; [done|].
    destruct (after "," (skip_ws r3)) as [r4|] eqn:E5; [|done]. apply after_length in E5. cbn [mbind option_bind].
    pose proof (skip_ws_le r4). by rewrite IH2 by lia.
  - intros l Hl. cbn [scan_elements]. rewrite IH1 by lia. destruct (scan_once n l) as [[v r1]|] eqn:E1; [|done].
    apply S1 in E1. cbn [mbind option_bind]. pose proof (skip_ws_le r1).
    destruct (after "]" (skip_ws r1)) as [r2|]; [done|].
    destruct (after "," (skip_ws r1)) as [r2|] eqn:E3; [|done]. apply after_length in E3. cbn [mbind option_bind].
    pose proof (skip_ws_le r2). by rewrite IH3 by lia.
Qed.
