(* ===== verification/Float32.v ===== *)
(** IEEE-754 binary32, the [float] of the scheduler and of the wire format.

    The operations are those of the Standard Library's executable
    specification [SpecFloat] at precision 24 and maximal exponent 128, with
    round-to-nearest-even; a C++ expression is evaluated operation by operation
    at [float] precision.  The file gives the conversions the code uses, the
    comparison lemmas the selection loops need, and the bit pattern of a value
    as it travels in an advertisement. *)

From Stdlib Require Import ZArith Lia SpecFloat.
From stdpp Require Import base numbers list.
From S2P Require Import Prelude.

Local Open Scope Z_scope.

Abbreviation float32 := spec_float.

Definition f32_prec : Z := 24.
Definition f32_emax : Z := 128.

Definition f32_add : float32 -> float32 -> float32 := SFadd f32_prec f32_emax.
Definition f32_sub : float32 -> float32 -> float32 := SFsub f32_prec f32_emax.
Definition f32_mul : float32 -> float32 -> float32 := SFmul f32_prec f32_emax.
Definition f32_div : float32 -> float32 -> float32 := SFdiv f32_prec f32_emax.

(** [static_cast<float>] of an integer. *)
Definition f32_of_Z (z : Z) : float32 := binary_normalize f32_prec f32_emax z 0 false.

(** A decimal literal [num / 10^k], rounded once. *)
Definition f32_of_ratio (num den : Z) : float32 :=
  f32_div (f32_of_Z num) (f32_of_Z den).

(** [std::numeric_limits<float>::max()]. *)
Definition f32_max : float32 := S754_finite false (2 ^ 24 - 1)%positive 104.
Definition f32_lowest : float32 := SFopp f32_max.
Definition f32_zero : float32 := S754_zero false.

Definition f32_ltb (x y : float32) : bool := SFltb x y.
Definition f32_gtb (x y : float32) : bool := SFltb y x.
Definition f32_geb (x y : float32) : bool := SFleb y x.

(** [std::min(a, b)] is [(b < a) ? b : a]. *)
Definition f32_min (a b : float32) : float32 := if f32_ltb b a then b else a.

(** Truncation towards zero, the value of [static_cast<int64_t>] on a finite
    float whose integral part is representable; the cast is undefined on
    infinities and NaN. *)
Definition f32_trunc (x : float32) : option Z :=
  match x with
  | S754_zero _ => Some 0
  | S754_finite s m e =>
      let a := if 0 <=? e then Z.pos m * 2 ^ e else Z.pos m / 2 ^ (- e) in
      Some (if s then - a else a)
  | _ => None
  end.

Definition is_nan (x : float32) : bool :=
  match x with S754_nan => true | _ => false end.

(** * The comparison is a strict weak order

    [SFcompare] is the order of a numeric key on every non-NaN value. *)

Definition f32_lt (x y : float32) : Prop := f32_ltb x y = true.

Lemma Pos_compare_cont_eq (m n : positive) : Pos.compare_cont Eq m n = Pos.compare m n.
Proof. done. Qed.

Lemma f32_lt_irrefl x : ~ f32_lt x x.
Proof.
  unfold f32_lt, f32_ltb, SFltb, SFcompare.
  destruct x as [s|[]| |[] m e]; try done;
    rewrite Z.compare_refl, Pos_compare_cont_eq, Pos.compare_refl; done.
Qed.

(** The key of a finite value: exponent first, then mantissa. *)
Definition f32_key_lt (e1 : Z) (m1 : positive) (e2 : Z) (m2 : positive) : Prop :=
  e1 < e2 \/ e1 = e2 /\ (m1 < m2)%positive.

Lemma f32_lt_finite_pos m1 e1 m2 e2 :
  f32_lt (S754_finite false m1 e1) (S754_finite false m2 e2) <-> f32_key_lt e1 m1 e2 m2.
Proof.
  unfold f32_lt, f32_ltb, SFltb, SFcompare, f32_key_lt. rewrite Pos_compare_cont_eq.
  destruct (Z.compare_spec e1 e2) as [Heq|Hlt|Hgt]; [|split; [intros; lia|done]|split; [done|lia]].
  destruct (Pos.compare_spec m1 m2); split; intros; try done; lia.
Qed.

Lemma f32_lt_finite_neg m1 e1 m2 e2 :
  f32_lt (S754_finite true m1 e1) (S754_finite true m2 e2) <-> f32_key_lt e2 m2 e1 m1.
Proof.
  unfold f32_lt, f32_ltb, SFltb, SFcompare, f32_key_lt. rewrite Pos_compare_cont_eq.
  destruct (Z.compare_spec e1 e2) as [Heq|Hlt|Hgt]; [|split; [done|lia]|split; [intros; lia|done]].
  destruct (Pos.compare_spec m1 m2); simpl; split; intros; try done; lia.
Qed.

Lemma f32_lt_trans x y z : f32_lt x y -> f32_lt y z -> f32_lt x z.
Proof.
  destruct x as [s1|[]| |[] m1 e1], y as [s2|[]| |[] m2 e2], z as [s3|[]| |[] m3 e3];
    try done;
    rewrite ?f32_lt_finite_pos, ?f32_lt_finite_neg; unfold f32_key_lt; lia.
Qed.

(** A non-NaN value splits every strict comparison. *)
Lemma f32_lt_negtrans x y z :
  is_nan y = false -> f32_lt x z -> f32_lt x y \/ f32_lt y z.
Proof.
  destruct x as [s1|[]| |[] m1 e1], y as [s2|[]| |[] m2 e2], z as [s3|[]| |[] m3 e3];
    try done; try (intros _ _; by (left + right));
    rewrite ?f32_lt_finite_pos, ?f32_lt_finite_neg; unfold f32_key_lt; intros _ ?; 
    try lia; try (by (left + right)).
Qed.

(** * Bit patterns

    The interchange format: sign, biased exponent, fraction.  A NaN is sent with the
    quiet pattern; every pattern with an all-ones exponent and a fraction is read as
    NaN. *)

Definition sign_bit (s : bool) : Z := if s then 2 ^ 31 else 0.

Definition f32_to_bits (x : float32) : Z :=
  match x with
  | S754_zero s => sign_bit s
  | S754_infinity s => sign_bit s + 255 * 2 ^ 23
  | S754_nan => 255 * 2 ^ 23 + 2 ^ 22
  | S754_finite s m e =>
      if Z.pos m <? 2 ^ 23 then sign_bit s + Z.pos m
      else sign_bit s + (e + 150) * 2 ^ 23 + (Z.pos m - 2 ^ 23)
  end.

Definition f32_of_bits (b : Z) : float32 :=
  let s := 2 ^ 31 <=? b in
  let ex := (b / 2 ^ 23) mod 2 ^ 8 in
  let fr := b mod 2 ^ 23 in
  if ex =? 255 then if fr =? 0 then S754_infinity s else S754_nan
  else match (if ex =? 0 then fr else fr + 2 ^ 23) with
       | Z.pos m => S754_finite s m (Z.max 1 ex - 150)
       | _ => S754_zero s
       end.

Definition f32_valid (x : float32) : Prop := valid_binary f32_prec f32_emax x = true.

Lemma digits2_pos_bounds m :
  2 ^ (Z.pos (digits2_pos m) - 1) <= Z.pos m < 2 ^ Z.pos (digits2_pos m).
Proof.
  induction m as [m IH|m IH|]; cbn [digits2_pos]; [| |done];
    rewrite Pos2Z.inj_succ; replace (Z.succ _ - 1) with (Z.succ (Z.pos (digits2_pos m) - 1)) by lia;
    rewrite !Z.pow_succ_r by lia; lia.
Qed.

(** A valid finite value is normal, or subnormal with the least exponent. *)
Lemma f32_valid_finite s m e : f32_valid (S754_finite s m e) ->
  (e = -149 /\ Z.pos m < 2 ^ 23) \/ (-149 <= e <= 104 /\ 2 ^ 23 <= Z.pos m < 2 ^ 24).
Proof.
  unfold f32_valid, valid_binary, bounded, canonical_mantissa, fexp, SpecFloat.emin, f32_prec, f32_emax.
  intros [Hc%Zeq_bool_eq He%Zle_bool_imp_le]%andb_true_iff.
  pose proof (digits2_pos_bounds m) as Hd.
  destruct (decide (Z.pos (digits2_pos m) = 24)) as [E|E].
  - rewrite E in Hd. right. split; [|exact Hd]. lia.
  - left. split; [lia|]. eapply Z.lt_le_trans; [apply Hd|]. apply Z.pow_le_mono_r; lia.
Qed.

Lemma f32_of_bits_split s ex fr : 0 <= ex < 2 ^ 8 -> 0 <= fr < 2 ^ 23 ->
  let b := sign_bit s + ex * 2 ^ 23 + fr in
  (2 ^ 31 <=? b) = s /\ (b / 2 ^ 23) mod 2 ^ 8 = ex /\ b mod 2 ^ 23 = fr.
Proof.
  intros Hx Hf b. subst b. split_and!.
  - destruct s; simpl sign_bit; [apply Z.leb_le|apply Z.leb_gt]; lia.
  - replace (sign_bit s + ex * 2 ^ 23 + fr) with (fr + (ex + (if s then 2 ^ 8 else 0)) * 2 ^ 23)
      by (destruct s; simpl sign_bit; lia).
    rewrite Z.div_add, Z.div_small, Z.add_0_l by lia. destruct s.
    + rewrite <- (Z.mul_1_l (2 ^ 8)) at 1. rewrite Z.mod_add by lia. by apply Z.mod_small.
    + rewrite Z.add_0_r. by apply Z.mod_small.
  - replace (sign_bit s + ex * 2 ^ 23 + fr) with (fr + (ex + (if s then 2 ^ 8 else 0)) * 2 ^ 23)
      by (destruct s; simpl sign_bit; lia).
    rewrite Z.mod_add by lia. by apply Z.mod_small.
Qed.

Lemma f32_bits_roundtrip x : f32_valid x -> f32_of_bits (f32_to_bits x) = x.
Proof.
  intros Hv. unfold f32_to_bits, f32_of_bits. destruct x as [s|s| |s m e].
  - destruct (f32_of_bits_split s 0 0) as (H1 & H2 & H3); [lia..|].
    replace (sign_bit s) with (sign_bit s + 0 * 2 ^ 23 + 0) by lia. by rewrite H1, H2, H3.
  - destruct (f32_of_bits_split s 255 0) as (H1 & H2 & H3); [lia..|].
    replace (sign_bit s + 255 * 2 ^ 23) with (sign_bit s + 255 * 2 ^ 23 + 0) by lia. by rewrite H1, H2, H3.
  - done.
  - apply f32_valid_finite in Hv as [[-> Hm]|[He Hm]].
    + rewrite (proj2 (Z.ltb_lt _ _)) by done.
      destruct (f32_of_bits_split s 0 (Z.pos m)) as (H1 & H2 & H3); [lia..|].
      replace (sign_bit s + Z.pos m) with (sign_bit s + 0 * 2 ^ 23 + Z.pos m) by lia. by rewrite H1, H2, H3.
    + rewrite (proj2 (Z.ltb_ge _ _)) by lia.
      destruct (f32_of_bits_split s (e + 150) (Z.pos m - 2 ^ 23)) as (H1 & H2 & H3); [lia..|].
      rewrite H1, H2, H3. rewrite !(proj2 (Z.eqb_neq _ _)) by lia.
      replace (Z.pos m - 2 ^ 23 + 2 ^ 23) with (Z.pos m) by lia. f_equal. lia.
Qed.

Lemma f32_to_bits_range x : f32_valid x -> 0 <= f32_to_bits x < 2 ^ 32.
Proof.
  intros Hv. unfold f32_to_bits, sign_bit. destruct x as [[]|[]| |[] m e]; try lia;
    apply f32_valid_finite in Hv as [[-> Hm]|[He Hm]];
    rewrite ?(proj2 (Z.ltb_lt _ _) Hm), ?(proj2 (Z.ltb_ge _ (2 ^ 23)) (proj1 Hm)); lia.
Qed.
