(* ===== verification/Core.v ===== *)
(** The vocabulary types of [core/types.hpp] and the error type of
    [core/result.hpp]. *)

From Stdlib Require Import ZArith Lia.
From stdpp Require Import base gmap strings numbers list.
From S2P Require Import Prelude Float32.

Local Open Scope Z_scope.
Local Open Scope cpp_scope.

(** * Identities *)

Abbreviation NodeId := string.
Abbreviation TaskId := string.

(** [std::chrono::microseconds]: a signed 64-bit tick count. *)
Abbreviation Duration := Z.

(** * Resource snapshots *)

Record ResourceSnapshot := mkSnapshot {
  snap_node_id : NodeId;
  timestamp : Z;
  cpu_usage_percent : float32;
  per_core_cpu_percent : list float32;
  memory_available_bytes : Z;
  memory_total_bytes : Z;
  cpu_temperature_celsius : float32;
  gpu_temperature_celsius : float32;
  network_rx_bytes_sec : Z;
  network_tx_bytes_sec : Z;
  is_throttled : bool
}.

(** The value-initialised snapshot. *)
Definition empty_snapshot : ResourceSnapshot :=
  mkSnapshot "" 0 f32_zero (replicate 4 f32_zero) 0 0 f32_zero f32_zero 0 0 false.

Definition f32_100 : float32 := f32_of_Z 100.

Definition memory_usage_percent (s : ResourceSnapshot) : float32 :=
  if decide (memory_total_bytes s = 0) then f32_zero
  else f32_div (f32_mul f32_100
                  (f32_of_Z (memory_total_bytes s -! memory_available_bytes s)))
               (f32_of_Z (memory_total_bytes s)).

Definition cpu_headroom_percent (s : ResourceSnapshot) : float32 :=
  f32_sub f32_100 (cpu_usage_percent s).

(** * Task profiles and states *)

Record TaskProfile := mkProfile {
  compute_cost : Duration;
  memory_bytes : Z;
  input_bytes : Z;
  output_bytes : Z
}.

#[export] Instance TaskProfile_eq_dec : EqDecision TaskProfile.
Proof. solve_decision. Defined.

Definition default_profile : TaskProfile := mkProfile 0 0 0 0.

(** The fields hold values of their C++ types. *)
Definition profile_ok (p : TaskProfile) : Prop :=
  is_i64 (compute_cost p) /\ is_u64 (memory_bytes p) /\
  is_u64 (input_bytes p) /\ is_u64 (output_bytes p).

Inductive TaskState :=
  | Pending | Ready | Scheduled | Running | Completed | Failed.

#[export] Instance TaskState_eq_dec : EqDecision TaskState.
Proof. solve_decision. Defined.

Definition task_state_to_string (s : TaskState) : string :=
  match s with
  | Pending => "pending"
  | Ready => "ready"
  | Scheduled => "scheduled"
  | Running => "running"
  | Completed => "completed"
  | Failed => "failed"
  end.

(** * [Result<T, E>]

    [Error] carries its message.  An accessor that throws is an [Threw]
    outcome. *)

Record Error := mkError { message : string }.

Inductive Result (T : Type) :=
  | Ok (value : T)
  | Err (error : Error).
Arguments Ok {T} value.
Arguments Err {T} error.

Inductive outcome (A : Type) :=
  | Returned (a : A)
  | Threw (what : string).
Arguments Returned {A} a.
Arguments Threw {A} what.

Definition has_value {T} (r : Result T) : bool :=
  match r with Ok _ => true | Err _ => false end.

Definition value {T} (r : Result T) : outcome T :=
  match r with
  | Ok v => Returned v
  | Err _ => Threw "Result has no value"
  end.

Definition error {T} (r : Result T) : outcome Error :=
  match r with
  | Ok _ => Threw "Result has no error"
  | Err e => Returned e
  end.

Definition result_map {T U} (f : T -> U) (r : Result T) : Result U :=
  match r with Ok v => Ok (f v) | Err e => Err e end.

Definition and_then {T U} (f : T -> Result U) (r : Result T) : Result U :=
  match r with Ok v => f v | Err e => Err e end.

Definition value_or {T} (r : Result T) (d : T) : T :=
  match r with Ok v => v | Err _ => d end.

Definition make_error {T} (msg : string) : Result T := Err (mkError msg).

(** Early return on error, the shape of every fallible caller. *)
Notation "x <-? c ; k" := (and_then (fun x => k) c)
  (at level 60, c at next level, right associativity) : cpp_scope.
