(* ===== verification/Dag.v ===== *)
(** [WorkloadDAG] of [workload/dag.hpp] and [workload/dag.cpp]: the three maps,
    every operation, and the structural invariant that ties the maps together.

    The graph algorithms iterate unordered maps, so they take the iteration
    order as an instance of [IterOrder].  Counters that count elements of a
    container in memory ([in_degree], [level], vector indices) are unbounded;
    byte sums are [uint64_t] and wrap. *)

From Stdlib Require Import ZArith Lia.
From stdpp Require Import base gmap strings relations numbers list.
From S2P Require Import Prelude Core.

Local Open Scope Z_scope.
Local Open Scope cpp_scope.

Record Task := mkTask {
  task_id : TaskId;
  task_name : string;
  task_profile : TaskProfile;
  task_dependencies : list TaskId;
  task_state : TaskState
}.

#[export] Instance Task_eq_dec : EqDecision Task.
Proof. solve_decision. Defined.

Record WorkloadDAG := mkDag {
  tasks_ : gmap TaskId Task;
  adj_list_ : gmap TaskId (list TaskId);
  reverse_adj_ : gmap TaskId (list TaskId)
}.

Definition empty_dag : WorkloadDAG := mkDag ∅ ∅ ∅.

(** * Construction *)

(** [m\[k\];] as a statement: insert an empty vector when the key is absent. *)
Definition touch (k : TaskId) (m : gmap TaskId (list TaskId)) : gmap TaskId (list TaskId) :=
  <[k := at_or [] m k]> m.

(** [m\[k\].push_back(x)]. *)
Definition push_at (k x : TaskId) (m : gmap TaskId (list TaskId)) : gmap TaskId (list TaskId) :=
  <[k := at_or [] m k ++ [x]]> m.

Definition add_task (task : Task) (d : WorkloadDAG) : TaskId * WorkloadDAG :=
  let id := task_id task in
  (id, mkDag (match tasks_ d !! id with
              | Some _ => tasks_ d                  (* emplace keeps the old one *)
              | None => <[id := task]> (tasks_ d)
              end)
             (touch id (adj_list_ d))
             (touch id (reverse_adj_ d))).

Definition with_dependencies (t : Task) (deps : list TaskId) : Task :=
  mkTask (task_id t) (task_name t) (task_profile t) deps (task_state t).

Definition with_state (t : Task) (s : TaskState) : Task :=
  mkTask (task_id t) (task_name t) (task_profile t) (task_dependencies t) s.

Definition add_dependency (from to : TaskId) (d : WorkloadDAG) : WorkloadDAG :=
  mkDag (match tasks_ d !! to with
         | Some t =>
             if decide (from ∈ task_dependencies t) then tasks_ d
             else <[to := with_dependencies t (task_dependencies t ++ [from])]> (tasks_ d)
         | None => tasks_ d
         end)
        (push_at from to (adj_list_ d))
        (push_at to from (reverse_adj_ d)).

(** * Queries *)

Definition dependents (d : WorkloadDAG) (id : TaskId) : list TaskId :=
  match adj_list_ d !! id with
  | None => []
  | Some ns => ns
  end.

Definition dependencies (d : WorkloadDAG) (id : TaskId) : list TaskId :=
  match reverse_adj_ d !! id with
  | None => []
  | Some ns => ns
  end.

Definition task_count (d : WorkloadDAG) : nat := size (tasks_ d).

Definition get_task (d : WorkloadDAG) (id : TaskId) : option Task := tasks_ d !! id.

(** * State updates *)

Definition set_state (s : TaskState) (id : TaskId) (d : WorkloadDAG) : WorkloadDAG :=
  match tasks_ d !! id with
  | Some t => mkDag (<[id := with_state t s]> (tasks_ d)) (adj_list_ d) (reverse_adj_ d)
  | None => d
  end.

Definition mark_completed : TaskId -> WorkloadDAG -> WorkloadDAG := set_state Completed.
Definition mark_failed : TaskId -> WorkloadDAG -> WorkloadDAG := set_state Failed.
Definition mark_running : TaskId -> WorkloadDAG -> WorkloadDAG := set_state Running.
Definition mark_scheduled : TaskId -> WorkloadDAG -> WorkloadDAG := set_state Scheduled.

Section Algorithms.
Context {IO : IterOrder}.
Implicit Types d : WorkloadDAG.

(** ** Topological ordering (Kahn's algorithm) *)

(** [++in_degree\[to\]]. *)
Definition incr (m : gmap TaskId Z) (k : TaskId) : gmap TaskId Z :=
  <[k := at_or 0 m k + 1]> m.

Definition in_degree d : gmap TaskId Z :=
  let zeros := foldl (fun m '(id, _) => <[id := 0]> m) ∅ (iter (tasks_ d)) in
  foldl (fun m '(_, neighbors) => foldl incr m neighbors) zeros (iter (adj_list_ d)).

Definition zero_in (deg : gmap TaskId Z) : list TaskId :=
  (filter (fun '(_, n) => n = 0) (iter deg)).*1.

(** The body of the loop over [it->second]: decrement and enqueue at zero. *)
Definition relax (acc : gmap TaskId Z * list TaskId) (neighbor : TaskId)
  : gmap TaskId Z * list TaskId :=
  let '(deg, queue) := acc in
  let n := at_or 0 deg neighbor - 1 in
  (<[neighbor := n]> deg, if decide (n = 0) then queue ++ [neighbor] else queue).

(** [while (!zero_in.empty())], one unit of fuel per dequeued node. *)
Fixpoint kahn_loop (fuel : nat) (adj : gmap TaskId (list TaskId))
    (deg : gmap TaskId Z) (queue order : list TaskId) : option (list TaskId) :=
  match queue with
  | [] => Some order
  | current :: rest =>
      match fuel with
      | O => None
      | S fuel' =>
          let order' := order ++ [current] in
          match adj !! current with
          | Some neighbors =>
              let '(deg', queue') := foldl relax (deg, rest) neighbors in
              kahn_loop fuel' adj deg' queue' order'
          | None => kahn_loop fuel' adj deg rest order'
          end
      end
  end.

Definition kahn d : option (list TaskId) :=
  let deg := in_degree d in
  kahn_loop (size deg) (adj_list_ d) deg (zero_in deg) [].

Definition topological_order d : list TaskId := default [] (kahn d).

(** ** Ready tasks *)

Definition all_deps_met d (id : TaskId) : bool :=
  match reverse_adj_ d !! id with
  | Some deps =>
      forallb (fun dep_id =>
        match tasks_ d !! dep_id with
        | Some dep => bool_decide (task_state dep = Completed)
        | None => true
        end) deps
  | None => true
  end.

Definition ready_tasks d : list TaskId :=
  (filter (fun '(id, task) => task_state task = Pending /\ all_deps_met d id = true)
     (iter (tasks_ d))).*1.

(** ** Cycle detection (three-colour depth-first search) *)

Inductive Color := White | Gray | Black.

#[export] Instance Color_eq_dec : EqDecision Color.
Proof. solve_decision. Defined.

Record Frame := mkFrame { frame_node : TaskId; neighbor_idx : nat }.

(** [while (!dfs_stack.empty())]; the result says whether a back edge was met. *)
Fixpoint dfs_loop (fuel : nat) (adj : gmap TaskId (list TaskId))
    (color : gmap TaskId Color) (stack : list Frame)
  : option (bool * gmap TaskId Color) :=
  match stack with
  | [] => Some (false, color)
  | mkFrame node idx :: rest =>
      match fuel with
      | O => None
      | S fuel' =>
          match at_or [] adj node !! idx with
          | None => dfs_loop fuel' adj (<[node := Black]> color) rest
          | Some neighbor =>
              let stack' := mkFrame node (S idx) :: rest in
              match at_or White color neighbor with
              | Gray => Some (true, color)
              | White => dfs_loop fuel' adj (<[neighbor := Gray]> color)
                           (mkFrame neighbor 0 :: stack')
              | Black => dfs_loop fuel' adj color stack'
              end
          end
      end
  end.

(** [for (const auto& \[start_id, _\] : tasks_)]. *)
Fixpoint dfs_starts (fuel : nat) (adj : gmap TaskId (list TaskId))
    (color : gmap TaskId Color) (starts : list TaskId) : option bool :=
  match starts with
  | [] => Some false
  | start_id :: rest =>
      match at_or White color start_id with
      | White =>
          match dfs_loop fuel adj (<[start_id := Gray]> color) [mkFrame start_id 0] with
          | Some (true, _) => Some true
          | Some (false, color') => dfs_starts fuel adj color' rest
          | None => None
          end
      | _ => dfs_starts fuel adj color rest
      end
  end.

(** Every identifier the search can meet. *)
Definition dfs_nodes d : gset TaskId :=
  dom (tasks_ d) ∪ list_to_set (mjoin (map_to_list (adj_list_ d)).*2).

(** Each node is pushed once and costs one step per neighbour plus the pop. *)
Definition dfs_fuel d : nat :=
  sum_list_with (fun u => S (length (at_or [] (adj_list_ d) u))) (elements (dfs_nodes d)).

Definition has_cycle_opt d : option bool :=
  let color := foldl (fun m '(id, _) => <[id := White]> m) ∅ (iter (tasks_ d)) in
  dfs_starts (dfs_fuel d) (adj_list_ d) color (iter (tasks_ d)).*1.

Definition has_cycle d : bool := default true (has_cycle_opt d).

Definition is_valid d : bool :=
  negb (bool_decide (tasks_ d = ∅)) && negb (has_cycle d).

(** ** Metrics *)

(** [if (candidate > dist\[v\]) dist\[v\] = candidate], for a known [v]. *)
Definition relax_dist d (u : TaskId) (dist : gmap TaskId Z) (v : TaskId) : gmap TaskId Z :=
  match tasks_ d !! v with
  | Some v_task =>
      let candidate := at_or 0 dist u + compute_cost (task_profile v_task) in
      if decide (at_or 0 dist v < candidate) then <[v := candidate]> dist else dist
  | None => dist
  end.

(** One iteration of [for (const auto& u : topo)]. *)
Definition dist_step d (dist : gmap TaskId Z) (u : TaskId) : gmap TaskId Z :=
  match tasks_ d !! u with
  | None => dist
  | Some task =>
      let u_cost := compute_cost (task_profile task) in
      let dist := match dependencies d u with
                  | [] => <[u := Z.max (at_or 0 dist u) u_cost]> dist
                  | _ => dist
                  end in
      foldl (relax_dist d u) dist (dependents d u)
  end.

Definition longest_paths d (topo : list TaskId) : gmap TaskId Z :=
  foldl (dist_step d) (foldl (fun m '(id, _) => <[id := 0]> m) ∅ (iter (tasks_ d))) topo.

(** The distances are [int64_t] in the source, where an overflow is undefined; here the sums
    are exact, and [DagTheorems.critical_path_no_overflow] keeps them in range. *)
Definition critical_path_cost d : Duration :=
  if decide (tasks_ d = ∅) then 0
  else
    let topo := topological_order d in
    if decide (length topo <> size (tasks_ d)) then 0
    else foldl (fun m '(_, dv) => Z.max m dv) 0 (iter (longest_paths d topo)).

(** [level\[id\] = max over known parents of level + 1]. *)
Definition level_step d (level : gmap TaskId nat) (id : TaskId) : gmap TaskId nat :=
  let max_parent_level :=
    foldl (fun m parent =>
             match level !! parent with
             | Some l => Nat.max m (l + 1)
             | None => m
             end) 0%nat (dependencies d id) in
  <[id := max_parent_level]> level.

Definition levels d (topo : list TaskId) : gmap TaskId nat := foldl (level_step d) ∅ topo.

Definition level_memory d (level : gmap TaskId nat) : gmap nat Z :=
  foldl (fun m '(id, lvl) =>
           match tasks_ d !! id with
           | Some t => <[lvl := at_or 0 m lvl +! memory_bytes (task_profile t)]> m
           | None => m
           end) ∅ (iter level).

Definition peak_memory_estimate d : Z :=
  if decide (tasks_ d = ∅) then 0
  else
    let topo := topological_order d in
    if decide (length topo <> size (tasks_ d)) then 0
    else foldl (fun m '(_, mem) => Z.max m mem) 0 (iter (level_memory d (levels d topo))).

Definition total_compute_cost d : Duration :=
  foldl (fun total '(_, task) => total + compute_cost (task_profile task)) 0 (iter (tasks_ d)).

End Algorithms.

(** * The graph and its structural invariant *)

Definition edge (d : WorkloadDAG) (u v : TaskId) : Prop := v ∈ dependents d u.

(** A [TaskId] that names a task of the DAG. *)
Definition known (d : WorkloadDAG) (id : TaskId) : Prop := is_Some (tasks_ d !! id).

(** Every edge joins two tasks of the DAG. *)
Definition closed (d : WorkloadDAG) : Prop := forall u v, edge d u v -> known d u /\ known d v.

Record dag_wf (d : WorkloadDAG) : Prop := {
  wf_keys : forall id t, tasks_ d !! id = Some t -> task_id t = id;
  wf_adj : forall id, known d id -> is_Some (adj_list_ d !! id) /\ is_Some (reverse_adj_ d !! id);
  wf_transpose : forall u v, occ v (dependents d u) = occ u (dependencies d v)
}.

(** Every way the code mutates a DAG. *)
Inductive dag_step : WorkloadDAG -> WorkloadDAG -> Prop :=
  | step_add_task d t : dag_step d (add_task t d).2
  | step_add_dependency d from to : dag_step d (add_dependency from to d)
  | step_set_state d s id : dag_step d (set_state s id d).

Lemma dependents_at_or d u : dependents d u = at_or [] (adj_list_ d) u.
Proof. unfold dependents, at_or. by destruct (adj_list_ d !! u). Qed.

Lemma dependencies_at_or d u : dependencies d u = at_or [] (reverse_adj_ d) u.
Proof. unfold dependencies, at_or. by destruct (reverse_adj_ d !! u). Qed.

Lemma at_or_touch k m j : at_or [] (touch k m) j = at_or [] m j.
Proof. unfold touch, at_or. destruct (decide (k = j)) as [->|]; by simplify_map_eq. Qed.

Lemma at_or_push_at k x m j :
  at_or [] (push_at k x m) j = if decide (k = j) then at_or [] m j ++ [x] else at_or [] m j.
Proof. unfold push_at, at_or. case_decide; by simplify_map_eq. Qed.

#[export] Hint Rewrite dependents_at_or dependencies_at_or at_or_touch at_or_push_at : dag.

Lemma dependents_add_task t d u : dependents (add_task t d).2 u = dependents d u.
Proof. by autorewrite with dag; simpl; autorewrite with dag. Qed.

Lemma dependencies_add_task t d u : dependencies (add_task t d).2 u = dependencies d u.
Proof. by autorewrite with dag; simpl; autorewrite with dag. Qed.

Lemma dependents_add_dependency f t d u :
  dependents (add_dependency f t d) u
  = if decide (f = u) then dependents d u ++ [t] else dependents d u.
Proof. by autorewrite with dag; simpl; autorewrite with dag. Qed.

Lemma dependencies_add_dependency f t d u :
  dependencies (add_dependency f t d) u
  = if decide (t = u) then dependencies d u ++ [f] else dependencies d u.
Proof. by autorewrite with dag; simpl; autorewrite with dag. Qed.

Lemma set_state_adj s id d :
  adj_list_ (set_state s id d) = adj_list_ d /\ reverse_adj_ (set_state s id d) = reverse_adj_ d.
Proof. unfold set_state. by destruct (tasks_ d !! id). Qed.

Lemma dependents_set_state s id d u : dependents (set_state s id d) u = dependents d u.
Proof. unfold dependents. by destruct (set_state_adj s id d) as [-> _]. Qed.

Lemma dependencies_set_state s id d u : dependencies (set_state s id d) u = dependencies d u.
Proof. unfold dependencies. by destruct (set_state_adj s id d) as [_ ->]. Qed.

Lemma known_add_task t d id : known (add_task t d).2 id <-> id = task_id t \/ known d id.
Proof.
  unfold known. simpl. destruct (tasks_ d !! task_id t) eqn:E.
  - split; [auto|]. intros [->|]; eauto.
  - rewrite lookup_insert_is_Some. split; [intros [->|[]]; auto|].
    intros [->|]; [by left|]. destruct (decide (task_id t = id)); auto.
Qed.

Lemma known_add_dependency f t d id : known (add_dependency f t d) id <-> known d id.
Proof.
  unfold known. simpl. destruct (tasks_ d !! t) eqn:E; [|done].
  case_decide; [done|]. rewrite lookup_insert_is_Some. split; [|destruct (decide (t = id)); auto].
  intros [->|[]]; eauto.
Qed.

Lemma known_set_state s i d id : known (set_state s i d) id <-> known d id.
Proof.
  unfold known, set_state. destruct (tasks_ d !! i) eqn:E; [|done]. simpl.
  rewrite lookup_insert_is_Some. split; [|destruct (decide (i = id)); auto].
  intros [->|[]]; eauto.
Qed.

#[export] Hint Rewrite dependents_add_task dependencies_add_task dependents_add_dependency
  dependencies_add_dependency dependents_set_state dependencies_set_state
  known_add_task known_add_dependency known_set_state : dag_ops.

Lemma touch_is_Some k m j : is_Some (m !! j) \/ k = j -> is_Some (touch k m !! j).
Proof. unfold touch. rewrite lookup_insert_is_Some. destruct (decide (k = j)); naive_solver. Qed.

Lemma push_at_is_Some k x m j : is_Some (m !! j) -> is_Some (push_at k x m !! j).
Proof. unfold push_at. rewrite lookup_insert_is_Some. destruct (decide (k = j)); naive_solver. Qed.

Lemma dag_wf_empty : dag_wf empty_dag.
Proof. split; unfold known; simpl; intros; try (by simplify_map_eq); by destruct H. Qed.

Lemma dag_wf_step d d' : dag_step d d' -> dag_wf d -> dag_wf d'.
Proof.
  intros Hstep Hwf. destruct Hstep as [d t|d from to|d s id]; split.
  - intros id u. simpl. destruct (tasks_ d !! task_id t); [apply Hwf|].
    rewrite lookup_insert. case_decide; [by intros; simplify_eq|apply Hwf].
  - intros id Hk%known_add_task. simpl.
    split; apply touch_is_Some; destruct Hk as [->|Hk%(wf_adj _ Hwf)]; naive_solver.
  - intros u v. autorewrite with dag_ops. apply Hwf.
  - intros id u. simpl. destruct (tasks_ d !! to) eqn:E; [|apply Hwf].
    case_decide; [apply Hwf|]. rewrite lookup_insert. case_decide; [|apply Hwf].
    intros; simplify_eq/=. by apply Hwf.
  - intros id Hk%known_add_dependency%(wf_adj _ Hwf). simpl.
    split; apply push_at_is_Some; naive_solver.
  - intros u v. autorewrite with dag_ops. pose proof (wf_transpose _ Hwf u v).
    destruct (decide (from = u)), (decide (to = v)); subst; rewrite ?occ_app; simpl;
      repeat case_decide; simplify_eq; lia.
  - intros i u. unfold set_state. destruct (tasks_ d !! id) eqn:E; [simpl|apply Hwf].
    rewrite lookup_insert. case_decide; [|apply Hwf]. intros; simplify_eq/=. by apply Hwf.
  - intros i Hk%known_set_state%(wf_adj _ Hwf). by destruct (set_state_adj s id d) as [-> ->].
  - intros u v. autorewrite with dag_ops. apply Hwf.
Qed.

Lemma edge_dependencies d u v : dag_wf d -> edge d u v <-> u ∈ dependencies d v.
Proof. intros Hwf. unfold edge. by rewrite <- !occ_pos, (wf_transpose _ Hwf). Qed.

Lemma closed_add_task t d : closed d -> closed (add_task t d).2.
Proof.
  intros Hc u v. unfold edge. autorewrite with dag_ops. intros Hv.
  apply Hc in Hv. tauto.
Qed.

Lemma closed_add_dependency f t d :
  closed d -> known d f -> known d t -> closed (add_dependency f t d).
Proof.
  intros Hc Hf Ht u v. unfold edge. autorewrite with dag_ops.
  case_decide; [subst|apply Hc]. rewrite elem_of_app, list_elem_of_singleton.
  intros [Hv| ->]; [by apply Hc|done].
Qed.

Lemma closed_set_state s id d : closed d -> closed (set_state s id d).
Proof. intros Hc u v. unfold edge. autorewrite with dag_ops. apply Hc. Qed.

Lemma closed_empty : closed empty_dag.
Proof. intros u v H. unfold edge, dependents in H. simpl in H. rewrite lookup_empty in H. set_solver. Qed.

#[export] Hint Resolve dag_wf_empty dag_wf_step closed_add_task closed_add_dependency
  closed_set_state closed_empty : edge.
