(* ===== verification/Kahn.v ===== *)
(** Correctness of [WorkloadDAG::topological_order]: the loop terminates within
    the fuel the model gives it, and its result is a duplicate-free,
    dependency-respecting enumeration of exactly the nodes whose ancestors can
    all be enumerated. *)

From Stdlib Require Import ZArith Lia.
From stdpp Require Import base gmap strings relations numbers list.
From S2P Require Import Prelude Core Dag.

Local Open Scope Z_scope.

Section Kahn.
Context {IO : IterOrder}.
Implicit Types (d : WorkloadDAG) (u v c : TaskId) (order queue : list TaskId).

(** The identifiers [in_degree] has an entry for. *)
Definition node d v : Prop := known d v \/ exists u, edge d u v.

(** Edges into [v] from nodes that are not yet in the output. *)
Definition inflow d (order : list TaskId) v : Z :=
  sumZ (fun '(u, ns) => if decide (u ∈ order) then 0 else occ v ns)
       (map_to_list (adj_list_ d)).

Lemma edge_lookup d u v :
  edge d u v <-> exists ns, adj_list_ d !! u = Some ns /\ v ∈ ns.
Proof.
  unfold edge, dependents. destruct (adj_list_ d !! u); [naive_solver|].
  split; [set_solver|naive_solver].
Qed.

(** ** The initial counters *)

Lemma foldl_incr ns deg v :
  at_or 0 (foldl incr deg ns) v = at_or 0 deg v + occ v ns /\
  (is_Some (foldl incr deg ns !! v) <-> is_Some (deg !! v) \/ v ∈ ns).
Proof.
  revert deg. induction ns as [|n ns IH]; intros deg; simpl.
  - split; [lia|]. set_solver.
  - destruct (IH (incr deg n)) as [-> ->]. unfold incr, at_or.
    destruct (decide (v = n)) as [->|].
    + rewrite lookup_insert_eq. simpl. split; [lia|]. set_solver.
    + rewrite lookup_insert_ne by done. split; [lia|]. set_solver.
Qed.

Lemma foldl_incr_all (l : list (TaskId * list TaskId)) deg v :
  let r := foldl (fun m '(_, neighbors) => foldl incr m neighbors) deg l in
  at_or 0 r v = at_or 0 deg v + sumZ (fun '(_, ns) => occ v ns) l /\
  (is_Some (r !! v) <-> is_Some (deg !! v) \/ exists u ns, (u, ns) ∈ l /\ v ∈ ns).
Proof.
  revert deg. induction l as [|[u ns] l IH]; intros deg; simpl.
  - split; [lia|]. set_solver.
  - destruct (IH (foldl incr deg ns)) as [-> ->].
    destruct (foldl_incr ns deg v) as [-> ->]. split; [lia|].
    setoid_rewrite elem_of_cons. naive_solver.
Qed.

Lemma in_degree_spec d v :
  at_or 0 (in_degree d) v = inflow d [] v /\ (is_Some (in_degree d !! v) <-> node d v).
Proof.
  unfold in_degree.
  match goal with |- context [foldl _ ?z (iter (adj_list_ d))] =>
    pose proof (foldl_incr_all (iter (adj_list_ d)) z v) as [-> ->] end.
  unfold at_or. rewrite foldl_init_lookup. split.
  - rewrite iter_perm. transitivity (sumZ (fun '(_, ns) => occ v ns) (map_to_list (adj_list_ d))).
    + destruct (tasks_ d !! v); simpl; lia.
    + by apply sumZ_ext; intros [u ns] _.
  - unfold node. rewrite fmap_is_Some. setoid_rewrite elem_of_iter.
    setoid_rewrite edge_lookup. done.
Qed.

(** ** Properties of [inflow] *)

Lemma inflow_summand_nonneg d order v x :
  x ∈ map_to_list (adj_list_ d) ->
  0 <= (let '(u, ns) := x in if decide (u ∈ order) then 0 else occ v ns).
Proof. destruct x as [u ns]. intros _. case_decide; [lia|apply occ_nonneg]. Qed.

Lemma inflow_nonneg d order v : 0 <= inflow d order v.
Proof. apply sumZ_nonneg. intros x Hx. by apply (inflow_summand_nonneg d). Qed.

Lemma inflow_zero d order v :
  inflow d order v = 0 <-> forall u, edge d u v -> u ∈ order.
Proof.
  split.
  - intros H0 u (ns & Hu & Hv)%edge_lookup.
    pose proof (sumZ_zero _ _ (inflow_summand_nonneg d order v) H0 (u, ns)) as Hz.
    rewrite elem_of_map_to_list in Hz. specialize (Hz Hu). simpl in Hz.
    case_decide; [done|]. apply occ_pos in Hv. lia.
  - intros Hin. unfold inflow. rewrite (sumZ_ext _ (fun _ => 0)).
    { by induction (map_to_list (adj_list_ d)). }
    intros [u ns] Hu%elem_of_map_to_list. case_decide as Hd; [done|].
    destruct (decide (v ∈ ns)) as [Hv|Hv].
    + destruct Hd. apply Hin, edge_lookup. eauto.
    + rewrite <- occ_pos in Hv. pose proof (occ_nonneg v ns). lia.
Qed.

(** Emitting a node removes its out-edges from every counter. *)
Lemma inflow_snoc d order c v :
  c ∉ order -> inflow d (order ++ [c]) v = inflow d order v - occ v (dependents d c).
Proof.
  intros Hc. unfold inflow, dependents. destruct (adj_list_ d !! c) as [ns|] eqn:E.
  - assert ((c, ns) ∈ map_to_list (adj_list_ d)) as Hin by by apply elem_of_map_to_list.
    apply list_elem_of_split in Hin as (l1 & l2 & Hl).
    pose proof (NoDup_fst_map_to_list (adj_list_ d)) as Hnd. rewrite Hl in *.
    rewrite fmap_app, fmap_cons in Hnd. simpl in Hnd.
    apply NoDup_app in Hnd as (_ & Hn1 & [Hn2 _]%list.NoDup_cons).
    rewrite !sumZ_app. simpl. rewrite decide_True by set_solver.
    rewrite decide_False by done.
    enough (forall l : list (TaskId * list TaskId), c ∉ l.*1 ->
      sumZ (fun '(u, ns) => if decide (u ∈ order ++ [c]) then 0 else occ v ns) l
      = sumZ (fun '(u, ns) => if decide (u ∈ order) then 0 else occ v ns) l) as Hsame.
    { rewrite (Hsame l1), (Hsame l2); [lia|done|]. intros Hc1. apply (Hn1 c Hc1). set_solver. }
    intros l Hcl. apply sumZ_ext. intros [u k] Hu.
    assert (u <> c) by (intros ->; apply Hcl, list_elem_of_fmap; by exists (c, k)).
    destruct (decide (u ∈ order)); [by rewrite decide_True by set_solver|].
    by rewrite decide_False by set_solver.
  - simpl. rewrite Z.sub_0_r. apply sumZ_ext. intros [u k] Hu%elem_of_map_to_list.
    assert (u <> c) by congruence.
    destruct (decide (u ∈ order)); [by rewrite decide_True by set_solver|].
    by rewrite decide_False by set_solver.
Qed.

Lemma occ_le_inflow d order c v :
  c ∉ order -> occ v (dependents d c) <= inflow d order v.
Proof.
  intros Hc. pose proof (inflow_nonneg d (order ++ [c]) v).
  rewrite inflow_snoc in H by done. lia.
Qed.

(** ** The inner loop *)

Lemma foldl_relax ns deg queue :
  (forall v, occ v ns <= at_or 0 deg v) ->
  exists deg' new,
    foldl relax (deg, queue) ns = (deg', queue ++ new) /\
    (forall v, at_or 0 deg' v = at_or 0 deg v - occ v ns) /\
    NoDup new /\
    (forall v, v ∈ new <-> v ∈ ns /\ at_or 0 deg v = occ v ns).
Proof.
  revert deg queue. induction ns as [|n ns IH]; intros deg queue Hle; simpl in *.
  - exists deg, []. rewrite app_nil_r. split_and!; [done| |constructor|set_solver].
    intros; lia.
  - set (k := at_or 0 deg n - 1).
    set (queue1 := if decide (k = 0) then queue ++ [n] else queue).
    assert (forall v, at_or 0 (<[n := k]> deg) v
              = at_or 0 deg v - if decide (v = n) then 1 else 0) as Hdeg1.
    { intros v. unfold at_or. case_decide as Hd; [subst|]; simplify_map_eq; [|lia].
      subst k. unfold at_or. lia. }
    destruct (IH (<[n := k]> deg) queue1) as (deg' & new & Heq & Hdeg' & Hnd & Hnew).
    { intros v. rewrite Hdeg1. specialize (Hle v). case_decide; lia. }
    exists deg', (if decide (k = 0) then n :: new else new).
    assert (k = 0 -> occ n ns = 0) as Hk0.
    { intros. pose proof (Hle n). rewrite decide_True in H0 by done.
      pose proof (occ_nonneg n ns). lia. }
    assert (n ∈ ns <-> 0 < occ n ns) as Hn by by rewrite occ_pos.
    split_and!.
    + rewrite Heq. subst queue1. case_decide; [by rewrite <- app_assoc|done].
    + intros v. rewrite Hdeg', Hdeg1. lia.
    + case_decide; [|done]. constructor; [|done]. rewrite Hnew. rewrite Hn. lia.
    + intros v. pose proof (Hnew v) as Hv. rewrite Hdeg1 in Hv.
      rewrite elem_of_cons. destruct (decide (v = n)) as [->|Hne].
      * assert (n ∈ (if decide (k = 0) then n :: new else new) <-> k = 0 \/ n ∈ new) as ->
          by (case_decide; set_solver).
        rewrite Hv, Hn. subst k. pose proof (occ_nonneg n ns). intuition lia.
      * assert (v ∈ (if decide (k = 0) then n :: new else new) <-> v ∈ new) as ->
          by (case_decide; set_solver).
        rewrite Hv. intuition lia.
Qed.

(** ** The main loop *)

Record kahn_inv d (deg : gmap TaskId Z) (queue order : list TaskId) : Prop := {
  ki_nodup : NoDup (order ++ queue);
  ki_deg : forall v, at_or 0 deg v = inflow d order v;
  ki_zero : forall v, v ∈ order ++ queue <-> node d v /\ inflow d order v = 0;
  ki_topo : topo_sorted (edge d) (order ++ queue)
}.

Lemma kahn_inv_init d : kahn_inv d (in_degree d) (zero_in (in_degree d)) [].
Proof.
  assert (forall v, v ∈ zero_in (in_degree d) <-> node d v /\ inflow d [] v = 0) as Hz.
  { intros v. unfold zero_in. destruct (in_degree_spec d v) as [<- <-].
    unfold at_or. rewrite list_elem_of_fmap. split.
    - intros ([k n] & -> & [Hn Hin]%list_elem_of_filter). simpl in *.
      apply elem_of_iter in Hin. rewrite Hin. split; [eauto|done].
    - intros [[n Hn] Hd]. rewrite Hn in Hd. simpl in Hd. exists (v, n).
      rewrite list_elem_of_filter, elem_of_iter. done. }
  split; simpl.
  - unfold zero_in. eapply (sublist_NoDup _ _ (NoDup_iter_fst (in_degree d))).
    apply fmap_sublist, sublist_filter.
  - intros v. apply in_degree_spec.
  - done.
  - apply (topo_sorted_app _ [] _ (topo_sorted_nil _)). intros x u Hx Hu.
    apply Hz in Hx as [_ Hx]. rewrite inflow_zero in Hx. by apply Hx.
Qed.

(** One iteration, with [rest ++ new] the queue afterwards. *)
Lemma kahn_inv_step d deg c rest order deg' new :
  kahn_inv d deg (c :: rest) order ->
  (forall v, at_or 0 deg' v = at_or 0 deg v - occ v (dependents d c)) ->
  NoDup new ->
  (forall v, v ∈ new <-> v ∈ dependents d c /\ at_or 0 deg v = occ v (dependents d c)) ->
  kahn_inv d deg' (rest ++ new) (order ++ [c]).
Proof.
  intros [Hnd Hdeg Hzero Htopo] Hdeg' Hndn Hnew.
  assert (c ∉ order) as Hc.
  { apply NoDup_app in Hnd as (_ & Hd & _). intros Hc. apply (Hd c Hc). set_solver. }
  setoid_rewrite Hdeg in Hdeg'. setoid_rewrite Hdeg in Hnew.
  setoid_rewrite <- (inflow_snoc d order c _ Hc) in Hdeg'.
  assert (forall v, v ∈ new -> inflow d (order ++ [c]) v = 0) as Hn0.
  { intros v [_ Hv]%Hnew. rewrite inflow_snoc by done. lia. }
  assert (forall v, v ∈ new -> v ∉ order ++ c :: rest) as Hfresh.
  { intros v [Hv Heq]%Hnew [_ Hz]%Hzero. apply occ_pos in Hv. lia. }
  assert (order ++ [c] ++ rest ++ new = (order ++ c :: rest) ++ new) as Hassoc
    by by rewrite <- app_assoc.
  split; [|done| |].
  - rewrite <- app_assoc, Hassoc. apply NoDup_app. split_and!; [done| |done].
    intros v Hv Hv'. by apply (Hfresh v Hv').
  - intros v. rewrite <- app_assoc, Hassoc, elem_of_app, Hzero. split.
    + intros [[Hnode Hz]|Hv].
      * split; [done|]. rewrite inflow_snoc by done.
        pose proof (occ_le_inflow d order c v Hc). pose proof (occ_nonneg v (dependents d c)). lia.
      * split; [|by apply Hn0]. right. exists c. by apply Hnew.
    + intros [Hnode Hz]. rewrite inflow_snoc in Hz by done.
      destruct (decide (inflow d order v = 0)) as [H0|H0]; [by left|right].
      apply Hnew. split; [|lia]. apply occ_pos. pose proof (inflow_nonneg d order v). lia.
  - rewrite <- app_assoc, Hassoc. apply topo_sorted_app; [done|].
    intros v u Hv Hu. pose proof (Hn0 v Hv) as Hz. rewrite inflow_zero in Hz.
    specialize (Hz u Hu). set_solver.
Qed.

Lemma kahn_inv_bound d deg queue order :
  kahn_inv d deg queue order -> (length order + length queue <= size (in_degree d))%nat.
Proof.
  intros Hinv. rewrite <- length_app, <- length_iter, <- (length_fmap fst).
  apply submseteq_length, NoDup_submseteq; [apply Hinv|].
  intros v [Hv _]%(ki_zero _ _ _ _ Hinv). by rewrite elem_of_iter_fst, (proj2 (in_degree_spec d v)).
Qed.

Lemma kahn_loop_spec d fuel deg queue order :
  kahn_inv d deg queue order -> (size (in_degree d) <= fuel + length order)%nat ->
  exists deg' order', kahn_loop fuel (adj_list_ d) deg queue order = Some order' /\
    kahn_inv d deg' [] order'.
Proof.
  revert deg queue order. induction fuel as [|fuel IH]; intros deg [|c rest] order Hinv Hfuel;
    simpl; eauto.
  - pose proof (kahn_inv_bound _ _ _ _ Hinv). simpl in *. lia.
  - assert (c ∉ order) as Hc.
    { pose proof (ki_nodup _ _ _ _ Hinv) as (_ & Hd & _)%NoDup_app.
      intros Hc. apply (Hd c Hc). set_solver. }
    assert (size (in_degree d) <= fuel + length (order ++ [c]))%nat
      by (rewrite length_app; simpl; lia).
    destruct (foldl_relax (dependents d c) deg rest) as (deg' & new & Hf & Hdeg' & Hnd & Hnew).
    { intros v. rewrite (ki_deg _ _ _ _ Hinv). by apply occ_le_inflow. }
    pose proof (kahn_inv_step _ _ _ _ _ _ _ Hinv Hdeg' Hnd Hnew) as Hinv'.
    unfold dependents in Hf. destruct (adj_list_ d !! c) as [ns|].
    + rewrite Hf. by apply (IH _ _ _ Hinv').
    + simpl in Hf. injection Hf as -> Hq. rewrite <- Hq in Hinv'. by apply (IH _ _ _ Hinv').
Qed.

(** The order is total, duplicate-free, respects every edge, and contains a node
    exactly when all its predecessors are in it. *)
Lemma topological_order_spec d :
  kahn d = Some (topological_order d) /\
  NoDup (topological_order d) /\
  topo_sorted (edge d) (topological_order d) /\
  (forall v, v ∈ topological_order d <->
             node d v /\ forall u, edge d u v -> u ∈ topological_order d).
Proof.
  unfold topological_order, kahn.
  destruct (kahn_loop_spec d (size (in_degree d)) _ _ _ (kahn_inv_init d))
    as (deg' & order & -> & [Hnd _ Hz Ht]); [simpl; lia|].
  simpl. rewrite app_nil_r in *. split_and!; [done..|].
  intros v. by rewrite Hz, inflow_zero.
Qed.

(** A node that is left out sits behind a cycle of left-out nodes. *)
Lemma not_in_order_cycle d v :
  closed d -> known d v -> v ∉ topological_order d ->
  exists c, known d c /\ tc (edge d) c c.
Proof.
  intros Hcl Hk Hv.
  destruct (topological_order_spec d) as (_ & _ & _ & Hin).
  destruct (no_source_cycle (edge d)
              (filter (fun u => u ∉ topological_order d) (iter (tasks_ d)).*1) v) as (c & Hc & Hcyc).
  - rewrite list_elem_of_filter, elem_of_iter_fst. done.
  - intros x [Hx Hkx]%list_elem_of_filter. rewrite elem_of_iter_fst in Hkx.
    destruct (decide (Exists (fun u => u ∉ topological_order d /\ x ∈ dependents d u)
                (iter (tasks_ d)).*1)) as [(u & Hu & Hux & He)%Exists_exists|Hno].
    + exists u. split; [|done]. by rewrite list_elem_of_filter.
    + destruct Hx. apply Hin. split; [by left|]. intros u He.
      destruct (decide (u ∈ topological_order d)) as [|Hu]; [done|].
      destruct Hno. apply Exists_exists. exists u. split; [|done].
      apply elem_of_iter_fst. by apply (Hcl u x).
  - exists c. apply list_elem_of_filter in Hc as [_ Hc]. by rewrite elem_of_iter_fst in Hc.
Qed.

Lemma topological_order_known d v : closed d -> v ∈ topological_order d -> known d v.
Proof.
  intros Hcl. destruct (topological_order_spec d) as (_ & _ & _ & Hin).
  intros [[Hk|(u & Hu)] _]%Hin; [done|]. by apply (Hcl u v).
Qed.

(** On a closed acyclic DAG the order enumerates exactly the tasks. *)
Lemma topological_order_perm d :
  closed d -> acyclic (edge d) -> topological_order d ≡ₚ (iter (tasks_ d)).*1.
Proof.
  intros Hcl Hac. apply NoDup_Permutation.
  - apply topological_order_spec.
  - apply NoDup_iter_fst.
  - intros v. rewrite elem_of_iter_fst. split; [by apply topological_order_known|].
    intros Hk. destruct (decide (v ∈ topological_order d)) as [|Hv]; [done|].
    destruct (not_in_order_cycle d v Hcl Hk Hv) as (c & _ & Hc). by destruct (Hac c).
Qed.

(** A closed DAG is acyclic exactly when the order has one entry per task. *)
Lemma topological_order_length d :
  closed d -> length (topological_order d) = task_count d <-> acyclic (edge d).
Proof.
  intros Hcl. unfold task_count. split.
  - intros Hlen. destruct (topological_order_spec d) as (_ & Hnd & Ht & _).
    assert (topological_order d ≡ₚ (iter (tasks_ d)).*1) as Hp.
    { apply submseteq_length_Permutation.
      - apply NoDup_submseteq; [done|]. intros v Hv.
        apply elem_of_iter_fst. by apply topological_order_known.
      - by rewrite length_fmap, length_iter, Hlen. }
    apply (topo_sorted_acyclic _ _ Hnd Ht). intros x y Hxy.
    rewrite Hp, !elem_of_iter_fst. by apply Hcl.
  - intros Hac. by rewrite (topological_order_perm d Hcl Hac), length_fmap, length_iter.
Qed.
End Kahn.
