(* ===== verification/Cycle.v ===== *)
(** Correctness of [WorkloadDAG::has_cycle]: the explicit-stack depth-first
    search terminates within its fuel and answers [true] exactly when a cycle
    is reachable from a task.  The consequences for [is_valid] and for the
    agreement with [topological_order] follow. *)

From Stdlib Require Import ZArith Lia.
From stdpp Require Import base gmap strings relations numbers list.
From S2P Require Import Prelude Core Dag Kahn.

Section Cycle.
Context {IO : IterOrder}.
Implicit Types (d : WorkloadDAG) (u v w : TaskId) (color : gmap TaskId Color).

(** A cycle the search can reach from a task. *)
Definition reachable_cycle d : Prop :=
  exists t v, known d t /\ rtc (edge d) t v /\ tc (edge d) v v.

Abbreviation col := (at_or White).

(** Below [child], every frame has explored only black neighbours, apart from
    the one the next frame stands for. *)
Fixpoint frames_ok d color (child : option TaskId) (stack : list Frame) : Prop :=
  match stack with
  | [] => True
  | f :: rest =>
      (forall j w, j < neighbor_idx f -> dependents d (frame_node f) !! j = Some w ->
                   col color w = Black \/ child = Some w) /\
      (forall w, child = Some w -> edge d (frame_node f) w) /\
      frames_ok d color (Some (frame_node f)) rest
  end.

Record dfs_inv d color (stack : list Frame) : Prop := {
  di_gray : forall v, col color v = Gray <-> v ∈ frame_node <$> stack;
  di_nodup : NoDup (frame_node <$> stack);
  di_frames : frames_ok d color None stack;
  di_black : exists finished, NoDup finished /\ topo_sorted (flip (edge d)) finished /\
               forall v, v ∈ finished <-> col color v = Black;
  di_reach : forall v, v ∈ frame_node <$> stack -> exists t, known d t /\ rtc (edge d) t v
}.

Lemma col_insert color v w k :
  col (<[v := k]> color) w = if decide (v = w) then k else col color w.
Proof. unfold at_or. case_decide; by simplify_map_eq. Qed.

Lemma frames_ok_mono d color color' child stack :
  (forall v, col color v = Black -> col color' v = Black) ->
  frames_ok d color child stack -> frames_ok d color' child stack.
Proof.
  intros Hm. revert child. induction stack as [|f stack IH]; intros child; simpl; [done|].
  intros (H1 & H2 & H3). split_and!; [|done|by apply IH].
  intros j w Hj Hw. destruct (H1 j w Hj Hw); auto.
Qed.

(** Once the child is black it no longer needs to be remembered. *)
Lemma frames_ok_child d color color' w stack :
  (forall v, col color v = Black -> col color' v = Black) -> col color' w = Black ->
  frames_ok d color (Some w) stack -> frames_ok d color' None stack.
Proof.
  intros Hm Hw. destruct stack as [|f stack]; simpl; [done|].
  intros (H1 & _ & H3). split_and!; [|done|by eapply frames_ok_mono].
  intros j x Hj Hx. destruct (H1 j x Hj Hx) as [|?]; simplify_eq; auto.
Qed.

(** The stack is a path of the graph, bottom to top. *)
Lemma frames_ok_path d color child stack w :
  frames_ok d color child stack -> w ∈ frame_node <$> stack ->
  match stack with [] => True | f :: _ => rtc (edge d) w (frame_node f) end.
Proof.
  revert child. induction stack as [|f stack IH]; intros child; [done|].
  intros (_ & _ & H3). rewrite fmap_cons, elem_of_cons. intros [->|Hw]; [done|].
  specialize (IH _ H3 Hw). destruct stack as [|f' stack]; [set_solver|].
  destruct H3 as (_ & H3 & _). eapply rtc_r; eauto.
Qed.

(** ** The four branches of the loop body *)

Lemma dfs_inv_pop d color node idx rest :
  dfs_inv d color (mkFrame node idx :: rest) -> dependents d node !! idx = None ->
  dfs_inv d (<[node := Black]> color) rest.
Proof.
  intros [Hg Hnd Hf (fin & Hfn & Hft & Hfb) Hr] Hnone. csimpl in *.
  apply NoDup_cons in Hnd as [Hnode Hnd]. destruct Hf as (Hf1 & _ & Hf3). simpl in *.
  assert (forall v, col color v = Black -> col (<[node := Black]> color) v = Black) as Hmono.
  { intros v Hv. rewrite col_insert. by case_decide. }
  assert (col color node = Gray) as Hgn by (apply Hg; left).
  assert (node ∉ fin) as Hnf by (rewrite Hfb; congruence).
  split.
  - intros v. rewrite col_insert. case_decide; [subst; split; [done|]; intros; done|].
    rewrite Hg. set_solver.
  - done.
  - eapply frames_ok_child; [done| |done]. rewrite col_insert. by rewrite decide_True.
  - exists (fin ++ [node]). split_and!.
    + apply NoDup_app. split_and!; [done|set_solver|apply NoDup_singleton].
    + apply topo_sorted_snoc; [done|]. intros u Hu. apply Hfb.
      apply list_elem_of_lookup in Hu as [j Hj].
      destruct (Hf1 j u) as [|?]; [|done..|done].
      apply lookup_ge_None in Hnone. apply lookup_lt_Some in Hj. lia.
    + intros v. rewrite col_insert, elem_of_app, list_elem_of_singleton, Hfb.
      case_decide; naive_solver.
  - intros v Hv. apply Hr. by right.
Qed.

Lemma dfs_inv_black d color node idx rest w :
  dfs_inv d color (mkFrame node idx :: rest) -> dependents d node !! idx = Some w ->
  col color w = Black -> dfs_inv d color (mkFrame node (S idx) :: rest).
Proof.
  intros [Hg Hnd (Hf1 & Hf2 & Hf3) Hb Hr] Hw Hblack. csimpl in *. split; [done..| |done|done].
  simpl. split_and!; [|done|done]. intros j x Hj Hx.
  destruct (decide (j = idx)) as [->|]; [left; congruence|]. apply (Hf1 j); [lia|done].
Qed.

Lemma dfs_inv_push d color node idx rest w :
  dfs_inv d color (mkFrame node idx :: rest) -> dependents d node !! idx = Some w ->
  col color w = White ->
  dfs_inv d (<[w := Gray]> color) (mkFrame w 0 :: mkFrame node (S idx) :: rest).
Proof.
  intros [Hg Hnd (Hf1 & Hf2 & Hf3) (fin & Hfn & Hft & Hfb) Hr] Hw Hwhite. csimpl in *.
  assert (forall v, col color v = Black -> col (<[w := Gray]> color) v = Black) as Hmono.
  { intros v Hv. rewrite col_insert. case_decide; congruence. }
  assert (edge d node w) as He by (by eapply list_elem_of_lookup_2).
  split.
  - intros v. csimpl. rewrite col_insert. case_decide; [set_solver|]. rewrite Hg. set_solver.
  - csimpl. constructor; [|done]. rewrite <- Hg. congruence.
  - simpl. split_and!; [intros; lia|done| |intros; simplify_eq; done|].
    + intros j x Hj Hx. destruct (decide (j = idx)) as [->|]; [right; congruence|].
      destruct (Hf1 j x) as [|]; [lia|done|auto|done].
    + by eapply frames_ok_mono.
  - exists fin. split_and!; [done..|]. intros v. rewrite col_insert.
    case_decide; [subst|done]. rewrite Hfb, Hwhite. done.
  - csimpl. intros v [->|Hv]%elem_of_cons; [|by apply Hr].
    destruct (Hr node) as (t & Ht & Hrt); [left|]. exists t. split; [done|]. by eapply rtc_r.
Qed.

Lemma dfs_inv_back_edge d color node idx rest w :
  dfs_inv d color (mkFrame node idx :: rest) -> dependents d node !! idx = Some w ->
  col color w = Gray -> reachable_cycle d.
Proof.
  intros [Hg _ Hf _ Hr] Hw Hgray. apply Hg in Hgray.
  destruct (Hr w Hgray) as (t & Ht & Hrt). exists t, w. split_and!; [done..|].
  pose proof (frames_ok_path _ _ _ _ _ Hf Hgray) as Hp. simpl in Hp.
  eapply tc_rtc_l; [done|]. apply tc_once. by eapply list_elem_of_lookup_2.
Qed.

(** ** Termination *)

Abbreviation deg d := (fun u => length (at_or [] (adj_list_ d) u)).

Definition white_weight d color : nat :=
  sum_list_with (fun u => if decide (col color u = White) then S (deg d u) else 0)
    (elements (dfs_nodes d)).

Definition dfs_measure d color (stack : list Frame) : nat :=
  white_weight d color
  + sum_list_with (fun f => S (deg d (frame_node f) - neighbor_idx f)) stack.

Lemma white_weight_bound d color : white_weight d color <= dfs_fuel d.
Proof. apply sum_list_with_ext_le. intros u. case_decide; lia. Qed.

Lemma white_weight_visit d color w :
  w ∈ dfs_nodes d -> col color w = White ->
  white_weight d (<[w := Gray]> color) + S (deg d w) = white_weight d color.
Proof.
  intros Hw Hwhite. unfold white_weight.
  pose proof (sum_list_with_update
    (fun u => if decide (col color u = White) then S (deg d u) else 0)
    (fun u => if decide (col (<[w := Gray]> color) u = White) then S (deg d u) else 0)
    (elements (dfs_nodes d)) w (NoDup_elements _)) as Heq.
  cbv beta in Heq.
  rewrite (decide_True _ _ Hwhite), col_insert, (decide_True (P := w = w)) in Heq by done.
  rewrite decide_False in Heq by done. rewrite Heq; [lia|set_solver|].
  intros y Hy. rewrite col_insert. by destruct (decide (w = y)).
Qed.

Lemma white_weight_blacken d color w :
  col color w <> White -> white_weight d (<[w := Black]> color) = white_weight d color.
Proof.
  intros Hw. unfold white_weight.
  induction (elements (dfs_nodes d)) as [|u l IH]; simpl; [done|]. rewrite IH. f_equal.
  rewrite col_insert. destruct (decide (w = u)) as [->|]; [|done].
  by rewrite !decide_False.
Qed.

Lemma dependents_dfs_nodes d u i w : dependents d u !! i = Some w -> w ∈ dfs_nodes d.
Proof.
  intros Hw%list_elem_of_lookup_2. apply (edge_lookup d u w) in Hw as (ns & Hu & Hw).
  unfold dfs_nodes. apply elem_of_union_r, elem_of_list_to_set, list_elem_of_join.
  exists ns. split; [done|]. apply list_elem_of_fmap. exists (u, ns).
  by rewrite elem_of_map_to_list.
Qed.

Lemma dfs_loop_spec d fuel color stack :
  dfs_inv d color stack -> dfs_measure d color stack <= fuel ->
  exists found color', dfs_loop fuel (adj_list_ d) color stack = Some (found, color') /\
    (if found then reachable_cycle d
     else dfs_inv d color' [] /\ forall v, col color v <> White -> col color' v <> White).
Proof.
  revert color stack. induction fuel as [|fuel IH]; intros color [|[node idx] rest] Hinv Hm;
    try (exists false, color; done).
  - unfold dfs_measure in Hm. simpl in Hm. lia.
  - simpl. pose proof (dependents_at_or d node) as Hdep. rewrite <- Hdep.
    unfold dfs_measure in Hm. simpl in Hm. rewrite <- Hdep in Hm.
    assert (col color node = Gray) as Hgn by (apply (di_gray _ _ _ Hinv); csimpl; left).
    destruct (dependents d node !! idx) as [w|] eqn:Hw.
    + pose proof (lookup_lt_Some _ _ _ Hw) as Hlt.
      destruct (col color w) eqn:Hcol.
      * assert (w ∈ dfs_nodes d) as Hwn by by eapply dependents_dfs_nodes.
        destruct (IH (<[w := Gray]> color) (mkFrame w 0 :: mkFrame node (S idx) :: rest))
          as (found & color' & -> & Hres); [by apply dfs_inv_push| |].
        { unfold dfs_measure. simpl. rewrite <- Hdep.
          pose proof (white_weight_visit d color w Hwn Hcol). lia. }
        exists found, color'. split; [done|]. destruct found; [done|].
        destruct Hres as [Hi Hk]. split; [done|]. intros v Hv. apply Hk.
        rewrite col_insert. by case_decide.
      * exists true, color. split; [done|]. by eapply dfs_inv_back_edge.
      * apply IH; [by eapply dfs_inv_black|].
        unfold dfs_measure. simpl. rewrite <- Hdep. lia.
    + destruct (IH (<[node := Black]> color) rest) as (found & color' & -> & Hres);
        [by eapply dfs_inv_pop| |].
      { unfold dfs_measure. rewrite white_weight_blacken by congruence. lia. }
      exists found, color'. split; [done|]. destruct found; [done|].
      destruct Hres as [Hi Hk]. split; [done|]. intros v Hv. apply Hk.
      rewrite col_insert. by case_decide.
Qed.

Lemma dfs_inv_start d color s :
  dfs_inv d color [] -> known d s -> col color s = White ->
  dfs_inv d (<[s := Gray]> color) [mkFrame s 0].
Proof.
  intros [Hg _ _ (fin & Hfn & Hft & Hfb) _] Hs Hwhite. csimpl in *. split; csimpl.
  - intros v. rewrite col_insert, list_elem_of_singleton. case_decide; [naive_solver|].
    rewrite Hg. split; [set_solver|naive_solver].
  - apply NoDup_singleton.
  - simpl. split_and!; [intros; lia|done..].
  - exists fin. split_and!; [done..|]. intros v. rewrite col_insert.
    case_decide; [subst|done]. rewrite Hfb, Hwhite. done.
  - intros v ->%list_elem_of_singleton. by exists s.
Qed.

Lemma dfs_starts_spec d color starts :
  dfs_inv d color [] -> (forall s, s ∈ starts -> known d s) ->
  exists found, dfs_starts (dfs_fuel d) (adj_list_ d) color starts = Some found /\
    (if found then reachable_cycle d
     else exists color', dfs_inv d color' [] /\
            (forall v, col color v <> White \/ v ∈ starts -> col color' v <> White)).
Proof.
  revert color. induction starts as [|s starts IH]; intros color Hinv Hk; simpl.
  - exists false. split; [done|]. exists color. split; [done|]. set_solver.
  - destruct (col color s) eqn:Hs.
    + assert (known d s) as Hks by (apply Hk; left).
      assert (s ∈ dfs_nodes d) as Hsn.
      { unfold dfs_nodes. apply elem_of_union_l, elem_of_dom, Hks. }
      destruct (dfs_loop_spec d (dfs_fuel d) (<[s := Gray]> color) [mkFrame s 0])
        as ([] & color' & -> & Hres); [by apply dfs_inv_start| |by exists true|].
      { pose proof (white_weight_visit d color s Hsn Hs).
        pose proof (white_weight_bound d color). unfold dfs_measure. simpl.
        rewrite Nat.sub_0_r. lia. }
      destruct Hres as [Hi Hm].
      destruct (IH color' Hi) as (found & -> & Hres'); [set_solver|].
      exists found. split; [done|]. destruct found; [done|].
      destruct Hres' as (color'' & Hi'' & Hm''). exists color''. split; [done|].
      intros v Hv. apply Hm''. destruct (decide (v ∈ starts)); [by right|left].
      apply Hm. rewrite col_insert. case_decide; [done|]. set_solver.
    + apply (proj1 (di_gray _ _ _ Hinv s)) in Hs. csimpl in Hs. set_solver.
    + destruct (IH color Hinv) as (found & -> & Hres); [set_solver|].
      exists found. split; [done|]. destruct found; [done|].
      destruct Hres as (color' & Hi & Hm). exists color'. split; [done|].
      intros v [Hv|[->|Hv]%elem_of_cons]; apply Hm; auto. left. congruence.
Qed.

Lemma dfs_inv_init d :
  dfs_inv d (foldl (fun m '(id, _) => <[id := White]> m) ∅ (iter (tasks_ d))) [].
Proof.
  assert (forall v, col (foldl (fun m '(id, _) => <[id := White]> m) ∅ (iter (tasks_ d))) v
                    = White) as Hw.
  { intros v. unfold at_or. rewrite foldl_init_lookup. by destruct (tasks_ d !! v). }
  split; csimpl.
  - intros v. rewrite Hw. split; [done|set_solver].
  - constructor.
  - done.
  - exists []. split_and!; [constructor|apply topo_sorted_nil|]. intros v. rewrite Hw.
    split; [set_solver|done].
  - set_solver.
Qed.

(** When the search ends without a back edge, the black nodes contain every
    node reachable from a task and carry no cycle. *)
Lemma all_black_no_cycle d color :
  dfs_inv d color [] -> (forall t, known d t -> col color t <> White) -> ~ reachable_cycle d.
Proof.
  intros [Hg _ _ (fin & Hfn & Hft & Hfb) _] Hall (t & v & Ht & Htv & Hcyc).
  destruct (topo_sorted_rank _ _ Hfn Hft) as [f Hf]. unfold flip in Hf.
  assert (forall x y, tc (edge d) x y -> x ∈ fin -> y ∈ fin /\ f y < f x) as Htc.
  { intros x y. induction 1 as [x y H|x y z H _ IH]; intros Hx.
    - by apply Hf.
    - destruct (Hf y x H Hx) as [Hy ?]. destruct (IH Hy). split; [done|lia]. }
  assert (t ∈ fin) as Htf.
  { apply Hfb. destruct (col color t) eqn:E; [by destruct (Hall t)| |done].
    apply Hg in E. csimpl in E. set_solver. }
  apply rtc_tc in Htv. destruct Htv as [->|Htv].
  - destruct (Htc _ _ Hcyc Htf). lia.
  - destruct (Htc _ _ Htv Htf) as [Hv _]. destruct (Htc _ _ Hcyc Hv). lia.
Qed.

Lemma has_cycle_spec d :
  has_cycle_opt d = Some (has_cycle d) /\ (has_cycle d = true <-> reachable_cycle d).
Proof.
  unfold has_cycle, has_cycle_opt.
  destruct (dfs_starts_spec d _ (iter (tasks_ d)).*1 (dfs_inv_init d)) as (found & -> & Hres).
  { intros s. by rewrite elem_of_iter_fst. }
  simpl. split; [done|]. destruct found; [done|].
  destruct Hres as (color' & Hi & Hm). split; [done|]. intros Hc. exfalso. revert Hc.
  apply (all_black_no_cycle d color' Hi). intros t Ht. apply Hm. right.
  by rewrite elem_of_iter_fst.
Qed.

Lemma closed_reachable_cycle d : closed d -> ~ reachable_cycle d <-> acyclic (edge d).
Proof.
  intros Hcl. split.
  - intros Hno v Hv. apply Hno. exists v, v. split_and!; [|done..].
    inversion Hv as [? ? He|? ? ? He]; subst; by apply (Hcl v _) in He as [? _].
  - intros Hac (t & v & _ & _ & Hv). by apply (Hac v).
Qed.

Lemma is_valid_spec d :
  is_valid d = true <-> (exists t, known d t) /\ ~ reachable_cycle d.
Proof.
  unfold is_valid. rewrite andb_true_iff, !negb_true_iff, bool_decide_eq_false.
  rewrite <- not_true_iff_false, (proj2 (has_cycle_spec d)). f_equiv.
  split.
  - intros Hne. apply map_choose in Hne as (t & x & Ht). exists t. by exists x.
  - intros (t & x & Ht) He. rewrite He in Ht. by rewrite lookup_empty in Ht.
Qed.

Lemma valid_closed_acyclic d : closed d -> is_valid d = true -> acyclic (edge d).
Proof. intros Hcl [_ Hno]%is_valid_spec. by apply closed_reachable_cycle. Qed.

(** A validated closed DAG is scheduled completely. *)
Lemma valid_closed_perm d :
  closed d -> is_valid d = true -> topological_order d ≡ₚ (iter (tasks_ d)).*1.
Proof. intros Hcl Hv. apply topological_order_perm; [done|]. by apply valid_closed_acyclic. Qed.
End Cycle.
