(* ===== verification/Metrics.v ===== *)
(** Correctness of the DAG metrics: [critical_path_cost] is the weight of a
    heaviest path, [peak_memory_estimate] the largest per-level memory sum, and
    both stay within the totals, so no intermediate value overflows when the
    totals fit. *)

From Stdlib Require Import ZArith Lia.
From stdpp Require Import base gmap strings relations numbers list.
From S2P Require Import Prelude Core Dag Kahn Cycle.

Local Open Scope Z_scope.

(** * Paths and their weight *)

Definition cost_of (d : WorkloadDAG) (v : TaskId) : Z :=
  match tasks_ d !! v with
  | Some t => compute_cost (task_profile t)
  | None => 0
  end.

Definition mem_of (d : WorkloadDAG) (v : TaskId) : Z :=
  match tasks_ d !! v with
  | Some t => memory_bytes (task_profile t)
  | None => 0
  end.

(** A nonempty chain of tasks along dependency edges. *)
Inductive path (d : WorkloadDAG) : list TaskId -> TaskId -> Prop :=
  | path_one v : known d v -> path d [v] v
  | path_snoc l u v : path d l u -> edge d u v -> known d v -> path d (l ++ [v]) v.

Definition path_cost (d : WorkloadDAG) (l : list TaskId) : Z := sumZ (cost_of d) l.

Definition costs_nonneg (d : WorkloadDAG) : Prop := forall v, 0 <= cost_of d v.

Definition total_memory (d : WorkloadDAG) : Z :=
  sumZ (mem_of d) (map_to_list (tasks_ d)).*1.

Lemma path_known d l v : path d l v -> forall x, x ∈ l -> known d x.
Proof. induction 1; set_solver. Qed.

Lemma path_last d l v : path d l v -> exists l', l = l' ++ [v].
Proof. destruct 1; [by exists []|eauto]. Qed.

Lemma path_tc d l v : path d l v -> forall l1 x l2, l = l1 ++ x :: l2 -> l2 <> [] -> tc (edge d) x v.
Proof.
  induction 1 as [v Hv|l u v Hp IH He Hv]; intros l1 x l2 Heq Hne.
  - destruct l1 as [|? [|]]; destruct l2; simplify_eq/=.
  - destruct l2 as [|y l2 _] using rev_ind; [done|].
    rewrite app_comm_cons, app_assoc in Heq. apply app_inj_tail in Heq as [-> ->].
    destruct l2 as [|z l2].
    + destruct (path_last _ _ _ Hp) as [l' Hl']. apply app_inj_tail in Hl' as [_ ->].
      by apply tc_once.
    + eapply tc_r; [|done]. by eapply IH.
Qed.

Lemma path_nodup d l v : acyclic (edge d) -> path d l v -> NoDup l.
Proof.
  intros Hac. induction 1 as [v Hv|l u v Hp IH He Hv]; [apply NoDup_singleton|].
  apply NoDup_app. split_and!; [done| |apply NoDup_singleton].
  intros x Hx ->%list_elem_of_singleton.
  apply list_elem_of_split in Hx as (l1 & l2 & ->). apply (Hac v).
  assert (path d ((l1 ++ v :: l2) ++ [v]) v) as Hp' by by eapply path_snoc.
  eapply (path_tc _ _ _ Hp' l1 v (l2 ++ [v])); [by rewrite <- app_assoc|].
  by destruct l2.
Qed.

Section Metrics.
Context {IO : IterOrder}.
Implicit Types (d : WorkloadDAG) (u v w : TaskId).

Lemma total_compute_cost_sum d : total_compute_cost d = sumZ (cost_of d) (iter (tasks_ d)).*1.
Proof.
  unfold total_compute_cost.
  assert (forall l z, (forall x, x ∈ l -> tasks_ d !! x.1 = Some x.2) ->
    foldl (fun total '(_, task) => total + compute_cost (task_profile task)) z l
    = z + sumZ (cost_of d) l.*1) as Hgen.
  { induction l as [|[v t] l IH]; intros z Hl; csimpl; [lia|].
    rewrite IH by set_solver. specialize (Hl (v, t) ltac:(left)). simpl in Hl.
    unfold cost_of at 2. rewrite Hl. lia. }
  rewrite Hgen; [lia|]. intros [v t]. apply elem_of_iter.
Qed.

(** A path of an acyclic DAG weighs at most the whole DAG. *)
Lemma path_cost_bound d l v :
  acyclic (edge d) -> costs_nonneg d -> path d l v ->
  0 <= path_cost d l <= total_compute_cost d.
Proof.
  intros Hac Hc Hp. rewrite total_compute_cost_sum. split.
  - apply sumZ_nonneg. intros; apply Hc.
  - apply sumZ_submseteq; [intros; apply Hc|].
    apply NoDup_submseteq; [by eapply path_nodup|].
    intros x Hx. apply elem_of_iter_fst. by apply (path_known _ _ _ Hp).
Qed.

(** * Longest paths *)

(** The table after the prefix [done] of the order has been processed. *)
Record dist_inv d (dist : gmap TaskId Z) (processed : list TaskId) : Prop := {
  dv_nonneg : forall v, 0 <= at_or 0 dist v;
  dv_dom : forall v, is_Some (dist !! v) -> known d v;
  dv_sound : forall v, 0 < at_or 0 dist v ->
               exists l, path d l v /\ path_cost d l = at_or 0 dist v;
  dv_edge : forall u v, u ∈ processed -> edge d u v ->
               at_or 0 dist u + cost_of d v <= at_or 0 dist v;
  dv_complete : forall v l, v ∈ processed -> path d l v -> path_cost d l <= at_or 0 dist v
}.

Lemma path_cost_snoc d l v : path_cost d (l ++ [v]) = path_cost d l + cost_of d v.
Proof. unfold path_cost. rewrite sumZ_app. simpl. lia. Qed.

Lemma at_or_insert (dist : gmap TaskId Z) k x v :
  at_or 0 (<[k := x]> dist) v = if decide (k = v) then x else at_or 0 dist v.
Proof. unfold at_or. case_decide; by simplify_map_eq. Qed.

(** Relaxing the out-edges of [u] raises only successors of [u], to values that
    are weights of paths through [u]. *)
Lemma foldl_relax_dist d u vs (dist : gmap TaskId Z) :
  known d u -> u ∉ vs -> (forall v, v ∈ vs -> known d v) ->
  let dist' := foldl (relax_dist d u) dist vs in
  (forall v, v ∉ vs -> dist' !! v = dist !! v) /\
  (forall v, v ∈ vs -> at_or 0 dist u + cost_of d v <= at_or 0 dist' v) /\
  (forall v, at_or 0 dist v <= at_or 0 dist' v) /\
  (forall v, at_or 0 dist' v = at_or 0 dist v \/
             v ∈ vs /\ at_or 0 dist' v = at_or 0 dist u + cost_of d v).
Proof.
  intros Hu. revert dist. induction vs as [|w vs IH]; intros dist Huv Hk; cbn [foldl].
  - split_and!; [done|set_solver|lia|auto].
  - assert (u <> w /\ u ∉ vs) as [Huw Hu'] by set_solver.
    set (dist1 := relax_dist d u dist w).
    assert (forall v, v <> w -> dist1 !! v = dist !! v) as Hne.
    { intros v Hv. subst dist1. unfold relax_dist. destruct (tasks_ d !! w); [|done].
      case_decide; [|done]. by rewrite lookup_insert_ne. }
    assert (at_or 0 dist1 u = at_or 0 dist u) as Hdu by (unfold at_or; by rewrite Hne).
    assert (at_or 0 dist1 w = Z.max (at_or 0 dist w) (at_or 0 dist u + cost_of d w)) as Hdw.
    { subst dist1. unfold relax_dist, cost_of. destruct (Hk w ltac:(left)) as [t Ht].
      rewrite Ht. case_decide; [rewrite at_or_insert, decide_True by done|]; lia. }
    assert (forall v, v <> w -> at_or 0 dist1 v = at_or 0 dist v) as Hsame
      by (intros v Hv; unfold at_or; by rewrite Hne).
    destruct (IH dist1 Hu') as (H1 & H2 & H3 & H4); [set_solver|].
    rewrite Hdu in H2. setoid_rewrite Hdu in H4. split_and!.
    + intros v Hv. rewrite H1 by set_solver. apply Hne. set_solver.
    + intros v [->|Hv]%elem_of_cons; [|by apply H2]. specialize (H3 w). lia.
    + intros v. specialize (H3 v). destruct (decide (v = w)) as [->|Hv]; [lia|].
      rewrite <- (Hsame v Hv). lia.
    + intros v. destruct (H4 v) as [Heq|[Hv Heq]]; [|right; set_solver].
      destruct (decide (v = w)) as [->|Hv]; [|left; by rewrite Heq, Hsame].
      destruct (Z.max_spec (at_or 0 dist w) (at_or 0 dist u + cost_of d w)) as [[_ Hm]|[_ Hm]];
        [right; split; [left|]|left]; lia.
Qed.

(** The value of [dist\[u\]] once the source case has been handled. *)
Definition dist_source d (dist : gmap TaskId Z) u : gmap TaskId Z :=
  match dependencies d u with
  | [] => <[u := Z.max (at_or 0 dist u) (cost_of d u)]> dist
  | _ => dist
  end.

Lemma dist_step_known d dist u :
  known d u -> dist_step d dist u = foldl (relax_dist d u) (dist_source d dist u) (dependents d u).
Proof. intros [t Ht]. unfold dist_step, dist_source, cost_of. by rewrite Ht. Qed.

Lemma dist_source_other d dist u v :
  v <> u -> at_or 0 (dist_source d dist u) v = at_or 0 dist v.
Proof.
  intros Hv. unfold dist_source. destruct (dependencies d u); [|done].
  by rewrite at_or_insert, decide_False.
Qed.

Lemma dist_source_le d dist u v : at_or 0 dist v <= at_or 0 (dist_source d dist u) v.
Proof.
  destruct (decide (v = u)) as [->|]; [|by rewrite dist_source_other].
  unfold dist_source. destruct (dependencies d u); [|done].
  rewrite at_or_insert, decide_True by done. lia.
Qed.

(** When all predecessors of [u] are processed, its entry is final. *)
Lemma dist_source_final d dist processed u :
  dag_wf d -> costs_nonneg d -> dist_inv d dist processed ->
  known d u -> (forall w, edge d w u -> w ∈ processed) ->
  (forall l, path d l u -> path_cost d l <= at_or 0 (dist_source d dist u) u) /\
  (exists l, path d l u /\ path_cost d l = at_or 0 (dist_source d dist u) u).
Proof.
  intros Hwf Hc [Hnn _ Hs He Hcm] Hu Hpre.
  assert (cost_of d u <= at_or 0 (dist_source d dist u) u) as Hone.
  { unfold dist_source. destruct (dependencies d u) as [|w ws] eqn:Hd.
    - rewrite at_or_insert, decide_True by done. lia.
    - assert (edge d w u) as Hw by (apply edge_dependencies; [done|]; rewrite Hd; left).
      specialize (He w u (Hpre w Hw) Hw). specialize (Hnn w). lia. }
  assert (forall l, path d l u -> path_cost d l <= at_or 0 (dist_source d dist u) u) as Hall.
  { intros l Hp. inversion Hp as [|l' w ? Hp' Hw]; subst.
    - unfold path_cost. simpl. lia.
    - rewrite path_cost_snoc. specialize (Hcm w l' (Hpre w Hw) Hp').
      specialize (He w u (Hpre w Hw) Hw). pose proof (dist_source_le d dist u u). lia. }
  split; [done|].
  assert (at_or 0 (dist_source d dist u) u = at_or 0 dist u \/
          at_or 0 (dist_source d dist u) u = cost_of d u) as [Heq|Heq].
  { unfold dist_source. destruct (dependencies d u); [|by left].
    rewrite at_or_insert, decide_True by done. lia. }
  - destruct (decide (0 < at_or 0 dist u)) as [Hpos|Hz].
    + destruct (Hs u Hpos) as (l & Hl & Hcost). exists l. split; [done|lia].
    + exists [u]. split; [by constructor|]. unfold path_cost. simpl.
      specialize (Hc u). specialize (Hnn u). lia.
  - exists [u]. split; [by constructor|]. unfold path_cost. simpl. lia.
Qed.

Lemma dist_inv_step d dist processed u :
  dag_wf d -> closed d -> costs_nonneg d -> dist_inv d dist processed ->
  known d u -> u ∉ processed ->
  (forall w, edge d w u -> w ∈ processed) -> (forall v, edge d u v -> v ∉ processed) ->
  dist_inv d (dist_step d dist u) (processed ++ [u]).
Proof.
  intros Hwf Hcl Hc Hinv Hu Hfresh Hpre Hpost. rewrite dist_step_known by done.
  destruct (dist_source_final d dist processed u Hwf Hc Hinv Hu Hpre) as [Hall (lu & Hlu & Hcu)].
  destruct Hinv as [Hnn Hdom Hs He Hcm].
  set (dist0 := dist_source d dist u) in *.
  assert (u ∉ dependents d u) as Huu by (intros Huu; by apply Hfresh, Hpre).
  destruct (foldl_relax_dist d u (dependents d u) dist0 Hu Huu) as (H1 & H2 & H3 & H4).
  { intros v Hv. by apply (Hcl u v). }
  set (dist' := foldl _ dist0 _) in *.
  assert (forall v, at_or 0 dist v <= at_or 0 dist' v) as Hle.
  { intros v. specialize (H3 v). pose proof (dist_source_le d dist u v). subst dist0. lia. }
  assert (at_or 0 dist' u = at_or 0 dist0 u) as Hdu by (unfold at_or; by rewrite H1).
  assert (forall w, w ∈ processed -> at_or 0 dist' w = at_or 0 dist w) as Hdw.
  { intros w Hw. unfold at_or. rewrite H1 by (intros Hc'; by apply (Hpost w)).
    apply dist_source_other. set_solver. }
  split.
  - intros v. specialize (Hle v). specialize (Hnn v). lia.
  - intros v Hv. destruct (decide (v ∈ dependents d u)) as [Hvu|Hvu]; [by apply (Hcl u v)|].
    rewrite H1 in Hv by done. subst dist0. unfold dist_source in Hv.
    destruct (dependencies d u); [|auto]. apply lookup_insert_is_Some in Hv as [<-|[]]; auto.
  - intros v Hv. destruct (H4 v) as [Heq|[Hvu Heq]].
    + destruct (decide (v = u)) as [->|Hvu]; [exists lu; split; [done|lia]|].
      rewrite Heq in *. subst dist0. rewrite dist_source_other in * by done. auto.
    + exists (lu ++ [v]). rewrite path_cost_snoc, Heq. split; [|lia].
      eapply path_snoc; [done..|]. by apply (Hcl u v).
  - intros w v [Hw|Hw]%elem_of_app Hwv.
    + rewrite Hdw by done. specialize (He w v Hw Hwv). specialize (Hle v). lia.
    + apply list_elem_of_singleton in Hw as ->. rewrite Hdu. by apply H2.
  - intros v l [Hv|Hv]%elem_of_app Hp.
    + specialize (Hcm v l Hv Hp). specialize (Hle v). lia.
    + apply list_elem_of_singleton in Hv as ->. rewrite Hdu. by apply Hall.
Qed.

Lemma dist_inv_init d :
  dist_inv d (foldl (fun m '(id, _) => <[id := 0]> m) ∅ (iter (tasks_ d))) [].
Proof.
  assert (forall v, at_or 0 (foldl (fun m '(id, _) => <[id := 0]> m) ∅ (iter (tasks_ d))) v = 0)
    as Hz.
  { intros v. unfold at_or. rewrite foldl_init_lookup. by destruct (tasks_ d !! v). }
  split.
  - intros v. rewrite Hz. lia.
  - intros v. by rewrite foldl_init_lookup, fmap_is_Some.
  - intros v. rewrite Hz. lia.
  - intros u v. set_solver.
  - intros v l. set_solver.
Qed.

Lemma longest_paths_inv d :
  dag_wf d -> closed d -> costs_nonneg d ->
  dist_inv d (longest_paths d (topological_order d)) (topological_order d).
Proof.
  intros Hwf Hcl Hc. destruct (topological_order_spec d) as (_ & Hnd & Ht & _).
  pose proof (fun v => topological_order_known d v Hcl) as Hk.
  unfold longest_paths. revert Hnd Ht Hk.
  induction (topological_order d) as [|u l IH] using rev_ind; intros Hnd Ht Hk.
  - apply dist_inv_init.
  - rewrite foldl_app. cbn [foldl].
    apply NoDup_app in Hnd as (Hnd & Hfresh & _).
    assert (u ∉ l) as Hu by set_solver.
    apply dist_inv_step; [done..| |set_solver|done| |].
    + apply IH; [done|by eapply topo_sorted_prefix|]. set_solver.
    + intros w Hw. by apply (Ht l u []).
    + intros v Hv Hvl. apply list_elem_of_split in Hvl as (l1 & l2 & ->). apply Hu.
      apply elem_of_app. left. apply (Ht l1 v (l2 ++ [u])); [by rewrite <- app_assoc|done].
Qed.

Lemma critical_path_cost_unfold d :
  closed d -> is_valid d = true ->
  critical_path_cost d
  = foldl (fun m x => Z.max m x.2) 0 (iter (longest_paths d (topological_order d))).
Proof.
  intros Hcl Hv. pose proof (valid_closed_perm d Hcl Hv) as Hp.
  apply is_valid_spec in Hv as [(t & x & Ht) _]. unfold critical_path_cost.
  rewrite decide_False by (intros He; rewrite He in Ht; by rewrite lookup_empty in Ht).
  rewrite decide_False by (rewrite Hp, length_fmap, length_iter; naive_solver).
  apply foldl_max_entries.
Qed.

(** [critical_path_cost] is attained by a path and bounds every path. *)
Lemma critical_path_cost_spec d :
  dag_wf d -> closed d -> costs_nonneg d -> is_valid d = true ->
  (forall l v, path d l v -> path_cost d l <= critical_path_cost d) /\
  (exists l v, path d l v /\ path_cost d l = critical_path_cost d).
Proof.
  intros Hwf Hcl Hc Hv. rewrite critical_path_cost_unfold by done.
  pose proof (longest_paths_inv d Hwf Hcl Hc) as [Hnn Hdom Hs _ Hcm].
  pose proof (valid_closed_perm d Hcl Hv) as Hp.
  set (dist := longest_paths d _) in *.
  destruct (foldl_max_spec snd (iter dist) 0) as (Hge & Hub & Hatt).
  set (r := foldl _ 0 _) in *.
  assert (forall l v, path d l v -> path_cost d l <= r) as Hall.
  { intros l v Hl. assert (known d v) as Hk.
    { eapply path_known; [done|]. destruct (path_last _ _ _ Hl) as [? ->]. set_solver. }
    assert (path_cost d l <= at_or 0 dist v) as Hle.
    { apply Hcm; [|done]. by rewrite Hp, elem_of_iter_fst. }
    unfold at_or in Hle. destruct (dist !! v) as [z|] eqn:Hz; simpl in Hle; [|lia].
    specialize (Hub (v, z)). rewrite elem_of_iter in Hub. specialize (Hub Hz). simpl in Hub. lia. }
  split; [done|].
  destruct (decide (0 < r)) as [Hpos|Hz].
  - destruct Hatt as [Heq|((v & z) & Hin & Heq)]; [lia|]. simpl in Heq.
    apply elem_of_iter in Hin.
    assert (at_or 0 dist v = r) as Hr by (unfold at_or; rewrite Hin; simpl; lia).
    destruct (Hs v) as (l & Hl & Hcost); [lia|]. exists l, v. split; [done|lia].
  - apply is_valid_spec in Hv as [(t & Ht) _]. exists [t], t.
    split; [by constructor|]. specialize (Hall [t] t (path_one _ _ Ht)).
    unfold path_cost in *. simpl in *. specialize (Hc t). lia.
Qed.

(** Every entry of the table is the weight of a path, hence within the total. *)
Lemma longest_paths_bounds d v z :
  dag_wf d -> closed d -> costs_nonneg d -> is_valid d = true ->
  longest_paths d (topological_order d) !! v = Some z -> 0 <= z <= total_compute_cost d.
Proof.
  intros Hwf Hcl Hc Hv Hz. pose proof (longest_paths_inv d Hwf Hcl Hc) as [Hnn Hdom Hs _ _].
  pose proof (valid_closed_acyclic d Hcl Hv) as Hac.
  specialize (Hnn v). specialize (Hs v). unfold at_or in *. rewrite Hz in *. simpl in *.
  destruct (decide (0 < z)) as [Hpos|].
  - destruct (Hs Hpos) as (l & Hl & <-). by eapply path_cost_bound.
  - assert (z = 0) as -> by lia. split; [done|].
    rewrite total_compute_cost_sum. apply sumZ_nonneg. intros; apply Hc.
Qed.

(** A DAG with a cycle among its tasks is reported as having no critical path. *)
Lemma cyclic_metrics_zero d :
  closed d -> has_cycle d = true -> critical_path_cost d = 0 /\ peak_memory_estimate d = 0.
Proof.
  intros Hcl Hcyc.
  assert (length (topological_order d) <> size (tasks_ d)) as Hlen.
  { intros Hlen. apply (topological_order_length d Hcl) in Hlen.
    apply (closed_reachable_cycle d Hcl) in Hlen. by apply Hlen, has_cycle_spec. }
  unfold critical_path_cost, peak_memory_estimate.
  split; case_decide; try done; by rewrite decide_True.
Qed.

(** * Levels and peak memory *)

Record level_inv d (level : gmap TaskId nat) (processed : list TaskId) : Prop := {
  lv_dom : forall v, is_Some (level !! v) <-> v ∈ processed;
  lv_edge : forall u v b, edge d u v -> level !! v = Some b ->
              exists a, level !! u = Some a /\ (a < b)%nat;
  lv_attained : forall v k, level !! v = Some (S k) ->
              exists u, edge d u v /\ level !! u = Some k
}.

(** The level given to [u] when all its parents already have one. *)
Lemma level_step_value d (level : gmap TaskId nat) u :
  exists k, level_step d level u = <[u := k]> level /\
    (forall p a, p ∈ dependencies d u -> level !! p = Some a -> (a < k)%nat) /\
    (k = 0%nat \/ exists p a, p ∈ dependencies d u /\ level !! p = Some a /\ k = S a).
Proof.
  destruct (foldl_omax_spec (fun p => (fun l => l + 1)%nat <$> level !! p) (dependencies d u) 0)
    as (_ & Hub & Hatt).
  set (r := foldl _ 0%nat (dependencies d u)) in *.
  exists r. split_and!.
  - unfold level_step. f_equal. apply foldl_pointwise. intros m p. by destruct (level !! p).
  - intros p a Hp Ha. specialize (Hub p (a + 1)%nat Hp). rewrite Ha in Hub.
    specialize (Hub eq_refl). lia.
  - destruct Hatt as [->|(p & Hp & Ha)]; [by left|right].
    destruct (level !! p) as [a|] eqn:Hl; simplify_eq/=. exists p, a. split_and!; [done..|lia].
Qed.

Lemma level_inv_step d level processed u :
  dag_wf d -> level_inv d level processed -> u ∉ processed ->
  (forall w, edge d w u -> w ∈ processed) -> (forall v, edge d u v -> v ∉ processed) ->
  level_inv d (level_step d level u) (processed ++ [u]).
Proof.
  intros Hwf [Hdom He Ha] Hu Hpre Hpost.
  destruct (level_step_value d level u) as (k & -> & Hgt & Hatt).
  assert (forall w, w ∈ processed -> <[u := k]> level !! w = level !! w) as Hold.
  { intros w Hw. apply lookup_insert_ne. set_solver. }
  assert (forall v b, v <> u -> <[u := k]> level !! v = Some b -> v ∈ processed) as Hin.
  { intros v b Hv Hb. rewrite lookup_insert_ne in Hb by done. apply Hdom. eauto. }
  split.
  - intros v. rewrite lookup_insert_is_Some, Hdom. set_solver.
  - intros w v b Hwv Hb. destruct (decide (v = u)) as [->|Hvu].
    + rewrite lookup_insert_eq in Hb. simplify_eq. pose proof (Hpre w Hwv) as Hw.
      destruct (proj2 (Hdom w) Hw) as [a Hwa]. exists a. rewrite Hold by done.
      split; [done|]. apply (Hgt w a); [|done]. by apply edge_dependencies.
    + pose proof (Hin v b Hvu Hb) as Hv. rewrite Hold in Hb by done.
      destruct (He w v b Hwv Hb) as (a & Hwa & Hlt). exists a.
      rewrite Hold by (apply Hdom; eauto). done.
  - intros v n Hn. destruct (decide (v = u)) as [->|Hvu].
    + rewrite lookup_insert_eq in Hn. simplify_eq.
      destruct Hatt as [|(p & a & Hp & Hpa & ?)]; [done|]. simplify_eq. exists p.
      apply edge_dependencies in Hp; [|done]. rewrite Hold by (apply Hdom; eauto). done.
    + pose proof (Hin v _ Hvu Hn) as Hv. rewrite Hold in Hn by done.
      destruct (Ha v n Hn) as (p & Hp & Hpn). exists p.
      rewrite Hold by (apply Hdom; eauto). done.
Qed.

Lemma levels_inv d : dag_wf d -> level_inv d (levels d (topological_order d)) (topological_order d).
Proof.
  intros Hwf. destruct (topological_order_spec d) as (_ & Hnd & Ht & _).
  unfold levels. revert Hnd Ht.
  induction (topological_order d) as [|u l IH] using rev_ind; intros Hnd Ht.
  - split; simpl; intros *; rewrite ?lookup_empty; [|done|done].
    split; [by intros []|set_solver].
  - rewrite foldl_app. cbn [foldl]. apply NoDup_app in Hnd as (Hnd & Hfresh & _).
    assert (u ∉ l) as Hu by set_solver.
    apply level_inv_step; [done| |done| |].
    + apply IH; [done|by eapply topo_sorted_prefix].
    + intros w Hw. by apply (Ht l u []).
    + intros v Hv Hvl. apply list_elem_of_split in Hvl as (l1 & l2 & ->). apply Hu.
      apply elem_of_app. left. apply (Ht l1 v (l2 ++ [u])); [by rewrite <- app_assoc|done].
Qed.

(** Memory of the tasks at level [k]. *)
Definition level_sum d (level : gmap TaskId nat) (k : nat) : Z :=
  sumZ (fun '(v, l) => if decide (l = k) then mem_of d v else 0) (map_to_list level).

Lemma level_memory_mod d (level : gmap TaskId nat) k :
  at_or 0 (level_memory d level) k = u64 (level_sum d level k).
Proof.
  unfold level_memory, level_sum. rewrite <- iter_perm.
  assert (forall l m, (forall k, is_u64 (at_or 0 m k)) ->
    at_or 0 (foldl (fun m '(id, lvl) =>
           match tasks_ d !! id with
           | Some t => <[lvl := u64 (at_or 0 m lvl + memory_bytes (task_profile t))]> m
           | None => m
           end) m l) k
    = u64 (at_or 0 m k + sumZ (fun '(v, l) => if decide (l = k) then mem_of d v else 0) l)) as Hgen.
  { induction l as [|[v n] l IH]; intros m Hm; cbn [foldl sumZ].
    - rewrite Z.add_0_r. symmetry. apply u64_small, Hm.
    - unfold mem_of at 1. destruct (tasks_ d !! v) as [t|].
      + assert (forall j, at_or 0 (<[n := u64 (at_or 0 m n + memory_bytes (task_profile t))]> m) j
          = if decide (n = j) then u64 (at_or 0 m n + memory_bytes (task_profile t))
            else at_or 0 m j) as Hins.
        { intros j. unfold at_or. case_decide; by simplify_map_eq. }
        rewrite IH by (intros j; rewrite Hins; case_decide; [apply u64_range|apply Hm]).
        rewrite Hins. case_decide; [subst|by rewrite Z.add_0_l].
        unfold u64. rewrite Zplus_mod_idemp_l. f_equal. lia.
      + rewrite IH by done. case_decide; by rewrite Z.add_0_l. }
  rewrite Hgen; [done|]. intros j. unfold at_or. rewrite lookup_empty. simpl. unfold is_u64. lia.
Qed.

(** The sum of a level never exceeds the memory of the whole DAG. *)
Lemma level_sum_bound d k :
  closed d -> (forall v, 0 <= mem_of d v) ->
  0 <= level_sum d (levels d (topological_order d)) k <= total_memory d.
Proof.
  intros Hcl Hm. unfold level_sum, total_memory.
  set (level := levels d _). split.
  - apply sumZ_nonneg. intros [v l] _. case_decide; [apply Hm|done].
  - transitivity (sumZ (mem_of d) (map_to_list level).*1).
    + rewrite sumZ_fmap. apply sumZ_le. intros [v l] _. simpl. case_decide; [done|apply Hm].
    + apply sumZ_submseteq; [intros; apply Hm|].
      apply NoDup_submseteq; [apply NoDup_fst_map_to_list|]. intros v Hv.
      apply list_elem_of_fmap in Hv as ([v' l] & -> & Hv). apply elem_of_map_to_list in Hv.
      assert (known d v') as [t Ht].
      { apply topological_order_known; [done|]. subst level. revert Hv.
        unfold levels. generalize (topological_order d).
        intros order. induction order as [|u order IH] using rev_ind; simpl; [by rewrite lookup_empty|].
        rewrite foldl_app. cbn [foldl].
        destruct (level_step_value d (foldl (level_step d) ∅ order) u) as (k' & -> & _).
        rewrite lookup_insert. case_decide; [set_solver|]. intros. apply elem_of_app. left. auto. }
      apply list_elem_of_fmap. exists (v', t). by rewrite elem_of_map_to_list.
Qed.

Lemma peak_memory_estimate_spec d :
  closed d -> is_valid d = true -> (forall v, 0 <= mem_of d v) -> total_memory d < 2 ^ 64 ->
  let level := levels d (topological_order d) in
  (forall k, level_sum d level k <= peak_memory_estimate d) /\
  (exists k, peak_memory_estimate d = level_sum d level k).
Proof.
  intros Hcl Hv Hm Htot level.
  pose proof (valid_closed_perm d Hcl Hv) as Hp. pose proof Hv as Hv'.
  apply is_valid_spec in Hv' as [(t & x & Ht) _]. unfold peak_memory_estimate.
  rewrite decide_False by (intros He; rewrite He in Ht; by rewrite lookup_empty in Ht).
  rewrite decide_False by (rewrite Hp, length_fmap, length_iter; naive_solver).
  rewrite foldl_max_entries. fold level.
  destruct (foldl_max_spec snd (iter (level_memory d level)) 0) as (Hge & Hub & Hatt).
  set (r := foldl _ 0 _) in *.
  assert (forall k, at_or 0 (level_memory d level) k = level_sum d level k) as Hval.
  { intros k. rewrite level_memory_mod. apply u64_small. unfold is_u64.
    pose proof (level_sum_bound d k Hcl Hm) as Hb. fold level in Hb. lia. }
  assert (forall k, level_sum d level k <= r) as Hall.
  { intros k. rewrite <- Hval. unfold at_or.
    destruct (level_memory d level !! k) as [z|] eqn:Hz; simpl; [|lia].
    specialize (Hub (k, z)). rewrite elem_of_iter in Hub. by apply Hub. }
  split; [done|]. destruct Hatt as [Heq|((k & z) & Hin & Heq)].
  - exists 0%nat. pose proof (level_sum_bound d 0 Hcl Hm) as Hb. fold level in Hb.
    specialize (Hall 0%nat). lia.
  - exists k. apply elem_of_iter in Hin. rewrite <- Hval. unfold at_or. by rewrite Hin.
Qed.
End Metrics.
