(* ===== verification/DagTheorems.v ===== *)
(** What [WorkloadDAG] guarantees its clients: the statements the schedulers, the
    codec and the orchestrator rely on, with the concrete DAGs that exercise
    them. *)

From Stdlib Require Import ZArith Lia.
From stdpp Require Import base gmap strings relations numbers list.
From S2P Require Import Prelude Core Dag Kahn Cycle Metrics.

Local Open Scope Z_scope.

(** * Deciding the hypotheses on a concrete DAG *)

#[export] Instance known_dec d id : Decision (known d id).
Proof. unfold known. apply _. Defined.

Lemma closed_map_Forall d :
  closed d <-> map_Forall (fun u ns => Forall (fun v => known d u /\ known d v) ns) (adj_list_ d).
Proof.
  split.
  - intros Hc u ns Hu. apply Forall_forall. intros v Hv. apply Hc.
    apply edge_lookup. eauto.
  - intros Hm u v (ns & Hu & Hv)%edge_lookup. specialize (Hm u ns Hu).
    by apply (proj1 (Forall_forall _ _) Hm).
Qed.

#[export] Instance closed_dec d : Decision (closed d).
Proof.
  refine (cast_if (decide (map_Forall (fun u ns => Forall (fun v => known d u /\ known d v) ns)
                             (adj_list_ d)))); by rewrite closed_map_Forall.
Defined.

Lemma costs_nonneg_map_Forall d :
  costs_nonneg d <-> map_Forall (fun _ t => 0 <= compute_cost (task_profile t)) (tasks_ d).
Proof.
  unfold costs_nonneg, cost_of. split.
  - intros Hc v t Ht. specialize (Hc v). by rewrite Ht in Hc.
  - intros Hm v. destruct (tasks_ d !! v) as [t|] eqn:Ht; [by eapply Hm|done].
Qed.

#[export] Instance costs_nonneg_dec d : Decision (costs_nonneg d).
Proof.
  refine (cast_if (decide (map_Forall (fun _ t => 0 <= compute_cost (task_profile t)) (tasks_ d))));
    by rewrite costs_nonneg_map_Forall.
Defined.

Definition mems_nonneg (d : WorkloadDAG) : Prop := forall v, 0 <= mem_of d v.

Lemma mems_nonneg_map_Forall d :
  mems_nonneg d <-> map_Forall (fun _ t => 0 <= memory_bytes (task_profile t)) (tasks_ d).
Proof.
  unfold mems_nonneg, mem_of. split.
  - intros Hc v t Ht. specialize (Hc v). by rewrite Ht in Hc.
  - intros Hm v. destruct (tasks_ d !! v) as [t|] eqn:Ht; [by eapply Hm|done].
Qed.

#[export] Instance mems_nonneg_dec d : Decision (mems_nonneg d).
Proof.
  refine (cast_if (decide (map_Forall (fun _ t => 0 <= memory_bytes (task_profile t)) (tasks_ d))));
    by rewrite mems_nonneg_map_Forall.
Defined.

(** A DAG built by [add_task] and then [add_dependency] calls. *)
Definition build (ts : list (TaskId * Z * Z)) (es : list (TaskId * TaskId)) : WorkloadDAG :=
  let d := foldl (fun d '(i, c, m) => (add_task (mkTask i i (mkProfile c m 0 0) [] Pending) d).2)
             empty_dag ts in
  foldl (fun d '(u, v) => add_dependency u v d) d es.

Lemma build_steps ts es : rtc dag_step empty_dag (build ts es).
Proof.
  unfold build. set (d0 := foldl _ empty_dag ts).
  assert (rtc dag_step empty_dag d0) as H0.
  { subst d0. generalize empty_dag.
    induction ts as [|[[i c] m] ts IH]; intros d; cbn [foldl]; [done|].
    eapply rtc_l; [|apply IH]. constructor. }
  etransitivity; [exact H0|]. clear H0. generalize d0. clear d0.
  induction es as [|[u v] es IH]; intros d; cbn [foldl]; [done|].
  eapply rtc_l; [|apply IH]. constructor.
Qed.

Lemma dag_steps_wf d d' : rtc dag_step d d' -> dag_wf d -> dag_wf d'.
Proof. induction 1; eauto with edge. Qed.

Lemma build_wf ts es : dag_wf (build ts es).
Proof. eapply dag_steps_wf; [apply build_steps|apply dag_wf_empty]. Qed.

(** [src -> left, right -> sink], with a duplicated edge. *)
Definition diamond_dag : WorkloadDAG :=
  build [("src", 4, 10); ("left", 7, 20); ("right", 2, 30); ("sink", 1, 5)]
        [("src", "left"); ("src", "right"); ("left", "sink"); ("right", "sink"); ("src", "left")].

(** [a -> b -> a]. *)
Definition two_cycle_dag : WorkloadDAG :=
  build [("a", 1, 1); ("b", 1, 1)] [("a", "b"); ("b", "a")].

(** [b] depends on an identifier that was never added. *)
Definition dangling_dag : WorkloadDAG := build [("a", 1, 1); ("b", 1, 1)] [("ghost", "b")].

(** Two independent chains [a -> b] and [c -> d]. *)
Definition chains_dag : WorkloadDAG :=
  build [("a", 1, 10); ("b", 1, 1); ("c", 1, 1); ("d", 1, 10)] [("a", "b"); ("c", "d")].

Example diamond_order :
  @topological_order IterReversed diamond_dag = ["src"; "right"; "left"; "sink"].
Proof. vm_compute. reflexivity. Qed.

(** * Structure *)

(** C13: every sequence of [add_task], [add_dependency] and [mark_*] calls from the
    empty DAG keeps the three maps consistent: tasks are filed under their own
    id, every task has both adjacency entries, and [reverse_adj_] is exactly the
    transpose of [adj_list_], multiplicities included. *)
Theorem dag_operations_preserve_wf (d : WorkloadDAG) :
  rtc dag_step empty_dag d -> dag_wf d.
Proof. intros H. by eapply dag_steps_wf; [|apply dag_wf_empty]. Qed.

Lemma dag_operations_preserve_wf_witness :
  rtc dag_step empty_dag diamond_dag /\ dag_wf diamond_dag.
Proof.
  split; [apply build_steps|]. apply (dag_operations_preserve_wf diamond_dag).
  apply build_steps.
Defined.

Section Theorems.
Context {IO : IterOrder}.
Implicit Types d : WorkloadDAG.

(** * Topological order *)

(** C14: Kahn's loop always empties its queue, and on every DAG, cyclic or with
    dangling edges, the result has no duplicates, lists every predecessor of a
    node before the node, and contains a node exactly when it contains all the
    node's predecessors. *)
Theorem topological_order_total_and_sound d :
  kahn d = Some (topological_order d) /\
  NoDup (topological_order d) /\
  topo_sorted (edge d) (topological_order d) /\
  (forall v, v ∈ topological_order d <->
             node d v /\ forall u, edge d u v -> u ∈ topological_order d).
Proof. apply topological_order_spec. Qed.

(** C15: the depth-first search always empties its stack and reports a cycle
    exactly when one is reachable from some task. *)
Theorem has_cycle_correct d :
  has_cycle_opt d = Some (has_cycle d) /\
  (has_cycle d = true <->
   exists t v, known d t /\ rtc (edge d) t v /\ tc (edge d) v v).
Proof. apply has_cycle_spec. Qed.

(** On a DAG whose edges join declared tasks, [is_valid] is the schedulers'
    precondition: the topological order then enumerates every task exactly once,
    dependencies first. *)
Theorem valid_dag_fully_ordered d :
  closed d -> is_valid d = true ->
  topological_order d ≡ₚ (map_to_list (tasks_ d)).*1 /\ topo_sorted (edge d) (topological_order d).
Proof.
  intros Hcl Hv. split; [|apply topological_order_spec].
  rewrite valid_closed_perm by done. by rewrite iter_perm.
Qed.

(** The two cycle tests agree: on a closed DAG the topological order is
    shorter than [task_count()] exactly when [has_cycle()] is true. *)
Theorem cycle_tests_agree d :
  closed d -> ((length (topological_order d) < task_count d)%nat <-> has_cycle d = true).
Proof.
  intros Hcl.
  assert (length (topological_order d) <= task_count d)%nat as Hle.
  { unfold task_count. rewrite <- length_iter, <- (length_fmap fst).
    apply submseteq_length, NoDup_submseteq; [apply topological_order_spec|].
    intros v Hv. apply elem_of_iter_fst. by apply topological_order_known. }
  rewrite <- (not_false_iff_true (has_cycle d)), <- (not_true_iff_false (has_cycle d)).
  rewrite (proj2 (has_cycle_spec d)).
  pose proof (closed_reachable_cycle d Hcl) as Hc.
  pose proof (topological_order_length d Hcl) as Hl. rewrite Hc, <- Hl. lia.
Qed.

(** * Metrics *)

(** C16: on a valid closed DAG with nonnegative costs [critical_path_cost] is the
    weight of a heaviest dependency path: no path weighs more and some path
    weighs exactly that. *)
Theorem critical_path_is_longest_path d :
  dag_wf d -> closed d -> costs_nonneg d -> is_valid d = true ->
  (forall l v, path d l v -> path_cost d l <= critical_path_cost d) /\
  (exists l v, path d l v /\ path_cost d l = critical_path_cost d).
Proof. apply critical_path_cost_spec. Qed.

(** The longest-path table and its maximum stay between zero and
    [total_compute_cost], so the [int64_t] arithmetic of the metric cannot
    overflow when the total of the DAG is representable. *)
Theorem critical_path_no_overflow d :
  dag_wf d -> closed d -> costs_nonneg d -> is_valid d = true ->
  total_compute_cost d <= i64_max ->
  (forall v z, longest_paths d (topological_order d) !! v = Some z -> is_i64 z) /\
  0 <= critical_path_cost d <= total_compute_cost d.
Proof.
  intros Hwf Hcl Hc Hv Ht. split.
  - intros v z Hz. pose proof (longest_paths_bounds d v z Hwf Hcl Hc Hv Hz).
    unfold is_i64, i64_max in *. lia.
  - destruct (critical_path_cost_spec d Hwf Hcl Hc Hv) as [_ (l & v & Hl & <-)].
    apply (path_cost_bound d l v); [by apply valid_closed_acyclic|done..].
Qed.

(** [peak_memory_estimate] is the largest memory sum over the levels, where
    levels strictly increase along dependencies and each nonzero level is one
    more than the level of some parent (the longest distance from a source). *)
Theorem peak_memory_is_max_level d :
  dag_wf d -> closed d -> is_valid d = true -> mems_nonneg d -> total_memory d < 2 ^ 64 ->
  let level := levels d (topological_order d) in
  (forall u v b, edge d u v -> level !! v = Some b -> exists a, level !! u = Some a /\ (a < b)%nat) /\
  (forall v k, level !! v = Some (S k) -> exists u, edge d u v /\ level !! u = Some k) /\
  (forall k, level_sum d level k <= peak_memory_estimate d) /\
  (exists k, peak_memory_estimate d = level_sum d level k).
Proof.
  intros Hwf Hcl Hv Hm Ht level. destruct (levels_inv d Hwf) as [_ He Ha].
  split; [apply He|]. split; [apply Ha|]. by apply peak_memory_estimate_spec.
Qed.

(** A DAG whose tasks form a cycle gets zero for both metrics. *)
Theorem cyclic_dag_has_zero_metrics d :
  closed d -> has_cycle d = true -> critical_path_cost d = 0 /\ peak_memory_estimate d = 0.
Proof. apply cyclic_metrics_zero. Qed.

(** * Ready tasks *)

Lemma all_deps_met_spec d id :
  all_deps_met d id = true <->
  forall dep t, dep ∈ dependencies d id -> tasks_ d !! dep = Some t -> task_state t = Completed.
Proof.
  unfold all_deps_met, dependencies. destruct (reverse_adj_ d !! id) as [deps|]; [|set_solver].
  rewrite forallb_forall. split.
  - intros H dep t Hd Ht. specialize (H dep (proj1 (list_elem_of_In _ _) Hd)).
    rewrite Ht in H. by apply bool_decide_eq_true in H.
  - intros H dep Hd%list_elem_of_In. destruct (tasks_ d !! dep) as [t|] eqn:Ht; [|done].
    apply bool_decide_eq_true. by eapply H.
Qed.

Lemma elem_of_ready_tasks d id :
  id ∈ ready_tasks d <->
  exists t, tasks_ d !! id = Some t /\ task_state t = Pending /\ all_deps_met d id = true.
Proof.
  unfold ready_tasks. rewrite list_elem_of_fmap. split.
  - intros ([i t] & -> & [[Hp Hd] Hin]%list_elem_of_filter). apply elem_of_iter in Hin. eauto.
  - intros (t & Ht & Hp & Hd). exists (id, t). by rewrite list_elem_of_filter, elem_of_iter.
Qed.

(** The first task of the topological order with a given decidable property. *)
Lemma first_in_order d (P : TaskId -> Prop) `{!forall v, Decision (P v)} v :
  v ∈ topological_order d -> P v ->
  exists w, w ∈ topological_order d /\ P w /\ forall u, edge d u w -> ~ P u.
Proof.
  intros Hv HP. destruct (topological_order_spec d) as (_ & _ & Ht & _).
  destruct (list_find_elem_of P (topological_order d) v Hv HP) as [[i w] Hi].
  apply list_find_Some in Hi as (Hw & HPw & Hmin). exists w.
  split_and!; [by eapply list_elem_of_lookup_2|done|]. intros u Hu HPu.
  pose proof (Ht (take i (topological_order d)) w (drop (S i) (topological_order d))) as Hpre.
  rewrite take_drop_middle in Hpre by done. specialize (Hpre eq_refl u Hu).
  apply list_elem_of_lookup in Hpre as [j Hj]. apply lookup_take_Some in Hj as [Hj Hji].
  by apply (Hmin j u).
Qed.

(** C17: [ready_tasks] returns exactly the pending tasks whose known dependencies
    have completed, and it never starves: while some task of a valid DAG is
    pending and the rest have completed, at least one task is ready. *)
Theorem ready_tasks_exact_and_progress d :
  dag_wf d -> closed d -> is_valid d = true ->
  (forall id, id ∈ ready_tasks d <->
     exists t, tasks_ d !! id = Some t /\ task_state t = Pending /\
       forall dep t', edge d dep id -> tasks_ d !! dep = Some t' -> task_state t' = Completed) /\
  ((forall id t, tasks_ d !! id = Some t -> task_state t = Pending \/ task_state t = Completed) ->
   (exists id t, tasks_ d !! id = Some t /\ task_state t = Pending) ->
   ready_tasks d <> []).
Proof.
  intros Hwf Hcl Hv.
  assert (forall id, id ∈ ready_tasks d <->
     exists t, tasks_ d !! id = Some t /\ task_state t = Pending /\
       forall dep t', edge d dep id -> tasks_ d !! dep = Some t' -> task_state t' = Completed) as Hr.
  { intros id. rewrite elem_of_ready_tasks. setoid_rewrite all_deps_met_spec.
    by setoid_rewrite (edge_dependencies d _ id Hwf). }
  split; [done|]. intros Hst (id & t & Ht & Hp) Hnil.
  destruct (first_in_order d (fun v => task_state <$> tasks_ d !! v = Some Pending) id)
    as (w & _ & Hw & Hpre).
  - rewrite valid_closed_perm by done. apply elem_of_iter_fst. by exists t.
  - by rewrite Ht, <- Hp.
  - apply fmap_Some in Hw as (tw & Htw & Hpw).
    assert (w ∈ ready_tasks d) as Hin; [|rewrite Hnil in Hin; set_solver].
    apply Hr. exists tw. split_and!; [done..|]. intros dep t' He Ht'.
    destruct (Hst dep t' Ht') as [Hp'|]; [|done].
    destruct (Hpre dep He). by rewrite Ht', <- Hp'.
Qed.
End Theorems.

(** * Witnesses *)

Lemma valid_dag_fully_ordered_witness :
  closed diamond_dag /\ @is_valid IterCanonical diamond_dag = true /\
  @topological_order IterCanonical diamond_dag ≡ₚ (map_to_list (tasks_ diamond_dag)).*1.
Proof.
  split; [decide_now|]. split; [vm_compute; reflexivity|].
  apply (@valid_dag_fully_ordered IterCanonical diamond_dag); [decide_now|vm_compute; reflexivity].
Defined.

Lemma cycle_tests_agree_witness :
  closed two_cycle_dag /\
  ((length (@topological_order IterReversed two_cycle_dag) < task_count two_cycle_dag)%nat <->
   @has_cycle IterReversed two_cycle_dag = true).
Proof.
  split; [decide_now|]. apply (@cycle_tests_agree IterReversed two_cycle_dag). decide_now.
Defined.

Lemma critical_path_is_longest_path_witness :
  exists l v, path diamond_dag l v /\
    path_cost diamond_dag l = @critical_path_cost IterCanonical diamond_dag.
Proof.
  apply (@critical_path_is_longest_path IterCanonical diamond_dag);
    [apply build_wf|decide_now|decide_now|vm_compute; reflexivity].
Defined.

Lemma critical_path_no_overflow_witness :
  0 <= @critical_path_cost IterCanonical diamond_dag <= @total_compute_cost IterCanonical diamond_dag.
Proof.
  apply (@critical_path_no_overflow IterCanonical diamond_dag);
    [apply build_wf|decide_now|decide_now|vm_compute; reflexivity|vm_compute; discriminate].
Defined.

Lemma peak_memory_is_max_level_witness :
  exists k, @peak_memory_estimate IterCanonical diamond_dag
    = level_sum diamond_dag (levels diamond_dag (@topological_order IterCanonical diamond_dag)) k.
Proof.
  apply (@peak_memory_is_max_level IterCanonical diamond_dag);
    [apply build_wf|decide_now|vm_compute; reflexivity|decide_now|vm_compute; reflexivity].
Defined.

Lemma cyclic_dag_has_zero_metrics_witness :
  @critical_path_cost IterCanonical two_cycle_dag = 0 /\
  @peak_memory_estimate IterCanonical two_cycle_dag = 0.
Proof.
  apply (@cyclic_dag_has_zero_metrics IterCanonical two_cycle_dag);
    [decide_now|vm_compute; reflexivity].
Defined.

Lemma ready_tasks_exact_and_progress_witness :
  @ready_tasks IterCanonical diamond_dag <> [].
Proof.
  apply (@ready_tasks_exact_and_progress IterCanonical diamond_dag);
    [apply build_wf|decide_now|vm_compute; reflexivity| |].
  - intros id t Ht. left.
    assert (map_Forall (fun _ t => task_state t = Pending) (tasks_ diamond_dag)) as Hall
      by decide_now.
    exact (Hall id t Ht).
  - exists "src". eexists. split; vm_compute; reflexivity.
Defined.

(** * Where the code and its comments part *)

(** [is_valid] does not check that dependencies exist.  A DAG with an edge
    from an undeclared id is accepted, yet the dependent task is missing from the
    topological order, so no policy ever places it. *)
Theorem dangling_dependency_drops_task :
  @is_valid IterCanonical dangling_dag = true /\
  known dangling_dag "b" /\
  "b" ∉ @topological_order IterCanonical dangling_dag.
Proof. split_and!; [vm_compute; reflexivity|decide_now|decide_now]. Qed.

(** The peak estimate is not an upper bound on what can be resident at
    once: in two independent chains, a level-0 task of one and a level-1 task of
    the other can run in parallel and together exceed the estimate. *)
Theorem peak_estimate_not_an_upper_bound :
  @is_valid IterCanonical chains_dag = true /\ closed chains_dag /\
  known chains_dag "a" /\ known chains_dag "d" /\
  ~ rtc (edge chains_dag) "a" "d" /\ ~ rtc (edge chains_dag) "d" "a" /\
  @peak_memory_estimate IterCanonical chains_dag < mem_of chains_dag "a" + mem_of chains_dag "d".
Proof.
  assert (forall v, edge chains_dag "a" v -> v = "b") as Ha.
  { intros v Hv. vm_compute in Hv. by apply list_elem_of_singleton in Hv. }
  assert (forall v, ~ edge chains_dag "b" v) as Hb
    by (intros v Hv; vm_compute in Hv; set_solver).
  assert (forall v, ~ edge chains_dag "d" v) as Hd
    by (intros v Hv; vm_compute in Hv; set_solver).
  split_and!; [vm_compute; reflexivity|decide_now..| | |vm_compute; reflexivity].
  - intros H. inversion H as [|? w ? Hw Hr]; subst. apply Ha in Hw as ->.
    inversion Hr as [|? w ? Hw' _]; subst. by apply Hb in Hw'.
  - intros H. inversion H as [|? w ? Hw _]; subst. by apply Hd in Hw.
Qed.
