(* ===== verification/MemoryPool.v ===== *)
(** [MemoryPool] of [executor/memory_pool.hpp] and [executor/memory_pool.cpp]: a
    bump arena whose single atomic offset is advanced by a compare-and-swap loop.

    [allocate] is a small-step machine per thread, so that any number of threads
    may interleave; the state also records, as a ghost, which blocks have been
    handed out since the last [reset].  [size_t] arithmetic wraps, exactly as in
    the source. *)

From Stdlib Require Import ZArith Lia.
From stdpp Require Import base gmap relations numbers list.
From S2P Require Import Prelude Core.

Local Open Scope Z_scope.
Local Open Scope cpp_scope.

(** * The offset computation *)

(** [(current + alignment - 1) & ~(alignment - 1)]. *)
Definition align_up (current alignment : Z) : Z :=
  Z.land (u64 (current + alignment - 1)) (u64 (Z.lnot (alignment - 1))).

(** One evaluation of the loop body: the aligned offset when the request fits. *)
Definition try_claim (capacity current size alignment : Z) : option Z :=
  let aligned := align_up current alignment in
  if decide (capacity < aligned +! size) then None else Some aligned.

Record MemoryPool := mkPool { capacity_ : Z; offset_ : Z }.

Definition new_pool (capacity_bytes : Z) : MemoryPool := mkPool capacity_bytes 0.

Definition used (p : MemoryPool) : Z := offset_ p.
Definition capacity (p : MemoryPool) : Z := capacity_ p.
Definition can_allocate (p : MemoryPool) (size : Z) : bool :=
  bool_decide (used p +! size <= capacity_ p).
Definition reset (p : MemoryPool) : MemoryPool := mkPool (capacity_ p) 0.

(** [allocate] when no other thread interferes: the first exchange succeeds. *)
Definition allocate (p : MemoryPool) (size alignment : Z) : option Z * MemoryPool :=
  match try_claim (capacity_ p) (offset_ p) size alignment with
  | None => (None, p)
  | Some aligned => (Some aligned, mkPool (capacity_ p) (aligned +! size))
  end.

(** [alignof(std::max_align_t)]. *)
Definition max_align : Z := 16.

(** * Concurrent allocation *)

(** Where a thread is inside [allocate(size, alignment)]. *)
Inductive alloc_pc :=
  | AEntry                                  (** before [offset_.load()] *)
  | ALoop (current : Z)                     (** at the top of the loop *)
  | ACas (current aligned : Z)              (** the request fits; about to exchange *)
  | ADone (result : option Z).              (** returned; [None] is [nullptr] *)

Record alloc_thread := mkThread { req_size : Z; req_align : Z; pc : alloc_pc }.

(** A block handed out since the last reset. *)
Record block := mkBlock { base : Z; len : Z; blk_align : Z }.

Record arena := mkArena {
  pool : MemoryPool;
  threads : gmap nat alloc_thread;
  live : list block
}.

Definition set_pc (t : alloc_thread) (c : alloc_pc) : alloc_thread :=
  mkThread (req_size t) (req_align t) c.

(** The atomic actions of thread [i], for callers that only make [admitted] requests.  A
    weak exchange may fail even when the values agree. *)
Inductive alloc_step (admitted : Z -> Z -> Prop) (i : nat) : arena -> arena -> Prop :=
  | as_call a size alignment :
      threads a !! i = None -> admitted size alignment ->
      alloc_step admitted i a (mkArena (pool a) (<[i := mkThread size alignment AEntry]> (threads a)) (live a))
  | as_load a t :
      threads a !! i = Some t -> pc t = AEntry ->
      alloc_step admitted i a (mkArena (pool a) (<[i := set_pc t (ALoop (offset_ (pool a)))]> (threads a)) (live a))
  | as_reject a t current :
      threads a !! i = Some t -> pc t = ALoop current ->
      try_claim (capacity_ (pool a)) current (req_size t) (req_align t) = None ->
      alloc_step admitted i a (mkArena (pool a) (<[i := set_pc t (ADone None)]> (threads a)) (live a))
  | as_fit a t current aligned :
      threads a !! i = Some t -> pc t = ALoop current ->
      try_claim (capacity_ (pool a)) current (req_size t) (req_align t) = Some aligned ->
      alloc_step admitted i a (mkArena (pool a) (<[i := set_pc t (ACas current aligned)]> (threads a)) (live a))
  | as_cas_ok a t current aligned :
      threads a !! i = Some t -> pc t = ACas current aligned ->
      offset_ (pool a) = current ->
      alloc_step admitted i a (mkArena (mkPool (capacity_ (pool a)) (aligned +! req_size t))
                            (<[i := set_pc t (ADone (Some aligned))]> (threads a))
                            (mkBlock aligned (req_size t) (req_align t) :: live a))
  | as_cas_fail a t current aligned :
      threads a !! i = Some t -> pc t = ACas current aligned ->
      alloc_step admitted i a (mkArena (pool a) (<[i := set_pc t (ALoop (offset_ (pool a)))]> (threads a)) (live a))
  | as_return a t r :
      threads a !! i = Some t -> pc t = ADone r ->
      alloc_step admitted i a (mkArena (pool a) (delete i (threads a)) (live a)).

(** Any thread moves, or the arena is reset. *)
Inductive arena_step (admitted : Z -> Z -> Prop) : arena -> arena -> Prop :=
  | as_thread a a' i : alloc_step admitted i a a' -> arena_step admitted a a'
  | as_reset a : arena_step admitted a (mkArena (reset (pool a)) (threads a) []).

Definition arena_init (capacity_bytes : Z) : arena := mkArena (new_pool capacity_bytes) ∅ [].

(** * Alignment arithmetic *)

Definition pow2 (a : Z) : Prop := exists k, 0 <= k /\ a = 2 ^ k.

(** A request no wrap-around can disturb on an arena of the given capacity. *)
Definition request_ok (cap size alignment : Z) : Prop :=
  pow2 alignment /\ 0 <= size /\ cap + alignment + size <= 2 ^ 64.

(** Two blocks share no byte. *)
Definition disjoint (b c : block) : Prop :=
  base b + len b <= base c \/ base c + len c <= base b.

(** A block lies in the arena, below the offset, and is aligned. *)
Definition block_ok (limit : Z) (b : block) : Prop :=
  0 <= base b /\ 0 <= len b /\ base b + len b <= limit /\ (blk_align b | base b).

(** Every pair of blocks at different places of the list is disjoint. *)
Fixpoint all_disjoint (bs : list block) : Prop :=
  match bs with
  | [] => True
  | b :: bs' => Forall (disjoint b) bs' /\ all_disjoint bs'
  end.

(** What a thread knows while it is inside [allocate]. *)
Definition thread_ok (cap : Z) (t : alloc_thread) : Prop :=
  request_ok cap (req_size t) (req_align t) /\
  match pc t with
  | AEntry => True
  | ALoop current => 0 <= current <= cap
  | ACas current aligned =>
      current <= aligned /\ 0 <= aligned /\ aligned + req_size t <= cap /\ (req_align t | aligned)
  | ADone None => True
  | ADone (Some aligned) => 0 <= aligned /\ aligned + req_size t <= cap /\ (req_align t | aligned)
  end.

Definition arena_inv (cap : Z) (a : arena) : Prop :=
  capacity_ (pool a) = cap /\
  0 <= offset_ (pool a) <= cap /\
  map_Forall (fun _ t => thread_ok cap t) (threads a) /\
  Forall (block_ok (offset_ (pool a))) (live a) /\
  all_disjoint (live a).

Lemma pow2_pos a : pow2 a -> 1 <= a.
Proof. intros (k & Hk & ->). pose proof (Z.pow_pos_nonneg 2 k). lia. Qed.

Lemma ldiff_low n k : 0 <= k -> Z.land n (Z.lnot (2 ^ k - 1)) = n / 2 ^ k * 2 ^ k.
Proof.
  intros Hk. rewrite <- Z.ldiff_land.
  replace (2 ^ k - 1) with (Z.ones k) by (rewrite Z.ones_equiv; lia).
  rewrite Z.ldiff_ones_r by done. rewrite Z.shiftr_div_pow2, Z.shiftl_mul_pow2; done.
Qed.

Lemma land_u64_r n m : 0 <= n < 2 ^ 64 -> Z.land n (u64 m) = Z.land n m.
Proof.
  intros Hn. unfold u64. rewrite <- Z.land_ones by lia.
  rewrite (Z.land_comm m), Z.land_assoc, Z.land_ones, Z.mod_small by lia. done.
Qed.

(** Without wrap-around, [align_up] is the least multiple at or above [current]. *)
Lemma align_up_spec current alignment :
  pow2 alignment -> 0 <= current -> current + alignment <= 2 ^ 64 ->
  current <= align_up current alignment < current + alignment /\
  (alignment | align_up current alignment).
Proof.
  intros Hp Hc Hb. pose proof (pow2_pos _ Hp). destruct Hp as (k & Hk & ->).
  unfold align_up. rewrite (u64_small (current + 2 ^ k - 1)) by (unfold is_u64; lia).
  rewrite land_u64_r, ldiff_low by lia.
  pose proof (Z.div_mod (current + 2 ^ k - 1) (2 ^ k)).
  pose proof (Z.mod_pos_bound (current + 2 ^ k - 1) (2 ^ k)).
  split; [lia|]. apply Z.divide_factor_r.
Qed.

Lemma try_claim_spec cap current size alignment aligned :
  request_ok cap size alignment -> 0 <= current <= cap ->
  try_claim cap current size alignment = Some aligned ->
  current <= aligned /\ aligned + size <= cap /\ (alignment | aligned) /\
  aligned +! size = aligned + size.
Proof.
  intros (Hp & Hs & Hb) Hc. pose proof (pow2_pos _ Hp).
  destruct (align_up_spec current alignment) as [Hr Hd]; [done|lia|lia|].
  assert (Hu : align_up current alignment +! size = align_up current alignment + size)
    by (apply u64_small; unfold is_u64; lia).
  unfold try_claim. rewrite Hu. case_decide; intros [= <-]. repeat split; try done; lia.
Qed.

(** A request is refused exactly when its aligned block would pass the end. *)
Lemma try_claim_none cap current size alignment :
  request_ok cap size alignment -> 0 <= current <= cap ->
  try_claim cap current size alignment = None <-> cap < align_up current alignment + size.
Proof.
  intros (Hp & Hs & Hb) Hc. pose proof (pow2_pos _ Hp).
  destruct (align_up_spec current alignment) as [Hr Hd]; [done|lia|lia|].
  unfold try_claim. rewrite u64_small by (unfold is_u64; lia). case_decide; naive_solver lia.
Qed.

(** * The arena invariant *)

Lemma set_pc_ok cap (a : arena) i t c :
  map_Forall (fun _ t => thread_ok cap t) (threads a) ->
  threads a !! i = Some t ->
  (thread_ok cap t -> thread_ok cap (set_pc t c)) ->
  map_Forall (fun _ t => thread_ok cap t) (<[i := set_pc t c]> (threads a)).
Proof. intros Hall Ht Hc. apply map_Forall_insert_2; [apply Hc, (Hall _ _ Ht)|done]. Qed.

Lemma block_ok_weaken l l' b : l <= l' -> block_ok l b -> block_ok l' b.
Proof. unfold block_ok. intuition lia. Qed.

(** The exchange hands out a block above everything handed out before. *)
Lemma claim_block_inv cap (a : arena) aligned size alignment :
  arena_inv cap a -> 0 <= size -> offset_ (pool a) <= aligned -> (alignment | aligned) ->
  Forall (block_ok (aligned + size)) (mkBlock aligned size alignment :: live a) /\
  all_disjoint (mkBlock aligned size alignment :: live a).
Proof.
  intros (_ & Ho & _ & Hb & Hd) Hs Hle Hal. split.
  - constructor; [unfold block_ok; cbn; repeat split; [lia|lia|lia|done]|].
    eapply Forall_impl; [exact Hb|]. intros b. apply block_ok_weaken. lia.
  - split; [|done]. eapply Forall_impl; [exact Hb|].
    intros b (?&?&?&_). right. cbn. lia.
Qed.

Lemma alloc_step_inv admitted cap i a a' :
  (forall size alignment, admitted size alignment -> request_ok cap size alignment) ->
  arena_inv cap a -> alloc_step admitted i a a' -> arena_inv cap a'.
Proof.
  intros Hadm Hinv Hstep. pose proof Hinv as (Hc & Ho & Ht & Hb & Hd).
  destruct Hstep as [a size al Hi Hreq|a t Hi Hpc|a t cur Hi Hpc Hcl|a t cur al Hi Hpc Hcl
                    |a t cur al Hi Hpc Heq|a t cur al Hi Hpc|a t r Hi Hpc];
    unfold arena_inv; cbn; (split; [done|]).
  - split_and!; try done; try lia.
    apply map_Forall_insert_2; [split; [by apply Hadm|done]|done].
  - split_and!; try done; try lia. apply set_pc_ok; [done..|]. by intros [? _].
  - split_and!; try done; try lia. apply set_pc_ok; [done..|]. by intros [? _].
  - split_and!; try done; try lia. apply set_pc_ok; [done..|].
    intros [Hr Hx]. rewrite Hpc in Hx. rewrite Hc in Hcl.
    destruct (try_claim_spec _ _ _ _ _ Hr Hx Hcl) as (?&?&?&_). split; [done|].
    cbn. repeat split; try done; lia.
  - destruct (Ht _ _ Hi) as [Hr Hx]. rewrite Hpc in Hx. destruct Hx as (?&?&?&?), Hr as (Hp&Hs&Hbd).
    pose proof (pow2_pos _ Hp).
    rewrite u64_small by (unfold is_u64; lia).
    destruct (claim_block_inv cap a al (req_size t) (req_align t)) as [HB HD]; [done|lia|lia|done|].
    split_and!; try done; try lia; try apply HD. apply set_pc_ok; [done..|]. intros _. by split.
  - split_and!; try done; try lia. apply set_pc_ok; [done..|]. by intros [? _].
  - split_and!; try done; try lia. by apply map_Forall_delete.
Qed.

Lemma reset_inv cap a : 0 <= cap -> arena_inv cap a ->
  arena_inv cap (mkArena (reset (pool a)) (threads a) []).
Proof. intros Hcap (Hc & _ & Ht & _). unfold arena_inv. cbn. split_and!; try done; try lia. Qed.

Lemma arena_step_inv admitted cap a a' :
  (forall size alignment, admitted size alignment -> request_ok cap size alignment) ->
  0 <= cap -> arena_inv cap a -> arena_step admitted a a' -> arena_inv cap a'.
Proof.
  intros Hadm Hcap Hinv Hs. revert Hinv.
  destruct Hs as [b b' i Hs|b]; intros Hinv; [by eapply alloc_step_inv|by apply reset_inv].
Qed.

Lemma arena_reachable_inv admitted cap a :
  (forall size alignment, admitted size alignment -> request_ok cap size alignment) ->
  0 <= cap -> rtc (arena_step admitted) (arena_init cap) a -> arena_inv cap a.
Proof.
  intros Hadm Hcap. apply (rtc_ind_r (arena_inv cap)).
  - unfold arena_inv, arena_init. cbn. split_and!; try done; try lia.
  - intros b c _ Hbc Hb. by eapply arena_step_inv.
Qed.

(** The sequential [allocate] is a run of the concurrent machine. *)
Lemma allocate_runs (admitted : Z -> Z -> Prop) (a : arena) i size alignment :
  threads a !! i = None -> admitted size alignment ->
  exists a', rtc (alloc_step admitted i) a a' /\
    pool a' = (allocate (pool a) size alignment).2 /\
    threads a' !! i = Some (mkThread size alignment (ADone (allocate (pool a) size alignment).1)) /\
    (forall j, i <> j -> threads a' !! j = threads a !! j).
Proof.
  intros Hi Hadm. unfold allocate.
  destruct (try_claim (capacity_ (pool a)) (offset_ (pool a)) size alignment) as [al|] eqn:E.
  - eexists. split.
    + eapply rtc_l; [by apply as_call|].
      eapply rtc_l; [eapply as_load; [apply lookup_insert_eq|done]|].
      eapply rtc_l; [eapply as_fit; [apply lookup_insert_eq|done|exact E]|].
      apply rtc_once. eapply as_cas_ok; [apply lookup_insert_eq|done|done].
    + cbn. split_and!; [done|apply lookup_insert_eq|]. intros j Hj. by rewrite !lookup_insert_ne.
  - eexists. split.
    + eapply rtc_l; [by apply as_call|].
      eapply rtc_l; [eapply as_load; [apply lookup_insert_eq|done]|].
      apply rtc_once. eapply as_reject; [apply lookup_insert_eq|done|exact E].
    + cbn. split_and!; [done|apply lookup_insert_eq|]. intros j Hj. by rewrite !lookup_insert_ne.
Qed.

(** * Properties *)

(** Whatever threads interleave their calls of [allocate] and [reset], as long as
    every request is small enough that [aligned + size] cannot wrap, the blocks handed out
    since the last reset are aligned, lie inside the arena below the current offset, and
    are pairwise disjoint. *)
Theorem arena_blocks_disjoint admitted cap a :
  0 <= cap ->
  (forall size alignment, admitted size alignment -> request_ok cap size alignment) ->
  rtc (arena_step admitted) (arena_init cap) a ->
  offset_ (pool a) <= cap /\ Forall (block_ok (offset_ (pool a))) (live a) /\ all_disjoint (live a).
Proof.
  intros Hcap Hadm Hr. destruct (arena_reachable_inv _ _ _ Hadm Hcap Hr) as (_ & ? & _ & ? & ?).
  split_and!; [lia|done..].
Qed.

(** Requests of up to 1024 bytes at the default alignment. *)
Definition small_request (size alignment : Z) : Prop := 0 <= size <= 1024 /\ alignment = max_align.

Lemma small_request_ok size alignment : small_request size alignment -> request_ok 4096 size alignment.
Proof. intros [? ->]. split; [exists 4; split; [lia|reflexivity]|]. unfold max_align. lia. Qed.

Lemma arena_blocks_disjoint_witness :
  exists a, threads a !! 0%nat = Some (mkThread 100 max_align (ADone (Some 0))) /\
    (offset_ (pool a) <= 4096 /\ Forall (block_ok (offset_ (pool a))) (live a) /\ all_disjoint (live a)).
Proof.
  destruct (allocate_runs small_request (arena_init 4096) 0 100 max_align) as (a & Hr & _ & Ht & _);
    [reflexivity|split; [lia|reflexivity]|].
  exists a. split; [exact Ht|].
  apply (arena_blocks_disjoint small_request 4096 a); [lia|exact small_request_ok|].
  eapply rtc_subrel; [|exact Hr]. intros x y. apply as_thread.
Defined.

(** [allocate] without interference refuses a request exactly when the aligned block
    would pass the end of the arena, leaving the pool unchanged; otherwise it returns the
    least aligned offset at or above the old one and moves the offset to the block's end.
    A [nullptr] therefore means out of memory and nothing else. *)
Theorem allocate_exact p size alignment :
  request_ok (capacity_ p) size alignment -> 0 <= offset_ p <= capacity_ p ->
  let aligned := align_up (offset_ p) alignment in
  (offset_ p <= aligned < offset_ p + alignment /\ (alignment | aligned)) /\
  allocate p size alignment =
    if decide (aligned + size <= capacity_ p)
    then (Some aligned, mkPool (capacity_ p) (aligned + size))
    else (None, p).
Proof.
  intros Hr Ho aligned. pose proof Hr as (Hp & Hs & Hb). pose proof (pow2_pos _ Hp). split.
  { apply align_up_spec; [done|lia|lia]. }
  unfold allocate. destruct (try_claim (capacity_ p) (offset_ p) size alignment) as [al|] eqn:E.
  - destruct (try_claim_spec _ _ _ _ _ Hr Ho E) as (?&?&?&->).
    unfold try_claim in E. case_decide; [done|]. injection E as <-. by rewrite decide_True.
  - apply try_claim_none in E; [|done..]. rewrite decide_False; [done|]. unfold aligned. lia.
Qed.

Lemma allocate_exact_witness :
  request_ok 64 10 16 /\ allocate (mkPool 64 5) 10 16 = (Some 16, mkPool 64 26).
Proof.
  assert (Hr : request_ok 64 10 16) by (split; [exists 4; split; [lia|reflexivity]|lia]).
  split; [exact Hr|].
  destruct (allocate_exact (mkPool 64 5) 10 16 Hr) as [_ H]; [cbn; lia|]. exact H.
Defined.

(** [size_t] wrap-around defeats the bounds check.  With three calls and no reset, a
    request of 2^64 - 16 bytes succeeds on a 64-byte arena, moves the offset back to 0,
    and the next caller receives the same 16 bytes that the first caller still holds. *)
Theorem allocate_wraps_and_overlaps :
  let '(r1, p1) := allocate (new_pool 64) 16 max_align in
  let '(r2, p2) := allocate p1 (2 ^ 64 - 16) max_align in
  let '(r3, p3) := allocate p2 16 max_align in
  r1 = Some 0 /\ r2 = Some 16 /\ offset_ p2 = 0 /\ r3 = Some 0 /\ ~ disjoint (mkBlock 0 16 16) (mkBlock 0 16 16).
Proof. vm_compute. intuition congruence. Qed.

(** [can_allocate] tests the unaligned offset, so it can promise an allocation that
    [allocate] then refuses. *)
Theorem can_allocate_is_not_a_guarantee :
  let p := mkPool 64 1 in
  can_allocate p 63 = true /\ allocate p 63 max_align = (None, p).
Proof. vm_compute. done. Qed.
