(* ===== verification/ArenaLock.v ===== *)
(** [Orchestrator::run_task] and [Orchestrator::try_reset_arena]: tasks allocate under a
    shared lock on [arena_mutex_], the arena is reset under the exclusive one.

    A thread of the arena machine stands for a task: it is there from the acquisition of
    the shared lock to its release, and the block it was given is its own meanwhile. *)

From Stdlib Require Import ZArith Lia.
From stdpp Require Import base gmap relations numbers list.
From S2P Require Import Prelude Core MemoryPool.

Local Open Scope Z_scope.

(** [exclusive] is whether a thread is between [try_to_lock] and the end of its guard. *)
Record guarded := mkGuarded { g_arena : arena; exclusive : bool }.

(** The shared lock is granted only while no thread holds the exclusive one, and
    [try_to_lock] succeeds only while no thread holds either. *)
Inductive guarded_step (admitted : Z -> Z -> Prop) : guarded -> guarded -> Prop :=
  | gs_run_task g i a' :
      threads (g_arena g) !! i = None -> exclusive g = false -> alloc_step admitted i (g_arena g) a' ->
      guarded_step admitted g (mkGuarded a' (exclusive g))
  | gs_task_moves g i t a' :
      threads (g_arena g) !! i = Some t -> alloc_step admitted i (g_arena g) a' ->
      guarded_step admitted g (mkGuarded a' (exclusive g))
  | gs_try_lock g :
      threads (g_arena g) = ∅ -> exclusive g = false ->
      guarded_step admitted g (mkGuarded (g_arena g) true)
  | gs_reset g :
      exclusive g = true ->
      guarded_step admitted g
        (mkGuarded (mkArena (reset (pool (g_arena g))) (threads (g_arena g)) []) true)
  | gs_unlock g :
      exclusive g = true -> guarded_step admitted g (mkGuarded (g_arena g) false).

Definition guarded_init (capacity_bytes : Z) : guarded := mkGuarded (arena_init capacity_bytes) false.

(** The memory a running task was given. *)
Definition block_of (t : alloc_thread) : option block :=
  match pc t with
  | ADone (Some aligned) => Some (mkBlock aligned (req_size t) (req_align t))
  | _ => None
  end.

Definition holds (a : arena) (i : nat) (b : block) : Prop :=
  exists t, threads a !! i = Some t /\ block_of t = Some b.

(** Every block held is one handed out since the last reset, and no two tasks hold
    overlapping ones. *)
Definition private_blocks (a : arena) : Prop :=
  (forall i b, holds a i b -> b ∈ live a) /\
  (forall i j b c, i <> j -> holds a i b -> holds a j c -> disjoint b c).

Lemma disjoint_sym b c : disjoint b c -> disjoint c b.
Proof. unfold disjoint. tauto. Qed.

(** A step that hands out nothing keeps the blocks where they are. *)
Lemma private_blocks_quiet a a' :
  (forall i b, holds a' i b -> holds a i b) -> live a' = live a -> private_blocks a -> private_blocks a'.
Proof. intros Hh Hl [H1 H2]. split; [rewrite Hl|]; eauto. Qed.

Lemma holds_insert a i t p l k b :
  holds (mkArena p (<[i := t]> (threads a)) l) k b -> (k = i /\ block_of t = Some b) \/ (k <> i /\ holds a k b).
Proof.
  intros (t' & Ht & Hb). cbn in Ht. apply lookup_insert_Some in Ht as [[<- <-]|[Hne Ht]]; [by left|].
  right. split; [done|by exists t'].
Qed.

Lemma private_blocks_claim a i t l aligned :
  l = live a -> private_blocks a ->
  Forall (disjoint (mkBlock aligned (req_size t) (req_align t))) (live a) ->
  private_blocks (mkArena (mkPool (capacity_ (pool a)) (u64 (aligned + req_size t)))
    (<[i := set_pc t (ADone (Some aligned))]> (threads a))
    (mkBlock aligned (req_size t) (req_align t) :: l)).
Proof.
  intros -> [H1 H2] Hd. rewrite Forall_forall in Hd. split.
  - intros k b [[-> [= <-]]|[_ Hk]]%holds_insert; [by left|right; by apply (H1 k)].
  - intros k j b c Hne [[-> [= <-]]|[Hki Hk]]%holds_insert [[-> [= <-]]|[Hji Hj]]%holds_insert.
    + done.
    + apply Hd. by apply (H1 j).
    + apply disjoint_sym, Hd. by apply (H1 k).
    + by apply (H2 k j).
Qed.

Lemma alloc_step_private admitted cap i a a' :
  arena_inv cap a -> private_blocks a -> alloc_step admitted i a a' -> private_blocks a'.
Proof.
  intros Hinv Hp Hstep. pose proof Hinv as (Hc & Ho & Ht & _).
  destruct Hstep as [a size al Hi Hreq|a t Hi Hpc|a t cur Hi Hpc Hcl|a t cur al Hi Hpc Hcl
                    |a t cur al Hi Hpc Heq|a t cur al Hi Hpc|a t r Hi Hpc].
  5: { apply private_blocks_claim; [done..|].
       destruct (Ht _ _ Hi) as [(_ & Hs & _) Hx]. rewrite Hpc in Hx. destruct Hx as (? & ? & ? & ?).
       destruct (claim_block_inv cap a al (req_size t) (req_align t)) as [_ [HD _]]; [done|done|lia|done|done]. }
  all: revert Hp; apply private_blocks_quiet; [|done].
  1-5: by intros k b [[_ ?]|[_ ?]]%holds_insert.
  intros k b (t' & Ht' & Hb). cbn in Ht'. apply lookup_delete_Some in Ht' as [_ Ht']. by exists t'.
Qed.

Definition guarded_inv (cap : Z) (g : guarded) : Prop :=
  arena_inv cap (g_arena g) /\ private_blocks (g_arena g) /\
  (exclusive g = true -> threads (g_arena g) = ∅).

Lemma no_task_no_block a : threads a = ∅ -> forall i b, ~ holds a i b.
Proof. intros E i b (t & Ht & _). by rewrite E, lookup_empty in Ht. Qed.

Lemma guarded_step_inv admitted cap g g' :
  (forall size alignment, admitted size alignment -> request_ok cap size alignment) -> 0 <= cap ->
  guarded_inv cap g -> guarded_step admitted g g' -> guarded_inv cap g'.
Proof.
  intros Hadm Hcap (Ha & Hp & Hx) Hstep. revert Ha Hp Hx.
  destruct Hstep as [g i a' Hi He Hs|g i t a' Hi Hs|g Hth He|g He|g He]; intros Ha Hp Hx; unfold guarded_inv; cbn.
  - split_and!; [by eapply alloc_step_inv|by eapply alloc_step_private|congruence].
  - split_and!; [by eapply alloc_step_inv|by eapply alloc_step_private|].
    intros E. rewrite (Hx E) in Hi. by rewrite lookup_empty in Hi.
  - done.
  - split_and!; [by apply reset_inv| |intros _; by apply Hx].
    split; intros; exfalso; eapply no_task_no_block; eauto; by apply Hx.
  - split_and!; done.
Qed.

(** C12: a reset never takes memory from a running task.  Let no admitted request be so large
    that the bounds check of [allocate] wraps around [2^64].  Whatever tasks run, allocate and
    finish while other threads try to reset the arena, no two running tasks hold overlapping
    memory, and what each holds lies inside the part of the arena in use. *)
Theorem running_tasks_own_their_memory admitted cap g :
  0 <= cap ->
  (forall size alignment, admitted size alignment -> request_ok cap size alignment) ->
  rtc (guarded_step admitted) (guarded_init cap) g ->
  (forall i b, holds (g_arena g) i b -> block_ok (offset_ (pool (g_arena g))) b /\ base b + len b <= cap) /\
  (forall i j b c, i <> j -> holds (g_arena g) i b -> holds (g_arena g) j c -> disjoint b c).
Proof.
  intros Hcap Hadm Hr. assert (guarded_inv cap g) as ((_ & Ho & _ & Hb & _) & [Hl Hd] & _).
  { eapply (rtc_preserve (guarded_inv cap)); [|done|].
    - intros x y Hx Hs. by eapply guarded_step_inv.
    - split_and!; [by unfold arena_inv; cbn; split_and!; try done; lia| |done].
      split; intros; exfalso; eapply no_task_no_block; eauto; done. }
  split; [|done]. intros i b Hi. pose proof (proj1 (Forall_forall _ _) Hb _ (Hl i b Hi)) as Hok.
  split; [done|]. unfold block_ok in Hok. lia.
Qed.

(** A task that starts while no reset is in progress and whose request fits. *)
Lemma run_task_allocates (admitted : Z -> Z -> Prop) (a : arena) i size alignment aligned :
  threads a !! i = None -> admitted size alignment ->
  try_claim (capacity_ (pool a)) (offset_ (pool a)) size alignment = Some aligned ->
  exists a', rtc (guarded_step admitted) (mkGuarded a false) (mkGuarded a' false) /\
    pool a' = mkPool (capacity_ (pool a)) (u64 (aligned + size)) /\
    holds a' i (mkBlock aligned size alignment) /\
    (forall j, i <> j -> threads a' !! j = threads a !! j).
Proof.
  intros Hi Hadm E. eexists. split_and!.
  - eapply rtc_l; [by eapply gs_run_task with (i := i), as_call|]. cbn.
    eapply rtc_l; [eapply gs_task_moves with (i := i); [apply lookup_insert_eq|];
      by eapply as_load; [apply lookup_insert_eq|]|]. cbn.
    eapply rtc_l; [eapply gs_task_moves with (i := i); [apply lookup_insert_eq|];
      by eapply as_fit; [apply lookup_insert_eq|..]|]. cbn.
    apply rtc_once. eapply (gs_task_moves admitted (mkGuarded _ false) i); [apply lookup_insert_eq|].
    by eapply as_cas_ok; [apply lookup_insert_eq|..].
  - done.
  - eexists. split; [apply lookup_insert_eq|done].
  - intros j Hj. cbn. by rewrite !lookup_insert_ne.
Qed.

Lemma holds_same a a' i b : threads a' !! i = threads a !! i -> holds a i b -> holds a' i b.
Proof. intros E (t & Ht & Hb). exists t. by rewrite E. Qed.

(** Two tasks of 100 bytes at once. *)
Lemma run_two_tasks : exists g,
  rtc (guarded_step small_request) (guarded_init 4096) g /\
  holds (g_arena g) 0 (mkBlock 0 100 max_align) /\ holds (g_arena g) 1 (mkBlock 112 100 max_align).
Proof.
  assert (Hreq : small_request 100 max_align) by (split; [lia|reflexivity]).
  destruct (run_task_allocates small_request (arena_init 4096) 0 100 max_align 0) as (a & Hr & Hp & Hh & Ho); [done..|].
  destruct (run_task_allocates small_request a 1 100 max_align 112) as (a' & Hr' & Hp' & Hh' & Ho');
    [by rewrite Ho|done|by rewrite Hp|].
  exists (mkGuarded a' false). split; [by etransitivity|]. split; [|done].
  eapply holds_same; [|exact Hh]. by apply Ho'.
Qed.

Lemma running_tasks_own_their_memory_witness :
  exists g, holds (g_arena g) 0 (mkBlock 0 100 max_align) /\ holds (g_arena g) 1 (mkBlock 112 100 max_align) /\
    disjoint (mkBlock 0 100 max_align) (mkBlock 112 100 max_align).
Proof.
  destruct run_two_tasks as (g & Hr & H0 & H1). exists g. split; [exact H0|]. split; [exact H1|].
  refine (proj2 (running_tasks_own_their_memory small_request 4096 g _ small_request_ok Hr) 0%nat 1%nat _ _ _ H0 H1);
    [lia|discriminate].
Defined.

(** Without the lock the same machine does hand the same bytes to two running tasks. *)
Lemma unguarded_reset_overlaps : exists a,
  rtc (arena_step small_request) (arena_init 4096) a /\
  holds a 0 (mkBlock 0 100 max_align) /\ holds a 1 (mkBlock 0 100 max_align).
Proof.
  assert (Hreq : small_request 100 max_align) by (split; [lia|reflexivity]).
  destruct (allocate_runs small_request (arena_init 4096) 0 100 max_align) as (a & Hr & Hp & Ht & Ho); [done..|].
  destruct (allocate_runs small_request (mkArena (reset (pool a)) (threads a) []) 1 100 max_align)
    as (a' & Hr' & _ & Ht' & Ho'); [by cbn; rewrite Ho|done|].
  exists a'. split_and!.
  - etransitivity; [eapply rtc_subrel; [|exact Hr]; intros x y; apply as_thread|].
    eapply rtc_l; [apply as_reset|]. eapply rtc_subrel; [|exact Hr']. intros x y. apply as_thread.
  - eexists. rewrite Ho' by done. cbn [threads]. rewrite Ht. split; [done|]. done.
  - eexists. rewrite Ht'. cbn. rewrite Hp. done.
Qed.
