(* ===== verification/TaskRunner.v ===== *)
(** [TaskRunner] of [executor/task_runner.hpp] and [executor/task_runner.cpp].

    The environment of one execution is what the code reads from outside: the
    steady-clock readings (in nanoseconds) and the successive answers of
    [stop.stop_requested()].  The busy loop consumes one answer per iteration and,
    when not stopped, one clock reading. *)

From Stdlib Require Import ZArith Lia.
From stdpp Require Import base strings numbers list.
From S2P Require Import Prelude Core MemoryPool.

Local Open Scope Z_scope.

Record ExecutionResult := mkExec {
  er_task_id : TaskId;
  er_final_state : TaskState;
  er_actual_duration : Duration;
  er_peak_memory_bytes : Z;
  er_error_message : option string
}.

(** [duration_cast<microseconds>] of a nanosecond count truncates toward zero. *)
Definition duration_cast_us (ns : Z) : Duration := Z.quot ns 1000.

(** One loop test: the stop flag, then the clock reading taken if it was false. *)
Record tick := mkTick { tick_stop : bool; tick_now : Z }.

(** The busy loop over the observed ticks: [Some rest] when it leaves the loop, with the
    ticks it did not consume; [None] when the observations end before it does. *)
Fixpoint simulate_compute (start : Z) (target : Duration) (ticks : list tick) : option (list tick) :=
  match ticks with
  | [] => None
  | t :: ticks' =>
      if tick_stop t then Some ticks'
      else if decide (target <= duration_cast_us (tick_now t - start)) then Some ticks'
      else simulate_compute start target ticks'
  end.

(** What one run of [execute] observes. *)
Record run_env := mkEnv {
  env_start : Z;            (** [start] in [execute] *)
  env_loop_start : Z;       (** [start] in [simulate_compute] *)
  env_ticks : list tick;    (** the loop tests *)
  env_end : Z;              (** [end] in [execute] *)
  env_stop1 : bool;         (** the flag read for [final_state] *)
  env_stop2 : bool          (** the flag read for [error_message] *)
}.

(** [execute]: the result and the pool, or nothing while the loop has not ended. *)
Definition execute (task_id : TaskId) (profile : TaskProfile) (p : MemoryPool) (e : run_env)
  : option (ExecutionResult * MemoryPool) :=
  match allocate p (memory_bytes profile) max_align with
  | (None, p') => Some (mkExec task_id Failed 0 0 (Some "Out of memory in pool"%string), p')
  | (Some _, p') =>
      match simulate_compute (env_loop_start e) (compute_cost profile) (env_ticks e) with
      | None => None
      | Some _ =>
          Some (mkExec task_id
                  (if env_stop1 e then Failed else Completed)
                  (duration_cast_us (env_end e - env_start e))
                  (memory_bytes profile)
                  (if env_stop2 e then Some "Cancelled via stop token"%string else None), p')
      end
  end.

(** * Observations a real run can make *)

(** A stop request is never withdrawn: once true, every later answer is true. *)
Fixpoint stops_latched (seen : bool) (flags : list bool) : Prop :=
  match flags with
  | [] => True
  | b :: flags' => (seen = true -> b = true) /\ stops_latched b flags'
  end.

(** The clock is monotone along the run and the flag latched. *)
Record env_ok (e : run_env) : Prop := {
  ok_start : env_start e <= env_loop_start e;
  ok_ticks : Forall (fun t => tick_now t <= env_end e) (env_ticks e);
  ok_stops : stops_latched false (map tick_stop (env_ticks e) ++ [env_stop1 e; env_stop2 e])
}.

(** The tick at which the loop leaves. *)
Definition leaves (start : Z) (target : Duration) (t : tick) : Prop :=
  tick_stop t = true \/ target <= duration_cast_us (tick_now t - start).

#[export] Instance leaves_dec start target t : Decision (leaves start target t).
Proof. unfold leaves. apply _. Defined.

Lemma simulate_compute_returns start target ticks :
  is_Some (simulate_compute start target ticks) <-> Exists (leaves start target) ticks.
Proof.
  induction ticks as [|t ticks IH]; cbn.
  { rewrite Exists_nil. split; [by intros [? ?]|done]. }
  rewrite Exists_cons. unfold leaves at 1.
  destruct (tick_stop t); [split; eauto|]. case_decide; [split; eauto|]. rewrite IH. naive_solver.
Qed.

Lemma stops_latched_false seen flags rest b :
  stops_latched seen (flags ++ b :: rest) -> b = false -> Forall (fun f => f = false) flags.
Proof.
  revert seen. induction flags as [|f flags IH]; intros seen Hl Hb; constructor.
  - destruct Hl as [_ Hl]. destruct f; [|done]. exfalso.
    assert (Hk : forall fl, stops_latched true (fl ++ b :: rest) -> b = true).
    { induction fl as [|g fl IHf]; cbn; intros [H1 H2]; [by apply H1|].
      rewrite (H1 eq_refl) in H2. by apply IHf. }
    rewrite (Hk _ Hl) in Hb. done.
  - destruct Hl as [_ Hl]. by eapply IH.
Qed.

Lemma stops_latched_last seen flags b c :
  stops_latched seen (flags ++ [b; c]) -> b = true -> c = true.
Proof.
  revert seen. induction flags as [|f flags IH]; cbn; [naive_solver|].
  intros seen [_ Hl]. by eapply IH.
Qed.

(** If no test saw a stop, the loop leaves because the target time has passed. *)
Lemma simulate_compute_elapsed start target ticks rest :
  Forall (fun f => f = false) (map tick_stop ticks) ->
  simulate_compute start target ticks = Some rest ->
  Exists (fun t => target <= duration_cast_us (tick_now t - start)) ticks.
Proof.
  induction ticks as [|t ticks IH]; cbn; [done|].
  intros [Ht Hf]%Forall_cons. rewrite Ht. case_decide; intros Hs; [by left|right; by apply IH].
Qed.

Lemma duration_cast_us_mono x y : x <= y -> duration_cast_us x <= duration_cast_us y.
Proof. intros. unfold duration_cast_us. apply Z.quot_le_mono; lia. Qed.

(** * Properties *)

(** [execute] returns as soon as one loop test sees the stop flag or the target time
    passed, and it returns at once when the arena refuses the request; the pool is the one
    [allocate] leaves behind in either case. *)
Theorem execute_returns task_id profile p e :
  Exists (leaves (env_loop_start e) (compute_cost profile)) (env_ticks e) ->
  exists r, execute task_id profile p e = Some (r, (allocate p (memory_bytes profile) max_align).2) /\
    er_task_id r = task_id /\
    ((allocate p (memory_bytes profile) max_align).1 = None ->
       er_final_state r = Failed /\ er_actual_duration r = 0 /\ er_peak_memory_bytes r = 0).
Proof.
  intros Hl. unfold execute.
  destruct (allocate p (memory_bytes profile) max_align) as [[al|] p'] eqn:E; cbn.
  - apply simulate_compute_returns in Hl as [rest ->]. eexists. split; [done|]. by split.
  - eexists. split; [done|]. done.
Qed.

Definition sample_profile : TaskProfile := mkProfile 2 100 0 0.

Lemma execute_returns_witness :
  exists r, execute "t" sample_profile (new_pool 4096) (mkEnv 0 0 [mkTick false 500; mkTick false 2000] 3000 false false)
    = Some (r, mkPool 4096 100) /\ er_final_state r = Completed.
Proof.
  destruct (execute_returns "t" sample_profile (new_pool 4096)
              (mkEnv 0 0 [mkTick false 500; mkTick false 2000] 3000 false false)) as (r & Hr & _ & _).
  { right. left. right. vm_compute. discriminate. }
  exists r. split; [exact Hr|]. vm_compute in Hr. injection Hr as <-. reflexivity.
Defined.

(** A task reported [Completed] really held the processor for its whole compute cost,
    got its memory, and its peak memory is what it asked for: with a monotone clock and a
    stop flag that is never withdrawn, [actual_duration >= compute_cost].  A task reported
    cancelled with an error message other than out-of-memory saw the stop flag. *)
Theorem completed_ran_full_cost task_id profile p e r p' :
  env_ok e -> execute task_id profile p e = Some (r, p') ->
  (er_final_state r = Completed ->
     compute_cost profile <= er_actual_duration r /\ er_peak_memory_bytes r = memory_bytes profile /\
     is_Some (allocate p (memory_bytes profile) max_align).1) /\
  (er_final_state r <> Completed -> is_Some (er_error_message r)).
Proof.
  intros [Hs Ht Hst] Hx. unfold execute in Hx.
  destruct (allocate p (memory_bytes profile) max_align) as [[al|] q] eqn:E; cbn.
  2: { injection Hx as <- <-. split; [done|]. eauto. }
  destruct (simulate_compute _ _ _) as [rest|] eqn:Es; [|done]. injection Hx as <- <-. cbn. split.
  - destruct (env_stop1 e) eqn:E1; [done|]. intros _. split; [|eauto].
    assert (Hf := stops_latched_false _ _ _ _ Hst eq_refl).
    apply simulate_compute_elapsed in Es; [|done].
    apply Exists_exists in Es as (t & Hin & Hle).
    etrans; [exact Hle|]. apply duration_cast_us_mono.
    rewrite Forall_forall in Ht. specialize (Ht _ Hin). cbn in Ht. lia.
  - destruct (env_stop1 e) eqn:E1; [|done]. rewrite (stops_latched_last _ _ _ _ Hst eq_refl). eauto.
Qed.

Lemma completed_ran_full_cost_witness :
  exists r p', execute "t" sample_profile (new_pool 4096)
      (mkEnv 0 0 [mkTick false 500; mkTick false 2000] 3000 false false) = Some (r, p') /\
    er_final_state r = Completed /\ 2 <= er_actual_duration r.
Proof.
  pose (e := mkEnv 0 0 [mkTick false 500; mkTick false 2000] 3000 false false).
  assert (Hok : env_ok e).
  { split; cbn; [lia| |naive_solver]. repeat constructor; cbn; lia. }
  eexists _, _. split; [reflexivity|].
  destruct (completed_ran_full_cost "t" sample_profile (new_pool 4096) e _ _ Hok eq_refl) as [H _].
  split; [reflexivity|]. apply H. reflexivity.
Defined.

(** The stop flag is read twice: a request between the two reads gives a result that is
    [Completed] and carries the cancellation message. *)
Theorem completed_with_cancel_message :
  exists e r p', env_ok e /\ execute "t" sample_profile (new_pool 4096) e = Some (r, p') /\
    er_final_state r = Completed /\ er_error_message r = Some "Cancelled via stop token"%string.
Proof.
  exists (mkEnv 0 0 [mkTick false 2000] 3000 false true). eexists _, _. split; [|by repeat split].
  split; cbn; [lia| |naive_solver]. repeat constructor; cbn; lia.
Qed.
