(* ===== verification/MpmcQueue.v ===== *)
(** [MpmcQueue<T>] of [executor/mpmc_queue.hpp]: Vyukov's bounded multi-producer
    multi-consumer ring.

    Each call of [try_push] or [try_pop] is a small-step machine, [op_next], with one
    step per access to shared memory, and any number of calls interleave.  Positions
    are unbounded natural numbers: they agree with the [size_t] counters, and the
    signed differences with the [intptr_t] ones, for the first 2^63 operations. *)

From Stdlib Require Import ZArith Lia.
From stdpp Require Import base gmap relations numbers list.
From S2P Require Import Prelude.

(** * The ring *)

Record Cell (A : Type) := mkCell { sequence : nat; cvalue : option A }.
Arguments mkCell {A}. Arguments sequence {A}. Arguments cvalue {A}.

Record MpmcQueue (A : Type) := mkQueue {
  qcapacity : nat;
  cells : list (Cell A);
  enqueue_pos : nat;
  dequeue_pos : nat
}.
Arguments mkQueue {A}. Arguments qcapacity {A}. Arguments cells {A}.
Arguments enqueue_pos {A}. Arguments dequeue_pos {A}.

(** [std::bit_ceil] of the capacity, at least 2. *)
Definition bit_ceil (n : nat) : nat := 2 ^ Nat.log2_up n.
Definition ring_capacity (n : nat) : nat := bit_ceil (if decide (n < 2) then 2 else n).

(** A call in progress, by the next access it makes. *)
Inductive op (A : Type) :=
  | PushLoad (v : A)                     (** [enqueue_pos_.load()] *)
  | PushSeq (v : A) (pos : nat)          (** [cell->sequence.load()] *)
  | PushCas (v : A) (pos : nat)          (** [enqueue_pos_.compare_exchange_weak] *)
  | PushWrite (v : A) (pos : nat)        (** [cell->value = value] *)
  | PushPublish (v : A) (pos : nat)      (** [cell->sequence.store(pos + 1)] *)
  | PushRet (ok : bool)
  | PopLoad
  | PopSeq (pos : nat)
  | PopCas (pos : nat)
  | PopTake (pos : nat)                  (** [out = cell->value] *)
  | PopRelease (pos : nat) (out : option A)  (** [cell->sequence.store(pos + capacity_)] *)
  | PopRet (result : option (option A)).  (** [None] is [false]; [Some out] is [true] *)
Arguments PushLoad {A}. Arguments PushSeq {A}. Arguments PushCas {A}. Arguments PushWrite {A}.
Arguments PushPublish {A}. Arguments PushRet {A}. Arguments PopLoad {A}. Arguments PopSeq {A}.
Arguments PopCas {A}. Arguments PopTake {A}. Arguments PopRelease {A}. Arguments PopRet {A}.

Section ring.
Context {A : Type}.
Implicit Types (q : MpmcQueue A) (o : op A).

Definition new_queue (capacity : nat) : MpmcQueue A :=
  let c := ring_capacity capacity in
  mkQueue c (map (fun i => mkCell i None) (seq 0 c)) 0 0.

(** [pos & mask_]. *)
Definition slot q (pos : nat) : nat := Nat.land pos (qcapacity q - 1).

Definition set_enq q (p : nat) : MpmcQueue A := mkQueue (qcapacity q) (cells q) p (dequeue_pos q).
Definition set_deq q (p : nat) : MpmcQueue A := mkQueue (qcapacity q) (cells q) (enqueue_pos q) p.
Definition set_cell q (i : nat) (c : Cell A) : MpmcQueue A :=
  mkQueue (qcapacity q) (<[i := c]> (cells q)) (enqueue_pos q) (dequeue_pos q).

Definition size_approx q : nat :=
  if decide (dequeue_pos q <= enqueue_pos q) then enqueue_pos q - dequeue_pos q else 0.

(** One access of [try_push]; [spurious] lets the weak exchange fail for no reason. *)
Definition push_next (spurious : bool) q o : option (MpmcQueue A * op A) :=
  match o with
  | PushLoad v => Some (q, PushSeq v (enqueue_pos q))
  | PushSeq v pos =>
      c ← cells q !! slot q pos;
      let diff := (Z.of_nat (sequence c) - Z.of_nat pos)%Z in
      if decide (diff = 0)%Z then Some (q, PushCas v pos)
      else if decide (diff < 0)%Z then Some (q, PushRet false)
      else Some (q, PushLoad v)
  | PushCas v pos =>
      if decide (enqueue_pos q = pos /\ spurious = false)
      then Some (set_enq q (pos + 1), PushWrite v pos)
      else Some (q, PushSeq v (enqueue_pos q))
  | PushWrite v pos =>
      c ← cells q !! slot q pos;
      Some (set_cell q (slot q pos) (mkCell (sequence c) (Some v)), PushPublish v pos)
  | PushPublish v pos =>
      c ← cells q !! slot q pos;
      Some (set_cell q (slot q pos) (mkCell (pos + 1) (cvalue c)), PushRet true)
  | _ => None
  end.

(** One access of [try_pop].  The moved-from value left in the cell is never read again,
    so the cell keeps what it had. *)
Definition pop_next (spurious : bool) q o : option (MpmcQueue A * op A) :=
  match o with
  | PopLoad => Some (q, PopSeq (dequeue_pos q))
  | PopSeq pos =>
      c ← cells q !! slot q pos;
      let diff := (Z.of_nat (sequence c) - Z.of_nat (pos + 1))%Z in
      if decide (diff = 0)%Z then Some (q, PopCas pos)
      else if decide (diff < 0)%Z then Some (q, PopRet None)
      else Some (q, PopLoad)
  | PopCas pos =>
      if decide (dequeue_pos q = pos /\ spurious = false)
      then Some (set_deq q (pos + 1), PopTake pos)
      else Some (q, PopSeq (dequeue_pos q))
  | PopTake pos =>
      c ← cells q !! slot q pos;
      Some (q, PopRelease pos (cvalue c))
  | PopRelease pos out =>
      c ← cells q !! slot q pos;
      Some (set_cell q (slot q pos) (mkCell (pos + qcapacity q) (cvalue c)), PopRet (Some out))
  | _ => None
  end.

Definition op_next (spurious : bool) q o : option (MpmcQueue A * op A) :=
  match push_next spurious q o with
  | Some r => Some r
  | None => pop_next spurious q o
  end.

(** Running one call alone, [fuel] accesses at most. *)
Fixpoint run_op (fuel : nat) q o : MpmcQueue A * op A :=
  match fuel with
  | O => (q, o)
  | S fuel' => match op_next false q o with
               | Some (q', o') => run_op fuel' q' o'
               | None => (q, o)
               end
  end.

(** Without contention neither call repeats its loop: five accesses are enough. *)
Definition try_push q (v : A) : MpmcQueue A * op A := run_op 6 q (PushLoad v).
Definition try_pop q : MpmcQueue A * op A := run_op 6 q PopLoad.

(** * Concurrent runs *)

(** The ring, the calls in progress, and the values in the order their positions were
    claimed (a ghost, nothing reads it). *)
Record system := mkSys { queue : MpmcQueue A; ops : gmap nat (op A); log : list A }.

Definition is_call o : Prop :=
  match o with PushLoad _ | PopLoad => True | _ => False end.
Definition is_ret o : Prop :=
  match o with PushRet _ | PopRet _ => True | _ => False end.

(** The value a successful enqueue exchange appends to the log. *)
Definition logged o o' : list A :=
  match o, o' with PushCas v _, PushWrite _ _ => [v] | _, _ => [] end.

Inductive sys_step : system -> system -> Prop :=
  | ss_call s i o :
      ops s !! i = None -> is_call o ->
      sys_step s (mkSys (queue s) (<[i := o]> (ops s)) (log s))
  | ss_op s i o spurious q' o' :
      ops s !! i = Some o -> op_next spurious (queue s) o = Some (q', o') ->
      sys_step s (mkSys q' (<[i := o']> (ops s)) (log s ++ logged o o'))
  | ss_ret s i o :
      ops s !! i = Some o -> is_ret o ->
      sys_step s (mkSys (queue s) (delete i (ops s)) (log s)).

Definition sys_init (capacity : nat) : system := mkSys (new_queue capacity) ∅ [].

(** The values claimed by producers and not yet claimed by a consumer, oldest first. *)
Definition contents (s : system) : list A := drop (dequeue_pos (queue s)) (log s).
End ring.
Arguments system : clear implicits.
