(* ===== verification/MpmcInv.v ===== *)
(** The invariant of the ring of [MpmcQueue.v] under arbitrary interleavings.

    Every cell is, at any moment, in one of four phases of one position [p] of its
    residue class: free for [p], claimed by a producer, full, or claimed by a
    consumer.  [cell_ok] says which, from the sequence number; [op_ok] says what a
    call in progress may rely on; [claims_unique] that no position is claimed twice. *)

From Stdlib Require Import ZArith Lia.
From stdpp Require Import base gmap relations numbers list.
From S2P Require Import Prelude MpmcQueue.

(** * Laps of the ring *)

Section laps.
Context (C : nat) (HC : 2 <= C).

Lemma mod_S_neq p : S p mod C <> p mod C.
Proof.
  intros H. pose proof (Nat.div_mod_eq (S p) C). pose proof (Nat.div_mod_eq p C).
  assert (C * (S p / C) = C * (p / C) + 1) by lia.
  assert (C * (S p / C - p / C) = 1) by (rewrite Nat.mul_sub_distr_l; lia).
  destruct (S p / C - p / C); [lia|]. nia.
Qed.

Lemma mod_lap p : (p + C) mod C = p mod C.
Proof. rewrite <- (Nat.mul_1_l C) at 1. apply Nat.Div0.mod_add. Qed.

Lemma lap_gap p q : p mod C = q mod C -> p < q -> p + C <= q.
Proof.
  intros H Hlt. pose proof (Nat.div_mod_eq p C). pose proof (Nat.div_mod_eq q C).
  assert (C * (p / C) < C * (q / C)) by lia. assert (p / C < q / C) by nia. nia.
Qed.
End laps.

Lemma land_mask k p : Nat.land p (2 ^ k - 1) = p mod 2 ^ k.
Proof. rewrite <- Nat.land_ones, Nat.ones_equiv. f_equal. lia. Qed.

Lemma log2_up_ge_1 n : 2 <= n -> 1 <= Nat.log2_up n.
Proof. intros H. apply Nat.log2_up_le_mono in H. exact H. Qed.

Lemma ring_capacity_spec n :
  exists k, ring_capacity n = 2 ^ k /\ 2 <= ring_capacity n /\ n <= ring_capacity n.
Proof.
  unfold ring_capacity, bit_ceil. eexists. split; [done|].
  assert (Hk : forall m, 2 <= m -> 2 <= 2 ^ Nat.log2_up m /\ m <= 2 ^ Nat.log2_up m).
  { intros m Hm. pose proof (log2_up_ge_1 m Hm). split.
    - change 2 with (2 ^ 1) at 1. apply Nat.pow_le_mono_r; lia.
    - apply Nat.log2_up_spec. lia. }
  case_decide; [|apply Hk; lia]. destruct (Hk 2); lia.
Qed.

(** * The invariant *)

Section inv.
Context {A : Type} (C : nat).
Implicit Types (q : MpmcQueue A) (o : op A) (s : system A).

(** The position a producer or a consumer holds between its exchange and its store. *)
Definition wclaim o : option nat :=
  match o with PushWrite _ p | PushPublish _ p => Some p | _ => None end.
Definition rclaim o : option nat :=
  match o with PopTake p | PopRelease p _ => Some p | _ => None end.

Definition writer (m : gmap nat (op A)) p : Prop := exists i o, m !! i = Some o /\ wclaim o = Some p.
Definition reader (m : gmap nat (op A)) p : Prop := exists i o, m !! i = Some o /\ rclaim o = Some p.

(** The phase of a cell in the lap of position [p]. *)
Inductive phase_ok (s : system A) (c : Cell A) (p : nat) : Prop :=
  | ph_free : sequence c = p -> enqueue_pos (queue s) <= p -> phase_ok s c p
  | ph_claimed : sequence c = p -> dequeue_pos (queue s) <= p -> p < enqueue_pos (queue s) ->
      writer (ops s) p -> phase_ok s c p
  | ph_full : sequence c = S p -> dequeue_pos (queue s) <= p -> p < enqueue_pos (queue s) ->
      cvalue c = log s !! p -> phase_ok s c p
  | ph_taken : sequence c = S p -> p < dequeue_pos (queue s) -> p < enqueue_pos (queue s) ->
      cvalue c = log s !! p -> reader (ops s) p -> phase_ok s c p.

(** The cell is at most a lap ahead of the consumers, and has reached the lap of every
    claimed position that maps to it. *)
Definition cell_ok s (i : nat) (c : Cell A) : Prop :=
  exists p, p mod C = i /\ phase_ok s c p /\ p < dequeue_pos (queue s) + C /\
    (forall p', p' < enqueue_pos (queue s) -> p' mod C = i -> p' <= p).

Definition seq_at q (p : nat) : option nat := sequence <$> cells q !! (p mod C).
Definition val_at q (p : nat) : option (option A) := cvalue <$> cells q !! (p mod C).

Definition op_ok s o : Prop :=
  let q := queue s in
  match o with
  | PushSeq _ p => p <= enqueue_pos q
  | PushCas _ p => p <= enqueue_pos q /\ (p = enqueue_pos q -> seq_at q p = Some p)
  | PushWrite v p => dequeue_pos q <= p < enqueue_pos q /\ seq_at q p = Some p /\ log s !! p = Some v
  | PushPublish v p => dequeue_pos q <= p < enqueue_pos q /\ seq_at q p = Some p /\ log s !! p = Some v /\
      val_at q p = Some (Some v)
  | PopSeq p => p <= dequeue_pos q
  | PopCas p => p <= dequeue_pos q /\ (p = dequeue_pos q -> seq_at q p = Some (S p))
  | PopTake p => p < dequeue_pos q /\ seq_at q p = Some (S p)
  | PopRelease p out => p < dequeue_pos q /\ seq_at q p = Some (S p) /\ out = log s !! p
  | PopRet (Some out) => is_Some out
  | _ => True
  end.

Definition claims_unique (m : gmap nat (op A)) : Prop :=
  forall i j o o' p, m !! i = Some o -> m !! j = Some o' ->
    (wclaim o = Some p /\ wclaim o' = Some p) \/ (rclaim o = Some p /\ rclaim o' = Some p) -> i = j.

Record ring_inv s : Prop := {
  inv_cap : qcapacity (queue s) = C;
  inv_len : length (cells (queue s)) = C;
  inv_log : length (log s) = enqueue_pos (queue s);
  inv_le : dequeue_pos (queue s) <= enqueue_pos (queue s);
  inv_cells : forall i c, cells (queue s) !! i = Some c -> cell_ok s i c;
  inv_ops : map_Forall (fun _ o => op_ok s o) (ops s);
  inv_unique : claims_unique (ops s)
}.
End inv.

(** * Consequences of the invariant *)

Section facts.
Context {A : Type} (C : nat) (HC : 2 <= C).
Implicit Types (q : MpmcQueue A) (o : op A) (s : system A).

Lemma slot_mod s p k : C = 2 ^ k -> ring_inv C s -> slot (queue s) p = p mod C.
Proof. intros Hk Hi. unfold slot. rewrite (inv_cap _ _ Hi), Hk. apply land_mask. Qed.

Lemma cell_exists s p : ring_inv C s -> exists c, cells (queue s) !! (p mod C) = Some c.
Proof.
  intros Hi. apply lookup_lt_is_Some_2. rewrite (inv_len _ _ Hi). apply Nat.mod_upper_bound. lia.
Qed.

Lemma seq_at_Some s p n :
  seq_at C (queue s) p = Some n <-> exists c, cells (queue s) !! (p mod C) = Some c /\ sequence c = n.
Proof. unfold seq_at. rewrite fmap_Some. naive_solver. Qed.

(** A cell whose sequence number is a position of its class is in that position's lap. *)
Lemma phase_free s p : ring_inv C s -> seq_at C (queue s) p = Some p ->
  (enqueue_pos (queue s) <= p /\ p < dequeue_pos (queue s) + C) \/
  (dequeue_pos (queue s) <= p < enqueue_pos (queue s) /\ writer (ops s) p).
Proof.
  intros Hi (c & Hc & Hs)%seq_at_Some. destruct (inv_cells _ _ Hi _ _ Hc) as (p' & Hp & Hph & Hb & _).
  destruct Hph as [E|E|E|E]; rewrite Hs in E; try (subst p'; eauto; fail).
  all: exfalso; rewrite E in Hp; by apply (mod_S_neq C HC p').
Qed.

Lemma phase_full s p c : ring_inv C s -> cells (queue s) !! (p mod C) = Some c -> sequence c = S p ->
  p < enqueue_pos (queue s) /\ cvalue c = log s !! p /\ (p < dequeue_pos (queue s) -> reader (ops s) p).
Proof.
  intros Hi Hc Hs. destruct (inv_cells _ _ Hi _ _ Hc) as (p' & Hp & Hph & Hb & _).
  destruct Hph as [E ?|E ?|E ?|E ?]; rewrite Hs in E.
  - exfalso. subst p'. by apply (mod_S_neq C HC p).
  - exfalso. subst p'. by apply (mod_S_neq C HC p).
  - injection E as <-. split_and!; [done..|lia].
  - injection E as <-. done.
Qed.

(** The reach of the laps: a claimed position is at most a lap ahead of its cell. *)
Lemma lap_reached s p c : ring_inv C s -> cells (queue s) !! (p mod C) = Some c ->
  p < enqueue_pos (queue s) -> p <= sequence c.
Proof.
  intros Hi Hc Hp. destruct (inv_cells _ _ Hi _ _ Hc) as (p' & _ & Hph & _ & Hlap).
  specialize (Hlap p Hp eq_refl). destruct Hph; lia.
Qed.

(** At most [C] values are in the queue. *)
Lemma contents_bounded s : ring_inv C s -> enqueue_pos (queue s) <= dequeue_pos (queue s) + C.
Proof.
  intros Hi. destruct (decide (enqueue_pos (queue s) <= dequeue_pos (queue s) + C)) as [|Hn]; [done|].
  exfalso. set (d := dequeue_pos (queue s)) in *.
  destruct (cell_exists s d Hi) as [c Hc].
  destruct (inv_cells _ _ Hi _ _ Hc) as (p & Hp & Hph & Hb & Hlap).
  enough (d + C <= p) by lia. apply Hlap; [lia|]. by apply mod_lap.
Qed.

(** A cell is in one lap only. *)
Lemma lap_unique s c p p' i : phase_ok s c p' -> p' mod C = i -> p mod C = i ->
  (sequence c = p -> p' = p) /\ (sequence c = S p -> p' = p).
Proof.
  intros Hph Hp' Hp. split; intros Hs; destruct Hph as [E|E|E|E]; rewrite Hs in E; try congruence.
  - exfalso. apply (mod_S_neq C HC p'). by rewrite <- E, Hp, Hp'.
  - exfalso. apply (mod_S_neq C HC p'). by rewrite <- E, Hp, Hp'.
  - exfalso. apply (mod_S_neq C HC p). by rewrite E, Hp, Hp'.
  - exfalso. apply (mod_S_neq C HC p). by rewrite E, Hp, Hp'.
Qed.

(** * Framing *)

Lemma writer_insert (m : gmap nat (op A)) i o o' p :
  m !! i = Some o -> (forall x, wclaim o = Some x -> wclaim o' = Some x) -> writer m p -> writer (<[i := o']> m) p.
Proof.
  intros Hi Hc (j & w & Hj & Hw). destruct (decide (i = j)) as [<-|Hn].
  - exists i, o'. rewrite lookup_insert_eq. split; [done|]. apply Hc. congruence.
  - exists j, w. by rewrite lookup_insert_ne.
Qed.

Lemma reader_insert (m : gmap nat (op A)) i o o' p :
  m !! i = Some o -> (forall x, rclaim o = Some x -> rclaim o' = Some x) -> reader m p -> reader (<[i := o']> m) p.
Proof.
  intros Hi Hc (j & w & Hj & Hw). destruct (decide (i = j)) as [<-|Hn].
  - exists i, o'. rewrite lookup_insert_eq. split; [done|]. apply Hc. congruence.
  - exists j, w. by rewrite lookup_insert_ne.
Qed.

(** A call that drops its claim on [p0] leaves every other claim in place. *)
Lemma writer_insert_ne (m : gmap nat (op A)) i o o' p p0 :
  m !! i = Some o -> wclaim o = Some p0 -> p <> p0 -> writer m p -> writer (<[i := o']> m) p.
Proof.
  intros Hi Hc Hn (j & w & Hj & Hw). destruct (decide (i = j)) as [<-|Hij]; [congruence|].
  exists j, w. by rewrite lookup_insert_ne.
Qed.

Lemma reader_insert_ne (m : gmap nat (op A)) i o o' p p0 :
  m !! i = Some o -> rclaim o = Some p0 -> p <> p0 -> reader m p -> reader (<[i := o']> m) p.
Proof.
  intros Hi Hc Hn (j & w & Hj & Hw). destruct (decide (i = j)) as [<-|Hij]; [congruence|].
  exists j, w. by rewrite lookup_insert_ne.
Qed.

(** Claims stay unique when a call keeps or drops its claims. *)
Lemma claims_unique_insert (m : gmap nat (op A)) i o o' :
  claims_unique m -> m !! i = Some o ->
  (wclaim o' = wclaim o \/ wclaim o' = None) -> (rclaim o' = rclaim o \/ rclaim o' = None) ->
  claims_unique (<[i := o']> m).
Proof.
  intros Hu Hi Hw Hr j j' x x' p Hj Hj' Hc.
  apply lookup_insert_Some in Hj as [[<- <-]|[H1 Hj]]; apply lookup_insert_Some in Hj' as [[<- <-]|[H2 Hj']];
    [done|..].
  - eapply Hu; [exact Hi|exact Hj'|]. destruct Hc as [[]|[]]; [left|right]; split; try done; destruct Hw, Hr; congruence.
  - eapply Hu; [exact Hj|exact Hi|]. destruct Hc as [[]|[]]; [left|right]; split; try done; destruct Hw, Hr; congruence.
  - by eapply Hu.
Qed.

(** A new claim is unique when nobody holds its position. *)
Lemma claims_unique_new (m : gmap nat (op A)) i o' :
  claims_unique m ->
  (forall j o p, j <> i -> m !! j = Some o -> wclaim o' = Some p -> wclaim o <> Some p) ->
  (forall j o p, j <> i -> m !! j = Some o -> rclaim o' = Some p -> rclaim o <> Some p) ->
  claims_unique (<[i := o']> m).
Proof.
  intros Hu Hw Hr j j' x x' p Hj Hj' Hc.
  apply lookup_insert_Some in Hj as [[<- <-]|[H1 Hj]]; apply lookup_insert_Some in Hj' as [[<- <-]|[H2 Hj']];
    [done|..].
  - exfalso. destruct Hc as [[]|[]]; [eapply Hw|eapply Hr]; eauto.
  - exfalso. destruct Hc as [[]|[]]; [eapply Hw|eapply Hr]; eauto.
  - by eapply Hu.
Qed.

(** Only the calls change. *)
Lemma inv_change_ops s m' :
  ring_inv C s ->
  (forall p, writer (ops s) p -> writer m' p) -> (forall p, reader (ops s) p -> reader m' p) ->
  map_Forall (fun _ o => op_ok C s o) m' -> claims_unique m' ->
  ring_inv C (mkSys (queue s) m' (log s)).
Proof.
  intros Hi Hw Hr Ho Hu. split; try apply Hi; cbn; [|exact Ho|done].
  intros i c Hc. destruct (inv_cells _ _ Hi _ _ Hc) as (p & Hp & Hph & Hb & Hlap).
  exists p. split_and!; try done. destruct Hph; [eapply ph_free|eapply ph_claimed|eapply ph_full|eapply ph_taken]; eauto.
Qed.

Lemma inv_local s i o o' :
  ring_inv C s -> ops s !! i = Some o ->
  wclaim o' = wclaim o -> rclaim o' = rclaim o -> op_ok C s o' ->
  ring_inv C (mkSys (queue s) (<[i := o']> (ops s)) (log s)).
Proof.
  intros Hi Ho Hw Hr Hok. apply inv_change_ops; [done|..].
  - intros p. eapply writer_insert; [done|congruence].
  - intros p. eapply reader_insert; [done|congruence].
  - apply map_Forall_insert_2; [done|apply Hi].
  - eapply claims_unique_insert; eauto. apply Hi.
Qed.

(** Counters and log grow; cells stay. *)
Lemma op_ok_counters s q' m' l o :
  ring_inv C s -> cells q' = cells (queue s) ->
  enqueue_pos (queue s) <= enqueue_pos q' -> dequeue_pos (queue s) <= dequeue_pos q' ->
  (forall p, wclaim o = Some p -> dequeue_pos q' <= p) ->
  op_ok C s o -> op_ok C (mkSys q' m' (log s ++ l)) o.
Proof.
  intros Hi Hcell He Hd Hw. pose proof (inv_log _ _ Hi). pose proof (inv_le _ _ Hi).
  destruct o; cbn; unfold seq_at, val_at; rewrite ?Hcell; try done; try lia.
  - intros [? Hs]. split; [lia|]. intros ->. apply Hs. lia.
  - intros (?&?&?). specialize (Hw _ eq_refl). split_and!; try done; try lia. by apply lookup_app_l_Some.
  - intros (?&?&?&?). specialize (Hw _ eq_refl). split_and!; try done; try lia. by apply lookup_app_l_Some.
  - intros [? Hs]. split; [lia|]. intros ->. apply Hs. lia.
  - intros [??]. split; [lia|done].
  - intros (?&?&->). split_and!; try done; try lia. rewrite lookup_app_l; [done|lia].
Qed.

(** The position whose sequence number a call relies on. *)
Definition watches s o : option nat :=
  match o with
  | PushCas _ p => if decide (p = enqueue_pos (queue s)) then Some p else None
  | PopCas p => if decide (p = dequeue_pos (queue s)) then Some p else None
  | PushWrite _ p | PushPublish _ p | PopTake p | PopRelease p _ => Some p
  | _ => None
  end.

Lemma seq_at_insert_ne q j c' p : p mod C <> j ->
  cells (set_cell q j c') !! (p mod C) = cells q !! (p mod C).
Proof. intros Hn. cbn. by apply list_lookup_insert_ne. Qed.

(** One cell changes; counters and log stay. *)
Lemma op_ok_cell s j c c' m' o :
  cells (queue s) !! j = Some c ->
  (forall p, watches s o = Some p -> p mod C = j ->
     sequence c' = sequence c /\ (wclaim o = Some p -> cvalue c' = cvalue c)) ->
  op_ok C s o -> op_ok C (mkSys (set_cell (queue s) j c') m' (log s)) o.
Proof.
  intros Hc Hw. 
  assert (Hseq : forall p n, (p mod C = j -> sequence c' = sequence c) ->
            seq_at C (queue s) p = Some n -> seq_at C (set_cell (queue s) j c') p = Some n).
  { intros p n Hs. unfold seq_at. destruct (decide (p mod C = j)) as [E|E].
    - rewrite E. cbn. rewrite list_lookup_insert_eq by (by eapply lookup_lt_Some).
      rewrite Hc. cbn. by rewrite Hs.
    - by rewrite seq_at_insert_ne. }
  assert (Hval : forall p n, (p mod C = j -> cvalue c' = cvalue c) ->
            val_at C (queue s) p = Some n -> val_at C (set_cell (queue s) j c') p = Some n).
  { intros p n Hs. unfold val_at. destruct (decide (p mod C = j)) as [E|E].
    - rewrite E. cbn. rewrite list_lookup_insert_eq by (by eapply lookup_lt_Some).
      rewrite Hc. cbn. by rewrite Hs.
    - by rewrite seq_at_insert_ne. }
  destruct o; cbn in *; try done.
  - intros [? Hs]. split; [done|]. intros E. rewrite decide_True in Hw by done.
    apply Hseq; [apply Hw; done|auto].
  - intros (?&?&?). split_and!; try done; try lia. apply Hseq; [apply Hw; done|auto].
  - intros (?&?&?&?). split_and!; try done; try lia; [apply Hseq|apply Hval]; auto; intros; by eapply Hw.
  - intros [? Hs]. split; [done|]. intros E. rewrite decide_True in Hw by done.
    apply Hseq; [apply Hw; done|auto].
  - intros (?&?). split; [done|]. apply Hseq; [apply Hw; done|auto].
  - intros (?&?&?). split_and!; try done. apply Hseq; [apply Hw; done|auto].
Qed.

(** * The shared accesses preserve the invariant *)

Lemma claim_bound s j o p : ring_inv C s -> ops s !! j = Some o ->
  (wclaim o = Some p -> dequeue_pos (queue s) <= p < enqueue_pos (queue s) /\ seq_at C (queue s) p = Some p) /\
  (rclaim o = Some p -> p < dequeue_pos (queue s) /\ seq_at C (queue s) p = Some (S p)).
Proof.
  intros Hi Hj. pose proof (inv_ops _ _ Hi _ _ Hj) as Hok. cbn in Hok.
  destruct o; cbn in *; split; intros [= ->]; tauto.
Qed.

Lemma inv_push_claim s i v p :
  ring_inv C s -> ops s !! i = Some (PushCas v p) -> enqueue_pos (queue s) = p ->
  ring_inv C (mkSys (set_enq (queue s) (p + 1)) (<[i := PushWrite v p]> (ops s)) (log s ++ [v])).
Proof.
  intros Hi Ho He. pose proof (inv_log _ _ Hi) as Hlog. pose proof (inv_le _ _ Hi) as Hle.
  destruct (inv_ops _ _ Hi _ _ Ho) as [_ Hseq]. specialize (Hseq (eq_sym He)).
  split; cbn; try apply Hi.
  - rewrite length_app. cbn. lia.
  - lia.
  - intros j c Hc. destruct (inv_cells _ _ Hi _ _ Hc) as (p' & Hp & Hph & Hb & Hlap).
    assert (Hmine : j = p mod C -> p' = p).
    { intros ->. apply seq_at_Some in Hseq as (c0 & Hc0 & Hs).
      assert (c0 = c) as -> by congruence. by apply (proj1 (lap_unique s c p p' _ Hph Hp eq_refl)). }
    exists p'. split_and!; [done| |done|].
    + destruct Hph as [E Hf|E Hd He' W|E Hd He' V|E Hd He' V R].
      * destruct (decide (p' = p)) as [->|Hn]; [|apply ph_free; cbn; lia].
        apply ph_claimed; cbn; [done|lia|lia|]. exists i, (PushWrite v p). by rewrite lookup_insert_eq.
      * apply ph_claimed; cbn; [done|lia|lia|]. by eapply writer_insert.
      * apply ph_full; cbn; [done|lia|lia|]. rewrite lookup_app_l; [done|lia].
      * apply ph_taken; cbn; [done|lia|lia| |by eapply reader_insert]. rewrite lookup_app_l; [done|lia].
    + cbn. intros x Hx Hxj. destruct (decide (x = p)) as [->|Hn].
      * rewrite Hmine by done. lia.
      * apply Hlap; [lia|done].
  - apply map_Forall_insert_2.
    + cbn. split_and!; [lia|lia|exact Hseq|]. by rewrite <- He, <- Hlog, list_lookup_middle.
    + intros j o Hj. apply op_ok_counters; cbn; try done; [lia| |by apply (inv_ops _ _ Hi j)].
      intros x Hx. apply (claim_bound _ _ _ _ Hi Hj) in Hx. lia.
  - apply claims_unique_new; [apply Hi| |done].
    intros j o x Hn Hj [= <-] Hx. apply (claim_bound _ _ _ _ Hi Hj) in Hx. lia.
Qed.

Lemma inv_pop_claim s i p :
  ring_inv C s -> ops s !! i = Some (PopCas p) -> dequeue_pos (queue s) = p ->
  ring_inv C (mkSys (set_deq (queue s) (p + 1)) (<[i := PopTake p]> (ops s)) (log s)).
Proof.
  intros Hi Ho He. destruct (inv_ops _ _ Hi _ _ Ho) as [_ Hseq]. specialize (Hseq (eq_sym He)).
  pose proof Hseq as (c0 & Hc0 & Hs)%seq_at_Some.
  destruct (phase_full _ _ _ Hi Hc0 Hs) as (Hpe & Hv & _).
  assert (Hnw : forall j o, ops s !! j = Some o -> wclaim o <> Some p).
  { intros j o Hj Hx. apply (claim_bound _ _ _ _ Hi Hj) in Hx as [_ Hx]. rewrite Hseq in Hx.
    injection Hx. lia. }
  split; cbn; try apply Hi; [lia|..].
  - intros j c Hc. destruct (inv_cells _ _ Hi _ _ Hc) as (p' & Hp & Hph & Hb & Hlap).
    exists p'. split_and!; [done| |cbn; lia|exact Hlap].
    destruct Hph as [E Hf|E Hd He' W|E Hd He' V|E Hd He' V R].
    + apply ph_free; cbn; [done|lia].
    + apply ph_claimed; cbn; [done| |lia|by eapply writer_insert].
      destruct W as (k & o & Hk & Hw). specialize (Hnw _ _ Hk). assert (p' <> p) by congruence. lia.
    + destruct (decide (p' = p)) as [->|Hn]; [|apply ph_full; cbn; [done|lia|lia|done]].
      apply ph_taken; cbn; [done|lia|lia|done|]. exists i, (PopTake p). by rewrite lookup_insert_eq.
    + apply ph_taken; cbn; [done|lia|lia|done|by eapply reader_insert].
  - apply map_Forall_insert_2; [cbn; split; [lia|exact Hseq]|].
    intros j o Hj. rewrite <- (app_nil_r (log s)).
    apply op_ok_counters; cbn; try done; [lia| |by apply (inv_ops _ _ Hi j)].
    intros x Hx. pose proof (Hnw _ _ Hj). pose proof Hx as Hx'.
    apply (claim_bound _ _ _ _ Hi Hj) in Hx. assert (x <> p) by congruence. lia.
  - apply claims_unique_new; [apply Hi|done|].
    intros j o x Hn Hj [= <-] Hx. apply (claim_bound _ _ _ _ Hi Hj) in Hx. lia.
Qed.

(** What a call watches is the state of its cell. *)
Lemma watch_seq s j o p : ring_inv C s -> ops s !! j = Some o -> watches s o = Some p ->
  (seq_at C (queue s) p = Some p /\ (wclaim o = Some p \/ p = enqueue_pos (queue s))) \/
  (seq_at C (queue s) p = Some (S p) /\ (rclaim o = Some p \/ p = dequeue_pos (queue s))).
Proof.
  intros Hi Hj. pose proof (inv_ops _ _ Hi _ _ Hj) as Hok. cbn in Hok.
  destruct o; cbn in *; try done; try case_decide; intros [= <-]; naive_solver.
Qed.

(** A call [i] holding position [p] changes its own cell and moves on to [o']. *)
Lemma inv_set_cell s i o o' p c c' :
  ring_inv C s -> ops s !! i = Some o ->
  wclaim o = Some p \/ rclaim o = Some p ->
  (wclaim o' = wclaim o \/ wclaim o' = None) -> (rclaim o' = rclaim o \/ rclaim o' = None) ->
  cells (queue s) !! (p mod C) = Some c ->
  let s' := mkSys (set_cell (queue s) (p mod C) c') (<[i := o']> (ops s)) (log s) in
  cell_ok C s' (p mod C) c' -> op_ok C s' o' ->
  (forall j w x, j <> i -> ops s !! j = Some w -> watches s w = Some x -> x mod C = p mod C ->
     sequence c' = sequence c /\ (wclaim w = Some x -> cvalue c' = cvalue c)) ->
  ring_inv C s'.
Proof.
  intros Hi Ho Hcl Hw Hr Hc s' Hcell Hok Hwatch.
  assert (Hown : (forall x, wclaim o = Some x -> x = p) /\ (forall x, rclaim o = Some x -> x = p)).
  { destruct o; cbn in *; naive_solver. }
  split; cbn; try apply Hi.
  - rewrite length_insert. apply Hi.
  - intros j d Hd. destruct (decide (p mod C = j)) as [<-|Hn].
    { rewrite list_lookup_insert_eq in Hd by (by eapply lookup_lt_Some). by injection Hd as <-. }
    rewrite list_lookup_insert_ne in Hd by done.
    destruct (inv_cells _ _ Hi _ _ Hd) as (p' & Hp & Hph & Hb & Hlap).
    exists p'. split_and!; try done. assert (p' <> p) by congruence.
    destruct Hph as [E|E ? ? (k & w & Hk & Hkw)|E|E ? ? ? (k & w & Hk & Hkw)];
      [by apply ph_free|apply ph_claimed|by apply ph_full|apply ph_taken]; try done;
      exists k, w; (split; [|done]); cbn; rewrite lookup_insert_ne; [done| |done|]; intros <-; naive_solver.
  - intros j w [[<- <-]|[Hn Hj]]%lookup_insert_Some; [done|].
    eapply op_ok_cell; [exact Hc|intros x; by apply (Hwatch j)|by apply (inv_ops _ _ Hi j)].
  - eapply claims_unique_insert; eauto. apply Hi.
Qed.

Lemma seq_at_mod q x p : x mod C = p mod C -> seq_at C q x = seq_at C q p.
Proof. intros E. unfold seq_at. by rewrite E. Qed.

(** Nobody else relies on the cell of a claimed position. *)
Lemma watch_writer s i j o w p x :
  ring_inv C s -> ops s !! i = Some o -> wclaim o = Some p -> j <> i ->
  ops s !! j = Some w -> watches s w = Some x -> x mod C <> p mod C.
Proof.
  intros Hi Ho Hp Hn Hj Hx E. pose proof (proj1 (claim_bound _ _ _ _ Hi Ho) Hp) as [Hb Hs].
  destruct (watch_seq _ _ _ _ Hi Hj Hx) as [[Hsx Hc]|[Hsx _]];
    rewrite (seq_at_mod _ _ _ E), Hs in Hsx; injection Hsx as ->.
  - destruct Hc as [Hc| ->]; [|lia]. apply Hn. eapply (inv_unique _ _ Hi); eauto.
  - symmetry in E. by apply (mod_S_neq C HC x).
Qed.

Lemma watch_reader s i j o w p x :
  ring_inv C s -> ops s !! i = Some o -> rclaim o = Some p -> j <> i ->
  ops s !! j = Some w -> watches s w = Some x -> x mod C <> p mod C.
Proof.
  intros Hi Ho Hp Hn Hj Hx E. pose proof (proj2 (claim_bound _ _ _ _ Hi Ho) Hp) as [Hb Hs].
  destruct (watch_seq _ _ _ _ Hi Hj Hx) as [[Hsx _]|[Hsx Hc]];
    rewrite (seq_at_mod _ _ _ E), Hs in Hsx; injection Hsx as <-.
  - by apply (mod_S_neq C HC p).
  - destruct Hc as [Hc| ->]; [|lia]. apply Hn. eapply (inv_unique _ _ Hi); eauto.
Qed.

Lemma inv_push_write s i v p c :
  ring_inv C s -> ops s !! i = Some (PushWrite v p) -> cells (queue s) !! (p mod C) = Some c ->
  ring_inv C (mkSys (set_cell (queue s) (p mod C) (mkCell (sequence c) (Some v)))
                    (<[i := PushPublish v p]> (ops s)) (log s)).
Proof.
  intros Hi Ho Hc. destruct (inv_ops _ _ Hi _ _ Ho) as (Hb & Hs & Hl).
  pose proof Hs as (c0 & Hc0 & Hsc)%seq_at_Some. assert (c0 = c) as -> by congruence.
  eapply (inv_set_cell _ _ (PushWrite v p)); eauto; cbn; eauto.
  - destruct (inv_cells _ _ Hi _ _ Hc) as (p' & Hp & Hph & Hb' & Hlap).
    pose proof (proj1 (lap_unique s c p p' _ Hph Hp eq_refl) Hsc) as ->.
    exists p. split_and!; try done. apply ph_claimed; cbn; [done|lia|lia|].
    exists i, (PushPublish v p). by rewrite lookup_insert_eq.
  - unfold seq_at, val_at. cbn. rewrite list_lookup_insert_eq by (by eapply lookup_lt_Some).
    split_and!; try done; try lia. cbn. by rewrite Hsc.
  - intros j w x Hn Hj Hw Hx. by apply (watch_writer _ _ _ _ _ p _ Hi Ho eq_refl Hn Hj) in Hw.
Qed.

Lemma inv_push_publish s i v p c :
  ring_inv C s -> ops s !! i = Some (PushPublish v p) -> cells (queue s) !! (p mod C) = Some c ->
  ring_inv C (mkSys (set_cell (queue s) (p mod C) (mkCell (p + 1) (cvalue c)))
                    (<[i := PushRet true]> (ops s)) (log s)).
Proof.
  intros Hi Ho Hc. destruct (inv_ops _ _ Hi _ _ Ho) as (Hb & Hs & Hl & Hv).
  pose proof Hs as (c0 & Hc0 & Hsc)%seq_at_Some. assert (c0 = c) as -> by congruence.
  unfold val_at in Hv. rewrite Hc in Hv. injection Hv as Hv.
  eapply (inv_set_cell _ _ (PushPublish v p)); eauto; cbn; eauto.
  - destruct (inv_cells _ _ Hi _ _ Hc) as (p' & Hp & Hph & Hb' & Hlap).
    pose proof (proj1 (lap_unique s c p p' _ Hph Hp eq_refl) Hsc) as ->.
    exists p. split_and!; try done. apply ph_full; cbn; [lia|lia|lia|]. congruence.
  - intros j w x Hn Hj Hw Hx. by apply (watch_writer _ _ _ _ _ p _ Hi Ho eq_refl Hn Hj) in Hw.
Qed.

Lemma inv_pop_release s i p out c :
  ring_inv C s -> ops s !! i = Some (PopRelease p out) -> cells (queue s) !! (p mod C) = Some c ->
  ring_inv C (mkSys (set_cell (queue s) (p mod C) (mkCell (p + C) (cvalue c)))
                    (<[i := PopRet (Some out)]> (ops s)) (log s)).
Proof.
  intros Hi Ho Hc. destruct (inv_ops _ _ Hi _ _ Ho) as (Hb & Hs & Hl).
  pose proof Hs as (c0 & Hc0 & Hsc)%seq_at_Some. assert (c0 = c) as -> by congruence.
  pose proof (inv_le _ _ Hi). pose proof (inv_log _ _ Hi).
  eapply (inv_set_cell _ _ (PopRelease p out)); eauto; cbn; eauto.
  - destruct (inv_cells _ _ Hi _ _ Hc) as (p' & Hp & Hph & Hb' & Hlap).
    pose proof (proj2 (lap_unique s c p p' _ Hph Hp eq_refl) Hsc) as ->.
    exists (p + C). split_and!; cbn; [by apply mod_lap| |lia|].
    + apply ph_free; cbn; [done|]. destruct (decide (enqueue_pos (queue s) <= p + C)); [done|].
      enough (p + C <= p) by lia. apply Hlap; [lia|by apply mod_lap].
    + intros x Hx Hxm. specialize (Hlap x Hx Hxm). lia.
  - rewrite Hl. apply lookup_lt_is_Some_2. lia.
  - intros j w x Hn Hj Hw Hx. by apply (watch_reader _ _ _ _ _ p _ Hi Ho eq_refl Hn Hj) in Hw.
Qed.
End facts.
