(* ===== verification/MpmcTheorems.v ===== *)
(** What the ring of [MpmcQueue.v] promises: every interleaving refines a bounded FIFO
    queue whose operations take effect at the successful exchange; the negative
    answers of [try_push] and [try_pop] are exact up to calls in flight; a call that
    runs alone is an exact bounded-queue operation. *)

From Stdlib Require Import ZArith Lia.
From stdpp Require Import base gmap relations numbers list.
From S2P Require Import Prelude MpmcQueue MpmcInv.

(** * Specification: a bounded FIFO with possibly failing calls *)

Inductive aop (A : Type) :=
  | APush (v : A)
  | APushed (ok : bool)
  | APop
  | APopped (result : option A).
Arguments APush {A}. Arguments APushed {A}. Arguments APop {A}. Arguments APopped {A}.

Record fifo (A : Type) := mkFifo { items : list A; calls : gmap nat (aop A) }.
Arguments mkFifo {A}. Arguments items {A}. Arguments calls {A}.

Section spec.
Context {A : Type} (C : nat).

Inductive fifo_step : fifo A -> fifo A -> Prop :=
  | fs_call f i a : calls f !! i = None -> a = APop \/ (exists v, a = APush v) ->
      fifo_step f (mkFifo (items f) (<[i := a]> (calls f)))
  | fs_push f i v : calls f !! i = Some (APush v) -> length (items f) < C ->
      fifo_step f (mkFifo (items f ++ [v]) (<[i := APushed true]> (calls f)))
  | fs_push_fail f i v : calls f !! i = Some (APush v) ->
      fifo_step f (mkFifo (items f) (<[i := APushed false]> (calls f)))
  | fs_pop f i v vs : calls f !! i = Some APop -> items f = v :: vs ->
      fifo_step f (mkFifo vs (<[i := APopped (Some v)]> (calls f)))
  | fs_pop_fail f i : calls f !! i = Some APop ->
      fifo_step f (mkFifo (items f) (<[i := APopped None]> (calls f)))
  | fs_ret f i a : calls f !! i = Some a -> (exists b, a = APushed b) \/ (exists r, a = APopped r) ->
      fifo_step f (mkFifo (items f) (delete i (calls f))).

(** What the specification sees of a call; the value a consumer will return is fixed
    when it claims its position. *)
Definition abs_op (lg : list A) (o : op A) : aop A :=
  match o with
  | PushLoad v | PushSeq v _ | PushCas v _ => APush v
  | PushWrite _ _ | PushPublish _ _ => APushed true
  | PushRet b => APushed b
  | PopLoad | PopSeq _ | PopCas _ => APop
  | PopTake p => APopped (lg !! p)
  | PopRelease _ out => APopped out
  | PopRet None => APopped None
  | PopRet (Some out) => APopped out
  end.

Definition abs (s : system A) : fifo A := mkFifo (contents s) (abs_op (log s) <$> ops s).
End spec.

(** * Invariance *)

Section refine.
Context {A : Type} (C : nat) (HC : 2 <= C) (Hpow : exists k, C = 2 ^ k).
Implicit Types (q : MpmcQueue A) (o : op A) (s : system A).

Lemma slot_residue s p : ring_inv C s -> slot (queue s) p = p mod C.
Proof. destruct Hpow as [k Hk]. by apply slot_mod with k. Qed.

(** Every access of a call preserves the invariant. *)
Lemma op_step_inv s i o sp q' o' :
  ring_inv C s -> ops s !! i = Some o -> op_next sp (queue s) o = Some (q', o') ->
  ring_inv C (mkSys q' (<[i := o']> (ops s)) (log s ++ logged o o')).
Proof.
  intros Hi Ho Hn. pose proof (inv_ops _ _ Hi _ _ Ho) as Hok.
  unfold op_next in Hn. destruct o as [v|v p|v p|v p|v p|b| |p|p|p|p out|r];
    cbn in Hn, Hok; rewrite ?(slot_residue s _ Hi) in Hn;
    try (destruct (cells (queue s) !! _) as [c|] eqn:Hc; cbn in Hn; [|done]);
    repeat (case_decide; cbn in Hn); simplify_eq; cbn; rewrite ?app_nil_r;
    try (eapply inv_local; eauto; cbn; try done; try lia; fail).
  - eapply inv_local; eauto; cbn. split; [done|]. intros _. apply seq_at_Some. exists c. split; [done|lia].
  - destruct_and?. by apply inv_push_claim.
  - by apply inv_push_write.
  - by eapply inv_push_publish.
  - eapply inv_local; eauto; cbn. split; [done|]. intros _. apply seq_at_Some. exists c. split; [done|lia].
  - destruct_and?. by apply inv_pop_claim.
  - eapply inv_local; eauto; cbn. destruct Hok as [Hp Hs]. split_and!; [done..|].
    apply seq_at_Some in Hs as (c0 & Hc0 & Hsc). assert (c0 = c) as -> by congruence.
    by apply (phase_full _ HC _ _ _ Hi Hc Hsc).
  - rewrite (inv_cap _ _ Hi). by apply inv_pop_release.
Qed.

Lemma fresh_call_ok s o : is_call o -> op_ok C s o /\ wclaim o = None /\ rclaim o = None.
Proof. by destruct o. Qed.

Lemma ret_no_claim o : is_ret o -> wclaim o = None /\ rclaim o = None.
Proof. by destruct o. Qed.

Lemma sys_step_inv s s' : ring_inv C s -> sys_step s s' -> ring_inv C s'.
Proof.
  intros Hi Hst. destruct Hst as [s i o Hf Hc|s i o sp q' o' Ho Hn|s i o Ho Hr].
  - destruct (fresh_call_ok s o Hc) as (Hok & Hw & Hrd). apply inv_change_ops; [done|..].
    + intros p (j & w & Hj & Hx). exists j, w. rewrite lookup_insert_ne by congruence. done.
    + intros p (j & w & Hj & Hx). exists j, w. rewrite lookup_insert_ne by congruence. done.
    + apply map_Forall_insert_2; [done|apply Hi].
    + apply claims_unique_new; [apply Hi|congruence..].
  - by eapply op_step_inv.
  - destruct (ret_no_claim o Hr) as [Hw Hrd]. apply inv_change_ops; [done|..].
    + intros p (j & w & Hj & Hx). exists j, w. rewrite lookup_delete_ne by congruence. done.
    + intros p (j & w & Hj & Hx). exists j, w. rewrite lookup_delete_ne by congruence. done.
    + apply map_Forall_delete, Hi.
    + intros j j' x x' p Hj Hj'. apply lookup_delete_Some in Hj as [_ Hj], Hj' as [_ Hj'].
      by eapply (inv_unique _ _ Hi).
Qed.
End refine.

Lemma sys_init_inv {A} n : ring_inv (ring_capacity n) (sys_init n : system A).
Proof.
  destruct (ring_capacity_spec n) as (k & Hk & H2 & _).
  split; cbn; try done; try lia.
  - by rewrite length_map, length_seq.
  - intros i c Hc. apply list_lookup_fmap_Some in Hc as (x & -> & Hx).
    apply lookup_seq in Hx as [Hx Hlt]. cbn in Hx. subst x. exists i. cbn.
    split_and!; [by apply Nat.mod_small| |lia|lia]. apply ph_free; cbn; lia.
Qed.

Lemma ring_pow2 n : exists k, ring_capacity n = 2 ^ k.
Proof. destruct (ring_capacity_spec n) as (k & Hk & _). by exists k. Qed.

Lemma ring_ge_2 n : 2 <= ring_capacity n.
Proof. destruct (ring_capacity_spec n) as (k & _ & H & _). done. Qed.

Lemma reachable_inv {A} n (s : system A) :
  rtc sys_step (sys_init n) s -> ring_inv (ring_capacity n) s.
Proof.
  apply (rtc_ind_r (ring_inv (ring_capacity n))); [apply sys_init_inv|].
  intros y z _ Hyz Hy. eapply sys_step_inv; [apply ring_ge_2|apply ring_pow2|done..].
Qed.

(** * Simulation *)

Section simulation.
Context {A : Type} (C : nat) (HC : 2 <= C) (Hpow : exists k, C = 2 ^ k).
Implicit Types (q : MpmcQueue A) (o : op A) (s : system A).

(** What a call shows does not change when the log grows. *)
Lemma abs_ops_grow s l : ring_inv C s -> abs_op (log s ++ l) <$> ops s = abs_op (log s) <$> ops s.
Proof.
  intros Hi. apply map_fmap_ext. intros i o Ho. pose proof (inv_ops _ _ Hi _ _ Ho) as Hok.
  pose proof (inv_log _ _ Hi). pose proof (inv_le _ _ Hi).
  destruct o; try done; cbn in *. rewrite lookup_app_l; [done|lia].
Qed.

Lemma abs_lookup s i o : ops s !! i = Some o -> calls (abs s) !! i = Some (abs_op (log s) o).
Proof. intros Ho. cbn. by rewrite lookup_fmap, Ho. Qed.

(** A step that the specification does not see. *)
Lemma abs_stutter s i o o' q' :
  ops s !! i = Some o -> abs_op (log s) o' = abs_op (log s) o ->
  dequeue_pos q' = dequeue_pos (queue s) ->
  abs (mkSys q' (<[i := o']> (ops s)) (log s)) = abs s.
Proof.
  intros Ho He Hd. unfold abs, contents. cbn. rewrite Hd, fmap_insert, He. f_equal.
  apply insert_id. by rewrite lookup_fmap, Ho.
Qed.

Lemma length_contents s : ring_inv C s ->
  length (contents s) = enqueue_pos (queue s) - dequeue_pos (queue s).
Proof. intros Hi. unfold contents. rewrite length_drop, (inv_log _ _ Hi). done. Qed.

(** The enqueue exchange is the abstract push; the queue has room then. *)
Lemma push_claim_refines s i v p :
  ring_inv C s -> ops s !! i = Some (PushCas v p) -> enqueue_pos (queue s) = p ->
  fifo_step C (abs s) (abs (mkSys (set_enq (queue s) (p + 1)) (<[i := PushWrite v p]> (ops s)) (log s ++ [v]))).
Proof.
  intros Hi Ho He. destruct (inv_ops _ _ Hi _ _ Ho) as [_ Hs]. specialize (Hs (eq_sym He)).
  unfold abs at 2, contents at 1. cbn. rewrite fmap_insert, abs_ops_grow by done.
  rewrite drop_app_le by (rewrite (inv_log _ _ Hi); apply Hi).
  apply (fs_push C (abs s)); [by rewrite (abs_lookup _ _ _ Ho)|].
  cbn. rewrite length_contents by done. pose proof (inv_le _ _ Hi).
  destruct (phase_free _ HC _ _ Hi Hs) as [?|[? _]]; lia.
Qed.

(** The dequeue exchange is the abstract pop of the oldest value. *)
Lemma pop_claim_refines s i p :
  ring_inv C s -> ops s !! i = Some (PopCas p) -> dequeue_pos (queue s) = p ->
  fifo_step C (abs s) (abs (mkSys (set_deq (queue s) (p + 1)) (<[i := PopTake p]> (ops s)) (log s))).
Proof.
  intros Hi Ho He. destruct (inv_ops _ _ Hi _ _ Ho) as [_ Hs]. specialize (Hs (eq_sym He)).
  apply seq_at_Some in Hs as (c & Hc & Hsc). destruct (phase_full _ HC _ _ _ Hi Hc Hsc) as (Hlt & _).
  destruct (lookup_lt_is_Some_2 (log s) p) as [v Hv]; [by rewrite (inv_log _ _ Hi)|].
  unfold abs at 2, contents. cbn. rewrite fmap_insert. cbn. rewrite Hv.
  apply (fs_pop C (abs s)); [by rewrite (abs_lookup _ _ _ Ho)|].
  cbn. unfold contents. rewrite He, Nat.add_1_r. by apply drop_S.
Qed.

Lemma op_step_refines s i o sp q' o' :
  ring_inv C s -> ops s !! i = Some o -> op_next sp (queue s) o = Some (q', o') ->
  let s' := mkSys q' (<[i := o']> (ops s)) (log s ++ logged o o') in
  abs s' = abs s \/ fifo_step C (abs s) (abs s').
Proof.
  intros Hi Ho Hn. pose proof (inv_ops _ _ Hi _ _ Ho) as Hok. pose proof (abs_lookup _ _ _ Ho) as Ha.
  unfold op_next in Hn. destruct o as [v|v p|v p|v p|v p|b| |p|p|p|p out|r];
    cbn in Hn, Hok, Ha; rewrite ?(slot_residue _ Hpow s _ Hi) in Hn;
    try (destruct (cells (queue s) !! _) as [c|] eqn:Hc; cbn in Hn; [|done]);
    repeat (case_decide; cbn in Hn); simplify_eq; cbn; rewrite ?app_nil_r;
    try (left; by apply (abs_stutter s _ _ _ _ Ho)).
  - right. unfold abs at 2. cbn. rewrite fmap_insert. by eapply (fs_push_fail C (abs s)).
  - right. destruct_and?. by apply push_claim_refines.
  - right. unfold abs at 2. cbn. rewrite fmap_insert. by eapply (fs_pop_fail C (abs s)).
  - right. destruct_and?. by apply pop_claim_refines.
  - left. apply (abs_stutter s _ _ _ _ Ho); [|done]. cbn. destruct Hok as [_ Hs].
    apply seq_at_Some in Hs as (c0 & Hc0 & Hsc). assert (c0 = c) as -> by congruence.
    by destruct (phase_full _ HC _ _ _ Hi Hc Hsc) as (_ & -> & _).
Qed.

Lemma sys_step_refines s s' : ring_inv C s -> sys_step s s' ->
  abs s' = abs s \/ fifo_step C (abs s) (abs s').
Proof.
  intros Hi Hst. destruct Hst as [s i o Hf Hc|s i o sp q' o' Ho Hn|s i o Ho Hr].
  - right. unfold abs at 2, contents. cbn. rewrite fmap_insert. apply (fs_call C (abs s)).
    + cbn. by rewrite lookup_fmap, Hf.
    + destruct o; try done; cbn; eauto.
  - by eapply op_step_refines.
  - right. unfold abs at 2, contents. cbn. rewrite fmap_delete.
    apply (fs_ret C (abs s) i (abs_op (log s) o)); [by apply abs_lookup|].
    destruct o as [| | | | |b| | | | | |[out|]]; try done; cbn; eauto.
Qed.
End simulation.

Section negative.
Context {A : Type} (C : nat) (HC : 2 <= C) (Hpow : exists k, C = 2 ^ k).
Implicit Types (q : MpmcQueue A) (o : op A) (s : system A).

(** [try_push] answers [false] only when the ring is full, or the cell it needs is still
    held by a consumer in flight. *)
Lemma push_reject s i v p sp q' :
  ring_inv C s -> ops s !! i = Some (PushSeq v p) ->
  op_next sp (queue s) (PushSeq v p) = Some (q', PushRet false) ->
  length (contents s) = C \/ exists x, reader (ops s) x /\ x + C = enqueue_pos (queue s).
Proof.
  intros Hi Ho Hn. pose proof (inv_ops _ _ Hi _ _ Ho) as Hle. unfold op_next in Hn. cbn in Hn, Hle.
  rewrite (slot_residue _ Hpow s _ Hi) in Hn. destruct (cells (queue s) !! _) as [c|] eqn:Hc; [|done].
  cbn in Hn. repeat case_decide; simplify_eq. rewrite (length_contents _ _ Hi).
  assert (p = enqueue_pos (queue s)) as ->.
  { destruct (decide (p < enqueue_pos (queue s))); [|lia].
    pose proof (lap_reached _ HC _ _ _ Hi Hc). lia. }
  pose proof (contents_bounded _ HC _ Hi).
  destruct (inv_cells _ _ Hi _ _ Hc) as (x & Hx & Hph & Hb & Hlap).
  assert (Hlt : x < enqueue_pos (queue s)) by (destruct Hph; lia).
  pose proof (lap_gap _ HC _ _ Hx Hlt).
  destruct Hph as [| | |? ? ? ? R]; [left; lia..|]. 
  destruct (decide (x + C = enqueue_pos (queue s))); [right; by exists x|]. exfalso.
  enough (x + C <= x) by lia. apply Hlap; [lia|]. rewrite <- Hx. by apply mod_lap.
Qed.

(** [try_pop] answers [false] only when the ring is empty, or the producer that claimed
    the oldest position has not published it yet. *)
Lemma pop_reject s i p sp q' :
  ring_inv C s -> ops s !! i = Some (PopSeq p) ->
  op_next sp (queue s) (PopSeq p) = Some (q', PopRet None) ->
  contents s = [] \/ writer (ops s) (dequeue_pos (queue s)).
Proof.
  intros Hi Ho Hn. pose proof (inv_ops _ _ Hi _ _ Ho) as Hle. unfold op_next in Hn. cbn in Hn, Hle.
  rewrite (slot_residue _ Hpow s _ Hi) in Hn. destruct (cells (queue s) !! _) as [c|] eqn:Hc; [|done].
  cbn in Hn. repeat case_decide; simplify_eq. pose proof (inv_le _ _ Hi).
  destruct (decide (dequeue_pos (queue s) = enqueue_pos (queue s))) as [E|E].
  { left. apply nil_length_inv. rewrite (length_contents _ _ Hi). lia. }
  right. destruct (inv_cells _ _ Hi _ _ Hc) as (x & Hx & Hph & Hb & Hlap).
  assert (Hpx : p <= x) by (apply Hlap; [lia|done]).
  destruct Hph as [E1 ?|E1 ? ? W|E1|E1]; try lia.
  enough (x = dequeue_pos (queue s)) as <- by done.
  destruct (decide (p = dequeue_pos (queue s))) as [->|]; lia.
Qed.
End negative.

(** * A call that runs alone *)

Section solo.
Context {A : Type} (C : nat) (HC : 2 <= C) (Hpow : exists k, C = 2 ^ k).
Implicit Types (q : MpmcQueue A) (o : op A).

(** A quiescent ring holding [xs], oldest first. *)
Definition represents q (xs : list A) : Prop :=
  exists l, ring_inv C (mkSys q ∅ l) /\ contents (mkSys q ∅ l) = xs.

Definition solo q o (l : list A) : system A := mkSys q {[0 := o]} l.

Lemma solo_step q o l q' o' : ring_inv C (solo q o l) -> op_next false q o = Some (q', o') ->
  ring_inv C (solo q' o' (l ++ logged o o')).
Proof.
  intros Hi Hn. pose proof (op_step_inv C HC Hpow _ 0 o false q' o' Hi) as H. cbn in H.
  rewrite insert_singleton_eq in H. apply H; [apply lookup_singleton_eq|done].
Qed.

Lemma solo_call q o l : ring_inv C (mkSys q ∅ l) -> is_call o -> ring_inv C (solo q o l).
Proof.
  intros Hi Hc. apply (sys_step_inv C HC Hpow _ _ Hi). by apply (ss_call (mkSys q ∅ l) 0 o).
Qed.

Lemma solo_ret q o l : ring_inv C (solo q o l) -> is_ret o -> ring_inv C (mkSys q ∅ l).
Proof.
  intros Hi Hr. assert (Hd : delete 0 ({[0 := o]} : gmap nat (op A)) = ∅) by apply delete_singleton_eq.
  pose proof (ss_ret (solo q o l) 0 o (lookup_singleton_eq _ _) Hr) as Hs. cbn in Hs. rewrite Hd in Hs.
  by apply (sys_step_inv C HC Hpow _ _ Hi Hs).
Qed.

(** The next cell to fill is free, or the ring is full. *)
Lemma quiescent_push_cell q l : ring_inv C (mkSys q ∅ l) ->
  exists c, cells q !! (enqueue_pos q mod C) = Some c /\
    (enqueue_pos q = dequeue_pos q + C /\ sequence c < enqueue_pos q \/
     enqueue_pos q < dequeue_pos q + C /\ sequence c = enqueue_pos q).
Proof.
  intros Hi. destruct (cell_exists C HC _ (enqueue_pos q) Hi) as [c Hc]. exists c. split; [done|].
  pose proof (contents_bounded C HC _ Hi) as Hcb. pose proof (inv_le _ _ Hi) as Hle. cbn in *.
  destruct (inv_cells _ _ Hi _ _ Hc) as (p & Hp & Hph & Hb & _). cbn in *.
  destruct Hph as [E Hf|E ? ? (?&?&?&?)|E Hd He|E ? ? ? (?&?&?&?)]; cbn in *; try done.
  - right. destruct (decide (p = enqueue_pos q)) as [->|Hn]; [lia|].
    pose proof (lap_gap C HC (enqueue_pos q) p (eq_sym Hp) ltac:(lia)). lia.
  - left. pose proof (lap_gap C HC p (enqueue_pos q) Hp ltac:(lia)). lia.
Qed.

(** The oldest cell is full, or the ring is empty. *)
Lemma quiescent_pop_cell q l : ring_inv C (mkSys q ∅ l) ->
  exists c, cells q !! (dequeue_pos q mod C) = Some c /\
    (enqueue_pos q = dequeue_pos q /\ sequence c < dequeue_pos q + 1 \/
     dequeue_pos q < enqueue_pos q /\ sequence c = dequeue_pos q + 1 /\ cvalue c = l !! dequeue_pos q).
Proof.
  intros Hi. destruct (cell_exists C HC _ (dequeue_pos q) Hi) as [c Hc]. exists c. split; [done|].
  pose proof (inv_le _ _ Hi) as Hle. cbn in *.
  destruct (inv_cells _ _ Hi _ _ Hc) as (p & Hp & Hph & Hb & Hlap). cbn in *.
  destruct Hph as [E Hf|E ? ? (?&?&?&?)|E Hd He|E ? ? ? (?&?&?&?)]; cbn in *; try done.
  - left. destruct (decide (p = dequeue_pos q)) as [->|Hn]; [lia|].
    pose proof (lap_gap C HC (dequeue_pos q) p (eq_sym Hp) ltac:(lia)). lia.
  - right. destruct (decide (p = dequeue_pos q)) as [->|Hn]; [split_and!; [lia|lia|done]|].
    pose proof (lap_gap C HC (dequeue_pos q) p (eq_sym Hp) ltac:(lia)). lia.
Qed.

Lemma solo_slot q p l : ring_inv C (mkSys q ∅ l) -> slot q p = p mod C.
Proof. intros Hi. by apply (slot_residue C Hpow (mkSys q ∅ l)). Qed.

(** The four accesses after a successful test, for [try_push] and [try_pop]. *)
Lemma solo_push_ok q v l c : ring_inv C (mkSys q ∅ l) ->
  cells q !! (enqueue_pos q mod C) = Some c -> sequence c = enqueue_pos q ->
  let q' := set_cell (set_cell (set_enq q (enqueue_pos q + 1)) (enqueue_pos q mod C)
                        (mkCell (sequence c) (Some v)))
              (enqueue_pos q mod C) (mkCell (enqueue_pos q + 1) (Some v)) in
  try_push q v = (q', PushRet true) /\ ring_inv C (mkSys q' ∅ (l ++ [v])).
Proof.
  intros Hi Hc Hs q'. set (e := enqueue_pos q) in *.
  assert (Hsl : forall q0, qcapacity q0 = qcapacity q -> slot q0 e = e mod C).
  { intros q0 E. rewrite <- (solo_slot q e l Hi). unfold slot. by rewrite E. }
  assert (Hlk : forall c', <[e mod C := c']> (cells q) !! (e mod C) = Some c').
  { intros c'. apply list_lookup_insert_eq. by eapply lookup_lt_Some. }
  assert (N1 : op_next false q (PushSeq v e) = Some (q, PushCas v e)).
  { unfold op_next. cbn. rewrite Hsl, Hc by done. cbn. by rewrite decide_True by lia. }
  assert (N2 : op_next false q (PushCas v e) = Some (set_enq q (e + 1), PushWrite v e)).
  { unfold op_next. cbn. by rewrite decide_True. }
  set (q1 := set_cell (set_enq q (e + 1)) (e mod C) (mkCell (sequence c) (Some v))) in *.
  assert (N3 : op_next false (set_enq q (e + 1)) (PushWrite v e) = Some (q1, PushPublish v e)).
  { unfold op_next. cbn. rewrite Hsl, Hc by done. done. }
  assert (N4 : op_next false q1 (PushPublish v e) = Some (q', PushRet true)).
  { unfold op_next. cbn. rewrite Hsl by done. cbn. by rewrite Hlk. }
  split.
  - unfold try_push. cbn [run_op]. change (op_next false q (PushLoad v)) with (Some (q, PushSeq v e)).
    cbn iota beta. by rewrite N1, N2, N3, N4.
  - pose proof (solo_call q (PushLoad v) l Hi I) as I0.
    pose proof (solo_step _ _ _ q (PushSeq v e) I0 eq_refl) as I1.
    pose proof (solo_step _ _ _ _ _ I1 N1) as I2. pose proof (solo_step _ _ _ _ _ I2 N2) as I3.
    pose proof (solo_step _ _ _ _ _ I3 N3) as I4. pose proof (solo_step _ _ _ _ _ I4 N4) as I5.
    cbn in I5. rewrite !app_nil_r in I5. by eapply solo_ret.
Qed.

Lemma solo_pop_ok q l c : ring_inv C (mkSys q ∅ l) ->
  cells q !! (dequeue_pos q mod C) = Some c -> sequence c = dequeue_pos q + 1 ->
  let q' := set_cell (set_deq q (dequeue_pos q + 1)) (dequeue_pos q mod C)
              (mkCell (dequeue_pos q + C) (cvalue c)) in
  try_pop q = (q', PopRet (Some (cvalue c))) /\ ring_inv C (mkSys q' ∅ l).
Proof.
  intros Hi Hc Hs q'. set (d := dequeue_pos q) in *.
  assert (Hsl : forall q0, qcapacity q0 = qcapacity q -> slot q0 d = d mod C).
  { intros q0 E. rewrite <- (solo_slot q d l Hi). unfold slot. by rewrite E. }
  assert (N1 : op_next false q (PopSeq d) = Some (q, PopCas d)).
  { unfold op_next. cbn. rewrite Hsl, Hc by done. cbn. by rewrite decide_True by lia. }
  assert (N2 : op_next false q (PopCas d) = Some (set_deq q (d + 1), PopTake d)).
  { unfold op_next. cbn. by rewrite decide_True. }
  assert (N3 : op_next false (set_deq q (d + 1)) (PopTake d) =
               Some (set_deq q (d + 1), PopRelease d (cvalue c))).
  { unfold op_next. cbn. rewrite Hsl, Hc by done. done. }
  assert (N4 : op_next false (set_deq q (d + 1)) (PopRelease d (cvalue c)) =
               Some (q', PopRet (Some (cvalue c)))).
  { unfold op_next. cbn. rewrite Hsl, Hc by done. cbn.
    pose proof (inv_cap _ _ Hi) as E. cbn in E. by rewrite E. }
  split.
  - unfold try_pop. cbn [run_op]. change (op_next false q PopLoad) with (Some (q, PopSeq (A := A) d)).
    cbn iota beta. by rewrite N1, N2, N3, N4.
  - pose proof (solo_call q PopLoad l Hi I) as I0.
    pose proof (solo_step _ _ _ q (PopSeq d) I0 eq_refl) as I1.
    pose proof (solo_step _ _ _ _ _ I1 N1) as I2. pose proof (solo_step _ _ _ _ _ I2 N2) as I3.
    pose proof (solo_step _ _ _ _ _ I3 N3) as I4. pose proof (solo_step _ _ _ _ _ I4 N4) as I5.
    cbn in I5. rewrite !app_nil_r in I5. by eapply solo_ret.
Qed.

Lemma try_push_solo q xs v : represents q xs ->
  (length xs = C -> try_push q v = (q, PushRet false)) /\
  (length xs < C -> exists q', try_push q v = (q', PushRet true) /\ represents q' (xs ++ [v])).
Proof.
  intros (l & Hi & <-). rewrite (length_contents C _ Hi). pose proof (inv_le _ _ Hi) as Hle.
  pose proof (inv_log _ _ Hi) as Hlog. cbn in Hle, Hlog.
  destruct (quiescent_push_cell q l Hi) as (c & Hc & Hcase). cbn. split; intros Hlen.
  - destruct Hcase as [[_ Hs]|[? _]]; [|lia].
    unfold try_push. cbn. unfold op_next. cbn. rewrite (solo_slot q _ l Hi), Hc. cbn.
    rewrite decide_False, decide_True by lia. done.
  - destruct Hcase as [[? _]|[_ Hs]]; [lia|].
    destruct (solo_push_ok q v l c Hi Hc Hs) as [Hp Hinv]. eexists. split; [exact Hp|].
    exists (l ++ [v]). split; [exact Hinv|]. unfold contents. cbn. apply drop_app_le. lia.
Qed.

Lemma try_pop_solo q xs : represents q xs ->
  match xs with
  | [] => try_pop q = (q, PopRet None)
  | x :: xs' => exists q', try_pop q = (q', PopRet (Some (Some x))) /\ represents q' xs'
  end.
Proof.
  intros (l & Hi & Hxs). pose proof (length_contents C _ Hi) as Hlen. rewrite Hxs in Hlen.
  pose proof (inv_log _ _ Hi) as Hlog. cbn in Hlen, Hlog.
  destruct (quiescent_pop_cell q l Hi) as (c & Hc & Hcase). destruct xs as [|x xs]; cbn in Hlen.
  - destruct Hcase as [[_ Hs]|[? _]]; [|lia].
    unfold try_pop. cbn. unfold op_next. cbn. rewrite (solo_slot q _ l Hi), Hc. cbn.
    rewrite decide_False, decide_True by lia. done.
  - destruct Hcase as [[? _]|(Hlt & Hs & Hv)]; [lia|].
    destruct (solo_pop_ok q l c Hi Hc Hs) as [Hp Hinv]. unfold contents in Hxs. cbn in Hxs.
    destruct (lookup_lt_is_Some_2 l (dequeue_pos q)) as [y Hy]; [lia|].
    rewrite (drop_S _ _ _ Hy) in Hxs. injection Hxs as -> Hxs. rewrite Hv, Hy in Hp.
    eexists. split; [exact Hp|]. exists l. split; [by rewrite Hv, Hy in Hinv|].
    unfold contents. cbn. rewrite Nat.add_1_r. done.
Qed.
End solo.

(** * Running a schedule *)

Inductive event (A : Type) :=
  | Call (i : nat) (o : op A)
  | Access (i : nat)
  | Return (i : nat).
Arguments Call {A}. Arguments Access {A}. Arguments Return {A}.

#[export] Instance is_call_dec {A} (o : op A) : Decision (is_call o).
Proof. destruct o; cbn; apply _. Defined.
#[export] Instance is_ret_dec {A} (o : op A) : Decision (is_ret o).
Proof. destruct o; cbn; apply _. Defined.

Definition sys_next {A} (s : system A) (e : event A) : option (system A) :=
  match e with
  | Call i o =>
      if decide (ops s !! i = None /\ is_call o)
      then Some (mkSys (queue s) (<[i := o]> (ops s)) (log s)) else None
  | Access i =>
      o ← ops s !! i; '(q', o') ← op_next false (queue s) o;
      Some (mkSys q' (<[i := o']> (ops s)) (log s ++ logged o o'))
  | Return i =>
      o ← ops s !! i;
      if decide (is_ret o) then Some (mkSys (queue s) (delete i (ops s)) (log s)) else None
  end.

Definition run_events {A} (es : list (event A)) (s : system A) : option (system A) :=
  foldl (fun r e => s ← r; sys_next s e) (Some s) es.

Lemma sys_next_sound {A} (s s' : system A) e : sys_next s e = Some s' -> sys_step s s'.
Proof.
  destruct e as [i o|i|i]; cbn.
  - case_decide as H; [|done]. intros [= <-]. destruct H. by apply ss_call.
  - destruct (ops s !! i) as [o|] eqn:Ho; [|done]. cbn.
    destruct (op_next false (queue s) o) as [[q' o']|] eqn:Hn; [|done]. intros [= <-]. by eapply ss_op.
  - destruct (ops s !! i) as [o|] eqn:Ho; [|done]. cbn. case_decide; [|done]. intros [= <-]. by eapply ss_ret.
Qed.

Lemma run_events_none {A} (es : list (event A)) :
  foldl (fun r e => s ← r; sys_next s e) None es = None.
Proof. by induction es. Qed.

Lemma run_events_sound {A} (es : list (event A)) s s' :
  run_events es s = Some s' -> rtc sys_step s s'.
Proof.
  revert s. induction es as [|e es IH]; intros s; cbn; [by intros [= ->]|].
  destruct (sys_next s e) as [s1|] eqn:E; [|by rewrite run_events_none].
  intros H. eapply rtc_l; [by eapply sys_next_sound|by apply IH].
Qed.

(** * Properties *)

(** C18: Every interleaving of [try_push] and [try_pop] calls refines a bounded FIFO queue:
    each access of the code is either invisible or one step of the specification, in which
    a push appends its value only when there is room, a pop removes and returns the oldest
    value, and a call may also fail.  No value is lost, duplicated or reordered, and at most
    [capacity] values are held. *)
Theorem queue_refines_fifo {A} n (s : system A) :
  rtc sys_step (sys_init n) s ->
  rtc (fifo_step (ring_capacity n)) (mkFifo [] ∅) (abs s) /\ length (contents s) <= ring_capacity n.
Proof.
  intros Hr. split.
  - revert s Hr. apply (rtc_ind_r (fun s => rtc (fifo_step (ring_capacity n)) (mkFifo [] ∅) (abs s))).
    { unfold abs. cbn. rewrite fmap_empty. apply rtc_refl. }
    intros y z Hy Hyz IH. pose proof (reachable_inv n y Hy) as Hi.
    destruct (sys_step_refines _ (ring_ge_2 n) (ring_pow2 n) y z Hi Hyz) as [->|Hf]; [done|].
    by eapply rtc_r.
  - pose proof (reachable_inv n s Hr) as Hi. rewrite (length_contents _ _ Hi).
    pose proof (contents_bounded _ (ring_ge_2 n) _ Hi). lia.
Qed.

(** Two producers and a consumer on a ring of two cells. *)
Definition two_pushes_one_pop : list (event nat) :=
  [Call 0 (PushLoad 7); Access 0; Call 1 (PushLoad 8); Access 1; Access 1; Access 1; Access 0;
   Access 1; Access 1; Return 1; Access 0; Access 0; Access 0; Access 0; Access 0;
   Call 2 PopLoad; Access 2; Access 2; Access 2; Access 2; Access 2].

Lemma queue_refines_fifo_witness :
  exists s : system nat, run_events two_pushes_one_pop (sys_init 2) = Some s /\
    ops s !! 2 = Some (PopRet (Some (Some 8))) /\ contents s = [7] /\
    rtc (fifo_step (ring_capacity 2)) (mkFifo [] ∅) (abs s) /\ length (contents s) <= ring_capacity 2.
Proof.
  destruct (run_events two_pushes_one_pop (sys_init 2)) as [s|] eqn:E; [|vm_compute in E; discriminate].
  exists s. split; [reflexivity|].
  pose proof (queue_refines_fifo 2 s (run_events_sound _ _ _ E)) as H.
  vm_compute in E. injection E as <-. split; [reflexivity|]. split; [reflexivity|]. exact H.
Defined.

(** The negative answers are exact up to calls in flight.  When [try_push] is about to
    return [false], the ring holds [capacity] values or a consumer is between claiming and
    releasing the very cell; when [try_pop] is about to return [false], the ring holds
    nothing or a producer is between claiming and publishing the oldest position. *)
Theorem negative_answers_exact {A} n (s : system A) i sp :
  rtc sys_step (sys_init n) s ->
  (forall v p q', ops s !! i = Some (PushSeq v p) ->
     op_next sp (queue s) (PushSeq v p) = Some (q', PushRet false) ->
     length (contents s) = ring_capacity n \/
     exists x, reader (ops s) x /\ x + ring_capacity n = enqueue_pos (queue s)) /\
  (forall p q', ops s !! i = Some (PopSeq p) ->
     op_next sp (queue s) (PopSeq p) = Some (q', PopRet None) ->
     contents s = [] \/ writer (ops s) (dequeue_pos (queue s))).
Proof.
  intros Hr. pose proof (reachable_inv n s Hr) as Hi. pose proof (ring_ge_2 n). pose proof (ring_pow2 n).
  split; intros; [by eapply push_reject|by eapply pop_reject].
Qed.

(** A consumer meets an empty ring. *)
Lemma negative_answers_exact_witness :
  exists s : system nat, run_events [Call 0 PopLoad; Access 0] (sys_init 2) = Some s /\
    op_next false (queue s) (PopSeq 0) = Some (queue s, PopRet None) /\
    (contents s = [] \/ writer (ops s) (dequeue_pos (queue s))).
Proof.
  destruct (run_events [Call 0 PopLoad; Access 0] (sys_init (A := nat) 2)) as [s|] eqn:E;
    [|vm_compute in E; discriminate].
  exists s. split; [reflexivity|].
  destruct (negative_answers_exact 2 s 0 false (run_events_sound _ _ _ E)) as [_ H].
  vm_compute in E. injection E as <-. split; [reflexivity|]. eapply (H 0); reflexivity.
Defined.

(** Calls that run one at a time are exact bounded-queue operations: on a quiescent
    ring holding [xs], [try_push] fails exactly when [xs] fills the ring and appends
    otherwise, and [try_pop] fails exactly when [xs] is empty and returns its head
    otherwise.  Both finish within their fuel. *)
Theorem sequential_calls_exact {A} n (q : MpmcQueue A) xs v :
  represents (ring_capacity n) q xs ->
  (length xs = ring_capacity n -> try_push q v = (q, PushRet false)) /\
  (length xs < ring_capacity n ->
     exists q', try_push q v = (q', PushRet true) /\ represents (ring_capacity n) q' (xs ++ [v])) /\
  match xs with
  | [] => try_pop q = (q, PopRet None)
  | x :: xs' => exists q', try_pop q = (q', PopRet (Some (Some x))) /\ represents (ring_capacity n) q' xs'
  end.
Proof.
  intros Hr. pose proof (ring_ge_2 n). pose proof (ring_pow2 n).
  destruct (try_push_solo _ ltac:(done) ltac:(done) q xs v Hr). split_and!; [done..|]. by apply try_pop_solo.
Qed.

Lemma new_queue_represents {A} n : represents (ring_capacity n) (new_queue (A := A) n) [].
Proof. exists []. split; [apply sys_init_inv|done]. Qed.

Lemma sequential_calls_exact_witness :
  exists q', try_push (new_queue 3) 5 = (q', PushRet true) /\ represents (ring_capacity 3) q' [5].
Proof.
  destruct (sequential_calls_exact 3 (new_queue 3) [] 5 (new_queue_represents 3)) as (_ & H & _).
  apply H. pose proof (ring_ge_2 3). cbn. lia.
Defined.

(** A producer stopped between claiming position 0 and writing it. *)
Definition stalled_producer : list (event nat) :=
  [Call 0 (PushLoad 7); Access 0; Access 0; Access 0;
   Call 1 (PushLoad 8); Access 1; Access 1; Access 1; Access 1; Access 1; Return 1;
   Call 2 PopLoad; Access 2; Access 2].

(** [try_pop] can answer [false] although a push completed before it started and its
    value is still in the ring: the value sits behind a position that another producer has
    claimed and not published.  A [false] answer is therefore no proof of emptiness. *)
Theorem pop_fails_on_nonempty_queue :
  exists s : system nat, rtc sys_step (sys_init 2) s /\
    ops s !! 2 = Some (PopRet None) /\ contents s = [7; 8] /\
    cells (queue s) !! 1 = Some (mkCell 2 (Some 8)) /\ ops s !! 1 = None.
Proof.
  destruct (run_events stalled_producer (sys_init 2)) as [s|] eqn:E; [|vm_compute in E; discriminate].
  exists s. split; [by eapply run_events_sound|]. vm_compute in E. injection E as <-. by vm_compute.
Qed.
