(* ===== verification/ThreadPool.v ===== *)
(** [ThreadPool] of [executor/thread_pool.hpp] and [executor/thread_pool.cpp]: workers
    that sleep on a counting semaphore and take tasks from the lock-free ring.

    The state holds the ring, the semaphore's permits, the stop flag and one process per
    thread: callers of [enqueue], workers inside [worker_loop], and the thread that runs
    the destructor.  Each step is one access to shared state; inside the ring it is one
    access of [MpmcQueue.v].  Two ghosts record what happened: the tasks run so far, and
    the permits spent on a [try_pop] that found nothing while no stop was requested. *)

From Stdlib Require Import ZArith Lia.
From stdpp Require Import base gmap relations numbers list.
From S2P Require Import Prelude MpmcQueue MpmcInv MpmcTheorems.

(** * The program *)

Definition QUEUE_CAPACITY : nat := 1024.

(** A thread, by where it is. *)
Inductive proc (A : Type) :=
  | Enqueue (task : A) (o : op A)   (** the [try_push] loop of [enqueue] *)
  | EnqueueRelease                  (** [tasks_available_.release()] *)
  | EnqueueDone
  | Acquire                         (** [tasks_available_.acquire()] *)
  | Popping (o : op A)              (** inside [try_pop] *)
  | Running (task : A)              (** inside [task(stop)] *)
  | CheckStop                       (** [if (stop.stop_requested()) return] *)
  | Exited
  | RequestStop                     (** the destructor's [request_stop] loop *)
  | ReleaseAll                      (** one permit per worker *)
  | Joining
  | Joined.
Arguments Enqueue {A}. Arguments EnqueueRelease {A}. Arguments EnqueueDone {A}. Arguments Acquire {A}.
Arguments Popping {A}. Arguments Running {A}. Arguments CheckStop {A}. Arguments Exited {A}.
Arguments RequestStop {A}. Arguments ReleaseAll {A}. Arguments Joining {A}. Arguments Joined {A}.

Record pool_state (A : Type) := mkTP {
  task_queue : MpmcQueue A;
  tasks_available : nat;
  active_tasks : nat;
  stop_requested : bool;
  procs : list (proc A);
  claimed : list A;      (** ghost: the ring's log *)
  executed : list A;     (** ghost: tasks that have run *)
  wasted : nat           (** ghost: permits spent without a task or an exit *)
}.
Arguments mkTP {A}. Arguments task_queue {A}. Arguments tasks_available {A}. Arguments active_tasks {A}.
Arguments stop_requested {A}. Arguments procs {A}. Arguments claimed {A}. Arguments executed {A}.
Arguments wasted {A}.

Section pool.
Context {A : Type}.
Implicit Types (s : pool_state A) (p : proc A).

Definition is_worker p : bool :=
  match p with Acquire | Popping _ | Running _ | CheckStop | Exited => true | _ => false end.

Definition has_exited p : Prop := match p with Exited => True | _ => False end.
#[global] Instance has_exited_dec p : Decision (has_exited p).
Proof. destruct p; cbn; apply _. Defined.

Definition thread_count s : nat := length (filter (fun p => is_worker p = true) (procs s)).
Definition active_count s : nat := active_tasks s.
Definition queued_count s : nat := size_approx (task_queue s).

(** [hardware_concurrency()] is consulted when no count is given; 4 if it is unknown. *)
Definition num_workers (num_threads hardware_concurrency : nat) : nat :=
  if decide (num_threads = 0)
  then if decide (hardware_concurrency = 0) then 4 else hardware_concurrency
  else num_threads.

Definition new_pool (capacity num_threads hardware_concurrency : nat) : pool_state A :=
  mkTP (new_queue capacity) 0 0 false
       (replicate (num_workers num_threads hardware_concurrency) Acquire) [] [] 0.

Definition set_proc s (i : nat) p : pool_state A :=
  mkTP (task_queue s) (tasks_available s) (active_tasks s) (stop_requested s)
       (<[i := p]> (procs s)) (claimed s) (executed s) (wasted s).
Definition set_permits s (n : nat) : pool_state A :=
  mkTP (task_queue s) n (active_tasks s) (stop_requested s) (procs s) (claimed s) (executed s) (wasted s).
Definition set_ring s (q : MpmcQueue A) (l : list A) : pool_state A :=
  mkTP q (tasks_available s) (active_tasks s) (stop_requested s) (procs s) l (executed s) (wasted s).
Definition set_active s (n : nat) (run : list A) : pool_state A :=
  mkTP (task_queue s) (tasks_available s) n (stop_requested s) (procs s) (claimed s) run (wasted s).
Definition set_stop s : pool_state A :=
  mkTP (task_queue s) (tasks_available s) (active_tasks s) true (procs s) (claimed s) (executed s) (wasted s).
Definition waste s : pool_state A :=
  mkTP (task_queue s) (tasks_available s) (active_tasks s) (stop_requested s) (procs s) (claimed s)
       (executed s) (S (wasted s)).

(** One access inside the ring by thread [i]. *)
Definition ring_next s (i : nat) (spurious : bool) (o : op A) (k : op A -> proc A) : option (pool_state A) :=
  '(q', o') ← op_next spurious (task_queue s) o;
  Some (set_proc (set_ring s q' (claimed s ++ logged o o')) i (k o')).

(** [enqueue]: push until accepted, then release a permit. *)
Definition enqueue_next s i sp p : option (pool_state A) :=
  match p with
  | Enqueue task (PushRet true) => Some (set_proc s i EnqueueRelease)
  | Enqueue task (PushRet false) => Some (set_proc s i (Enqueue task (PushLoad task)))
  | Enqueue task o => ring_next s i sp o (Enqueue task)
  | EnqueueRelease => Some (set_proc (set_permits s (S (tasks_available s))) i EnqueueDone)
  | _ => None
  end.

(** [worker_loop]; [None] at [Acquire] means the thread sleeps.  A successful pop always
    yields a task ([ThreadPoolInv.v]), so there is no step for a pop without a value. *)
Definition worker_next s i sp p : option (pool_state A) :=
  match p with
  | Acquire =>
      match tasks_available s with
      | O => None
      | S n => Some (set_proc (set_permits s n) i (Popping PopLoad))
      end
  | Popping (PopRet (Some (Some task))) =>
      Some (set_proc (set_active s (S (active_tasks s)) (executed s)) i (Running task))
  | Popping (PopRet None) => Some (set_proc s i CheckStop)
  | Popping o => ring_next s i sp o Popping
  | Running task => Some (set_proc (set_active s (pred (active_tasks s)) (executed s ++ [task])) i Acquire)
  | CheckStop => if stop_requested s then Some (set_proc s i Exited) else Some (set_proc (waste s) i Acquire)
  | _ => None
  end.

(** The destructor: stop, one permit per worker, join. *)
Definition destroy_next s i p : option (pool_state A) :=
  match p with
  | RequestStop => Some (set_proc (set_stop s) i ReleaseAll)
  | ReleaseAll => Some (set_proc (set_permits s (tasks_available s + thread_count s)) i Joining)
  | Joining =>
      if decide (Forall (fun w => is_worker w = true -> has_exited w) (procs s))
      then Some (set_proc s i Joined) else None
  | _ => None
  end.

Definition proc_next s i sp : option (pool_state A) :=
  p ← procs s !! i;
  match enqueue_next s i sp p with
  | Some s' => Some s'
  | None => match worker_next s i sp p with
            | Some s' => Some s'
            | None => destroy_next s i p
            end
  end.

Definition spawn s p : pool_state A :=
  mkTP (task_queue s) (tasks_available s) (active_tasks s) (stop_requested s)
       (procs s ++ [p]) (claimed s) (executed s) (wasted s).

(** A thread moves; a client calls [submit]; or the owner starts the destructor, once. *)
Inductive pool_step : pool_state A -> pool_state A -> Prop :=
  | ps_move s i sp s' : proc_next s i sp = Some s' -> pool_step s s'
  | ps_submit s task : stop_requested s = false ->
      pool_step s (spawn s (Enqueue task (PushLoad task)))
  | ps_destroy s : Forall (fun p => p <> RequestStop /\ p <> ReleaseAll /\ p <> Joining /\ p <> Joined) (procs s) ->
      pool_step s (spawn s RequestStop).

(** No thread can move: everyone is finished or asleep. *)
Definition stuck s : Prop := forall i sp, proc_next s i sp = None.
End pool.
