(* ===== verification/ThreadPoolInv.v ===== *)
(** Invariants of the thread pool of [ThreadPool.v]: its ring only ever takes steps of
    [MpmcQueue.v], every permit and every task is accounted for. *)

From Stdlib Require Import ZArith Lia.
From stdpp Require Import base gmap relations numbers list.
From S2P Require Import Prelude MpmcQueue MpmcInv MpmcTheorems ThreadPool.

Section proj.
Context {A : Type}.
Implicit Types (s : pool_state A) (p : proc A) (l : list (proc A)) (o : op A).

(** * The ring inside the pool *)

Definition op_of p : option (op A) :=
  match p with Enqueue _ o | Popping o => Some o | _ => None end.

Definition ring_ops l : gmap nat (op A) := omap op_of (map_seq 0 l : gmap nat (proc A)).

#[local] Arguments ring_ops _ : simpl never.

Definition ring_of s : system A := mkSys (task_queue s) (ring_ops (procs s)) (claimed s).

Lemma lookup_ring_ops l i : ring_ops l !! i = l !! i ≫= op_of.
Proof. unfold ring_ops. rewrite lookup_omap, lookup_map_seq_0. done. Qed.

Lemma ring_ops_insert l i p : i < length l ->
  ring_ops (<[i := p]> l) =
    match op_of p with Some o => <[i := o]> (ring_ops l) | None => delete i (ring_ops l) end.
Proof.
  intros Hi. apply map_eq. intros j. rewrite lookup_ring_ops. destruct (decide (i = j)) as [<-|Hn].
  - rewrite list_lookup_insert_eq by done. cbn.
    destruct (op_of p); [by rewrite lookup_insert_eq|by rewrite lookup_delete_eq].
  - rewrite list_lookup_insert_ne by done.
    destruct (op_of p); [rewrite lookup_insert_ne by done|rewrite lookup_delete_ne by done];
      by rewrite lookup_ring_ops.
Qed.

Lemma ring_ops_app l p :
  ring_ops (l ++ [p]) =
    match op_of p with Some o => <[length l := o]> (ring_ops l) | None => ring_ops l end.
Proof.
  apply map_eq. intros j. rewrite lookup_ring_ops.
  destruct (decide (length l = j)) as [<-|Hn].
  - rewrite list_lookup_middle by done. cbn. destruct (op_of p); [by rewrite lookup_insert_eq|].
    rewrite lookup_ring_ops, lookup_ge_None_2 by lia. done.
  - assert (Hl : (l ++ [p]) !! j = l !! j).
    { destruct (decide (j < length l)); [by apply lookup_app_l|].
      rewrite !lookup_ge_None_2; [done|lia|rewrite length_app; cbn; lia]. }
    rewrite Hl. destruct (op_of p); [rewrite lookup_insert_ne by done|]; by rewrite lookup_ring_ops.
Qed.

(** Callers push, workers pop. *)
Definition push_op (task : A) o : Prop :=
  match o with
  | PushLoad v | PushSeq v _ | PushCas v _ | PushWrite v _ | PushPublish v _ => v = task
  | PushRet _ => True | _ => False end.
Definition pop_op o : Prop :=
  match o with PopLoad | PopSeq _ | PopCas _ | PopTake _ | PopRelease _ _ | PopRet _ => True | _ => False end.
Definition proc_ok p : Prop :=
  match p with Enqueue task o => push_op task o | Popping o => pop_op o | _ => True end.

(** The weight of a thread in the permit account: it holds a permit it has not used, has
    exited on one, or has put a task in the ring without releasing its permit. *)
Definition weight p : nat :=
  match p with
  | Popping (PopLoad | PopSeq _ | PopCas _ | PopRet None) | CheckStop | Exited => 1
  | Enqueue _ (PushWrite _ _ | PushPublish _ _ | PushRet true) | EnqueueRelease => 1
  | _ => 0
  end.

(** The destructor has released its permits. *)
Definition released p : nat := match p with Joining | Joined => 1 | _ => 0 end.
Definition destructor p : nat := match p with RequestStop | ReleaseAll | Joining | Joined => 1 | _ => 0 end.
Definition worker p : nat := if is_worker p then 1 else 0.

(** The ring's side of the account, access by access. *)
Lemma op_next_account sp q o q' o' :
  op_next sp q o = Some (q', o') ->
  (forall task, push_op task o ->
     push_op task o' /\ dequeue_pos q' = dequeue_pos q /\
     enqueue_pos q' + weight (Enqueue task o) = enqueue_pos q + weight (Enqueue task o')) /\
  (pop_op o ->
     pop_op o' /\ enqueue_pos q' = enqueue_pos q /\
     dequeue_pos q' + weight (Popping o') = dequeue_pos q + weight (Popping o)).
Proof.
  unfold op_next. intros Hn. destruct o; cbn in Hn;
    try (destruct (cells q !! _) as [c|] eqn:Hc; cbn in Hn; [|done]);
    repeat (case_decide; cbn in Hn); simplify_eq; cbn; split; intros; destruct_and?; subst;
    split_and!; try done; try lia.
Qed.

(** * Pool steps are ring steps *)

Lemma ring_quiet s i p p' :
  procs s !! i = Some p -> op_of p = None -> op_of p' = None ->
  ring_ops (<[i := p']> (procs s)) = ring_ops (procs s).
Proof.
  intros Hi Hp Hp'. rewrite ring_ops_insert, Hp' by (by eapply lookup_lt_Some).
  apply delete_id. by rewrite lookup_ring_ops, Hi.
Qed.

Lemma ring_access s i p o sp q' o' p' :
  procs s !! i = Some p -> op_of p = Some o -> op_next sp (task_queue s) o = Some (q', o') ->
  op_of p' = Some o' ->
  sys_step (ring_of s) (mkSys q' (ring_ops (<[i := p']> (procs s))) (claimed s ++ logged o o')).
Proof.
  intros Hi Hp Hn Hp'. rewrite ring_ops_insert, Hp' by (by eapply lookup_lt_Some).
  apply (ss_op (ring_of s) i o sp); [|done]. cbn. by rewrite lookup_ring_ops, Hi.
Qed.

Lemma ring_return s i p o p' :
  procs s !! i = Some p -> op_of p = Some o -> is_ret o -> op_of p' = None ->
  sys_step (ring_of s) (mkSys (task_queue s) (ring_ops (<[i := p']> (procs s))) (claimed s)).
Proof.
  intros Hi Hp Hr Hp'. rewrite ring_ops_insert, Hp' by (by eapply lookup_lt_Some).
  apply (ss_ret (ring_of s) i o); [|done]. cbn. by rewrite lookup_ring_ops, Hi.
Qed.

Lemma ring_call s i p o p' :
  procs s !! i = Some p -> op_of p = None -> is_call o -> op_of p' = Some o ->
  sys_step (ring_of s) (mkSys (task_queue s) (ring_ops (<[i := p']> (procs s))) (claimed s)).
Proof.
  intros Hi Hp Hc Hp'. rewrite ring_ops_insert, Hp' by (by eapply lookup_lt_Some).
  apply (ss_call (ring_of s) i o); [|done]. cbn. by rewrite lookup_ring_ops, Hi.
Qed.

(** A caller whose push was refused starts over. *)
Lemma ring_retry s i task :
  procs s !! i = Some (Enqueue task (PushRet false)) ->
  rtc sys_step (ring_of s)
    (mkSys (task_queue s) (ring_ops (<[i := Enqueue task (PushLoad task)]> (procs s))) (claimed s)).
Proof.
  intros Hi. pose proof (lookup_lt_Some _ _ _ Hi) as Hlt.
  eapply rtc_l; [eapply (ring_return s i _ _ EnqueueDone Hi); done|].
  pose (s1 := set_proc s i EnqueueDone).
  assert (H1 : procs s1 !! i = Some EnqueueDone) by (cbn; by apply list_lookup_insert_eq).
  pose proof (ring_call s1 i EnqueueDone (PushLoad task) (Enqueue task (PushLoad task)) H1 eq_refl I eq_refl) as Hc.
  cbn in Hc. rewrite list_insert_insert_eq in Hc. by apply rtc_once.
Qed.

(** Every way a thread can move, with what it changes. *)
Inductive moved s (i : nat) : proc A -> proc A -> pool_state A -> Prop :=
  | mv_access sp p o q' o' k :
      (exists task, k = Enqueue task) \/ k = Popping -> p = k o ->
      op_next sp (task_queue s) o = Some (q', o') ->
      moved s i p (k o') (set_proc (set_ring s q' (claimed s ++ logged o o')) i (k o'))
  | mv_accepted task : moved s i (Enqueue task (PushRet true)) EnqueueRelease (set_proc s i EnqueueRelease)
  | mv_retry task : moved s i (Enqueue task (PushRet false)) (Enqueue task (PushLoad task))
      (set_proc s i (Enqueue task (PushLoad task)))
  | mv_release : moved s i EnqueueRelease EnqueueDone
      (set_proc (set_permits s (S (tasks_available s))) i EnqueueDone)
  | mv_acquire n : tasks_available s = S n ->
      moved s i Acquire (Popping PopLoad) (set_proc (set_permits s n) i (Popping PopLoad))
  | mv_got task : moved s i (Popping (PopRet (Some (Some task)))) (Running task)
      (set_proc (set_active s (S (active_tasks s)) (executed s)) i (Running task))
  | mv_none : moved s i (Popping (PopRet None)) CheckStop (set_proc s i CheckStop)
  | mv_run task : moved s i (Running task) Acquire
      (set_proc (set_active s (pred (active_tasks s)) (executed s ++ [task])) i Acquire)
  | mv_exit : stop_requested s = true -> moved s i CheckStop Exited (set_proc s i Exited)
  | mv_waste : stop_requested s = false -> moved s i CheckStop Acquire (set_proc (waste s) i Acquire)
  | mv_stop : moved s i RequestStop ReleaseAll (set_proc (set_stop s) i ReleaseAll)
  | mv_release_all : moved s i ReleaseAll Joining
      (set_proc (set_permits s (tasks_available s + thread_count s)) i Joining)
  | mv_join : Forall (fun w => is_worker w = true -> has_exited w) (procs s) ->
      moved s i Joining Joined (set_proc s i Joined).

Lemma proc_next_moved s i sp s' :
  proc_next s i sp = Some s' -> exists p p', procs s !! i = Some p /\ moved s i p p' s'.
Proof.
  unfold proc_next. destruct (procs s !! i) as [p|] eqn:Hi; [|done]. cbn. intros H. exists p.
  assert (Hr : forall o k s1, ring_next s i sp o k = Some s1 -> (exists task, k = Enqueue task) \/ k = Popping ->
               exists p', moved s i (k o) p' s1).
  { intros o k s1 Hs Hk. unfold ring_next in Hs. destruct (op_next sp (task_queue s) o) as [[q' o']|] eqn:E; [|done].
    injection Hs as <-. exists (k o'). by eapply mv_access. }
  enough (exists p', moved s i p p' s') as [p' Hm] by (by exists p').
  destruct p as [task o| | | |o|task| | | | | |]; cbn -[ring_next] in H; simplify_eq; try by eexists; constructor.
  - destruct o as [| | | | |[]| | | | | |]; cbn -[ring_next] in H; simplify_eq; try by eexists; constructor.
    all: destruct (ring_next s i sp _ _) eqn:E; simplify_eq; eapply Hr; eauto.
  - destruct (tasks_available s) eqn:E; simplify_eq. eexists. by apply mv_acquire.
  - destruct o as [| | | | |[]| | | | | |[[]|]]; cbn -[ring_next] in H; simplify_eq; try by eexists; constructor.
    all: destruct (ring_next s i sp _ _) eqn:E; simplify_eq; eapply Hr; eauto.
  - destruct (stop_requested s) eqn:E; simplify_eq; eexists; by constructor.
  - case_decide; simplify_eq. eexists. by constructor.
Qed.

Lemma moved_ring s i p p' s' : procs s !! i = Some p -> moved s i p p' s' ->
  rtc sys_step (ring_of s) (ring_of s').
Proof.
  intros Hi Hm. destruct Hm; unfold ring_of; cbn;
    try (rewrite (ring_quiet s i _ _ Hi) by done; apply rtc_refl).
  - subst p. apply rtc_once. eapply ring_access; [exact Hi| |done|]; naive_solver.
  - apply rtc_once. eapply (ring_return s i _ _ _ Hi); done.
  - by apply ring_retry.
  - apply rtc_once. eapply (ring_call s i _ PopLoad _ Hi); done.
  - apply rtc_once. eapply (ring_return s i _ _ _ Hi); done.
  - apply rtc_once. eapply (ring_return s i _ _ _ Hi); done.
Qed.

Lemma pool_step_ring s s' : pool_step s s' -> rtc sys_step (ring_of s) (ring_of s').
Proof.
  intros Hst. destruct Hst as [s i sp s' Hn|s task Hs|s Hd].
  - apply proc_next_moved in Hn as (p & p' & Hi & Hm). by eapply moved_ring.
  - unfold ring_of. cbn. rewrite ring_ops_app. cbn. apply rtc_once.
    apply (ss_call (ring_of s)); [|done]. cbn. rewrite lookup_ring_ops, lookup_ge_None_2; done.
  - unfold ring_of. cbn. rewrite ring_ops_app. apply rtc_refl.
Qed.

(** * Accounts *)

(** Tasks taken from the ring and not yet run. *)
Definition inflight (lg : list A) p : list A :=
  match p with
  | Popping (PopTake x) => option_list (lg !! x)
  | Popping (PopRelease _ (Some task)) | Popping (PopRet (Some (Some task))) | Running task => [task]
  | _ => []
  end.

(** Threads that exist only after a stop request. *)
Definition after_stop p : Prop :=
  match p with Exited | ReleaseAll | Joining | Joined => True | _ => False end.

Record pool_inv (C N : nat) s : Prop := {
  pi_ring : ring_inv C (ring_of s);
  pi_procs : Forall proc_ok (procs s);
  pi_workers : sum_list_with worker (procs s) = N;
  pi_destructor : sum_list_with destructor (procs s) <= 1;
  pi_stop : Forall (fun p => after_stop p -> stop_requested s = true) (procs s);
  pi_stopped : stop_requested s = true -> 1 <= sum_list_with destructor (procs s);
  pi_permits : tasks_available s + sum_list_with weight (procs s) + wasted s + dequeue_pos (task_queue s)
               = enqueue_pos (task_queue s) + N * sum_list_with released (procs s);
  pi_tasks : take (dequeue_pos (task_queue s)) (claimed s)
             ≡ₚ executed s ++ mjoin (inflight (claimed s) <$> procs s)
}.

Lemma thread_count_sum s : thread_count s = sum_list_with worker (procs s).
Proof.
  unfold thread_count. induction (procs s) as [|p l IH]; [done|]. rewrite filter_cons.
  cbn. unfold worker at 1. case_decide as E; [rewrite E; cbn; lia|].
  destruct (is_worker p); [done|]. done.
Qed.

Lemma mjoin_insert_perm {B} (f : B -> list A) (l : list B) i x y :
  l !! i = Some x -> mjoin (f <$> <[i := y]> l) ++ f x ≡ₚ mjoin (f <$> l) ++ f y.
Proof.
  revert i. induction l as [|z l IH]; intros [|i] Hi; try done; cbn in *.
  - injection Hi as ->. rewrite <- !app_assoc, (Permutation_app_comm (mjoin (f <$> l)) (f x)).
    rewrite (Permutation_app_comm (mjoin (f <$> l)) (f y)), !app_assoc.
    by rewrite (Permutation_app_comm (f x)).
  - rewrite <- !app_assoc. by rewrite (IH _ Hi).
Qed.

(** The in-flight tasks after thread [i] moves from [p] to [p']. *)
Lemma inflight_move (lg : list A) l i p p' (ex ex' pre pre' : list A) :
  l !! i = Some p ->
  pre ≡ₚ ex ++ mjoin (inflight lg <$> l) ->
  pre' ++ ex ++ inflight lg p ≡ₚ pre ++ ex' ++ inflight lg p' ->
  pre' ≡ₚ ex' ++ mjoin (inflight lg <$> <[i := p']> l).
Proof.
  intros Hi Hpre Hd. pose proof (mjoin_insert_perm (inflight lg) l i p p' Hi) as Hj.
  apply (Permutation_app_inv_r (ex ++ inflight lg p)). rewrite Hd, Hpre.
  rewrite <- !app_assoc. 
  transitivity (ex ++ ex' ++ (mjoin (inflight lg <$> l) ++ inflight lg p')).
  { apply Permutation_app_head. rewrite !app_assoc. apply Permutation_app_tail, Permutation_app_comm. }
  rewrite <- Hj. rewrite (Permutation_app_comm ex). rewrite <- !app_assoc. apply Permutation_app_head.
  apply Permutation_app_head. apply Permutation_app_comm.
Qed.
End proj.

(** * Preservation *)

Section preserve.
Context {A : Type} (C N : nat) (HC : 2 <= C) (Hpow : exists k, C = 2 ^ k).
Implicit Types (s : pool_state A) (p : proc A) (l : list (proc A)) (o : op A).

Lemma inflight_grow s lg' : ring_inv C (ring_of s) ->
  inflight (claimed s ++ lg') <$> procs s = inflight (claimed s) <$> procs s.
Proof.
  intros Hi. apply list_fmap_ext. intros i p Hp.
  destruct p as [| | | |o| | | | | | |]; try done. destruct o as [| | | | | | | | |x| |]; try done. cbn.
  assert (Ho : ops (ring_of s) !! i = Some (PopTake x)) by (cbn; by rewrite lookup_ring_ops, Hp).
  destruct (inv_ops _ _ Hi _ _ Ho) as [Hx _]. pose proof (inv_log _ _ Hi). pose proof (inv_le _ _ Hi).
  cbn in *. rewrite lookup_app_l; [done|lia].
Qed.

(** An access moves a task from the ring to the worker exactly when it claims it. *)
Lemma access_tasks s i k o sp q' o' :
  ring_inv C (ring_of s) -> procs s !! i = Some (k o) ->
  (exists task, k = Enqueue task) \/ k = Popping -> proc_ok (k o) ->
  op_next sp (task_queue s) o = Some (q', o') ->
  let lg := claimed s ++ logged o o' in
  take (dequeue_pos q') lg ++ inflight lg (k o)
    ≡ₚ take (dequeue_pos (task_queue s)) (claimed s) ++ inflight lg (k o').
Proof.
  intros Hi Hp Hk Hok Hn lg. pose proof (inv_log _ _ Hi) as Hlog. pose proof (inv_le _ _ Hi) as Hle. cbn in Hlog, Hle.
  assert (Htake : take (dequeue_pos (task_queue s)) lg = take (dequeue_pos (task_queue s)) (claimed s))
    by (apply take_app_le; lia).
  assert (Ho : ops (ring_of s) !! i = Some o).
  { cbn. rewrite lookup_ring_ops, Hp. by destruct Hk as [[? ->]| ->]. }
  pose proof (inv_ops _ _ Hi _ _ Ho) as Hop. destruct (op_next_account _ _ _ _ _ Hn) as [Hpush Hpop].
  destruct Hk as [[task ->]| ->].
  { destruct (Hpush task Hok) as (_ & -> & _). by rewrite Htake. }
  clear Hpush. destruct (Hpop Hok) as (_ & _ & Hacc). cbn in Hok.
  unfold op_next in Hn. destruct o as [| | | | | | |x|x|x|x out|]; try done; cbn in Hn, Hop;
    try rewrite (slot_residue _ Hpow (ring_of s) _ Hi : slot (task_queue s) _ = _) in Hn;
    try (destruct (cells (task_queue s) !! _) as [c|] eqn:Hc; cbn in Hn; [|done]);
    repeat (case_decide; cbn in Hn); simplify_eq; unfold lg in *; cbn in *; rewrite ?app_nil_r in *; try done.
  - destruct Hop as [_ Hs]. destruct_and?. subst x. specialize (Hs eq_refl).
    apply (seq_at_Some C (ring_of s)) in Hs as (c & Hc & Hsc). destruct (phase_full _ HC _ _ _ Hi Hc Hsc) as (Hlt & _).
    destruct (lookup_lt_is_Some_2 (claimed s) (dequeue_pos (task_queue s))) as [v Hv]; [by rewrite Hlog|].
    rewrite Nat.add_1_r, (take_S_r _ _ _ Hv), Hv. done.
  - destruct Hop as [Hlt Hs]. apply (seq_at_Some C (ring_of s)) in Hs as (c0 & Hc0 & Hsc). cbn in Hc0.
    assert (c0 = c) as -> by congruence. destruct (phase_full _ HC _ _ _ Hi Hc0 Hsc) as (Hx & -> & _).
    cbn in *. destruct (lookup_lt_is_Some_2 (claimed s) x) as [v ->]; [lia|]. done.
Qed.

Lemma moved_procs s i p p' s' : moved s i p p' s' -> procs s' = <[i := p']> (procs s).
Proof. by destruct 1. Qed.

Lemma moved_kind s i p p' s' : proc_ok p -> moved s i p p' s' ->
  proc_ok p' /\ worker p' = worker p /\ destructor p' = destructor p /\
  (after_stop p' -> after_stop p \/ stop_requested s' = true) /\
  (stop_requested s = true -> stop_requested s' = true) /\
  (stop_requested s' = true -> stop_requested s = true \/ destructor p = 1).
Proof.
  intros Hok Hm. destruct Hm as [sp p o q' o' k Hk -> Hn| | | | | | | | | | | |]; cbn; try tauto.
  destruct (op_next_account _ _ _ _ _ Hn) as [Hpush Hpop].
  destruct Hk as [[task ->]| ->]; cbn in *.
  - destruct (Hpush _ Hok). tauto.
  - destruct (Hpop Hok). tauto.
Qed.

Lemma moved_permits s i p p' s' :
  procs s !! i = Some p -> proc_ok p -> moved s i p p' s' -> thread_count s = N ->
  tasks_available s' + wasted s' + weight p' + dequeue_pos (task_queue s') + enqueue_pos (task_queue s) + N * released p
  = tasks_available s + wasted s + weight p + dequeue_pos (task_queue s) + enqueue_pos (task_queue s') + N * released p'.
Proof.
  intros Hi Hok Hm HN. destruct Hm as [sp p o q' o' k Hk -> Hn| | | | | | | | | | | |]; cbn [task_queue tasks_available wasted set_proc set_ring set_permits set_active set_stop waste]; try (cbn; lia).
  destruct (op_next_account _ _ _ _ _ Hn) as [Hpush Hpop].
  destruct Hk as [[task ->]| ->]; cbn [released].
  - destruct (Hpush _ Hok) as (_ & ? & ?). lia.
  - destruct (Hpop Hok) as (_ & ? & ?). lia.
Qed.

Lemma moved_tasks s i p p' s' :
  ring_inv C (ring_of s) -> procs s !! i = Some p -> proc_ok p -> moved s i p p' s' ->
  take (dequeue_pos (task_queue s)) (claimed s) ≡ₚ executed s ++ mjoin (inflight (claimed s) <$> procs s) ->
  take (dequeue_pos (task_queue s')) (claimed s') ≡ₚ executed s' ++ mjoin (inflight (claimed s') <$> procs s').
Proof.
  intros Hi Hp Hok Hm Ht.
  destruct Hm as [sp p o q' o' k Hk -> Hn| | | | | | | | | | | |];
    [|cbn; eapply inflight_move; [exact Hp|exact Ht|]; cbn; rewrite ?app_nil_r; try done..].
  - cbn. rewrite <- (inflight_grow s (logged o o') Hi) in Ht.
    eapply inflight_move; [exact Hp|exact Ht|].
    pose proof (access_tasks s i k o sp q' o' Hi Hp Hk Hok Hn) as Ha. cbn in Ha.
    rewrite (Permutation_app_comm (executed s)), app_assoc, Ha, <- app_assoc.
    apply Permutation_app_head, Permutation_app_comm.
Qed.

Lemma moved_inv s i p p' s' :
  pool_inv C N s -> procs s !! i = Some p -> moved s i p p' s' -> pool_inv C N s'.
Proof.
  intros Hi Hp Hm. pose proof (pi_procs _ _ _ Hi) as Hall. rewrite Forall_lookup in Hall.
  pose proof (Hall _ _ Hp) as Hok.
  destruct (moved_kind _ _ _ _ _ Hok Hm) as (Hok' & Hw & Hd & Ha & Hst & Hst').
  pose proof (moved_procs _ _ _ _ _ Hm) as Hpr.
  pose proof (sum_list_with_insert worker _ _ _ p' Hp) as Sw.
  pose proof (sum_list_with_insert destructor _ _ _ p' Hp) as Sd.
  pose proof (sum_list_with_insert weight _ _ _ p' Hp) as Swt.
  pose proof (sum_list_with_insert released _ _ _ p' Hp) as Sr.
  split; rewrite ?Hpr.
  - eapply (rtc_preserve (ring_inv C)); [|by eapply moved_ring|apply Hi]. intros. by eapply sys_step_inv.
  - apply Forall_insert; [apply Hi|done].
  - rewrite <- (pi_workers _ _ _ Hi). lia.
  - pose proof (pi_destructor _ _ _ Hi). lia.
  - pose proof (pi_stop _ _ _ Hi) as Hs. pose proof Hs as Hs0. rewrite Forall_lookup in Hs0.
    apply Forall_insert; [|naive_solver]. eapply Forall_impl; [exact Hs|]. naive_solver.
  - intros Hs%Hst'. destruct Hs as [Hs|Hs]; [apply (pi_stopped _ _ _ Hi) in Hs; lia|].
    assert (destructor p <= sum_list_with destructor (procs s)) by (by eapply sum_list_with_in, list_elem_of_lookup_2). lia.
  - pose proof (pi_permits _ _ _ Hi). pose proof (pi_workers _ _ _ Hi).
    pose proof (moved_permits s i p p' s' Hp Hok Hm) as Hacc. rewrite thread_count_sum in Hacc.
    specialize (Hacc ltac:(lia)). nia.
  - rewrite <- Hpr. eapply moved_tasks; eauto; apply Hi.
Qed.

Lemma spawn_inv s p :
  pool_inv C N s -> rtc sys_step (ring_of s) (ring_of (spawn s p)) -> proc_ok p ->
  worker p = 0 -> weight p = 0 -> released p = 0 -> inflight (claimed s) p = [] -> ~ after_stop p ->
  sum_list_with destructor (procs s) + destructor p <= 1 ->
  pool_inv C N (spawn s p).
Proof.
  intros Hi Hr Hok Hw Hwt Hrl Hf Ha Hd. split; cbn; rewrite ?sum_list_with_app; cbn; rewrite ?Hw, ?Hwt, ?Hrl.
  - eapply (rtc_preserve (ring_inv C)); [|exact Hr|apply Hi]. intros. by eapply sys_step_inv.
  - apply Forall_app. split; [apply Hi|by constructor].
  - rewrite !Nat.add_0_r. apply Hi.
  - lia.
  - apply Forall_app. split; [apply Hi|constructor; [done|constructor]].
  - intros Hs%(pi_stopped _ _ _ Hi). lia.
  - pose proof (pi_permits _ _ _ Hi). lia.
  - rewrite fmap_app, join_app. cbn. rewrite Hf, !app_nil_r. apply Hi.
Qed.

Lemma pool_step_inv s s' : pool_inv C N s -> pool_step s s' -> pool_inv C N s'.
Proof.
  intros Hi Hst. pose proof (pool_step_ring _ _ Hst) as Hr. destruct Hst as [s i sp s' Hn|s task Hs|s Hd].
  - apply proc_next_moved in Hn as (p & p' & Hp & Hm). by eapply moved_inv.
  - apply spawn_inv; cbn; try tauto. pose proof (pi_destructor _ _ _ Hi). lia.
  - apply spawn_inv; cbn; try tauto.
    assert (sum_list_with destructor (procs s) = 0); [|lia].
    clear -Hd. induction Hd as [|p l Hp _ IH]; [done|]. cbn. destruct p; cbn; naive_solver.
Qed.
End preserve.

Lemma sum_list_with_replicate {A} (f : A -> nat) n x : sum_list_with f (replicate n x) = n * f x.
Proof. induction n as [|n IH]; cbn; [done|]. by rewrite IH. Qed.

Lemma new_pool_inv {A} cap n hw :
  pool_inv (ring_capacity cap) (num_workers n hw) (new_pool cap n hw : pool_state A).
Proof.
  split; cbn; rewrite ?sum_list_with_replicate; cbn; try lia; try done.
  - replace (ring_of (new_pool cap n hw)) with (sys_init cap : system A); [apply sys_init_inv|].
    unfold ring_of, sys_init. f_equal. apply map_eq. intros i. rewrite lookup_ring_ops. cbn.
    destruct (decide (i < num_workers n hw)); [by rewrite lookup_replicate_2|].
    rewrite lookup_ge_None_2; [done|]. rewrite length_replicate. lia.
  - apply Forall_replicate. done.
  - apply Forall_replicate. done.
  - induction (num_workers n hw); cbn; auto.
Qed.

Lemma pool_reachable_inv {A} cap n hw (s : pool_state A) :
  rtc pool_step (new_pool cap n hw) s -> pool_inv (ring_capacity cap) (num_workers n hw) s.
Proof.
  intros Hr. eapply rtc_preserve; [|exact Hr|apply new_pool_inv].
  intros. eapply pool_step_inv; [apply ring_ge_2|apply ring_pow2|done..].
Qed.
