(* ===== verification/ThreadPoolTheorems.v ===== *)
(** What the thread pool of [ThreadPool.v] guarantees, and where its wake-up protocol
    breaks. *)

From Stdlib Require Import ZArith Lia.
From stdpp Require Import base gmap relations numbers list.
From S2P Require Import Prelude MpmcQueue MpmcInv MpmcTheorems ThreadPool ThreadPoolInv.

(** * Threads that cannot move *)

Section stuck.
Context {A : Type} (C N : nat) (HC : 2 <= C) (Hpow : exists k, C = 2 ^ k).
Implicit Types (s : pool_state A) (p : proc A) (o : op A).

(** A call inside the ring can always make its next access. *)
Lemma op_next_progress (y : system A) i o :
  ring_inv C y -> ops y !! i = Some o -> ~ is_ret o -> is_Some (op_next false (queue y) o).
Proof.
  intros Hi Ho Hr. unfold op_next.
  assert (Hcell : forall x, exists c, cells (queue y) !! slot (queue y) x = Some c).
  { intros x. rewrite (slot_residue C Hpow y x Hi). by apply cell_exists. }
  destruct o; try (exfalso; by apply Hr); cbn; try (destruct (Hcell pos) as [c ->]; cbn);
    repeat case_decide; eauto.
Qed.

(** The only threads that cannot move: finished ones, sleepers, and a blocked join. *)
Definition at_rest s p : Prop :=
  match p with
  | EnqueueDone | Exited | Joined => True
  | Acquire => tasks_available s = 0
  | Joining => ~ Forall (fun w => is_worker w = true -> has_exited w) (procs s)
  | _ => False
  end.

Lemma stuck_at_rest s : pool_inv C N s -> stuck s -> Forall (at_rest s) (procs s).
Proof.
  intros Hi Hs. apply Forall_lookup. intros i p Hp. specialize (Hs i false). unfold proc_next in Hs.
  rewrite Hp in Hs. cbn in Hs. pose proof (pi_procs _ _ _ Hi) as Hk. rewrite Forall_lookup in Hk.
  specialize (Hk _ _ Hp).
  assert (Hop : forall o, op_of p = Some o -> ~ is_ret o -> is_Some (op_next false (task_queue s) o)).
  { intros o Ho. apply (op_next_progress (ring_of s) i); [apply Hi|]. cbn. by rewrite lookup_ring_ops, Hp. }
  assert (Hret : forall o, op_of p = Some o -> op_ok C (ring_of s) o).
  { intros o Ho. apply (inv_ops _ _ (pi_ring _ _ _ Hi) i). cbn. by rewrite lookup_ring_ops, Hp. }
  destruct p as [task o| | | |o|task| | | | | |]; cbn in Hs |- *; try done.
  - specialize (Hop o eq_refl). unfold ring_next in Hs.
    destruct o as [| | | | |[]| | | | | |]; try done; destruct (Hop ltac:(tauto)) as [[q' o'] E]; by rewrite E in Hs.
  - by destruct (tasks_available s).
  - specialize (Hop o eq_refl). specialize (Hret o eq_refl). unfold ring_next in Hs.
    destruct o as [| | | | |[]| | | | | |[[]|]]; try done; try (by destruct Hret);
      destruct (Hop ltac:(tauto)) as [[q' o'] E]; by rewrite E in Hs.
  - by destruct (stop_requested s).
  - case_decide; done.
Qed.

End stuck.

Lemma at_rest_sums {A} (s : pool_state A) l : Forall (at_rest s) l ->
  sum_list_with released l = sum_list_with destructor l /\
  mjoin (inflight (claimed s) <$> l) = [] /\
  sum_list_with weight l <= sum_list_with worker l /\
  (tasks_available s <> 0 -> sum_list_with weight l = sum_list_with worker l) /\
  (Forall (fun p => ~ after_stop p) l -> sum_list_with weight l = 0) /\
  (sum_list_with weight l = sum_list_with worker l -> Forall (fun w => is_worker w = true -> has_exited w) l).
Proof.
  induction 1 as [|p l Hp _ IH]; [by repeat split|].
  destruct IH as (I1 & I2 & I3 & I4 & I5 & I6). destruct p; try done; cbn in Hp |- *.
  all: split_and!; try lia; try done.
  all: try (intros H; apply Forall_cons in H as [Hna H]; specialize (I5 H); cbn in Hna; lia || tauto).
  all: intros H; constructor; cbn; try done; apply I6; lia.
Qed.

(** Without a wasted permit, a pool at rest that was not stopped has run everything. *)
Lemma stuck_drained {A} cap n hw (s : pool_state A) :
  pool_inv (ring_capacity cap) (num_workers n hw) s -> stuck s -> wasted s = 0 -> stop_requested s = false ->
  tasks_available s = 0 /\ drop (dequeue_pos (task_queue s)) (claimed s) = [] /\ executed s ≡ₚ claimed s.
Proof.
  intros Hi Hs Hw Hst.
  pose proof (stuck_at_rest _ _ (ring_ge_2 cap) (ring_pow2 cap) s Hi Hs) as Hrest.
  destruct (at_rest_sums s _ Hrest) as (S1 & S2 & S3 & S4 & S5 & S6).
  pose proof (pi_permits _ _ _ Hi) as Hp. pose proof (pi_workers _ _ _ Hi) as HN.
  pose proof (inv_le _ _ (pi_ring _ _ _ Hi)) as Hle. pose proof (inv_log _ _ (pi_ring _ _ _ Hi)) as Hlog.
  assert (Hpos : 1 <= num_workers n hw) by (unfold num_workers; repeat case_decide; lia).
  cbn in Hle, Hlog.
  assert (Hna : Forall (fun p => ~ after_stop p) (procs s)).
  { eapply Forall_impl; [apply (pi_stop _ _ _ Hi)|]. cbn. rewrite Hst. naive_solver. }
  specialize (S5 Hna). assert (Hr0 : sum_list_with released (procs s) = 0).
  { clear -Hna. induction Hna as [|p l Hp _ IH]; [done|]. destruct p; cbn in *; tauto || lia. }
  assert (tasks_available s = 0) by (destruct (decide (tasks_available s = 0)); [done|]; lia).
  assert (Hd : drop (dequeue_pos (task_queue s)) (claimed s) = []) by (apply drop_ge; lia).
  split_and!; [done..|]. pose proof (pi_tasks _ _ _ Hi) as Ht. rewrite S2, app_nil_r in Ht.
  rewrite <- Ht. rewrite take_ge; [done|lia].
Qed.

(** * Properties *)

(** Every task a caller gets into the ring is, at any moment of any interleaving, in
    exactly one place: executed, in the hands of one worker, or still waiting in the ring.
    No task is run twice, dropped or made up. *)
Theorem tasks_accounted_for {A} cap n hw (s : pool_state A) :
  rtc pool_step (new_pool cap n hw) s ->
  claimed s ≡ₚ executed s ++ mjoin (inflight (claimed s) <$> procs s)
                 ++ drop (dequeue_pos (task_queue s)) (claimed s).
Proof.
  intros Hr. pose proof (pool_reachable_inv _ _ _ _ Hr) as Hi.
  rewrite <- (take_drop (dequeue_pos (task_queue s)) (claimed s)) at 1.
  by rewrite (pi_tasks _ _ _ Hi), <- app_assoc.
Qed.

(** A run of the pool, thread by thread. *)
Inductive pool_event (A : Type) := Move (i : nat) | Submit (task : A) | Destroy.
Arguments Move {A}. Arguments Submit {A}. Arguments Destroy {A}.

Definition no_destructor {A} (p : proc A) : bool :=
  match p with RequestStop | ReleaseAll | Joining | Joined => false | _ => true end.

Definition pool_next {A} (s : pool_state A) (e : pool_event A) : option (pool_state A) :=
  match e with
  | Move i => proc_next s i false
  | Submit task => if stop_requested s then None else Some (spawn s (Enqueue task (PushLoad task)))
  | Destroy => if forallb no_destructor (procs s) then Some (spawn s RequestStop) else None
  end.

Fixpoint pool_run {A} (es : list (pool_event A)) (s : pool_state A) : option (pool_state A) :=
  match es with
  | [] => Some s
  | e :: es' => s' ← pool_next s e; pool_run es' s'
  end.

Lemma pool_next_sound {A} (s s' : pool_state A) e : pool_next s e = Some s' -> pool_step s s'.
Proof.
  destruct e as [i|task|]; cbn.
  - intros H. by eapply ps_move.
  - destruct (stop_requested s) eqn:E; [done|]. intros [= <-]. by apply ps_submit.
  - destruct (forallb _ _) eqn:E; [|done]. intros [= <-]. apply ps_destroy.
    apply Forall_forall. intros p Hp.
    rewrite List.forallb_forall in E. apply list_elem_of_In in Hp. specialize (E _ Hp). by destruct p.
Qed.

Lemma pool_run_sound {A} (es : list (pool_event A)) s s' : pool_run es s = Some s' -> rtc pool_step s s'.
Proof.
  revert s. induction es as [|e es IH]; intros s; cbn; [by intros [= ->]|].
  destruct (pool_next s e) as [s1|] eqn:E; [|done]. cbn. intros H.
  eapply rtc_l; [by eapply pool_next_sound|by apply IH].
Qed.

Definition moves {A} (i k : nat) : list (pool_event A) := replicate k (Move i).

(** One worker (thread 0); a caller (thread 1) submits task 7; the worker takes and runs it. *)
Definition one_task : list (pool_event nat) :=
  Submit 7 :: moves 1 7 ++ moves 0 7 ++ moves 0 1.

Lemma tasks_accounted_for_witness :
  exists s, pool_run one_task (new_pool 2 1 0) = Some s /\ executed s = [7] /\
    claimed s ≡ₚ executed s ++ mjoin (inflight (claimed s) <$> procs s)
                 ++ drop (dequeue_pos (task_queue s)) (claimed s).
Proof.
  destruct (pool_run one_task (new_pool 2 1 0)) as [s|] eqn:E; [|vm_compute in E; discriminate].
  exists s. split; [reflexivity|].
  pose proof (tasks_accounted_for 2 1 0 s (pool_run_sound _ _ _ E)) as H.
  vm_compute in E. injection E as <-. split; [reflexivity|]. exact H.
Defined.

(** C19: If no permit was ever wasted, the pool cannot get stuck with work left.  When no
    thread can move and no stop was requested, every accepted task has been run, the ring
    is empty and the semaphore is at zero; when the destructor has started, all workers
    have exited and the join has returned. *)
Theorem no_waste_no_stall {A} cap n hw (s : pool_state A) :
  rtc pool_step (new_pool cap n hw) s -> stuck s -> wasted s = 0 ->
  (stop_requested s = false ->
     tasks_available s = 0 /\ drop (dequeue_pos (task_queue s)) (claimed s) = [] /\
     executed s ≡ₚ claimed s) /\
  (stop_requested s = true ->
     Forall (fun w => is_worker w = true -> has_exited w) (procs s) /\ Joined ∈ procs s).
Proof.
  intros Hr Hs Hw. pose proof (pool_reachable_inv _ _ _ _ Hr) as Hi. split; intros Hst.
  - by eapply stuck_drained.
  - pose proof (stuck_at_rest _ _ (ring_ge_2 cap) (ring_pow2 cap) s Hi Hs) as Hrest.
    destruct (at_rest_sums s _ Hrest) as (S1 & S2 & S3 & S4 & S5 & S6).
    pose proof (pi_permits _ _ _ Hi) as Hp. pose proof (pi_workers _ _ _ Hi) as HN.
    pose proof (inv_le _ _ (pi_ring _ _ _ Hi)) as Hle. cbn in Hle.
    assert (Hpos : 1 <= num_workers n hw) by (unfold num_workers; repeat case_decide; lia).
    pose proof (pi_stopped _ _ _ Hi Hst) as Hd1. pose proof (pi_destructor _ _ _ Hi) as Hd2.
    assert (Hr1 : sum_list_with released (procs s) = 1) by lia. rewrite Hr1 in Hp.
    assert (Hall : Forall (fun w => is_worker w = true -> has_exited w) (procs s)).
    { apply S6. destruct (decide (tasks_available s = 0)); [lia|]. by apply S4. }
    split; [exact Hall|]. clear -Hr1 Hrest Hall.
    assert (exists p, p ∈ procs s /\ 1 <= released p) as (p & Hin & Hp1).
    { revert Hr1. generalize (procs s). induction l as [|p l IH]; cbn; [lia|]. intros E.
      destruct (decide (1 <= released p)); [exists p; split; [left|done]|].
      destruct IH as (x & ? & ?); [lia|]. exists x. split; [by right|done]. }
    rewrite Forall_forall in Hrest. specialize (Hrest _ Hin). destruct p; cbn in *; try lia; done.
Qed.

Definition stuck_dec {A} (s : pool_state A) : bool :=
  forallb (fun i => match proc_next s i false, proc_next s i true with None, None => true | _, _ => false end)
          (seq 0 (length (procs s))).

Lemma stuck_dec_sound {A} (s : pool_state A) : stuck_dec s = true -> stuck s.
Proof.
  unfold stuck_dec. rewrite List.forallb_forall. intros H i sp.
  destruct (decide (i < length (procs s))) as [Hlt|Hge].
  - specialize (H i). rewrite in_seq in H. specialize (H ltac:(lia)).
    destruct sp; destruct (proc_next s i false), (proc_next s i true); done.
  - unfold proc_next. by rewrite lookup_ge_None_2 by lia.
Qed.

Lemma no_waste_no_stall_witness :
  exists s, pool_run one_task (new_pool 2 1 0) = Some s /\ tasks_available s = 0 /\ executed s ≡ₚ claimed s.
Proof.
  destruct (pool_run one_task (new_pool 2 1 0)) as [s|] eqn:E; [|vm_compute in E; discriminate].
  exists s. split; [reflexivity|].
  pose proof (no_waste_no_stall 2 1 0 s (pool_run_sound _ _ _ E)) as H.
  vm_compute in E. injection E as <-.
  destruct H as [H _]; [apply stuck_dec_sound; reflexivity|reflexivity|].
  destruct (H eq_refl) as (H1 & _ & H3). split; [exact H1|exact H3].
Defined.

(** One worker (thread 0) and two callers.  Caller 1 claims the first position and is
    preempted; caller 2 publishes its task and releases its permit; the worker spends that
    permit on the unpublished position; caller 1 finishes; the worker runs its task. *)
Definition lost_wakeup : list (pool_event nat) :=
  Submit 7 :: moves 1 3 ++ Submit 8 :: moves 2 7 ++ moves 0 5 ++ moves 1 4 ++ moves 0 8.

(** The owner then destroys the pool; the worker spends the shutdown permit on the task
    left behind and goes back to sleep. *)
Definition then_destroy : list (pool_event nat) := Destroy :: moves 3 2 ++ moves 0 8.

(** A wake-up can be lost.  With the pool's own queue capacity there is a run after
    which no thread can move although an accepted task waits in the ring, all callers have
    returned and the worker sleeps; and if the pool is then destroyed, the destructor blocks
    in [join] for ever, because the worker used the shutdown permit for that task. *)
Theorem wakeup_lost_and_join_hangs :
  exists s s' : pool_state nat,
    rtc pool_step (new_pool QUEUE_CAPACITY 1 0) s /\ stuck s /\
    procs s = [Acquire; EnqueueDone; EnqueueDone] /\
    executed s = [7] /\ drop (dequeue_pos (task_queue s)) (claimed s) = [8] /\
    rtc pool_step s s' /\ stuck s' /\ procs s' = [Acquire; EnqueueDone; EnqueueDone; Joining].
Proof.
  assert (H : match pool_run lost_wakeup (new_pool QUEUE_CAPACITY 1 0) with
    | Some s => (stuck_dec s, procs s, executed s, drop (dequeue_pos (task_queue s)) (claimed s))
                  = (true, [Acquire; EnqueueDone; EnqueueDone], [7], [8]) /\
        match pool_run then_destroy s with
        | Some s' => (stuck_dec s', procs s') = (true, [Acquire; EnqueueDone; EnqueueDone; Joining])
        | None => False
        end
    | None => False
    end) by (vm_compute; auto).
  revert H. generalize (new_pool (A := nat) QUEUE_CAPACITY 1 0). intros s0 H.
  destruct (pool_run lost_wakeup s0) as [s|] eqn:E; [|done]. destruct H as [Hs H].
  destruct (pool_run then_destroy s) as [s'|] eqn:E'; [|done].
  injection Hs as H1 H2 H3 H4. injection H as H5 H6. exists s, s'.
  apply pool_run_sound in E, E'. apply stuck_dec_sound in H1, H5. by split_and!.
Qed.
