(* ===== verification/Futures.v ===== *)
(** [ThreadPool::submit] and [ThreadPool::submit_cancellable] of [executor/thread_pool.hpp]:
    the promise a call shares with the closure it enqueues, and the future it returns.

    The pool of [ThreadPool.v] runs closures here.  Promises live in a store of shared
    states; a closure holds the index of its promise.  Setting a promise twice throws, and
    an exception that leaves a closure ends the process, so [terminated] is part of the
    state and shown unreachable. *)

From Stdlib Require Import ZArith Lia.
From stdpp Require Import base gmap relations numbers list.
From S2P Require Import Prelude MpmcQueue MpmcInv MpmcTheorems ThreadPool ThreadPoolInv ThreadPoolTheorems.

(** * The program *)

Section futures.
(** The values callables return and the exceptions they throw. *)
Context {V E : Type}.

(** What a call of the callable did: return or throw. *)
Abbreviation returned := (V + E)%type.

(** [TaskFn]: the shared promise and the callable, which may ask its [stop_token] any
    number of times; the list holds the token's answers. *)
Record closure := mkClosure { promise : nat; func : list bool -> returned }.

(** The shared state of a promise and its future: unset, or what was set. *)
Abbreviation shared := (option returned).

(** [set_value] and [set_exception]; [None] is [promise_already_satisfied] thrown. *)
Definition set_promise (p : nat) (r : returned) (ps : list shared) : option (list shared) :=
  match ps !! p with
  | Some None => Some (<[p := Some r]> ps)
  | _ => None
  end.

(** The body of the enqueued lambda.  The [try] block covers the call and [set_value]; an
    exception thrown by the handler leaves the closure. *)
Definition invoke (promise_already_satisfied : E) (c : closure) (answers : list bool) (ps : list shared)
  : option (list shared) :=
  match func c answers with
  | inl v =>
      match set_promise (promise c) (inl v) ps with
      | Some ps' => Some ps'
      | None => set_promise (promise c) (inr promise_already_satisfied) ps
      end
  | inr e => set_promise (promise c) (inr e) ps
  end.

Record future_pool := mkFuturePool {
  pool : pool_state closure;
  promises : list shared;
  submitted : list closure;   (** ghost: every closure made, in the order of the calls *)
  terminated : bool
}.

Definition new_future_pool (capacity num_threads hardware_concurrency : nat) : future_pool :=
  mkFuturePool (new_pool capacity num_threads hardware_concurrency) [] [] false.

(** [make_shared<promise>], [get_future] and the call of [enqueue]. *)
Definition enqueue_with (f : list bool -> returned) (s : future_pool) : option (nat * future_pool) :=
  if stop_requested (pool s) then None
  else let c := mkClosure (length (promises s)) f in
       Some (promise c,
             mkFuturePool (ThreadPool.spawn (pool s) (Enqueue c (PushLoad c)))
                          (promises s ++ [None]) (submitted s ++ [c]) (terminated s)).

(** The closure of [submit] takes a token and does not look at it. *)
Definition submit (f : unit -> returned) (s : future_pool) : option (nat * future_pool) :=
  enqueue_with (fun _ => f ()) s.
Definition submit_cancellable (f : list bool -> returned) (s : future_pool) : option (nat * future_pool) :=
  enqueue_with f s.

(** One move of a thread; the step that ends a task also runs its closure. *)
Definition future_move (satisfied : E) (s : future_pool) (i : nat) (sp : bool) (answers : list bool)
  : option future_pool :=
  p' ← proc_next (pool s) i sp;
  Some match procs (pool s) !! i with
       | Some (Running c) =>
           match invoke satisfied c answers (promises s) with
           | Some ps => mkFuturePool p' ps (submitted s) (terminated s)
           | None => mkFuturePool p' (promises s) (submitted s) true
           end
       | _ => mkFuturePool p' (promises s) (submitted s) (terminated s)
       end.

(** What a token can answer over a run: [false] for a while, and [true] afterwards only if
    a stop has been requested. *)
Definition token_answers (stop : bool) (answers : list bool) : Prop :=
  exists i j, answers = replicate i false ++ replicate j true /\ (stop = false -> j = 0).

(** [future.get()] without blocking. *)
Definition future_of (s : future_pool) (k : nat) : shared := mjoin (promises s !! k).

Context (satisfied : E).

Inductive future_step : future_pool -> future_pool -> Prop :=
  | fs_submit s f k s' : submit f s = Some (k, s') -> future_step s s'
  | fs_submit_cancellable s f k s' : submit_cancellable f s = Some (k, s') -> future_step s s'
  | fs_move s i sp answers s' : token_answers (stop_requested (pool s)) answers ->
      future_move satisfied s i sp answers = Some s' -> future_step s s'
  | fs_destroy s :
      Forall (fun p => p <> RequestStop /\ p <> ReleaseAll /\ p <> Joining /\ p <> Joined) (procs (pool s)) ->
      future_step s (mkFuturePool (ThreadPool.spawn (pool s) RequestStop) (promises s) (submitted s) (terminated s)).

(** * Invariant *)

(** Closures whose caller has not got them into the ring yet. *)
Definition unclaimed (p : proc closure) : list closure :=
  match p with
  | Enqueue c (PushWrite _ _ | PushPublish _ _ | PushRet true) => []
  | Enqueue c _ => [c]
  | _ => []
  end.

(** A promise is set exactly when its closure has run, to what the callable did. *)
Definition settled (s : future_pool) : Prop :=
  forall k c, submitted s !! k = Some c ->
    if decide (k ∈ promise <$> executed (pool s))
    then exists answers, promises s !! k = Some (Some (func c answers))
    else promises s !! k = Some None.

Record future_inv (C N : nat) (s : future_pool) : Prop := {
  fi_pool : pool_inv C N (pool s);
  fi_ids : promise <$> submitted s = seq 0 (length (promises s));
  fi_tasks : submitted s ≡ₚ claimed (pool s) ++ mjoin (unclaimed <$> procs (pool s));
  fi_settled : settled s;
  fi_alive : terminated s = false
}.

Lemma moved_unclaimed (s : pool_state closure) i p p' s' :
  procs s !! i = Some p -> proc_ok p -> moved s i p p' s' ->
  claimed s' ++ mjoin (unclaimed <$> procs s') ≡ₚ claimed s ++ mjoin (unclaimed <$> procs s).
Proof.
  intros Hp Hok Hm. rewrite (moved_procs _ _ _ _ _ Hm).
  pose proof (mjoin_insert_perm unclaimed (procs s) i p p' Hp) as Hj.
  assert (Hc : exists lg, claimed s' = claimed s ++ lg /\ lg ++ unclaimed p' = unclaimed p).
  { destruct Hm as [sp p o q' o' k Hk -> Hn| | | | | | | | | | | |]; cbn;
      try (exists []; by rewrite app_nil_r).
    exists (logged o o'). split; [done|]. destruct Hk as [[task ->]| ->]; [|cbn in Hok].
    - unfold op_next in Hn. cbn in Hok. destruct o as [| | | | |[]| | | | | |]; try done; cbn in Hn;
        try (destruct (cells _ !! _); cbn in Hn; [|done]); repeat (case_decide; cbn in Hn); simplify_eq; cbn in *; repeat case_decide; by subst.
    - unfold op_next in Hn. destruct o; try done; cbn in Hn;
        try (destruct (cells _ !! _); cbn in Hn; [|done]); repeat (case_decide; cbn in Hn); simplify_eq; cbn; repeat case_decide; done. }
  destruct Hc as (lg & -> & Hl). rewrite <- app_assoc. apply Permutation_app_head.
  apply (Permutation_app_inv_r (unclaimed p)). rewrite <- app_assoc, Hj, <- Hl.
  rewrite app_assoc. rewrite (Permutation_app_comm lg), <- app_assoc. done.
Qed.

Lemma moved_executed (s : pool_state closure) i p p' s' : moved s i p p' s' ->
  executed s' = executed s ++ match p with Running c => [c] | _ => [] end.
Proof. by destruct 1 as [sp p o q' o' k [[task ->]| ->] ->| | | | | | | | | | | |]; cbn; rewrite ?app_nil_r. Qed.

Section inv.
Context (C N : nat) (HC : 2 <= C) (Hpow : exists k, C = 2 ^ k).

(** Every closure made is in one place. *)
Lemma closure_places s : future_inv C N s ->
  submitted s ≡ₚ executed (pool s) ++ mjoin (inflight (claimed (pool s)) <$> procs (pool s))
    ++ drop (dequeue_pos (task_queue (pool s))) (claimed (pool s)) ++ mjoin (unclaimed <$> procs (pool s)).
Proof.
  intros Hi. rewrite (fi_tasks _ _ _ Hi).
  rewrite <- (take_drop (dequeue_pos (task_queue (pool s))) (claimed (pool s))) at 1.
  by rewrite (pi_tasks _ _ _ (fi_pool _ _ _ Hi)), <- !app_assoc.
Qed.

Lemma submitted_index s k c : future_inv C N s -> submitted s !! k = Some c ->
  promise c = k /\ k < length (promises s).
Proof.
  clear HC Hpow. intros Hi Hk. pose proof (fi_ids _ _ _ Hi) as Hids.
  assert (Hs : (promise <$> submitted s) !! k = Some (promise c)) by (by rewrite list_lookup_fmap, Hk).
  rewrite Hids in Hs. apply lookup_seq in Hs. lia.
Qed.

(** A closure a worker is about to run has not run before. *)
Lemma running_is_fresh s i c : future_inv C N s -> procs (pool s) !! i = Some (Running c) ->
  submitted s !! promise c = Some c /\ promise c ∉ promise <$> executed (pool s).
Proof.
  intros Hi Hp. pose proof (closure_places s Hi) as Hpl.
  assert (Hin : c ∈ mjoin (inflight (claimed (pool s)) <$> procs (pool s))).
  { apply list_elem_of_join. exists [c]. split; [by left|].
    apply list_elem_of_fmap. exists (Running c). split; [done|]. by eapply list_elem_of_lookup_2. }
  assert (Hsub : c ∈ submitted s) by (rewrite Hpl; set_solver).
  apply list_elem_of_lookup in Hsub as [k Hk]. destruct (submitted_index _ _ _ Hi Hk) as [-> _]. split; [done|].
  pose proof (fi_ids _ _ _ Hi) as Hids. pose proof (NoDup_seq 0 (length (promises s))) as Hnd.
  rewrite <- Hids, Hpl, fmap_app, NoDup_app in Hnd. destruct Hnd as (_ & Hd & _).
  intros Hx%Hd. apply Hx. destruct (submitted_index _ _ _ Hi Hk) as [<- _].
  apply list_elem_of_fmap. exists c. split; [done|]. set_solver.
Qed.

(** Running a closure sets its promise to what its callable did. *)
Lemma invoke_sets s c answers :
  promises s !! promise c = Some None ->
  invoke satisfied c answers (promises s) = Some (<[promise c := Some (func c answers)]> (promises s)).
Proof. intros Hn. unfold invoke, set_promise. rewrite Hn. by destruct (func c answers). Qed.

Lemma move_inv s i sp answers s' :
  future_inv C N s -> future_move satisfied s i sp answers = Some s' -> future_inv C N s'.
Proof.
  intros Hi. unfold future_move. destruct (proc_next (pool s) i sp) as [p1|] eqn:Hn; [|done]. cbn. intros [= <-].
  destruct (proc_next_moved _ _ _ _ Hn) as (p & p' & Hp & Hm).
  pose proof (pi_procs _ _ _ (fi_pool _ _ _ Hi)) as Hok. rewrite Forall_lookup in Hok. specialize (Hok _ _ Hp).
  pose proof (moved_inv C N HC Hpow _ _ _ _ _ (fi_pool _ _ _ Hi) Hp Hm) as Hinv.
  pose proof (moved_unclaimed _ _ _ _ _ Hp Hok Hm) as Hun. pose proof (moved_executed _ _ _ _ _ Hm) as Hex.
  rewrite Hp. destruct Hi as [Hi1 Hi2 Hi3 Hi4 Hi5].
  assert (Hdone : forall q, q = p -> (match q with Running _ => False | _ => True end) ->
            future_inv C N (mkFuturePool p1 (promises s) (submitted s) (terminated s))).
  { intros q -> Hr. split; cbn; [done..|by rewrite Hun| |done].
    intros k c Hk. cbn in *. rewrite Hex. destruct p; try done; rewrite app_nil_r; by apply Hi4. }
  destruct p as [| | | | |c| | | | | |]; try by eapply Hdone. clear Hdone.
  destruct (running_is_fresh s i c) as [Hc Hf]; [by split|done|].
  pose proof (Hi4 _ _ Hc) as Hset. rewrite decide_False in Hset by done.
  rewrite (invoke_sets s c answers Hset). split; cbn; [done| |by rewrite Hun| |done].
  - by rewrite length_insert.
  - intros k c' Hk. cbn in *. rewrite Hex, fmap_app. cbn. specialize (Hi4 _ _ Hk).
    destruct (decide (k = promise c)) as [->|Hne].
    + rewrite decide_True by set_solver. assert (c' = c) as -> by congruence. exists answers.
      apply list_lookup_insert_eq. by eapply lookup_lt_Some.
    + rewrite list_lookup_insert_ne by done. destruct (decide (k ∈ promise <$> executed (pool s))).
      * rewrite decide_True by set_solver. done.
      * rewrite decide_False by set_solver. done.
Qed.

Lemma enqueue_inv s f k s' : future_inv C N s -> enqueue_with f s = Some (k, s') -> future_inv C N s'.
Proof.
  intros Hi. unfold enqueue_with. destruct (stop_requested (pool s)) eqn:Hst; [done|]. cbn. intros [= <- <-].
  assert (Hp : pool_inv C N (ThreadPool.spawn (pool s) (Enqueue (mkClosure (length (promises s)) f)
                 (PushLoad (mkClosure (length (promises s)) f)))))
    by (eapply pool_step_inv; [done|done|apply Hi|by apply ps_submit]).
  pose proof (closure_places s Hi) as Hpl. destruct Hi as [Hi1 Hi2 Hi3 Hi4 Hi5].
  assert (Hl : length (submitted s) = length (promises s)).
  { apply (f_equal length) in Hi2. by rewrite length_fmap, length_seq in Hi2. }
  split; cbn; [done| | | |done].
  - rewrite fmap_app, Hi2, length_app, seq_app. done.
  - rewrite fmap_app, join_app. cbn. rewrite Hi3. by rewrite <- app_assoc.
  - intros j c Hj. cbn in *. destruct (decide (j < length (submitted s))) as [Hlt|Hge].
    + rewrite lookup_app_l in Hj by done. rewrite lookup_app_l by lia. by apply Hi4.
    + assert (j = length (submitted s)) as ->.
      { apply lookup_lt_Some in Hj. rewrite length_app in Hj. cbn in Hj. lia. }
      rewrite decide_False; [rewrite Hl; by rewrite list_lookup_middle by done|].
      intros (c' & Hc' & Hx)%list_elem_of_fmap. assert (Hin : length (submitted s) ∈ promise <$> submitted s).
      { apply list_elem_of_fmap. exists c'. split; [done|]. rewrite Hpl. set_solver. }
      rewrite Hi2 in Hin. apply elem_of_seq in Hin. lia.
Qed.

Lemma future_step_inv s s' : future_inv C N s -> future_step s s' -> future_inv C N s'.
Proof.
  intros Hi Hst. destruct Hst as [s f k s' Hs|s f k s' Hs|s i sp answers s' _ Hm|s Hd].
  - by eapply enqueue_inv.
  - by eapply enqueue_inv.
  - by eapply move_inv.
  - pose proof (pool_step_inv C N HC Hpow _ _ (fi_pool _ _ _ Hi) (ps_destroy _ Hd)) as Hp.
    destruct Hi as [Hi1 Hi2 Hi3 Hi4 Hi5]. split; cbn; try done.
    rewrite fmap_app, join_app. cbn. by rewrite app_nil_r.
Qed.
End inv.

Lemma new_future_pool_inv cap n hw :
  future_inv (ring_capacity cap) (num_workers n hw) (new_future_pool cap n hw).
Proof.
  split; cbn; [apply new_pool_inv|done| |intros k c Hk; cbn in Hk; by rewrite lookup_nil in Hk|done].
  induction (num_workers n hw); cbn; auto.
Qed.

Lemma future_reachable_inv cap n hw s : rtc future_step (new_future_pool cap n hw) s ->
  future_inv (ring_capacity cap) (num_workers n hw) s.
Proof.
  intros Hr. eapply rtc_preserve; [|exact Hr|apply new_future_pool_inv].
  intros. eapply future_step_inv; [apply ring_ge_2|apply ring_pow2|done..].
Qed.

(** Threads at rest hold no closure back. *)
Lemma at_rest_unclaimed (s : pool_state closure) l : Forall (at_rest s) l -> mjoin (unclaimed <$> l) = [].
Proof. induction 1 as [|p l Hp _ IH]; [done|]. destruct p; done || exact IH. Qed.

(** * Properties *)

(** C20: In every interleaving of submissions, workers and destructor, the process never
    terminates on a promise set twice; a future becomes ready exactly when its closure has
    run, with what its callable returned or threw; and if no permit was wasted, a pool in
    which no thread can move and no stop was requested has made every future ready. *)
Theorem futures_resolve cap n hw s :
  rtc future_step (new_future_pool cap n hw) s ->
  terminated s = false /\
  (forall k c, submitted s !! k = Some c ->
     promise c = k /\
     (is_Some (future_of s k) <-> k ∈ promise <$> executed (pool s)) /\
     (forall r, future_of s k = Some r -> exists answers, r = func c answers)) /\
  NoDup (promise <$> executed (pool s)) /\
  (stuck (pool s) -> wasted (pool s) = 0 -> stop_requested (pool s) = false ->
     forall k c, submitted s !! k = Some c -> exists answers, future_of s k = Some (func c answers)).
Proof.
  intros Hr. pose proof (future_reachable_inv _ _ _ _ Hr) as Hi.
  assert (Hset : forall k c, submitted s !! k = Some c -> if decide (k ∈ promise <$> executed (pool s))
    then exists answers, future_of s k = Some (func c answers) else future_of s k = None).
  { intros k c Hk. pose proof (fi_settled _ _ _ Hi _ _ Hk) as Hs. unfold future_of.
    case_decide; [destruct Hs as [a ->]; by exists a|by rewrite Hs]. }
  split_and!; [apply Hi| | |].
  - intros k c Hk. split; [by destruct (submitted_index _ _ _ _ _ Hi Hk)|]. specialize (Hset _ _ Hk).
    case_decide; [destruct Hset as [a ->]|rewrite Hset].
    + split; [by split|]. intros r [= <-]. by exists a.
    + split; [split; [by intros []|done]|done].
  - pose proof (NoDup_seq 0 (length (promises s))) as Hnd.
    rewrite <- (fi_ids _ _ _ Hi), (closure_places _ _ s Hi), fmap_app, NoDup_app in Hnd. apply Hnd.
  - intros Hs Hw Hst k c Hk. specialize (Hset _ _ Hk). rewrite decide_True in Hset; [done|].
    destruct (stuck_drained _ _ _ _ (fi_pool _ _ _ Hi) Hs Hw Hst) as (_ & _ & Hex).
    pose proof (stuck_at_rest _ _ (ring_ge_2 cap) (ring_pow2 cap) _ (fi_pool _ _ _ Hi) Hs) as Hrest.
    pose proof (fi_tasks _ _ _ Hi) as Hall. rewrite (at_rest_unclaimed _ _ Hrest), app_nil_r, <- Hex in Hall.
    destruct (submitted_index _ _ _ _ _ Hi Hk) as [<- _]. apply list_elem_of_fmap. exists c. split; [done|].
    rewrite <- Hall. by eapply list_elem_of_lookup_2.
Qed.
End futures.

(** A worker runs two closures: one returns 5, the other throws 9. *)
Definition future_event : Type := nat + (unit -> nat + nat).

Definition future_next (s : future_pool (V := nat) (E := nat)) (e : future_event) : option future_pool :=
  match e with
  | inl i => future_move 0 s i false []
  | inr f => snd <$> submit f s
  end.

Fixpoint future_run (es : list future_event) (s : future_pool) : option future_pool :=
  match es with
  | [] => Some s
  | e :: es' => s' ← future_next s e; future_run es' s'
  end.

Lemma future_run_sound es s s' : future_run es s = Some s' -> rtc (future_step 0) s s'.
Proof.
  revert s. induction es as [|[i|f] es IH]; intros s; cbn -[submit]; [by intros [= ->]| |].
  - destruct (future_move 0 s i false []) as [s1|] eqn:E; [|done]. cbn. intros H.
    eapply rtc_l; [|by apply IH]. eapply fs_move; [|exact E]. by exists 0, 0.
  - destruct (submit f s) as [[k s1]|] eqn:E; [|done]. cbn. intros H.
    eapply rtc_l; [|by apply IH]. by eapply fs_submit.
Qed.

Definition two_closures : list future_event :=
  inr (fun _ => inl 5) :: replicate 7 (inl 1) ++ inr (fun _ => inr 9) :: replicate 7 (inl 2) ++ replicate 16 (inl 0).

Lemma futures_resolve_witness :
  exists s, future_run two_closures (new_future_pool 2 1 0) = Some s /\
    promises s = [Some (inl 5); Some (inr 9)] /\ terminated s = false /\
    exists answers, future_of s 1 = Some (func (mkClosure 1 (fun _ => inr 9)) answers).
Proof.
  destruct (future_run two_closures (new_future_pool 2 1 0)) as [s|] eqn:E; [|vm_compute in E; discriminate].
  exists s. split; [reflexivity|].
  destruct (futures_resolve 0 2 1 0 s (future_run_sound _ _ _ E)) as (H1 & _ & _ & H2).
  vm_compute in E. injection E as <-. split; [reflexivity|]. split; [exact H1|].
  apply (H2 ltac:(apply stuck_dec_sound; reflexivity) eq_refl eq_refl 1 _ eq_refl).
Defined.
