(* ===== verification/Config.v ===== *)
(** The configuration records of [core/config.hpp] and [load_config] of
    [core/config.cpp].

    The TOML parser (toml++) is not part of the repository: it is the record [TomlApi],
    with the operations the code calls.  [node["k"].value_or(d)] is [default d (value ..)];
    a double is a binary64, narrowed to [float] by [f32_of_f64]. *)

From Stdlib Require Import ZArith Lia SpecFloat.
From stdpp Require Import base strings numbers list.
From S2P Require Import Prelude Float32 Core.

Local Open Scope Z_scope.

(** * Records *)

Record NodeConfig := mkNodeConfig { cfg_id : string; cfg_port : Z; cfg_discovery_port : Z }.
Record MonitorConfig := mkMonitorConfig { sampling_interval_ms : Z; mock : bool }.
Record ExecutorConfig := mkExecutorConfig { cfg_thread_count : Z; memory_pool_mb : Z }.
Record ThresholdPolicyConfig := mkThresholdConfig {
  cpu_threshold_percent : float32; memory_threshold_percent : float32 }.
Record OptimizerPolicyConfig := mkOptimizerConfig { max_iterations : Z; communication_weight : float32 }.
Record SchedulerConfig := mkSchedulerConfig {
  policy : string; threshold : ThresholdPolicyConfig; optimizer : OptimizerPolicyConfig }.
Record NetworkConfig := mkNetworkConfig {
  heartbeat_interval_ms : Z; peer_timeout_ms : Z; offload_timeout_ms : Z; max_message_size_bytes : Z }.
Record TelemetryConfig := mkTelemetryConfig {
  log_dir : string; max_file_size_mb : Z; rotate_count : Z; log_level : string }.
Record Config := mkConfig {
  cfg_node : NodeConfig; cfg_monitor : MonitorConfig; cfg_executor : ExecutorConfig;
  cfg_scheduler : SchedulerConfig; cfg_network : NetworkConfig; cfg_telemetry : TelemetryConfig }.

(** The default member initialisers; [default_config()] value-initialises. *)
Definition default_node : NodeConfig := mkNodeConfig "node-01" 5201 5200.
Definition default_monitor : MonitorConfig := mkMonitorConfig 500 false.
Definition default_executor : ExecutorConfig := mkExecutorConfig 0 64.
Definition default_threshold : ThresholdPolicyConfig := mkThresholdConfig (f32_of_Z 75) (f32_of_Z 80).
Definition default_optimizer : OptimizerPolicyConfig := mkOptimizerConfig 100 (f32_of_ratio 3 10).
Definition default_scheduler : SchedulerConfig := mkSchedulerConfig "greedy" default_threshold default_optimizer.
Definition default_network : NetworkConfig := mkNetworkConfig 2000 6000 10000 1048576.
Definition default_telemetry : TelemetryConfig := mkTelemetryConfig "./logs" 50 5 "info".
Definition default_config : Config :=
  mkConfig default_node default_monitor default_executor default_scheduler default_network default_telemetry.

(** * Loading *)

(** [double] literals and the narrowing conversion. *)
Abbreviation float64 := spec_float.
Definition f64_of_Z (z : Z) : float64 := binary_normalize 53 1024 z 0 false.
Definition f64_of_ratio (num den : Z) : float64 := SFdiv 53 1024 (f64_of_Z num) (f64_of_Z den).
Definition f32_of_f64 (x : float64) : float32 :=
  match x with
  | S754_finite s m e => binary_normalize f32_prec f32_emax (if s then Z.neg m else Z.pos m) e s
  | _ => x
  end.

(** The part of toml++ the code uses. *)
Class TomlApi := {
  toml_node : Type;
  parse_file : string -> toml_node + string;   (** the root table, or a parse error's description *)
  toml_sub : toml_node -> string -> toml_node; (** [view["key"]] *)
  is_table : toml_node -> bool;
  value_string : toml_node -> option string;
  value_int64 : toml_node -> option Z;
  value_double : toml_node -> option float64;
  value_bool : toml_node -> option bool
}.

Section load.
Context {T : TomlApi}.

Definition string_or (n : toml_node) (k d : string) : string := default d (value_string (toml_sub n k)).
Definition int64_or (n : toml_node) (k : string) (d : Z) : Z := default d (value_int64 (toml_sub n k)).
Definition double_or (n : toml_node) (k : string) (d : float64) : float64 :=
  default d (value_double (toml_sub n k)).
Definition bool_or (n : toml_node) (k : string) (d : bool) : bool := default d (value_bool (toml_sub n k)).

(** [if (auto t = parent["name"]; t.is_table()) ...], else the defaults already there. *)
Definition on_table {X} (parent : toml_node) (name : string) (read : toml_node -> X) (d : X) : X :=
  let t := toml_sub parent name in if is_table t then read t else d.

Definition load_node (t : toml_node) : NodeConfig :=
  mkNodeConfig (string_or t "id" "node-01") (u16 (int64_or t "port" 5201))
    (u16 (int64_or t "discovery_port" 5200)).

Definition load_monitor (t : toml_node) : MonitorConfig :=
  mkMonitorConfig (u32 (int64_or t "sampling_interval_ms" 500)) (bool_or t "mock" false).

Definition load_executor (t : toml_node) : ExecutorConfig :=
  mkExecutorConfig (u32 (int64_or t "thread_count" 0)) (u64 (int64_or t "memory_pool_mb" 64)).

Definition load_threshold (t : toml_node) : ThresholdPolicyConfig :=
  mkThresholdConfig (f32_of_f64 (double_or t "cpu_threshold_percent" (f64_of_Z 75)))
    (f32_of_f64 (double_or t "memory_threshold_percent" (f64_of_Z 80))).

Definition load_optimizer (t : toml_node) : OptimizerPolicyConfig :=
  mkOptimizerConfig (u32 (int64_or t "max_iterations" 100))
    (f32_of_f64 (double_or t "communication_weight" (f64_of_ratio 3 10))).

Definition load_scheduler (t : toml_node) : SchedulerConfig :=
  mkSchedulerConfig (string_or t "policy" "greedy")
    (on_table t "threshold" load_threshold default_threshold)
    (on_table t "optimizer" load_optimizer default_optimizer).

Definition load_network (t : toml_node) : NetworkConfig :=
  mkNetworkConfig (u32 (int64_or t "heartbeat_interval_ms" 2000)) (u32 (int64_or t "peer_timeout_ms" 6000))
    (u32 (int64_or t "offload_timeout_ms" 10000)) (u64 (int64_or t "max_message_size_bytes" 1048576)).

Definition load_telemetry (t : toml_node) : TelemetryConfig :=
  mkTelemetryConfig (string_or t "log_dir" "./logs") (u32 (int64_or t "max_file_size_mb" 50))
    (u32 (int64_or t "rotate_count" 5)) (string_or t "log_level" "info").

(** [exists] is the file system's answer for the path. *)
Definition load_config (exists_ : string -> bool) (path : string) : Result Config :=
  if negb (exists_ path) then Err (mkError ("Configuration file not found: " +:+ path))
  else match parse_file path with
  | inr description => Err (mkError ("TOML parse error: " +:+ description))
  | inl tbl =>
      Ok (mkConfig
        (on_table tbl "node" load_node default_node)
        (on_table tbl "monitor" load_monitor default_monitor)
        (on_table tbl "executor" load_executor default_executor)
        (on_table tbl "scheduler" load_scheduler default_scheduler)
        (on_table tbl "network" load_network default_network)
        (on_table tbl "telemetry" load_telemetry default_telemetry))
  end.
End load.

(** * Defaults *)

(** Looking up a key that is not there finds no value. *)
Definition no_values {T : TomlApi} (t : toml_node) : Prop :=
  forall k, value_string (toml_sub t k) = None /\ value_int64 (toml_sub t k) = None /\
    value_double (toml_sub t k) = None /\ value_bool (toml_sub t k) = None.

Lemma narrow_defaults :
  f32_of_f64 (f64_of_Z 75) = f32_of_Z 75 /\ f32_of_f64 (f64_of_Z 80) = f32_of_Z 80 /\
  f32_of_f64 (f64_of_ratio 3 10) = f32_of_ratio 3 10.
Proof. by vm_compute. Qed.

Section defaults.
Context {T : TomlApi}.

Lemma string_or_none t k d : no_values t -> string_or t k d = d.
Proof. intros H. unfold string_or. by destruct (H k) as (-> & _). Qed.
Lemma int64_or_none t k d : no_values t -> int64_or t k d = d.
Proof. intros H. unfold int64_or. by destruct (H k) as (_ & -> & _). Qed.
Lemma double_or_none t k d : no_values t -> double_or t k d = d.
Proof. intros H. unfold double_or. by destruct (H k) as (_ & _ & -> & _). Qed.
Lemma bool_or_none t k d : no_values t -> bool_or t k d = d.
Proof. intros H. unfold bool_or. by destruct (H k) as (_ & _ & _ & ->). Qed.

Lemma on_table_default {X} parent name (read : toml_node -> X) d :
  (is_table (toml_sub parent name) = true -> read (toml_sub parent name) = d) ->
  on_table parent name read d = d.
Proof. unfold on_table. destruct (is_table _); auto. Qed.

(** An empty table reads as the member initialisers. *)
Lemma load_tables_default t : no_values t ->
  load_node t = default_node /\ load_monitor t = default_monitor /\ load_executor t = default_executor /\
  load_threshold t = default_threshold /\ load_optimizer t = default_optimizer /\
  load_network t = default_network /\ load_telemetry t = default_telemetry.
Proof.
  intros H. destruct narrow_defaults as (E1 & E2 & E3).
  unfold load_node, load_monitor, load_executor, load_threshold, load_optimizer, load_network, load_telemetry.
  rewrite !string_or_none, !int64_or_none, !double_or_none, !bool_or_none, E1, E2, E3 by done. done.
Qed.
End defaults.

(** * An in-memory table, for evaluation *)

Inductive toml :=
  | TTable (entries : list (string * toml))
  | TString (s : string)
  | TInt (z : Z)
  | TDouble (x : float64)
  | TBool (b : bool)
  | TMissing.

Fixpoint toml_assoc (k : string) (l : list (string * toml)) : toml :=
  match l with
  | [] => TMissing
  | (k', v) :: l' => if decide (k = k') then v else toml_assoc k l'
  end.

Definition tree_api (file : toml + string) : TomlApi := {|
  toml_node := toml;
  parse_file := fun _ => file;
  toml_sub := fun t k => match t with TTable l => toml_assoc k l | _ => TMissing end;
  is_table := fun t => match t with TTable _ => true | _ => false end;
  value_string := fun t => match t with TString s => Some s | _ => None end;
  value_int64 := fun t => match t with TInt z => Some z | _ => None end;
  value_double := fun t => match t with TDouble x => Some x | TInt z => Some (f64_of_Z z) | _ => None end;
  value_bool := fun t => match t with TBool b => Some b | _ => None end
|}.

(** * Properties *)

(** A file that overrides nothing is the default configuration: if the file exists and
    parses, and no table of it that the code opens holds a value, [load_config] returns
    exactly [default_config()]; the double literals narrow to the float defaults. *)
Theorem load_config_defaults {T : TomlApi} exists_ path tbl :
  exists_ path = true -> parse_file path = inl tbl ->
  (forall k, is_table (toml_sub tbl k) = true -> no_values (toml_sub tbl k)) ->
  (forall k, is_table (toml_sub (toml_sub tbl "scheduler") k) = true ->
             no_values (toml_sub (toml_sub tbl "scheduler") k)) ->
  load_config exists_ path = Ok default_config.
Proof.
  intros He Hp Hk Hs. unfold load_config. rewrite He, Hp. cbn [negb].
  assert (Hsched : is_table (toml_sub tbl "scheduler") = true ->
                   load_scheduler (toml_sub tbl "scheduler") = default_scheduler).
  { intros Ht. unfold load_scheduler. rewrite string_or_none by auto.
    rewrite !on_table_default; [done| |]; intros; by apply load_tables_default; auto. }
  unfold default_config. do 2 f_equal; apply on_table_default; intros Ht;
    first [by apply Hsched|by apply (load_tables_default _ (Hk _ Ht))].
Qed.

Lemma load_config_defaults_witness :
  load_config (T := tree_api (inl (TTable [("node", TTable []); ("network", TTable [])])))
    (fun _ => true) "default.toml" = Ok default_config.
Proof.
  apply (load_config_defaults (T := tree_api (inl (TTable [("node", TTable []); ("network", TTable [])])))
    (fun _ => true) "default.toml"
    (TTable [("node", TTable []); ("network", TTable [])])); [reflexivity|reflexivity|..].
  - intros k. cbn. repeat case_decide; intros Htab; try discriminate Htab; intros j; cbn; repeat case_decide; by vm_compute.
  - intros k Htab. vm_compute in Htab. discriminate Htab.
Defined.

(** The port fields are the configured integers reduced modulo 2^16, with no error for
    a value out of range: a file asking for port 70000 makes the node listen on 4464. *)
Theorem configured_port_wraps {T : TomlApi} exists_ path tbl cfg :
  parse_file path = inl tbl -> is_table (toml_sub tbl "node") = true ->
  load_config exists_ path = Ok cfg ->
  cfg_port (cfg_node cfg) = default 5201 (value_int64 (toml_sub (toml_sub tbl "node") "port")) mod 2 ^ 16 /\
  0 <= cfg_port (cfg_node cfg) < 65536.
Proof.
  intros Hp Ht. unfold load_config. destruct (exists_ path); [|done]. rewrite Hp. cbn [negb].
  intros [= <-]. unfold on_table. cbn [cfg_node]. rewrite Ht. split; [done|].
  cbn [cfg_port load_node]. unfold u16. apply Z.mod_pos_bound. lia.
Qed.

Lemma configured_port_wraps_witness :
  exists cfg, load_config (T := tree_api (inl (TTable [("node", TTable [("port", TInt 70000)])])))
                (fun _ => true) "node.toml" = Ok cfg /\ cfg_port (cfg_node cfg) = 4464.
Proof.
  eexists. split; [reflexivity|].
  apply (configured_port_wraps (T := tree_api (inl (TTable [("node", TTable [("port", TInt 70000)])])))
    (fun _ => true) "node.toml" (TTable [("node", TTable [("port", TInt 70000)])])); reflexivity.
Defined.
