(* ===== verification/Scheduler.v ===== *)
(** The scheduling vocabulary of [scheduler/scheduler.hpp] and
    [scheduler/cluster_view.cpp], the policy interface as a type class, and what the
    three policies share: the selection loop and the load a plan puts on a node. *)

From Stdlib Require Import ZArith Lia.
From stdpp Require Import base gmap strings numbers list.
From S2P Require Import Prelude Float32 Core Dag Kahn Metrics.

Local Open Scope Z_scope.

(** * Data *)

Record PeerInfo := mkPeer {
  peer_node_id : NodeId;
  peer_resources : ResourceSnapshot;
  peer_address : string;
  peer_tcp_port : Z;
  reachable : bool
}.

Record ClusterView := mkView { peers : list PeerInfo }.

Inductive Reason := LocalCapacity | LeastLoaded | ThresholdOffload | OptimizationResult | Fallback.

#[export] Instance Reason_eq_dec : EqDecision Reason.
Proof. solve_decision. Defined.

Record SchedulingDecision := mkDecision {
  dec_task : TaskId;
  assigned_node : NodeId;
  reason : Reason
}.

Record SchedulingPlan := mkPlan {
  decisions : list SchedulingDecision;
  estimated_makespan : Duration;
  computed_at : Z
}.

Definition reachable_peers (c : ClusterView) : list PeerInfo :=
  filter (fun p => reachable p = true) (peers c).

(** [ClusterView::available_count]. *)
Definition available_count (c : ClusterView) : nat := length (reachable_peers c).

(** * The selection loop

    [for (i ...) if (eligible(i) && better(score(i), best)) { best = score(i); idx = i; }] *)

Section pick.
Context {X V : Type} (score : nat -> X -> option V) (better : V -> V -> bool).

Definition pick_step (acc : V * nat) (i : nat) (x : X) : V * nat :=
  match score i x with
  | Some s => if better s (fst acc) then (s, i) else acc
  | None => acc
  end.

Fixpoint pick_from (i : nat) (l : list X) (acc : V * nat) : V * nat :=
  match l with
  | [] => acc
  | x :: l' => pick_from (S i) l' (pick_step acc i x)
  end.

Definition pick (init : V * nat) (l : list X) : V * nat := pick_from 0 l init.
End pick.

(** [ClusterView::least_loaded_peer]: the empty id when no reachable peer compares below
    [FLT_MAX]. *)
Definition load_score (_ : nat) (p : PeerInfo) : option float32 :=
  if reachable p then Some (cpu_usage_percent (peer_resources p)) else None.

Definition least_loaded_peer (c : ClusterView) : NodeId :=
  let '(_, i) := pick load_score f32_ltb (f32_max, length (peers c)) (peers c) in
  match peers c !! i with Some p => peer_node_id p | None => "" end.

(** * What a policy promises *)

(** The ids a plan may name: this node and the reachable peers. *)
Definition node_ids (local : ResourceSnapshot) (c : ClusterView) : list NodeId :=
  snap_node_id local :: (peer_node_id <$> reachable_peers c).

(** The weight a list of decisions puts on a node. *)
Definition load (w : TaskId -> Z) (n : NodeId) (ds : list SchedulingDecision) : Z :=
  sumZ (fun d => if decide (assigned_node d = n) then w (dec_task d) else 0) ds.

Arguments load : simpl never.

(** [ISchedulingPolicy]: an object with a name and a [schedule] method. *)
Class SchedulingPolicy {IO : IterOrder} := {
  schedule : Z -> WorkloadDAG -> ResourceSnapshot -> ClusterView -> SchedulingPlan;
  policy_name : string
}.

(** Every task of the topological order that exists gets exactly one decision, on this node
    or on a reachable peer; no peer is given more memory than it has available. *)
Class SchedulingPolicyLaws {IO : IterOrder} (P : SchedulingPolicy) := {
  schedule_complete : forall now d local c, closed d ->
    dec_task <$> (decisions (schedule now d local c)) ≡ₚ topological_order d;
  schedule_nodes : forall now d local c x,
    x ∈ decisions (schedule now d local c) -> assigned_node x ∈ node_ids local c;
  schedule_peer_memory : forall now d local c p,
    NoDup (node_ids local c) -> p ∈ reachable_peers c ->
    (forall v, 0 <= mem_of d v) -> closed d ->
    is_u64 (memory_available_bytes (peer_resources p)) ->
    sumZ (mem_of d) (topological_order d) < 2 ^ 64 ->
    load (mem_of d) (peer_node_id p) (decisions (schedule now d local c))
      <= memory_available_bytes (peer_resources p)
}.

(** * The selection loop finds a best candidate *)

Section pick_spec.
Context {X V : Type} (score : nat -> X -> option V) (better : V -> V -> bool).
Hypothesis better_irrefl : forall s, better s s = false.
Hypothesis better_trans : forall a b c, better a b = true -> better b c = true -> better a c = true.

(** [r] is unbeaten by the candidates among positions below [n], and is either the initial
    value or the score of one of them, better than the initial value. *)
Definition pick_ok (l : list X) (init : V * nat) (n : nat) (r : V * nat) : Prop :=
  (forall j x s, (j < n)%nat -> l !! j = Some x -> score j x = Some s -> better s (fst r) = false) /\
  (r = init \/
   exists x, (snd r < n)%nat /\ l !! snd r = Some x /\ score (snd r) x = Some (fst r) /\
     better (fst r) (fst init) = true).

Lemma pick_step_ok l init n r x :
  l !! n = Some x -> pick_ok l init n r -> pick_ok l init (S n) (pick_step score better r n x).
Proof.
  intros Hx [Hmax Hsrc]. unfold pick_step. destruct (score n x) as [s|] eqn:Es.
  - destruct (better s (fst r)) eqn:Eb.
    + split; cbn.
      * intros j y t Hj Hy Ht. destruct (decide (j = n)) as [->|Hn].
        { assert (y = x) as -> by congruence. rewrite Es in Ht. injection Ht as <-. apply better_irrefl. }
        destruct (better t s) eqn:Ets; [|done].
        rewrite <- (Hmax j y t ltac:(lia) Hy Ht). symmetry. by eapply better_trans.
      * right. exists x. split_and!; [lia|done..|].
        destruct Hsrc as [-> | (z & _ & _ & _ & Hb)]; [done|by eapply better_trans].
    + split; [|destruct Hsrc as [?|(z & ? & ?)]; [by left|right; exists z; split; [lia|done]]].
      intros j y t Hj Hy Ht. destruct (decide (j = n)) as [->|Hn]; [congruence|]. eapply Hmax; eauto; lia.
  - split; [|destruct Hsrc as [?|(z & ? & ?)]; [by left|right; exists z; split; [lia|done]]].
    intros j y t Hj Hy Ht. destruct (decide (j = n)) as [->|Hn]; [congruence|]. eapply Hmax; eauto; lia.
Qed.

Lemma pick_from_ok l init l1 l2 r :
  l = l1 ++ l2 -> pick_ok l init (length l1) r ->
  pick_ok l init (length l) (pick_from score better (length l1) l2 r).
Proof.
  revert l1 r. induction l2 as [|x l2 IH]; intros l1 r -> Hr; cbn; [by rewrite app_nil_r in *|].
  replace (S (length l1)) with (length (l1 ++ [x])) by (rewrite length_app; cbn; lia).
  apply IH; [by rewrite <- app_assoc|]. rewrite length_app. cbn. rewrite Nat.add_1_r.
  apply pick_step_ok; [by apply list_lookup_middle|done].
Qed.

Lemma pick_spec l init : pick_ok l init (length l) (pick score better init l).
Proof. apply (pick_from_ok l init []); [done|]. split; [cbn; lia|by left]. Qed.
End pick_spec.

(** * Loads *)

Lemma load_app w n ds es : load w n (ds ++ es) = load w n ds + load w n es.
Proof. apply sumZ_app. Qed.

Lemma load_snoc w n ds t m r :
  load w n (ds ++ [mkDecision t m r]) = load w n ds + (if decide (m = n) then w t else 0).
Proof. rewrite load_app. unfold load at 2. cbn. lia. Qed.

Lemma load_nonneg w n ds : (forall t, 0 <= w t) -> 0 <= load w n ds.
Proof. intros Hw. apply sumZ_nonneg. intros d _. case_decide; [apply Hw|lia]. Qed.

Lemma load_le_total w n ds : (forall t, 0 <= w t) -> load w n ds <= sumZ w (dec_task <$> ds).
Proof.
  intros Hw. unfold load. induction ds as [|d ds IH]; cbn; [lia|]. specialize (Hw (dec_task d)).
  case_decide; lia.
Qed.

Lemma load_absent w n ds : (forall x, x ∈ ds -> assigned_node x <> n) -> load w n ds = 0.
Proof. intros H. apply sumZ_all_zero. intros x Hx. rewrite decide_False; [done|by apply H]. Qed.

(** Each decision is charged to exactly one of the distinct nodes. *)
Lemma loads_total w ids ds : NoDup ids -> (forall d, d ∈ ds -> assigned_node d ∈ ids) ->
  sumZ (fun n => load w n ds) ids = sumZ w (dec_task <$> ds).
Proof.
  intros Hnd. induction ds as [|d ds IH]; intros Hin; cbn.
  { by apply sumZ_all_zero. }
  rewrite <- IH by (intros; apply Hin; by right).
  transitivity (sumZ (fun n => (if decide (assigned_node d = n) then w (dec_task d) else 0) + load w n ds) ids);
    [done|]. rewrite sumZ_add. f_equal.
  specialize (Hin d ltac:(by left)). apply list_elem_of_split in Hin as (l1 & l2 & ->).
  apply NoDup_app in Hnd as (_ & Hn1 & [Hn2 _]%NoDup_cons).
  rewrite sumZ_app. cbn. rewrite decide_True by done.
  rewrite !sumZ_all_zero; [lia|..].
  - intros n Hn. rewrite decide_False; [done|]. intros <-. done.
  - intros n Hn. rewrite decide_False; [done|]. intros <-. apply (Hn1 _ Hn). by left.
Qed.

Lemma cost_of_task d v t : get_task d v = Some t -> cost_of d v = compute_cost (task_profile t).
Proof. unfold cost_of, get_task. by intros ->. Qed.

Lemma mem_of_task d v t : get_task d v = Some t -> mem_of d v = memory_bytes (task_profile t).
Proof. unfold mem_of, get_task. by intros ->. Qed.

Lemma get_task_Forall d (P : TaskId -> Task -> Prop) :
  map_Forall P (tasks_ d) -> forall v t, get_task d v = Some t -> P v t.
Proof. intros H v t. apply H. Qed.

(** The ids of a list that name a task: the loops skip the others. *)
Definition known_in (d : WorkloadDAG) (ids : list TaskId) : list TaskId :=
  filter (fun v => is_Some (get_task d v)) ids.

Lemma known_in_some d ids v t : get_task d v = Some t -> known_in d (ids ++ [v]) = known_in d ids ++ [v].
Proof. intros E. unfold known_in. rewrite filter_app, filter_cons_True; [done|]. rewrite E. by eexists. Qed.

Lemma known_in_none d ids v : get_task d v = None -> known_in d (ids ++ [v]) = known_in d ids.
Proof.
  intros E. unfold known_in. rewrite filter_app, filter_cons_False, filter_nil, app_nil_r; [done|].
  rewrite E. by intros [? ?].
Qed.

Lemma known_in_closed {IO : IterOrder} d : closed d -> known_in d (topological_order d) = topological_order d.
Proof.
  intros Hcl. unfold known_in.
  assert (Hall : forall v, v ∈ topological_order d -> is_Some (get_task d v))
    by (intros v; by apply topological_order_known).
  revert Hall. generalize (topological_order d). induction l as [|v l IH]; intros Hall; [done|].
  rewrite filter_cons_True by (apply Hall; by left). f_equal. apply IH. intros. apply Hall. by right.
Qed.

#[export] Hint Rewrite load_snoc : dag_ops.

(** * A small cluster, for evaluation *)

Definition sample_snapshot (id : NodeId) (cpu avail total : Z) : ResourceSnapshot :=
  mkSnapshot id 0 (f32_of_Z cpu) (replicate 4 f32_zero) avail total f32_zero f32_zero 0 0 false.

Definition sample_local : ResourceSnapshot := sample_snapshot "pi-0" 50 40 100.

Definition sample_cluster : ClusterView :=
  mkView [mkPeer "pi-1" (sample_snapshot "pi-1" 20 25 100) "10.0.0.1" 5201 true;
          mkPeer "pi-2" (sample_snapshot "pi-2" 10 90 100) "10.0.0.2" 5201 false;
          mkPeer "pi-3" (sample_snapshot "pi-3" 30 60 100) "10.0.0.3" 5201 true].

Lemma sample_ids_distinct : NoDup (node_ids sample_local sample_cluster).
Proof. decide_now. Qed.

Example sample_least_loaded : least_loaded_peer sample_cluster = "pi-1".
Proof. vm_compute. reflexivity. Qed.
