(* ===== verification/Greedy.v ===== *)
(** [GreedyPolicy] of [scheduler/greedy_policy.cpp]: each task, in topological order, goes
    to the node with the best score among those with enough memory left. *)

From Stdlib Require Import ZArith Lia.
From stdpp Require Import base gmap strings numbers list.
From S2P Require Import Prelude Float32 Core Dag Kahn Metrics Scheduler DagTheorems.

Local Open Scope Z_scope.
Local Open Scope cpp_scope.

(** * The policy *)

Definition W_CPU : float32 := f32_of_Z 1.
Definition W_MEM : float32 := f32_of_ratio 1 2.
Definition W_NET : float32 := f32_of_ratio 3 10.

Definition compute_node_score (r : ResourceSnapshot) (p : TaskProfile) (is_local : bool) : float32 :=
  let cpu_headroom := cpu_headroom_percent r in
  let mem_headroom := f32_sub f32_100 (memory_usage_percent r) in
  let transfer_cost :=
    if is_local then f32_zero
    else f32_div (f32_of_Z (input_bytes p +! output_bytes p)) (f32_mul (f32_of_Z 1024) (f32_of_Z 1024)) in
  f32_sub (f32_add (f32_mul W_CPU cpu_headroom) (f32_mul W_MEM mem_headroom)) (f32_mul W_NET transfer_cost).

Record NodeState := mkNode {
  ns_id : NodeId;
  ns_resources : ResourceSnapshot;
  ns_compute : Duration
}.

Definition with_available (r : ResourceSnapshot) (bytes : Z) : ResourceSnapshot :=
  mkSnapshot (snap_node_id r) (timestamp r) (cpu_usage_percent r) (per_core_cpu_percent r) bytes
    (memory_total_bytes r) (cpu_temperature_celsius r) (gpu_temperature_celsius r)
    (network_rx_bytes_sec r) (network_tx_bytes_sec r) (is_throttled r).

Definition ns_available (n : NodeState) : Z := memory_available_bytes (ns_resources n).

Definition greedy_nodes (local : ResourceSnapshot) (c : ClusterView) : list NodeState :=
  mkNode (snap_node_id local) local 0 ::
  ((fun p => mkNode (peer_node_id p) (peer_resources p) 0) <$> reachable_peers c).

(** A node is a candidate when the task fits in its memory. *)
Definition greedy_score (p : TaskProfile) (i : nat) (n : NodeState) : option float32 :=
  if decide (ns_available n < memory_bytes p) then None
  else Some (compute_node_score (ns_resources n) p (bool_decide (i = 0%nat))).

Definition greedy_best (p : TaskProfile) (nodes : list NodeState) : nat :=
  snd (pick (greedy_score p) f32_gtb (f32_lowest, 0%nat) nodes).

(** The simulated consumption of a task on a node.  [assigned_compute] is an [int64_t]
    duration in the source, where an overflow is undefined; here the sum is exact, and for
    nonnegative costs it stays below the DAG's total. *)
Definition charge (p : TaskProfile) (n : NodeState) : NodeState :=
  mkNode (ns_id n)
    (if decide (memory_bytes p <= ns_available n)
     then with_available (ns_resources n) (ns_available n - memory_bytes p) else ns_resources n)
    (ns_compute n + compute_cost p).

Definition greedy_step (d : WorkloadDAG) (acc : list NodeState * list SchedulingDecision) (id : TaskId)
  : list NodeState * list SchedulingDecision :=
  let '(nodes, ds) := acc in
  match get_task d id with
  | None => acc
  | Some t =>
      let best := greedy_best (task_profile t) nodes in
      match nodes !! best with
      | None => acc
      | Some n =>
          (<[best := charge (task_profile t) n]> nodes,
           ds ++ [mkDecision id (ns_id n) (if decide (best = 0%nat) then LocalCapacity else LeastLoaded)])
      end
  end.

Definition max_compute (nodes : list NodeState) : Duration :=
  foldl (fun m n => Z.max m (ns_compute n)) 0 nodes.

Section policy.
Context {IO : IterOrder}.

Definition greedy_schedule (now : Z) (d : WorkloadDAG) (local : ResourceSnapshot) (c : ClusterView)
  : SchedulingPlan :=
  let '(nodes, ds) := foldl (greedy_step d) (greedy_nodes local c, []) (topological_order d) in
  mkPlan ds (max_compute nodes) now.

#[export] Instance GreedyPolicy : SchedulingPolicy :=
  {| schedule := greedy_schedule; policy_name := "greedy" |}.
End policy.

(** * Selection *)

Lemma f32_gtb_irrefl s : f32_gtb s s = false.
Proof. apply not_true_iff_false. exact (f32_lt_irrefl s). Qed.

Lemma f32_gtb_trans a b c : f32_gtb a b = true -> f32_gtb b c = true -> f32_gtb a c = true.
Proof. intros H1 H2. exact (f32_lt_trans c b a H2 H1). Qed.

(** The chosen index is a node; it is 0 or a node the task fits on, and no fitting node
    scores better unless none scored above [-FLT_MAX]. *)
Lemma greedy_best_spec p nodes : nodes <> [] ->
  exists n, nodes !! greedy_best p nodes = Some n /\
    (greedy_best p nodes = 0%nat \/ memory_bytes p <= ns_available n) /\
    forall j m s, nodes !! j = Some m -> greedy_score p j m = Some s ->
      f32_gtb s f32_lowest = true ->
      memory_bytes p <= ns_available n /\
      exists best, greedy_score p (greedy_best p nodes) n = Some best /\ f32_gtb s best = false.
Proof.
  intros Hne. destruct (pick_spec (greedy_score p) f32_gtb f32_gtb_irrefl f32_gtb_trans nodes
    (f32_lowest, 0%nat)) as [Hmax Hsrc].
  unfold greedy_best. set (r := pick _ _ _ _) in *. destruct Hsrc as [Hr|(x & Hlt & Hx & Hs & _)].
  - rewrite Hr in *. cbn in *. destruct nodes as [|n nodes]; [done|]. exists n. split; [done|]. split; [by left|].
    intros j m s Hj Hs Hb. rewrite (Hmax j m s (lookup_lt_Some _ _ _ Hj) Hj Hs) in Hb. done.
  - exists x. assert (memory_bytes p <= ns_available x).
    { unfold greedy_score in Hs. case_decide; [done|lia]. }
    split_and!; [done|by right|]. intros j m s Hj Hsj _. split; [done|]. exists (fst r). split; [done|].
    exact (Hmax j m s (lookup_lt_Some _ _ _ Hj) Hj Hsj).
Qed.

(** * The loop invariant *)

Lemma greedy_nodes_ids local c : ns_id <$> (greedy_nodes local c) = node_ids local c.
Proof. unfold greedy_nodes, node_ids. rewrite fmap_cons, <- list_fmap_compose. done. Qed.

Lemma charge_available p n :
  ns_available (charge p n) =
    if decide (memory_bytes p <= ns_available n) then ns_available n - memory_bytes p else ns_available n.
Proof. unfold charge, ns_available. cbn. by case_decide. Qed.

Section loop.
Context (d : WorkloadDAG) (init : list NodeState) (Hne : init <> []).
Hypothesis init_idle : forall n, n ∈ init -> ns_compute n = 0.

(** What is always true of the nodes and decisions. *)
Record greedy_inv (done : list TaskId) (acc : list NodeState * list SchedulingDecision) : Prop := {
  gi_ids : ns_id <$> (fst acc) = ns_id <$> init;
  gi_tasks : dec_task <$> (snd acc) = known_in d done;
  gi_nodes : Forall (fun x => assigned_node x ∈ ns_id <$> init) (snd acc)
}.

(** With distinct ids, the accounts of each node match the decisions. *)
Record greedy_acct (acc : list NodeState * list SchedulingDecision) : Prop := {
  ga_compute : forall i n, fst acc !! i = Some n -> ns_compute n = load (cost_of d) (ns_id n) (snd acc);
  ga_memory : forall i n n0, fst acc !! S i = Some n -> init !! S i = Some n0 ->
    ns_available n + load (mem_of d) (ns_id n) (snd acc) = ns_available n0 /\
    (0 <= ns_available n0 -> 0 <= ns_available n)
}.

Lemma greedy_inv_ne done acc : greedy_inv done acc -> fst acc <> [].
Proof. intros Hi E. pose proof (gi_ids _ _ Hi) as H. rewrite E in H. by destruct init. Qed.

Lemma greedy_step_inv done acc v : greedy_inv done acc -> greedy_inv (done ++ [v]) (greedy_step d acc v).
Proof.
  intros Hi. destruct acc as [nodes ds]. pose proof (greedy_inv_ne _ _ Hi) as Hn. cbn in Hn.
  unfold greedy_step. destruct (get_task d v) as [t|] eqn:Et.
  - destruct (greedy_best_spec (task_profile t) nodes Hn) as (n & Hl & _ & _). rewrite Hl.
    destruct Hi as [H1 H2 H3]. cbn in *. split; cbn.
    + rewrite <- H1. rewrite <- (list_insert_id (ns_id <$> nodes) (greedy_best (task_profile t) nodes) (ns_id n)).
      * by rewrite list_fmap_insert.
      * rewrite list_lookup_fmap, Hl. done.
    + by rewrite fmap_app, H2, (known_in_some d done v t Et).
    + apply Forall_app. split; [done|]. constructor; [|constructor]. cbn. rewrite <- H1.
      apply list_elem_of_fmap. exists n. split; [done|]. by eapply list_elem_of_lookup_2.
  - destruct Hi as [H1 H2 H3]. split; try done. by rewrite (known_in_none d done v Et).
Qed.

Lemma greedy_step_acct done acc v :
  NoDup (ns_id <$> init) -> greedy_inv done acc -> greedy_acct acc -> greedy_acct (greedy_step d acc v).
Proof.
  intros Hnd Hi Ha. destruct acc as [nodes ds]. pose proof (greedy_inv_ne _ _ Hi) as Hn. cbn in Hn.
  unfold greedy_step. destruct (get_task d v) as [t|] eqn:Et; [|done].
  destruct (greedy_best_spec (task_profile t) nodes Hn) as (n & Hl & Hfit & _). rewrite Hl.
  pose proof (cost_of_task _ _ _ Et) as Hc. pose proof (mem_of_task _ _ _ Et) as Hm.
  assert (Hid : forall j m, nodes !! j = Some m -> ns_id m = ns_id n -> j = greedy_best (task_profile t) nodes).
  { intros j m Hj E. rewrite <- (gi_ids _ _ Hi) in Hnd. cbn in Hnd.
    eapply (NoDup_lookup (ns_id <$> nodes)); [done|..];
      rewrite list_lookup_fmap; [by rewrite Hj|by rewrite Hl, E]. }
  split; cbn; intros i m.
  - intros [[<- [<- _]]|[Hne' Hi']]%list_lookup_insert_Some; rewrite load_snoc; cbn.
    + rewrite decide_True by done. rewrite (ga_compute _ Ha _ _ Hl). cbn. lia.
    + rewrite decide_False; [rewrite (ga_compute _ Ha _ _ Hi'); cbn; lia|]. intros E. apply Hne'. symmetry. by eapply Hid.
  - intros m0 [[Eb [<- _]]|[Hne' Hi']]%list_lookup_insert_Some H0; rewrite load_snoc.
    + rewrite Eb in Hl. destruct (ga_memory _ Ha _ _ _ Hl H0) as [E1 E2]. cbn in E1.
      destruct Hfit as [Hz|Hfit]; [rewrite Hz in Eb; done|].
      rewrite charge_available. cbn. rewrite !decide_True by done. split; [lia|]. intros. lia.
    + destruct (ga_memory _ Ha _ _ _ Hi' H0) as [E1 E2]. cbn in E1. rewrite decide_False; [split; [lia|done]|].
      intros E. apply Hne'. symmetry. by eapply Hid.
Qed.

Lemma greedy_loop topo :
  let r := foldl (greedy_step d) (init, []) topo in
  greedy_inv topo r /\ (NoDup (ns_id <$> init) -> greedy_acct r).
Proof.
  cbn. apply (foldl_inv (fun done r => greedy_inv done r /\ (NoDup (ns_id <$> init) -> greedy_acct r))).
  - split; [split; [done|done|constructor]|]. intros _. split; cbn.
    + intros i n Hi. apply init_idle. by eapply list_elem_of_lookup_2.
    + intros i n n0 Hn Hn0. assert (n = n0) as -> by congruence. split; [unfold load; cbn; lia|done].
  - intros done acc v [H1 H2]. split; [by apply greedy_step_inv|]. intros Hnd. eapply greedy_step_acct; eauto.
Qed.
End loop.

Lemma max_compute_spec nodes :
  (forall n, n ∈ nodes -> ns_compute n <= max_compute nodes) /\ 0 <= max_compute nodes /\
  (max_compute nodes = 0 \/ exists n, n ∈ nodes /\ max_compute nodes = ns_compute n).
Proof.
  unfold max_compute. destruct (foldl_max_spec ns_compute nodes 0) as (H1 & H2 & H3). by split_and!.
Qed.

(** * The contract *)

Section contract.
Context {IO : IterOrder}.
Implicit Types (d : WorkloadDAG) (local : ResourceSnapshot) (c : ClusterView).

Lemma greedy_nodes_ne local c : greedy_nodes local c <> [].
Proof. done. Qed.

Lemma greedy_nodes_idle local c n : n ∈ greedy_nodes local c -> ns_compute n = 0.
Proof. intros [->|(p & -> & _)%list_elem_of_fmap]%elem_of_cons; done. Qed.

Definition greedy_final d local c : list NodeState * list SchedulingDecision :=
  foldl (greedy_step d) (greedy_nodes local c, []) (topological_order d).

Lemma greedy_final_spec d local c :
  greedy_inv d (greedy_nodes local c) (topological_order d) (greedy_final d local c) /\
  (NoDup (node_ids local c) -> greedy_acct d (greedy_nodes local c) (greedy_final d local c)).
Proof.
  rewrite <- greedy_nodes_ids. apply greedy_loop; [apply greedy_nodes_ne|apply greedy_nodes_idle].
Qed.

Lemma greedy_schedule_eq now d local c :
  greedy_schedule now d local c =
    mkPlan (snd (greedy_final d local c)) (max_compute (fst (greedy_final d local c))) now.
Proof. unfold greedy_schedule, greedy_final. by destruct (foldl _ _ _). Qed.

Lemma greedy_complete now d local c : closed d ->
  dec_task <$> decisions (greedy_schedule now d local c) = topological_order d.
Proof.
  intros Hcl. rewrite greedy_schedule_eq. cbn. destruct (greedy_final_spec d local c) as [Hi _].
  by rewrite (gi_tasks _ _ _ _ Hi), known_in_closed.
Qed.

Lemma greedy_nodes_ok now d local c x :
  x ∈ decisions (greedy_schedule now d local c) -> assigned_node x ∈ node_ids local c.
Proof.
  rewrite greedy_schedule_eq. cbn. destruct (greedy_final_spec d local c) as [Hi _].
  pose proof (gi_nodes _ _ _ _ Hi) as Hn. rewrite Forall_forall, greedy_nodes_ids in Hn. apply Hn.
Qed.

(** The final state of the node with a given id. *)
Lemma greedy_final_lookup d local c i n :
  greedy_nodes local c !! i = Some n ->
  exists m, fst (greedy_final d local c) !! i = Some m /\ ns_id m = ns_id n.
Proof.
  intros Hi. destruct (greedy_final_spec d local c) as [Hinv _]. pose proof (gi_ids _ _ _ _ Hinv) as E.
  assert (H : (ns_id <$> fst (greedy_final d local c)) !! i = Some (ns_id n))
    by (rewrite E, list_lookup_fmap, Hi; done).
  apply list_lookup_fmap_Some in H as (m & Hm & Hl). by exists m.
Qed.

Lemma greedy_peer_memory now d local c p :
  NoDup (node_ids local c) -> p ∈ reachable_peers c ->
  0 <= memory_available_bytes (peer_resources p) ->
  load (mem_of d) (peer_node_id p) (decisions (greedy_schedule now d local c))
    <= memory_available_bytes (peer_resources p).
Proof.
  intros Hnd Hp Ha. rewrite greedy_schedule_eq. cbn.
  destruct (greedy_final_spec d local c) as [_ Hacct]. specialize (Hacct Hnd).
  apply list_elem_of_lookup in Hp as [i Hi].
  assert (H0 : greedy_nodes local c !! S i = Some (mkNode (peer_node_id p) (peer_resources p) 0))
    by (change (((fun p => mkNode (peer_node_id p) (peer_resources p) 0) <$> reachable_peers c) !! i =
                Some (mkNode (peer_node_id p) (peer_resources p) 0)); by rewrite list_lookup_fmap, Hi).
  destruct (greedy_final_lookup d local c _ _ H0) as (m & Hm & Eid).
  destruct (ga_memory _ _ _ Hacct _ _ _ Hm H0) as [E1 E2]. unfold ns_available at 2 in E1. cbn in E1.
  rewrite Eid in E1. cbn in E1. specialize (E2 Ha). lia.
Qed.

(** The makespan is the largest load. *)
Lemma greedy_makespan now d local c : NoDup (node_ids local c) ->
  let plan := greedy_schedule now d local c in
  (forall n, n ∈ node_ids local c -> load (cost_of d) n (decisions plan) <= estimated_makespan plan) /\
  (estimated_makespan plan = 0 \/
   exists n, n ∈ node_ids local c /\ estimated_makespan plan = load (cost_of d) n (decisions plan)).
Proof.
  intros Hnd. rewrite greedy_schedule_eq. cbn. destruct (greedy_final_spec d local c) as [Hinv Hacct].
  specialize (Hacct Hnd). destruct (max_compute_spec (fst (greedy_final d local c))) as (M1 & M2 & M3).
  rewrite <- greedy_nodes_ids, <- (gi_ids _ _ _ _ Hinv). split.
  - intros n (m & -> & Hm)%list_elem_of_fmap. pose proof (M1 _ Hm) as H.
    apply list_elem_of_lookup in Hm as [i Hi]. by rewrite <- (ga_compute _ _ _ Hacct _ _ Hi).
  - destruct M3 as [->|(m & Hm & ->)]; [by left|right]. exists (ns_id m). split; [by apply list_elem_of_fmap_2|].
    apply list_elem_of_lookup in Hm as [i Hi]. by apply (ga_compute _ _ _ Hacct i).
Qed.

#[export] Instance GreedyLaws : SchedulingPolicyLaws GreedyPolicy.
Proof.
  split; cbn.
  - intros. by rewrite greedy_complete.
  - intros. by eapply greedy_nodes_ok.
  - intros now d local c p Hnd Hp _ _ [Ha _] _. by apply greedy_peer_memory.
Qed.

(** * Properties *)

(** C21: The greedy plan is complete and feasible.  It lists exactly the tasks, dependencies
    first; every task goes to this node or to a reachable peer; no peer is given more memory
    than it reported; the estimated makespan is the largest total compute cost assigned to a
    node, which at least one node attains, so it lies between the average and the sum.  The
    DAG names no unknown dependency, its costs are not negative, and the node ids differ. *)
Theorem greedy_plan_correct now d local c :
  closed d -> costs_nonneg d -> NoDup (node_ids local c) ->
  let plan := schedule (SchedulingPolicy := GreedyPolicy) now d local c in
  dec_task <$> decisions plan = topological_order d /\
  (forall x, x ∈ decisions plan -> assigned_node x ∈ node_ids local c) /\
  (forall p, p ∈ reachable_peers c -> 0 <= memory_available_bytes (peer_resources p) ->
     load (mem_of d) (peer_node_id p) (decisions plan) <= memory_available_bytes (peer_resources p)) /\
  (forall n, n ∈ node_ids local c -> load (cost_of d) n (decisions plan) <= estimated_makespan plan) /\
  (exists n, n ∈ node_ids local c /\ load (cost_of d) n (decisions plan) = estimated_makespan plan) /\
  estimated_makespan plan <= sumZ (cost_of d) (topological_order d)
    <= Z.of_nat (length (node_ids local c)) * estimated_makespan plan.
Proof.
  intros Hcl Hc Hnd plan. cbn in plan. destruct (greedy_makespan now d local c Hnd) as [M1 M2].
  pose proof (greedy_complete now d local c Hcl) as Htasks.
  split_and!; [done|by apply greedy_nodes_ok|intros; by apply greedy_peer_memory|exact M1|..]; fold plan in M1, M2, Htasks.
  - destruct M2 as [E|(n & Hn & E)]; [|eauto]. exists (snap_node_id local). split; [by left|].
    pose proof (M1 (snap_node_id local) ltac:(by left)). apply Z.le_antisymm; [done|]. rewrite E.
    apply load_nonneg. intros; apply Hc.
  - rewrite <- Htasks. destruct M2 as [->|(n & _ & ->)]; [|by apply load_le_total].
    apply sumZ_nonneg. intros; apply Hc.
  - rewrite <- Htasks, <- (loads_total (cost_of d) (node_ids local c)); [|done|by apply greedy_nodes_ok].
    revert M1. generalize (estimated_makespan plan). clear. induction (node_ids local c) as [|n ids IH]; intros m Hm; cbn [sumZ length]; [lia|].
    specialize (IH m ltac:(intros; apply Hm; by right)). specialize (Hm n ltac:(by left)). lia.
Qed.
End contract.

Lemma greedy_plan_correct_witness :
  let plan := greedy_schedule (IO := IterCanonical) 0 diamond_dag sample_local sample_cluster in
  closed diamond_dag /\ NoDup (node_ids sample_local sample_cluster) /\
  map assigned_node (decisions plan) = ["pi-3"; "pi-3"; "pi-1"; "pi-1"] /\
  dec_task <$> decisions plan = topological_order (IO := IterCanonical) diamond_dag.
Proof.
  split; [decide_now|]. split; [exact sample_ids_distinct|]. split; [vm_compute; reflexivity|].
  apply (greedy_plan_correct (IO := IterCanonical) 0 diamond_dag sample_local sample_cluster);
    [decide_now|decide_now|exact sample_ids_distinct].
Defined.

(** Each greedy assignment is a best fit: if some node has the memory for the task and
    scores above the lowest [float], the chosen node has the memory too and no node that
    fits scores better; only otherwise does the task stay on this node. *)
Theorem greedy_picks_best_fit d nodes ds id t :
  nodes <> [] -> get_task d id = Some t ->
  let p := task_profile t in
  exists i n, nodes !! i = Some n /\
    greedy_step d (nodes, ds) id =
      (<[i := charge p n]> nodes,
       ds ++ [mkDecision id (ns_id n) (if decide (i = 0%nat) then LocalCapacity else LeastLoaded)]) /\
    (i = 0%nat \/ memory_bytes p <= ns_available n) /\
    forall j m s, nodes !! j = Some m -> greedy_score p j m = Some s ->
      f32_gtb s f32_lowest = true ->
      memory_bytes p <= ns_available n /\
      exists best, greedy_score p i n = Some best /\ f32_gtb s best = false.
Proof.
  intros Hne Ht p. destruct (greedy_best_spec p nodes Hne) as (n & Hn & Hrest).
  exists (greedy_best p nodes), n. split; [done|]. split; [|done].
  unfold greedy_step. rewrite Ht. fold p. by rewrite Hn.
Qed.

Lemma greedy_picks_best_fit_witness :
  exists i n, greedy_nodes sample_local sample_cluster !! i = Some n /\
    snd (greedy_step diamond_dag (greedy_nodes sample_local sample_cluster, []) "right")
      = [mkDecision "right" "pi-3" LeastLoaded] /\
    (i = 0%nat \/ 30 <= ns_available n).
Proof.
  destruct (greedy_picks_best_fit diamond_dag (greedy_nodes sample_local sample_cluster) [] "right"
    (mkTask "right" "right" (mkProfile 2 30 0 0) ["src"] Pending)) as (i & n & Hn & _ & Hfit & _);
    [discriminate|vm_compute; reflexivity|].
  exists i, n. split; [exact Hn|]. split; [vm_compute; reflexivity|exact Hfit].
Defined.
