(* ===== verification/Threshold.v ===== *)
(** [ThresholdPolicy] of [scheduler/threshold_policy.cpp]: tasks stay on this node until a
    simulated CPU or memory threshold is reached, then go to the least-loaded peer that
    has the memory, or stay as a fallback. *)

From Stdlib Require Import ZArith Lia.
From stdpp Require Import base gmap strings numbers list.
From S2P Require Import Prelude Float32 Core Dag Kahn Metrics Config Scheduler DagTheorems.

Local Open Scope Z_scope.
Local Open Scope cpp_scope.

(** * The policy *)

Record PeerState := mkPeerState {
  ps_id : NodeId;
  cpu_load : float32;
  mem_available : Z;
  ps_compute : Duration
}.

(** The variables of the loop. *)
Record sim := mkSim {
  sim_cpu : float32;
  sim_mem_used : Z;
  local_compute : Duration;
  sim_peers : list PeerState;
  sim_decisions : list SchedulingDecision
}.

Definition threshold_peers (c : ClusterView) : list PeerState :=
  (fun p => mkPeerState (peer_node_id p) (cpu_usage_percent (peer_resources p))
              (memory_available_bytes (peer_resources p)) 0) <$> reachable_peers c.

Definition sim_init (local : ResourceSnapshot) (c : ClusterView) : sim :=
  mkSim (cpu_usage_percent local) (memory_total_bytes local -! memory_available_bytes local) 0
    (threshold_peers c) [].

(** The simulated CPU percentage a task adds. *)
Definition cpu_increase (p : TaskProfile) : float32 :=
  f32_mul (f32_of_Z (compute_cost p)) (f32_of_ratio 1 1000).

Definition sim_mem_pct (mem_total : Z) (s : sim) : float32 :=
  if decide (0 < mem_total)
  then f32_div (f32_mul f32_100 (f32_of_Z (sim_mem_used s))) (f32_of_Z mem_total)
  else f32_zero.

Definition stays_local (cfg : ThresholdPolicyConfig) (mem_total : Z) (p : TaskProfile) (s : sim) : bool :=
  f32_ltb (sim_cpu s) (cpu_threshold_percent cfg) &&
  f32_ltb (sim_mem_pct mem_total s) (memory_threshold_percent cfg) &&
  bool_decide (memory_bytes p <= mem_total -! sim_mem_used s).

Definition peer_score (p : TaskProfile) (_ : nat) (x : PeerState) : option float32 :=
  if decide (memory_bytes p <= mem_available x) then Some (cpu_load x) else None.

(** The index of the chosen peer, or [peers.size()]. *)
Definition best_peer (p : TaskProfile) (ps : list PeerState) : nat :=
  snd (pick (peer_score p) f32_ltb (f32_max, length ps) ps).

Definition offload_to (p : TaskProfile) (x : PeerState) : PeerState :=
  mkPeerState (ps_id x) (f32_add (cpu_load x) (cpu_increase p)) (mem_available x -! memory_bytes p)
    (ps_compute x + compute_cost p).

(** One task.  The compute sums, of which the largest is the makespan, are [int64_t]
    durations in the source, where an overflow is undefined; here they are exact. *)
Definition threshold_step (cfg : ThresholdPolicyConfig) (d : WorkloadDAG) (local : ResourceSnapshot)
  (s : sim) (id : TaskId) : sim :=
  match get_task d id with
  | None => s
  | Some t =>
      let p := task_profile t in
      if stays_local cfg (memory_total_bytes local) p s then
        mkSim (f32_min (f32_add (sim_cpu s) (cpu_increase p)) f32_100)
          (sim_mem_used s +! memory_bytes p) (local_compute s + compute_cost p) (sim_peers s)
          (sim_decisions s ++ [mkDecision id (snap_node_id local) LocalCapacity])
      else
        match sim_peers s !! best_peer p (sim_peers s) with
        | Some x =>
            mkSim (sim_cpu s) (sim_mem_used s) (local_compute s)
              (<[best_peer p (sim_peers s) := offload_to p x]> (sim_peers s))
              (sim_decisions s ++ [mkDecision id (ps_id x) ThresholdOffload])
        | None =>
            mkSim (sim_cpu s) (sim_mem_used s +! memory_bytes p) (local_compute s + compute_cost p)
              (sim_peers s) (sim_decisions s ++ [mkDecision id (snap_node_id local) Fallback])
        end
  end.

Definition sim_makespan (s : sim) : Duration :=
  Z.max (local_compute s) (foldl (fun m x => Z.max m (ps_compute x)) 0 (sim_peers s)).

Section policy.
Context {IO : IterOrder} (cfg : ThresholdPolicyConfig).

Definition threshold_final (d : WorkloadDAG) (local : ResourceSnapshot) (c : ClusterView) : sim :=
  foldl (threshold_step cfg d local) (sim_init local c) (topological_order d).

Definition threshold_schedule (now : Z) (d : WorkloadDAG) (local : ResourceSnapshot) (c : ClusterView)
  : SchedulingPlan :=
  let s := threshold_final d local c in
  mkPlan (sim_decisions s) (sim_makespan s) now.

Definition ThresholdPolicy : SchedulingPolicy :=
  {| schedule := threshold_schedule; policy_name := "threshold" |}.
End policy.

(** * Selection *)

Lemma f32_ltb_irrefl s : f32_ltb s s = false.
Proof. apply not_true_iff_false. exact (f32_lt_irrefl s). Qed.

Lemma f32_ltb_trans a b c : f32_ltb a b = true -> f32_ltb b c = true -> f32_ltb a c = true.
Proof. exact (f32_lt_trans a b c). Qed.

(** A chosen peer has the memory, and no peer with the memory is less loaded; none is
    chosen only if no peer with the memory has a load below [FLT_MAX]. *)
Lemma best_peer_spec p ps :
  match ps !! best_peer p ps with
  | Some x => memory_bytes p <= mem_available x /\
      forall j y, ps !! j = Some y -> memory_bytes p <= mem_available y -> f32_ltb (cpu_load y) (cpu_load x) = false
  | None => forall j y, ps !! j = Some y -> memory_bytes p <= mem_available y ->
      f32_ltb (cpu_load y) f32_max = false
  end.
Proof.
  destruct (pick_spec (peer_score p) f32_ltb f32_ltb_irrefl f32_ltb_trans ps (f32_max, length ps))
    as [Hmax Hsrc].
  unfold best_peer. set (r := pick _ _ _ _) in *.
  assert (Hm : forall j y, ps !! j = Some y -> memory_bytes p <= mem_available y ->
                 f32_ltb (cpu_load y) (fst r) = false).
  { intros j y Hj Hy. apply (Hmax j y); [by eapply lookup_lt_Some|done|].
    unfold peer_score. by rewrite decide_True. }
  destruct Hsrc as [Hr|(x & _ & Hx & Hs & _)].
  - rewrite Hr in *. cbn in *. by rewrite lookup_ge_None_2.
  - rewrite Hx. unfold peer_score in Hs. case_decide; [|done]. injection Hs as Hs. split; [done|].
    intros j y. rewrite Hs. apply Hm.
Qed.

(** * The loop invariant *)

Section loop.
Context (cfg : ThresholdPolicyConfig) (d : WorkloadDAG) (local : ResourceSnapshot) (c : ClusterView).

Lemma threshold_peers_ids : ps_id <$> threshold_peers c = peer_node_id <$> reachable_peers c.
Proof. unfold threshold_peers. by rewrite <- list_fmap_compose. Qed.

Record threshold_inv (done : list TaskId) (s : sim) : Prop := {
  ti_ids : ps_id <$> sim_peers s = ps_id <$> threshold_peers c;
  ti_tasks : dec_task <$> sim_decisions s = known_in d done;
  ti_nodes : Forall (fun x => assigned_node x ∈ node_ids local c) (sim_decisions s)
}.

Record threshold_acct (s : sim) : Prop := {
  ta_local : local_compute s = load (cost_of d) (snap_node_id local) (sim_decisions s);
  ta_compute : forall i x, sim_peers s !! i = Some x -> ps_compute x = load (cost_of d) (ps_id x) (sim_decisions s);
  ta_memory : forall i x x0, sim_peers s !! i = Some x -> threshold_peers c !! i = Some x0 ->
    is_u64 (mem_available x0) ->
    mem_available x + load (mem_of d) (ps_id x) (sim_decisions s) = mem_available x0 /\ 0 <= mem_available x
}.

(** While nothing has fallen back, the simulated memory is exact and within the total. *)
Definition local_memory_ok (s : sim) : Prop :=
  Forall (fun x => reason x <> Fallback) (sim_decisions s) ->
  sim_mem_used s = memory_total_bytes local - memory_available_bytes local
                   + load (mem_of d) (snap_node_id local) (sim_decisions s) /\
  sim_mem_used s <= memory_total_bytes local.

Lemma threshold_step_inv done s v :
  threshold_inv done s -> threshold_inv (done ++ [v]) (threshold_step cfg d local s v).
Proof.
  intros [H1 H2 H3]. unfold threshold_step. destruct (get_task d v) as [t|] eqn:Et.
  2: { split; try done. by rewrite (known_in_none d done v Et). }
  assert (Hsnoc : forall n r, dec_task <$> (sim_decisions s ++ [mkDecision v n r]) = known_in d (done ++ [v])).
  { intros. by rewrite fmap_app, H2, (known_in_some d done v t Et). }
  assert (Hnode : forall n r, n ∈ node_ids local c ->
            Forall (fun x => assigned_node x ∈ node_ids local c) (sim_decisions s ++ [mkDecision v n r])).
  { intros. apply Forall_app. split; [done|]. constructor; [done|constructor]. }
  destruct (stays_local _ _ _ _); [split; cbn; auto; apply Hnode; by left|].
  destruct (sim_peers s !! _) as [x|] eqn:Hx; split; cbn; auto; try (apply Hnode; by left).
  - rewrite list_fmap_insert, <- H1. apply list_insert_id. rewrite list_lookup_fmap, Hx. done.
  - apply Hnode. right. rewrite <- threshold_peers_ids, <- H1. by apply list_elem_of_fmap_2, (list_elem_of_lookup_2 _ _ _ Hx).
Qed.

Lemma peer_id_ne_local done s i x : NoDup (node_ids local c) -> threshold_inv done s ->
  sim_peers s !! i = Some x -> snap_node_id local <> ps_id x.
Proof.
  intros [Hn _]%NoDup_cons Hi Hx E. apply Hn. rewrite <- threshold_peers_ids, <- (ti_ids _ _ Hi), E.
  by apply list_elem_of_fmap_2, (list_elem_of_lookup_2 _ _ _ Hx).
Qed.

Lemma peer_id_inj done s i j x y : NoDup (node_ids local c) -> threshold_inv done s ->
  sim_peers s !! i = Some x -> sim_peers s !! j = Some y -> ps_id x = ps_id y -> i = j.
Proof.
  intros [_ Hnd]%NoDup_cons Hi Hx Hy E. rewrite <- threshold_peers_ids, <- (ti_ids _ _ Hi) in Hnd.
  eapply (NoDup_lookup _ _ _ (ps_id x) Hnd); rewrite list_lookup_fmap; [by rewrite Hx|by rewrite Hy, E].
Qed.

Lemma threshold_step_acct done s v :
  (forall u, 0 <= mem_of d u) -> NoDup (node_ids local c) ->
  threshold_inv done s -> threshold_acct s -> threshold_acct (threshold_step cfg d local s v).
Proof.
  intros Hmem Hnd Hi Ha. unfold threshold_step. destruct (get_task d v) as [t|] eqn:Et; [|done].
  pose proof (cost_of_task _ _ _ Et) as Hc. pose proof (mem_of_task _ _ _ Et) as Hm. pose proof (Hmem v) as Hmv.
  assert (Hlocal : forall cpu used r, threshold_acct (mkSim cpu used (local_compute s + compute_cost (task_profile t))
            (sim_peers s) (sim_decisions s ++ [mkDecision v (snap_node_id local) r]))).
  { intros cpu used r. split; cbn.
    - rewrite load_snoc, decide_True by done. rewrite (ta_local _ Ha). lia.
    - intros i x Hx. rewrite load_snoc, decide_False, Z.add_0_r; [by eapply ta_compute|by eapply peer_id_ne_local].
    - intros i x x0 Hx H0 Hu. rewrite load_snoc, decide_False, Z.add_0_r; [by eapply (ta_memory _ Ha)|by eapply peer_id_ne_local]. }
  destruct (stays_local _ _ _ _); [apply Hlocal|].
  pose proof (best_peer_spec (task_profile t) (sim_peers s)) as Hbest.
  destruct (sim_peers s !! _) as [x|] eqn:Hx; [|apply Hlocal]. destruct Hbest as [Hfit _].
  assert (Hother : forall i y, best_peer (task_profile t) (sim_peers s) <> i -> sim_peers s !! i = Some y -> ps_id x <> ps_id y).
  { intros i y Hne Hy E. apply Hne. by eapply (peer_id_inj done s). }
  split; cbn.
  - rewrite load_snoc, decide_False, Z.add_0_r; [apply Ha|]. intros E. by apply (peer_id_ne_local _ _ _ _ Hnd Hi Hx).
  - intros i y [[<- [<- _]]|[Hne Hy]]%list_lookup_insert_Some; rewrite load_snoc; cbn.
    + rewrite decide_True by done. rewrite (ta_compute _ Ha _ _ Hx). lia.
    + rewrite decide_False, Z.add_0_r; [by eapply ta_compute|by eapply Hother].
  - intros i y y0 [[<- [<- _]]|[Hne Hy]]%list_lookup_insert_Some H0 Hu; rewrite load_snoc; cbn.
    + destruct (ta_memory _ Ha _ _ _ Hx H0 Hu) as [E1 E2]. rewrite decide_True by done.
      assert (0 <= load (mem_of d) (ps_id x) (sim_decisions s)) by (by apply load_nonneg).
      unfold is_u64 in Hu. rewrite u64_small by (unfold is_u64; lia). lia.
    + rewrite decide_False, Z.add_0_r; [by eapply (ta_memory _ Ha)|by eapply Hother].
Qed.

Lemma threshold_step_local done s v :
  (forall u, 0 <= mem_of d u) -> NoDup (node_ids local c) ->
  0 <= memory_available_bytes local <= memory_total_bytes local -> memory_total_bytes local < 2 ^ 64 ->
  threshold_inv done s -> local_memory_ok s -> local_memory_ok (threshold_step cfg d local s v).
Proof.
  intros Hmem Hnd Hav Htot Hi Hl. unfold threshold_step. destruct (get_task d v) as [t|] eqn:Et; [|done].
  pose proof (mem_of_task _ _ _ Et) as Hm. pose proof (Hmem v) as Hmv.
  destruct (stays_local _ _ _ _) eqn:Est.
  - unfold local_memory_ok. cbn. intros [Hf _]%Forall_app. destruct (Hl Hf) as [E1 E2].
    assert (0 <= load (mem_of d) (snap_node_id local) (sim_decisions s)) by (by apply load_nonneg).
    unfold stays_local in Est. apply andb_true_iff in Est as [_ Hfit]. apply bool_decide_eq_true in Hfit.
    rewrite u64_small in Hfit by (unfold is_u64; lia).
    rewrite load_snoc, decide_True by done. rewrite u64_small by (unfold is_u64; lia). lia.
  - destruct (sim_peers s !! _) as [x|] eqn:Hx; unfold local_memory_ok; cbn; intros [Hf Hlast]%Forall_app.
    + destruct (Hl Hf) as [E1 E2]. rewrite load_snoc, decide_False, Z.add_0_r; [done|].
      intros E. by apply (peer_id_ne_local _ _ _ _ Hnd Hi Hx).
    + apply Forall_cons in Hlast as [Hr _]. by destruct Hr.
Qed.
End loop.

(** * The contract *)

Section contract.
Context {IO : IterOrder} (cfg : ThresholdPolicyConfig).
Implicit Types (d : WorkloadDAG) (local : ResourceSnapshot) (c : ClusterView).

Lemma threshold_final_inv d local c :
  threshold_inv d local c (topological_order d) (threshold_final cfg d local c).
Proof.
  unfold threshold_final. apply (foldl_inv (fun done s => threshold_inv d local c done s)).
  - split; [done|done|constructor].
  - intros. by apply threshold_step_inv.
Qed.

Lemma threshold_final_acct d local c :
  (forall u, 0 <= mem_of d u) -> NoDup (node_ids local c) -> threshold_acct d local c (threshold_final cfg d local c).
Proof.
  intros Hmem Hnd. unfold threshold_final.
  apply (foldl_inv (fun done s => threshold_inv d local c done s /\ threshold_acct d local c s)).
  - split; [split; [done|done|constructor]|]. split; cbn.
    + done.
    + intros i x Hx. apply list_lookup_fmap_Some in Hx as (p & -> & _). done.
    + intros i x x0 Hx H0 [Hu _]. assert (x = x0) as -> by congruence. unfold load. cbn. lia.
  - intros done s v [H1 H2]. split; [by apply threshold_step_inv|by eapply threshold_step_acct].
Qed.

Lemma threshold_final_local d local c :
  (forall u, 0 <= mem_of d u) -> NoDup (node_ids local c) ->
  0 <= memory_available_bytes local <= memory_total_bytes local -> memory_total_bytes local < 2 ^ 64 ->
  local_memory_ok d local (threshold_final cfg d local c).
Proof.
  intros Hmem Hnd Hav Htot. unfold threshold_final.
  apply (foldl_inv (fun done s => threshold_inv d local c done s /\ local_memory_ok d local s)).
  - split; [split; [done|done|constructor]|]. intros _. cbn. rewrite u64_small by (unfold is_u64; lia).
    unfold load. cbn. lia.
  - intros done s v [H1 H2]. split; [by apply threshold_step_inv|by eapply threshold_step_local].
Qed.

Lemma threshold_complete now d local c : closed d ->
  dec_task <$> decisions (threshold_schedule cfg now d local c) = topological_order d.
Proof.
  intros Hcl. cbn. by rewrite (ti_tasks _ _ _ _ _ (threshold_final_inv d local c)), known_in_closed.
Qed.

Lemma threshold_nodes_ok now d local c x :
  x ∈ decisions (threshold_schedule cfg now d local c) -> assigned_node x ∈ node_ids local c.
Proof. cbn. pose proof (ti_nodes _ _ _ _ _ (threshold_final_inv d local c)) as H. rewrite Forall_forall in H. apply H. Qed.

Lemma threshold_peer_memory now d local c p :
  (forall u, 0 <= mem_of d u) -> NoDup (node_ids local c) -> p ∈ reachable_peers c ->
  is_u64 (memory_available_bytes (peer_resources p)) ->
  load (mem_of d) (peer_node_id p) (decisions (threshold_schedule cfg now d local c))
    <= memory_available_bytes (peer_resources p).
Proof.
  intros Hmem Hnd Hp Hu. cbn. pose proof (threshold_final_acct d local c Hmem Hnd) as Ha.
  pose proof (ti_ids _ _ _ _ _ (threshold_final_inv d local c)) as Eids.
  apply list_elem_of_lookup in Hp as [i Hi]. rewrite threshold_peers_ids in Eids.
  assert (H : (ps_id <$> sim_peers (threshold_final cfg d local c)) !! i = Some (peer_node_id p))
    by (rewrite Eids, list_lookup_fmap, Hi; done).
  apply list_lookup_fmap_Some in H as (x & Ex & Hx).
  assert (H0 : threshold_peers c !! i = Some (mkPeerState (peer_node_id p) (cpu_usage_percent (peer_resources p))
                 (memory_available_bytes (peer_resources p)) 0))
    by (unfold threshold_peers; by rewrite list_lookup_fmap, Hi).
  destruct (ta_memory _ _ _ _ Ha _ _ _ Hx H0 Hu) as [E1 E2]. cbn in E1. rewrite <- Ex in E1. lia.
Qed.

#[export] Instance ThresholdLaws : SchedulingPolicyLaws (ThresholdPolicy cfg).
Proof.
  split; cbn -[threshold_schedule].
  - intros. by rewrite threshold_complete.
  - intros. by eapply threshold_nodes_ok.
  - intros. by apply threshold_peer_memory.
Qed.

(** The estimate is the largest load. *)
Lemma threshold_makespan_ge now d local c n :
  (forall u, 0 <= mem_of d u) -> NoDup (node_ids local c) -> n ∈ node_ids local c ->
  load (cost_of d) n (decisions (threshold_schedule cfg now d local c))
    <= estimated_makespan (threshold_schedule cfg now d local c).
Proof.
  intros Hmem Hnd Hn. pose proof (threshold_final_acct d local c Hmem Hnd) as Ha. cbn. unfold sim_makespan.
  apply elem_of_cons in Hn as [->|Hn]; [rewrite <- (ta_local _ _ _ _ Ha); lia|].
  rewrite <- threshold_peers_ids, <- (ti_ids _ _ _ _ _ (threshold_final_inv d local c)) in Hn.
  apply list_elem_of_fmap in Hn as (x & -> & Hx). apply list_elem_of_lookup in Hx as [i Hi].
  rewrite <- (ta_compute _ _ _ _ Ha _ _ Hi). etrans; [|apply Z.le_max_r].
  apply (foldl_max_spec (fun x => ps_compute x)). by eapply list_elem_of_lookup_2.
Qed.

Lemma threshold_makespan_attained now d local c :
  (forall u, 0 <= mem_of d u) -> NoDup (node_ids local c) ->
  let plan := threshold_schedule cfg now d local c in
  estimated_makespan plan = 0 \/
  exists n, n ∈ node_ids local c /\ estimated_makespan plan = load (cost_of d) n (decisions plan).
Proof.
  intros Hmem Hnd. cbn. pose proof (threshold_final_acct d local c Hmem Hnd) as Ha. unfold sim_makespan.
  destruct (Z.max_spec (local_compute (threshold_final cfg d local c))
    (foldl (fun m x => Z.max m (ps_compute x)) 0 (sim_peers (threshold_final cfg d local c)))) as [[_ ->]|[_ ->]].
  2: { right. exists (snap_node_id local). split; [by left|]. apply Ha. }
  destruct (foldl_max_spec ps_compute (sim_peers (threshold_final cfg d local c)) 0) as (_ & _ & [->|(x & Hx & ->)]);
    [by left|right]. exists (ps_id x). split.
  - right. rewrite <- threshold_peers_ids, <- (ti_ids _ _ _ _ _ (threshold_final_inv d local c)).
    by apply list_elem_of_fmap_2.
  - apply list_elem_of_lookup in Hx as [i Hi]. by apply (ta_compute _ _ _ _ Ha i).
Qed.

(** * Properties *)

(** C22: The threshold plan is complete and feasible.  It lists exactly the tasks,
    dependencies first, on this node or reachable peers; with distinct node ids no peer is
    given more memory than it reported, the estimated makespan is the largest compute load
    of a node, and as long as no task had to fall back, the tasks kept on this node fit in
    the memory it had available. *)
Theorem threshold_plan_correct now d local c :
  closed d -> mems_nonneg d -> NoDup (node_ids local c) ->
  let plan := schedule (SchedulingPolicy := ThresholdPolicy cfg) now d local c in
  dec_task <$> decisions plan = topological_order d /\
  (forall x, x ∈ decisions plan -> assigned_node x ∈ node_ids local c) /\
  (forall p, p ∈ reachable_peers c -> is_u64 (memory_available_bytes (peer_resources p)) ->
     load (mem_of d) (peer_node_id p) (decisions plan) <= memory_available_bytes (peer_resources p)) /\
  (forall n, n ∈ node_ids local c -> load (cost_of d) n (decisions plan) <= estimated_makespan plan) /\
  (estimated_makespan plan = 0 \/
   exists n, n ∈ node_ids local c /\ estimated_makespan plan = load (cost_of d) n (decisions plan)) /\
  (0 <= memory_available_bytes local <= memory_total_bytes local -> memory_total_bytes local < 2 ^ 64 ->
   Forall (fun x => reason x <> Fallback) (decisions plan) ->
   load (mem_of d) (snap_node_id local) (decisions plan) <= memory_available_bytes local).
Proof.
  intros Hcl Hmem Hnd plan. split_and!.
  - by apply threshold_complete.
  - apply threshold_nodes_ok.
  - intros. by apply threshold_peer_memory.
  - intros. by apply threshold_makespan_ge.
  - by apply threshold_makespan_attained.
  - intros Hav Htot Hf. destruct (threshold_final_local d local c Hmem Hnd Hav Htot Hf) as [E1 E2].
    cbn. lia.
Qed.
End contract.

Lemma threshold_plan_correct_witness :
  let plan := threshold_schedule (IO := IterCanonical) default_threshold 0 diamond_dag sample_local sample_cluster in
  closed diamond_dag /\ NoDup (node_ids sample_local sample_cluster) /\
  map assigned_node (decisions plan) = ["pi-0"; "pi-0"; "pi-1"; "pi-1"] /\
  dec_task <$> decisions plan = topological_order (IO := IterCanonical) diamond_dag.
Proof.
  split; [decide_now|]. split; [exact sample_ids_distinct|]. split; [vm_compute; reflexivity|].
  apply (threshold_plan_correct (IO := IterCanonical) default_threshold 0 diamond_dag sample_local sample_cluster);
    [decide_now|decide_now|exact sample_ids_distinct].
Defined.

(** What each threshold decision means.  A task stays here with reason [LocalCapacity]
    exactly when CPU and memory are below their thresholds and it fits; otherwise it is
    offloaded to a peer that has the memory and is least loaded among those; it falls back
    to this node only if no peer with the memory reports a load below [FLT_MAX]. *)
Theorem threshold_decision_meaning cfg d local s id t :
  get_task d id = Some t ->
  let p := task_profile t in
  exists n r, sim_decisions (threshold_step cfg d local s id) = sim_decisions s ++ [mkDecision id n r] /\
    (r = LocalCapacity <-> stays_local cfg (memory_total_bytes local) p s = true) /\
    (r = LocalCapacity \/ r = Fallback -> n = snap_node_id local) /\
    (r = ThresholdOffload -> exists x, x ∈ sim_peers s /\ n = ps_id x /\ memory_bytes p <= mem_available x /\
       forall y, y ∈ sim_peers s -> memory_bytes p <= mem_available y -> f32_ltb (cpu_load y) (cpu_load x) = false) /\
    (r = Fallback -> forall y, y ∈ sim_peers s -> memory_bytes p <= mem_available y ->
       f32_ltb (cpu_load y) f32_max = false).
Proof.
  intros Ht p. unfold threshold_step. rewrite Ht. fold p.
  destruct (stays_local _ _ _ _) eqn:Es; [eexists _, _; split; [done|]; naive_solver|].
  pose proof (best_peer_spec p (sim_peers s)) as Hb.
  destruct (sim_peers s !! _) as [x|] eqn:Hx; eexists _, _; (split; [done|]); split_and!; try naive_solver.
  - intros _. exists x. destruct Hb as [Hfit Hmin]. split_and!; [by eapply list_elem_of_lookup_2|done|done|].
    intros y [j Hj]%list_elem_of_lookup. by eapply Hmin.
  - intros _ y [j Hj]%list_elem_of_lookup. by eapply Hb.
Qed.

Lemma threshold_decision_meaning_witness :
  exists n r, sim_decisions (threshold_step default_threshold diamond_dag sample_local
                (sim_init sample_local sample_cluster) "right") = [mkDecision "right" n r] /\
    (r = LocalCapacity <->
     stays_local default_threshold 100 (mkProfile 2 30 0 0) (sim_init sample_local sample_cluster) = true).
Proof.
  destruct (threshold_decision_meaning default_threshold diamond_dag sample_local
    (sim_init sample_local sample_cluster) "right" (mkTask "right" "right" (mkProfile 2 30 0 0) ["src"] Pending))
    as (n & r & H1 & H2 & _); [vm_compute; reflexivity|].
  exists n, r. split; [exact H1|exact H2].
Defined.
