(* ===== verification/Optimizer.v ===== *)
(** [OptimizerPolicy] of [scheduler/optimizer_policy.cpp]: critical-path assignment, bin
    packing of the rest, and a randomised local search on the estimated makespan.

    [std::sort] may order equivalent elements either way and [std::mt19937] with
    [std::uniform_int_distribution] yields some index in range; both are type classes with
    just that behaviour. *)

From Stdlib Require Import ZArith Lia.
From stdpp Require Import base gmap strings numbers list.
From S2P Require Import Prelude Float32 Core Dag Kahn Cycle Metrics Config Scheduler DagTheorems.

Local Open Scope Z_scope.
Local Open Scope cpp_scope.

(** * The standard library *)

(** [std::sort]: some rearrangement that the comparison accepts. *)
Class StdSort := {
  std_sort : (TaskId -> TaskId -> bool) -> list TaskId -> list TaskId;
  std_sort_perm : forall lt l, std_sort lt l ≡ₚ l
}.

(** What [static_cast<int64_t>] of a [float] gives when the value does not fit, where the
    standard leaves it open. *)
Class FloatCast := { cast_undefined : float32 -> Z }.

(** A seeded generator and [uniform_int_distribution<size_t>(0, max)]; the platform that has
    it also has its way with casts. *)
Class Rng := {
  rng_cast :: FloatCast;
  rng_state : Type;
  rng_seed : Z -> rng_state;
  uniform : nat -> rng_state -> nat * rng_state;
  uniform_le : forall max r, (fst (uniform max r) <= max)%nat
}.

(** * Node budgets and the makespan estimate *)

Record NodeBudget := mkBudget {
  nb_id : NodeId;
  memory_capacity : Z;
  memory_used : Z;
  nb_compute : Duration;
  assigned_tasks : list TaskId
}.

Definition memory_remaining (n : NodeBudget) : Z :=
  if decide (memory_used n < memory_capacity n) then memory_capacity n - memory_used n else 0.

Definition budgets (local : ResourceSnapshot) (c : ClusterView) : list NodeBudget :=
  mkBudget (snap_node_id local) (memory_available_bytes local) 0 0 [] ::
  ((fun p => mkBudget (peer_node_id p) (memory_available_bytes (peer_resources p)) 0 0 []) <$> reachable_peers c).

(** [+=] and [-=] on a node's accounts. *)
Definition take_on (id : TaskId) (p : TaskProfile) (n : NodeBudget) : NodeBudget :=
  mkBudget (nb_id n) (memory_capacity n) (memory_used n +! memory_bytes p)
    (nb_compute n + compute_cost p) (assigned_tasks n ++ [id]).

Fixpoint remove_first (id : TaskId) (l : list TaskId) : list TaskId :=
  match l with
  | [] => []
  | x :: l' => if decide (x = id) then l' else x :: remove_first id l'
  end.

Definition hand_back (id : TaskId) (p : TaskProfile) (n : NodeBudget) : NodeBudget :=
  mkBudget (nb_id n) (memory_capacity n) (memory_used n -! memory_bytes p)
    (nb_compute n - compute_cost p) (remove_first id (assigned_tasks n)).

(** [static_cast<int64_t>(float(output_bytes) * comm_weight * 0.001f)]. *)
Definition transfer_time {FC : FloatCast} (comm_weight : float32) (p : TaskProfile) : Z :=
  let x := f32_mul (f32_mul (f32_of_Z (output_bytes p)) comm_weight) (f32_of_ratio 1 1000) in
  match f32_trunc x with
  | Some z => if (- 2 ^ 63 <=? z) && (z <? 2 ^ 63) then z else cast_undefined x
  | None => cast_undefined x
  end.

(** The times are [int64_t] in the source, where an overflow is undefined; here the sums are
    exact. *)
Section estimate.
Context {IO : IterOrder} {FC : FloatCast} (d : WorkloadDAG) (comm_weight : float32) (assignment : gmap TaskId nat).

(** When the output of a dependency is at hand on [node]. *)
Definition arrival (end_time : gmap TaskId Z) (n : nat) (dep : TaskId) : option Z :=
  e ← end_time !! dep;
  Some (match assignment !! dep, get_task d dep with
        | Some m, Some t => if decide (m <> n) then e + transfer_time comm_weight (task_profile t) else e
        | _, _ => e
        end).

Definition ready_time (end_time : gmap TaskId Z) (n : nat) (id : TaskId) : Z :=
  foldl (fun ready dep => match arrival end_time n dep with
                          | Some a => Z.max ready a
                          | None => ready
                          end) 0 (dependencies d id).

Record timeline := mkTimeline { end_time : gmap TaskId Z; node_free : list Z; makespan : Z }.

Definition place_step (tl : timeline) (id : TaskId) : timeline :=
  match get_task d id, assignment !! id with
  | Some t, Some n =>
      let start := Z.max (ready_time (end_time tl) n id) (default 0 (node_free tl !! n)) in
      let end_ := start + compute_cost (task_profile t) in
      mkTimeline (<[id := end_]> (end_time tl)) (<[n := end_]> (node_free tl)) (Z.max (makespan tl) end_)
  | _, _ => tl
  end.

Definition estimate_timeline (nodes : nat) : timeline :=
  foldl place_step (mkTimeline ∅ (replicate nodes 0) 0) (topological_order d).

Definition estimate_makespan (nodes : nat) : Duration := makespan (estimate_timeline nodes).
End estimate.

(** * Phase 1: critical path assignment *)

Section phase1.
Context {IO : IterOrder} (d : WorkloadDAG).

(** One outgoing edge of [u]: longest distance and predecessor. *)
Definition cp_relax (u : TaskId) (acc : gmap TaskId Z * gmap TaskId TaskId) (v : TaskId)
  : gmap TaskId Z * gmap TaskId TaskId :=
  let '(dist, pred) := acc in
  match get_task d v with
  | None => acc
  | Some t =>
      let candidate := at_or 0 dist u + compute_cost (task_profile t) in
      if decide (at_or 0 dist v < candidate) then (<[v := candidate]> dist, <[v := u]> pred)
      else (<[v := at_or 0 dist v]> dist, pred)
  end.

Definition cp_step (acc : gmap TaskId Z * gmap TaskId TaskId) (u : TaskId)
  : gmap TaskId Z * gmap TaskId TaskId :=
  match get_task d u with
  | None => acc
  | Some t =>
      let acc' := if decide (dependencies d u = []) then (<[u := compute_cost (task_profile t)]> (fst acc), snd acc)
                  else acc in
      foldl (cp_relax u) acc' (dependents d u)
  end.

Definition cp_tables (topo : list TaskId) : gmap TaskId Z * gmap TaskId TaskId :=
  foldl cp_step (foldl (fun m id => <[id := 0]> m) ∅ topo, ∅) topo.

(** The first id of the map's iteration with the largest distance above -1. *)
Definition cp_end (dist : gmap TaskId Z) : TaskId :=
  snd (foldl (fun '(m, e) '(id, x) => if decide (m < x) then (x, id) else (m, e)) (-1, "") (iter dist)).

(** Following [predecessor] back; [None] when the fuel runs out. *)
Fixpoint trace_back (fuel : nat) (pred : gmap TaskId TaskId) (curr : TaskId) (acc : gset TaskId)
  : option (gset TaskId) :=
  if decide (curr = "") then Some acc
  else match fuel with
  | O => None
  | S fuel' => trace_back fuel' pred (default "" (pred !! curr)) ({[curr]} ∪ acc)
  end.

Definition critical_set (topo : list TaskId) : option (gset TaskId) :=
  let '(dist, pred) := cp_tables topo in
  trace_back (S (S (length topo))) pred (cp_end dist) ∅.

Definition critical_path_assignment (now : Z) (local : ResourceSnapshot) : SchedulingPlan :=
  let topo := topological_order d in
  if decide (topo = []) then mkPlan [] 0 now
  else
    let crit := default ∅ (critical_set topo) in
    mkPlan ((fun id => mkDecision id (snap_node_id local) OptimizationResult) <$> filter (fun id => id ∈ crit) topo)
      0 now.
End phase1.

(** * Phase 2: bin packing *)

Section phase2.
Context {IO : IterOrder} {SS : StdSort} (d : WorkloadDAG).

(** Charge a decision to the first node with its id. *)
Fixpoint charge_first (x : SchedulingDecision) (p : TaskProfile) (nodes : list NodeBudget) : list NodeBudget :=
  match nodes with
  | [] => []
  | n :: nodes' =>
      if decide (nb_id n = assigned_node x) then take_on (dec_task x) p n :: nodes'
      else n :: charge_first x p nodes'
  end.

Definition account (nodes : list NodeBudget) (x : SchedulingDecision) : list NodeBudget :=
  match get_task d (dec_task x) with
  | None => nodes
  | Some t => charge_first x (task_profile t) nodes
  end.

Definition bin_score (p : TaskProfile) (_ : nat) (n : NodeBudget) : option Duration :=
  if decide (memory_bytes p <= memory_remaining n) then Some (nb_compute n) else None.

(** The node with the least compute among those with room, else this node. *)
Definition bin_best (p : TaskProfile) (nodes : list NodeBudget) : nat :=
  let best := snd (pick (bin_score p) Z.ltb (i64_max, length nodes) nodes) in
  if decide (length nodes <= best)%nat then 0%nat else best.

Definition bin_step (acc : list NodeBudget * list SchedulingDecision) (id : TaskId)
  : list NodeBudget * list SchedulingDecision :=
  let '(nodes, ds) := acc in
  match get_task d id with
  | None => acc
  | Some t =>
      let best := bin_best (task_profile t) nodes in
      match nodes !! best with
      | None => acc
      | Some n => (<[best := take_on id (task_profile t) n]> nodes,
                   ds ++ [mkDecision id (nb_id n) OptimizationResult])
      end
  end.

Definition by_cost_desc (a b : TaskId) : bool := bool_decide (cost_of d b < cost_of d a).

Definition bin_pack_remaining (plan : SchedulingPlan) (local : ResourceSnapshot) (c : ClusterView) : SchedulingPlan :=
  let assigned : gset TaskId := list_to_set (dec_task <$> decisions plan) in
  let nodes := foldl account (budgets local c) (decisions plan) in
  let remaining := filter (fun id => id ∉ assigned) (topological_order d) in
  let '(_, ds) := foldl bin_step (nodes, decisions plan) (std_sort by_cost_desc remaining) in
  mkPlan ds (estimated_makespan plan) (computed_at plan).
End phase2.

(** * Phase 3: local search *)

Section phase3.
Context {IO : IterOrder} {R : Rng} (cfg : OptimizerPolicyConfig) (d : WorkloadDAG).

(** [node_index[nodes[i].id] = i]: a later node with the same id wins. *)
Definition node_index (nodes : list NodeBudget) : gmap NodeId nat :=
  foldl (fun m '(i, n) => <[nb_id n := i]> m) ∅ (imap pair nodes).

Definition assign_step (idx : gmap NodeId nat) (acc : gmap TaskId nat * list NodeBudget) (x : SchedulingDecision)
  : gmap TaskId nat * list NodeBudget :=
  let '(asg, nodes) := acc in
  match get_task d (dec_task x), idx !! assigned_node x with
  | Some t, Some i => (<[dec_task x := i]> asg, alter (take_on (dec_task x) (task_profile t)) i nodes)
  | _, _ => acc
  end.

Record search := mkSearch {
  s_nodes : list NodeBudget;
  s_assignment : gmap TaskId nat;
  s_decisions : list SchedulingDecision;
  s_makespan : Duration;
  s_rng : rng_state
}.

Definition reassign (x : SchedulingDecision) (n : NodeId) : SchedulingDecision :=
  mkDecision (dec_task x) n (reason x).

Definition set_rng (s : search) (r : rng_state) : search :=
  mkSearch (s_nodes s) (s_assignment s) (s_decisions s) (s_makespan s) r.

(** A drawn move that passed its guards: try it, keep it if the estimate drops. *)
Definition try_move (s : search) (task_idx : nat) (id : TaskId) (p : TaskProfile) (from_node to_node : nat) : search :=
  let nodes1 := alter (take_on id p) to_node (alter (hand_back id p) from_node (s_nodes s)) in
  let asg1 := <[id := to_node]> (s_assignment s) in
  let new_makespan := estimate_makespan d (communication_weight cfg) asg1 (length nodes1) in
  if decide (new_makespan < s_makespan s) then
    let name := match nodes1 !! to_node with Some n => nb_id n | None => "" end in
    mkSearch nodes1 asg1 (alter (fun x => reassign x name) task_idx (s_decisions s)) new_makespan (s_rng s)
  else
    let nodes2 := alter (take_on id p) from_node
      (alter (fun n => mkBudget (nb_id n) (memory_capacity n) (memory_used n -! memory_bytes p)
                         (nb_compute n - compute_cost p) (removelast (assigned_tasks n))) to_node nodes1) in
    mkSearch nodes2 (<[id := from_node]> asg1) (s_decisions s) (s_makespan s) (s_rng s).

Definition search_step (s : search) : search :=
  match s_decisions s with
  | [] => s
  | _ =>
      let '(task_idx, r1) := uniform (length (s_decisions s) - 1) (s_rng s) in
      match s_decisions s !! task_idx with
      | None => set_rng s r1
      | Some x =>
          match get_task d (dec_task x) with
          | None => set_rng s r1
          | Some t =>
              let id := dec_task x in
              let from_node := default 0%nat (s_assignment s !! id) in
              let s1 := mkSearch (s_nodes s) (<[id := from_node]> (s_assignment s)) (s_decisions s)
                          (s_makespan s) r1 in
              let '(to_node, r2) := uniform (length (s_nodes s) - 1) r1 in
              let s2 := set_rng s1 r2 in
              if decide (to_node = from_node) then s2
              else match s_nodes s !! to_node with
              | None => s2
              | Some n =>
                  if decide (memory_remaining n < memory_bytes (task_profile t)) then s2
                  else try_move s2 task_idx id (task_profile t) from_node to_node
              end
          end
      end
  end.

Definition search_init (plan : SchedulingPlan) (nodes0 : list NodeBudget) : search :=
  let '(asg, nodes) := foldl (assign_step (node_index nodes0)) (∅, nodes0) (decisions plan) in
  mkSearch nodes asg (decisions plan)
    (estimate_makespan d (communication_weight cfg) asg (length nodes)) (rng_seed 42).

Definition local_search_improve (plan : SchedulingPlan) (local : ResourceSnapshot) (c : ClusterView) : SchedulingPlan :=
  if decide (length (decisions plan) < 2)%nat then plan
  else
    let nodes0 := budgets local c in
    if decide (length nodes0 < 2)%nat then plan
    else
      let s := Nat.iter (Z.to_nat (max_iterations cfg)) search_step (search_init plan nodes0) in
      mkPlan (s_decisions s) (s_makespan s) (computed_at plan).
End phase3.

Section policy.
Context {IO : IterOrder} {SS : StdSort} {R : Rng} (cfg : OptimizerPolicyConfig).

Definition optimizer_schedule (now : Z) (d : WorkloadDAG) (local : ResourceSnapshot) (c : ClusterView)
  : SchedulingPlan :=
  let plan1 := critical_path_assignment d now local in
  let plan2 := bin_pack_remaining d plan1 local c in
  local_search_improve cfg d plan2 local c.

Definition OptimizerPolicy : SchedulingPolicy :=
  {| schedule := optimizer_schedule; policy_name := "optimizer" |}.
End policy.
