(* ===== verification/OptimizerEstimate.v ===== *)
(** The makespan estimate of the optimizer is a list schedule: it is at least the cost of
    every dependency path and at least the total cost placed on each node. *)

From Stdlib Require Import ZArith Lia.
From stdpp Require Import base gmap strings numbers list.
From S2P Require Import Prelude Float32 Core Dag Kahn Cycle Metrics Config Scheduler DagTheorems Optimizer.

Local Open Scope Z_scope.

Section estimate.
Context {IO : IterOrder} {FC : FloatCast} (d : WorkloadDAG) (cw : float32) (asg : gmap TaskId nat) (nodes : nat).
Hypothesis transfers_nonneg : forall v t, get_task d v = Some t -> 0 <= transfer_time cw (task_profile t).
Hypothesis costs_ok : costs_nonneg d.
Hypothesis assigned_in_range : forall v n, asg !! v = Some n -> (n < nodes)%nat.

(** What the loop has added to a node. *)
Definition node_cost (n : nat) (v : TaskId) : Z :=
  if decide (is_Some (get_task d v) /\ asg !! v = Some n) then cost_of d v else 0.

Record timeline_inv (done : list TaskId) (tl : timeline) : Prop := {
  tl_dom : forall v e, end_time tl !! v = Some e -> v ∈ done /\ e <= makespan tl;
  tl_len : length (node_free tl) = nodes;
  tl_nonneg : 0 <= makespan tl;
  tl_free : forall n f, node_free tl !! n = Some f -> sumZ (node_cost n) done <= f <= makespan tl /\ 0 <= f;
  tl_closed : forall u v, v ∈ done -> u ∈ dependencies d v -> u ∈ done;
  tl_end : forall v, v ∈ done -> is_Some (get_task d v) -> is_Some (asg !! v) ->
    exists e, end_time tl !! v = Some e /\ cost_of d v <= e /\
      forall u eu, u ∈ dependencies d v -> end_time tl !! u = Some eu -> eu + cost_of d v <= e
}.

(** A loop that raises a maximum by the values that are present. *)
Lemma foldl_max_opt (f : TaskId -> option Z) l z :
  let r := foldl (fun m x => match f x with Some a => Z.max m a | None => m end) z l in
  z <= r /\ forall x a, x ∈ l -> f x = Some a -> a <= r.
Proof.
  revert z. induction l as [|y l IH]; intros z; cbn; [split; [lia|set_solver]|].
  destruct (IH (match f y with Some a => Z.max z a | None => z end)) as [H1 H2].
  split; [destruct (f y); lia|]. intros x a [->|Hx]%elem_of_cons Ha; [rewrite Ha in *; lia|by eapply H2].
Qed.

(** A dependency's arrival is no earlier than its end, and [ready] waits for it. *)
Lemma ready_time_ge et n v u eu :
  u ∈ dependencies d v -> et !! u = Some eu -> eu <= ready_time d cw asg et n v.
Proof.
  intros Hu He. unfold ready_time.
  assert (Ha : exists a, arrival d cw asg et n u = Some a /\ eu <= a).
  { unfold arrival. rewrite He. cbn. eexists. split; [done|].
    destruct (asg !! u), (get_task d u) as [t|] eqn:Et; try lia. case_decide; [|lia].
    specialize (transfers_nonneg _ _ Et). lia. }
  destruct Ha as (a & Ha & Hle). etrans; [exact Hle|].
  by eapply (foldl_max_opt (arrival d cw asg et n)).
Qed.

Lemma ready_time_nonneg et n v : 0 <= ready_time d cw asg et n v.
Proof. apply (foldl_max_opt (arrival d cw asg et n) (dependencies d v) 0). Qed.

(** Processing [v] after everything it depends on. *)
Lemma place_step_skip done v tl :
  (forall u, u ∈ dependencies d v -> u ∈ done) -> get_task d v = None \/ asg !! v = None ->
  timeline_inv done tl -> timeline_inv (done ++ [v]) tl.
Proof.
  intros Hdeps Hskip [H1 H2 H2' H3 H3' H4]. split; try done.
  - intros u e Hu. destruct (H1 _ _ Hu). split; [set_solver|done].
  - intros m f Hf. rewrite sumZ_app. cbn. unfold node_cost at 2. rewrite decide_False.
    + rewrite !Z.add_0_r. by apply H3.
    + intros [[t Ht] Hn]. destruct Hskip; congruence.
  - set_solver.
  - intros u [Hu|Hu]%elem_of_app Hk Ha; [by apply H4|]. apply list_elem_of_singleton in Hu as ->.
    destruct Hk, Ha, Hskip; congruence.
Qed.

Lemma place_step_inv done v tl :
  v ∉ done -> (forall u, u ∈ dependencies d v -> u ∈ done) ->
  timeline_inv done tl -> timeline_inv (done ++ [v]) (place_step d cw asg tl v).
Proof.
  intros Hv Hdeps Hi. unfold place_step.
  destruct (get_task d v) as [t|] eqn:Et; [destruct (asg !! v) as [n|] eqn:En|]; try (apply place_step_skip; eauto; fail).
  pose proof (cost_of_task _ _ _ Et) as Hc. pose proof (costs_ok v) as Hcv.
  destruct Hi as [H1 H2 H2' H3 H3' H4]. pose proof (ready_time_nonneg (end_time tl) n v) as Hr0.
  destruct (lookup_lt_is_Some_2 (node_free tl) n) as [f Hf]; [rewrite H2; by eapply assigned_in_range|].
  rewrite Hf. cbn [default]. rewrite <- Hc. destruct (H3 _ _ Hf) as [Hf1 Hf2].
  set (e := Z.max (ready_time d cw asg (end_time tl) n v) f + cost_of d v).
  split; cbn.
  - intros u x [[<- <-]|[Hne Hu]]%lookup_insert_Some; [split; [set_solver|lia]|].
    destruct (H1 _ _ Hu). split; [set_solver|lia].
  - by rewrite length_insert.
  - lia.
  - intros m g. rewrite sumZ_app. cbn. intros [[<- [<- _]]|[Hne Hg]]%list_lookup_insert_Some; unfold node_cost at 2.
    + rewrite decide_True by (split; [by rewrite Et|done]). lia.
    + rewrite decide_False by (intros [_ ?]; congruence). destruct (H3 _ _ Hg). lia.
  - set_solver.
  - intros u [Hu|Hu]%elem_of_app Hk Ha.
    + assert (v <> u) by (intros ->; done). destruct (H4 u Hu Hk Ha) as (x & Hx & Hcx & Hdx).
      exists x. rewrite lookup_insert_ne by done. split_and!; [done|done|].
      intros w ew Hw [[<- <-]|[Hne Hew]]%lookup_insert_Some; [|by eapply Hdx].
      by specialize (H3' v u Hu Hw).
    + apply list_elem_of_singleton in Hu as ->. exists e. rewrite lookup_insert_eq. split_and!; [done|lia|].
      intros w ew Hw [[<- <-]|[Hne Hew]]%lookup_insert_Some; [by specialize (Hdeps v Hw)|].
      pose proof (ready_time_ge (end_time tl) n v w ew Hw Hew). lia.
Qed.

Lemma estimate_timeline_inv : dag_wf d -> timeline_inv (topological_order d) (estimate_timeline d cw asg nodes).
Proof.
  intros Hwf. destruct (topological_order_spec d) as (_ & Hnd & Htopo & _). unfold estimate_timeline.
  apply (foldl_prefix_inv (fun done tl => timeline_inv done tl)).
  - split; cbn; try done; try set_solver; [by rewrite length_replicate|].
    intros n f [-> _]%lookup_replicate. done.
  - intros done y rest tl E Hi. apply place_step_inv; [|intros u Hu|done].
    + rewrite E in Hnd. apply NoDup_app in Hnd as (_ & H & _). intros Hy. apply (H y Hy). by left.
    + eapply Htopo; [exact E|]. by apply edge_dependencies.
Qed.

(** Every path has finished by the end time of its last task. *)
Lemma path_finishes : dag_wf d -> closed d -> is_valid d = true ->
  (forall v, known d v -> is_Some (asg !! v)) ->
  forall l v, path d l v ->
  exists e, end_time (estimate_timeline d cw asg nodes) !! v = Some e /\ path_cost d l <= e.
Proof.
  intros Hwf Hcl Hv Hall. pose proof (estimate_timeline_inv Hwf) as Hi.
  assert (Hin : forall v, known d v -> v ∈ topological_order d).
  { intros v Hk. rewrite (valid_closed_perm d Hcl Hv). by apply elem_of_iter_fst. }
  induction 1 as [v Hk|l u v Hp IH He Hk]; unfold path_cost in *.
  - destruct (tl_end _ _ Hi v (Hin _ Hk) Hk (Hall _ Hk)) as (e & He & Hc & _). exists e. cbn. split; [done|lia].
  - destruct IH as (eu & Heu & Hcu).
    destruct (tl_end _ _ Hi v (Hin _ Hk) Hk (Hall _ Hk)) as (e & Hev & _ & Hd). exists e. split; [done|].
    rewrite sumZ_app. cbn. specialize (Hd u eu ltac:(by apply edge_dependencies) Heu). lia.
Qed.
End estimate.

(** C25: The makespan estimate is a real lower bound on any single-slot schedule of the
    assignment: it is at least the DAG's critical path, however tasks are spread, and at
    least the total compute cost placed on any one node. *)
Theorem estimate_makespan_lower_bounds {IO : IterOrder} {FC : FloatCast} d cw asg nodes :
  dag_wf d -> closed d -> is_valid d = true -> costs_nonneg d ->
  (forall v t, get_task d v = Some t -> 0 <= transfer_time cw (task_profile t)) ->
  (forall v, known d v -> exists n, asg !! v = Some n) ->
  (forall v n, asg !! v = Some n -> (n < nodes)%nat) ->
  critical_path_cost d <= estimate_makespan d cw asg nodes /\
  forall n, (n < nodes)%nat ->
    sumZ (fun v => if decide (asg !! v = Some n) then cost_of d v else 0) (topological_order d)
      <= estimate_makespan d cw asg nodes.
Proof.
  intros Hwf Hcl Hv Hc Ht Hall Hr. pose proof (estimate_timeline_inv d cw asg nodes Ht Hc Hr Hwf) as Hi. split.
  - destruct (critical_path_cost_spec d Hwf Hcl Hc Hv) as (_ & l & v & Hp & <-).
    destruct (path_finishes d cw asg nodes Ht Hc Hr Hwf Hcl Hv Hall l v Hp) as (e & He & Hle).
    destruct (tl_dom _ _ _ _ _ Hi _ _ He) as [_ Hm]. etrans; [exact Hle|exact Hm].
  - intros n Hn. destruct (lookup_lt_is_Some_2 (node_free (estimate_timeline d cw asg nodes)) n) as [f Hf];
      [by rewrite (tl_len _ _ _ _ _ Hi)|].
    destruct (tl_free _ _ _ _ _ Hi _ _ Hf) as [[H1 H2] _]. etrans; [|exact H2]. etrans; [|exact H1].
    apply Z.eq_le_incl, sumZ_ext. intros v Hin. unfold node_cost.
    destruct (decide (asg !! v = Some n)) as [E|E].
    + rewrite decide_True; [done|]. split; [by apply topological_order_known|done].
    + rewrite decide_False; [done|]. by intros [_ ?].
Qed.

(** The answer of [cvttss2si]. *)
Definition x86_cast : FloatCast := {| cast_undefined := fun _ => - 2 ^ 63 |}.

Definition spread : gmap TaskId nat :=
  list_to_map [("src", 0%nat); ("left", 1%nat); ("right", 0%nat); ("sink", 1%nat)].

Lemma estimate_makespan_lower_bounds_witness :
  estimate_makespan (IO := IterCanonical) (FC := x86_cast) diamond_dag (f32_of_ratio 3 10) spread 2 = 12 /\
  critical_path_cost (IO := IterCanonical) diamond_dag
    <= estimate_makespan (IO := IterCanonical) (FC := x86_cast) diamond_dag (f32_of_ratio 3 10) spread 2.
Proof.
  split; [vm_compute; reflexivity|].
  refine (proj1 (estimate_makespan_lower_bounds (IO := IterCanonical) (FC := x86_cast) diamond_dag (f32_of_ratio 3 10) spread 2
    _ _ _ _ _ _ _)).
  - apply build_wf.
  - decide_now.
  - vm_compute. reflexivity.
  - decide_now.
  - assert (H : map_Forall (fun _ t => 0 <= transfer_time (FC := x86_cast) (f32_of_ratio 3 10) (task_profile t)) (tasks_ diamond_dag))
      by decide_now. exact (get_task_Forall _ _ H).
  - assert (H : map_Forall (fun v _ => is_Some (spread !! v)) (tasks_ diamond_dag)) by decide_now.
    intros v [t Ht]. destruct (H v t Ht) as [n Hn]. exists n. exact Hn.
  - assert (H : map_Forall (fun _ n => (n < 2)%nat) spread) by decide_now. intros v n Hn. exact (H v n Hn).
Defined.
