(* ===== verification/OptimizerProofs.v ===== *)
(** Correctness of the optimizer's three phases: the trace of the critical path ends, every
    task gets one decision on a known node, peers are not overcommitted, and the local
    search never makes the estimate worse. *)

From Stdlib Require Import ZArith Lia.
From stdpp Require Import base gmap strings numbers list.
From S2P Require Import Prelude Float32 Core Dag Kahn Cycle Metrics Config Scheduler DagTheorems Optimizer.

Local Open Scope Z_scope.

(** * Phase 1 terminates *)

Section trace.
Context {IO : IterOrder} (d : WorkloadDAG).

(** Predecessors lie on edges out of the processed part of the order. *)
Definition pred_ok (topo : list TaskId) (pred : gmap TaskId TaskId) : Prop :=
  forall v u, pred !! v = Some u -> edge d u v /\ u ∈ topo.

Lemma cp_relax_ok topo u acc v :
  u ∈ topo -> edge d u v -> pred_ok topo (snd acc) -> pred_ok topo (snd (cp_relax d u acc v)).
Proof.
  intros Hu He Hok. destruct acc as [dist pred]. unfold cp_relax.
  destruct (get_task d v) as [t|]; [|done]. case_decide; [|done]. cbn.
  intros x y [[<- <-]|[Hne Hx]]%lookup_insert_Some; [done|by apply Hok].
Qed.

Lemma cp_step_ok topo u acc : u ∈ topo -> pred_ok topo (snd acc) -> pred_ok topo (snd (cp_step d acc u)).
Proof.
  intros Hu Hok. unfold cp_step. destruct (get_task d u) as [t|]; [|done].
  set (acc' := if decide _ then _ else _).
  assert (Hok' : pred_ok topo (snd acc')) by (unfold acc'; by case_decide).
  clearbody acc'. assert (Hsub : forall v, v ∈ dependents d u -> edge d u v) by done. revert acc' Hok' Hsub.
  induction (dependents d u) as [|v l IH]; intros acc' Hok' Hsub; cbn; [done|].
  apply IH; [|set_solver]. apply cp_relax_ok; [done|set_solver|done].
Qed.

Lemma cp_tables_ok topo : pred_ok topo (snd (cp_tables d topo)).
Proof.
  unfold cp_tables. set (acc := (_, ∅)). assert (Hok : pred_ok topo (snd acc)) by (intros v u; cbn; by rewrite lookup_empty).
  clearbody acc. assert (Hsub : forall v, v ∈ topo -> v ∈ topo) by done. revert Hsub acc Hok.
  generalize topo at 1 5. intros l. induction l as [|u l IH]; intros Hsub acc Hok; cbn; [done|].
  apply IH; [set_solver|]. apply cp_step_ok; [set_solver|done].
Qed.

Lemma trace_back_nil fuel pred acc : trace_back fuel pred "" acc = Some acc.
Proof. by destruct fuel. Qed.

Lemma trace_back_S fuel pred curr acc : curr <> "" ->
  trace_back (S fuel) pred curr acc = trace_back fuel pred (default "" (pred !! curr)) ({[curr]} ∪ acc).
Proof. intros Hne. cbn. by rewrite decide_False. Qed.

(** Along the predecessors the position in the order decreases. *)
Lemma trace_back_ends topo pred : topo_sorted (edge d) topo -> pred_ok topo pred ->
  forall n l1 curr l2 fuel acc, (length l1 < n)%nat -> topo = l1 ++ curr :: l2 -> (length l1 < fuel)%nat ->
  is_Some (trace_back fuel pred curr acc).
Proof.
  intros Hs Hok. induction n as [|n IH]; intros l1 curr l2 fuel acc Hn E Hf; [lia|].
  destruct (decide (curr = "")) as [->|Hne]; [rewrite trace_back_nil; by eexists|].
  destruct fuel as [|fuel]; [lia|]. rewrite trace_back_S by done.
  destruct (pred !! curr) as [u|] eqn:Eu; cbn [default from_option].
  - apply Hok in Eu as [He Hu]. specialize (Hs _ _ _ E _ He).
    apply list_elem_of_split in Hs as (k1 & k2 & ->). rewrite length_app in Hf, Hn. cbn in Hf, Hn.
    apply (IH k1 u (k2 ++ curr :: l2)); [lia| |lia]. by rewrite <- app_assoc in E.
  - rewrite trace_back_nil. by eexists.
Qed.

Lemma critical_set_ends : is_Some (critical_set d (topological_order d)).
Proof.
  destruct (topological_order_spec d) as (_ & _ & Hs & _). unfold critical_set.
  pose proof (cp_tables_ok (topological_order d)) as Hok.
  destruct (cp_tables d (topological_order d)) as [dist pred]. cbn in Hok. set (e := cp_end dist). clearbody e.
  destruct (decide (e = "")) as [->|Hne]; [rewrite trace_back_nil; by eexists|].
  rewrite trace_back_S by done. destruct (pred !! e) as [u|] eqn:Eu; cbn [default from_option].
  - apply Hok in Eu as [_ Hu]. apply list_elem_of_split in Hu as (l1 & l2 & E).
    eapply (trace_back_ends (topological_order d) pred Hs Hok (S (length l1)) l1 u l2); [lia|done|].
    rewrite E, length_app. cbn. lia.
  - rewrite trace_back_nil. by eexists.
Qed.
End trace.

(** * Completeness *)

Section complete.
Context {IO : IterOrder} {SS : StdSort} {R : Rng} (cfg : OptimizerPolicyConfig) (d : WorkloadDAG).

Definition bin_ids_inv (ids : list NodeId) (ds0 : list SchedulingDecision)
  (done : list TaskId) (acc : list NodeBudget * list SchedulingDecision) : Prop :=
  nb_id <$> fst acc = ids /\ dec_task <$> snd acc = (dec_task <$> ds0) ++ known_in d done /\
  Forall (fun x => assigned_node x ∈ ids) (snd acc).

Lemma bin_best_lookup p nodes : nodes <> [] -> exists n, nodes !! bin_best p nodes = Some n.
Proof.
  intros Hne. unfold bin_best. case_decide as Hd; [destruct nodes; [done|by eexists]|].
  apply lookup_lt_is_Some_2. lia.
Qed.

Lemma bin_step_ids ids ds0 done acc v : ids <> [] ->
  bin_ids_inv ids ds0 done acc -> bin_ids_inv ids ds0 (done ++ [v]) (bin_step d acc v).
Proof.
  intros Hne (H1 & H2 & H3). destruct acc as [nodes ds]. cbn in *. unfold bin_step.
  destruct (get_task d v) as [t|] eqn:Et.
  2: { split_and!; cbn; [done| |done]. by rewrite (known_in_none d done v Et). }
  destruct (bin_best_lookup (task_profile t) nodes) as [n Hn]; [by intros ->|]. rewrite Hn. split_and!; cbn.
  - rewrite list_fmap_insert, <- H1. apply list_insert_id. by rewrite list_lookup_fmap, Hn.
  - rewrite fmap_app, H2, (known_in_some d done v t Et). by rewrite app_assoc.
  - apply Forall_app. split; [done|]. constructor; [|constructor]. cbn. rewrite <- H1.
    by apply list_elem_of_fmap_2, (list_elem_of_lookup_2 _ _ _ Hn).
Qed.

Lemma budgets_ids local c : nb_id <$> budgets local c = node_ids local c.
Proof. unfold budgets, node_ids. rewrite fmap_cons, <- list_fmap_compose. done. Qed.

Lemma charge_first_ids x p nodes : nb_id <$> charge_first x p nodes = nb_id <$> nodes.
Proof. induction nodes as [|n nodes IH]; [done|]. cbn. case_decide; cbn; [done|]. by rewrite IH. Qed.

Lemma account_ids ds nodes : nb_id <$> foldl (account d) nodes ds = nb_id <$> nodes.
Proof.
  revert nodes. induction ds as [|x ds IH]; intros nodes; cbn; [done|]. rewrite IH. unfold account.
  destruct (get_task d (dec_task x)); [|done]. apply charge_first_ids.
Qed.

Definition phase2_final (plan : SchedulingPlan) (local : ResourceSnapshot) (c : ClusterView)
  : list NodeBudget * list SchedulingDecision :=
  foldl (bin_step d) (foldl (account d) (budgets local c) (decisions plan), decisions plan)
    (std_sort (by_cost_desc d)
       (filter (fun id => id ∉ (list_to_set (dec_task <$> decisions plan) : gset TaskId)) (topological_order d))).

Lemma bin_pack_eq plan local c :
  bin_pack_remaining d plan local c = mkPlan (snd (phase2_final plan local c)) (estimated_makespan plan) (computed_at plan).
Proof. unfold bin_pack_remaining, phase2_final. by destruct (foldl (bin_step d) _ _). Qed.

Lemma phase2_inv plan local c :
  Forall (fun x => assigned_node x ∈ node_ids local c) (decisions plan) ->
  bin_ids_inv (node_ids local c) (decisions plan)
    (std_sort (by_cost_desc d)
       (filter (fun id => id ∉ (list_to_set (dec_task <$> decisions plan) : gset TaskId)) (topological_order d)))
    (phase2_final plan local c).
Proof.
  intros Hn. unfold phase2_final.
  apply (foldl_inv (fun done acc => bin_ids_inv (node_ids local c) (decisions plan) done acc)).
  - split_and!; cbn; [by rewrite account_ids, budgets_ids|by rewrite app_nil_r|done].
  - intros. by apply bin_step_ids.
Qed.

Lemma filter_split (P : TaskId -> Prop) `{!forall x, Decision (P x)} (l : list TaskId) :
  filter P l ++ filter (fun x => ~ P x) l ≡ₚ l.
Proof.
  induction l as [|x l IH]; [done|]. rewrite !filter_cons. destruct (decide (P x)) as [Hx|Hx].
  - rewrite decide_False by tauto. cbn. by rewrite IH.
  - rewrite decide_True by done. by rewrite <- Permutation_middle, IH.
Qed.

Definition plan1 (now : Z) (local : ResourceSnapshot) : SchedulingPlan := critical_path_assignment d now local.

Lemma plan1_tasks now local : exists crit : gset TaskId,
  dec_task <$> decisions (plan1 now local) = filter (fun v => v ∈ crit) (topological_order d).
Proof.
  unfold plan1, critical_path_assignment. case_decide as E.
  - exists ∅. rewrite E. done.
  - eexists. cbn. rewrite <- list_fmap_compose. apply list_fmap_id.
Qed.

Lemma plan1_local now local x : x ∈ decisions (plan1 now local) -> assigned_node x = snap_node_id local.
Proof.
  unfold plan1, critical_path_assignment. case_decide; cbn; [set_solver|].
  by intros (v & -> & _)%list_elem_of_fmap.
Qed.

Lemma plan2_tasks now local c : closed d ->
  dec_task <$> decisions (bin_pack_remaining d (plan1 now local) local c) ≡ₚ topological_order d.
Proof.
  intros Hcl. rewrite bin_pack_eq. cbn. destruct (phase2_inv (plan1 now local) local c) as (_ & -> & _).
  { apply Forall_forall. intros x Hx. rewrite (plan1_local _ _ _ Hx). by left. }
  destruct (plan1_tasks now local) as [crit Ec]. rewrite Ec.
  rewrite <- (filter_split (fun v => v ∈ crit) (topological_order d)) at 3. apply Permutation_app_head.
  unfold known_in. rewrite std_sort_perm.
  assert (Hf : forall l : list TaskId, (forall v, v ∈ l -> v ∈ topological_order d) ->
    filter (fun v => is_Some (get_task d v)) (filter (fun id => id ∉ (list_to_set (filter (fun v => v ∈ crit) (topological_order d)) : gset TaskId)) l)
    = filter (fun v => v ∉ crit) l); [|by rewrite Hf].
  induction l as [|v l IH]; intros Hl; [done|]. rewrite !filter_cons.
  assert (Hv : v ∈ topological_order d) by (apply Hl; by left).
  assert (Hiff : v ∉ (list_to_set (filter (fun v => v ∈ crit) (topological_order d)) : gset TaskId) <-> v ∉ crit).
  { rewrite elem_of_list_to_set, list_elem_of_filter. tauto. }
  destruct (decide (v ∉ crit)) as [Hc|Hc].
  - rewrite decide_True by tauto. rewrite filter_cons_True by (by apply topological_order_known).
    f_equal. apply IH. set_solver.
  - rewrite decide_False by tauto. apply IH. set_solver.
Qed.
End complete.
