(* ===== verification/OptimizerSearch.v ===== *)
(** Memory accounts of the optimizer's bin packing and the invariant of its local search. *)

From Stdlib Require Import ZArith Lia.
From stdpp Require Import base gmap strings numbers list.
From S2P Require Import Prelude Float32 Core Dag Kahn Cycle Metrics Config Scheduler DagTheorems Optimizer.
From S2P Require Import OptimizerProofs.

Local Open Scope Z_scope.
Local Open Scope cpp_scope.

(** * Loads of rearranged decisions *)

Lemma load_reassign w n ds j x name :
  ds !! j = Some x ->
  load w n (alter (fun y => reassign y name) j ds) =
    load w n ds - (if decide (assigned_node x = n) then w (dec_task x) else 0)
    + (if decide (name = n) then w (dec_task x) else 0).
Proof.
  unfold load. revert j. induction ds as [|y ds IH]; intros [|j] Hj; try done; cbn.
  - injection Hj as ->. cbn. lia.
  - cbn in Hj. specialize (IH j Hj). cbn in IH. lia.
Qed.

Lemma alter_reassign_tasks (ds : list SchedulingDecision) (j : nat) name : dec_task <$> alter (fun y => reassign y name) j ds = dec_task <$> ds.
Proof.
  revert j. induction ds as [|y ds IH]; intros [|j]; try done; cbn. f_equal. apply IH.
Qed.

Lemma list_lookup_alter_cases {A} (f : A -> A) i j (l : list A) y :
  alter f i l !! j = Some y -> exists x, l !! j = Some x /\ y = if decide (i = j) then f x else x.
Proof.
  case_decide as E; [subst|].
  - rewrite list_lookup_alter_eq. destruct (l !! j) as [x|] eqn:Ex; [|done]. intros [= <-]. by exists x.
  - rewrite list_lookup_alter_ne by done. intros H. by exists y.
Qed.

Lemma fmap_alter_same {A B} (h : A -> B) (f : A -> A) (i : nat) (l : list A) :
  (forall x, h (f x) = h x) -> h <$> alter f i l = h <$> l.
Proof. intros Hf. revert i. induction l as [|x l IH]; intros [|i]; try done; cbn; f_equal; [apply Hf|apply IH]. Qed.

(** Distinct ids name distinct positions. *)
Lemma ids_inj (nodes : list NodeBudget) i j n m :
  NoDup (nb_id <$> nodes) -> nodes !! i = Some n -> nodes !! j = Some m -> nb_id n = nb_id m -> i = j.
Proof.
  intros Hnd Hi Hj E. eapply (NoDup_lookup _ _ _ (nb_id n) Hnd); rewrite list_lookup_fmap;
    [by rewrite Hi|by rewrite Hj, E].
Qed.

(** * Accounts *)

Section accounts.
Context (d : WorkloadDAG) (ids : list NodeId) (caps : list Z).
Hypothesis mem_ok : mems_nonneg d.
Hypothesis ids_distinct : NoDup ids.

(** The nodes carry exactly the memory of the decisions. *)
Record carries (nodes : list NodeBudget) (ds : list SchedulingDecision) : Prop := {
  ca_ids : nb_id <$> nodes = ids;
  ca_caps : memory_capacity <$> nodes = caps;
  ca_mem : forall i n, nodes !! i = Some n -> memory_used n = load (mem_of d) (nb_id n) ds
}.

Definition within (ds : list SchedulingDecision) : Prop := sumZ (mem_of d) (dec_task <$> ds) < 2 ^ 64.

Lemma within_app ds es : within (ds ++ es) -> within ds.
Proof.
  unfold within. rewrite fmap_app, sumZ_app.
  assert (0 <= sumZ (mem_of d) (dec_task <$> es)) by (apply sumZ_nonneg; intros; apply mem_ok). lia.
Qed.

Lemma load_bound n ds : within ds -> 0 <= load (mem_of d) n ds < 2 ^ 64.
Proof.
  intros Hw. split; [apply load_nonneg; apply mem_ok|].
  pose proof (load_le_total (mem_of d) n ds mem_ok) as H. unfold within in Hw. lia.
Qed.

(** Adding a decision and charging its node. *)
Lemma carries_snoc nodes nodes' ds id n r t :
  carries nodes ds -> get_task d id = Some t -> within (ds ++ [mkDecision id n r]) ->
  (forall i, nodes' !! i = (fun m => if decide (nb_id m = n) then take_on id (task_profile t) m else m) <$> nodes !! i) ->
  carries nodes' (ds ++ [mkDecision id n r]).
Proof.
  intros [H1 H2 H3] Et Hw Hl. pose proof (mem_of_task _ _ _ Et) as Hm.
  assert (E : nodes' = (fun m => if decide (nb_id m = n) then take_on id (task_profile t) m else m) <$> nodes).
  { apply list_eq. intros i. by rewrite Hl, list_lookup_fmap. }
  subst nodes'. split.
  - rewrite <- list_fmap_compose, <- H1. apply list_fmap_ext. intros i m _. cbn. by case_decide.
  - rewrite <- list_fmap_compose, <- H2. apply list_fmap_ext. intros i m _. cbn. by case_decide.
  - intros i m' Hi. apply list_lookup_fmap_Some in Hi as (m & -> & Hi). specialize (H3 _ _ Hi).
    pose proof (load_bound (nb_id m) _ Hw) as Hb. rewrite load_snoc in Hb |- *.
    destruct (decide (nb_id m = n)) as [En|En]; cbn.
    + rewrite decide_True in Hb |- * by done. rewrite H3, <- Hm. apply u64_small. unfold is_u64. lia.
    + rewrite decide_False by congruence. lia.
Qed.

Lemma charge_first_lookup x p nodes i : NoDup (nb_id <$> nodes) ->
  charge_first x p nodes !! i =
    (fun m => if decide (nb_id m = assigned_node x) then take_on (dec_task x) p m else m) <$> nodes !! i.
Proof.
  revert i. induction nodes as [|n nodes IH]; intros i Hnd; [done|].
  rewrite fmap_cons in Hnd. apply NoDup_cons in Hnd as [Hn Hnd]. cbn. case_decide as E.
  - destruct i as [|i]; cbn; [by rewrite decide_True|].
    destruct (nodes !! i) as [m|] eqn:Em; cbn; [|done]. rewrite decide_False; [done|].
    intros E'. apply Hn. rewrite E, <- E'. by apply list_elem_of_fmap_2, (list_elem_of_lookup_2 _ _ _ Em).
  - destruct i as [|i]; cbn; [by rewrite decide_False|by apply IH].
Qed.

Lemma insert_lookup_id nodes i n f :
  NoDup (nb_id <$> nodes) -> nodes !! i = Some n ->
  forall j, <[i := f n]> nodes !! j = (fun m => if decide (nb_id m = nb_id n) then f m else m) <$> nodes !! j.
Proof.
  intros Hnd Hi j. destruct (decide (i = j)) as [<-|Hne].
  - rewrite list_lookup_insert_eq by (by eapply lookup_lt_Some). rewrite Hi. cbn. by rewrite decide_True.
  - rewrite list_lookup_insert_ne by done. destruct (nodes !! j) as [m|] eqn:Em; cbn; [|done].
    rewrite decide_False; [done|]. intros E. apply Hne. by eapply (ids_inj nodes i j n m).
Qed.

(** Charging the decisions already made. *)
Lemma account_carries nodes ds x :
  carries nodes ds -> get_task d (dec_task x) <> None -> within (ds ++ [x]) ->
  carries (account d nodes x) (ds ++ [x]).
Proof.
  intros Hc Hk Hw. unfold account. destruct (get_task d (dec_task x)) as [t|] eqn:Et; [|done].
  destruct x as [id n r]. cbn in *. apply (carries_snoc nodes _ ds id n r t Hc Et Hw).
  intros i. apply (charge_first_lookup (mkDecision id n r)). by rewrite (ca_ids _ _ Hc).
Qed.

Lemma bin_step_carries nodes ds id :
  carries nodes ds -> nodes <> [] -> get_task d id <> None -> within (ds ++ [mkDecision id "" Fallback]) ->
  exists n m, nodes !! bin_best (default default_profile (task_profile <$> get_task d id)) nodes = Some m /\ n = nb_id m /\
    carries (fst (bin_step d (nodes, ds) id)) (snd (bin_step d (nodes, ds) id)) /\
    snd (bin_step d (nodes, ds) id) = ds ++ [mkDecision id n OptimizationResult].
Proof.
  intros Hc Hne Hk Hw. unfold bin_step. destruct (get_task d id) as [t|] eqn:Et; [|done]. cbn.
  destruct (bin_best_lookup (task_profile t) nodes Hne) as [m Hm]. rewrite Hm. cbn.
  exists (nb_id m), m. split_and!; [done|done| |done]. apply (carries_snoc nodes _ ds id (nb_id m) _ t Hc Et).
  - unfold within in *. by rewrite !fmap_app in *.
  - apply (insert_lookup_id nodes _ m (take_on id (task_profile t))); [by rewrite (ca_ids _ _ Hc)|done].
Qed.
End accounts.

(** * Bin packing keeps the peers within their memory *)

(** Every node but the first carries at most its capacity. *)
Definition peers_fit (nodes : list NodeBudget) : Prop :=
  forall i n, nodes !! S i = Some n -> 0 <= memory_capacity n -> memory_used n <= memory_capacity n.

Lemma memory_remaining_fit n m : 0 <= m -> m <= memory_remaining n ->
  memory_used n <= memory_capacity n -> memory_used n + m <= memory_capacity n.
Proof. unfold memory_remaining. case_decide; lia. Qed.

(** The chosen bin has room, or it is this node. *)
Lemma bin_best_fits p nodes n : nodes !! bin_best p nodes = Some n ->
  bin_best p nodes = 0%nat \/ memory_bytes p <= memory_remaining n.
Proof.
  unfold bin_best. case_decide as Hlen; [by left|]. intros Hn. right.
  assert (Hirr : forall z, (z <? z) = false) by (intros; apply Z.ltb_irrefl).
  assert (Htr : forall a b c, (a <? b) = true -> (b <? c) = true -> (a <? c) = true) by (intros; lia).
  destruct (pick_spec (bin_score p) Z.ltb Hirr Htr nodes (i64_max, length nodes)) as [_ [Hr|(x & _ & Hx & Hs & _)]].
  - rewrite Hr in Hlen. cbn in Hlen. lia.
  - assert (x = n) as -> by congruence. unfold bin_score in Hs. case_decide; done.
Qed.

Section phase2.
Context {IO : IterOrder} {SS : StdSort} (d : WorkloadDAG) (local : ResourceSnapshot) (c : ClusterView).
Hypothesis mem_ok : mems_nonneg d.
Hypothesis ids_distinct : NoDup (node_ids local c).
Hypothesis dag_closed : closed d.
Hypothesis total_ok : sumZ (mem_of d) (topological_order d) < 2 ^ 64.

Let ids := node_ids local c.
Let caps := memory_capacity <$> budgets local c.

Lemma budgets_carries : carries d ids caps (budgets local c) [].
Proof.
  split; [apply budgets_ids|done|]. intros i n Hn. unfold load. cbn.
  apply list_elem_of_lookup_2 in Hn. unfold budgets in Hn.
  apply elem_of_cons in Hn as [->|(p & -> & _)%list_elem_of_fmap]; done.
Qed.

Lemma within_perm ds : dec_task <$> ds ≡ₚ topological_order d -> within d ds.
Proof. intros E. unfold within. by rewrite (sumZ_perm _ _ _ E). Qed.

(** Decisions on this node only leave the peers untouched. *)
Lemma account_all ds : within d ds ->
  (forall x, x ∈ ds -> get_task d (dec_task x) <> None) ->
  carries d ids caps (foldl (account d) (budgets local c) ds) ds.
Proof.
  intros Hw Hk. apply (foldl_prefix_inv (fun done nodes => carries d ids caps nodes done)); [apply budgets_carries|].
  intros done x rest nodes E Hc. apply account_carries; try done.
  - apply Hk. rewrite E. apply elem_of_app. right. by left.
  - rewrite E, (app_assoc _ [x] rest : done ++ x :: rest = _) in Hw. by eapply within_app.
Qed.

Lemma peers_fit_of_load nodes ds : carries d ids caps nodes ds ->
  (forall i n, nodes !! S i = Some n -> load (mem_of d) (nb_id n) ds <= Z.max 0 (memory_capacity n)) -> peers_fit nodes.
Proof.
  intros Hc Hl i n Hn Hcap. rewrite (ca_mem _ _ _ _ _ Hc _ _ Hn). specialize (Hl _ _ Hn). lia.
Qed.

Lemma bin_step_fit nodes ds id :
  carries d ids caps nodes ds -> peers_fit nodes -> get_task d id <> None ->
  within d (ds ++ [mkDecision id "" Fallback]) ->
  let r := bin_step d (nodes, ds) id in
  carries d ids caps (fst r) (snd r) /\ peers_fit (fst r).
Proof.
  intros Hc Hf Hk Hw. assert (Hne : nodes <> []).
  { intros ->. pose proof (ca_ids _ _ _ _ _ Hc) as E. done. }
  destruct (bin_step_carries d ids caps mem_ok ids_distinct nodes ds id Hc Hne Hk Hw) as (n & m & Hm & -> & Hcar & _).
  split; [exact Hcar|]. unfold bin_step in *. destruct (get_task d id) as [t|] eqn:Et; [|done]. cbn in Hm.
  rewrite Hm in *. cbn in *. intros i x [[Eb [<- _]]|[Hne' Hx]]%list_lookup_insert_Some Hcap; [|by eapply Hf].
  destruct (bin_best_fits _ _ _ Hm) as [Hz|Hfit]; [by rewrite Hz in Eb|].
  cbn in Hcap |- *. rewrite Eb in Hm. specialize (Hf _ _ Hm Hcap).
  pose proof (mem_of_task _ _ _ Et) as Emem. pose proof (mem_ok id) as H0.
  pose proof (memory_remaining_fit m (memory_bytes (task_profile t)) ltac:(lia) Hfit Hf) as Hsum.
  unfold u64. etrans; [apply Z.mod_le|exact Hsum]; [|lia].
  rewrite (ca_mem _ _ _ _ _ Hc _ _ Hm). pose proof (load_nonneg (mem_of d) (nb_id m) ds mem_ok). lia.
Qed.

(** The tasks phase 2 still has to place. *)
Definition remaining_of (plan : SchedulingPlan) : list TaskId :=
  std_sort (by_cost_desc d)
    (filter (fun id => id ∉ (list_to_set (dec_task <$> decisions plan) : gset TaskId)) (topological_order d)).

Lemma remaining_known plan v : v ∈ remaining_of plan -> get_task d v <> None.
Proof.
  unfold remaining_of. rewrite std_sort_perm, list_elem_of_filter. intros [_ Hv].
  destruct (topological_order_known d v dag_closed Hv) as [t Ht]. unfold get_task. by rewrite Ht.
Qed.

Lemma known_in_remaining plan : known_in d (remaining_of plan) = remaining_of plan.
Proof.
  unfold known_in. assert (H : forall v, v ∈ remaining_of plan -> get_task d v <> None) by apply remaining_known.
  revert H. induction (remaining_of plan) as [|v l IH]; intros H; [done|].
  rewrite filter_cons_True; [|apply not_eq_None_Some, H; by left]. f_equal. apply IH. set_solver.
Qed.

(** Phase 1 keeps its tasks here, so the peers start empty. *)
Lemma local_only_fit nodes ds : carries d ids caps nodes ds ->
  (forall x, x ∈ ds -> assigned_node x = snap_node_id local) -> peers_fit nodes.
Proof.
  intros Hc Hloc. apply (peers_fit_of_load _ ds); [exact Hc|]. intros i n Hn.
  rewrite load_absent; [lia|]. intros x Hx. rewrite (Hloc x Hx). intros E.
  pose proof (f_equal (fun l => l !! S i) (ca_ids _ _ _ _ _ Hc)) as Eid. cbn in Eid.
  rewrite list_lookup_fmap, Hn in Eid. cbn in Eid.
  pose proof ids_distinct as [Hnot _]%NoDup_cons. apply Hnot. rewrite E. by apply (list_elem_of_lookup_2 _ i).
Qed.

Lemma phase2_carries now :
  let plan := plan1 d now local in
  carries d ids caps (fst (phase2_final d plan local c)) (snd (phase2_final d plan local c)) /\
  peers_fit (fst (phase2_final d plan local c)).
Proof.
  intros plan. pose proof (plan2_tasks d now local c dag_closed) as Hperm. fold plan in Hperm.
  rewrite bin_pack_eq in Hperm. cbn in Hperm.
  destruct (phase2_inv d plan local c) as (_ & Htasks & _).
  { apply Forall_forall. intros x Hx. rewrite (plan1_local d now local x Hx). by left. }
  fold (remaining_of plan) in Htasks. rewrite known_in_remaining in Htasks. rewrite Htasks in Hperm.
  assert (Hw0 : within d (decisions plan)).
  { unfold within. pose proof (sumZ_perm (mem_of d) _ _ Hperm) as E. rewrite sumZ_app in E.
    assert (0 <= sumZ (mem_of d) (remaining_of plan)) by (apply sumZ_nonneg; intros; apply mem_ok). lia. }
  assert (Hk0 : forall x, x ∈ decisions plan -> get_task d (dec_task x) <> None).
  { intros x Hx. assert (Hv : dec_task x ∈ topological_order d).
    { rewrite <- Hperm. apply elem_of_app. left. by apply list_elem_of_fmap_2. }
    destruct (topological_order_known d _ dag_closed Hv) as [t Ht]. unfold get_task. by rewrite Ht. }
  pose proof (account_all (decisions plan) Hw0 Hk0) as Hc0.
  unfold phase2_final. fold (remaining_of plan).
  enough (H : let r := foldl (bin_step d) (foldl (account d) (budgets local c) (decisions plan), decisions plan) (remaining_of plan) in
    (carries d ids caps (fst r) (snd r) /\ peers_fit (fst r)) /\ dec_task <$> snd r = (dec_task <$> decisions plan) ++ remaining_of plan)
    by apply H.
  apply (foldl_prefix_inv (fun done r => (carries d ids caps (fst r) (snd r) /\ peers_fit (fst r)) /\
    dec_task <$> snd r = (dec_task <$> decisions plan) ++ done)).
  - cbn. split; [split; [exact Hc0|]|by rewrite app_nil_r].
    apply (local_only_fit _ (decisions plan) Hc0). apply (plan1_local d now local).
  - intros done y rest [nodes ds] E [[Hc Hf] Ht]. cbn [fst snd] in *.
    assert (Hy : get_task d y <> None) by (apply (remaining_known plan); rewrite E; set_solver).
    assert (Hw : within d (ds ++ [mkDecision y "" Fallback])).
    { unfold within. rewrite fmap_app, Ht. pose proof (sumZ_perm (mem_of d) _ _ Hperm) as Es.
      rewrite E in Es. rewrite !sumZ_app in *. cbn in *.
      assert (0 <= sumZ (mem_of d) rest) by (apply sumZ_nonneg; intros; apply mem_ok). lia. }
    split; [by apply bin_step_fit|].
    assert (Hne : nodes <> []). { intros ->. by pose proof (ca_ids _ _ _ _ _ Hc). }
    destruct (bin_step_carries d ids caps mem_ok ids_distinct nodes ds y Hc Hne Hy Hw) as (n & m & _ & _ & _ & ->).
    by rewrite fmap_app, Ht, <- app_assoc.
Qed.
End phase2.
