(* ===== verification/OptimizerTheorems.v ===== *)
(** The local search keeps its accounts and its estimate exact and never gets worse; the
    optimizer's plan is complete and feasible. *)

From Stdlib Require Import ZArith Lia.
From stdpp Require Import base gmap strings numbers list.
From S2P Require Import Prelude Float32 Core Dag Kahn Cycle Metrics Config Scheduler DagTheorems Optimizer.
From S2P Require Import OptimizerProofs OptimizerSearch.

Local Open Scope Z_scope.
Local Open Scope cpp_scope.

(** * The index of a node *)

Lemma node_index_snoc nodes n :
  node_index (nodes ++ [n]) = <[nb_id n := length nodes]> (node_index nodes).
Proof. unfold node_index. rewrite imap_app, foldl_app. cbn. by rewrite Nat.add_0_r. Qed.

Lemma node_index_spec nodes : NoDup (nb_id <$> nodes) ->
  forall a i, node_index nodes !! a = Some i <-> (nb_id <$> nodes) !! i = Some a.
Proof.
  induction nodes as [|n nodes IH] using rev_ind; intros Hnd a i.
  { unfold node_index. cbn. rewrite lookup_empty. by split. }
  rewrite node_index_snoc, fmap_app in *. apply NoDup_app in Hnd as (Hnd & Hn & _).
  rewrite lookup_insert_Some, IH by done. rewrite lookup_app_Some, length_fmap. cbn. split.
  - intros [[<- <-]|[Hne Hi]]; [right; by rewrite Nat.sub_diag|by left].
  - intros [Hi|[Hle Hi]].
    + right. split; [|done]. intros <-. apply (Hn (nb_id n)); [by eapply list_elem_of_lookup_2|by left].
    + left. destruct (i - length nodes)%nat eqn:E; [|done]. injection Hi as <-. split; [done|lia].
Qed.

Section search.
Context {IO : IterOrder} {R : Rng} (cfg : OptimizerPolicyConfig) (d : WorkloadDAG).
Context (ids : list NodeId) (caps : list Z) (T0 : list TaskId).
Hypothesis mem_ok : mems_nonneg d.
Hypothesis ids_distinct : NoDup ids.
Hypothesis tasks_distinct : NoDup T0.
Hypothesis tasks_known : forall v, v ∈ T0 -> get_task d v <> None.
Hypothesis total_ok : sumZ (mem_of d) T0 < 2 ^ 64.

(** The assignment map and the decisions agree. *)
Definition asg_ok (asg : gmap TaskId nat) (ds : list SchedulingDecision) : Prop :=
  forall x, x ∈ ds -> exists i, asg !! dec_task x = Some i /\ ids !! i = Some (assigned_node x).

Record search_inv (s : search) : Prop := {
  si_carries : carries d ids caps (s_nodes s) (s_decisions s);
  si_fit : peers_fit (s_nodes s);
  si_tasks : dec_task <$> s_decisions s = T0;
  si_asg : asg_ok (s_assignment s) (s_decisions s);
  si_nodes : Forall (fun x => assigned_node x ∈ ids) (s_decisions s);
  si_estimate : s_makespan s = estimate_makespan d (communication_weight cfg) (s_assignment s) (length ids)
}.

Lemma si_within s : search_inv s -> within d (s_decisions s).
Proof. intros Hi. unfold within. by rewrite (si_tasks _ Hi). Qed.

Lemma nodes_length nodes ds : carries d ids caps nodes ds -> length nodes = length ids.
Proof. intros Hc. by rewrite <- (ca_ids _ _ _ _ _ Hc), length_fmap. Qed.

Lemma set_rng_inv s r : search_inv s -> search_inv (set_rng s r).
Proof. intros [H1 H2 H3 H4 H5 H6]. by split. Qed.

(** Moving the memory of a task between two nodes. *)
Lemma move_carries nodes ds j x t from to name :
  carries d ids caps nodes ds -> within d ds -> ds !! j = Some x -> get_task d (dec_task x) = Some t ->
  ids !! from = Some (assigned_node x) -> ids !! to = Some name -> to <> from ->
  carries d ids caps
    (alter (take_on (dec_task x) (task_profile t)) to (alter (hand_back (dec_task x) (task_profile t)) from nodes))
    (alter (fun y => reassign y name) j ds).
Proof.
  intros [H1 H2 H3] Hw Hj Et Hfrom Hto Hne. pose proof (mem_of_task _ _ _ Et) as Hm.
  set (nodes' := alter _ to _).
  assert (K1 : nb_id <$> nodes' = ids) by (unfold nodes'; by rewrite !fmap_alter_same).
  assert (K2 : memory_capacity <$> nodes' = caps) by (unfold nodes'; by rewrite !fmap_alter_same).
  assert (Hw' : within d (alter (fun y => reassign y name) j ds)) by (unfold within; by rewrite alter_reassign_tasks).
  split; [exact K1|exact K2|]. intros i n' Hi.
  pose proof (load_bound d mem_ok (nb_id n') _ Hw') as Hb. rewrite (load_reassign _ _ _ _ _ _ Hj) in Hb |- *.
  assert (Hid : forall k a, ids !! k = Some a -> (a = nb_id n' <-> k = i)).
  { intros k a Ha. assert (Hn' : ids !! i = Some (nb_id n')) by (rewrite <- K1, list_lookup_fmap, Hi; done). split.
    - intros ->. by eapply (NoDup_lookup ids).
    - intros ->. congruence. }
  apply list_lookup_alter_cases in Hi as (n1 & Hi1 & En'). apply list_lookup_alter_cases in Hi1 as (n & Hn & En1).
  assert (Eid : nb_id n' = nb_id n) by (subst; repeat case_decide; done).
  pose proof (load_bound d mem_ok (nb_id n) _ Hw) as Hbn. specialize (H3 _ _ Hn). rewrite Eid in *.
  destruct (Hid _ _ Hfrom) as [F1 F2], (Hid _ _ Hto) as [G1 G2].
  destruct (decide (to = i)) as [Ei|Ei], (decide (from = i)) as [Ej|Ej]; subst n' n1; try congruence; cbn.
  - rewrite decide_False in Hb |- * by tauto. rewrite decide_True in Hb |- * by tauto.
    rewrite H3, <- Hm. rewrite u64_small; [lia|unfold is_u64; lia].
  - rewrite decide_True in Hb |- * by tauto. rewrite decide_False in Hb |- * by tauto.
    rewrite H3, <- Hm. rewrite u64_small; [lia|unfold is_u64; lia].
  - rewrite !decide_False in Hb |- * by tauto. lia.
Qed.

(** A move to a node with room keeps the peers within their memory. *)
Lemma move_fit s j x t from to n :
  search_inv s -> s_decisions s !! j = Some x -> get_task d (dec_task x) = Some t ->
  ids !! from = Some (assigned_node x) -> s_nodes s !! to = Some n -> ids !! to = Some (nb_id n) -> to <> from ->
  memory_bytes (task_profile t) <= memory_remaining n ->
  peers_fit (alter (take_on (dec_task x) (task_profile t)) to
              (alter (hand_back (dec_task x) (task_profile t)) from (s_nodes s))).
Proof.
  intros Hi Hj Et Hfrom Hto Hto' Hne Hfit i n' Hn' Hcap. pose proof (si_within s Hi) as Hw.
  pose proof (move_carries _ _ _ _ _ _ _ _ (si_carries _ Hi) Hw Hj Et Hfrom Hto' Hne) as Hc.
  pose proof (mem_of_task _ _ _ Et) as Hm. pose proof (mem_ok (dec_task x)) as Hm0.
  rewrite (ca_mem _ _ _ _ _ Hc _ _ Hn'), (load_reassign _ _ _ _ _ _ Hj).
  apply list_lookup_alter_cases in Hn' as (n1 & Hi1 & En'). apply list_lookup_alter_cases in Hi1 as (n0 & Hn0 & En1).
  assert (Eid : nb_id n' = nb_id n0 /\ memory_capacity n' = memory_capacity n0) by (subst; repeat case_decide; done).
  destruct Eid as [-> Ecap]. rewrite Ecap in *. pose proof (ca_mem _ _ _ _ _ (si_carries _ Hi) _ _ Hn0) as Eu.
  pose proof (si_fit _ Hi _ _ Hn0 Hcap) as Hle. rewrite Eu in Hle.
  assert (Hroom : nb_id n = nb_id n0 -> memory_used n0 + memory_bytes (task_profile t) <= memory_capacity n0).
  { intros E. assert (to = S i) as -> by (eapply (ids_inj (s_nodes s)); eauto; by rewrite (ca_ids _ _ _ _ _ (si_carries _ Hi))).
    assert (n0 = n) as -> by congruence. apply memory_remaining_fit; [lia|done|lia]. }
  repeat case_decide; try lia; specialize (Hroom ltac:(done)); lia.
Qed.

(** An accepted move. *)
Lemma accept_inv s j x t from to n new rng :
  search_inv s -> s_decisions s !! j = Some x -> get_task d (dec_task x) = Some t ->
  ids !! from = Some (assigned_node x) -> s_nodes s !! to = Some n -> to <> from ->
  memory_bytes (task_profile t) <= memory_remaining n ->
  let asg1 := <[dec_task x := to]> (s_assignment s) in
  new = estimate_makespan d (communication_weight cfg) asg1 (length ids) ->
  search_inv (mkSearch
    (alter (take_on (dec_task x) (task_profile t)) to (alter (hand_back (dec_task x) (task_profile t)) from (s_nodes s)))
    asg1 (alter (fun y => reassign y (nb_id n)) j (s_decisions s)) new rng).
Proof.
  intros Hi Hj Et Hfrom Hto Hne Hfit asg1 ->. pose proof (si_within s Hi) as Hw.
  assert (Hto' : ids !! to = Some (nb_id n)) by (rewrite <- (ca_ids _ _ _ _ _ (si_carries _ Hi)), list_lookup_fmap, Hto; done).
  split; cbn [s_nodes s_assignment s_decisions s_makespan s_rng].
  - exact (move_carries _ _ _ _ _ _ _ _ (si_carries _ Hi) Hw Hj Et Hfrom Hto' Hne).
  - by eapply move_fit.
  - by rewrite alter_reassign_tasks, (si_tasks _ Hi).
  - intros y Hy. apply list_elem_of_lookup in Hy as [k Hk].
    apply list_lookup_alter_cases in Hk as (y0 & Hy0 & ->). case_decide as E.
    + subst k. assert (y0 = x) as -> by congruence. exists to. cbn. unfold asg1. by rewrite lookup_insert_eq.
    + destruct (si_asg _ Hi y0) as (i & Ha & Hid); [by eapply list_elem_of_lookup_2|]. exists i. unfold asg1.
      rewrite lookup_insert_ne; [done|]. intros Et'. apply E.
      eapply (NoDup_lookup T0 _ _ (dec_task x)); [done|..]; rewrite <- (si_tasks _ Hi), list_lookup_fmap;
        [by rewrite Hj|by rewrite Hy0, Et'].
  - apply Forall_forall. intros y Hy. apply list_elem_of_lookup in Hy as [k Hk].
    apply list_lookup_alter_cases in Hk as (y0 & Hy0 & ->). case_decide; cbn.
    + by eapply list_elem_of_lookup_2.
    + pose proof (si_nodes _ Hi) as Hall. rewrite Forall_forall in Hall. apply Hall. by eapply list_elem_of_lookup_2.
  - done.
Qed.

Lemma u64_add_sub u m : is_u64 u -> u64 (u +! m - m) = u.
Proof. unfold is_u64, u64. intros Hu. rewrite Zminus_mod_idemp_l. replace (u + m - m) with u by lia. by apply Z.mod_small. Qed.

Lemma u64_sub_add u m : is_u64 u -> u64 (u -! m + m) = u.
Proof. unfold is_u64, u64. intros Hu. rewrite Zplus_mod_idemp_l. replace (u - m + m) with u by lia. by apply Z.mod_small. Qed.

(** A reverted move restores every account. *)
Lemma revert_carries nodes ds id p from to :
  carries d ids caps nodes ds -> within d ds -> to <> from ->
  let nodes1 := alter (take_on id p) to (alter (hand_back id p) from nodes) in
  let nodes2 := alter (take_on id p) from
    (alter (fun n => mkBudget (nb_id n) (memory_capacity n) (memory_used n -! memory_bytes p)
                       (nb_compute n - compute_cost p) (removelast (assigned_tasks n))) to nodes1) in
  carries d ids caps nodes2 ds /\ (peers_fit nodes -> peers_fit nodes2).
Proof.
  intros Hc Hw Hne nodes1 nodes2.
  assert (Hsame : forall i n2, nodes2 !! i = Some n2 ->
    exists n, nodes !! i = Some n /\ nb_id n2 = nb_id n /\ memory_capacity n2 = memory_capacity n /\ memory_used n2 = memory_used n).
  { intros i n2 H2. unfold nodes2, nodes1 in H2.
    apply list_lookup_alter_cases in H2 as (a & H2 & ->). apply list_lookup_alter_cases in H2 as (b & H2 & ->).
    apply list_lookup_alter_cases in H2 as (e & H2 & ->). apply list_lookup_alter_cases in H2 as (n & H2 & ->).
    exists n. split; [done|]. pose proof (load_bound d mem_ok (nb_id n) ds Hw) as Hb.
    rewrite <- (ca_mem _ _ _ _ _ Hc _ _ H2) in Hb.
    repeat case_decide; subst; try done; cbn; split_and!; try done; [by apply u64_sub_add|by apply u64_add_sub]. }
  split; [split|].
  - unfold nodes2, nodes1. rewrite !fmap_alter_same by done. apply Hc.
  - unfold nodes2, nodes1. rewrite !fmap_alter_same by done. apply Hc.
  - intros i n2 H2. destruct (Hsame _ _ H2) as (n & Hn & -> & _ & ->). by eapply (ca_mem _ _ _ _ _ Hc).
  - intros Hf i n2 H2. destruct (Hsame _ _ H2) as (n & Hn & _ & -> & ->). by eapply Hf.
Qed.

Lemma try_move_inv s j x t from to n :
  search_inv s -> s_decisions s !! j = Some x -> get_task d (dec_task x) = Some t ->
  s_assignment s !! dec_task x = Some from -> ids !! from = Some (assigned_node x) ->
  s_nodes s !! to = Some n -> to <> from -> memory_bytes (task_profile t) <= memory_remaining n ->
  let s' := try_move cfg d s j (dec_task x) (task_profile t) from to in
  search_inv s' /\ s_makespan s' <= s_makespan s.
Proof.
  intros Hi Hj Et Ha Hfrom Hto Hne Hfit s'. subst s'. unfold try_move.
  rewrite !length_alter, (nodes_length _ _ (si_carries _ Hi)). case_decide as Hlt.
  - cbn [s_makespan]. split; [|lia].
    rewrite list_lookup_alter_eq, list_lookup_alter_ne, Hto by done. cbn [fmap option_fmap option_map nb_id take_on].
    by apply accept_inv.
  - cbn [s_makespan]. split; [|lia]. destruct (revert_carries (s_nodes s) (s_decisions s) (dec_task x) (task_profile t) from to)
      as [Hc Hf]; [apply Hi|by apply si_within|done|].
    assert (Easg : <[dec_task x := from]> (<[dec_task x := to]> (s_assignment s)) = s_assignment s).
    { rewrite insert_insert_eq. by apply insert_id. }
    destruct Hi as [H1 H2 H3 H4 H5 H6]. split; cbn [s_nodes s_assignment s_decisions s_makespan s_rng]; try rewrite Easg; auto.
Qed.

Lemma search_step_inv s : search_inv s ->
  search_inv (search_step cfg d s) /\ s_makespan (search_step cfg d s) <= s_makespan s.
Proof.
  intros Hi. unfold search_step. destruct (s_decisions s) as [|x0 ds0] eqn:Eds; [split; [done|lia]|].
  rewrite <- Eds. clear Eds x0 ds0. destruct (uniform _ (s_rng s)) as [j r1].
  destruct (s_decisions s !! j) as [x|] eqn:Hj; [|split; [by apply set_rng_inv|cbn; lia]].
  destruct (get_task d (dec_task x)) as [t|] eqn:Et; [|split; [by apply set_rng_inv|cbn; lia]].
  destruct (si_asg _ Hi x) as (from & Ha & Hfrom); [by eapply list_elem_of_lookup_2|].
  rewrite Ha. cbn [default from_option id]. rewrite (insert_id _ _ _ Ha).
  destruct (uniform _ r1) as [to r2].
  assert (H2 : search_inv (set_rng s r2)) by (by apply set_rng_inv).
  change (set_rng (mkSearch (s_nodes s) (s_assignment s) (s_decisions s) (s_makespan s) r1) r2) with (set_rng s r2).
  case_decide as Hne; [split; [done|cbn; lia]|].
  destruct (s_nodes s !! to) as [n|] eqn:Hto; [|split; [done|cbn; lia]].
  case_decide as Hroom; [split; [done|cbn; lia]|].
  apply (try_move_inv (set_rng s r2) j x t from to n H2); cbn; try done. lia.
Qed.

Lemma search_iter_inv k s : search_inv s ->
  search_inv (Nat.iter k (search_step cfg d) s) /\ s_makespan (Nat.iter k (search_step cfg d) s) <= s_makespan s.
Proof.
  intros Hi. induction k as [|k [IH1 IH2]]; [split; [done|cbn; lia]|]. rewrite Nat.iter_succ.
  destruct (search_step_inv _ IH1). split; [done|]. etrans; eassumption.
Qed.

(** Building the assignment from the plan. *)
Lemma assign_step_ok nodes0 asg nodes done x :
  nb_id <$> nodes0 = ids -> carries d ids caps nodes done -> asg_ok asg done ->
  get_task d (dec_task x) <> None -> within d (done ++ [x]) -> assigned_node x ∈ ids ->
  dec_task x ∉ (dec_task <$> done) ->
  let r := assign_step d (node_index nodes0) (asg, nodes) x in
  carries d ids caps (snd r) (done ++ [x]) /\ asg_ok (fst r) (done ++ [x]).
Proof.
  intros E0 Hc Ha Hk Hw Hn Hfresh. unfold assign_step. destruct (get_task d (dec_task x)) as [t|] eqn:Et; [|done].
  apply list_elem_of_lookup in Hn as [i Hi].
  assert (Hidx : node_index nodes0 !! assigned_node x = Some i).
  { apply node_index_spec; [by rewrite E0|]. by rewrite E0. }
  rewrite Hidx. cbn [fst snd].
  assert (Hnode : exists n, nodes !! i = Some n /\ nb_id n = assigned_node x).
  { rewrite <- (ca_ids _ _ _ _ _ Hc), list_lookup_fmap in Hi. destruct (nodes !! i) as [n|]; [|done].
    exists n. split; [done|]. by injection Hi. }
  destruct Hnode as (n & Hni & En). split.
  - destruct x as [id nm r]. cbn in *. subst nm. apply (carries_snoc d ids caps mem_ok nodes _ done id (nb_id n) r t Hc Et Hw).
    intros j. rewrite <- (insert_lookup_id nodes i n (take_on id (task_profile t))); [|by rewrite (ca_ids _ _ _ _ _ Hc)|done].
    destruct (decide (i = j)) as [<-|].
    + rewrite list_lookup_alter_eq, Hni, list_lookup_insert_eq by (by eapply lookup_lt_Some). done.
    + by rewrite list_lookup_alter_ne, list_lookup_insert_ne by done.
  - intros y [Hy|Hy]%elem_of_app.
    + destruct (Ha y Hy) as (k & Hk' & Hid). exists k. rewrite lookup_insert_ne; [done|].
      intros E. apply Hfresh. rewrite E. by apply list_elem_of_fmap_2.
    + apply list_elem_of_singleton in Hy as ->. exists i. by rewrite lookup_insert_eq.
Qed.
End search.

(** Two carriers of the same decisions agree on the peers. *)
Lemma carries_fit d ids caps nodes1 nodes2 ds :
  carries d ids caps nodes1 ds -> carries d ids caps nodes2 ds -> peers_fit nodes1 -> peers_fit nodes2.
Proof.
  intros H1 H2 Hf i n Hn Hcap.
  assert (Hm : exists m, nodes1 !! S i = Some m).
  { apply lookup_lt_is_Some_2. apply lookup_lt_Some in Hn.
    rewrite <- (length_fmap nb_id), (ca_ids _ _ _ _ _ H1), <- (ca_ids _ _ _ _ _ H2), length_fmap. done. }
  destruct Hm as [m Hm].
  assert (Eid : nb_id m = nb_id n).
  { pose proof (ca_ids _ _ _ _ _ H1) as E. rewrite <- (ca_ids _ _ _ _ _ H2) in E.
    apply (f_equal (fun l => l !! S i)) in E. rewrite !list_lookup_fmap, Hm, Hn in E. by injection E. }
  assert (Ecap : memory_capacity m = memory_capacity n).
  { pose proof (ca_caps _ _ _ _ _ H1) as E. rewrite <- (ca_caps _ _ _ _ _ H2) in E.
    apply (f_equal (fun l => l !! S i)) in E. rewrite !list_lookup_fmap, Hm, Hn in E. by injection E. }
  rewrite (ca_mem _ _ _ _ _ H2 _ _ Hn), <- Eid, <- Ecap, <- (ca_mem _ _ _ _ _ H1 _ _ Hm).
  apply (Hf _ _ Hm). by rewrite Ecap.
Qed.

Section plan.
Context {IO : IterOrder} {SS : StdSort} {R : Rng} (cfg : OptimizerPolicyConfig).
Context (d : WorkloadDAG) (local : ResourceSnapshot) (c : ClusterView) (now : Z).
Hypothesis mem_ok : mems_nonneg d.
Hypothesis ids_distinct : NoDup (node_ids local c).
Hypothesis dag_closed : closed d.
Hypothesis total_ok : sumZ (mem_of d) (topological_order d) < 2 ^ 64.

Let ids := node_ids local c.
Let caps := memory_capacity <$> budgets local c.
Definition plan2 : SchedulingPlan := bin_pack_remaining d (plan1 d now local) local c.
Let T0 := dec_task <$> decisions plan2.

Lemma plan2_nodes x : x ∈ decisions plan2 -> assigned_node x ∈ node_ids local c.
Proof.
  unfold plan2. rewrite bin_pack_eq. cbn. destruct (phase2_inv d (plan1 d now local) local c) as (_ & _ & H).
  { apply Forall_forall. intros y Hy. rewrite (plan1_local d now local y Hy). by left. }
  rewrite Forall_forall in H. apply H.
Qed.

Lemma T0_distinct : NoDup T0.
Proof. unfold T0, plan2. rewrite plan2_tasks by done. apply topological_order_spec. Qed.

Lemma T0_known v : v ∈ T0 -> get_task d v <> None.
Proof.
  unfold T0, plan2. rewrite plan2_tasks by done. intros Hv.
  destruct (topological_order_known d v dag_closed Hv) as [t Ht]. unfold get_task. by rewrite Ht.
Qed.

Lemma T0_total : sumZ (mem_of d) T0 < 2 ^ 64.
Proof. unfold T0, plan2. by rewrite (sumZ_perm _ _ _ (plan2_tasks d now local c dag_closed)). Qed.

Lemma search_init_inv : search_inv cfg d ids caps T0 (search_init cfg d plan2 (budgets local c)).
Proof.
  unfold search_init.
  assert (H : let r := foldl (assign_step d (node_index (budgets local c))) (∅, budgets local c) (decisions plan2) in
    carries d ids caps (snd r) (decisions plan2) /\ asg_ok ids (fst r) (decisions plan2)).
  { apply (foldl_prefix_inv (fun done r => carries d ids caps (snd r) done /\ asg_ok ids (fst r) done)).
    - split; [apply budgets_carries|]. intros x Hx. set_solver.
    - intros done x rest [asg nodes] E [Hc Ha]. cbn [fst snd] in *.
      assert (Hx : x ∈ decisions plan2) by (rewrite E; set_solver).
      apply (assign_step_ok d ids caps mem_ok ids_distinct); try done.
      + apply budgets_ids.
      + apply T0_known. by apply list_elem_of_fmap_2.
      + eapply (within_app d mem_ok (done ++ [x]) rest). rewrite <- app_assoc. cbn. rewrite <- E. exact T0_total.
      + by apply plan2_nodes.
      + pose proof T0_distinct as Hnd. unfold T0 in Hnd. rewrite E, fmap_app in Hnd.
        apply NoDup_app in Hnd as (_ & Hd & _). intros Hin. apply (Hd _ Hin). by left. }
  destruct (foldl _ _ _) as [asg nodes]. destruct H as [Hc Ha]. cbn in Hc, Ha. split; cbn; try done.
  - destruct (phase2_carries d local c mem_ok ids_distinct dag_closed total_ok now) as [Hc2 Hf2].
    unfold plan2 in Hc. rewrite bin_pack_eq in Hc. by eapply (carries_fit d ids caps).
  - apply Forall_forall. apply plan2_nodes.
  - by rewrite (nodes_length d ids caps _ _ Hc).
Qed.

(** The result of the search, when there is something to search. *)
Lemma optimizer_search_result :
  let plan := optimizer_schedule cfg now d local c in
  plan = plan2 \/
  exists s, search_inv cfg d ids caps T0 s /\
    s_makespan s <= s_makespan (search_init cfg d plan2 (budgets local c)) /\
    plan = mkPlan (s_decisions s) (s_makespan s) (computed_at plan2).
Proof.
  unfold optimizer_schedule. fold (plan1 d now local). fold plan2. unfold local_search_improve.
  case_decide; [by left|]. case_decide; [by left|]. right.
  eexists. split; [|split; [|done]]; apply (search_iter_inv cfg d ids caps T0 mem_ok ids_distinct T0_distinct T0_total _ _ search_init_inv).
Qed.

Lemma optimizer_peer_memory p : p ∈ reachable_peers c ->
  is_u64 (memory_available_bytes (peer_resources p)) ->
  load (mem_of d) (peer_node_id p) (decisions (optimizer_schedule cfg now d local c))
    <= memory_available_bytes (peer_resources p).
Proof.
  intros Hp Hu. apply list_elem_of_lookup in Hp as [i Hi].
  assert (Hget : forall nodes ds, carries d ids caps nodes ds -> peers_fit nodes ->
    load (mem_of d) (peer_node_id p) ds <= memory_available_bytes (peer_resources p)).
  { intros nodes ds Hc Hf.
    assert (Hb : budgets local c !! S i = Some (mkBudget (peer_node_id p) (memory_available_bytes (peer_resources p)) 0 0 [])).
    { change (((fun p => mkBudget (peer_node_id p) (memory_available_bytes (peer_resources p)) 0 0 []) <$> reachable_peers c) !! i =
        Some (mkBudget (peer_node_id p) (memory_available_bytes (peer_resources p)) 0 0 [])). by rewrite list_lookup_fmap, Hi. }
    pose proof (ca_ids _ _ _ _ _ Hc) as E1. unfold ids in E1. rewrite <- budgets_ids in E1.
    pose proof (ca_caps _ _ _ _ _ Hc) as E2. unfold caps in E2.
    apply (f_equal (fun l => l !! S i)) in E1. rewrite !list_lookup_fmap, Hb in E1.
    apply (f_equal (fun l => l !! S i)) in E2. rewrite !list_lookup_fmap, Hb in E2.
    destruct (nodes !! S i) as [n|] eqn:Hn; [|done]. injection E1 as E1. injection E2 as E2.
    rewrite <- E1, <- E2, <- (ca_mem _ _ _ _ _ Hc _ _ Hn). apply (Hf _ _ Hn). rewrite E2. apply Hu. }
  destruct optimizer_search_result as [->|(s & Hs & _ & ->)]; cbn.
  - destruct (phase2_carries d local c mem_ok ids_distinct dag_closed total_ok now) as [Hc2 Hf2].
    unfold plan2. rewrite bin_pack_eq. by eapply Hget.
  - eapply Hget; apply Hs.
Qed.
End plan.

(** * Completeness without assumptions on memory or ids *)

Section shape.
Context {IO : IterOrder} {SS : StdSort} {R : Rng} (cfg : OptimizerPolicyConfig) (d : WorkloadDAG).
Context (ids : list NodeId) (T0 : list TaskId).

Definition shape_ok (s : search) : Prop :=
  nb_id <$> s_nodes s = ids /\ dec_task <$> s_decisions s = T0 /\
  Forall (fun x => assigned_node x ∈ ids) (s_decisions s).

Lemma try_move_shape s j id p from to n :
  shape_ok s -> s_nodes s !! to = Some n -> shape_ok (try_move cfg d s j id p from to).
Proof.
  intros (H1 & H2 & H3) Hto. unfold try_move. case_decide; cbn.
  - split_and!; cbn; [by rewrite !fmap_alter_same|by rewrite alter_reassign_tasks|].
    apply Forall_forall. intros y Hy. apply list_elem_of_lookup in Hy as [k Hk].
    apply list_lookup_alter_cases in Hk as (y0 & Hy0 & ->).
    case_decide; cbn; [|rewrite Forall_forall in H3; apply H3; by eapply list_elem_of_lookup_2].
    assert (Hid : (nb_id <$> alter (take_on id p) to (alter (hand_back id p) from (s_nodes s))) !! to = Some (nb_id n)).
    { rewrite !fmap_alter_same by done. by rewrite list_lookup_fmap, Hto. }
    rewrite list_lookup_fmap in Hid. destruct (alter _ to _ !! to) as [m|]; [|done]. injection Hid as ->.
    rewrite <- H1. by apply list_elem_of_fmap_2, (list_elem_of_lookup_2 _ _ _ Hto).
  - split_and!; cbn; [by rewrite !fmap_alter_same|done|done].
Qed.

Lemma search_step_shape s : shape_ok s -> shape_ok (search_step cfg d s).
Proof.
  intros Hs. unfold search_step. destruct (s_decisions s) as [|x0 ds0] eqn:Eds; [done|].
  rewrite <- Eds. clear Eds x0 ds0. destruct (uniform _ (s_rng s)) as [j r1].
  destruct (s_decisions s !! j) as [x|]; [|done]. destruct (get_task d (dec_task x)) as [t|]; [|done].
  destruct (uniform _ r1) as [to r2]. case_decide; [done|].
  destruct (s_nodes s !! to) as [n|] eqn:Hto; [|done]. case_decide; [done|].
  eapply try_move_shape; [|exact Hto]. exact Hs.
Qed.

Lemma search_iter_shape k s : shape_ok s -> shape_ok (Nat.iter k (search_step cfg d) s).
Proof. intros Hs. induction k as [|k IH]; [done|]. rewrite Nat.iter_succ. by apply search_step_shape. Qed.
End shape.

Section contract.
Context {IO : IterOrder} {SS : StdSort} {R : Rng} (cfg : OptimizerPolicyConfig).
Implicit Types (d : WorkloadDAG) (local : ResourceSnapshot) (c : ClusterView).

Lemma assign_step_ids d idx acc ds : nb_id <$> snd (foldl (assign_step d idx) acc ds) = nb_id <$> snd acc.
Proof.
  revert acc. induction ds as [|x ds IH]; intros [asg nodes]; cbn [foldl]; [done|]. rewrite IH. unfold assign_step.
  destruct (get_task d (dec_task x)); [|done]. destruct (idx !! assigned_node x); [|done]. cbn. by rewrite fmap_alter_same.
Qed.

Lemma optimizer_shape d now local c :
  dec_task <$> decisions (optimizer_schedule cfg now d local c) = dec_task <$> decisions (plan2 d local c now) /\
  Forall (fun x => assigned_node x ∈ node_ids local c) (decisions (optimizer_schedule cfg now d local c)).
Proof.
  assert (Hn : Forall (fun x => assigned_node x ∈ node_ids local c) (decisions (plan2 d local c now)))
    by (apply Forall_forall; apply plan2_nodes).
  unfold optimizer_schedule. fold (plan1 d now local). fold (plan2 d local c now). unfold local_search_improve.
  case_decide; [by split|]. case_decide; [by split|].
  assert (Hs : shape_ok (node_ids local c) (dec_task <$> decisions (plan2 d local c now))
                 (search_init cfg d (plan2 d local c now) (budgets local c))).
  { unfold search_init. pose proof (assign_step_ids d (node_index (budgets local c)) (∅, budgets local c)
      (decisions (plan2 d local c now))) as E. destruct (foldl _ _ _) as [asg nodes]. cbn in E.
    split_and!; cbn; [by rewrite E, <- budgets_ids|done|done]. }
  apply (search_iter_shape cfg d _ _ (Z.to_nat (max_iterations cfg))) in Hs. destruct Hs as (_ & H1 & H2). by split.
Qed.

#[export] Instance OptimizerLaws : SchedulingPolicyLaws (OptimizerPolicy cfg).
Proof.
  split; cbn -[optimizer_schedule].
  - intros now d local c Hcl. rewrite (proj1 (optimizer_shape d now local c)). by apply plan2_tasks.
  - intros now d local c x Hx. pose proof (proj2 (optimizer_shape d now local c)) as H.
    rewrite Forall_forall in H. by apply H.
  - intros now d local c p Hnd Hp Hmem Hcl Hu Htot. by apply optimizer_peer_memory.
Qed.

(** * Properties *)

(** C23: The optimizer's plan is complete and feasible whatever the random draws and the
    order [std::sort] gives to equal costs: it assigns every task exactly once, to this node
    or a reachable peer, and (with distinct ids and a total memory below 2^64) gives no peer
    more memory than it reported, through all three phases. *)
Theorem optimizer_plan_correct now d local c :
  closed d -> mems_nonneg d -> NoDup (node_ids local c) ->
  sumZ (mem_of d) (topological_order d) < 2 ^ 64 ->
  let plan := schedule (SchedulingPolicy := OptimizerPolicy cfg) now d local c in
  dec_task <$> decisions plan ≡ₚ topological_order d /\
  (forall x, x ∈ decisions plan -> assigned_node x ∈ node_ids local c) /\
  (forall p, p ∈ reachable_peers c -> is_u64 (memory_available_bytes (peer_resources p)) ->
     load (mem_of d) (peer_node_id p) (decisions plan) <= memory_available_bytes (peer_resources p)).
Proof.
  intros Hcl Hmem Hnd Htot plan. split_and!.
  - by apply (schedule_complete (P := OptimizerPolicy cfg)).
  - apply (schedule_nodes (P := OptimizerPolicy cfg)).
  - intros. by apply optimizer_peer_memory.
Qed.

(** The early return of the search leaves the plan as it is, its makespan at 0. *)
Lemma unsearched_plan now d local c :
  (length (decisions (plan2 d local c now)) < 2)%nat \/ reachable_peers c = [] ->
  let plan := optimizer_schedule cfg now d local c in
  decisions plan = decisions (plan2 d local c now) /\ estimated_makespan plan = 0.
Proof.
  intros Hfew. unfold optimizer_schedule, local_search_improve. fold (plan1 d now local). fold (plan2 d local c now).
  assert (H0 : estimated_makespan (plan2 d local c now) = 0).
  { unfold plan2. rewrite bin_pack_eq. cbn. unfold plan1, critical_path_assignment. by case_decide. }
  case_decide as H1; [done|]. rewrite decide_True; [done|]. destruct Hfew as [Hfew|Hp]; [done|].
  unfold budgets. rewrite Hp. cbn. lia.
Qed.

(** C24: The local search never makes things worse, and its estimate is honest: the reported
    makespan is the estimate of an assignment that matches the plan's decisions, and it is at
    most the estimate of the plan the search started from.  With fewer than two tasks, or
    without a reachable peer, there is no search: the decisions stay, and the makespan is left
    at 0.  The node ids differ, the DAG names no unknown dependency, and its memory sums to
    less than [2^64]. *)
Theorem local_search_never_worse now d local c :
  closed d -> mems_nonneg d -> NoDup (node_ids local c) ->
  sumZ (mem_of d) (topological_order d) < 2 ^ 64 ->
  let plan := optimizer_schedule cfg now d local c in
  ((2 <= length (topological_order d))%nat -> reachable_peers c <> [] ->
   exists asg, asg_ok (node_ids local c) asg (decisions plan) /\
     estimated_makespan plan = estimate_makespan d (communication_weight cfg) asg (length (node_ids local c)) /\
     estimated_makespan plan <= s_makespan (search_init cfg d (plan2 d local c now) (budgets local c))) /\
  ((length (topological_order d) < 2)%nat \/ reachable_peers c = [] ->
   decisions plan = decisions (plan2 d local c now) /\ estimated_makespan plan = 0).
Proof.
  intros Hcl Hmem Hnd Htot plan.
  assert (Hlen2 : length (decisions (plan2 d local c now)) = length (topological_order d)).
  { rewrite <- (length_fmap dec_task). apply Permutation_length. by apply plan2_tasks. }
  split; [intros Hlen Hpeers|intros Hfew; apply (unsearched_plan now d local c); by rewrite Hlen2].
  destruct (search_iter_inv cfg d (node_ids local c) (memory_capacity <$> budgets local c)
    (dec_task <$> decisions (plan2 d local c now)) Hmem Hnd (T0_distinct d local c now Hcl)
    (T0_total d local c now Hcl Htot) (Z.to_nat (max_iterations cfg)) _
    (search_init_inv cfg d local c now Hmem Hnd Hcl Htot)) as [Hs Hle].
  eexists. split; [|split; [|]]; unfold plan, optimizer_schedule; fold (plan1 d now local); fold (plan2 d local c now);
    unfold local_search_improve; rewrite !decide_False; cbn [decisions estimated_makespan];
    try (rewrite Hlen2; lia); try (unfold budgets; cbn; rewrite length_fmap; destruct (reachable_peers c); [done|cbn; lia]).
  - apply Hs.
  - apply Hs.
  - exact Hle.
Qed.
End contract.

(** * Concrete sort and generator, for evaluation *)

Fixpoint insert_by (lt : TaskId -> TaskId -> bool) (x : TaskId) (l : list TaskId) : list TaskId :=
  match l with
  | [] => [x]
  | y :: l' => if lt y x then y :: insert_by lt x l' else x :: l
  end.

Lemma insert_by_perm lt x l : insert_by lt x l ≡ₚ x :: l.
Proof. induction l as [|y l IH]; cbn; [done|]. destruct (lt y x); [|done]. rewrite IH. apply Permutation_swap. Qed.

Definition InsertionSort : StdSort.
Proof.
  refine {| std_sort := fun lt l => foldr (insert_by lt) [] l |}.
  intros lt l. induction l as [|x l IH]; cbn; [done|]. by rewrite insert_by_perm, IH.
Defined.

(** A counter in place of the Mersenne twister. *)
Definition CounterRng : Rng.
Proof.
  refine {| rng_cast := {| cast_undefined := fun _ => - 2 ^ 63 |}; rng_state := nat; rng_seed := fun _ => 0%nat; uniform := fun max r => (r mod S max, S r)%nat |}.
  intros max r. cbn [fst]. pose proof (Nat.mod_upper_bound r (S max)). lia.
Defined.

Definition sample_optimizer (iterations : Z) (c : ClusterView) : SchedulingPlan :=
  optimizer_schedule (IO := IterCanonical) (SS := InsertionSort) (R := CounterRng)
    (mkOptimizerConfig iterations (f32_of_ratio 3 10)) 0 diamond_dag sample_local c.

Lemma diamond_total : sumZ (mem_of diamond_dag) (topological_order (IO := IterCanonical) diamond_dag) < 2 ^ 64.
Proof. vm_compute. reflexivity. Qed.

Lemma optimizer_plan_correct_witness :
  map assigned_node (decisions (sample_optimizer 20 sample_cluster)) = ["pi-0"; "pi-0"; "pi-0"; "pi-3"] /\
  dec_task <$> decisions (sample_optimizer 20 sample_cluster) ≡ₚ topological_order (IO := IterCanonical) diamond_dag.
Proof.
  split; [vm_compute; reflexivity|].
  refine (proj1 (optimizer_plan_correct (IO := IterCanonical) (SS := InsertionSort) (R := CounterRng)
    (mkOptimizerConfig 20 (f32_of_ratio 3 10)) 0 diamond_dag sample_local sample_cluster _ _ _ _));
    [decide_now|decide_now|exact sample_ids_distinct|exact diamond_total].
Defined.

Lemma local_search_never_worse_witness :
  exists asg, asg_ok (node_ids sample_local sample_cluster) asg (decisions (sample_optimizer 20 sample_cluster)) /\
    estimated_makespan (sample_optimizer 20 sample_cluster) = 12.
Proof.
  destruct (local_search_never_worse (IO := IterCanonical) (SS := InsertionSort) (R := CounterRng)
    (mkOptimizerConfig 20 (f32_of_ratio 3 10)) 0 diamond_dag sample_local sample_cluster) as [H0 _];
    [decide_now|decide_now|exact sample_ids_distinct|exact diamond_total|].
  destruct H0 as (asg & H & _); [vm_compute; lia|discriminate|].
  exists asg. split; [exact H|vm_compute; reflexivity].
Defined.
