(* ===== verification/Codec.v ===== *)
(** The wire format of offloading, [orchestrator/offload_codec.cpp]: the messages of
    [proto/protocol.proto], the eight encoders and decoders and the dispatch.

    The classes protoc generates are not part of the sources.  Their three entry points
    are the operations of [Protobuf], and [ProtobufLaws] is the documented promise: a
    message whose numbers are of their wire types, whose string fields are UTF-8 and whose
    size fits an [int] is serialised into exactly [ByteSizeLong] bytes, which parse back to
    it. *)

From Stdlib Require Import ZArith Lia.
From stdpp Require Import base gmap strings numbers countable list.
From S2P Require Import Prelude Core Dag Kahn Cycle DagTheorems Scheduler.

Local Open Scope Z_scope.

(** * Messages *)

Record TaskProfileMsg := mkProfileMsg {
  compute_cost_us : Z;
  pb_memory_bytes : Z;
  pb_input_bytes : Z;
  pb_output_bytes : Z
}.

(** A field of message type is absent until it is first mutated; reading an absent one
    gives the default instance. *)
Record OffloadRequest := mkRequest {
  req_request_id : string;
  req_task_id : string;
  req_task_name : string;
  req_profile : option TaskProfileMsg;
  req_input_data : list Z
}.

Record OffloadResponse := mkResponse {
  resp_request_id : string;
  resp_task_id : string;
  resp_success : bool;
  resp_output_data : list Z;
  actual_duration_us : Z;
  resp_peak_memory_bytes : Z;
  resp_error_message : string
}.

Record TaskSpec := mkSpec {
  spec_task_id : string;
  spec_name : string;
  spec_profile : option TaskProfileMsg;
  spec_dependencies : list string
}.

Record WorkloadSubmission := mkSubmission {
  sub_workload_id : string;
  sub_tasks : list TaskSpec
}.

Record WorkloadResult := mkWorkloadResult {
  res_workload_id : string;
  res_accepted : bool;
  res_error_message : string;
  res_local_tasks : Z;
  res_offloaded_tasks : Z;
  res_completed_tasks : Z;
  res_failed_tasks : Z;
  res_offload_fallbacks : Z;
  makespan_estimate_us : Z;
  total_duration_us : Z
}.

(** [temperature] and [cpu_usage_percent] travel as their bit patterns. *)
Record ResourceSummary := mkSummary {
  rs_cpu_usage_percent : Z;
  rs_memory_available_bytes : Z;
  rs_memory_total_bytes : Z;
  rs_temperature_celsius : Z;
  rs_is_throttled : bool;
  rs_network_rx_bytes_sec : Z;
  rs_network_tx_bytes_sec : Z
}.

Record NodeAdvertisement := mkAdvertisement {
  adv_node_id : string;
  adv_address : string;
  adv_tcp_port : Z;
  adv_resources : option ResourceSummary;
  adv_timestamp_ms : Z
}.

Inductive Payload :=
  | PAdvertisement (m : NodeAdvertisement)
  | POffloadRequest (m : OffloadRequest)
  | POffloadResponse (m : OffloadResponse)
  | PWorkloadSubmission (m : WorkloadSubmission)
  | PWorkloadResult (m : WorkloadResult).

(** [None] is [PAYLOAD_NOT_SET]. *)
Record Envelope := mkEnvelope { payload : option Payload }.

(** The [string] fields, which proto3 requires to be UTF-8 ([bytes] fields are free). *)
Definition payload_strings (p : Payload) : list string :=
  match p with
  | PAdvertisement m => [adv_node_id m; adv_address m]
  | POffloadRequest m => [req_request_id m; req_task_id m; req_task_name m]
  | POffloadResponse m => [resp_request_id m; resp_task_id m; resp_error_message m]
  | PWorkloadSubmission m =>
      sub_workload_id m ::
      mbind (fun s => spec_task_id s :: spec_name s :: spec_dependencies s) (sub_tasks m)
  | PWorkloadResult m => [res_workload_id m; res_error_message m]
  end.

Definition envelope_strings (e : Envelope) : list string :=
  match payload e with Some p => payload_strings p | None => [] end.

(** The numbers are of their wire types: [uint64], [uint32], [float] as its four bytes, and
    the elements of a [bytes] field. *)
Definition in_bits (bits z : Z) : bool := (0 <=? z) && (z <? 2 ^ bits).

Definition profile_typed (m : option TaskProfileMsg) : bool :=
  match m with
  | Some p => forallb (in_bits 64) [compute_cost_us p; pb_memory_bytes p; pb_input_bytes p; pb_output_bytes p]
  | None => true
  end.

Definition summary_typed (m : option ResourceSummary) : bool :=
  match m with
  | Some r => forallb (in_bits 32) [rs_cpu_usage_percent r; rs_temperature_celsius r] &&
              forallb (in_bits 64) [rs_memory_available_bytes r; rs_memory_total_bytes r; rs_network_rx_bytes_sec r;
                                 rs_network_tx_bytes_sec r]
  | None => true
  end.

Definition payload_typed (p : Payload) : bool :=
  match p with
  | PAdvertisement m => in_bits 32 (adv_tcp_port m) && in_bits 64 (adv_timestamp_ms m) && summary_typed (adv_resources m)
  | POffloadRequest m => profile_typed (req_profile m) && forallb (in_bits 8) (req_input_data m)
  | POffloadResponse m =>
      forallb (in_bits 64) [actual_duration_us m; resp_peak_memory_bytes m] && forallb (in_bits 8) (resp_output_data m)
  | PWorkloadSubmission m => forallb (fun s => profile_typed (spec_profile s)) (sub_tasks m)
  | PWorkloadResult m =>
      forallb (in_bits 64) [res_local_tasks m; res_offloaded_tasks m; res_completed_tasks m; res_failed_tasks m;
                         res_offload_fallbacks m; makespan_estimate_us m; total_duration_us m]
  end.

Definition envelope_typed (e : Envelope) : bool :=
  match payload e with Some p => payload_typed p | None => true end.

(** [static_cast<int>] of a [size_t]. *)
Definition i32 (z : Z) : Z := (z + 2 ^ 31) mod 2 ^ 32 - 2 ^ 31.

Lemma i32_small z : - 2 ^ 31 <= z < 2 ^ 31 -> i32 z = z.
Proof. unfold i32. intros. rewrite Z.mod_small; lia. Qed.

(** * The generated code *)

Class Protobuf := {
  is_utf8 : string -> bool;
  ByteSizeLong : Envelope -> Z;
  (** the bytes written, or [None] when the call returns [false] *)
  SerializeToArray : Envelope -> Z -> option (list Z);
  ParseFromArray : list Z -> Z -> option Envelope
}.

(** A message the generated code can send: its numbers have their types -- which the C++
    classes enforce, their fields being machine integers -- its strings are UTF-8 and its size
    fits. *)
Definition transmissible {PB : Protobuf} (e : Envelope) : Prop :=
  envelope_typed e = true /\ Forall (fun s => is_utf8 s = true) (envelope_strings e) /\ ByteSizeLong e < 2 ^ 31.

Class ProtobufLaws (PB : Protobuf) := {
  ByteSizeLong_nonneg : forall e, 0 <= ByteSizeLong e;
  serialize_parse : forall e, transmissible e ->
    exists bytes, SerializeToArray e (ByteSizeLong e) = Some bytes /\
                  Z.of_nat (length bytes) = ByteSizeLong e /\
                  ParseFromArray bytes (ByteSizeLong e) = Some e
}.

(** * The codec *)

Record OrchestrationResult := mkOrchestration {
  orch_plan : SchedulingPlan;
  local_tasks : Z;
  offloaded_tasks : Z;
  completed_tasks : Z;
  failed_tasks : Z;
  offload_fallbacks : Z;
  total_duration : Duration
}.

Definition empty_plan : SchedulingPlan := mkPlan [] 0 0.
Definition empty_result : OrchestrationResult := mkOrchestration empty_plan 0 0 0 0 0 0.

Inductive WireKind :=
  | KindUnknown | KindOffloadRequest | KindOffloadResponse
  | KindWorkloadSubmission | KindWorkloadResult.

(** The four [set_*] calls on a [TaskProfileMsg], and the four reads. *)
Definition profile_msg (p : TaskProfile) : TaskProfileMsg :=
  mkProfileMsg (u64 (compute_cost p)) (memory_bytes p) (input_bytes p) (output_bytes p).

Definition default_profile_msg : TaskProfileMsg := mkProfileMsg 0 0 0 0.

Definition msg_profile (m : option TaskProfileMsg) : TaskProfile :=
  let p := default default_profile_msg m in
  mkProfile (i64 (compute_cost_us p)) (pb_memory_bytes p) (pb_input_bytes p) (pb_output_bytes p).

Section codec.
Context {PB : Protobuf}.

(** [std::vector<uint8_t> buf(env.ByteSizeLong()); env.SerializeToArray(...)]: the buffer
    keeps its zeros when serialisation fails. *)
Definition to_buffer (e : Envelope) : list Z :=
  let n := ByteSizeLong e in
  default (replicate (Z.to_nat n) 0) (SerializeToArray e (i32 n)).

Definition of_buffer (data : list Z) : option Envelope :=
  ParseFromArray data (i32 (Z.of_nat (length data))).

Definition classify (data : list Z) : WireKind :=
  match of_buffer data with
  | None => KindUnknown
  | Some env =>
      match payload env with
      | Some (POffloadRequest _) => KindOffloadRequest
      | Some (POffloadResponse _) => KindOffloadResponse
      | Some (PWorkloadSubmission _) => KindWorkloadSubmission
      | Some (PWorkloadResult _) => KindWorkloadResult
      | _ => KindUnknown
      end
  end.

Definition request_envelope (id : string) (profile : TaskProfile) (input : list Z) : Envelope :=
  mkEnvelope (Some (POffloadRequest (mkRequest "" id "" (Some (profile_msg profile)) input))).

Definition encode_request (id : string) (profile : TaskProfile) (input : list Z) : list Z :=
  to_buffer (request_envelope id profile input).

Definition decode_request (data : list Z) : option (string * TaskProfile * list Z) :=
  match of_buffer data with
  | Some (mkEnvelope (Some (POffloadRequest req))) =>
      Some (req_task_id req, msg_profile (req_profile req), req_input_data req)
  | _ => None
  end.

Definition response_envelope (success : bool) (duration : Duration) (peak_memory : Z)
    (error_msg : string) (output : list Z) : Envelope :=
  mkEnvelope (Some (POffloadResponse
    (mkResponse "" "" success output (u64 duration) peak_memory error_msg))).

Definition encode_response (success : bool) (duration : Duration) (peak_memory : Z)
    (error_msg : string) (output : list Z) : list Z :=
  to_buffer (response_envelope success duration peak_memory error_msg output).

Definition decode_response (data : list Z) : option (bool * Duration * Z * string * list Z) :=
  match of_buffer data with
  | Some (mkEnvelope (Some (POffloadResponse resp))) =>
      Some (resp_success resp, i64 (actual_duration_us resp), resp_peak_memory_bytes resp,
            resp_error_message resp, resp_output_data resp)
  | _ => None
  end.

Definition task_spec (t : Task) : TaskSpec :=
  mkSpec (task_id t) (task_name t) (Some (profile_msg (task_profile t))) (task_dependencies t).

Definition submission_envelope {IO : IterOrder} (workload_id : string) (dag : WorkloadDAG) : Envelope :=
  mkEnvelope (Some (PWorkloadSubmission
    (mkSubmission workload_id (task_spec <$> omap (get_task dag) (topological_order dag))))).

Definition encode_submission {IO : IterOrder} (workload_id : string) (dag : WorkloadDAG) : list Z :=
  to_buffer (submission_envelope workload_id dag).

(** First pass: a fresh [Task] per spec. *)
Definition spec_task (s : TaskSpec) : Task :=
  mkTask (spec_task_id s) (spec_name s) (msg_profile (spec_profile s)) [] Pending.

Definition add_spec (d : WorkloadDAG) (s : TaskSpec) : WorkloadDAG := (add_task (spec_task s) d).2.

(** Second pass: the edges of a spec. *)
Definition add_spec_edges (d : WorkloadDAG) (s : TaskSpec) : WorkloadDAG :=
  foldl (fun d dep => add_dependency dep (spec_task_id s) d) d (spec_dependencies s).

Definition read_specs (specs : list TaskSpec) (d : WorkloadDAG) : WorkloadDAG :=
  foldl add_spec_edges (foldl add_spec d specs) specs.

(** The answer and the two out-parameters, which keep their values on a parse failure. *)
Definition decode_submission {IO : IterOrder} (data : list Z) (workload_id : string) (dag : WorkloadDAG)
  : bool * string * WorkloadDAG :=
  match of_buffer data with
  | Some (mkEnvelope (Some (PWorkloadSubmission sub))) =>
      let dag' := read_specs (sub_tasks sub) dag in
      (is_valid dag' && negb (has_cycle dag'), sub_workload_id sub, dag')
  | _ => (false, workload_id, dag)
  end.

Definition workload_result_envelope (workload_id : string) (accepted : bool) (error_msg : string)
    (result : OrchestrationResult) : Envelope :=
  mkEnvelope (Some (PWorkloadResult
    (mkWorkloadResult workload_id accepted error_msg
       (local_tasks result) (offloaded_tasks result) (completed_tasks result)
       (failed_tasks result) (offload_fallbacks result)
       (u64 (estimated_makespan (orch_plan result))) (u64 (total_duration result))))).

Definition encode_workload_result (workload_id : string) (accepted : bool) (error_msg : string)
    (result : OrchestrationResult) : list Z :=
  to_buffer (workload_result_envelope workload_id accepted error_msg result).

(** [result] is an in-out parameter: the decisions of its plan stay. *)
Definition decode_workload_result (data : list Z) (result : OrchestrationResult)
  : option (string * bool * string * OrchestrationResult) :=
  match of_buffer data with
  | Some (mkEnvelope (Some (PWorkloadResult res))) =>
      Some (res_workload_id res, res_accepted res, res_error_message res,
            mkOrchestration
              (mkPlan (decisions (orch_plan result)) (i64 (makespan_estimate_us res))
                      (computed_at (orch_plan result)))
              (res_local_tasks res) (res_offloaded_tasks res) (res_completed_tasks res)
              (res_failed_tasks res) (res_offload_fallbacks res) (i64 (total_duration_us res)))
  | _ => None
  end.

(** * Round trips *)

Context {PL : ProtobufLaws PB}.

Lemma buffer_roundtrip e : transmissible e -> of_buffer (to_buffer e) = Some e.
Proof.
  intros He. destruct (serialize_parse e He) as (bytes & Hser & Hlen & Hparse).
  pose proof (ByteSizeLong_nonneg e). destruct He as (_ & _ & Hsize).
  unfold of_buffer, to_buffer. rewrite (i32_small (ByteSizeLong e)) by lia.
  rewrite Hser. simpl. rewrite Hlen, i32_small by lia. done.
Qed.

Lemma profile_roundtrip p : profile_ok p -> msg_profile (Some (profile_msg p)) = p.
Proof.
  intros (Hc & _). unfold msg_profile, profile_msg. destruct p; simpl in *. by rewrite i64_u64.
Qed.
End codec.
