(* ===== verification/CodecTheorems.v ===== *)
(** What a message survives: the round trips of every encoder with its decoder, and of a
    whole DAG through a submission. *)

From Stdlib Require Import ZArith Lia.
From stdpp Require Import base gmap strings relations numbers countable list.
From S2P Require Import Prelude Core Dag Kahn Cycle DagTheorems Scheduler Codec.

Local Open Scope Z_scope.

(** * [Task::dependencies] mirrors the edges

    [encode_submission] sends the vector kept in each task, not the adjacency lists. *)

Definition deps_mirror (d : WorkloadDAG) : Prop :=
  forall v t, tasks_ d !! v = Some t ->
    NoDup (task_dependencies t) /\ forall u, u ∈ task_dependencies t <-> edge d u v.

Lemma edge_add_task t d u v : edge (add_task t d).2 u v <-> edge d u v.
Proof. unfold edge. by rewrite dependents_add_task. Qed.

Lemma edge_add_dependency f t d u v :
  edge (add_dependency f t d) u v <-> edge d u v \/ (u = f /\ v = t).
Proof.
  unfold edge. rewrite dependents_add_dependency. case_decide; set_solver.
Qed.

Lemma deps_mirror_empty : deps_mirror empty_dag.
Proof. intros v t. simpl. by rewrite lookup_empty. Qed.

Lemma deps_mirror_add_task t d :
  deps_mirror d -> task_dependencies t = [] ->
  known d (task_id t) \/ (forall u, ~ edge d u (task_id t)) -> deps_mirror (add_task t d).2.
Proof.
  intros Hm Ht Hnew v t'. setoid_rewrite edge_add_task. simpl.
  destruct (tasks_ d !! task_id t) eqn:E; [apply Hm|].
  intros [[<- <-]|[_ Hv]]%lookup_insert_Some; [|by apply Hm].
  rewrite Ht. split; [constructor|]. destruct Hnew as [[? ?]|Hno]; [congruence|set_solver].
Qed.

Lemma deps_mirror_add_dependency f t d :
  deps_mirror d -> deps_mirror (add_dependency f t d).
Proof.
  intros Hm v t'. setoid_rewrite edge_add_dependency. simpl.
  destruct (tasks_ d !! t) as [x|] eqn:E.
  - case_decide as Hin.
    + intros Hv. destruct (Hm v t' Hv) as [? He]. split; [done|]. intros u. rewrite He.
      split; [by left|]. intros [|[-> ->]]; [done|]. simplify_eq. by apply He.
    + intros [[<- <-]|[Hne Hv]]%lookup_insert_Some; simpl.
      * destruct (Hm t x E) as [? He]. split.
        -- apply NoDup_app. split_and!; [done|set_solver|apply NoDup_singleton].
        -- intros u. rewrite elem_of_app, He, list_elem_of_singleton. naive_solver.
      * destruct (Hm v t' Hv) as [? He]. split; [done|]. intros u. rewrite He. naive_solver.
  - intros Hv. destruct (Hm v t' Hv) as [? He]. split; [done|]. intros u. rewrite He.
    split; [by left|]. intros [|[-> ->]]; [done|congruence].
Qed.

Lemma deps_mirror_build ts es : deps_mirror (build ts es).
Proof.
  unfold build. set (f := fun d '(u, v) => _). set (g := fun d '(i, c, m) => _).
  assert (deps_mirror (foldl g empty_dag ts) /\ forall u v, ~ edge (foldl g empty_dag ts) u v)
    as [H _].
  { apply (foldl_inv (fun _ d => deps_mirror d /\ forall u v, ~ edge d u v)).
    - split; [apply deps_mirror_empty|]. intros u v. unfold edge. rewrite dependents_at_or.
      unfold at_or. simpl. rewrite lookup_empty. set_solver.
    - intros _ d [[i c] m] [Hm Hno]. subst g. cbn -[add_task]. split.
      + apply deps_mirror_add_task; auto.
      + intros u v. by rewrite edge_add_task. }
  apply (foldl_inv (fun _ => deps_mirror)); [done|].
  intros _ d [u v]. apply deps_mirror_add_dependency.
Qed.

(** * Reading the specs back *)

Abbreviation spec_ids := (fmap (M:=list) spec_task_id).

(** What the two passes make of a spec. *)
Definition full_task (s : TaskSpec) : Task := with_dependencies (spec_task s) (spec_dependencies s).

Lemma add_specs_spec specs d :
  NoDup (spec_ids specs) -> (forall s, s ∈ specs -> tasks_ d !! spec_task_id s = None) ->
  let d' := foldl add_spec d specs in
  (forall s, s ∈ specs -> tasks_ d' !! spec_task_id s = Some (spec_task s)) /\
  (forall v, v ∉ spec_ids specs -> tasks_ d' !! v = tasks_ d !! v) /\
  (forall u v, edge d' u v <-> edge d u v).
Proof.
  revert d. induction specs as [|s specs IH]; intros d Hnd Hfresh; simpl; [set_solver|].
  apply NoDup_cons in Hnd as [Hs Hnd].
  assert (tasks_ (add_spec d s) = <[spec_task_id s := spec_task s]> (tasks_ d)) as E.
  { unfold add_spec, add_task. simpl. by rewrite (Hfresh s) by set_solver. }
  destruct (IH (add_spec d s)) as (H1 & H2 & H3); [done| |].
  { intros s' Hs'. rewrite E, lookup_insert_ne; [apply Hfresh; set_solver|].
    intros Heq. apply Hs. rewrite Heq. by apply list_elem_of_fmap_2. }
  split_and!.
  - intros s' [->|Hs']%elem_of_cons; [|by apply H1].
    rewrite H2, E by done. by rewrite lookup_insert_eq.
  - intros v [Hv Hv']%not_elem_of_cons. by rewrite H2, E, lookup_insert_ne by done.
  - intros u v. rewrite H3. apply edge_add_task.
Qed.

Lemma add_edges_spec v deps d t :
  tasks_ d !! v = Some t -> NoDup (task_dependencies t ++ deps) ->
  let d' := foldl (fun d dep => add_dependency dep v d) d deps in
  tasks_ d' = <[v := with_dependencies t (task_dependencies t ++ deps)]> (tasks_ d) /\
  (forall x y, edge d' x y <-> edge d x y \/ (x ∈ deps /\ y = v)).
Proof.
  revert d t. induction deps as [|f deps IH]; intros d t Ht Hnd; simpl.
  - rewrite app_nil_r. split; [|set_solver]. rewrite insert_id; [done|].
    rewrite Ht. by destruct t.
  - assert (f ∉ task_dependencies t) as Hf.
    { apply NoDup_app in Hnd as (_ & H & _). intros Hin. apply (H f Hin). by left. }
    set (t1 := with_dependencies t (task_dependencies t ++ [f])).
    assert (tasks_ (add_dependency f v d) = <[v := t1]> (tasks_ d)) as E.
    { simpl. rewrite Ht. by case_decide. }
    destruct (IH (add_dependency f v d) t1) as [H1 H2].
    { by rewrite E, lookup_insert_eq. }
    { simpl. by rewrite <- (assoc_L (++)). }
    rewrite H1, E, insert_insert_eq. split.
    + unfold t1, with_dependencies; simpl. by rewrite <- (assoc_L (++)).
    + intros x y. rewrite H2, edge_add_dependency. set_solver.
Qed.

Lemma add_all_edges_spec specs d :
  NoDup (spec_ids specs) -> (forall s, s ∈ specs -> NoDup (spec_dependencies s)) ->
  (forall s, s ∈ specs -> tasks_ d !! spec_task_id s = Some (spec_task s)) ->
  let d' := foldl add_spec_edges d specs in
  (forall s, s ∈ specs -> tasks_ d' !! spec_task_id s = Some (full_task s)) /\
  (forall v, v ∉ spec_ids specs -> tasks_ d' !! v = tasks_ d !! v) /\
  (forall x y, edge d' x y <->
     edge d x y \/ exists s, s ∈ specs /\ x ∈ spec_dependencies s /\ y = spec_task_id s).
Proof.
  revert d. induction specs as [|s specs IH]; intros d Hnd Hdeps Ht; simpl; [set_solver|].
  apply NoDup_cons in Hnd as [Hs Hnd].
  destruct (add_edges_spec (spec_task_id s) (spec_dependencies s) d (spec_task s)) as [E Hedge].
  { apply Ht. by left. }
  { apply Hdeps. by left. }
  fold (add_spec_edges d s) in E, Hedge. simpl in E. fold (full_task s) in E.
  destruct (IH (add_spec_edges d s)) as (H1 & H2 & H3); [done|set_solver| |].
  { intros s' Hs'. rewrite E, lookup_insert_ne; [apply Ht; by right|].
    intros Heq. apply Hs. rewrite Heq. by apply list_elem_of_fmap_2. }
  split_and!.
  - intros s' [->|Hs']%elem_of_cons; [|by apply H1]. by rewrite H2, E, lookup_insert_eq.
  - intros v [Hv Hv']%not_elem_of_cons. by rewrite H2, E, lookup_insert_ne.
  - intros x y. rewrite H3, Hedge. setoid_rewrite elem_of_cons. naive_solver.
Qed.

(** Specs with distinct ids and duplicate-free dependencies are read exactly. *)
Lemma read_specs_spec specs :
  NoDup (spec_ids specs) -> (forall s, s ∈ specs -> NoDup (spec_dependencies s)) ->
  let d' := read_specs specs empty_dag in
  (forall v t, tasks_ d' !! v = Some t <-> exists s, s ∈ specs /\ v = spec_task_id s /\ t = full_task s) /\
  (forall x y, edge d' x y <-> exists s, s ∈ specs /\ x ∈ spec_dependencies s /\ y = spec_task_id s).
Proof.
  intros Hnd Hdeps. unfold read_specs.
  destruct (add_specs_spec specs empty_dag Hnd) as (A1 & A2 & A3).
  { intros. apply lookup_empty. }
  destruct (add_all_edges_spec specs _ Hnd Hdeps A1) as (B1 & B2 & B3). split.
  - intros v t. split; [|intros (s & Hs & -> & ->); by apply B1].
    destruct (decide (v ∈ spec_ids specs)) as [(s & -> & Hs)%list_elem_of_fmap|Hv].
    + rewrite B1 by done. intros [= <-]. eauto.
    + rewrite B2, A2 by done. simpl. by rewrite lookup_empty.
  - intros x y. rewrite B3, A3. unfold edge, dependents. simpl. rewrite lookup_empty. set_solver.
Qed.

(** * Theorems *)

Definition profiles_ok (d : WorkloadDAG) : Prop :=
  map_Forall (fun _ t => profile_ok (task_profile t)) (tasks_ d).

(** The in-memory values that fit their wire types. *)
Definition result_ok (r : OrchestrationResult) : Prop :=
  is_i64 (estimated_makespan (orch_plan r)) /\ is_i64 (total_duration r).

Section roundtrip.
Context {IO : IterOrder} {PB : Protobuf} {PL : ProtobufLaws PB}.

Lemma full_task_spec t : profile_ok (task_profile t) -> full_task (task_spec t) = with_state t Pending.
Proof.
  intros Hp. unfold full_task, spec_task, task_spec. cbn -[msg_profile profile_msg].
  rewrite profile_roundtrip by done. by destruct t.
Qed.

Lemma same_graph_valid d d' :
  (forall v, known d' v <-> known d v) -> (forall u v, edge d' u v <-> edge d u v) ->
  is_valid d = true -> is_valid d' = true.
Proof.
  intros Hk He [[t Ht] Hno]%is_valid_spec. apply is_valid_spec. split; [exists t; by apply Hk|].
  intros (s & v & Hs & Hsv & Hv). apply Hno. exists s, v. split_and!.
  - by apply Hk.
  - eapply (rtc_subrel (edge d')); [|done]. intros ? ?. apply He.
  - assert (forall x y, tc (edge d') x y -> tc (edge d) x y) as H; [|by apply H].
    induction 1; [by apply tc_once, He|]. eapply tc_l; [by apply He|done].
Qed.

Lemma sent_tasks d : closed d -> is_valid d = true ->
  forall t, t ∈ omap (get_task d) (topological_order d) <-> exists v, tasks_ d !! v = Some t.
Proof.
  intros Hc Hv t. rewrite list_elem_of_omap. unfold get_task. split; [naive_solver|].
  intros [v Ht]. exists v. split; [|done]. rewrite (valid_closed_perm d Hc Hv).
  apply elem_of_iter_fst. eauto.
Qed.

Lemma sent_ids d : dag_wf d -> NoDup (task_id <$> omap (get_task d) (topological_order d)).
Proof.
  intros Hwf. destruct (topological_order_spec d) as (_ & Hnd & _).
  induction (topological_order d) as [|v vs IH]; csimpl; [constructor|].
  apply NoDup_cons in Hnd as [Hv Hnd]. unfold get_task at 1.
  destruct (tasks_ d !! v) as [t|] eqn:Ht; csimpl; [|by apply IH].
  constructor; [|by apply IH]. intros (t' & Ht' & (v' & Hv' & E)%list_elem_of_omap)%list_elem_of_fmap.
  apply (wf_keys _ Hwf) in Ht as <-. apply (wf_keys _ Hwf) in E as <-. by rewrite <- Ht' in Hv'.
Qed.

Lemma read_specs_pending specs v t :
  tasks_ (read_specs specs empty_dag) !! v = Some t -> task_state t = Pending.
Proof.
  revert v t. unfold read_specs.
  set (P := fun d => forall v t, tasks_ d !! v = Some t -> task_state t = Pending).
  apply (foldl_inv (fun _ => P)); [apply (foldl_inv (fun _ => P))|].
  - intros v t. simpl. by rewrite lookup_empty.
  - intros _ d s Hd v t. simpl. destruct (tasks_ d !! spec_task_id s); [apply Hd|].
    intros [[_ <-]|[_ ?]]%lookup_insert_Some; [done|by eapply Hd].
  - intros _ d s Hd. apply (foldl_inv (fun _ => P)); [done|].
    intros _ d' f Hd' v t. simpl. destruct (tasks_ d' !! spec_task_id s) eqn:E; [|apply Hd'].
    case_decide; [apply Hd'|]. intros [[_ <-]|[_ ?]]%lookup_insert_Some; [|by eapply Hd'].
    by apply (Hd' _ _ E).
Qed.

Lemma decode_encode_submission w w0 d :
  dag_wf d -> deps_mirror d -> closed d -> is_valid d = true -> profiles_ok d ->
  transmissible (submission_envelope w d) ->
  exists d', decode_submission (encode_submission w d) w0 empty_dag = (true, w, d') /\
    tasks_ d' = (fun t => with_state t Pending) <$> tasks_ d /\
    (forall u v, edge d' u v <-> edge d u v) /\ is_valid d' = true.
Proof.
  intros Hwf Hm Hc Hv Hp Htr. unfold decode_submission, encode_submission.
  rewrite buffer_roundtrip by done. cbn -[read_specs].
  set (ts := omap (get_task d) (topological_order d)).
  pose proof (sent_tasks d Hc Hv) as Hts.
  destruct (read_specs_spec (task_spec <$> ts)) as [Htasks Hedges].
  { rewrite <- list_fmap_compose. by apply (sent_ids d). }
  { intros s (t & -> & [v Ht]%Hts)%list_elem_of_fmap. by apply (Hm v t). }
  set (d' := read_specs _ _) in *.
  assert (tasks_ d' = (fun t => with_state t Pending) <$> tasks_ d) as E.
  { apply map_eq. intros v. apply option_eq. intros t. rewrite Htasks, lookup_fmap, fmap_Some.
    setoid_rewrite list_elem_of_fmap. split.
    - intros (s & (t0 & -> & [v0 Ht0]%Hts) & -> & ->). exists t0. simpl.
      rewrite (wf_keys _ Hwf _ _ Ht0). split; [done|]. by apply full_task_spec, (Hp v0).
    - intros (t0 & Ht0 & ->). exists (task_spec t0). split; [exists t0; split; [done|by apply Hts; eauto]|].
      rewrite full_task_spec by by apply (Hp v). split; [|done]. symmetry. by apply (wf_keys _ Hwf). }
  assert (forall u v, edge d' u v <-> edge d u v) as He.
  { intros u v. rewrite Hedges. setoid_rewrite list_elem_of_fmap. split.
    - intros (s & (t & -> & [v0 Ht]%Hts) & Hu & ->). simpl in *.
      rewrite (wf_keys _ Hwf _ _ Ht). by apply (Hm v0 t).
    - intros Huv. destruct (proj2 (Hc u v Huv)) as [t Ht]. exists (task_spec t). simpl.
      split; [exists t; split; [done|by apply Hts; eauto]|]. split; [by apply (Hm v t)|].
      symmetry. by apply (wf_keys _ Hwf). }
  assert (is_valid d' = true) as Hv'.
  { apply (same_graph_valid d); [|done..]. intros v. unfold known.
    by rewrite E, lookup_fmap, fmap_is_Some. }
  exists d'. split_and!; [|done..]. rewrite Hv'. unfold is_valid in Hv'.
  by apply andb_true_iff in Hv' as [_ ->].
Qed.

(** C26: a DAG submitted over the network arrives as it was: for a valid closed DAG whose
    task vectors mirror its edges, [decode_submission] of [encode_submission] accepts,
    returns the workload id, the same tasks (every one pending again, costs unchanged
    through the unsigned wire type) and the same edges. *)
Theorem submission_roundtrip w w0 d :
  dag_wf d -> deps_mirror d -> closed d -> is_valid d = true -> profiles_ok d ->
  transmissible (submission_envelope w d) ->
  exists d', decode_submission (encode_submission w d) w0 empty_dag = (true, w, d') /\
    tasks_ d' = (fun t => with_state t Pending) <$> tasks_ d /\
    (forall u v, edge d' u v <-> edge d u v).
Proof.
  intros. destruct (decode_encode_submission w w0 d) as (d' & ? & ? & ? & _); [done..|by exists d'].
Qed.

(** Requests, responses and workload results come back as they were sent, signed
    durations included, under the message kind the server dispatches on; a decoder of
    another kind refuses the bytes. *)
Theorem codec_roundtrips id p input success dur peak err out w accepted r r0 :
  profile_ok p -> is_i64 dur -> result_ok r ->
  transmissible (request_envelope id p input) ->
  transmissible (response_envelope success dur peak err out) ->
  transmissible (workload_result_envelope w accepted err r) ->
  let req := encode_request id p input in
  let resp := encode_response success dur peak err out in
  let res := encode_workload_result w accepted err r in
  (classify req = KindOffloadRequest /\ decode_request req = Some (id, p, input) /\
   decode_response req = None /\ decode_workload_result req r0 = None) /\
  (classify resp = KindOffloadResponse /\ decode_response resp = Some (success, dur, peak, err, out) /\
   decode_request resp = None /\ decode_workload_result resp r0 = None) /\
  (classify res = KindWorkloadResult /\
   (exists r1, decode_workload_result res r0 = Some (w, accepted, err, r1) /\
      estimated_makespan (orch_plan r1) = estimated_makespan (orch_plan r) /\
      decisions (orch_plan r1) = decisions (orch_plan r0) /\
      local_tasks r1 = local_tasks r /\ offloaded_tasks r1 = offloaded_tasks r /\
      completed_tasks r1 = completed_tasks r /\ failed_tasks r1 = failed_tasks r /\
      offload_fallbacks r1 = offload_fallbacks r /\ total_duration r1 = total_duration r) /\
   decode_request res = None /\ decode_response res = None).
Proof.
  intros Hp Hd [Hr1 Hr2] T1 T2 T3. cbv zeta.
  unfold encode_request, encode_response, encode_workload_result, classify, decode_request,
    decode_response, decode_workload_result.
  rewrite !buffer_roundtrip by done. cbn -[msg_profile profile_msg].
  rewrite profile_roundtrip, i64_u64 by done. split_and!; try done.
  eexists. split_and!; [done|simpl; try done; by apply i64_u64..].
Qed.

Lemma read_specs_steps specs : rtc dag_step empty_dag (read_specs specs empty_dag).
Proof.
  unfold read_specs. apply (foldl_inv (fun _ d => rtc dag_step empty_dag d)).
  - apply (foldl_inv (fun _ d => rtc dag_step empty_dag d)); [done|].
    intros _ d s Hd. eapply rtc_r; [done|]. constructor.
  - intros _ d s Hd. unfold add_spec_edges.
    apply (foldl_inv (fun _ d => rtc dag_step empty_dag d)); [done|].
    intros _ d' f Hd'. eapply rtc_r; [done|]. constructor.
Qed.

(** C27: whatever bytes arrive, a submission that is accepted is a well-formed, non-empty
    DAG in which no task can reach a cycle, so that every algorithm run on it is defined;
    bytes that are not a submission leave the caller's variables alone. *)
Theorem accepted_submission_is_safe data w0 :
  let '(ok, w, d) := decode_submission data w0 empty_dag in
  (ok = true -> dag_wf d /\ (exists v, known d v) /\ ~ reachable_cycle d /\
                forall v t, tasks_ d !! v = Some t -> task_state t = Pending) /\
  (classify data <> KindWorkloadSubmission -> ok = false /\ w = w0 /\ d = empty_dag).
Proof.
  unfold decode_submission, classify.
  destruct (of_buffer data) as [[[[| | |sub|]|]]|] eqn:E; cbn -[read_specs]; try done.
  split; [|done]. intros [Hv _]%andb_true_iff. apply is_valid_spec in Hv as [Hk Hno].
  split_and!; [|done..|].
  - eapply dag_steps_wf; [apply read_specs_steps|apply dag_wf_empty].
  - apply read_specs_pending.
Qed.
End roundtrip.

(** * A concrete serialiser

    One byte per bit of a numbering of the messages. *)

#[export] Instance TaskProfileMsg_eq_dec : EqDecision TaskProfileMsg.
Proof. solve_decision. Defined.

#[export] Instance TaskProfileMsg_countable : Countable TaskProfileMsg.
Proof.
  apply (inj_countable'
    (fun m => (compute_cost_us m, pb_memory_bytes m, pb_input_bytes m, pb_output_bytes m))
    (fun '(a, b, c, d) => mkProfileMsg a b c d)). by intros [].
Defined.

#[export] Instance OffloadRequest_eq_dec : EqDecision OffloadRequest.
Proof. solve_decision. Defined.

#[export] Instance OffloadRequest_countable : Countable OffloadRequest.
Proof.
  apply (inj_countable'
    (fun m => (req_request_id m, req_task_id m, req_task_name m, req_profile m, req_input_data m))
    (fun '(a, b, c, d, e) => mkRequest a b c d e)). by intros [].
Defined.

#[export] Instance OffloadResponse_eq_dec : EqDecision OffloadResponse.
Proof. solve_decision. Defined.

#[export] Instance OffloadResponse_countable : Countable OffloadResponse.
Proof.
  apply (inj_countable'
    (fun m => (resp_request_id m, resp_task_id m, resp_success m, resp_output_data m,
               actual_duration_us m, resp_peak_memory_bytes m, resp_error_message m))
    (fun '(a, b, c, d, e, f, g) => mkResponse a b c d e f g)). by intros [].
Defined.

#[export] Instance TaskSpec_eq_dec : EqDecision TaskSpec.
Proof. solve_decision. Defined.

#[export] Instance TaskSpec_countable : Countable TaskSpec.
Proof.
  apply (inj_countable'
    (fun m => (spec_task_id m, spec_name m, spec_profile m, spec_dependencies m))
    (fun '(a, b, c, d) => mkSpec a b c d)). by intros [].
Defined.

#[export] Instance WorkloadSubmission_eq_dec : EqDecision WorkloadSubmission.
Proof. solve_decision. Defined.

#[export] Instance WorkloadSubmission_countable : Countable WorkloadSubmission.
Proof.
  apply (inj_countable' (fun m => (sub_workload_id m, sub_tasks m))
    (fun '(a, b) => mkSubmission a b)). by intros [].
Defined.

#[export] Instance WorkloadResult_eq_dec : EqDecision WorkloadResult.
Proof. solve_decision. Defined.

#[export] Instance WorkloadResult_countable : Countable WorkloadResult.
Proof.
  apply (inj_countable'
    (fun m => (res_workload_id m, res_accepted m, res_error_message m,
               [res_local_tasks m; res_offloaded_tasks m; res_completed_tasks m; res_failed_tasks m;
                res_offload_fallbacks m; makespan_estimate_us m; total_duration_us m]))
    (fun '(a, b, c, l) =>
       mkWorkloadResult a b c (l !!! 0%nat) (l !!! 1%nat) (l !!! 2%nat) (l !!! 3%nat)
         (l !!! 4%nat) (l !!! 5%nat) (l !!! 6%nat))). by intros [].
Defined.

#[export] Instance ResourceSummary_eq_dec : EqDecision ResourceSummary.
Proof. solve_decision. Defined.

#[export] Instance ResourceSummary_countable : Countable ResourceSummary.
Proof.
  apply (inj_countable'
    (fun m => (rs_cpu_usage_percent m, rs_memory_available_bytes m, rs_memory_total_bytes m,
               rs_temperature_celsius m, rs_is_throttled m, rs_network_rx_bytes_sec m,
               rs_network_tx_bytes_sec m))
    (fun '(a, b, c, d, e, f, g) => mkSummary a b c d e f g)). by intros [].
Defined.

#[export] Instance NodeAdvertisement_eq_dec : EqDecision NodeAdvertisement.
Proof. solve_decision. Defined.

#[export] Instance NodeAdvertisement_countable : Countable NodeAdvertisement.
Proof.
  apply (inj_countable'
    (fun m => (adv_node_id m, adv_address m, adv_tcp_port m, adv_resources m, adv_timestamp_ms m))
    (fun '(a, b, c, d, e) => mkAdvertisement a b c d e)). by intros [].
Defined.

#[export] Instance Payload_eq_dec : EqDecision Payload.
Proof. solve_decision. Defined.

Definition payload_sum (p : Payload)
  : NodeAdvertisement + (OffloadRequest + (OffloadResponse + (WorkloadSubmission + WorkloadResult))) :=
  match p with
  | PAdvertisement m => inl m
  | POffloadRequest m => inr (inl m)
  | POffloadResponse m => inr (inr (inl m))
  | PWorkloadSubmission m => inr (inr (inr (inl m)))
  | PWorkloadResult m => inr (inr (inr (inr m)))
  end.

Definition sum_payload
    (s : NodeAdvertisement + (OffloadRequest + (OffloadResponse + (WorkloadSubmission + WorkloadResult))))
  : Payload :=
  match s with
  | inl m => PAdvertisement m
  | inr (inl m) => POffloadRequest m
  | inr (inr (inl m)) => POffloadResponse m
  | inr (inr (inr (inl m))) => PWorkloadSubmission m
  | inr (inr (inr (inr m))) => PWorkloadResult m
  end.

#[export] Instance Payload_countable : Countable Payload.
Proof. apply (inj_countable' payload_sum sum_payload). by intros []. Defined.

Fixpoint bits (p : positive) : list Z :=
  match p with xH => [] | xO q => 0 :: bits q | xI q => 1 :: bits q end.

Fixpoint unbits (l : list Z) : positive :=
  match l with [] => xH | b :: l' => if b =? 0 then xO (unbits l') else xI (unbits l') end.

Lemma unbits_bits p : unbits (bits p) = p.
Proof. induction p; simpl; by f_equal. Qed.

Definition BitProtobuf : Protobuf := {|
  is_utf8 := fun _ => true;
  ByteSizeLong := fun e => Z.of_nat (length (bits (encode (payload e))));
  SerializeToArray := fun e _ => Some (bits (encode (payload e)));
  ParseFromArray := fun l _ => mkEnvelope <$> decode (unbits l)
|}.

#[export] Instance BitProtobufLaws : ProtobufLaws BitProtobuf.
Proof.
  split; simpl; [lia|]. intros [p] _. eexists. split_and!; [done..|].
  simpl. by rewrite unbits_bits, decode_encode.
Defined.

Lemma bit_transmissible (e : Envelope) :
  envelope_typed e && (Z.of_nat (length (bits (encode (payload e)))) <? 2 ^ 31) = true -> @transmissible BitProtobuf e.
Proof. intros [H1 H2%Z.ltb_lt]%andb_true_iff. split_and!; [done|by apply Forall_true|exact H2]. Qed.

#[local] Existing Instance BitProtobuf.
#[local] Existing Instance IterCanonical.

Definition sample_result : OrchestrationResult := mkOrchestration (mkPlan [] 120 0) 2 1 3 0 1 450.
Definition sample_profile : TaskProfile := mkProfile 1000 64 8 8.

Lemma codec_roundtrips_witness :
  profile_ok sample_profile /\
  decode_request (encode_request "t" sample_profile [7]) = Some ("t", sample_profile, [7]) /\
  decode_response (encode_response true (-5) 64 "" []) = Some (true, -5, 64, "", []).
Proof.
  assert (profile_ok sample_profile) as Hp by (repeat split; vm_compute; congruence).
  destruct (codec_roundtrips "t" sample_profile [7] true (-5) 64 "" [] "w" true sample_result empty_result)
    as ((_ & H1 & _) & (_ & H2 & _) & _);
    [exact Hp|split; vm_compute; congruence|repeat split; vm_compute; congruence
    |apply bit_transmissible; vm_compute; reflexivity..|].
  done.
Defined.

Lemma diamond_profiles_ok : profiles_ok diamond_dag.
Proof. unfold profiles_ok, profile_ok, is_i64, is_u64. decide_now. Qed.

Lemma submission_roundtrip_witness :
  is_valid diamond_dag = true /\
  exists d', decode_submission (encode_submission "w" diamond_dag) "" empty_dag = (true, "w", d') /\
    tasks_ d' = (fun t => with_state t Pending) <$> tasks_ diamond_dag.
Proof.
  destruct (submission_roundtrip "w" "" diamond_dag) as (d' & H1 & H2 & _).
  - apply build_wf.
  - apply deps_mirror_build.
  - decide_now.
  - vm_compute. reflexivity.
  - apply diamond_profiles_ok.
  - apply bit_transmissible. vm_compute. reflexivity.
  - split; [vm_compute; reflexivity|]. exists d'. exact (conj H1 H2).
Defined.
