(* ===== verification/Transport.v ===== *)
(** [network/transport.cpp]: length-prefixed frames over TCP, and the life of the two
    descriptors a [TcpTransport] owns.

    The kernel answers every system call; its answers are an input of the model, one
    record per loop iteration, and a call that has used them all up is still in
    progress. *)

From Stdlib Require Import ZArith Lia.
From stdpp Require Import base gmap strings numbers pretty list.
From S2P Require Import Prelude Core.

Local Open Scope Z_scope.

(** * The header *)

Definition encode_u32 (val : Z) : list Z :=
  [u8 (Z.land (Z.shiftr val 24) 255); u8 (Z.land (Z.shiftr val 16) 255);
   u8 (Z.land (Z.shiftr val 8) 255); u8 (Z.land val 255)].

Definition decode_u32 (buf : list Z) : Z :=
  let b i := u32 (buf !!! i) in
  Z.lor (Z.lor (Z.lor (u32 (Z.shiftl (b 0%nat) 24)) (u32 (Z.shiftl (b 1%nat) 16)))
               (u32 (Z.shiftl (b 2%nat) 8)))
        (b 3%nat).

Definition MAX_MESSAGE_SIZE : Z := 16 * 1024 * 1024.

(** * Sending and receiving exactly [len] bytes *)

(** What [poll] returned, what [send] or [recv] returned, and [errno]. *)
Record io := mkIo { poll_ret : Z; call_ret : Z; errno : Z }.

Definition EAGAIN : Z := 11.

(** The call is made after [poll], on a descriptor that is ready. *)
Inductive step_result :=
  | Moved (n : nat)
  | Again
  | Failed_io.

(** [::send] of [remaining] bytes transfers at most that many. *)
Definition send_step (a : io) (remaining : nat) : step_result :=
  if poll_ret a <=? 0 then Failed_io
  else if call_ret a <=? 0 then if errno a =? EAGAIN then Again else Failed_io
  else Moved (Nat.min (Z.to_nat (call_ret a)) remaining).

(** [::recv] into [remaining] bytes transfers at most that many and at most what has
    arrived; nothing arrived is [EAGAIN]. *)
Definition recv_step (a : io) (remaining : nat) (arrived : list Z) : step_result :=
  if poll_ret a <=? 0 then Failed_io
  else if call_ret a <=? 0 then
    if (call_ret a <? 0) && (errno a =? EAGAIN) then Again else Failed_io
  else match arrived with
       | [] => Again
       | _ => Moved (Nat.min (Z.to_nat (call_ret a)) (Nat.min remaining (length arrived)))
       end.

(** The answer, the bytes handed to the kernel and the unused answers. *)
Fixpoint send_all (script : list io) (buf : list Z) : option (bool * list Z * list io) :=
  match buf, script with
  | [], _ => Some (true, [], script)
  | _, [] => None
  | _, a :: script' =>
      match send_step a (length buf) with
      | Failed_io => Some (false, [], script')
      | Again => send_all script' buf
      | Moved n =>
          '(ok, w, rest) ← send_all script' (drop n buf);
          Some (ok, take n buf ++ w, rest)
      end
  end.

(** The answer, the bytes stored in the buffer, what is left of the stream and of the
    answers. *)
Fixpoint recv_all (script : list io) (remaining : nat) (stream : list Z)
  : option (bool * list Z * list Z * list io) :=
  match remaining, script with
  | O, _ => Some (true, [], stream, script)
  | _, [] => None
  | _, a :: script' =>
      match recv_step a remaining stream with
      | Failed_io => Some (false, [], stream, script')
      | Again => recv_all script' remaining stream
      | Moved n =>
          '(ok, got, stream', rest) ← recv_all script' (remaining - n) (drop n stream);
          Some (ok, take n stream ++ got, stream', rest)
      end
  end.

(** * Frames *)

Definition send_on_fd (script : list io) (data : list Z)
  : option (Result unit * list Z * list io) :=
  if Z.of_nat (length data) >? MAX_MESSAGE_SIZE then
    Some (make_error "Message too large", [], script)
  else
    '(ok, w1, script) ← send_all script (encode_u32 (u32 (Z.of_nat (length data))));
    if ok : bool then
      match data with
      | [] => Some (Ok tt, w1, script)
      | _ =>
          '(ok, w2, script) ← send_all script data;
          Some (if ok : bool then Ok tt else make_error "Failed to send payload", w1 ++ w2, script)
      end
    else Some (make_error "Failed to send header", w1, script).

Definition recv_on_fd (script : list io) (stream : list Z)
  : option (Result (list Z) * list Z * list io) :=
  '(ok, header, stream, script) ← recv_all script 4 stream;
  if ok : bool then
    let len := decode_u32 header in
    if len >? MAX_MESSAGE_SIZE then
      Some (make_error ("Message too large: " +:+ pretty len +:+ " bytes"), stream, script)
    else if len >? 0 then
      '(ok, body, stream, script) ← recv_all script (Z.to_nat len) stream;
      Some (if ok : bool then Ok body else make_error "Failed to receive payload", stream, script)
    else Some (Ok [], stream, script)
  else Some (make_error "Failed to receive header", stream, script).

(** * Descriptors

    [open] is the set of descriptors the object has opened and not closed. *)

Record TcpTransport := mkTcp {
  client_fd_ : Z;
  server_fd_ : Z;
  serving_ : bool;
  open : gset Z
}.

Definition new_transport : TcpTransport := mkTcp (-1) (-1) false ∅.

Definition with_client (t : TcpTransport) (fd : Z) (o : gset Z) : TcpTransport :=
  mkTcp fd (server_fd_ t) (serving_ t) o.
Definition with_server (t : TcpTransport) (fd : Z) (o : gset Z) : TcpTransport :=
  mkTcp (client_fd_ t) fd (serving_ t) o.

(** [::socket] returns a descriptor that is not open, or a negative number. *)
Definition sys_open (fd : Z) (o : gset Z) : gset Z := if fd <? 0 then o else {[fd]} ∪ o.

Section strerror.
(** [strerror], of the C library. *)
Variable strerror : Z -> string.

Definition EINPROGRESS : Z := 115.

(** The kernel's answers during [connect]: the descriptor, whether [inet_pton] accepted
    the address, the return value and [errno] of [::connect], what [poll] returned and
    [SO_ERROR]. *)
Record connect_env := mkConnect {
  ce_socket : Z; ce_socket_errno : Z;
  ce_pton : Z;
  ce_ret : Z; ce_errno : Z;
  ce_ready : Z;
  ce_so_error : Z
}.

Definition connect (e : connect_env) (address : string) (t : TcpTransport)
  : Result unit * TcpTransport :=
  if client_fd_ t >=? 0 then (make_error "Already connected", t)
  else
    let fd := ce_socket e in
    let t := with_client t fd (sys_open fd (open t)) in
    let close_client := with_client t (-1) (open t ∖ {[fd]}) in
    if fd <? 0 then
      (make_error ("Failed to create socket: " +:+ strerror (ce_socket_errno e)), t)
    else if negb (ce_pton e =? 1) then (make_error ("Invalid address: " +:+ address), close_client)
    else if (ce_ret e <? 0) && negb (ce_errno e =? EINPROGRESS) then
      (make_error ("Connect failed: " +:+ strerror (ce_errno e)), close_client)
    else if ce_ret e <? 0 then
      if ce_ready e <=? 0 then (make_error "Connect timed out", close_client)
      else if negb (ce_so_error e =? 0) then
        (make_error ("Connect failed: " +:+ strerror (ce_so_error e)), close_client)
      else (Ok tt, t)
    else (Ok tt, t).

Definition disconnect (t : TcpTransport) : TcpTransport :=
  if client_fd_ t >=? 0 then with_client t (-1) (open t ∖ {[client_fd_ t]}) else t.

Record listen_env := mkListen {
  le_socket : Z; le_socket_errno : Z;
  le_bind : Z; le_bind_errno : Z;
  le_listen : Z; le_listen_errno : Z
}.

Definition listen (e : listen_env) (t : TcpTransport) : Result unit * TcpTransport :=
  if server_fd_ t >=? 0 then (make_error "Already listening", t)
  else
    let fd := le_socket e in
    let t := with_server t fd (sys_open fd (open t)) in
    let close_server := with_server t (-1) (open t ∖ {[fd]}) in
    if fd <? 0 then
      (make_error ("Failed to create server socket: " +:+ strerror (le_socket_errno e)), t)
    else if le_bind e <? 0 then
      (make_error ("Bind failed: " +:+ strerror (le_bind_errno e)), close_server)
    else if le_listen e <? 0 then
      (make_error ("Listen failed: " +:+ strerror (le_listen_errno e)), close_server)
    else (Ok tt, t).
End strerror.

Definition is_connected (t : TcpTransport) : bool := client_fd_ t >=? 0.
Definition is_listening (t : TcpTransport) : bool := server_fd_ t >=? 0.

Definition send (script : list io) (data : list Z) (t : TcpTransport)
  : option (Result unit * list Z * list io) :=
  if client_fd_ t <? 0 then Some (make_error "Not connected", [], script)
  else send_on_fd script data.

Definition receive (script : list io) (stream : list Z) (t : TcpTransport)
  : option (Result (list Z) * list Z * list io) :=
  if client_fd_ t <? 0 then Some (make_error "Not connected", stream, script)
  else recv_on_fd script stream.

Definition stop_serving (t : TcpTransport) : TcpTransport :=
  if server_fd_ t >=? 0
  then mkTcp (client_fd_ t) (-1) false (open t ∖ {[server_fd_ t]})
  else mkTcp (client_fd_ t) (server_fd_ t) false (open t).

(** [~TcpTransport]. *)
Definition destroy (t : TcpTransport) : TcpTransport :=
  let t := disconnect (stop_serving t) in
  if server_fd_ t >=? 0 then with_server t (-1) (open t ∖ {[server_fd_ t]}) else t.

(** One round of the [serve] thread: the poll answer, the accepted descriptor, the
    kernel's answers on it and the bytes the client sent.  The result is what was written
    back and the open descriptors afterwards; [None] while the round is in progress. *)
Definition serve_round (handler : list Z -> list Z) (ready client_fd : Z) (script : list io)
    (stream : list Z) (o : gset Z) : option (list Z * gset Z) :=
  if ready <=? 0 then Some ([], o)
  else if client_fd <? 0 then Some ([], o)
  else
    let o := sys_open client_fd o in
    '(request, _, script) ← recv_on_fd script stream;
    match request with
    | Ok req =>
        '(_, wire, _) ← send_on_fd script (handler req);
        Some (wire, o ∖ {[client_fd]})
    | Err _ => Some ([], o ∖ {[client_fd]})
    end.

(** [serve]: the thread starts only on a listening socket. *)
Definition serve (t : TcpTransport) : bool * TcpTransport :=
  if server_fd_ t <? 0 then (false, t) else (true, mkTcp (client_fd_ t) (server_fd_ t) true (open t)).

(** One turn of the thread: the stop token and [serving_] at the test, then a round. *)
Record serve_turn := mkServeTurn {
  sv_stop : bool;
  sv_serving : bool;
  sv_ready : Z;
  sv_client : Z;
  sv_script : list io;
  sv_stream : list Z
}.

Definition serve_leaves (u : serve_turn) : bool := sv_stop u || negb (sv_serving u).

(** The thread: what it wrote in each round and the open descriptors after it returned;
    [None] while it runs. *)
Fixpoint serve_loop (handler : list Z -> list Z) (turns : list serve_turn) (o : gset Z)
  : option (list (list Z) * gset Z) :=
  match turns with
  | [] => None
  | u :: turns' =>
      if serve_leaves u then Some ([], o)
      else
        '(w, o) ← serve_round handler (sv_ready u) (sv_client u) (sv_script u) (sv_stream u) o;
        '(ws, o) ← serve_loop handler turns' o;
        Some (w :: ws, o)
  end.

(** * The header is a bijection *)

Lemma lor_disjoint a b k : 0 <= k -> 0 <= b < 2 ^ k -> Z.lor (a * 2 ^ k) b = a * 2 ^ k + b.
Proof.
  intros Hk Hb. rewrite <- Z.shiftl_mul_pow2 by done.
  assert (Z.land (Z.shiftl a k) b = 0) as H.
  { destruct (decide (b = 0)) as [->|]; [apply Z.land_0_r|].
    apply Z.bits_inj'. intros i Hi. rewrite Z.land_spec, Z.bits_0.
    destruct (Z.lt_ge_cases i k); [by rewrite Z.shiftl_spec_low|].
    rewrite (Z.bits_above_log2 b i), andb_false_r; [done|lia|].
    apply Z.log2_lt_pow2; [lia|]. eapply Z.lt_le_trans; [apply Hb|]. by apply Z.pow_le_mono_r. }
  rewrite <- Z.lxor_lor, <- Z.add_nocarry_lxor by done. done.
Qed.

Lemma byte_of v k : 0 <= k -> u8 (Z.land (Z.shiftr v k) 255) = (v / 2 ^ k) mod 256.
Proof.
  intros Hk. unfold u8. change 255 with (Z.ones 8).
  rewrite Z.land_ones, Z.shiftr_div_pow2 by lia. apply Z.mod_mod. lia.
Qed.

Lemma header_roundtrip v : 0 <= v < 2 ^ 32 -> decode_u32 (encode_u32 v) = v.
Proof.
  intros Hv. unfold encode_u32. rewrite <- (Z.shiftr_0_r v) at 4. rewrite !byte_of by lia.
  rewrite Z.div_1_r. unfold decode_u32. cbn [lookup_total list_lookup_total].
  set (b3 := v / 2 ^ 24 mod 256). set (b2 := v / 2 ^ 16 mod 256).
  set (b1 := v / 2 ^ 8 mod 256). set (b0 := v mod 256).
  assert (0 <= b3 < 256 /\ 0 <= b2 < 256 /\ 0 <= b1 < 256 /\ 0 <= b0 < 256) as (? & ? & ? & ?)
    by (split_and!; apply Z.mod_pos_bound; lia).
  assert (v = b3 * 2 ^ 24 + b2 * 2 ^ 16 + b1 * 2 ^ 8 + b0) as E.
  { subst b3 b2 b1 b0. rewrite (Z.mod_small (v / 2 ^ 24)) by (split; [apply Z.div_pos; lia|
      apply Z.div_lt_upper_bound; lia]). clear. Z.to_euclidean_division_equations. lia. }
  clearbody b3 b2 b1 b0. unfold u32. rewrite !Z.shiftl_mul_pow2 by lia.
  rewrite !(Z.mod_small _ (2 ^ 32)) by (rewrite ?Z.mod_small; lia).
  rewrite (lor_disjoint b3 (b2 * 2 ^ 16) 24) by lia.
  replace (b3 * 2 ^ 24 + b2 * 2 ^ 16) with ((b3 * 2 ^ 8 + b2) * 2 ^ 16) by lia.
  rewrite lor_disjoint by lia.
  replace ((b3 * 2 ^ 8 + b2) * 2 ^ 16 + b1 * 2 ^ 8) with ((b3 * 2 ^ 16 + b2 * 2 ^ 8 + b1) * 2 ^ 8) by lia.
  rewrite lor_disjoint; lia.
Qed.

(** * The two loops *)

Definition frame (data : list Z) : list Z := encode_u32 (u32 (Z.of_nat (length data))) ++ data.

(** An answer that is not a timeout, an error or the end of the stream. *)
Definition benign (a : io) : Prop :=
  0 < poll_ret a /\ (0 < call_ret a \/ (call_ret a < 0 /\ errno a = EAGAIN)).

#[export] Instance benign_dec a : Decision (benign a).
Proof. unfold benign. apply _. Defined.

(** How many of the answers move a byte. *)
Definition moves (script : list io) : nat := length (filter (fun a => 0 < call_ret a) script).

Lemma send_all_prefix script buf ok w rest :
  send_all script buf = Some (ok, w, rest) -> w `prefix_of` buf /\ (ok = true -> w = buf).
Proof.
  revert buf ok w rest. induction script as [|a script IH]; intros buf ok w rest;
    destruct buf as [|b buf]; cbn -[send_step]; try (by intros; simplify_eq; auto using prefix_nil).
  destruct (send_step a _) as [n| |] eqn:E; [|by apply IH|].
  - destruct (send_all script (drop n (b :: buf))) as [[[ok' w'] rest']|] eqn:Hr; [|done].
    intros [= <- <- <-]. apply IH in Hr as [[k Hk] Heq].
    rewrite <- (take_drop n (b :: buf)) at 2 4. split.
    + rewrite Hk. exists k. by rewrite (assoc_L (++)).
    + intros Hok. by rewrite Heq.
  - intros [= <- <- <-]. split; [apply prefix_nil|done].
Qed.

Lemma send_all_live script buf :
  Forall benign script -> (length buf <= moves script)%nat ->
  exists rest, send_all script buf = Some (true, buf, rest) /\ Forall benign rest /\
    (moves script <= moves rest + length buf)%nat.
Proof.
  revert buf. induction script as [|a script IH]; intros buf Hb Hm.
  { destruct buf; [|unfold moves in Hm; simpl in Hm; lia]. exists []. split_and!; [done..|lia]. }
  destruct buf as [|b buf]; [by exists (a :: script); split_and!; [| |lia]|].
  apply Forall_cons in Hb as [[Hp Hc] Hb]. cbn -[send_step drop take length].
  unfold send_step. rewrite (proj2 (Z.leb_gt _ _)) by done. unfold moves in Hm, IH |- *.
  rewrite filter_cons in Hm. rewrite filter_cons. case_decide as Hcr.
  - rewrite (proj2 (Z.leb_gt _ _)) by done.
    set (n := Nat.min _ _). assert (1 <= n)%nat by (subst n; simpl; lia).
    destruct (IH (drop n (b :: buf)) Hb) as (rest & -> & Hrest & Hmr).
    { rewrite length_drop. simpl in *. lia. }
    exists rest. split_and!; [|done|].
    + cbn [mbind option_bind]. by rewrite take_drop.
    + rewrite length_drop in Hmr. cbn [length] in *. lia.
  - destruct Hc as [|[Hneg ->]]; [done|]. rewrite (proj2 (Z.leb_le _ _)), Z.eqb_refl by lia.
    by apply IH.
Qed.

Lemma recv_all_exact script n stream ok got stream' rest :
  recv_all script n stream = Some (ok, got, stream', rest) ->
  stream = got ++ stream' /\ (length got <= n)%nat /\ (ok = true -> length got = n).
Proof.
  revert n stream ok got stream' rest.
  induction script as [|a script IH]; intros n stream ok got stream' rest;
    destruct n as [|n]; cbn -[recv_step]; try (by intros; simplify_eq; simpl; auto with lia).
  destruct (recv_step a _ _) as [m| |] eqn:E; [|by apply IH|].
  - destruct (recv_all script _ _) as [[[[ok' got'] str'] rest']|] eqn:Hr; [|done].
    intros [= <- <- <- <-]. apply IH in Hr as (Hs & Hle & Heq).
    assert (m <= S n /\ m <= length stream)%nat as [? ?].
    { revert E. unfold recv_step. repeat case_match; intros; simplify_eq; simpl in *; lia. }
    rewrite <- (take_drop m stream) at 1. rewrite Hs, (assoc_L (++)).
    rewrite length_app, length_take. split_and!; [done|lia|]. intros Hok. apply Heq in Hok. lia.
  - intros [= <- <- <- <-]. split_and!; [done|simpl; lia|done].
Qed.

Lemma recv_all_live script n stream :
  Forall benign script -> (n <= moves script)%nat -> (n <= length stream)%nat ->
  exists rest, recv_all script n stream = Some (true, take n stream, drop n stream, rest) /\
    Forall benign rest /\ (moves script <= moves rest + n)%nat.
Proof.
  revert n stream. induction script as [|a script IH]; intros n stream Hb Hm Hlen.
  { destruct n; [|unfold moves in Hm; simpl in Hm; lia]. exists []. split_and!; [done..|lia]. }
  destruct n as [|n]; [exists (a :: script); split_and!; [by rewrite take_0, drop_0|done|lia]|].
  apply Forall_cons in Hb as [[Hp Hc] Hb]. cbn -[recv_step drop take length].
  unfold recv_step. rewrite (proj2 (Z.leb_gt _ _)) by done. unfold moves in Hm, IH |- *.
  rewrite filter_cons in Hm. rewrite filter_cons. case_decide as Hcr.
  - rewrite (proj2 (Z.leb_gt _ _)) by done.
    destruct stream as [|b stream]; [simpl in Hlen; lia|]. set (m := Nat.min _ _).
    assert (1 <= m <= S n)%nat as [? ?] by (subst m; cbn [length] in *; lia).
    destruct (IH (S n - m)%nat (drop m (b :: stream)) Hb) as (rest & -> & Hrest & Hmr).
    { cbn [length] in *. lia. }
    { rewrite length_drop. lia. }
    exists rest. split_and!; [|done|cbn [length] in *; lia].
    cbn [mbind option_bind]. rewrite drop_drop. replace (m + (S n - m))%nat with (S n) by lia.
    rewrite take_take_drop. by replace (m + (S n - m))%nat with (S n) by lia.
  - destruct Hc as [|[Hneg ->]]; [done|]. rewrite (proj2 (Z.leb_le _ _)), (proj2 (Z.ltb_lt _ _)), Z.eqb_refl by lia.
    by apply IH.
Qed.

(** * Theorems *)

Implicit Types (data rest : list Z) (ss rs : list io).

Lemma length_frame data : length (frame data) = (4 + length data)%nat.
Proof. done. Qed.

Lemma frame_header data : Z.of_nat (length data) <= MAX_MESSAGE_SIZE ->
  decode_u32 (encode_u32 (u32 (Z.of_nat (length data)))) = Z.of_nat (length data).
Proof.
  unfold MAX_MESSAGE_SIZE. intros H. unfold u32. rewrite Z.mod_small by lia.
  apply header_roundtrip. lia.
Qed.

Lemma send_on_fd_wire ss data r w ss' :
  send_on_fd ss data = Some (r, w, ss') ->
  w `prefix_of` frame data /\ (r = Ok tt -> w = frame data) /\
  (MAX_MESSAGE_SIZE < Z.of_nat (length data) -> w = [] /\ r <> Ok tt).
Proof.
  unfold send_on_fd, frame. rewrite Z.gtb_ltb. case_match eqn:Hmax.
  { intros [= <- <- <-]. split_and!; [apply prefix_nil|done|done]. }
  apply Z.ltb_ge in Hmax. generalize (encode_u32 (u32 (Z.of_nat (length data)))). intros h.
  destruct (send_all ss _) as [[[ok w1] s1]|] eqn:H1; [|done].
  apply send_all_prefix in H1 as [Hp Heq]. cbn [mbind option_bind].
  destruct ok; [|intros [= <- <- <-]; split_and!; [by apply prefix_app_r|done|lia]].
  rewrite (Heq eq_refl). destruct data as [|b data].
  { intros [= <- <- <-]. split_and!; [by rewrite app_nil_r|by rewrite app_nil_r|lia]. }
  destruct (send_all s1 _) as [[[ok w2] s2]|] eqn:H2; [|done].
  apply send_all_prefix in H2 as [Hp2 Heq2]. intros [= <- <- <-].
  split_and!; [by apply prefix_app| |lia]. destruct ok; [|done]. intros _. by rewrite Heq2.
Qed.

Lemma recv_on_fd_exact rs data rest got left rs' :
  Z.of_nat (length data) <= MAX_MESSAGE_SIZE ->
  recv_on_fd rs (frame data ++ rest) = Some (Ok got, left, rs') -> got = data /\ left = rest.
Proof.
  intros Hmax. unfold recv_on_fd, frame. rewrite <- (assoc_L (++)).
  destruct (recv_all rs _ _) as [[[[ok hd] s1] r1]|] eqn:H1; [|done].
  apply recv_all_exact in H1 as (Hs & _ & Hlen). cbn [mbind option_bind].
  destruct ok; [|done]. apply app_inj_1 in Hs as [<- <-]; [|by rewrite Hlen].
  rewrite frame_header by done. rewrite !Z.gtb_ltb, (proj2 (Z.ltb_ge _ _)) by done.
  case_match eqn:Hpos.
  - apply Z.ltb_lt in Hpos. rewrite Nat2Z.id.
    destruct (recv_all r1 _ _) as [[[[ok body] s2] r2]|] eqn:H2; [|done].
    apply recv_all_exact in H2 as (Hs & _ & Hlen2). cbn [mbind option_bind].
    destruct ok; [|done]. intros [= <- <- <-]. by apply app_inj_1 in Hs as [<- <-]; [|rewrite Hlen2].
  - apply Z.ltb_ge in Hpos. destruct data; [|simpl in Hpos; lia]. by intros [= <- <- <-].
Qed.

Lemma send_on_fd_live ss data :
  Z.of_nat (length data) <= MAX_MESSAGE_SIZE -> Forall benign ss ->
  (length (frame data) <= moves ss)%nat ->
  exists ss', send_on_fd ss data = Some (Ok tt, frame data, ss').
Proof.
  intros Hmax Hb Hm. unfold send_on_fd. rewrite Z.gtb_ltb, (proj2 (Z.ltb_ge _ _)) by done.
  rewrite length_frame in Hm.
  destruct (send_all_live ss (encode_u32 (u32 (Z.of_nat (length data))))) as (s1 & -> & Hb1 & Hm1);
    [done|simpl; lia|]. cbn [mbind option_bind]. change (length (encode_u32 _)) with 4%nat in Hm1.
  unfold frame. destruct data as [|b data]; [exists s1; by rewrite app_nil_r|].
  destruct (send_all_live s1 (b :: data)) as (s2 & -> & _ & _); [done|lia|].
  by exists s2.
Qed.

(** The answers left over still move at least what the frame did not use. *)
Lemma recv_on_fd_live rs data rest :
  Z.of_nat (length data) <= MAX_MESSAGE_SIZE -> Forall benign rs ->
  (length (frame data) <= moves rs)%nat ->
  exists rs', recv_on_fd rs (frame data ++ rest) = Some (Ok data, rest, rs') /\
    Forall benign rs' /\ (moves rs <= moves rs' + length (frame data))%nat.
Proof.
  intros Hmax Hb Hm. unfold recv_on_fd. rewrite length_frame in *. unfold frame. rewrite <- (assoc_L (++)).
  destruct (recv_all_live rs 4 (encode_u32 (u32 (Z.of_nat (length data))) ++ data ++ rest))
    as (r1 & -> & Hb1 & Hm1); [done|lia|rewrite length_app; simpl; lia|].
  cbn [mbind option_bind]. rewrite take_app_length' by done. rewrite drop_app_length' by done.
  rewrite frame_header by done. rewrite !Z.gtb_ltb, (proj2 (Z.ltb_ge _ _)) by done.
  case_match eqn:Hpos.
  - rewrite Nat2Z.id.
    destruct (recv_all_live r1 (length data) (data ++ rest)) as (r2 & -> & Hb2 & Hm2);
      [done|lia|rewrite length_app; lia|].
    cbn [mbind option_bind]. exists r2. rewrite take_app_length, drop_app_length. split_and!; [done|done|lia].
  - apply Z.ltb_ge in Hpos. destruct data; [|simpl in Hpos; lia]. exists r1. split_and!; [done|done|lia].
Qed.

(** A round of the server on a connection that does not break answers with one frame. *)
Lemma serve_round_live handler fd script req o :
  Z.of_nat (length req) <= MAX_MESSAGE_SIZE -> Z.of_nat (length (handler req)) <= MAX_MESSAGE_SIZE ->
  0 <= fd -> Forall benign script ->
  (length (frame req) + length (frame (handler req)) <= moves script)%nat ->
  serve_round handler 1 fd script (frame req) o = Some (frame (handler req), ({[fd]} ∪ o) ∖ {[fd]}).
Proof.
  intros H1 H2 Hfd Hb Hm. unfold serve_round, sys_open. simpl (1 <=? 0).
  rewrite (proj2 (Z.ltb_ge fd 0)) by done. rewrite <- (app_nil_r (frame req)).
  destruct (recv_on_fd_live script req []) as (s1 & -> & Hb1 & Hm1); [done|done|lia|].
  cbn [mbind option_bind]. destruct (send_on_fd_live s1 (handler req)) as [s2 ->]; [done|done|lia|]. done.
Qed.

(** C28: framing survives every fragmentation of the byte stream.  However the kernel
    splits the transfers, a send that reports success has put exactly one frame on the
    wire and a receive that reports success returns exactly the message sent and leaves
    the bytes after it for the next frame; when no call fails and enough of them move
    data, both do succeed. *)
Theorem frames_survive_any_chunking data rest ss rs :
  Z.of_nat (length data) <= MAX_MESSAGE_SIZE ->
  (forall w ss', send_on_fd ss data = Some (Ok tt, w, ss') -> w = frame data) /\
  (forall got left rs', recv_on_fd rs (frame data ++ rest) = Some (Ok got, left, rs') ->
     got = data /\ left = rest) /\
  (Forall benign ss -> Forall benign rs ->
   (length (frame data) <= moves ss)%nat -> (length (frame data) <= moves rs)%nat ->
   (exists ss', send_on_fd ss data = Some (Ok tt, frame data, ss')) /\
   (exists rs', recv_on_fd rs (frame data ++ rest) = Some (Ok data, rest, rs'))).
Proof.
  intros Hmax. split_and!.
  - intros w ss' H. by apply send_on_fd_wire in H as (_ & H & _); apply H.
  - intros got left rs'. by apply recv_on_fd_exact.
  - intros Hs Hr Hms Hmr. split; [by apply send_on_fd_live|].
    destruct (recv_on_fd_live rs data rest) as (rs' & ? & _); [done..|by exists rs'].
Qed.

Lemma frames_survive_any_chunking_witness :
  Z.of_nat (length [10; 20; 30]) <= MAX_MESSAGE_SIZE /\
  recv_on_fd (mkIo 1 3 0 :: mkIo 1 (-1) EAGAIN :: replicate 4 (mkIo 1 2 0))
    (frame [10; 20; 30] ++ frame [1]) = Some (Ok [10; 20; 30], frame [1], [mkIo 1 2 0]) /\
  exists ss', send_on_fd (replicate 7 (mkIo 1 1 0)) [10; 20; 30]
              = Some (Ok tt, frame [10; 20; 30], ss').
Proof.
  assert (Z.of_nat (length [10; 20; 30]) <= MAX_MESSAGE_SIZE) as H by (vm_compute; congruence).
  split; [exact H|]. split; [vm_compute; reflexivity|].
  destruct (frames_survive_any_chunking [10; 20; 30] (frame [1])
              (replicate 7 (mkIo 1 1 0)) (replicate 7 (mkIo 1 1 0)) H) as (_ & _ & Hlive).
  destruct Hlive as [Hs _]; [decide_now..|exact Hs].
Defined.

(** * Descriptors *)

Definition held (fd : Z) : gset Z := if fd <? 0 then ∅ else {[fd]}.

(** The open descriptors are exactly the ones the object still names. *)
Definition owns (t : TcpTransport) : Prop :=
  open t = held (client_fd_ t) ∪ held (server_fd_ t) /\
  (0 <= client_fd_ t -> client_fd_ t <> server_fd_ t).

(** The calls a user makes, with [::socket] answering a descriptor that is not open. *)
Inductive tcp_step (strerror : Z -> string) : TcpTransport -> TcpTransport -> Prop :=
  | step_connect e address t :
      ce_socket e ∉ open t -> tcp_step strerror t (connect strerror e address t).2
  | step_listen e t : le_socket e ∉ open t -> tcp_step strerror t (listen strerror e t).2
  | step_disconnect t : tcp_step strerror t (disconnect t)
  | step_serve t : tcp_step strerror t (serve t).2
  | step_stop_serving t : tcp_step strerror t (stop_serving t).

Lemma owns_with_client t fd o : owns t -> fd ∉ open t -> client_fd_ t < 0 ->
  o = (if fd <? 0 then open t else {[fd]} ∪ open t) -> owns (with_client t fd o).
Proof.
  unfold owns, held. intros [Ho _] Hfresh Hneg ->. simpl.
  rewrite (proj2 (Z.ltb_lt _ _) Hneg) in Ho. rewrite Ho in Hfresh |- *.
  destruct (fd <? 0) eqn:E; [apply Z.ltb_lt in E; split; [set_solver|lia]|].
  split; [set_solver|]. intros Hfd ->. rewrite E in Hfresh. set_solver.
Qed.

Lemma owns_with_server t fd o : owns t -> fd ∉ open t -> server_fd_ t < 0 ->
  o = (if fd <? 0 then open t else {[fd]} ∪ open t) -> owns (with_server t fd o).
Proof.
  unfold owns, held. intros [Ho _] Hfresh Hneg ->. simpl.
  rewrite (proj2 (Z.ltb_lt _ _) Hneg) in Ho. rewrite Ho in Hfresh |- *.
  destruct (fd <? 0) eqn:E; [apply Z.ltb_lt in E; split; [set_solver|lia]|].
  split; [set_solver|]. intros Hfd <-. rewrite E in Hfresh. set_solver.
Qed.

Lemma owns_close_client t : owns t -> 0 <= client_fd_ t ->
  owns (with_client t (-1) (open t ∖ {[client_fd_ t]})).
Proof.
  unfold owns, held. intros [Ho Hne] Hc. simpl. specialize (Hne Hc).
  rewrite Ho, (proj2 (Z.ltb_ge (client_fd_ t) 0)) by done.
  split; [|lia]. destruct (server_fd_ t <? 0); set_solver.
Qed.

Lemma owns_close_server t : owns t -> 0 <= server_fd_ t ->
  owns (with_server t (-1) (open t ∖ {[server_fd_ t]})).
Proof.
  unfold owns, held. intros [Ho Hne] Hc. simpl.
  rewrite Ho, (proj2 (Z.ltb_ge (server_fd_ t) 0)) by done.
  split; [|lia]. destruct (client_fd_ t <? 0) eqn:E; [set_solver|].
  apply Z.ltb_ge in E. specialize (Hne E). set_solver.
Qed.

Lemma owns_connect strerror e address t : owns t -> ce_socket e ∉ open t ->
  let '(r, t') := connect strerror e address t in
  owns t' /\ (r = Ok tt -> is_connected t' = true) /\
  (is_connected t = false -> r <> Ok tt -> is_connected t' = false).
Proof.
  intros Ho Hf. unfold connect, is_connected. rewrite Z.geb_leb.
  destruct (0 <=? client_fd_ t) eqn:Hc; [done|]. apply Z.leb_gt in Hc.
  set (t1 := with_client _ _ _). assert (owns t1) as H1 by by apply owns_with_client.
  destruct (ce_socket e <? 0) eqn:Hs.
  { apply Z.ltb_lt in Hs. split_and!; [done..|]. intros _ _. simpl. rewrite Z.geb_leb. by apply Z.leb_gt. }
  apply Z.ltb_ge in Hs. pose proof (owns_close_client t1 H1 Hs) as H2.
  assert (0 <=? ce_socket e = true) as Hs' by by apply Z.leb_le.
  split_ifs; split_and!; try done; simpl; by rewrite Z.geb_leb.
Qed.

Lemma owns_listen strerror e t : owns t -> le_socket e ∉ open t -> owns (listen strerror e t).2.
Proof.
  intros Ho Hf. unfold listen. rewrite Z.geb_leb.
  destruct (0 <=? server_fd_ t) eqn:Hc; [done|]. apply Z.leb_gt in Hc.
  set (t1 := with_server _ _ _). assert (owns t1) as H1 by by apply owns_with_server.
  destruct (le_socket e <? 0) eqn:Hs; [done|]. apply Z.ltb_ge in Hs.
  pose proof (owns_close_server t1 H1 Hs). by split_ifs.
Qed.

Lemma owns_disconnect t : owns t -> owns (disconnect t) /\ client_fd_ (disconnect t) < 0 /\
  server_fd_ (disconnect t) = server_fd_ t.
Proof.
  intros Ho. unfold disconnect. rewrite Z.geb_leb. destruct (0 <=? client_fd_ t) eqn:Hc.
  - apply Z.leb_le in Hc. split_and!; [by apply owns_close_client|done..].
  - by apply Z.leb_gt in Hc.
Qed.

Lemma owns_stop_serving t : owns t -> owns (stop_serving t) /\ server_fd_ (stop_serving t) < 0.
Proof.
  intros Ho. unfold stop_serving. rewrite Z.geb_leb. destruct (0 <=? server_fd_ t) eqn:Hc.
  - apply Z.leb_le in Hc. split; [|done]. by apply owns_close_server in Hc.
  - by apply Z.leb_gt in Hc.
Qed.

Lemma owns_destroy t : owns t -> open (destroy t) = ∅.
Proof.
  intros (H1 & Hs)%owns_stop_serving. apply owns_disconnect in H1 as ((Ho & _) & Hc & Heq).
  unfold destroy. rewrite Heq, Z.geb_leb, (proj2 (Z.leb_gt _ _)) by done.
  rewrite Ho, Heq. unfold held. by rewrite !(proj2 (Z.ltb_lt _ 0)) by done.
Qed.

Lemma owns_step strerror t t' : owns t -> tcp_step strerror t t' -> owns t'.
Proof.
  intros Ho Hs. revert Ho.
  destruct Hs as [e address t Hf|e t Hf|t|t|t]; intros Ho;
    [|by apply owns_listen|by apply owns_disconnect|unfold serve; by destruct (_ <? 0)|by apply owns_stop_serving].
  pose proof (owns_connect strerror e address t Ho Hf) as Hc. destruct (connect _ _ _ _) as [r t1].
  apply Hc.
Qed.

Lemma serve_round_closes handler ready fd script stream o w o' :
  fd ∉ o -> serve_round handler ready fd script stream o = Some (w, o') -> o' = o.
Proof.
  intros Hf. unfold serve_round, sys_open.
  case_match; [by intros [= _ <-]|]. destruct (fd <? 0); [by intros [= _ <-]|].
  destruct (recv_on_fd _ _) as [[[[req|e] ?] ?]|]; cbn [mbind option_bind]; [| |done].
  - destruct (send_on_fd _ _) as [[[? ?] ?]|]; [|done]. intros [= _ <-]. set_solver.
  - intros [= _ <-]. set_solver.
Qed.

(** Connections are served one after another: on connections that do not break, each brings
    a framed request of admissible size and gets its own framed answer, in order, and the
    thread returns at the first turn that sees the stop, with no descriptor left over. *)
Lemma serve_loop_answers handler calls last turns o :
  Forall (fun '(fd, script, req) => 0 <= fd /\ fd ∉ o /\ Forall benign script /\
    (length (frame req) + length (frame (handler req)) <= moves script)%nat /\
    Z.of_nat (length req) <= MAX_MESSAGE_SIZE /\ Z.of_nat (length (handler req)) <= MAX_MESSAGE_SIZE) calls ->
  serve_leaves last = true ->
  serve_loop handler (((fun '(fd, script, req) => mkServeTurn false true 1 fd script (frame req)) <$> calls)
                        ++ last :: turns) o
  = Some ((fun '(_, _, req) => frame (handler req)) <$> calls, o).
Proof.
  intros Hc Hl. induction Hc as [|[[fd script] req] calls (Hfd & Hf & Hb & Hm & H1 & H2) _ IH]; cbn [fmap list_fmap app serve_loop].
  - by rewrite Hl.
  - cbn [serve_leaves sv_stop sv_serving sv_ready sv_client sv_script sv_stream orb negb].
    rewrite serve_round_live by done. cbn [mbind option_bind].
    replace (({[fd]} ∪ o) ∖ {[fd]}) with o by set_solver. by rewrite IH.
Qed.

(** No descriptor leaks.  After any sequence of [connect], [listen], [disconnect], [serve] and
    [stop_serving] calls, successful or failing at any point, the descriptors open are
    exactly the two the object names; a failed [connect] leaves it disconnected, so that
    it can be retried; the server thread closes each connection it accepted; the
    destructor leaves nothing open. *)
Theorem descriptors_never_leak strerror t :
  rtc (tcp_step strerror) new_transport t ->
  open t = held (client_fd_ t) ∪ held (server_fd_ t) /\
  open (destroy t) = ∅ /\
  (forall e address, ce_socket e ∉ open t -> is_connected t = false ->
     let '(r, t') := connect strerror e address t in is_connected t' = has_value r) /\
  (forall handler ready fd script stream w o', fd ∉ open t ->
     serve_round handler ready fd script stream (open t) = Some (w, o') -> o' = open t).
Proof.
  intros Hrun. assert (owns t) as Ho.
  { eapply (rtc_preserve owns); [apply owns_step|done|]. split; [set_solver|simpl; lia]. }
  split_and!; [apply Ho|by apply owns_destroy| |by intros *; apply serve_round_closes].
  intros e address Hf Hd. pose proof (owns_connect strerror e address t Ho Hf) as Hc.
  destruct (connect _ _ _ _) as [[[]|err] t']; destruct Hc as (_ & H1 & H2); simpl; auto.
Qed.

Lemma descriptors_never_leak_witness :
  let t := (connect (fun _ => "refused") (mkConnect 5 0 1 (-1) EINPROGRESS 1 0) "10.0.0.2" new_transport).2 in
  client_fd_ t = 5 /\ open t = {[5]} /\ open (destroy t) = ∅.
Proof.
  set (t := (connect _ _ _ _).2).
  destruct (descriptors_never_leak (fun _ => "refused") t) as (H1 & H2 & _).
  - apply rtc_once. apply step_connect. apply not_elem_of_empty.
  - split; [reflexivity|]. split; [vm_compute; reflexivity|exact H2].
Defined.
