(* ===== verification/Reactor.v ===== *)
(** [network/reactor.cpp]: one thread, one epoll instance, one parked coroutine per
    descriptor.

    A coroutine handle is a number.  [register_waiter] and the two critical sections of the
    loop are atomic under [mutex_]; the reactor thread's program counter [phase] records
    what it will resume next, so that registrations from other threads may interleave with
    the resumptions.  The kernel's interest list is part of the state: adding a descriptor
    that is in it fails. *)

From Stdlib Require Import ZArith Lia.
From stdpp Require Import base gmap relations numbers list.
From S2P Require Import Prelude Core.

Local Open Scope Z_scope.

(** [deadline] counts nanoseconds of the steady clock. *)
Record Waiter := mkWaiter { handle : nat; deadline : Z }.

(** Where the reactor thread is; the list holds the handles it has taken out of [waiters_]
    and not resumed yet, with their [ready_] flags. *)
Inductive phase :=
  | Idle                                       (** before [start] *)
  | LoopTest                                   (** at the [while] test *)
  | Polling                                    (** in [epoll_wait] *)
  | Resuming (to_resume : list (nat * bool))
  | Draining                                   (** at the head of the drain loop *)
  | DrainResuming (to_resume : list (nat * bool))
  | Exited.

#[export] Instance phase_eq_dec : EqDecision phase.
Proof. solve_decision. Defined.

Record EpollReactor := mkReactor {
  waiters_ : gmap Z Waiter;
  interest : gset Z;
  running_ : bool;
  stop_requested : bool;
  thread_at : phase;
  resumed : list (nat * bool)                  (** the resumptions so far *)
}.

Definition new_reactor : EpollReactor := mkReactor ∅ ∅ false false Idle [].

Definition with_phase (r : EpollReactor) (p : phase) : EpollReactor :=
  mkReactor (waiters_ r) (interest r) (running_ r) (stop_requested r) p (resumed r).

(** [epoll_ok] is whether [epoll_create1] succeeded; a new [std::jthread] has not been
    asked to stop. *)
Definition start (epoll_ok : bool) (r : EpollReactor) : EpollReactor :=
  if running_ r || negb epoll_ok then r
  else mkReactor (waiters_ r) (interest r) true false LoopTest (resumed r).

(** [thread_.request_stop()]; the [wake] that follows and the [join] only take time. *)
Definition request_stop (r : EpollReactor) : EpollReactor :=
  if running_ r then mkReactor (waiters_ r) (interest r) true true (thread_at r) (resumed r) else r.

(** The answer is whether the coroutine is parked.  [now] is the clock, [add_ok] whether
    the kernel had the memory to add the descriptor. *)
Definition register_waiter (h : nat) (fd timeout_ms now : Z) (add_ok : bool) (r : EpollReactor)
  : bool * EpollReactor :=
  if negb (running_ r) || stop_requested r then (false, r)
  else
    let waiters := <[fd := mkWaiter h (now + timeout_ms * 1000000)]> (waiters_ r) in
    if add_ok && bool_decide (fd ∉ interest r) then
      (true, mkReactor waiters ({[fd]} ∪ interest r) (running_ r) (stop_requested r) (thread_at r) (resumed r))
    else
      (false, mkReactor (delete fd waiters) (interest r) (running_ r) (stop_requested r) (thread_at r) (resumed r)).

Section order.
Context (order : gmap Z Waiter -> list (Z * Waiter)).

(** Milliseconds until the nearest deadline, at most 500. *)
Definition poll_timeout (now : Z) (r : EpollReactor) : Z :=
  foldl (fun t w => Z.min t (Z.max 0 (Z.quot (deadline w.2 - now) 1000000))) 500 (order (waiters_ r)).

(** One event: the waiter of the descriptor, if there is one, is ready. *)
Definition take_ready (acc : gmap Z Waiter * gset Z * list (nat * bool)) (fd : Z)
  : gmap Z Waiter * gset Z * list (nat * bool) :=
  let '(ws, i, l) := acc in
  match ws !! fd with
  | None => acc
  | Some w => (delete fd ws, i ∖ {[fd]}, l ++ [(handle w, true)])
  end.

(** One entry of the deadline scan. *)
Definition take_expired (now : Z) (acc : gmap Z Waiter * gset Z * list (nat * bool)) (e : Z * Waiter)
  : gmap Z Waiter * gset Z * list (nat * bool) :=
  let '(ws, i, l) := acc in
  if deadline e.2 <=? now then (delete e.1 ws, i ∖ {[e.1]}, l ++ [(handle e.2, false)]) else acc.

(** The critical section after [epoll_wait] returned [events]; [now] is read after the
    ready waiters were taken.  [wake_fd_] has no waiter, so its event changes nothing. *)
Definition collect (events : list Z) (now : Z) (r : EpollReactor) : EpollReactor :=
  let '(ws, i, l) := foldl take_ready (waiters_ r, interest r, []) events in
  let '(ws, i, l) := foldl (take_expired now) (ws, i, l) (order ws) in
  mkReactor ws i (running_ r) (stop_requested r) (Resuming l) (resumed r).

(** The critical section of the drain loop. *)
Definition drain (r : EpollReactor) : EpollReactor :=
  let l := (fun e => (handle e.2, false)) <$> order (waiters_ r) in
  mkReactor ∅ (interest r ∖ dom (waiters_ r)) (running_ r) (stop_requested r)
    (match l with [] => Exited | _ => DrainResuming l end) (resumed r).

(** One step of the reactor thread; [events] and [now] are what it observes. *)
Definition thread_next (events : list Z) (now : Z) (r : EpollReactor) : option EpollReactor :=
  match thread_at r with
  | Idle | Exited => None
  | LoopTest => Some (with_phase r (if stop_requested r then Draining else Polling))
  | Polling => Some (collect events now r)
  | Resuming [] => Some (with_phase r LoopTest)
  | Resuming (h :: l) =>
      Some (mkReactor (waiters_ r) (interest r) (running_ r) (stop_requested r) (Resuming l) (resumed r ++ [h]))
  | Draining => Some (drain r)
  | DrainResuming [] => Some (with_phase r Draining)
  | DrainResuming (h :: l) =>
      Some (mkReactor (waiters_ r) (interest r) (running_ r) (stop_requested r) (DrainResuming l) (resumed r ++ [h]))
  end.

(** [stop] once the thread has been joined. *)
Definition joined (r : EpollReactor) : option EpollReactor :=
  match thread_at r with
  | Exited => Some (mkReactor (waiters_ r) (interest r) false (stop_requested r) Exited (resumed r))
  | _ => None
  end.
End order.

(** * Every waiter resumes exactly once *)

Definition parked (ws : gmap Z Waiter) : list nat := handle <$> (map_to_list ws).*2.

Definition pending (p : phase) : list (nat * bool) :=
  match p with Resuming l | DrainResuming l => l | _ => [] end.

(** The reactor with the handles it accepted.  A handle stands for one [co_await], so it is
    new each time; two coroutines never wait on the same descriptor at once. *)
Inductive reactor_step (order : gmap Z Waiter -> list (Z * Waiter))
  : EpollReactor * list nat -> EpollReactor * list nat -> Prop :=
  | rs_register h fd timeout now add_ok r acc :
      h ∉ acc -> waiters_ r !! fd = None ->
      reactor_step order (r, acc)
        (let '(b, r') := register_waiter h fd timeout now add_ok r in (r', if b : bool then h :: acc else acc))
  | rs_thread events now r r' acc :
      thread_next order events now r = Some r' -> reactor_step order (r, acc) (r', acc)
  | rs_start epoll_ok r acc : reactor_step order (r, acc) (start epoll_ok r, acc)
  | rs_stop r acc : reactor_step order (r, acc) (request_stop r, acc)
  | rs_join r r' acc : joined r = Some r' -> reactor_step order (r, acc) (r', acc).

Definition quiet (p : phase) : Prop := p = Idle \/ p = Exited.

Definition stopping (p : phase) : bool :=
  match p with Draining | DrainResuming _ | Exited => true | _ => false end.

Record reactor_inv (r : EpollReactor) (acc : list nat) : Prop := {
  ri_interest : interest r = dom (waiters_ r);
  ri_nodup : NoDup acc;
  ri_once : acc ≡ₚ parked (waiters_ r) ++ (pending (thread_at r)).*1 ++ (resumed r).*1;
  ri_quiet : quiet (thread_at r) -> waiters_ r = ∅;
  ri_running : running_ r = false -> quiet (thread_at r);
  ri_idle : thread_at r = Idle -> running_ r = false;
  ri_stopping : running_ r = true -> stopping (thread_at r) = true -> stop_requested r = true
}.

Lemma parked_insert ws fd w : ws !! fd = None -> parked (<[fd := w]> ws) ≡ₚ handle w :: parked ws.
Proof. intros H. unfold parked. by rewrite map_to_list_insert. Qed.

Lemma parked_delete ws fd w : ws !! fd = Some w -> parked ws ≡ₚ handle w :: parked (delete fd ws).
Proof.
  intros H. rewrite <- (insert_delete_id ws fd w H) at 1. apply parked_insert. apply lookup_delete_eq.
Qed.

Lemma register_inv h fd timeout now add_ok r acc :
  h ∉ acc -> waiters_ r !! fd = None -> reactor_inv r acc ->
  let '(b, r') := register_waiter h fd timeout now add_ok r in
  reactor_inv r' (if b then h :: acc else acc) /\ (b = running_ r && negb (stop_requested r) && add_ok).
Proof.
  intros Hh Hfd Hi. pose proof Hi as []. unfold register_waiter.
  destruct (running_ r) eqn:Er; cbn [negb orb andb]; [|done].
  destruct (stop_requested r) eqn:Es; cbn [negb]; [done|].
  rewrite bool_decide_eq_true_2 by (rewrite ri_interest0; by apply not_elem_of_dom).
  destruct add_ok; cbn [andb]; (split; [|done]).
  - split; cbn [waiters_ interest thread_at resumed running_ stop_requested].
    + by rewrite ri_interest0, dom_insert_L.
    + by constructor.
    + rewrite parked_insert by done. cbn [handle]. by rewrite ri_once0 at 1.
    + intros [Hq|Hq]; [specialize (ri_idle0 Hq)|rewrite Hq in ri_stopping0; specialize (ri_stopping0 eq_refl eq_refl)]; congruence.
    + congruence.
    + intros Hq. specialize (ri_idle0 Hq). congruence.
    + intros _ Hq. specialize (ri_stopping0 eq_refl Hq). congruence.
  - rewrite delete_insert_id by done. destruct r; cbn in *; subst. by split.
Qed.

(** What a registration changes. *)
Lemma register_effect h fd timeout now add_ok r b r' : waiters_ r !! fd = None ->
  register_waiter h fd timeout now add_ok r = (b, r') ->
  thread_at r' = thread_at r /\ running_ r' = running_ r /\ stop_requested r' = stop_requested r /\
  waiters_ r' = (if b then <[fd := mkWaiter h (now + timeout * 1000000)]> (waiters_ r) else waiters_ r).
Proof.
  intros Hfd. unfold register_waiter. case_match; [by intros [= <- <-]|].
  case_match; intros [= <- <-]; cbn; [done|]. by rewrite delete_insert_id.
Qed.

Section invariant.
Context (order : gmap Z Waiter -> list (Z * Waiter)).
Hypothesis order_perm : forall m, order m ≡ₚ map_to_list m.

(** What the two loops of the critical section keep: the handles, wherever they are. *)
Definition taken_ok (ws0 : gmap Z Waiter) (acc : gmap Z Waiter * gset Z * list (nat * bool)) : Prop :=
  let '(ws, i, l) := acc in i = dom ws /\ parked ws0 ≡ₚ parked ws ++ l.*1.

Lemma take_one ws0 ws i l fd w b : taken_ok ws0 (ws, i, l) -> ws !! fd = Some w ->
  taken_ok ws0 (delete fd ws, i ∖ {[fd]}, l ++ [(handle w, b)]).
Proof.
  intros [-> Hp] Hw. split; [by rewrite dom_delete_L|].
  rewrite Hp, (parked_delete _ _ _ Hw), fmap_app. cbn. rewrite (assoc_L (++)). apply Permutation_cons_append.
Qed.

Lemma take_ready_ok ws0 acc fd : taken_ok ws0 acc -> taken_ok ws0 (take_ready acc fd).
Proof.
  destruct acc as [[ws i] l]. intros H. unfold take_ready. destruct (ws !! fd) as [w|] eqn:E; [|done].
  by apply take_one.
Qed.

(** The deadline scan visits every entry once, and what it has not visited is still there. *)
Lemma take_expired_all ws0 now es ws i l :
  NoDup es.*1 -> (forall e, e ∈ es -> ws !! e.1 = Some e.2) -> taken_ok ws0 (ws, i, l) ->
  taken_ok ws0 (foldl (take_expired now) (ws, i, l) es).
Proof.
  revert ws i l. induction es as [|[fd w] es IH]; intros ws i l Hnd Hin H; [done|].
  cbn [foldl]. apply NoDup_cons in Hnd as [Hfd Hnd]. unfold take_expired at 2. cbn [fst snd].
  case_match.
  - apply IH; [done| |by apply take_one; [|apply (Hin (fd, w)); left]].
    intros [fd' w'] He. cbn [fst snd]. rewrite lookup_delete_ne; [apply (Hin (fd', w')); by right|].
    intros ->. apply Hfd. apply list_elem_of_fmap. by exists (fd', w').
  - apply IH; [done| |done]. intros e He. apply Hin. by right.
Qed.

Lemma order_spec ws : NoDup (order ws).*1 /\ forall e, e ∈ order ws -> ws !! e.1 = Some e.2.
Proof.
  split; [rewrite order_perm; apply NoDup_fst_map_to_list|].
  intros [fd w] He. rewrite order_perm in He. by apply elem_of_map_to_list in He.
Qed.

Lemma collect_ok events now r : interest r = dom (waiters_ r) ->
  let r' := collect order events now r in
  interest r' = dom (waiters_ r') /\
  parked (waiters_ r) ≡ₚ parked (waiters_ r') ++ (pending (thread_at r')).*1 /\
  (exists l, thread_at r' = Resuming l) /\ resumed r' = resumed r /\ running_ r' = running_ r /\
  stop_requested r' = stop_requested r.
Proof.
  intros Hi. unfold collect.
  assert (taken_ok (waiters_ r) (foldl take_ready (waiters_ r, interest r, []) events)) as H.
  { apply (foldl_inv (fun _ => taken_ok (waiters_ r))); [by split; [|rewrite app_nil_r]|].
    intros _ acc fd. apply take_ready_ok. }
  destruct (foldl take_ready _ events) as [[ws i] l]. destruct (order_spec ws) as [Hnd Hin].
  pose proof (take_expired_all _ now (order ws) ws i l Hnd Hin H) as H'.
  destruct (foldl (take_expired now) _ (order ws)) as [[ws' i'] l']. destruct H' as [-> Hp].
  cbn. split_and!; eauto.
Qed.

(** A step of a running reactor thread. *)
Lemma phase_move r r' acc : reactor_inv r acc -> ~ quiet (thread_at r) ->
  running_ r' = running_ r -> stop_requested r' = stop_requested r -> interest r' = dom (waiters_ r') ->
  parked (waiters_ r') ++ (pending (thread_at r')).*1 ++ (resumed r').*1 ≡ₚ
    parked (waiters_ r) ++ (pending (thread_at r)).*1 ++ (resumed r).*1 ->
  thread_at r' <> Idle -> (thread_at r' = Exited -> waiters_ r' = ∅) ->
  (stopping (thread_at r') = true -> stop_requested r = true) -> reactor_inv r' acc.
Proof.
  intros [] Hq E1 E2 E3 E4 E5 E6 E7.
  assert (running_ r = true) as Hr by (destruct (running_ r); [done|]; destruct Hq; by apply ri_running0).
  split; rewrite ?E1, ?E2; try done.
  - by rewrite E4.
  - intros [?|?]; [done|by apply E6].
  - congruence.
Qed.

Lemma drain_ok r : interest r = dom (waiters_ r) ->
  let r' := drain order r in
  interest r' = dom (waiters_ r') /\ waiters_ r' = ∅ /\
  (thread_at r' = Exited \/ exists h l, thread_at r' = DrainResuming (h :: l)) /\
  parked (waiters_ r) ≡ₚ (pending (thread_at r')).*1.
Proof.
  intros Hi r'. assert (parked (waiters_ r) ≡ₚ ((fun e => (handle e.2, false)) <$> order (waiters_ r)).*1) as Hp.
  { unfold parked. rewrite <- (order_perm (waiters_ r)), <- !list_fmap_compose. done. }
  unfold r', drain. cbn [interest waiters_ thread_at]. split_and!; [set_solver|done|..]; revert Hp;
    destruct (_ <$> order (waiters_ r)); eauto.
Qed.

Lemma thread_next_inv events now r r' acc :
  reactor_inv r acc -> thread_next order events now r = Some r' -> reactor_inv r' acc.
Proof.
  intros Hi Hn. unfold thread_next in Hn.
  assert (~ quiet (thread_at r)) as Hq by (by intros [Hq|Hq]; rewrite Hq in Hn).
  assert (stopping (thread_at r) = true -> stop_requested r = true) as Hst.
  { apply (ri_stopping _ _ Hi). destruct (running_ r) eqn:Er; [done|]. destruct Hq. by apply (ri_running _ _ Hi). }
  pose proof (ri_interest _ _ Hi) as H1.
  assert (forall h l, parked (waiters_ r) ++ l.*1 ++ (resumed r ++ [h]).*1 ≡ₚ
                      parked (waiters_ r) ++ (h :: l).*1 ++ (resumed r).*1) as Hmove.
  { intros h l. rewrite fmap_app. cbn. f_equiv. rewrite (assoc_L (++)). symmetry. apply Permutation_cons_append. }
  destruct (thread_at r) as [| | |[|h l]| |[|h l]|] eqn:Ep; try done; injection Hn as <-.
  - apply (phase_move r _ acc Hi); rewrite ?Ep; try done; cbn; by destruct (stop_requested r).
  - destruct (collect_ok events now r H1) as (C1 & C2 & (l & C3) & C4 & C5 & C6).
    apply (phase_move r _ acc Hi); rewrite ?Ep, ?C3; try done. rewrite C2, C3, C4. by rewrite <- (assoc_L (++)).
  - apply (phase_move r _ acc Hi); by rewrite ?Ep.
  - apply (phase_move r _ acc Hi); rewrite ?Ep; try done. apply Hmove.
  - destruct (drain_ok r H1) as (D1 & D2 & D3 & D5).
    apply (phase_move r _ acc Hi); rewrite ?Ep; try done; [by rewrite D2, D5| |by intros _; apply Hst].
    by destruct D3 as [->|(? & ? & ->)].
  - apply (phase_move r _ acc Hi); by rewrite ?Ep.
  - apply (phase_move r _ acc Hi); rewrite ?Ep; try done. apply Hmove.
Qed.

Lemma reactor_step_inv p p' : reactor_step order p p' -> reactor_inv p.1 p.2 -> reactor_inv p'.1 p'.2.
Proof.
  intros [h fd timeout now add_ok r acc Hh Hfd|events now r r' acc Hn|epoll_ok r acc|r acc|r r' acc Hj] Hi; cbn in *.
  - pose proof (register_inv h fd timeout now add_ok r acc Hh Hfd Hi) as H.
    destruct (register_waiter _ _ _ _ _ _) as [b r']. by destruct H.
  - by eapply thread_next_inv.
  - unfold start. destruct (running_ r) eqn:Er; [done|]. destruct epoll_ok; [|done]. cbn.
    destruct Hi. specialize (ri_running0 Er). specialize (ri_quiet0 ri_running0).
    assert (pending (thread_at r) = []) as Hp by (by destruct ri_running0 as [->| ->]).
    rewrite Hp in *. split; cbn; try done; by intros [?|?].
  - unfold request_stop. destruct (running_ r) eqn:Er; [|done]. destruct Hi. split; cbn; try done. intros H. specialize (ri_idle0 H). congruence.
  - unfold joined in Hj. destruct (thread_at r) eqn:Ep; try done. injection Hj as <-. destruct Hi.
    rewrite Ep in *. split; cbn; try done. intros _. by right.
Qed.

Lemma reactor_reachable_inv p : rtc (reactor_step order) (new_reactor, []) p -> reactor_inv p.1 p.2.
Proof.
  intros Hr. eapply (rtc_preserve (fun p => reactor_inv p.1 p.2)); [|exact Hr|].
  - intros x y Hx Hs. by apply (reactor_step_inv x y).
  - split; cbn; try done; [constructor|]. by left.
Qed.

(** ** Who resumes, and with which answer *)

Lemma take_ready_keeps events acc fd w :
  fd ∉ events -> acc.1.1 !! fd = Some w ->
  (foldl take_ready acc events).1.1 !! fd = Some w.
Proof.
  revert acc. induction events as [|e events IH]; intros [[ws i] l] Hn Hw; [done|]. cbn [foldl].
  apply not_elem_of_cons in Hn as [Hne Hn]. apply IH; [done|]. unfold take_ready. destruct (ws !! e); [|done].
  cbn. by rewrite lookup_delete_ne.
Qed.

Lemma take_ready_takes events acc fd w :
  fd ∈ events -> acc.1.1 !! fd = Some w -> (handle w, true) ∈ (foldl take_ready acc events).2.
Proof.
  assert (forall events acc x, x ∈ acc.2 -> x ∈ (foldl take_ready acc events).2) as Hmono.
  { clear. induction events as [|e events IH]; intros [[ws i] l] x Hx; [done|]. apply IH. unfold take_ready.
    destruct (ws !! e); [|done]. cbn in *. set_solver. }
  revert acc. induction events as [|e events IH]; intros [[ws i] l] Hin Hw; [by apply elem_of_nil in Hin|].
  cbn [foldl]. destruct (decide (fd = e)) as [->|Hne].
  - apply Hmono. unfold take_ready. cbn in Hw. rewrite Hw. cbn. set_solver.
  - apply IH; [set_solver|]. unfold take_ready. destruct (ws !! e); [|done]. cbn. by rewrite lookup_delete_ne.
Qed.

Lemma take_expired_mono now es acc x : x ∈ acc.2 -> x ∈ (foldl (take_expired now) acc es).2.
Proof.
  revert acc. induction es as [|e es IH]; intros [[ws i] l] Hx; [done|]. apply IH. unfold take_expired.
  case_match; [|done]. cbn in *. set_solver.
Qed.

Lemma take_expired_takes now es acc fd w : (fd, w) ∈ es -> deadline w <= now ->
  (handle w, false) ∈ (foldl (take_expired now) acc es).2.
Proof.
  revert acc. induction es as [|e es IH]; intros [[ws i] l] Hin Hd; [by apply elem_of_nil in Hin|].
  cbn [foldl]. apply elem_of_cons in Hin as [<-|Hin]; [|by apply IH].
  apply take_expired_mono. unfold take_expired. cbn [fst snd]. rewrite (proj2 (Z.leb_le _ _)) by done. cbn. set_solver.
Qed.

Lemma take_expired_keeps now es acc fd w : (forall w', (fd, w') ∈ es -> w' = w) -> now < deadline w ->
  acc.1.1 !! fd = Some w -> (foldl (take_expired now) acc es).1.1 !! fd = Some w.
Proof.
  revert acc. induction es as [|[fd' w'] es IH]; intros [[ws i] l] Hu Hd Hw; [done|]. cbn [foldl].
  apply IH; [set_solver|done|]. unfold take_expired. cbn [fst snd]. destruct (deadline w' <=? now) eqn:E; [|done].
  cbn. rewrite lookup_delete_ne; [done|]. intros ->. apply Z.leb_le in E.
  rewrite (Hu w') in E; [lia|left].
Qed.

(** The critical section sorts the waiters: ready, expired, still parked. *)
Lemma collect_exact events now r fd w l : waiters_ r !! fd = Some w ->
  thread_at (collect order events now r) = Resuming l ->
  (fd ∈ events -> (handle w, true) ∈ l) /\
  (fd ∉ events -> deadline w <= now -> (handle w, false) ∈ l) /\
  (fd ∉ events -> now < deadline w -> waiters_ (collect order events now r) !! fd = Some w).
Proof.
  intros Hw. unfold collect.
  pose proof (take_ready_takes events (waiters_ r, interest r, []) fd w) as T1.
  pose proof (take_ready_keeps events (waiters_ r, interest r, []) fd w) as T2.
  destruct (foldl take_ready _ events) as [[ws i] l0]. cbn in T1, T2.
  destruct (order_spec ws) as [Hnd Hin].
  pose proof (fun x => take_expired_mono now (order ws) (ws, i, l0) x) as E1.
  pose proof (take_expired_takes now (order ws) (ws, i, l0) fd w) as E2.
  pose proof (take_expired_keeps now (order ws) (ws, i, l0) fd w) as E3.
  destruct (foldl (take_expired now) _ _) as [[ws' i'] l1]. cbn in E1, E2, E3 |- *. intros [= <-].
  split_and!.
  - intros He. apply E1. by apply T1.
  - intros He Hd. apply E2; [|done]. rewrite order_perm. apply elem_of_map_to_list. by apply T2.
  - intros He Hd. apply E3; [|done|by apply T2]. intros w' Hw'. specialize (Hin _ Hw'). cbn in Hin.
    rewrite (T2 He Hw) in Hin. by injection Hin.
Qed.

(** What the critical section leaves of the waiters. *)
Lemma take_ready_sub events acc fd w :
  (foldl take_ready acc events).1.1 !! fd = Some w -> acc.1.1 !! fd = Some w.
Proof.
  revert acc. induction events as [|e events IH]; intros [[ws i] l]; [done|]. cbn [foldl]. intros H%IH.
  unfold take_ready in H. destruct (ws !! e); [|done]. cbn in *. by apply lookup_delete_Some in H as [_ H].
Qed.

Lemma take_expired_sub now es acc fd w : (foldl (take_expired now) acc es).1.1 !! fd = Some w ->
  acc.1.1 !! fd = Some w /\ forall w', (fd, w') ∈ es -> now < deadline w'.
Proof.
  revert acc. induction es as [|e es IH]; intros [[ws i] l]; [split; [done|by intros ? ?%elem_of_nil]|].
  cbn [foldl]. intros [H1 H2]%IH. unfold take_expired in H1. destruct (deadline e.2 <=? now) eqn:E; cbn in *.
  - apply lookup_delete_Some in H1 as [Hne H1]. split; [done|]. intros w' [<-|Hin]%elem_of_cons; [done|by apply H2].
  - apply Z.leb_gt in E. split; [done|]. intros w' [<-|Hin]%elem_of_cons; [done|by apply H2].
Qed.

Lemma thread_next_waiters events now r r' fd w : thread_next order events now r = Some r' ->
  waiters_ r' !! fd = Some w -> waiters_ r !! fd = Some w /\ (thread_at r = Polling -> now < deadline w).
Proof.
  intros Hn Hw. unfold thread_next in Hn.
  destruct (thread_at r) as [| | |[|? l]| |[|? l]|] eqn:Ep; try done; injection Hn as <-;
    try (split; [exact Hw|by intros]).
  - unfold collect in Hw. pose proof (take_ready_sub events (waiters_ r, interest r, []) fd w) as H1.
    destruct (foldl take_ready _ events) as [[ws i] l].
    pose proof (take_expired_sub now (order ws) (ws, i, l) fd w) as H2.
    destruct (foldl (take_expired now) _ _) as [[ws' i'] l']. cbn in *. destruct (H2 Hw) as [H3 H4].
    split; [by apply H1|]. intros _. apply H4. rewrite order_perm. by apply elem_of_map_to_list.
  - cbn in Hw. by rewrite lookup_empty in Hw.
Qed.

Lemma thread_next_flags events now r r' : thread_next order events now r = Some r' ->
  running_ r' = running_ r /\ stop_requested r' = stop_requested r /\ ~ quiet (thread_at r) /\
  (thread_at r' = Polling -> thread_at r = LoopTest /\ stop_requested r = false).
Proof.
  intros Hn. unfold thread_next in Hn. assert (~ quiet (thread_at r)) as Hq.
  { by intros [Hq|Hq]; rewrite Hq in Hn. }
  destruct (thread_at r) as [| | |[|? l]| |[|? l]|] eqn:Ep; try done; injection Hn as <-; cbn;
    try (by split_and!).
  - split_and!; [done..|]. by destruct (stop_requested r).
  - unfold collect. destruct (foldl take_ready _ events) as [[ws i] l].
    destruct (foldl (take_expired now) _ _) as [[ws' i'] l']. cbn. by split_and!.
  - split_and!; [done..|]. by destruct (_ <$> _).
Qed.

(** [epoll_wait] is never asked to sleep past a deadline, nor for more than half a second. *)
Lemma poll_timeout_bounds now r :
  0 <= poll_timeout order now r <= 500 /\
  forall fd w, waiters_ r !! fd = Some w -> now <= deadline w -> now + poll_timeout order now r * 1000000 <= deadline w.
Proof.
  unfold poll_timeout. set (f := fun t w => _).
  assert (forall es t, 0 <= t -> 0 <= foldl f t es <= t /\
            forall e, e ∈ es -> now <= deadline e.2 -> foldl f t es <= Z.quot (deadline e.2 - now) 1000000) as H.
  { induction es as [|e es IH]; intros t Ht; cbn [foldl]; [split; [lia|by intros ? ?%elem_of_nil]|].
    destruct (IH (f t e)) as [H1 H2]; [subst f; cbn; lia|]. assert (f t e <= t) by (subst f; cbn; lia).
    split; [lia|]. intros e' [->|He']%elem_of_cons Hd; [|by apply H2].
    assert (0 <= Z.quot (deadline e.2 - now) 1000000) by (apply Z.quot_pos; lia).
    assert (f t e <= Z.quot (deadline e.2 - now) 1000000) by (subst f; cbn; lia). lia. }
  destruct (H (order (waiters_ r)) 500) as [H1 H2]; [lia|]. split; [lia|]. intros fd w Hw Hd.
  assert ((fd, w) ∈ order (waiters_ r)) as Hin by (rewrite order_perm; by apply elem_of_map_to_list).
  specialize (H2 _ Hin Hd). cbn in H2. pose proof (Z.mul_quot_le (deadline w - now) 1000000). lia.
Qed.

(** C32: every parked coroutine is resumed exactly once.  Whatever threads register waiters,
    whatever the kernel reports and whenever the reactor is started and stopped, each
    accepted waiter is at any moment parked, about to be resumed, or resumed once, and the
    reactor thread leaves none behind when it exits.  A round resumes the waiters of the
    descriptors reported with success, the expired others without, and keeps the rest. *)
Theorem waiters_resumed_exactly_once r acc :
  rtc (reactor_step order) (new_reactor, []) (r, acc) ->
  NoDup (parked (waiters_ r) ++ (pending (thread_at r)).*1 ++ (resumed r).*1) /\
  acc ≡ₚ parked (waiters_ r) ++ (pending (thread_at r)).*1 ++ (resumed r).*1 /\
  (thread_at r = Exited -> (resumed r).*1 ≡ₚ acc) /\
  (forall events now fd w l, waiters_ r !! fd = Some w -> thread_at (collect order events now r) = Resuming l ->
     (fd ∈ events -> (handle w, true) ∈ l) /\
     (fd ∉ events -> deadline w <= now -> (handle w, false) ∈ l) /\
     (fd ∉ events -> now < deadline w -> waiters_ (collect order events now r) !! fd = Some w)).
Proof.
  intros Hr. pose proof (reactor_reachable_inv _ Hr) as []. cbn [fst snd] in *. split_and!.
  - by rewrite <- ri_once0.
  - done.
  - intros He. rewrite ri_once0, He, ri_quiet0 by (by right). done.
  - intros events now fd w l. apply collect_exact.
Qed.

(** ** The reactor stops *)

Fixpoint thread_run (obs : list (list Z * Z)) (r : EpollReactor) : option EpollReactor :=
  match obs with
  | [] => Some r
  | (events, now) :: obs' => r' ← thread_next order events now r; thread_run obs' r'
  end.

(** The steps left once a stop was requested. *)
Definition drain_steps (n : nat) : nat := match n with O => 1 | S _ => n + 3 end.

Definition steps_left (r : EpollReactor) : nat :=
  let n := size (waiters_ r) in
  match thread_at r with
  | Idle | Exited => 0
  | Draining => drain_steps n
  | DrainResuming l => length l + 1 + drain_steps n
  | LoopTest => n + 4
  | Resuming l => length l + n + 5
  | Polling => n + 6
  end.

Lemma length_parked ws : length (parked ws) = size ws.
Proof. unfold parked. rewrite !length_fmap. apply length_map_to_list. Qed.

Lemma stopping_step events now r : interest r = dom (waiters_ r) ->
  stop_requested r = true -> ~ quiet (thread_at r) ->
  exists r', thread_next order events now r = Some r' /\ stop_requested r' = true /\
    interest r' = dom (waiters_ r') /\ thread_at r' <> Idle /\ (steps_left r' < steps_left r)%nat.
Proof.
  intros Hi Hs Hq. unfold thread_next, steps_left. destruct (thread_at r) as [| | |[|h l]| |[|h l]|] eqn:Ep.
  - destruct Hq. by left.
  - eexists. split; [done|]. rewrite Hs. cbn. split_and!; try done. unfold drain_steps. case_match; lia.
  - destruct (collect_ok events now r Hi) as (C1 & C2 & (l & C3) & C4 & C5 & C6).
    eexists. split; [done|]. rewrite C3. split_and!; try done; [by rewrite C6|].
    apply Permutation_length in C2. rewrite length_app, C3, length_fmap, !length_parked in C2. cbn in C2 |- *. lia.
  - eexists. split; [done|]. cbn. split_and!; try done. lia.
  - eexists. split; [done|]. cbn. split_and!; try done. lia.
  - destruct (drain_ok r Hi) as (D1 & D2 & D3 & D5).
    eexists. split; [done|]. apply Permutation_length in D5. rewrite length_fmap, length_parked in D5.
    rewrite D2, map_size_empty, D5. split_and!; [done|by rewrite D2 in D1|..];
      destruct D3 as [->|(h & l & ->)]; cbn; done || lia.
  - eexists. split; [done|]. cbn. split_and!; try done. lia.
  - eexists. split; [done|]. cbn. split_and!; try done. lia.
  - destruct Hq. by right.
Qed.

(** The reactor stops.  Once a stop has been requested, whatever the kernel still
    reports, the reactor thread exits after a bounded number of its own steps -- one for each
    coroutine it still has to resume and a constant -- and by then every waiter it ever
    accepted has been resumed. *)
Theorem reactor_stops r acc obs :
  rtc (reactor_step order) (new_reactor, []) (r, acc) ->
  running_ r = true -> stop_requested r = true -> (steps_left r <= length obs)%nat ->
  exists k r', (k <= steps_left r)%nat /\ thread_run (take k obs) r = Some r' /\ thread_at r' = Exited /\
    (resumed r').*1 ≡ₚ acc.
Proof.
  intros Hr Hrun Hs Hlen. pose proof (reactor_reachable_inv _ Hr) as Hi. cbn [fst snd] in Hi.
  assert (forall n obs r, (steps_left r <= n)%nat -> (n <= length obs)%nat -> reactor_inv r acc ->
            stop_requested r = true -> thread_at r <> Idle ->
            exists k r', (k <= n)%nat /\ thread_run (take k obs) r = Some r' /\ thread_at r' = Exited /\
              reactor_inv r' acc) as Hgo.
  { clear r obs Hr Hrun Hs Hlen Hi. induction n as [|n IH]; intros obs r Hst Hlen Hi Hs Hid.
    - exists 0%nat, r. split_and!; [lia|by destruct obs| |done].
      unfold steps_left, drain_steps in Hst. destruct (thread_at r); try done; try case_match; lia.
    - destruct (decide (thread_at r = Exited)) as [He|Hne]; [by exists 0%nat, r; split_and!; [lia|..]|].
      destruct obs as [|[events now] obs]; [cbn in Hlen; lia|].
      destruct (stopping_step events now r (ri_interest _ _ Hi) Hs) as (r1 & H1 & H2 & _ & H4 & H5);
        [by intros [?|?]|].
      destruct (IH obs r1) as (k & r' & Hk & Hrun & He & Hi'); [lia|cbn in Hlen; lia| |done|done|].
      { by eapply thread_next_inv. }
      exists (S k), r'. cbn. rewrite H1. cbn. split_and!; [lia|done..]. }
  destruct (Hgo (steps_left r) obs r) as (k & r' & Hk & Hrun' & He & []); [lia|done|done|done| |].
  { intros Hid. rewrite (ri_idle _ _ Hi Hid) in Hrun. done. }
  exists k, r'. split_and!; [done|done|done|]. rewrite ri_once0, He, ri_quiet0 by (by right). done.
Qed.
End invariant.

(** * Concrete runs *)

Definition run_events (evs : list (list Z * Z)) (r : EpollReactor) : option EpollReactor :=
  thread_run map_to_list evs r.

(** Two waiters: one becomes ready, the other is drained by a stop. *)
Definition two_waiters : EpollReactor :=
  (register_waiter 2 8 10000 0 true (register_waiter 1 7 500 0 true (start true new_reactor)).2).2.

Lemma two_waiters_reachable :
  rtc (reactor_step map_to_list) (new_reactor, []) (request_stop two_waiters, [2%nat; 1%nat]).
Proof.
  eapply rtc_l; [apply (rs_start _ true)|].
  eapply rtc_l; [apply (rs_register _ 1 7 500 0 true); [set_solver|reflexivity]|].
  eapply rtc_l; [apply (rs_register _ 2 8 10000 0 true); [vm_compute; set_solver|reflexivity]|].
  apply rtc_once, rs_stop.
Qed.

Lemma waiters_resumed_exactly_once_witness :
  NoDup (parked (waiters_ (request_stop two_waiters)) ++
         (pending (thread_at (request_stop two_waiters))).*1 ++ (resumed (request_stop two_waiters)).*1) /\
  resumed <$> run_events [([], 5); ([7; 99], 5); ([], 5)] two_waiters = Some [(1%nat, true)].
Proof.
  split; [|vm_compute; reflexivity].
  apply (waiters_resumed_exactly_once map_to_list (fun m => reflexivity _) _ _ two_waiters_reachable).
Defined.

Lemma reactor_stops_witness :
  exists k r', (k <= 6)%nat /\ thread_run map_to_list (take k (replicate 6 ([7], 1))) (request_stop two_waiters) = Some r' /\
    thread_at r' = Exited /\ (resumed r').*1 ≡ₚ [2%nat; 1%nat].
Proof.
  apply (reactor_stops map_to_list (fun m => reflexivity _) _ _ (replicate 6 ([7], 1)) two_waiters_reachable);
    [reflexivity|reflexivity|vm_compute; lia].
Defined.

(** Without the discipline: a second waiter on the same descriptor drops the first, which is
    then parked nowhere and never resumed. *)
Lemma second_waiter_drops_first :
  let r := (register_waiter 1 7 500 0 true (start true new_reactor)).2 in
  let '(ok, r') := register_waiter 2 7 500 0 true r in
  ok = false /\ waiters_ r' = ∅ /\ interest r' = {[7]}.
Proof. by vm_compute. Qed.
