(* ===== verification/ReactorTime.v ===== *)
(** [network/reactor.cpp] in real time: the reactor's own descriptors, the awaiter objects of
    [network/reactor.hpp], [wake], and how late a wait can end.

    The reactor of [Reactor] gets a clock.  [due] is the latest moment at which the reactor
    thread takes its next step: it needs at most [g] from the return of one [epoll_wait] to
    the next or to its end, and [epoll_wait] returns at most [g] after its timeout has passed
    or its eventfd has become readable.  Time does not pass [due]; everything else may
    happen in any order.  Parking and the [wake] after it are one step, as are the request to
    stop and its [wake]: the bounds are those of a caller that is not preempted in between. *)

From Stdlib Require Import ZArith Lia.
From stdpp Require Import base gmap relations numbers list.
From S2P Require Import Prelude Core Reactor.

Local Open Scope Z_scope.

(** * Descriptors and awaiters *)

(** [armed] is whether the eventfd is in the epoll instance. *)
Record reactor_fds := mkReactorFds { epoll_fd_ : Z; wake_fd_ : Z; armed : bool }.

(** The constructor, with the answers of [epoll_create1], [eventfd] and [epoll_ctl]. *)
Definition construct_reactor (epoll_create1 eventfd epoll_ctl : Z) : reactor_fds :=
  mkReactorFds epoll_create1 eventfd
    (if (epoll_create1 >=? 0) && (eventfd >=? 0) then epoll_ctl =? 0 else false).

(** What the destructor closes after [stop]. *)
Definition closed_by_destructor (d : reactor_fds) : list Z :=
  (if epoll_fd_ d >=? 0 then [epoll_fd_ d] else []) ++ (if wake_fd_ d >=? 0 then [wake_fd_ d] else []).

Inductive epoll_events := EPOLLIN | EPOLLOUT.

Record FdAwaiter := mkAwaiter { fd_ : Z; events_ : epoll_events; timeout_ms_ : Z }.

Definition wait_readable (fd timeout_ms : Z) : FdAwaiter := mkAwaiter fd EPOLLIN timeout_ms.
Definition wait_writable (fd timeout_ms : Z) : FdAwaiter := mkAwaiter fd EPOLLOUT timeout_ms.

(** * The timed reactor *)

Record timed := mkTimed {
  reactor : EpollReactor;
  counter : Z;                 (** of the eventfd *)
  clock : Z;
  due : Z;
  stopped_at : option Z;       (** when [stop] was called *)
  accepted : list nat          (** the coroutines parked so far *)
}.

Definition new_timed (now : Z) : timed := mkTimed new_reactor 0 now now None [].

Definition with_reactor (s : timed) (r : EpollReactor) : timed :=
  mkTimed r (counter s) (clock s) (due s) (stopped_at s) (accepted s).

Section timed.
Context (order : gmap Z Waiter -> list (Z * Waiter)) (d : reactor_fds) (g : Z).

(** [wake]: a readable eventfd ends the [epoll_wait]. *)
Definition wake (s : timed) : timed :=
  if wake_fd_ d >=? 0 then
    mkTimed (reactor s) (counter s + 1) (clock s)
      (if armed d && bool_decide (thread_at (reactor s) = Polling) then Z.min (due s) (clock s + g) else due s)
      (stopped_at s) (accepted s)
  else s.

(** [await_suspend]; the flag is whether the coroutine stays suspended. *)
Definition await_suspend (a : FdAwaiter) (h : nat) (add_ok : bool) (s : timed) : bool * timed :=
  let '(b, r) := register_waiter h (fd_ a) (timeout_ms_ a) (clock s) add_ok (reactor s) in
  if b : bool then
    (true, wake (mkTimed r (counter s) (clock s) (due s) (stopped_at s) (h :: accepted s)))
  else (false, with_reactor s r).

(** How long the thread may stay where it has just arrived. *)
Definition next_due (s : timed) (r' : EpollReactor) : Z :=
  match thread_at (reactor s) with
  | LoopTest =>
      if bool_decide (thread_at r' = Polling) then
        if armed d && (0 <? counter s) then clock s + g
        else clock s + poll_timeout order (clock s) (reactor s) * 1000000 + g
      else due s
  | Polling => clock s + g
  | _ => due s
  end.

(** One step of the reactor thread; reading the eventfd resets it. *)
Definition timed_thread (events : list Z) (s : timed) : option timed :=
  r' ← thread_next order (filter (fun fd => fd <> wake_fd_ d) events) (clock s) (reactor s);
  Some (mkTimed r' (if bool_decide (thread_at (reactor s) = Polling /\ wake_fd_ d ∈ events) then 0 else counter s)
          (clock s) (next_due s r') (stopped_at s) (accepted s)).

Definition timed_start (s : timed) : timed :=
  if running_ (reactor s) || negb (epoll_fd_ d >=? 0) then s
  else mkTimed (start (epoll_fd_ d >=? 0) (reactor s)) (counter s) (clock s) (clock s + g) None (accepted s).

(** [stop] up to the [join]. *)
Definition timed_stop (s : timed) : timed :=
  if running_ (reactor s) then
    wake (mkTimed (request_stop (reactor s)) (counter s) (clock s) (due s)
            (Some (default (clock s) (stopped_at s))) (accepted s))
  else s.

Inductive timed_step : timed -> timed -> Prop :=
  | ts_tick s t :
      clock s <= t -> (~ quiet (thread_at (reactor s)) -> t <= due s) ->
      timed_step s (mkTimed (reactor s) (counter s) t (due s) (stopped_at s) (accepted s))
  | ts_await a h add_ok s :
      0 <= timeout_ms_ a -> h ∉ accepted s -> waiters_ (reactor s) !! fd_ a = None ->
      timed_step s (await_suspend a h add_ok s).2
  | ts_thread events s s' : timed_thread events s = Some s' -> timed_step s s'
  | ts_start s : timed_step s (timed_start s)
  | ts_stop s : timed_step s (timed_stop s)
  | ts_join s r : joined (reactor s) = Some r -> timed_step s (with_reactor s r).

(** Without its eventfd the loop notices only when its timeout of at most 500 ms is over. *)
Definition slack : Z := if armed d then 0 else 500 * 1000000.

(** * The timed reactor is the reactor *)

Lemma wake_reactor s : reactor (wake s) = reactor s /\ clock (wake s) = clock s /\
  accepted (wake s) = accepted s /\ stopped_at (wake s) = stopped_at s.
Proof. unfold wake. by case_match. Qed.

Lemma timed_step_reactor s s' : timed_step s s' ->
  rtc (reactor_step order) (reactor s, accepted s) (reactor s', accepted s').
Proof.
  intros [s0 t ? ?|a h add_ok s0 ? Hh Hfd|events s0 s1 Hs|s0|s0|s0 r Hj].
  - done.
  - eapply rtc_once. pose proof (rs_register order h (fd_ a) (timeout_ms_ a) (clock s0) add_ok _ _ Hh Hfd) as Hr.
    unfold await_suspend. destruct (register_waiter _ _ _ _ _ _) as [[] r]; [|done]. cbn.
    by destruct (wake_reactor (mkTimed r (counter s0) (clock s0) (due s0) (stopped_at s0) (h :: accepted s0)))
      as (-> & _ & -> & _).
  - unfold timed_thread in Hs. apply bind_Some in Hs as (r' & Hr & [= <-]). eapply rtc_once, rs_thread, Hr.
  - eapply rtc_once. unfold timed_start. pose proof (rs_start order (epoll_fd_ d >=? 0) (reactor s0) (accepted s0)) as H.
    unfold start in *. by destruct (running_ (reactor s0) || negb (epoll_fd_ d >=? 0)).
  - eapply rtc_once. pose proof (rs_stop order (reactor s0) (accepted s0)) as H. unfold timed_stop, request_stop in *.
    destruct (running_ (reactor s0)) eqn:E; [|done].
    match goal with |- context [wake ?x] => destruct (wake_reactor x) as (-> & _ & -> & _) end. done.
  - by eapply rtc_once, rs_join.
Qed.

(** * No wait is overdue *)

Hypothesis order_perm : forall m, order m ≡ₚ map_to_list m.
Hypothesis g_nonneg : 0 <= g.

Record on_time (s : timed) : Prop := {
  ot_reactor : reactor_inv (reactor s) (accepted s);
  ot_clock : ~ quiet (thread_at (reactor s)) -> clock s <= due s;
  ot_work : ~ quiet (thread_at (reactor s)) -> thread_at (reactor s) <> Polling -> due s <= clock s + g;
  ot_poll : thread_at (reactor s) = Polling -> due s <= clock s + 500 * 1000000 + g;
  ot_waiter : forall fd w, waiters_ (reactor s) !! fd = Some w ->
    due s <= deadline w + (if decide (thread_at (reactor s) = Polling) then 2 * g + slack else g);
  ot_stopped : running_ (reactor s) = true -> stop_requested (reactor s) = bool_decide (is_Some (stopped_at s));
  ot_stop : forall t, stopped_at s = Some t -> ~ quiet (thread_at (reactor s)) ->
    due s <= t + (if decide (thread_at (reactor s) = Polling) then g else 2 * g) + slack
}.

Lemma slack_nonneg : 0 <= slack.
Proof. unfold slack. case_match; lia. Qed.

(** An overdue waiter makes the poll immediate. *)
Lemma overdue_polls now r fd w : waiters_ r !! fd = Some w -> deadline w < now -> poll_timeout order now r = 0.
Proof.
  intros Hw Hd. destruct (poll_timeout_bounds order order_perm now r) as [[H0 _] _].
  assert (poll_timeout order now r <= 0) as Hle; [|lia]. clear H0. unfold poll_timeout.
  assert ((fd, w) ∈ order (waiters_ r)) as Hin by (rewrite order_perm; by apply elem_of_map_to_list).
  set (f := fun t w => _).
  assert (forall es t, foldl f t es <= t) as Hmono.
  { induction es as [|e es IH]; intros t; cbn [foldl]; [lia|]. etrans; [apply IH|]. subst f. cbn. lia. }
  revert Hin. generalize (order (waiters_ r)) 500. induction l as [|e es IH]; intros t; [by intros ?%elem_of_nil|].
  intros [<-|He]%elem_of_cons; cbn [foldl]; [|by apply IH].
  etrans; [apply Hmono|]. subst f. cbn.
  pose proof (Z.quot_le_mono (deadline w - now) 0 1000000). rewrite Z.quot_0_l in *; lia.
Qed.

Hypothesis armed_fd : armed d = true -> 0 <= wake_fd_ d.

Lemma wake_due s : due (wake s) =
  if decide (armed d = true /\ thread_at (reactor s) = Polling) then Z.min (due s) (clock s + g) else due s.
Proof.
  unfold wake. rewrite Z.geb_leb. destruct (armed d) eqn:Ea.
  - rewrite (proj2 (Z.leb_le _ _)) by auto. cbn [due]. repeat case_decide; repeat case_bool_decide; naive_solver.
  - rewrite decide_False by naive_solver. by case_match.
Qed.

Lemma on_time_await a h add_ok s :
  0 <= timeout_ms_ a -> h ∉ accepted s -> waiters_ (reactor s) !! fd_ a = None -> on_time s ->
  on_time (await_suspend a h add_ok s).2.
Proof.
  intros Ht Hh Hfd Ho. pose proof Ho as []. pose proof slack_nonneg as Hsl.
  pose proof (register_inv h (fd_ a) (timeout_ms_ a) (clock s) add_ok _ _ Hh Hfd ot_reactor0) as Hr.
  unfold await_suspend. destruct (register_waiter _ _ _ _ _ _) as [b r] eqn:E. destruct Hr as [Hr _].
  apply register_effect in E as (E1 & E2 & E3 & E4); [|done].
  destruct b; cbn [snd]; [|split; cbn; rewrite ?E1, ?E2, ?E3, ?E4; auto].
  set (s1 := mkTimed _ _ _ _ _ _). destruct (wake_reactor s1) as (W1 & W2 & W3 & W4).
  pose proof (wake_due s1) as W5. cbn in *. rewrite E1 in W5.
  split; rewrite ?W1, ?W2, ?W3, ?W4, ?E1, ?E2, ?E3, ?W5; auto.
  - intros Hq. specialize (ot_clock0 Hq). case_decide; lia.
  - intros Hq Hp. specialize (ot_work0 Hq Hp). rewrite decide_False by naive_solver. done.
  - intros Hp. specialize (ot_poll0 Hp). case_decide; lia.
  - rewrite E4. intros fd w [[<- <-]|[_ Hw]]%lookup_insert_Some; [cbn|].
    + destruct (decide (thread_at (reactor s) = Polling)) as [Hp|Hp].
      * specialize (ot_poll0 Hp). unfold slack in *. destruct (armed d); case_decide; naive_solver lia.
      * rewrite decide_False by naive_solver. specialize (ot_work0).
        destruct (decide (quiet (thread_at (reactor s)))) as [Hq|Hq].
        { destruct Hr. rewrite E1, E4 in ri_quiet. specialize (ri_quiet Hq).
          by apply insert_non_empty in ri_quiet. }
        specialize (ot_work0 Hq Hp). lia.
    + specialize (ot_waiter0 _ _ Hw). case_decide; lia.
  - intros t Hst Hq. specialize (ot_stop0 t Hst Hq). case_decide; lia.
Qed.

(** Where the next step becomes due. *)
Lemma next_due_spec events s r' :
  thread_next order events (clock s) (reactor s) = Some r' ->
  (thread_at (reactor s) = Polling /\ thread_at r' <> Polling /\ next_due s r' = clock s + g) \/
  (thread_at (reactor s) <> Polling /\ thread_at r' <> Polling /\ next_due s r' = due s) \/
  (thread_at (reactor s) = LoopTest /\ thread_at r' = Polling /\ clock s + g <= next_due s r' /\
   next_due s r' <= clock s + poll_timeout order (clock s) (reactor s) * 1000000 + g).
Proof.
  intros Hr. destruct (thread_next_flags order _ _ _ _ Hr) as (_ & _ & Hq & F).
  destruct (poll_timeout_bounds order order_perm (clock s) (reactor s)) as [Hpt _].
  unfold next_due. destruct (decide (thread_at r' = Polling)) as [Hp|Hp].
  - destruct (F Hp) as [E _]. rewrite E, bool_decide_true by done. right; right. case_match; split_and!; done || lia.
  - destruct (thread_at (reactor s)) eqn:E; rewrite ?bool_decide_false by done; by eauto.
Qed.

Lemma on_time_thread events s s' : timed_thread events s = Some s' -> on_time s -> on_time s'.
Proof.
  intros Hs [Hi Hc Hw Hp Hd Hsr Hst]. pose proof slack_nonneg as Hsl.
  unfold timed_thread in Hs. apply bind_Some in Hs as (r' & Hr & [= <-]).
  destruct (thread_next_flags order _ _ _ _ Hr) as (F1 & F2 & Hq & F3). specialize (Hc Hq). specialize (Hw Hq).
  pose proof (fun fd w => thread_next_waiters order order_perm _ _ _ _ fd w Hr) as Hsub.
  destruct (poll_timeout_bounds order order_perm (clock s) (reactor s)) as [Hpt Hpt'].
  pose proof (thread_next_inv order order_perm _ _ _ _ _ Hi Hr) as Hi'.
  destruct (next_due_spec _ _ _ Hr) as [(A1 & A2 & A3)|[(A1 & A2 & A3)|(A1 & A2 & A3 & A4)]]; rewrite ?A1 in *.
  - split; cbn; rewrite ?A3, ?F1, ?F2; try done; try lia.
    + intros fd w Hin. rewrite decide_False by done. destruct (Hsub _ _ Hin) as [_ Hlt]. specialize (Hlt eq_refl). lia.
    + intros t Ht _. rewrite decide_False by done. specialize (Hst t Ht Hq). rewrite decide_True in Hst by done. lia.
  - split; cbn; rewrite ?A3, ?F1, ?F2; try done; auto.
    + intros fd w Hin. rewrite decide_False by done. destruct (Hsub _ _ Hin) as [Hin' _].
      specialize (Hd _ _ Hin'). by rewrite decide_False in Hd.
    + intros t Ht _. rewrite decide_False by done. specialize (Hst t Ht Hq). by rewrite decide_False in Hst.
  - specialize (Hw ltac:(done)). split; cbn; rewrite ?A2, ?F1, ?F2; try done; try lia.
    + intros fd w Hin. rewrite decide_True by done. destruct (Hsub _ _ Hin) as [Hin' _].
      specialize (Hd _ _ Hin'). rewrite decide_False in Hd by done.
      destruct (decide (clock s <= deadline w)) as [Hle|Hlt].
      * specialize (Hpt' _ _ Hin' Hle). lia.
      * rewrite (overdue_polls _ _ _ _ Hin') in A4 by lia. lia.
    + intros t Ht _. destruct (F3 A2) as [_ Hn].
      assert (running_ (reactor s) = true) as Hrun.
      { destruct (running_ (reactor s)) eqn:E; [done|]. destruct Hq. rewrite <- A1. by apply (ri_running _ _ Hi). }
      rewrite Hsr, Ht in Hn by done. by rewrite bool_decide_true in Hn.
Qed.

Lemma on_time_start s : reactor_inv (reactor (timed_start s)) (accepted (timed_start s)) ->
  on_time s -> on_time (timed_start s).
Proof.
  intros Hi Ho. pose proof (ot_reactor _ Ho) as Hi0. revert Hi. unfold timed_start, start.
  destruct (running_ (reactor s)) eqn:Er; cbn [orb]; [done|].
  destruct (epoll_fd_ d >=? 0); cbn [negb]; [|done]. intros Hi.
  pose proof (ri_quiet _ _ Hi0 (ri_running _ _ Hi0 Er)) as Hemp.
  split; cbn in *; try done; try lia. intros fd w. by rewrite Hemp, lookup_empty.
Qed.

Lemma on_time_stop s : reactor_inv (reactor (timed_stop s)) (accepted (timed_stop s)) ->
  on_time s -> on_time (timed_stop s).
Proof.
  intros Hi Ho. pose proof Ho as [Hi0 Hc Hw Hp Hd Hsr Hst]. revert Hi. pose proof slack_nonneg as Hsl.
  unfold timed_stop, request_stop. destruct (running_ (reactor s)) eqn:Er; [|done]. set (s1 := mkTimed _ _ _ _ _ _).
  destruct (wake_reactor s1) as (W1 & W2 & W3 & W4). pose proof (wake_due s1) as W5. cbn in *.
  intros Hi. split; [done|..]; rewrite ?W1, ?W2, ?W3, ?W4, ?W5; cbn; auto.
  - intros Hq. specialize (Hc Hq). case_decide; lia.
  - intros Hq Hp'. specialize (Hw Hq Hp'). case_decide; lia.
  - intros Hp'. specialize (Hp Hp'). case_decide; lia.
  - intros fd w Hin. specialize (Hd _ _ Hin). case_decide; lia.
  - intros t [= <-] Hq. specialize (Hc Hq). destruct (stopped_at s) as [t|] eqn:Et; cbn.
    + specialize (Hst t eq_refl Hq). case_decide; lia.
    + unfold slack in *. destruct (decide (thread_at (reactor s) = Polling)) as [Hp'|Hp'].
      * specialize (Hp Hp'). destruct (armed d); [rewrite decide_True by done|rewrite decide_False by naive_solver]; lia.
      * specialize (Hw Hq Hp'). case_decide; lia.
Qed.

Lemma on_time_step s s' : timed_step s s' -> on_time s -> on_time s'.
Proof.
  intros Hstep Ho. assert (reactor_inv (reactor s') (accepted s')) as Hi.
  { apply timed_step_reactor in Hstep.
    apply (rtc_preserve (fun p => reactor_inv p.1 p.2) (reactor_step order)) in Hstep; [done| |apply Ho].
    intros x y Hx Hs. by apply (reactor_step_inv order order_perm x y). }
  revert Ho Hi. destruct Hstep as [s0 t Hc Hd|a h add_ok s0 Ht Hh Hfd|events s0 s1 Hs|s0|s0|s0 r Hj]; intros Ho Hi.
  - destruct Ho. split; cbn; auto; intros; [|naive_solver lia..]. specialize (ot_work0 H H0). lia.
  - by apply on_time_await.
  - by eapply on_time_thread.
  - by apply on_time_start.
  - by apply on_time_stop.
  - unfold joined in Hj. destruct (thread_at (reactor s0)) eqn:E; try done. injection Hj as <-.
    assert (quiet Exited) as Hq by by right. destruct Ho.
    rewrite E in *. split; cbn in *; done.
Qed.

Lemma on_time_reachable t0 s : rtc timed_step (new_timed t0) s -> on_time s.
Proof.
  intros Hr. eapply (rtc_preserve on_time); [|exact Hr|].
  - intros x y Hx Hs. by eapply on_time_step.
  - split; cbn; try done; try (intros []; by left).
    apply (reactor_reachable_inv order order_perm (new_reactor, [])). apply rtc_refl.
Qed.

(** A coroutine leaves [waiters_] for one of three reasons. *)
Lemma leaves_for_a_reason events s s' fd w : reactor_inv (reactor s) (accepted s) ->
  timed_thread events s = Some s' -> waiters_ (reactor s) !! fd = Some w -> waiters_ (reactor s') !! fd = None ->
  fd ∈ events \/ deadline w <= clock s \/ stop_requested (reactor s) = true.
Proof.
  intros Hi Hs Hin Hout. unfold timed_thread in Hs. apply bind_Some in Hs as (r' & Hr & [= <-]). cbn in Hout.
  destruct (thread_next_flags order _ _ _ _ Hr) as (_ & _ & Hq & _).
  assert (running_ (reactor s) = true) as Hrun.
  { destruct (running_ (reactor s)) eqn:E; [done|]. destruct Hq. by apply (ri_running _ _ Hi). }
  pose proof (ri_stopping _ _ Hi Hrun) as Hst. unfold thread_next in Hr.
  destruct (thread_at (reactor s)) as [| | |[|? l]| |[|? l]|] eqn:Ep; try done; injection Hr as <-; cbn in Hout;
    try (rewrite Hin in Hout; done); try (right; right; by apply Hst).
  destruct (decide (fd ∈ events)) as [He|He]; [by left|]. right; left.
  destruct (decide (deadline w <= clock s)) as [Hd|Hd]; [done|].
  set (evs := filter _ events) in Hout.
  destruct (collect_ok order order_perm evs (clock s) (reactor s) (ri_interest _ _ Hi)) as (_ & _ & (l & Hl) & _).
  destruct (collect_exact order order_perm evs (clock s) (reactor s) fd w l Hin Hl) as (_ & _ & Hk).
  rewrite Hk in Hout; [done| |lia]. subst evs. rewrite list_elem_of_filter. naive_solver.
Qed.
End timed.

(** C33: Waits end on time.  Let the reactor thread need at most [g] between two calls of
    [epoll_wait], which returns at most [g] late.  Then at every moment no parked coroutine is
    overdue by more than [2 g], and the thread outlives a stop by at most [2 g]; if the
    eventfd could not be set up, both grow by the 500 ms the timeout is capped at.  A
    coroutine is not resumed before its descriptor is ready, its deadline has passed or the
    reactor stops. *)
Theorem waits_end_on_time order epoll_create1 eventfd epoll_ctl g t0 s :
  (forall m, order m ≡ₚ map_to_list m) -> 0 <= g ->
  let d := construct_reactor epoll_create1 eventfd epoll_ctl in
  rtc (timed_step order d g) (new_timed t0) s ->
  (forall fd w, waiters_ (reactor s) !! fd = Some w -> clock s <= deadline w + 2 * g + slack d) /\
  (forall t, stopped_at s = Some t -> ~ quiet (thread_at (reactor s)) -> clock s <= t + 2 * g + slack d) /\
  (forall events s' fd w, timed_thread order d g events s = Some s' ->
     waiters_ (reactor s) !! fd = Some w -> waiters_ (reactor s') !! fd = None ->
     fd ∈ events \/ deadline w <= clock s \/ stop_requested (reactor s) = true).
Proof.
  intros Hord Hg d Hr.
  assert (armed d = true -> 0 <= wake_fd_ d) as Hd.
  { subst d. unfold construct_reactor. cbn. rewrite !Z.geb_leb. destruct (0 <=? eventfd) eqn:E; [lia|].
    by rewrite andb_false_r. }
  pose proof (on_time_reachable order d g Hord Hg Hd t0 s Hr) as [Hi Hc Hw Hp Hdl Hsr Hst].
  pose proof (slack_nonneg d) as Hsl. split_and!.
  - intros fd w Hin. specialize (Hdl _ _ Hin). assert (~ quiet (thread_at (reactor s))) as Hq.
    { intros Hq. by rewrite (ri_quiet _ _ Hi Hq), lookup_empty in Hin. }
    specialize (Hc Hq). case_decide; lia.
  - intros t Ht Hq. specialize (Hst t Ht Hq). specialize (Hc Hq). case_decide; lia.
  - intros events s' fd w. by apply leaves_for_a_reason.
Qed.

(** * A concrete run *)

Inductive timed_event :=
  | Tick (t : Z)
  | Awaits (a : FdAwaiter) (h : nat)
  | Thread (events : list Z)
  | Starts.

(** An event with its guard. *)
Definition timed_next (d : reactor_fds) (g : Z) (e : timed_event) (s : timed) : option timed :=
  match e with
  | Tick t =>
      if decide (clock s <= t <= due s) then
        Some (mkTimed (reactor s) (counter s) t (due s) (stopped_at s) (accepted s))
      else None
  | Awaits a h =>
      if decide (0 <= timeout_ms_ a /\ h ∉ accepted s /\ waiters_ (reactor s) !! fd_ a = None) then
        Some (await_suspend d g a h true s).2
      else None
  | Thread events => timed_thread map_to_list d g events s
  | Starts => Some (timed_start d g s)
  end.

Fixpoint timed_run (d : reactor_fds) (g : Z) (es : list timed_event) (s : timed) : option timed :=
  match es with
  | [] => Some s
  | e :: es' => s' ← timed_next d g e s; timed_run d g es' s'
  end.

Lemma timed_run_steps d g es s s' : timed_run d g es s = Some s' -> rtc (timed_step map_to_list d g) s s'.
Proof.
  revert s. induction es as [|e es IH]; intros s; cbn; [by intros [= ->]|].
  intros (s1 & H1 & H2)%bind_Some. eapply rtc_l; [|by apply IH]. destruct e; cbn in H1.
  - case_decide; [|done]. injection H1 as <-. apply ts_tick; naive_solver.
  - case_decide; [|done]. injection H1 as <-. apply ts_await; naive_solver.
  - by eapply ts_thread.
  - injection H1 as <-. by apply ts_start.
Qed.

(** A coroutine waits 3 ms for descriptor 7 and nothing arrives; the thread is as slow as a
    delay of 1 ms allows, and gets to the waiter 1 ms late. *)
Definition slow_thread : list timed_event :=
  [Starts; Thread []; Awaits (wait_readable 7 3) 1; Tick 1000000; Thread [5]; Thread []; Tick 2000000;
   Thread []; Tick 4000000].

Definition slow_state : timed :=
  default (new_timed 0) (timed_run (construct_reactor 4 5 0) 1000000 slow_thread (new_timed 0)).

Lemma slow_state_reachable : rtc (timed_step map_to_list (construct_reactor 4 5 0) 1000000) (new_timed 0) slow_state.
Proof. apply timed_run_steps with slow_thread. vm_compute. reflexivity. Qed.

Lemma waits_end_on_time_witness :
  waiters_ (reactor slow_state) !! 7 = Some (mkWaiter 1 3000000) /\ clock slow_state = 4000000 /\
  clock slow_state <= 3000000 + 2 * 1000000 + slack (construct_reactor 4 5 0).
Proof.
  assert (waiters_ (reactor slow_state) !! 7 = Some (mkWaiter 1 3000000)) as Hw by (vm_compute; reflexivity).
  split; [exact Hw|]. split; [vm_compute; reflexivity|].
  destruct (waits_end_on_time map_to_list 4 5 0 1000000 0 slow_state (fun m => reflexivity _)
              ltac:(lia) slow_state_reachable) as [H _].
  exact (H 7 _ Hw).
Defined.
