(* ===== verification/AsyncTransport.v ===== *)
(** [network/async_transport.cpp]: the coroutine server.  A connection is one coroutine that
    reads a frame, runs the handler on a pool and writes a frame back.

    As for [TcpTransport] the kernel's answers are inputs; [a_ready] is what [co_await] on
    the reactor yields after a call that would block. *)

From Stdlib Require Import ZArith Lia.
From stdpp Require Import base gmap strings numbers pretty list.
From S2P Require Import Prelude Core Transport Reactor.

Local Open Scope Z_scope.

(** The answer of one [recv] or [send], and of the wait that follows [EAGAIN]. *)
Record aio := mkAio { a_ret : Z; a_errno : Z; a_ready : bool }.

(** [::recv] into [remaining] bytes; nothing arrived is [EAGAIN]. *)
Definition read_step (a : aio) (remaining : nat) (arrived : list Z) : step_result :=
  if 0 <? a_ret a then
    match arrived with
    | [] => if a_ready a then Again else Failed_io
    | _ => Moved (Nat.min (Z.to_nat (a_ret a)) (Nat.min remaining (length arrived)))
    end
  else if a_ret a =? 0 then Failed_io
  else if negb (a_errno a =? EAGAIN) then Failed_io
  else if a_ready a then Again else Failed_io.

Definition write_step (a : aio) (remaining : nat) : step_result :=
  if 0 <? a_ret a then Moved (Nat.min (Z.to_nat (a_ret a)) remaining)
  else if a_ret a =? 0 then Failed_io
  else if negb (a_errno a =? EAGAIN) then Failed_io
  else if a_ready a then Again else Failed_io.

Fixpoint read_exact (script : list aio) (remaining : nat) (stream : list Z)
  : option (bool * list Z * list Z * list aio) :=
  match remaining, script with
  | O, _ => Some (true, [], stream, script)
  | _, [] => None
  | _, a :: script' =>
      match read_step a remaining stream with
      | Failed_io => Some (false, [], stream, script')
      | Again => read_exact script' remaining stream
      | Moved n =>
          '(ok, got, stream', rest) ← read_exact script' (remaining - n) (drop n stream);
          Some (ok, take n stream ++ got, stream', rest)
      end
  end.

Fixpoint write_exact (script : list aio) (buf : list Z) : option (bool * list Z * list aio) :=
  match buf, script with
  | [], _ => Some (true, [], script)
  | _, [] => None
  | _, a :: script' =>
      match write_step a (length buf) with
      | Failed_io => Some (false, [], script')
      | Again => write_exact script' buf
      | Moved n =>
          '(ok, w, rest) ← write_exact script' (drop n buf);
          Some (ok, take n buf ++ w, rest)
      end
  end.

(** The payload; an empty one is not read. *)
Definition read_payload (script : list aio) (length_ : Z) (stream : list Z)
  : option (bool * list Z * list Z * list aio) :=
  if length_ =? 0 then Some (true, [], stream, script) else read_exact script (Z.to_nat length_) stream.

(** [handle_connection]: the bytes written before the descriptor is closed; [stopping] is
    the answer of the test of [stopping_] after the payload. *)
Definition handle_connection (handler : list Z -> list Z) (stopping : bool) (script : list aio) (stream : list Z)
  : option (list Z) :=
  '(ok, header, stream, script) ← read_exact script 4 stream;
  if ok : bool then
    let length_ := decode_u32 header in
    if length_ <=? MAX_MESSAGE_SIZE then
      '(got_payload, payload, _, script) ← read_payload script length_ stream;
      if (got_payload : bool) && negb stopping then
        let response := handler payload in
        '(ok, w1, script) ← write_exact script (encode_u32 (u32 (Z.of_nat (length response))));
        if ok : bool then
          '(_, w2, _) ← write_exact script response; Some (w1 ++ w2)
        else Some w1
      else Some []
    else Some []
  else Some [].

(** * The server object

    [as_open] is the set of descriptors the object has opened and not closed, [as_conns]
    the descriptors of the connection coroutines that have not ended. *)

Inductive stop_phase :=
  | NoStop
  | JoinReactor
  | WaitActive.

Record AsyncTransport := mkAsync {
  as_server_fd : Z;
  as_stopping : bool;
  as_reactor_running : bool;
  as_active : Z;
  as_stop_at : stop_phase;
  as_fresh : option Z;     (** accepted, [active_connections_] not incremented yet *)
  as_conns : gset Z;
  as_closing : nat;        (** closed, [active_connections_] not decremented yet *)
  as_open : gset Z
}.

Definition new_async : AsyncTransport := mkAsync (-1) false false 0 NoStop None ∅ 0 ∅.

Definition async_with_server (t : AsyncTransport) (fd : Z) (o : gset Z) : AsyncTransport :=
  mkAsync fd (as_stopping t) (as_reactor_running t) (as_active t) (as_stop_at t) (as_fresh t) (as_conns t) (as_closing t) o.

Section strerror.
Variable strerror : Z -> string.

Definition async_listen (e : listen_env) (t : AsyncTransport) : Result unit * AsyncTransport :=
  if as_server_fd t >=? 0 then (make_error "Already listening", t)
  else
    let fd := le_socket e in
    let t := async_with_server t fd (sys_open fd (as_open t)) in
    let closed := async_with_server t (-1) (as_open t ∖ {[fd]}) in
    if fd <? 0 then (make_error ("Failed to create server socket: " +:+ strerror (le_socket_errno e)), t)
    else if le_bind e <? 0 then (make_error ("Bind failed: " +:+ strerror (le_bind_errno e)), closed)
    else if le_listen e <? 0 then (make_error ("Listen failed: " +:+ strerror (le_listen_errno e)), closed)
    else (Ok tt, t).
End strerror.

(** [epoll_ok] is whether the reactor has an epoll instance.  The flag says whether the
    accept coroutine was started. *)
Definition async_serve (epoll_ok : bool) (t : AsyncTransport) : bool * AsyncTransport :=
  if (as_server_fd t <? 0) || as_reactor_running t then (false, t)
  else (true, mkAsync (as_server_fd t) false epoll_ok (as_active t) (as_stop_at t) (as_fresh t) (as_conns t)
                (as_closing t) (as_open t)).

Definition with_stop (t : AsyncTransport) (stopping running : bool) (p : stop_phase) : AsyncTransport :=
  mkAsync (as_server_fd t) stopping running (as_active t) p (as_fresh t) (as_conns t) (as_closing t) (as_open t).

(** One step of [stop_serving]: the exchange, [reactor_.stop()], which waits until the
    reactor's thread is no longer inside a coroutine, one test of the wait with [late] the
    test of the clock, and the close.  [None] is the return at the exchange. *)
Definition stop_next (late : bool) (t : AsyncTransport) : option AsyncTransport :=
  match as_stop_at t with
  | NoStop => if as_stopping t then None else Some (with_stop t true (as_reactor_running t) JoinReactor)
  | JoinReactor =>
      Some (match as_fresh t with Some _ => t | None => with_stop t (as_stopping t) false WaitActive end)
  | WaitActive =>
      if (0 <? as_active t) && negb late then Some t
      else
        let t := with_stop t (as_stopping t) (as_reactor_running t) NoStop in
        Some (if as_server_fd t >=? 0 then async_with_server t (-1) (as_open t ∖ {[as_server_fd t]}) else t)
  end.

(** [accept4] answers with a connection. *)
Definition connection_accepted (fd : Z) (t : AsyncTransport) : AsyncTransport :=
  mkAsync (as_server_fd t) (as_stopping t) (as_reactor_running t) (as_active t) (as_stop_at t)
    (Some fd) (as_conns t) (as_closing t) ({[fd]} ∪ as_open t).

(** The start of [handle_connection]: [active_connections_.fetch_add(1)]. *)
Definition connection_opened (t : AsyncTransport) : option AsyncTransport :=
  fd ← as_fresh t;
  Some (mkAsync (as_server_fd t) (as_stopping t) (as_reactor_running t) (as_active t + 1) (as_stop_at t)
          None ({[fd]} ∪ as_conns t) (as_closing t) (as_open t)).

(** Its end: [close(fd)], and then [active_connections_.fetch_sub(1)]. *)
Definition connection_closed (fd : Z) (t : AsyncTransport) : AsyncTransport :=
  mkAsync (as_server_fd t) (as_stopping t) (as_reactor_running t) (as_active t) (as_stop_at t)
    (as_fresh t) (as_conns t ∖ {[fd]}) (S (as_closing t)) (as_open t ∖ {[fd]}).
Definition connection_ended (t : AsyncTransport) : option AsyncTransport :=
  match as_closing t with
  | O => None
  | S n =>
      Some (mkAsync (as_server_fd t) (as_stopping t) (as_reactor_running t) (as_active t - 1) (as_stop_at t)
              (as_fresh t) (as_conns t) n (as_open t))
  end.

(** ** The accept coroutine *)

(** One iteration: the two tests of [stopping_], what the wait yields and the answers of
    [accept4]. *)
Record accept_env := mkAccept { ac_stopping : bool; ac_ready : bool; ac_stopped : bool; ac_fds : list Z }.

(** [accept4] until it fails. *)
Fixpoint accept_all (answers : list Z) : list Z :=
  match answers with
  | [] => []
  | client :: answers' => if client <? 0 then [] else client :: accept_all answers'
  end.

(** The connections handed to [handle_connection]; [None] while the loop runs. *)
Fixpoint accept_loop (rounds : list accept_env) : option (list Z) :=
  match rounds with
  | [] => None
  | e :: rounds' =>
      if ac_stopping e then Some []
      else if ac_stopped e then Some []
      else if negb (ac_ready e) then accept_loop rounds'
      else l ← accept_loop rounds'; Some (accept_all (ac_fds e) ++ l)
  end.

(** The call of [accept_loop] in [serve] comes back when the coroutine first suspends or
    ends: each attempt is a test of [stopping_] and a [register_waiter] at that time. *)
Fixpoint accept_until_parked (fd : Z) (attempts : list (bool * Z)) (r : EpollReactor) : option EpollReactor :=
  match attempts with
  | [] => None
  | (stopping, now) :: attempts' =>
      if stopping : bool then Some r
      else let '(parked, r) := register_waiter 0 fd 500 now true r in
           if parked : bool then Some r else accept_until_parked fd attempts' r
  end.

(** * The coroutine reads and writes what the blocking calls do *)

(** The blocking call that behaves like a call and the wait after it. *)
Definition as_io (a : aio) : io :=
  if 0 <? a_ret a then mkIo 1 (a_ret a) (a_errno a)
  else if (a_ret a <? 0) && (a_errno a =? EAGAIN) && a_ready a then mkIo 1 (a_ret a) EAGAIN
  else mkIo 0 (a_ret a) (a_errno a).

Definition read_result (x : bool * list Z * list Z * list aio) : bool * list Z * list Z * list io :=
  (x.1.1.1, x.1.1.2, x.1.2, map as_io x.2).
Definition write_result (x : bool * list Z * list aio) : bool * list Z * list io :=
  (x.1.1, x.1.2, map as_io x.2).

Lemma write_step_as_io a n : write_step a n = send_step (as_io a) n.
Proof.
  unfold write_step, send_step, as_io. destruct (0 <? a_ret a) eqn:E1.
  { apply Z.ltb_lt in E1. cbn. by rewrite (proj2 (Z.leb_gt _ _)). }
  apply Z.ltb_ge in E1. destruct (a_ret a =? 0) eqn:E2.
  { apply Z.eqb_eq in E2. rewrite E2. done. }
  apply Z.eqb_neq in E2. rewrite (proj2 (Z.ltb_lt (a_ret a) 0)) by lia.
  destruct (a_errno a =? EAGAIN), (a_ready a); cbn; try done.
  by rewrite (proj2 (Z.leb_le (a_ret a) 0)) by lia.
Qed.

Lemma write_exact_as_io script buf :
  option_map write_result (write_exact script buf) = send_all (map as_io script) buf.
Proof.
  revert buf. induction script as [|a script IH]; intros [|b buf]; try done.
  cbn [map write_exact send_all]. rewrite <- write_step_as_io.
  destruct (write_step a (length (b :: buf))) as [m| |]; [|apply IH|done].
  rewrite <- (IH (drop m (b :: buf))). by destruct (write_exact script (drop m (b :: buf))) as [[[? ?] ?]|].
Qed.

(** Reading depends on what has arrived: nothing to read and no readiness is a failure. *)
Lemma read_step_as_io a n l :
  read_step a n l = recv_step (as_io a) n l \/ read_step a n l = Failed_io /\ l = [] /\ a_ready a = false.
Proof.
  unfold read_step, recv_step, as_io. destruct (0 <? a_ret a) eqn:E1.
  { apply Z.ltb_lt in E1. cbn. rewrite (proj2 (Z.leb_gt _ _)) by done.
    destruct l; [destruct (a_ready a)|]; auto. }
  left. apply Z.ltb_ge in E1. destruct (a_ret a =? 0) eqn:E2.
  { apply Z.eqb_eq in E2. rewrite E2. done. }
  apply Z.eqb_neq in E2. rewrite (proj2 (Z.ltb_lt (a_ret a) 0)) by lia.
  destruct (a_errno a =? EAGAIN), (a_ready a); cbn; try done.
  rewrite (proj2 (Z.leb_le (a_ret a) 0)), (proj2 (Z.ltb_lt (a_ret a) 0)) by lia. done.
Qed.

Lemma read_exact_simulated script n stream ok got stream' rest :
  read_exact script n stream = Some (ok, got, stream', rest) ->
  exists ios, recv_all ios n stream = Some (ok, got, stream', []).
Proof.
  revert n stream ok got stream' rest. induction script as [|a script IH]; intros [|n] stream ok got stream' rest;
    cbn -[read_step]; try (intros [= <- <- <- <-]; by exists []); try done.
  destruct (read_step_as_io a (S n) stream) as [E|[E _]].
  - rewrite E. destruct (recv_step (as_io a) (S n) stream) as [m| |] eqn:Er.
    + destruct (read_exact script _ _) as [[[[ok' got'] str'] rest']|] eqn:Hr; [|done].
      intros [= <- <- <- <-]. apply IH in Hr as [ios Hr]. exists (as_io a :: ios).
      cbn -[recv_step]. by rewrite Er, Hr.
    + intros [ios Hr]%IH. exists (as_io a :: ios). cbn -[recv_step]. by rewrite Er.
    + intros [= <- <- <- <-]. exists [as_io a]. cbn -[recv_step]. by rewrite Er.
  - rewrite E. intros [= <- <- <- <-]. by exists [mkIo 0 0 0].
Qed.

Lemma read_exact_ready script n stream : Forall (fun a => a_ready a = true) script ->
  option_map read_result (read_exact script n stream) = recv_all (map as_io script) n stream.
Proof.
  intros H. revert n stream. induction H as [|a script Ha _ IH]; intros [|n] stream; try done.
  cbn [map read_exact recv_all].
  destruct (read_step_as_io a (S n) stream) as [E|(_ & _ & E)]; [|congruence]. rewrite <- E.
  destruct (read_step a (S n) stream) as [m| |]; [|apply IH|done].
  rewrite <- (IH (S n - m)%nat (drop m stream)).
  by destruct (read_exact script (S n - m) (drop m stream)) as [[[[? ?] ?] ?]|].
Qed.

Lemma write_exact_prefix script buf ok w rest :
  write_exact script buf = Some (ok, w, rest) -> w `prefix_of` buf /\ (ok = true -> w = buf).
Proof.
  intros H. pose proof (write_exact_as_io script buf) as E. rewrite H in E. symmetry in E.
  by apply send_all_prefix in E.
Qed.

Lemma read_exact_exact script n stream ok got stream' rest :
  read_exact script n stream = Some (ok, got, stream', rest) ->
  stream = got ++ stream' /\ (length got <= n)%nat /\ (ok = true -> length got = n).
Proof. intros [ios H]%read_exact_simulated. by apply recv_all_exact in H. Qed.

(** A call that moves data or would block, on a descriptor that becomes ready in time. *)
Definition prompt (a : aio) : Prop :=
  a_ready a = true /\ (0 < a_ret a \/ (a_ret a < 0 /\ a_errno a = EAGAIN)).

#[export] Instance prompt_dec a : Decision (prompt a).
Proof. unfold prompt. apply _. Defined.

Definition amoves (script : list aio) : nat := moves (map as_io script).

Lemma prompt_benign a : prompt a -> benign (as_io a).
Proof.
  unfold prompt, benign, as_io. intros [-> [H|[H ->]]].
  - rewrite (proj2 (Z.ltb_lt _ _)) by done. simpl. lia.
  - rewrite (proj2 (Z.ltb_ge _ _)), (proj2 (Z.ltb_lt _ _)) by lia. simpl. lia.
Qed.

Lemma prompt_script script : Forall prompt script ->
  Forall (fun a => a_ready a = true) script /\ Forall benign (map as_io script).
Proof.
  intros H. split; [eapply List.Forall_impl, H; by intros a []|].
  apply Forall_map. eapply List.Forall_impl, H. apply prompt_benign.
Qed.

(** The answers left over are answers of the script. *)
Lemma read_exact_rest (P : aio -> Prop) script n stream ok got stream' rest :
  Forall P script -> read_exact script n stream = Some (ok, got, stream', rest) -> Forall P rest.
Proof.
  intros H. revert n stream ok got stream'. induction H as [|a script Ha Hs IH]; intros [|n] stream ok got stream';
    cbn -[read_step]; try (by intros [= <- <- <- <-]; auto).
  destruct (read_step a (S n) stream) as [m| |]; [|apply IH|by intros [= <- <- <- <-]].
  destruct (read_exact script _ _) as [[[[ok' got'] str'] rest']|] eqn:Hr; [|done].
  intros [= <- <- <- <-]. by eapply IH.
Qed.

Lemma write_exact_rest (P : aio -> Prop) script buf ok w rest :
  Forall P script -> write_exact script buf = Some (ok, w, rest) -> Forall P rest.
Proof.
  intros H. revert buf ok w. induction H as [|a script Ha Hs IH]; intros [|b buf] ok w;
    cbn -[write_step]; try (by intros [= <- <- <-]; auto).
  destruct (write_step a _) as [m| |]; [|apply IH|by intros [= <- <- <-]].
  destruct (write_exact script _) as [[[ok' w'] rest']|] eqn:Hr; [|done].
  intros [= <- <- <-]. by eapply IH.
Qed.

Lemma read_exact_live script n stream :
  Forall prompt script -> (n <= amoves script)%nat -> (n <= length stream)%nat ->
  exists rest, read_exact script n stream = Some (true, take n stream, drop n stream, rest) /\
    Forall prompt rest /\ (amoves script <= amoves rest + n)%nat.
Proof.
  intros Hp Hm Hl. destruct (prompt_script _ Hp) as [Hr Hb].
  destruct (recv_all_live (map as_io script) n stream Hb Hm Hl) as (ios & Hrun & _ & Hleft).
  rewrite <- (read_exact_ready script n stream Hr) in Hrun.
  destruct (read_exact script n stream) as [[[[ok got] str] rest]|] eqn:E; [|done].
  injection Hrun as -> -> -> <-. exists rest. split_and!; [done| |done]. by eapply read_exact_rest.
Qed.

Lemma write_exact_live script buf :
  Forall prompt script -> (length buf <= amoves script)%nat ->
  exists rest, write_exact script buf = Some (true, buf, rest) /\
    Forall prompt rest /\ (amoves script <= amoves rest + length buf)%nat.
Proof.
  intros Hp Hm. destruct (prompt_script _ Hp) as [_ Hb].
  destruct (send_all_live (map as_io script) buf Hb Hm) as (ios & Hrun & _ & Hleft).
  rewrite <- write_exact_as_io in Hrun.
  destruct (write_exact script buf) as [[[ok w] rest]|] eqn:E; [|done].
  injection Hrun as -> -> <-. exists rest. split_and!; [done| |done]. by eapply write_exact_rest.
Qed.

(** * Exchanges *)

(** The request at the front of a stream: there is one when the stream holds the whole
    frame its header announces and the size is admissible. *)
Definition request_in (stream : list Z) : option (list Z) :=
  let len := decode_u32 (take 4 stream) in
  if decide (4 <= length stream)%nat then
    if decide (len <= MAX_MESSAGE_SIZE /\ (4 + Z.to_nat len <= length stream)%nat)
    then Some (take (Z.to_nat len) (drop 4 stream)) else None
  else None.

Lemma request_in_frame req rest : Z.of_nat (length req) <= MAX_MESSAGE_SIZE ->
  request_in (frame req ++ rest) = Some req.
Proof.
  intros H. unfold request_in, frame. rewrite <- (assoc_L (++)), !length_app.
  change (length (encode_u32 _)) with 4%nat. rewrite decide_True by lia.
  rewrite take_app_length' by done. rewrite drop_app_length' by done.
  rewrite frame_header, Nat2Z.id by done. rewrite decide_True by (split; [done|lia]).
  by rewrite take_app_length.
Qed.

Lemma read_whole script n stream ok got stream' rest :
  read_exact script n stream = Some (ok, got, stream', rest) -> ok = true ->
  got = take n stream /\ stream' = drop n stream /\ (n <= length stream)%nat.
Proof.
  intros (-> & _ & Hl)%read_exact_exact Hok. specialize (Hl Hok). subst n.
  rewrite take_app_length, drop_app_length, length_app. split_and!; [done..|lia].
Qed.

Lemma read_payload_whole script len stream ok got stream' rest :
  read_payload script len stream = Some (ok, got, stream', rest) -> ok = true ->
  got = take (Z.to_nat len) stream /\ (Z.to_nat len <= length stream)%nat.
Proof.
  unfold read_payload. destruct (len =? 0) eqn:E0.
  - apply Z.eqb_eq in E0. rewrite E0. intros [= <- <- <- <-] _. rewrite take_0. split; [done|simpl; lia].
  - intros Hr Hok. by apply read_whole in Hr as (-> & _ & Hn).
Qed.

Lemma read_payload_live script req rest : Forall prompt script -> (length req <= amoves script)%nat ->
  exists s str, read_payload script (Z.of_nat (length req)) (req ++ rest) = Some (true, req, str, s) /\
    Forall prompt s /\ (amoves script <= amoves s + length req)%nat.
Proof.
  intros Hp Hm. unfold read_payload. destruct (Z.of_nat (length req) =? 0) eqn:E0.
  - apply Z.eqb_eq in E0. destruct req; [|simpl in E0; lia]. exists script, rest. split_and!; [done|done|lia].
  - rewrite Nat2Z.id. destruct (read_exact_live script (length req) (req ++ rest)) as (s & -> & ? & ?);
      [done|lia|rewrite length_app; lia|]. rewrite take_app_length. by exists s, (drop (length req) (req ++ rest)).
Qed.

(** Whatever is written is the beginning of the answer to a complete request. *)
Lemma handle_connection_sound handler stopping script stream w :
  handle_connection handler stopping script stream = Some w ->
  w = [] \/ exists req, request_in stream = Some req /\ stopping = false /\ w `prefix_of` frame (handler req).
Proof.
  unfold handle_connection, request_in.
  destruct (read_exact script 4 stream) as [[[[ok hd] str] s1]|] eqn:H1; [|done]. cbn [mbind option_bind].
  destruct ok; [|intros [= <-]; by left]. apply read_whole in H1 as (-> & -> & Hl); [|done].
  rewrite decide_True by lia. set (len := decode_u32 _).
  destruct (len <=? MAX_MESSAGE_SIZE) eqn:Emax; [|intros [= <-]; by left]. apply Z.leb_le in Emax.
  destruct (read_payload s1 len _) as [[[[ok pl] str'] s2]|] eqn:H2; [|done]. cbn [mbind option_bind].
  destruct (ok && negb stopping) eqn:Eg; [|intros [= <-]; by left].
  apply andb_true_iff in Eg as [-> Est%negb_true_iff]. apply read_payload_whole in H2 as [-> Hlen]; [|done].
  rewrite length_drop in Hlen.
  rewrite decide_True by (split; [done|lia]). intros Hw. right. eexists. split_and!; [done..|]. revert Hw.
  set (req := take _ _). unfold frame. generalize (encode_u32 (u32 (Z.of_nat (length (handler req))))). intros h.
  destruct (write_exact s2 _) as [[[ok w1] s3]|] eqn:H3; [|done]. cbn [mbind option_bind].
  apply write_exact_prefix in H3 as [Hp Heq].
  destruct ok; [|intros [= <-]; by apply prefix_app_r]. rewrite (Heq eq_refl).
  destruct (write_exact s3 _) as [[[ok w2] s4]|] eqn:H4; [|done]. apply write_exact_prefix in H4 as [Hp2 _].
  intros [= <-]. by apply prefix_app.
Qed.

Lemma handle_connection_live handler script req rest :
  Z.of_nat (length req) <= MAX_MESSAGE_SIZE -> Forall prompt script ->
  (length (frame req) + length (frame (handler req)) <= amoves script)%nat ->
  handle_connection handler false script (frame req ++ rest) = Some (frame (handler req)).
Proof.
  intros Hmax Hp Hm. unfold handle_connection. rewrite !length_frame in Hm. unfold frame. rewrite <- (assoc_L (++)).
  destruct (read_exact_live script 4 (encode_u32 (u32 (Z.of_nat (length req))) ++ req ++ rest))
    as (s1 & -> & Hp1 & Hm1); [done|lia|rewrite length_app; simpl; lia|].
  cbn [mbind option_bind]. rewrite take_app_length' by done. rewrite drop_app_length' by done.
  rewrite frame_header by done. rewrite (proj2 (Z.leb_le _ _)) by done.
  destruct (read_payload_live s1 req rest) as (s2 & str' & -> & Hp2 & Hm2); [done|lia|].
  cbn [mbind option_bind andb negb].
  destruct (write_exact_live s2 (encode_u32 (u32 (Z.of_nat (length (handler req)))))) as (s3 & -> & Hp3 & Hm3);
    [done|simpl; lia|]. cbn [mbind option_bind]. change (length (encode_u32 _)) with 4%nat in Hm3.
  destruct (write_exact_live s3 (handler req)) as (s4 & -> & _ & _); [done|lia|]. done.
Qed.

(** C29: the coroutine server answers exactly the requests of the wire format of
    [TcpTransport].  Whatever the kernel does, a connection is answered only if the client
    sent a whole frame of admissible size before the server was stopping, and what is
    written is the beginning of the framed answer to that request; when the transfers do
    not break it is the whole of it, for every fragmentation. *)
Theorem async_server_answers handler stopping script stream :
  (forall w, handle_connection handler stopping script stream = Some w ->
     w = [] \/ exists req, request_in stream = Some req /\ stopping = false /\
                 w `prefix_of` frame (handler req)) /\
  (forall req rest, stream = frame req ++ rest -> Z.of_nat (length req) <= MAX_MESSAGE_SIZE ->
     request_in stream = Some req /\
     (stopping = false -> Forall prompt script ->
      (length (frame req) + length (frame (handler req)) <= amoves script)%nat ->
      handle_connection handler stopping script stream = Some (frame (handler req)))).
Proof.
  split; [apply handle_connection_sound|]. intros req rest -> Hmax.
  split; [by apply request_in_frame|]. intros ->. by apply handle_connection_live.
Qed.

(** Three requests on one stream, delivered two bytes at a time with a wait in between. *)
Definition echo (l : list Z) : list Z := reverse l.
Definition slow : list aio := mkAio (-1) EAGAIN true :: replicate 20 (mkAio 2 0 true).

Lemma async_server_answers_witness :
  handle_connection echo false slow (frame [1; 2; 3] ++ [9; 9]) = Some (frame [3; 2; 1]) /\
  handle_connection echo true slow (frame [1; 2; 3]) = Some [] /\
  handle_connection echo false [mkAio 4 0 true; mkAio 0 0 true] (frame [1; 2; 3]) = Some [].
Proof.
  split; [|split; vm_compute; reflexivity].
  destruct (async_server_answers echo false slow (frame [1; 2; 3] ++ [9; 9])) as [_ H].
  destruct (H [1; 2; 3] [9; 9]) as [_ Hlive]; [reflexivity|vm_compute; congruence|].
  apply Hlive; [reflexivity|decide_now|apply Nat.leb_le; vm_compute; reflexivity].
Defined.

(** * Descriptors and the life of the server *)

(** What the user's thread, the accept coroutine and the connections do, one access at a
    time.  The kernel answers [::socket] and [accept4] with descriptors that are not open; the
    accept coroutine runs on the reactor's thread, and starts a connection before it accepts
    the next. *)
Inductive async_step (strerror : Z -> string) : AsyncTransport -> AsyncTransport -> Prop :=
  | ast_listen e t : as_stop_at t = NoStop -> le_socket e ∉ as_open t ->
      async_step strerror t (async_listen strerror e t).2
  | ast_serve epoll_ok t : as_stop_at t = NoStop -> async_step strerror t (async_serve epoll_ok t).2
  | ast_accept fd t : as_reactor_running t = true -> as_fresh t = None -> 0 <= fd -> fd ∉ as_open t ->
      async_step strerror t (connection_accepted fd t)
  | ast_open t t' : connection_opened t = Some t' -> async_step strerror t t'
  | ast_close fd t : fd ∈ as_conns t -> async_step strerror t (connection_closed fd t)
  | ast_end t t' : connection_ended t = Some t' -> async_step strerror t t'
  | ast_stop late t t' : stop_next late t = Some t' -> async_step strerror t t'.

(** The descriptors of connections. *)
Definition conn_fds (t : AsyncTransport) : gset Z := from_option singleton ∅ (as_fresh t) ∪ as_conns t.

Record async_inv (t : AsyncTransport) : Prop := {
  ai_open : as_open t = held (as_server_fd t) ∪ conn_fds t;
  ai_apart : as_server_fd t ∉ conn_fds t;
  ai_fresh : forall fd, as_fresh t = Some fd -> as_reactor_running t = true /\ fd ∉ as_conns t;
  ai_fds : forall fd, fd ∈ conn_fds t -> 0 <= fd;
  ai_active : as_active t = Z.of_nat (size (as_conns t) + as_closing t);
  ai_wait : as_stop_at t = WaitActive -> as_reactor_running t = false
}.

Lemma async_inv_new : async_inv new_async.
Proof. split; cbn; set_solver. Qed.

Lemma async_inv_server t fd o : async_inv t -> fd ∉ conn_fds t -> o = held fd ∪ conn_fds t ->
  async_inv (async_with_server t fd o).
Proof. intros [] ? ->. by split. Qed.

Lemma async_inv_listen strerror e t : async_inv t -> le_socket e ∉ as_open t ->
  async_inv (async_listen strerror e t).2.
Proof.
  intros I Hf. unfold async_listen. destruct (as_server_fd t >=? 0) eqn:Es; [done|].
  rewrite Z.geb_leb in Es. apply Z.leb_gt in Es. pose proof I as [Ho Ha _ Hp _ _].
  assert (-1 ∉ conn_fds t) by (intros H%Hp; lia).
  assert (as_open t = conn_fds t) as Eo by (rewrite Ho; unfold held; rewrite (proj2 (Z.ltb_lt _ _)) by done; set_solver).
  rewrite Eo in *. unfold sys_open. destruct (le_socket e <? 0) eqn:E.
  - simpl. apply async_inv_server; [done|done|]. unfold held. rewrite E. set_solver.
  - assert (async_inv (async_with_server t (-1) (({[le_socket e]} ∪ conn_fds t) ∖ {[le_socket e]}))).
    { apply async_inv_server; [done|done|]. simpl. set_solver. }
    destruct (le_bind e <? 0); [done|]. destruct (le_listen e <? 0); [done|].
    simpl. apply async_inv_server; [done|done|]. unfold held. by rewrite E.
Qed.

Lemma async_inv_stop late t t' : async_inv t -> stop_next late t = Some t' -> async_inv t'.
Proof.
  intros I. pose proof I as [Ho Ha Hr Hp Hn Hw]. unfold stop_next. destruct (as_stop_at t) eqn:Es.
  - destruct (as_stopping t); [done|]. intros [= <-]. by split.
  - intros [= <-]. destruct (as_fresh t) eqn:Ef; [done|]. unfold with_stop. split; cbn; rewrite ?Ef; try done.
    + unfold conn_fds in *. by rewrite Ef in Ho.
    + unfold conn_fds in *. by rewrite Ef in Ha.
    + intros fd. unfold conn_fds in *. rewrite Ef in Hp. apply Hp.
  - destruct (_ && _); [by intros [= <-]|]. intros [= <-].
    assert (async_inv (with_stop t (as_stopping t) (as_reactor_running t) NoStop)) as I' by by split.
    cbn [as_server_fd with_stop]. destruct (as_server_fd t >=? 0) eqn:E; [|done].
    rewrite Z.geb_leb in E. apply Z.leb_le in E. apply async_inv_server; [done|intros H%Hp; lia|].
    cbn. rewrite Ho. unfold held. rewrite (proj2 (Z.ltb_ge _ _)) by done. cbn.
    change (conn_fds (with_stop _ _ _ _)) with (conn_fds t). set_solver.
Qed.

Lemma async_inv_accepted fd t : async_inv t -> as_reactor_running t = true -> as_fresh t = None -> 0 <= fd ->
  fd ∉ as_open t -> async_inv (connection_accepted fd t).
Proof.
  intros [Ho Ha Hr Hp Hn Hw] Hrun Ef Hfd Hnew. rewrite Ho in Hnew. unfold conn_fds in *. rewrite Ef in *. cbn in *.
  split; cbn; try done.
  - rewrite Ho. unfold conn_fds. cbn. set_solver.
  - unfold conn_fds. cbn. unfold held in Hnew. destruct (as_server_fd t <? 0) eqn:E; [apply Z.ltb_lt in E|set_solver].
    intros [H%elem_of_singleton|]%elem_of_union; [lia|set_solver].
  - intros x [= <-]. split; [done|set_solver].
  - unfold conn_fds. cbn. intros x [->%elem_of_singleton|Hx]%elem_of_union; [done|]. apply Hp. set_solver.
Qed.

Lemma async_inv_opened t t' : async_inv t -> connection_opened t = Some t' -> async_inv t'.
Proof.
  intros [Ho Ha Hr Hp Hn Hw]. unfold connection_opened. destruct (as_fresh t) as [fd|] eqn:Ef; [|done]. cbn.
  intros [= <-]. destruct (Hr fd eq_refl) as [_ Hnew]. unfold conn_fds in *. rewrite Ef in *. cbn in *.
  split; cbn; try done.
  - rewrite Ho. unfold conn_fds. cbn. set_solver.
  - unfold conn_fds. cbn. set_solver.
  - intros x Hx. apply Hp. unfold conn_fds in Hx. cbn in Hx. set_solver.
  - rewrite size_union, size_singleton by set_solver. lia.
Qed.

Lemma async_inv_closed fd t : async_inv t -> fd ∈ as_conns t -> async_inv (connection_closed fd t).
Proof.
  intros [Ho Ha Hr Hp Hn Hw] Hin. unfold conn_fds in *. split; cbn; try done.
  - rewrite Ho. unfold conn_fds, held. cbn. assert (fd <> as_server_fd t) by (intros ->; set_solver).
    assert (fd ∉ from_option singleton (∅ : gset Z) (as_fresh t)).
    { destruct (as_fresh t) as [x|] eqn:Ef; [|set_solver]. destruct (Hr x eq_refl). cbn. set_solver. }
    destruct (as_server_fd t <? 0); set_solver.
  - unfold conn_fds. cbn. set_solver.
  - intros x Hx. destruct (Hr x Hx). split; [done|set_solver].
  - intros x Hx. apply Hp. unfold conn_fds in Hx. cbn in Hx. set_solver.
  - rewrite size_difference, size_singleton by set_solver.
    assert (size (as_conns t) <> 0%nat) by (intros H%size_empty_inv; set_solver). lia.
Qed.

Lemma async_inv_step strerror t t' : async_inv t -> async_step strerror t t' -> async_inv t'.
Proof.
  intros I H. revert I. destruct H as [e t _ Hf|ok t Hn|fd t|t t' Hs|fd t Hc|t t' Hs|late t t' Hs]; intros I.
  - by apply async_inv_listen.
  - unfold async_serve. destruct (_ || _) eqn:E; [done|]. apply orb_false_iff in E as [_ E]. destruct I as [? ? Hr ? ? ?].
    split; cbn; try done; [|by rewrite Hn]. intros fd Hfd. destruct (Hr fd Hfd). congruence.
  - by apply async_inv_accepted.
  - by eapply async_inv_opened.
  - by apply async_inv_closed.
  - unfold connection_ended in Hs. destruct (as_closing t) eqn:E; [done|]. injection Hs as <-. destruct I as [? ? ? ? Ha ?].
    split; cbn; try done. lia.
  - by eapply async_inv_stop.
Qed.

(** C31: the server never loses or doubly closes a descriptor.  At every moment the open
    descriptors are the listening socket, the connection just accepted, if any, and those of
    the connections in progress; [active_connections_] counts the connections in progress and
    those that have closed their descriptor and not yet said so.  When [stop_serving] is done
    only connections that outlived its two seconds are still open, and none when it did not
    time out. *)
Theorem async_descriptors_never_leak strerror t :
  rtc (async_step strerror) new_async t ->
  as_open t = held (as_server_fd t) ∪ conn_fds t /\ as_server_fd t ∉ conn_fds t /\
  as_active t = Z.of_nat (size (as_conns t) + as_closing t) /\
  (forall late t', as_stop_at t = WaitActive -> stop_next late t = Some t' -> as_stop_at t' = NoStop ->
     as_server_fd t' < 0 /\ as_open t' = as_conns t /\ (late = false -> as_open t' = ∅)).
Proof.
  intros H. assert (async_inv t) as I.
  { eapply (rtc_preserve async_inv), async_inv_new; [|exact H]. intros; by eapply async_inv_step. }
  pose proof I as [Ho Ha Hr Hp Hn Hwt]. split_and!; [done..|]. intros late t' Hw Hs Hd.
  destruct (async_inv_stop _ _ _ I Hs) as [Ho' _ _ _ _ _]. revert Hs. unfold stop_next. rewrite Hw.
  destruct ((0 <? as_active t) && negb late) eqn:Eg; [intros [= ->]; congruence|].
  assert (late = false -> as_conns t = ∅) as Hz.
  { intros ->. rewrite andb_true_r in Eg. apply Z.ltb_ge in Eg. apply leibniz_equiv, size_empty_inv. lia. }
  assert (conn_fds t = as_conns t) as Ec.
  { unfold conn_fds. destruct (as_fresh t) eqn:Ef; [|set_solver]. destruct (Hr _ eq_refl). rewrite Hwt in *; done. }
  intros [= Et]. assert (as_server_fd t' < 0 /\ conn_fds t' = as_conns t) as [Hneg Ec'].
  { rewrite <- Et. cbn [as_server_fd with_stop]. destruct (as_server_fd t >=? 0) eqn:E; (split; [|exact Ec]); [done|].
    rewrite Z.geb_leb in E. apply Z.leb_gt in E. exact E. }
  rewrite Ho', Ec'. unfold held. rewrite (proj2 (Z.ltb_lt _ _)) by done. split_and!; [done|set_solver|].
  intros Hl. rewrite Hz by done. set_solver.
Qed.

Definition no_error (_ : Z) : string := "error".
Definition port_ok : listen_env := mkListen 5 0 0 0 0 0.
Definition listening : AsyncTransport := (async_listen no_error port_ok new_async).2.
Definition accepting : AsyncTransport := connection_accepted 8 (async_serve true listening).2.
Definition one_client : AsyncTransport := default new_async (connection_opened accepting).

(** [stop_serving] with one connection in progress, which ends while it waits. *)
Definition draining : AsyncTransport :=
  default new_async (t ← stop_next false one_client; stop_next false t).
Definition drained : AsyncTransport := default new_async (connection_ended (connection_closed 8 draining)).

Lemma drained_reachable : rtc (async_step no_error) new_async drained.
Proof.
  apply (rtc_l _ _ listening); [apply ast_listen; [reflexivity|decide_now]|].
  apply (rtc_l _ _ (async_serve true listening).2); [by apply ast_serve|].
  apply (rtc_l _ _ accepting); [apply ast_accept; [reflexivity..|lia|decide_now]|].
  apply (rtc_l _ _ one_client); [by apply ast_open|].
  eapply rtc_l; [by apply (ast_stop _ false)|]. apply (rtc_l _ _ draining); [by apply (ast_stop _ false)|].
  apply (rtc_l _ _ (connection_closed 8 draining)); [apply ast_close; decide_now|].
  apply rtc_once. by apply ast_end.
Qed.

Lemma async_descriptors_never_leak_witness :
  as_open one_client = {[5; 8]} /\ exists t, stop_next false drained = Some t /\ as_open t = ∅.
Proof.
  destruct (async_descriptors_never_leak no_error drained drained_reachable) as (_ & _ & _ & Hs).
  split; [vm_compute; reflexivity|]. eexists. split; [reflexivity|].
  apply (Hs false); [reflexivity..|]. reflexivity.
Defined.

(** [stop_serving] runs once: an object that listens again after it has been stopped keeps
    its socket when it is destroyed. *)
Lemma relisten_leaks :
  exists t1 t2, stop_next false listening = Some t1 /\ stop_next false t1 = Some t2 /\
  exists t3, stop_next false t2 = Some t3 /\ as_open t3 = ∅ /\
    let t4 := (async_listen no_error port_ok t3).2 in as_open t4 = {[5]} /\ stop_next false t4 = None.
Proof. do 2 eexists. split; [reflexivity|]. split; [reflexivity|]. eexists. repeat split. Qed.

(** Without an epoll instance [serve] does not come back: every wait is refused at once. *)
Lemma serve_spins fd attempts :
  Forall (fun a => a.1 = false) attempts ->
  accept_until_parked fd attempts (start false new_reactor) = None.
Proof. induction 1 as [|[b now] l Hb _ IH]; [done|]. simpl in Hb. subst b. exact IH. Qed.
