(* ===== verification/Coroutine.v ===== *)
(** [core/async.hpp]: the coroutine types [Async<T>] and [DetachedTask].

    The body of a coroutine is a tree of what it does next.  Its meaning is direct-style
    evaluation, [eval], in which awaiting a child is calling it.  The machine is what the
    promise types make of it: frames on a heap, a continuation handle in each promise, and
    control that moves by symmetric transfer.  The theorem is that the machine implements
    [eval] and leaves no frame behind. *)

From Stdlib Require Import Lia.
From stdpp Require Import base gmap relations list.
From S2P Require Import Prelude.

Section coroutines.
(** The values of [Async<T>], exceptions, the calls a body makes between suspensions with
    their answers, and what it waits for. *)
Context {T X A R W : Type}.

Abbreviation co_outcome := (T + X)%type.

Inductive body :=
  | CoReturn (v : T)
  | Throw (e : X)
  | Act (a : A) (k : R -> body)
  | Park (w : W) (k : bool -> body)                 (** [co_await] of an awaitable that suspends *)
  | Await (child : body) (k : co_outcome -> body)      (** [co_await] of an [Async<T>] *)
  | Unfolded.                                       (** a loop not unfolded further *)

(** The world answers the calls and the waits; [None] while it has not. *)
Context {S : Type} (act : A -> S -> option (R * S)) (ready : W -> S -> option (bool * S)).

(** * Direct style *)

Fixpoint eval (b : body) (s : S) : option (co_outcome * S) :=
  match b with
  | CoReturn v => Some (inl v, s)
  | Throw e => Some (inr e, s)
  | Act a k => '(r, s) ← act a s; eval (k r) s
  | Park w k => '(ok, s) ← ready w s; eval (k ok) s
  | Await child k => '(o, s) ← eval child s; eval (k o) s
  | Unfolded => None
  end.

(** * The machine *)

Abbreviation handle := nat.

(** Where a frame is suspended, or what it runs. *)
Inductive code :=
  | Runs (b : body)
  | Parked (w : W) (k : bool -> body)
  | Awaits (child : handle) (k : co_outcome -> body)   (** about to call [await_resume] *)
  | AtFinal.                                        (** suspended in [FinalAwaiter] *)

(** [promise_type]; a detached frame has neither value nor continuation. *)
Record co_frame := mkFrame {
  f_code : code;
  value : option T;
  exception : option X;
  continuation : option handle;
  detached : bool
}.

Inductive control :=
  | Running (h : handle)
  | Suspended (h : handle)          (** returned to the resumer; [h] is parked *)
  | Returned                        (** returned to the resumer; nothing left to resume *)
  | Terminated.                     (** [std::terminate] *)

Record machine := mkMachine { frames : gmap handle co_frame; fresh : handle; at_ : control; world : S }.

Definition with_code (f : co_frame) (c : code) : co_frame :=
  mkFrame c (value f) (exception f) (continuation f) (detached f).

Definition set_code (h : handle) (f : co_frame) (c : code) (m : machine) : gmap handle co_frame :=
  <[h := with_code f c]> (frames m).

(** [get_return_object] with [initial_suspend]: a frame that has not started. *)
Definition new_frame (b : body) (is_detached : bool) : co_frame := mkFrame (Runs b) None None None is_detached.

(** [co_return] and an exception that leaves the body, up to the final suspension:
    [FinalAwaiter] resumes the awaiter, a detached frame destroys itself. *)
Definition co_finish (h : handle) (f : co_frame) (o : co_outcome) (m : machine) : machine :=
  if detached f then
    match o with
    | inl _ => mkMachine (delete h (frames m)) (fresh m) Returned (world m)
    | inr _ => mkMachine (frames m) (fresh m) Terminated (world m)
    end
  else
    let f' := mkFrame AtFinal (match o with inl v => Some v | inr _ => value f end)
                (match o with inl _ => exception f | inr e => Some e end) (continuation f) false in
    mkMachine (<[h := f']> (frames m)) (fresh m)
      (match continuation f with Some c => Running c | None => Returned end) (world m).

(** [await_resume]: the exception if there is one, otherwise the value. *)
Definition await_resume (f : co_frame) : option co_outcome :=
  match exception f with
  | Some e => Some (inr e)
  | None => inl <$> value f
  end.

(** One step of the thread that runs coroutine [h].  Awaiting a child creates its frame,
    stores the continuation and transfers; resuming from it reads the promise and destroys
    the frame, the [Async] temporary being at the end of its life. *)
Definition run_step (h : handle) (f : co_frame) (m : machine) : option machine :=
  match f_code f with
  | Runs (CoReturn v) => Some (co_finish h f (inl v) m)
  | Runs (Throw e) => Some (co_finish h f (inr e) m)
  | Runs (Act a k) =>
      '(r, s) ← act a (world m); Some (mkMachine (set_code h f (Runs (k r)) m) (fresh m) (at_ m) s)
  | Runs (Park w k) => Some (mkMachine (set_code h f (Parked w k) m) (fresh m) (Suspended h) (world m))
  | Runs (Await child k) =>
      let c := fresh m in
      let child_frame := mkFrame (Runs child) None None (Some h) false in
      Some (mkMachine (<[c := child_frame]> (set_code h f (Awaits c k) m)) (c + 1) (Running c) (world m))
  | Awaits c k =>
      child ← frames m !! c; o ← await_resume child;
      Some (mkMachine (delete c (set_code h f (Runs (k o)) m)) (fresh m) (at_ m) (world m))
  | Runs Unfolded | Parked _ _ | AtFinal => None
  end.

(** A parked coroutine is resumed by whoever its awaiter registered it with. *)
Definition co_next (m : machine) : option machine :=
  match at_ m with
  | Running h => f ← frames m !! h; run_step h f m
  | Suspended h =>
      f ← frames m !! h;
      match f_code f with
      | Parked w k =>
          '(ok, s) ← ready w (world m);
          Some (mkMachine (set_code h f (Runs (k ok)) m) (fresh m) (Running h) s)
      | _ => None
      end
  | Returned | Terminated => None
  end.

Fixpoint co_run (n : nat) (m : machine) : option machine :=
  match n with
  | O => Some m
  | Datatypes.S n' => m' ← co_next m; co_run n' m'
  end.

(** A [DetachedTask] starts at once. *)
Definition co_spawn (b : body) (s : S) : machine :=
  mkMachine {[0%nat := new_frame b true]} 1%nat (Running 0%nat) s.

(** * The machine implements direct style *)

Lemma co_run_app n k m m' : co_run n m = Some m' -> co_run (n + k) m = co_run k m'.
Proof.
  revert m. induction n as [|n IH]; intros m; cbn; [by intros [= ->]|].
  destruct (co_next m) as [m1|]; [|done]. apply IH.
Qed.

Lemma co_run_step m m' k m'' : co_next m = Some m' -> co_run k m' = Some m'' ->
  co_run (Datatypes.S k) m = Some m''.
Proof. intros H1 H2. cbn. by rewrite H1. Qed.

(** What running a frame to its end looks like just before the final suspension: only its
    own code has changed. *)
Definition final_code (o : co_outcome) : code :=
  Runs (match o with inl v => CoReturn v | inr e => Throw e end).

(** The frame of [h] runs [b] and every later handle is unused. *)
Record co_running (h : handle) (f : co_frame) (b : body) (m : machine) : Prop := {
  run_at : at_ m = Running h;
  run_frame : frames m !! h = Some (with_code f (Runs b));
  run_fresh : forall c, fresh m <= c -> frames m !! c = None
}.

Lemma running_lt h f b m : co_running h f b m -> h < fresh m.
Proof.
  intros [_ Hf Hn]. destruct (decide (h < fresh m)) as [|Hge]; [done|].
  rewrite Hn in Hf by lia. done.
Qed.

(** The frames after [h] has moved on to other code, its children gone. *)
Definition co_moved (h : handle) (f : co_frame) (c : code) (m m' : machine) (s : S) : Prop :=
  frames m' = <[h := with_code f c]> (frames m) /\ fresh m <= fresh m' /\ at_ m' = Running h /\ world m' = s.

Lemma running_moved h f b b' m m' s : co_running h f b m -> co_moved h f (Runs b') m m' s -> co_running h f b' m'.
Proof.
  intros H (E & Hle & Ha & _). pose proof (running_lt _ _ _ _ H). destruct H as [H1 H2 H3].
  split; [done|by rewrite E, lookup_insert_eq|].
  intros c Hc. rewrite E, lookup_insert_ne by lia. apply H3. lia.
Qed.

Lemma moved_trans h f c c' m m' m'' s s' :
  co_moved h f c m m' s -> co_moved h f c' m' m'' s' -> co_moved h f c' m m'' s'.
Proof.
  intros (E & Hle & _ & _) (E' & Hle' & Ha & Hw). split_and!; [|lia|done|done].
  by rewrite E', E, insert_insert_eq.
Qed.
Lemma run_act h f a k m r s : co_running h f (Act a k) m -> act a (world m) = Some (r, s) ->
  exists m', co_next m = Some m' /\ co_moved h f (Runs (k r)) m m' s.
Proof.
  intros [Ha Hf _] E. unfold co_next. rewrite Ha, Hf. cbn. rewrite E. eexists. split; [done|].
  by split_and!.
Qed.

Lemma run_suspend h f w k m : co_running h f (Park w k) m ->
  co_next m = Some (mkMachine (<[h := with_code f (Parked w k)]> (frames m)) (fresh m) (Suspended h) (world m)).
Proof. intros [Ha Hf _]. unfold co_next. by rewrite Ha, Hf. Qed.

Lemma run_park h f w k m ok s : co_running h f (Park w k) m -> ready w (world m) = Some (ok, s) ->
  exists m', co_run 2 m = Some m' /\ co_moved h f (Runs (k ok)) m m' s.
Proof.
  intros H E. eexists. split.
  - eapply co_run_step; [by apply run_suspend|]. cbn. unfold co_next. cbn. rewrite lookup_insert_eq. cbn.
    by rewrite E.
  - split_and!; [|done..]. cbn. unfold set_code. cbn. by rewrite insert_insert_eq.
Qed.

(** The child's frame, and the parent suspended on it. *)
Definition child_frame (h : handle) (b : body) : co_frame := mkFrame (Runs b) None None (Some h) false.

Lemma run_await h f child k m : co_running h f (Await child k) m ->
  exists m', co_next m = Some m' /\ world m' = world m /\ fresh m < fresh m' /\
    co_running (fresh m) (child_frame h child) child m' /\
    frames m' = <[fresh m := child_frame h child]> (<[h := with_code f (Awaits (fresh m) k)]> (frames m)).
Proof.
  intros H. pose proof (running_lt _ _ _ _ H). destruct H as [Ha Hf Hn].
  unfold co_next. rewrite Ha, Hf. cbn. eexists. split; [done|]. split_and!; [done|cbn; lia| |done].
  split; [done|by cbn; rewrite lookup_insert_eq|]. intros c Hc. cbn in *. unfold set_code.
  rewrite !lookup_insert_ne by lia. apply Hn. lia.
Qed.

(** The child has ended: its outcome reaches the parent and its frame is gone. *)
Lemma run_resume h f child k m m1 m2 o s :
  co_running h f (Await child k) m -> fresh m < fresh m1 ->
  frames m1 = <[fresh m := child_frame h child]> (<[h := with_code f (Awaits (fresh m) k)]> (frames m)) ->
  co_moved (fresh m) (child_frame h child) (final_code o) m1 m2 s ->
  exists m', co_run 2 m2 = Some m' /\ co_moved h f (Runs (k o)) m m' s.
Proof.
  intros H Hlt E1 (E2 & Hle & Ha & Hw). pose proof (running_lt _ _ _ _ H). destruct H as [_ Hf Hn].
  rewrite E1, insert_insert_eq in E2.
  assert (forall o, run_step (fresh m) (with_code (child_frame h child) (final_code o)) m2
            = Some (co_finish (fresh m) (with_code (child_frame h child) (final_code o)) o m2)) as Hfin by by intros [].
  assert (co_next m2 = Some (co_finish (fresh m) (with_code (child_frame h child) (final_code o)) o m2)) as H1.
  { unfold co_next. rewrite Ha, E2, lookup_insert_eq. apply Hfin. }
  assert (forall v e,
    await_resume (mkFrame AtFinal (match o with inl v => Some v | inr _ => None end)
      (match o with inl _ => None | inr e => Some e end) v e) = Some o) as Hres by by destruct o.
  eexists. split.
  { eapply co_run_step; [done|]. cbn. unfold co_next. cbn. rewrite E2, insert_insert_eq.
    rewrite lookup_insert_ne, lookup_insert_eq by lia. cbn. rewrite lookup_insert_eq. cbn.
    rewrite Hres. done. }
  split_and!; [|cbn; lia|done|done]. cbn. unfold set_code. cbn. apply map_eq. intros c. destruct (decide (c = fresh m)) as [->|Hc].
  - rewrite lookup_delete_eq, lookup_insert_ne by lia. symmetry. by apply Hn.
  - rewrite lookup_delete_ne by done. destruct (decide (c = h)) as [->|Hh].
    + by rewrite !lookup_insert_eq.
    + by rewrite !lookup_insert_ne by done.
Qed.

Lemma eval_runs b : forall h f m o s', co_running h f b m -> eval b (world m) = Some (o, s') ->
  exists n m', co_run n m = Some m' /\ co_moved h f (final_code o) m m' s'.
Proof.
  induction b as [v|e|a k IH|w k IH|child IHc k IH|]; intros h f m o s' H; cbn [eval].
  - intros [= <- <-]. exists 0, m. split; [done|]. destruct H. split_and!; [by rewrite insert_id|lia|done..].
  - intros [= <- <-]. exists 0, m. split; [done|]. destruct H. split_and!; [by rewrite insert_id|lia|done..].
  - intros ([r s] & Ha & He)%bind_Some. destruct (run_act _ _ _ _ _ _ _ H Ha) as (m1 & H1 & M1).
    assert (world m1 = s) as <- by apply M1.
    destruct (IH r h f m1 o s') as (n & m' & Hn & M); [by eapply running_moved|done|].
    exists (Datatypes.S n), m'. split; [by eapply co_run_step|by eapply moved_trans].
  - intros ([ok s] & Ha & He)%bind_Some. destruct (run_park _ _ _ _ _ _ _ H Ha) as (m1 & H1 & M1).
    assert (world m1 = s) as <- by apply M1.
    destruct (IH ok h f m1 o s') as (n & m' & Hn & M); [by eapply running_moved|done|].
    exists (2 + n), m'. split; [by rewrite (co_run_app _ _ _ _ H1)|by eapply moved_trans].
  - intros ([o1 s1] & Hc & He)%bind_Some.
    destruct (run_await _ _ _ _ _ H) as (m1 & H1 & Hw & Hlt & R1 & E1). rewrite <- Hw in Hc.
    destruct (IHc _ _ _ _ _ R1 Hc) as (n1 & m2 & H2 & M2).
    destruct (run_resume _ _ _ _ _ _ _ _ _ H Hlt E1 M2) as (m3 & H3 & M3).
    assert (world m3 = s1) as <- by apply M3.
    destruct (IH o1 h f m3 o s') as (n & m' & Hn & M); [by eapply running_moved|done|].
    exists (Datatypes.S (n1 + (2 + n))), m'. split; [|by eapply moved_trans].
    eapply co_run_step; [done|]. rewrite (co_run_app _ _ _ _ H2). by rewrite (co_run_app _ _ _ _ H3).
  - done.
Qed.

(** The thread, or the parked coroutine, waits for the world. *)
Definition waiting (m : machine) : Prop :=
  co_next m = None /\ exists h, at_ m = Running h \/ at_ m = Suspended h.

Lemma eval_waits b : forall h f m, co_running h f b m -> eval b (world m) = None ->
  exists n m', co_run n m = Some m' /\ waiting m'.
Proof.
  induction b as [v|e|a k IH|w k IH|child IHc k IH|]; intros h f m H; cbn [eval]; [done..| | | |].
  - destruct (act a (world m)) as [[r s]|] eqn:Ha; cbn [mbind option_bind].
    + intros He. destruct (run_act _ _ _ _ _ _ _ H Ha) as (m1 & H1 & M1).
      assert (world m1 = s) as <- by apply M1.
      destruct (IH r h f m1) as (n & m' & Hn & M); [by eapply running_moved|done|].
      exists (Datatypes.S n), m'. split; [by eapply co_run_step|done].
    + intros _. destruct H as [Hat Hf _]. exists 0, m. split; [done|]. split; [|by exists h; left].
      unfold co_next. rewrite Hat, Hf. cbn. by rewrite Ha.
  - destruct (ready w (world m)) as [[ok s]|] eqn:Ha; cbn [mbind option_bind].
    + intros He. destruct (run_park _ _ _ _ _ _ _ H Ha) as (m1 & H1 & M1).
      assert (world m1 = s) as <- by apply M1.
      destruct (IH ok h f m1) as (n & m' & Hn & M); [by eapply running_moved|done|].
      exists (2 + n), m'. split; [by rewrite (co_run_app _ _ _ _ H1)|done].
    + intros _. eexists 1, _. split; [by eapply co_run_step; [by apply run_suspend|]|].
      split; [|exists h; by right]. unfold co_next. cbn. rewrite lookup_insert_eq. cbn. by rewrite Ha.
  - destruct (run_await _ _ _ _ _ H) as (m1 & H1 & Hw & Hlt & R1 & E1).
    destruct (eval child (world m)) as [[o1 s1]|] eqn:Hc; cbn [mbind option_bind]; rewrite <- Hw in Hc.
    + intros He. destruct (eval_runs _ _ _ _ _ _ R1 Hc) as (n1 & m2 & H2 & M2).
      destruct (run_resume _ _ _ _ _ _ _ _ _ H Hlt E1 M2) as (m3 & H3 & M3).
      assert (world m3 = s1) as <- by apply M3.
      destruct (IH o1 h f m3) as (n & m' & Hn & M); [by eapply running_moved|done|].
      exists (Datatypes.S (n1 + (2 + n))), m'. split; [|done].
      eapply co_run_step; [done|]. rewrite (co_run_app _ _ _ _ H2). by rewrite (co_run_app _ _ _ _ H3).
    + intros _. destruct (IHc _ _ _ R1 Hc) as (n & m' & Hn & M).
      exists (Datatypes.S n), m'. split; [by eapply co_run_step|done].
  - intros _. destruct H as [Hat Hf _]. exists 0, m. split; [done|]. split; [|by exists h; left].
    unfold co_next. by rewrite Hat, Hf.
Qed.

Lemma machine_evaluates b s :
  match eval b s with
  | Some (inl v, s') => exists n m, co_run n (co_spawn b s) = Some m /\ at_ m = Returned /\ frames m = ∅ /\ world m = s'
  | Some (inr e, s') => exists n m, co_run n (co_spawn b s) = Some m /\ at_ m = Terminated /\ world m = s'
  | None => exists n m, co_run n (co_spawn b s) = Some m /\ waiting m
  end.
Proof.
  assert (co_running 0 (new_frame b true) b (co_spawn b s)) as H.
  { split; [done|by cbn; rewrite lookup_singleton_eq|]. intros c Hc. cbn in *. by rewrite lookup_singleton_ne by lia. }
  destruct (eval b s) as [[o s']|] eqn:E; [|by eapply eval_waits].
  destruct (eval_runs b 0 _ _ o s' H E) as (n & m & Hn & Em & _ & Ha & Hw).
  assert (frames m = {[0 := with_code (new_frame b true) (final_code o)]}) as Ef.
  { rewrite Em. cbn. apply insert_singleton_eq. }
  assert (co_next m = Some (co_finish 0 (with_code (new_frame b true) (final_code o)) o m)) as Hfin.
  { unfold co_next. rewrite Ha, Ef, lookup_singleton_eq. by destruct o. }
  assert (co_run (n + 1) (co_spawn b s) = Some (co_finish 0 (with_code (new_frame b true) (final_code o)) o m)) as Hrun.
  { rewrite (co_run_app _ _ _ _ Hn). cbn. by rewrite Hfin. }
  destruct o; eexists _, _; (split; [exact Hrun|]); cbn; [|done].
  rewrite Ef. split_and!; [done|apply delete_singleton_eq|done].
Qed.
(** C30: the coroutine types implement direct style.  A detached coroutine, with whatever
    children it awaits, performs exactly the calls and waits of its direct-style reading; if
    that returns, the machine returns with every frame destroyed and the world in the same
    state; if an exception leaves the body, the program terminates there; and if the
    world has not answered, the machine waits for it.  In each case after finitely many
    steps. *)
Theorem coroutines_are_direct_style b s :
  match eval b s with
  | Some (inl v, s') => exists n m, co_run n (co_spawn b s) = Some m /\ at_ m = Returned /\ frames m = ∅ /\ world m = s'
  | Some (inr e, s') => exists n m, co_run n (co_spawn b s) = Some m /\ at_ m = Terminated /\ world m = s'
  | None => exists n m, co_run n (co_spawn b s) = Some m /\ waiting m
  end.
Proof. apply machine_evaluates. Qed.
End coroutines.
