(* ===== verification/AsyncCoroutines.v ===== *)
(** The coroutines of [network/async_transport.cpp] as bodies of [Coroutine]: the server's
    connection, run frame by frame by the promise types of [core/async.hpp], does what the
    functions of [AsyncTransport] say.

    Memory a child fills for its parent (the buffer of [read_exact]) travels with the value
    the child returns. *)

From Stdlib Require Import ZArith Lia.
From stdpp Require Import base gmap strings numbers pretty list.
From S2P Require Import Prelude Core Transport Reactor AsyncTransport Coroutine.

Local Open Scope Z_scope.

(** * What the bodies call and wait for *)

Inductive call :=
  | FetchAdd                       (** [active_connections_.fetch_add(1)] *)
  | Recv (len : nat)
  | Send (buf : list Z)
  | LoadStopping
  | CallHandler (payload : list Z)
  | ShutdownClose                  (** [shutdown] and [close] *)
  | FetchSub.                      (** [active_connections_.fetch_sub(1)] *)

Inductive answer :=
  | Unit
  | Bytes (l : list Z)             (** [recv] returned this many, zero at the end of the stream *)
  | Count (n : nat)                (** [send] accepted this many *)
  | Errno (e : Z)
  | Flag (b : bool)
  | Response (l : list Z).

Inductive wait := Readable | Writable | PoolHop.

Abbreviation co := (@body (bool * list Z) unit call answer wait).

(** * The bodies

    [fuel] bounds how often the loops are unfolded; one iteration uses up one answer. *)

Fixpoint read_exact_body (fuel len : nat) (got : list Z) : co :=
  match fuel with
  | O => Unfolded
  | S fuel' =>
      if decide (length got < len)%nat then
        Act (Recv (len - length got)) (fun n =>
          match n with
          | Bytes [] => CoReturn (false, got)
          | Bytes l => read_exact_body fuel' len (got ++ l)
          | Errno e =>
              if negb (e =? EAGAIN) then CoReturn (false, got)
              else Park Readable (fun ready =>
                     if ready then read_exact_body fuel' len got else CoReturn (false, got))
          | _ => Unfolded
          end)
      else CoReturn (true, got)
  end.

(** [buf] is what is still to be sent, [sent] what has been. *)
Fixpoint write_exact_body (fuel : nat) (buf sent : list Z) : co :=
  match fuel with
  | O => Unfolded
  | S fuel' =>
      match buf with
      | [] => CoReturn (true, sent)
      | _ =>
          Act (Send buf) (fun n =>
            match n with
            | Count O => CoReturn (false, sent)
            | Count n => write_exact_body fuel' (drop n buf) (sent ++ take n buf)
            | Errno e =>
                if negb (e =? EAGAIN) then CoReturn (false, sent)
                else Park Writable (fun ready =>
                       if ready then write_exact_body fuel' buf sent else CoReturn (false, sent))
            | _ => Unfolded
            end)
      end
  end.

Definition close_body : co := Act ShutdownClose (fun _ => Act FetchSub (fun _ => CoReturn (true, []))).

(** [co_await] of a child none of whose exceptions the body catches. *)
Definition co_await (child : co) (k : bool * list Z -> co) : co :=
  Await child (fun o => match o with inl v => k v | inr e => Throw e end).

Definition respond_body (fuel : nat) (response : list Z) : co :=
  co_await (write_exact_body fuel (encode_u32 (u32 (Z.of_nat (length response)))) []) (fun '(ok, _) =>
    if ok : bool then co_await (write_exact_body fuel response []) (fun _ => close_body) else close_body).

Definition payload_body (fuel : nat) (got_payload : bool) (payload : list Z) : co :=
  if got_payload then
    Act LoadStopping (fun stopping =>
      match stopping with
      | Flag false =>
          Park PoolHop (fun _ =>
            Act (CallHandler payload) (fun r =>
              match r with Response response => respond_body fuel response | _ => Unfolded end))
      | _ => close_body
      end)
  else close_body.

Definition handle_connection_body (fuel : nat) : co :=
  Act FetchAdd (fun _ =>
    co_await (read_exact_body fuel 4 []) (fun '(ok, header) =>
      if ok : bool then
        let length_ := decode_u32 header in
        if length_ <=? MAX_MESSAGE_SIZE then
          if length_ =? 0 then payload_body fuel true []
          else co_await (read_exact_body fuel (Z.to_nat length_) []) (fun '(ok, payload) => payload_body fuel ok payload)
        else close_body
      else close_body)).

(** * The world of one connection *)

Record connection := mkConnection {
  c_script : list aio;             (** the kernel's answers still to come *)
  c_stream : list Z;               (** what the peer sent and was not read *)
  c_wait : bool;                   (** what the reactor answers to the wait after the last call *)
  c_written : list Z;
  c_active : Z;
  c_open : bool
}.

Section world.
Context (handler : list Z -> list Z) (stopping : bool).

Definition answer_io (a : aio) (script : list aio) (c : connection) (stream written : list Z) : connection :=
  mkConnection script stream (a_ready a) written (c_active c) (c_open c).

Definition answer_call (k : call) (c : connection) : option (answer * connection) :=
  match k with
  | FetchAdd => Some (Unit, mkConnection (c_script c) (c_stream c) (c_wait c) (c_written c) (c_active c + 1) (c_open c))
  | ShutdownClose =>
      Some (Unit, mkConnection (c_script c) (c_stream c) (c_wait c) (c_written c) (c_active c) false)
  | FetchSub => Some (Unit, mkConnection (c_script c) (c_stream c) (c_wait c) (c_written c) (c_active c - 1) (c_open c))
  | LoadStopping => Some (Flag stopping, c)
  | CallHandler payload => Some (Response (handler payload), c)
  | Recv len =>
      match c_script c with
      | [] => None
      | a :: script =>
          let got := Nat.min (Z.to_nat (a_ret a)) (Nat.min len (length (c_stream c))) in
          Some (if 0 <? a_ret a then
                  match c_stream c with
                  | [] => (Errno EAGAIN, answer_io a script c [] (c_written c))
                  | _ => (Bytes (take got (c_stream c)), answer_io a script c (drop got (c_stream c)) (c_written c))
                  end
                else (if a_ret a =? 0 then Bytes [] else Errno (a_errno a),
                      answer_io a script c (c_stream c) (c_written c)))
      end
  | Send buf =>
      match c_script c with
      | [] => None
      | a :: script =>
          let n := Nat.min (Z.to_nat (a_ret a)) (length buf) in
          Some (if 0 <? a_ret a then (Count n, answer_io a script c (c_stream c) (c_written c ++ take n buf))
                else (if a_ret a =? 0 then Count 0 else Errno (a_errno a),
                      answer_io a script c (c_stream c) (c_written c)))
      end
  end.

(** The pool resumes the coroutine, the reactor with what it observed. *)
Definition answer_wait (w : wait) (c : connection) : option (bool * connection) :=
  Some (match w with PoolHop => true | _ => c_wait c end, c).

Abbreviation run := (eval answer_call answer_wait).

(** * Loops *)

(** A connection after its calls have used up the script down to [script]. *)
Definition later (c c' : connection) (script : list aio) (stream written : list Z) : Prop :=
  c_script c' = script /\ c_stream c' = stream /\ c_written c' = written /\
  c_active c' = c_active c /\ c_open c' = c_open c.

Lemma read_body_eval fuel len got c :
  (length (c_script c) < fuel)%nat -> (length got <= len)%nat ->
  match read_exact (c_script c) (len - length got) (c_stream c) with
  | Some (ok, more, stream, script) =>
      exists c', run (read_exact_body fuel len got) c = Some (inl (ok, got ++ more), c') /\
        later c c' script stream (c_written c)
  | None => run (read_exact_body fuel len got) c = None
  end.
Proof.
  remember (c_script c) as script eqn:Es. revert fuel got c Es.
  induction script as [|a script IH]; intros [|fuel] got c Es Hf Hl; try (cbn in Hf; lia);
    cbn [read_exact_body]; destruct (decide (length got < len)%nat) as [Hlt|Hge].
  - destruct (len - length got)%nat as [|r] eqn:Er; [lia|]. cbn. by rewrite <- Es.
  - replace (len - length got)%nat with 0%nat by lia. cbn. exists c. rewrite app_nil_r. by split_and!.
  - assert (exists r, (len - length got)%nat = S r) as [r Er] by (exists (len - length got - 1)%nat; lia).
    rewrite Er. cbn [read_exact eval answer_call]. rewrite <- Es. cbv zeta. unfold read_step.
    assert (forall stream', c_stream c = stream' ->
      match (if a_ready a then read_exact script (S r) (c_stream c) else Some (false, [], c_stream c, script)) with
      | Some (ok, more, stream, rest) =>
          exists c', run (Park Readable (fun ready => if ready then read_exact_body fuel len got else CoReturn (false, got)))
                         (answer_io a script c stream' (c_written c)) = Some (inl (ok, got ++ more), c') /\
            later c c' rest stream (c_written c)
      | None => run (Park Readable (fun ready => if ready then read_exact_body fuel len got else CoReturn (false, got)))
                    (answer_io a script c stream' (c_written c)) = None
      end) as Hblock.
    { intros stream' <-. cbn [eval answer_wait mbind option_bind c_wait answer_io]. destruct (a_ready a) eqn:Ea; cbn.
      - specialize (IH fuel got (answer_io a script c (c_stream c) (c_written c)) eq_refl ltac:(cbn in Hf; lia) Hl).
        rewrite Er in IH. exact IH.
      - eexists. rewrite app_nil_r. by split_and!. }
    destruct (0 <? a_ret a) eqn:E1.
    + apply Z.ltb_lt in E1. destruct (c_stream c) as [|b stream] eqn:Estr; cbn [mbind option_bind].
      { rewrite Z.eqb_refl. cbn [negb]. specialize (Hblock [] eq_refl). by destruct (a_ready a). }
      set (n := Nat.min _ _). assert (1 <= n <= S r)%nat as Hn by (subst n; cbn [length]; lia).
      assert (length (take n (b :: stream)) = n) as Htake by (rewrite length_take; subst n; cbn [length]; lia).
      destruct (take n (b :: stream)) as [|b' l'] eqn:El; [cbn in Htake; lia|]. rewrite <- El in *.
      specialize (IH fuel (got ++ take n (b :: stream)) (answer_io a script c (drop n (b :: stream)) (c_written c)) eq_refl
                    ltac:(cbn in Hf; lia) ltac:(rewrite length_app; lia)).
      cbn [c_stream answer_io c_written] in IH.
      replace (len - length (got ++ take n (b :: stream)))%nat with (S r - n)%nat in IH
        by (rewrite length_app, Htake; lia).
      destruct (read_exact script (S r - n) (drop n (b :: stream))) as [[[[ok more] str] rest]|]; cbn [mbind option_bind].
      * destruct IH as (c' & Hrun & Hl'). exists c'. rewrite <- (assoc_L (++)) in Hrun.
        split; [by rewrite El in *|done].
      * by rewrite El in *.
    + cbn [mbind option_bind]. destruct (a_ret a =? 0).
      { eexists. rewrite app_nil_r. by split_and!. }
      destruct (negb (a_errno a =? EAGAIN)).
      { eexists. rewrite app_nil_r. by split_and!. }
      specialize (Hblock _ eq_refl). by destruct (a_ready a).
  - replace (len - length got)%nat with 0%nat by lia. cbn. exists c. rewrite app_nil_r. by split_and!.
Qed.

Lemma write_body_eval fuel buf sent c :
  (length (c_script c) < fuel)%nat ->
  match write_exact (c_script c) buf with
  | Some (ok, w, script) =>
      exists c', run (write_exact_body fuel buf sent) c = Some (inl (ok, sent ++ w), c') /\
        later c c' script (c_stream c) (c_written c ++ w)
  | None => run (write_exact_body fuel buf sent) c = None
  end.
Proof.
  remember (c_script c) as script eqn:Es. revert fuel buf sent c Es.
  induction script as [|a script IH]; intros [|fuel] [|b buf] sent c Es Hf; try (cbn in Hf; lia);
    cbn [write_exact_body]; cbn [write_exact].
  1, 3: exists c; rewrite !app_nil_r; by split_and!.
  { cbn. by rewrite <- Es. }
  cbn [eval answer_call]. rewrite <- Es. cbv zeta. unfold write_step.
  destruct (0 <? a_ret a) eqn:E1; cbn [mbind option_bind].
  - apply Z.ltb_lt in E1. set (n := Nat.min _ _). assert (1 <= n)%nat as Hn by (subst n; cbn [length]; lia).
    destruct n as [|n']; [lia|]. set (n := S n') in *.
    specialize (IH fuel (drop n (b :: buf)) (sent ++ take n (b :: buf))
                  (answer_io a script c (c_stream c) (c_written c ++ take n (b :: buf))) eq_refl ltac:(cbn in Hf; lia)).
    cbn [c_stream answer_io c_written] in IH.
    destruct (write_exact script (drop n (b :: buf))) as [[[ok w] rest]|]; cbn [mbind option_bind]; [|exact IH].
    destruct IH as (c' & Hrun & Hl'). exists c'. by rewrite <- !(assoc_L (++)) in *.
  - destruct (a_ret a =? 0); [eexists; rewrite !app_nil_r; by split_and!|].
    destruct (negb (a_errno a =? EAGAIN)); [eexists; rewrite !app_nil_r; by split_and!|].
    cbn [eval answer_wait mbind option_bind c_wait answer_io]. destruct (a_ready a) eqn:Ea; cbn.
    + exact (IH fuel (b :: buf) sent (answer_io a script c (c_stream c) (c_written c)) eq_refl ltac:(cbn in Hf; lia)).
    + eexists. rewrite !app_nil_r. by split_and!.
Qed.

(** * The connection *)

Lemma run_co_await child k c :
  run (co_await child k) c =
  match run child c with
  | Some (inl v, c') => run (k v) c'
  | Some (inr e, c') => Some (inr e, c')
  | None => None
  end.
Proof. cbn. by destruct (run child c) as [[[v|e] c']|]. Qed.

(** The connection once it is over: what was written, the count back, the descriptor closed. *)
Definition over (c c' : connection) (w : list Z) : Prop :=
  c_written c' = c_written c ++ w /\ c_active c' = c_active c - 1 /\ c_open c' = false.

Lemma close_over c w c' script stream : later c c' script stream (c_written c ++ w) ->
  exists v c'', run close_body c' = Some (inl v, c'') /\ over c c'' w.
Proof. intros (_ & _ & Hw & Ha & _). eexists _, _. split; [done|]. split_and!; cbn; congruence. Qed.

(** What a part of the body does, against the bytes its function writes. *)
Definition does (b : co) (c : connection) (w : option (list Z)) : Prop :=
  match w with
  | Some w => exists v c', run b c = Some (inl v, c') /\ over c c' w
  | None => run b c = None
  end.

Definition respond (script : list aio) (response : list Z) : option (list Z) :=
  '(ok, w1, script) ← write_exact script (encode_u32 (u32 (Z.of_nat (length response))));
  if ok : bool then '(_, w2, _) ← write_exact script response; Some (w1 ++ w2) else Some w1.

Lemma does_close c : does close_body c (Some []).
Proof. apply (close_over c [] c (c_script c) (c_stream c)). rewrite app_nil_r. by split_and!. Qed.

Lemma write_exact_shrinks script buf ok w rest : write_exact script buf = Some (ok, w, rest) ->
  (length rest <= length script)%nat.
Proof.
  revert buf ok w rest. induction script as [|a script IH]; intros [|b buf] ok w rest; cbn -[write_step];
    try (intros [= _ _ <-]; simpl; lia).
  destruct (write_step a _); [| |intros [= _ _ <-]; lia].
  - intros ([[? ?] ?] & H%IH & [= _ _ <-])%bind_Some. lia.
  - intros H%IH. lia.
Qed.

Lemma read_exact_shrinks script n stream ok got stream' rest :
  read_exact script n stream = Some (ok, got, stream', rest) -> (length rest <= length script)%nat.
Proof.
  revert n stream ok got stream' rest. induction script as [|a script IH]; intros [|n] stream ok got stream' rest;
    cbn -[read_step]; try (intros [= _ _ _ <-]; simpl; lia).
  destruct (read_step a _ _); [| |intros [= _ _ _ <-]; lia].
  - intros ([[[? ?] ?] ?] & H%IH & [= _ _ _ <-])%bind_Some. lia.
  - intros H%IH. lia.
Qed.

Lemma respond_does fuel response c : (length (c_script c) < fuel)%nat ->
  does (respond_body fuel response) c (respond (c_script c) response).
Proof.
  intros Hf. unfold respond, respond_body, does. rewrite run_co_await.
  set (hdr := encode_u32 _). pose proof (write_body_eval fuel hdr [] c Hf) as H.
  destruct (write_exact (c_script c) hdr) as [[[ok w1] script]|] eqn:E1; cbn [mbind option_bind]; [|by rewrite H].
  destruct H as (c1 & -> & L1). apply write_exact_shrinks in E1. cbn [app].
  destruct ok; [|by eapply close_over]. rewrite run_co_await.
  assert (c_script c1 = script) as Es by apply L1.
  pose proof (write_body_eval fuel response [] c1 ltac:(rewrite Es; lia)) as H. rewrite Es in H.
  destruct (write_exact script response) as [[[ok2 w2] script2]|]; cbn [mbind option_bind]; [|by rewrite H].
  destruct H as (c2 & -> & L2). eapply (close_over c (w1 ++ w2)).
  destruct L1 as (_ & Hs1 & Hw1 & Ha1 & Ho1), L2 as (Hx & Hs2 & Hw2 & Ha2 & Ho2).
  split_and!; [done|done| |congruence..]. by rewrite Hw2, Hw1, (assoc_L (++)).
Qed.
(** The end of [AsyncTransport.handle_connection], from the payload on. *)
Definition answer_payload (got_payload : bool) (payload : list Z) (script : list aio) : option (list Z) :=
  if got_payload && negb stopping then respond script (handler payload) else Some [].

Lemma payload_does fuel got payload c : (length (c_script c) < fuel)%nat ->
  does (payload_body fuel got payload) c (answer_payload got payload (c_script c)).
Proof.
  intros Hf. unfold answer_payload, payload_body. destruct got; cbn [andb]; [|apply does_close].
  destruct stopping eqn:E; cbn [negb].
  - pose proof (does_close c) as (v & c' & H & Ho). exists v, c'. cbn. rewrite E. done.
  - pose proof (respond_does fuel (handler payload) c Hf) as H. unfold does in *. cbn. rewrite E. exact H.
Qed.

Lemma handle_connection_unfold script stream :
  handle_connection handler stopping script stream =
  ('(ok, header, stream, script) ← read_exact script 4 stream;
   if ok : bool then
     if decode_u32 header <=? MAX_MESSAGE_SIZE then
       '(got, payload, _, script) ← read_payload script (decode_u32 header) stream;
       answer_payload got payload script
     else Some []
   else Some []).
Proof. done. Qed.

(** The body of a connection against the function, from a script the fuel covers. *)
Lemma connection_does fuel c : (length (c_script c) < fuel)%nat ->
  let c1 := mkConnection (c_script c) (c_stream c) (c_wait c) (c_written c) (c_active c + 1) (c_open c) in
  match handle_connection handler stopping (c_script c) (c_stream c) with
  | Some w => exists v c', run (handle_connection_body fuel) c = Some (inl v, c') /\ over c1 c' w
  | None => run (handle_connection_body fuel) c = None
  end.
Proof.
  intros Hf c1. change (run (handle_connection_body fuel) c) with
    (run (co_await (read_exact_body fuel 4 []) (fun '(ok, header) =>
      if ok : bool then
        if decode_u32 header <=? MAX_MESSAGE_SIZE then
          if decode_u32 header =? 0 then payload_body fuel true []
          else co_await (read_exact_body fuel (Z.to_nat (decode_u32 header)) [])
                 (fun '(ok, payload) => payload_body fuel ok payload)
        else close_body
      else close_body)) c1).
  rewrite run_co_await, handle_connection_unfold.
  pose proof (read_body_eval fuel 4 [] c1 Hf ltac:(simpl; lia)) as H. cbn [c_script c_stream c1 length Nat.sub] in H.
  destruct (read_exact (c_script c) 4 (c_stream c)) as [[[[ok hd] str] s1]|] eqn:E1; cbn [mbind option_bind];
    [|by rewrite H].
  destruct H as (c2 & -> & L1). cbn [app]. apply read_exact_shrinks in E1.
  assert (forall w b, does b c2 w -> match w with
    | Some w => exists v c', run b c2 = Some (inl v, c') /\ over c1 c' w
    | None => run b c2 = None end) as Hover.
  { intros [w|] b Hd; [|exact Hd]. destruct Hd as (v & c' & Hr & Ho1 & Ho2 & Ho3), L1 as (_ & _ & Hw & Ha & _).
    exists v, c'. split; [done|]. split_and!; [by rewrite Ho1, Hw|by rewrite Ho2, Ha|done]. }
  destruct ok; [|apply (Hover (Some [])), does_close].
  destruct (decode_u32 hd <=? MAX_MESSAGE_SIZE); [|apply (Hover (Some [])), does_close].
  destruct L1 as (Es & Estr & Hw & Ha & Ho). unfold read_payload. destruct (decode_u32 hd =? 0).
  { cbn [mbind option_bind]. apply Hover. rewrite <- Es. apply payload_does. rewrite Es. lia. }
  rewrite run_co_await.
  pose proof (read_body_eval fuel (Z.to_nat (decode_u32 hd)) [] c2 ltac:(rewrite Es; lia) ltac:(simpl; lia)) as H.
  rewrite Es, Estr, Nat.sub_0_r in H.
  destruct (read_exact s1 _ str) as [[[[ok pl] str'] s2]|] eqn:E2; cbn [mbind option_bind]; [|by rewrite H].
  destruct H as (c3 & -> & Es3 & Estr3 & Hw3 & Ha3 & Ho3). cbn [app]. apply read_exact_shrinks in E2.
  pose proof (payload_does fuel ok pl c3 ltac:(rewrite Es3; lia)) as Hd. rewrite Es3 in Hd.
  destruct (answer_payload ok pl s2) as [w|]; [|exact Hd].
  destruct Hd as (v & c' & Hr & O1 & O2 & O3). exists v, c'. split; [done|].
  split_and!; [by rewrite O1, Hw3, Hw|by rewrite O2, Ha3, Ha|done].
Qed.

(** The coroutine server does what the functions of [AsyncTransport] say.  A connection
    started by the accept loop, run as frames and continuations by the promise types of
    [async.hpp], writes exactly the bytes of [handle_connection], closes its descriptor,
    leaves the count of active connections as it was and no frame on the heap; when the
    function is still in progress the coroutine waits for the kernel or the reactor. *)
Theorem connection_coroutine_refines script stream active :
  let start := mkConnection script stream false [] active true in
  let machine := co_spawn (handle_connection_body (S (length script))) start in
  match handle_connection handler stopping script stream with
  | Some w => exists n m, co_run answer_call answer_wait n machine = Some m /\ at_ m = Returned /\ frames m = ∅ /\
      c_written (world m) = w /\ c_active (world m) = active /\ c_open (world m) = false
  | None => exists n m, co_run answer_call answer_wait n machine = Some m /\ waiting answer_call answer_wait m
  end.
Proof.
  intros start machine.
  pose proof (connection_does (S (length script)) start ltac:(simpl; lia)) as H. cbv zeta in H.
  pose proof (machine_evaluates answer_call answer_wait (handle_connection_body (S (length script))) start) as M.
  cbn [c_script c_stream start] in H. destruct (handle_connection _ _ _ _) as [w|]; [|by rewrite H in M].
  destruct H as (v & c' & Hr & Hw & Ha & Ho). rewrite Hr in M. destruct M as (n & m & Hn & Hat & Hfr & Hwo).
  exists n, m. cbn in Hw, Ha. rewrite Hwo. split_and!; [done..|lia|done].
Qed.
End world.
