(* ===== verification/Server.v ===== *)
(** The coroutine server as a whole: the accept coroutine and any number of connection
    coroutines of [network/async_transport.cpp], parked in the reactor of
    [network/reactor.cpp] or queued in the handler pool, interleaved step by step.

    [Coroutine] shows that a coroutine run frame by frame does what its body does read in
    direct style, so a coroutine is here what is left of its body.  One step is one call, one
    suspension or one resumption; which thread takes it is left open.  The model covers one
    period of service, from [serve] to the end of [reactor_.stop()]. *)

From Stdlib Require Import ZArith Lia.
From stdpp Require Import base gmap strings relations numbers list.
From S2P Require Import Prelude Core Transport Reactor AsyncTransport Coroutine AsyncCoroutines.

Local Open Scope Z_scope.

#[export] Instance wait_eq_dec : EqDecision wait.
Proof. solve_decision. Defined.

(** * Bodies, one step at a time *)

(** What a body does next, and what is left of it then. *)
Inductive todo :=
  | Ends (o : (bool * list Z) + unit)
  | Calls (a : call) (k : answer -> co)
  | Waits (w : wait) (k : bool -> co)
  | Stuck.

Fixpoint focus (b : co) : todo :=
  match b with
  | CoReturn v => Ends (inl v)
  | Throw e => Ends (inr e)
  | Act a k => Calls a k
  | Park w k => Waits w k
  | Await child k =>
      match focus child with
      | Ends o => focus (k o)
      | Calls a j => Calls a (fun r => Await (j r) k)
      | Waits w j => Waits w (fun ok => Await (j ok) k)
      | Stuck => Stuck
      end
  | Unfolded => Stuck
  end.

Definition transfers (a : call) : bool := match a with Recv _ | Send _ => true | _ => false end.

(** * The server *)

Inductive place := Runs | InPool | InReactor (h : nat) | Done.

#[export] Instance place_eq_dec : EqDecision place.
Proof. solve_decision. Defined.

(** A connection: its descriptor, the bytes its client sends, what is left of the coroutine
    and where it is, the bytes not read yet and those written, whether the descriptor is open
    and what it has added to [active_connections_].  The last three fields only record: the
    kernel's answers so far with the outcome of the waits that followed them, the last
    answer, whose wait is undecided, and the value of [stopping_] the coroutine saw. *)
Record conn := mkConn {
  cn_fd : Z;
  cn_request : list Z;
  cn_co : co;
  cn_at : place;
  cn_stream : list Z;
  cn_written : list Z;
  cn_open : bool;
  cn_active : Z;
  cn_past : list aio;
  cn_last : option (Z * Z);
  cn_saw : option bool
}.

Inductive acceptor := AcTest | AcWaiting (h : nat) | AcWoken (ready : bool) | AcAccepting | AcDone.

#[export] Instance acceptor_eq_dec : EqDecision acceptor.
Proof. solve_decision. Defined.

Record server := mkServer {
  sv_reactor : EpollReactor;
  sv_parked : list nat;        (** the handles the reactor accepted *)
  sv_next : nat;               (** a handle not used yet *)
  sv_fd : Z;
  sv_stopping : bool;
  sv_active : Z;
  sv_conns : list conn;
  sv_accept : acceptor
}.

Section server.
Context (handler : list Z -> list Z) (order : gmap Z Waiter -> list (Z * Waiter)).
(** [fuel] bounds how often the loops of a body are unfolded, [io_timeout_ms] is
    [io_timeout_ms_]. *)
Context (fuel : nat) (io_timeout_ms : Z).

(** [serve] on a listening socket, with an epoll instance. *)
Definition serving (fd : Z) : server :=
  mkServer (start true new_reactor) [] 0 fd false 0 [] AcTest.

(** The start of [handle_connection]. *)
Definition new_conn (fd : Z) (bytes : list Z) : conn :=
  mkConn fd bytes (handle_connection_body fuel) Runs bytes [] true 0 [] None None.

Definition with_conn (i : nat) (c : conn) (s : server) : server :=
  mkServer (sv_reactor s) (sv_parked s) (sv_next s) (sv_fd s) (sv_stopping s) (sv_active s)
    (<[i := c]> (sv_conns s)) (sv_accept s).

(** ** Connections *)

Definition decided (c : conn) (ready : bool) : list aio :=
  match cn_last c with Some (ret, err) => [mkAio ret err ready] | None => [] end.

(** The coroutine makes its next call; [io] is what the kernel answers to a transfer. *)
Definition conn_call (stopping : bool) (io : Z * Z) (c : conn) : option conn :=
  match cn_at c, focus (cn_co c) with
  | Runs, Calls a k =>
      '(r, w) ← answer_call handler stopping a
                  (mkConnection [mkAio io.1 io.2 false] (cn_stream c) false (cn_written c) (cn_active c) (cn_open c));
      Some (mkConn (cn_fd c) (cn_request c) (k r) Runs (c_stream w) (c_written w) (c_open w) (c_active w)
              (if transfers a then cn_past c ++ decided c true else cn_past c)
              (if transfers a then Some io else cn_last c)
              (match a with LoadStopping => Some stopping | _ => cn_saw c end))
  | _, _ => None
  end.

Definition moved_to (p : place) (c : conn) : conn :=
  mkConn (cn_fd c) (cn_request c) (cn_co c) p (cn_stream c) (cn_written c) (cn_open c) (cn_active c)
    (cn_past c) (cn_last c) (cn_saw c).

(** [resume] of a coroutine whose wait yields [ready]. *)
Definition conn_resume (ready : bool) (c : conn) : conn :=
  match focus (cn_co c) with
  | Waits PoolHop k =>
      mkConn (cn_fd c) (cn_request c) (k ready) Runs (cn_stream c) (cn_written c) (cn_open c) (cn_active c)
        (cn_past c) (cn_last c) (cn_saw c)
  | Waits _ k =>
      mkConn (cn_fd c) (cn_request c) (k ready) Runs (cn_stream c) (cn_written c) (cn_open c) (cn_active c)
        (cn_past c ++ decided c ready) None (cn_saw c)
  | _ => c
  end.

Definition call_conn (i : nat) (io : Z * Z) (s : server) : option server :=
  c ← sv_conns s !! i; c' ← conn_call (sv_stopping s) io c;
  Some (mkServer (sv_reactor s) (sv_parked s) (sv_next s) (sv_fd s) (sv_stopping s)
          (sv_active s + (cn_active c' - cn_active c)) (<[i := c']> (sv_conns s)) (sv_accept s)).

(** A suspension: into the pool, or into the reactor unless it refuses, in which case the
    coroutine goes on at once. *)
Definition park_conn (i : nat) (now : Z) (add_ok : bool) (s : server) : option server :=
  c ← sv_conns s !! i;
  match cn_at c, focus (cn_co c) with
  | Runs, Waits PoolHop _ => Some (with_conn i (moved_to InPool c) s)
  | Runs, Waits _ _ =>
      let '(b, r) := register_waiter (sv_next s) (cn_fd c) io_timeout_ms now add_ok (sv_reactor s) in
      Some (mkServer r (if b : bool then sv_next s :: sv_parked s else sv_parked s) (S (sv_next s)) (sv_fd s)
              (sv_stopping s) (sv_active s)
              (<[i := if b then moved_to (InReactor (sv_next s)) c else conn_resume false c]> (sv_conns s))
              (sv_accept s))
  | _, _ => None
  end.

(** A thread of the pool takes the coroutine. *)
Definition hop_conn (i : nat) (s : server) : option server :=
  c ← sv_conns s !! i;
  match cn_at c with InPool => Some (with_conn i (conn_resume true c) s) | _ => None end.

Definition finish_conn (i : nat) (s : server) : option server :=
  c ← sv_conns s !! i;
  match cn_at c, focus (cn_co c) with
  | Runs, Ends _ => Some (with_conn i (moved_to Done c) s)
  | _, _ => None
  end.

(** ** The accept coroutine *)

Definition with_accept (a : acceptor) (s : server) : server :=
  mkServer (sv_reactor s) (sv_parked s) (sv_next s) (sv_fd s) (sv_stopping s) (sv_active s) (sv_conns s) a.

(** [client] is what [accept4] answers, [bytes] what that client is going to send. *)
Definition accept_next (now : Z) (add_ok : bool) (client : Z) (bytes : list Z) (s : server) : option server :=
  match sv_accept s with
  | AcTest =>
      if sv_stopping s then Some (with_accept AcDone s)
      else
        let '(b, r) := register_waiter (sv_next s) (sv_fd s) 500 now add_ok (sv_reactor s) in
        Some (mkServer r (if b : bool then sv_next s :: sv_parked s else sv_parked s) (S (sv_next s)) (sv_fd s)
                (sv_stopping s) (sv_active s) (sv_conns s) (if b then AcWaiting (sv_next s) else AcWoken false))
  | AcWoken ready =>
      Some (with_accept (if sv_stopping s then AcDone else if ready then AcAccepting else AcTest) s)
  | AcAccepting =>
      if client <? 0 then Some (with_accept AcTest s)
      else Some (mkServer (sv_reactor s) (sv_parked s) (sv_next s) (sv_fd s) (sv_stopping s) (sv_active s)
                   (sv_conns s ++ [new_conn client bytes]) AcAccepting)
  | AcWaiting _ | AcDone => None
  end.

(** ** The reactor thread *)

Definition about_to_resume (p : phase) : option (nat * bool) :=
  match p with Resuming (x :: _) | DrainResuming (x :: _) => Some x | _ => None end.

(** [handle.resume()]: the coroutine that parked with handle [h] goes on. *)
Definition resume_handle (h : nat) (ready : bool) (s : server) : server :=
  mkServer (sv_reactor s) (sv_parked s) (sv_next s) (sv_fd s) (sv_stopping s) (sv_active s)
    ((fun c => if decide (cn_at c = InReactor h) then conn_resume ready c else c) <$> sv_conns s)
    (if decide (sv_accept s = AcWaiting h) then AcWoken ready else sv_accept s).

Definition with_reactor (r : EpollReactor) (s : server) : server :=
  mkServer r (sv_parked s) (sv_next s) (sv_fd s) (sv_stopping s) (sv_active s) (sv_conns s) (sv_accept s).

Definition react (events : list Z) (now : Z) (s : server) : option server :=
  r ← thread_next order events now (sv_reactor s);
  Some (with_reactor r
          match about_to_resume (thread_at (sv_reactor s)) with
          | Some (h, ready) => resume_handle h ready s
          | None => s
          end).

(** ** Stopping *)

(** [stopping_.exchange(true)], then [reactor_.stop()]. *)
Definition begin_stop (s : server) : server :=
  mkServer (sv_reactor s) (sv_parked s) (sv_next s) (sv_fd s) true (sv_active s) (sv_conns s) (sv_accept s).
Definition stop_reactor (s : server) : option server :=
  if sv_stopping s then Some (with_reactor (request_stop (sv_reactor s)) s) else None.
Definition join_reactor (s : server) : option server :=
  r ← joined (sv_reactor s); Some (with_reactor r s).

(** The descriptors in use. *)
Definition fds_in_use (s : server) : list Z := sv_fd s :: (cn_fd <$> filter (fun c => cn_open c = true) (sv_conns s)).

(** [accept4] answers with a descriptor that is not in use. *)
Inductive server_step : server -> server -> Prop :=
  | sv_calls i io s s' : call_conn i io s = Some s' -> server_step s s'
  | sv_parks i now add_ok s s' : park_conn i now add_ok s = Some s' -> server_step s s'
  | sv_hops i s s' : hop_conn i s = Some s' -> server_step s s'
  | sv_finishes i s s' : finish_conn i s = Some s' -> server_step s s'
  | sv_accepts now add_ok client bytes s s' : client ∉ fds_in_use s ->
      accept_next now add_ok client bytes s = Some s' -> server_step s s'
  | sv_reacts events now s s' : react events now s = Some s' -> server_step s s'
  | sv_begins_stop s : server_step s (begin_stop s)
  | sv_stops_reactor s s' : stop_reactor s = Some s' -> server_step s s'
  | sv_joins s s' : join_reactor s = Some s' -> server_step s s'.
End server.
