(* ===== verification/ServerTheorems.v ===== *)
(** The server of [Server] refines its connections taken one at a time: whatever the
    interleaving, each of them does what [AsyncTransport.handle_connection] says of it alone,
    the reactor is used as its own theorems require, and no connection is forgotten. *)

From Stdlib Require Import ZArith Lia.
From stdpp Require Import base gmap strings relations numbers list.
From S2P Require Import Prelude Core Transport Reactor AsyncTransport Coroutine AsyncCoroutines Server.

Local Open Scope Z_scope.

(** * What the bodies do *)

(** A child transfers, waits only for the outcome of a transfer ([asked]) and never throws. *)
Inductive talks : bool -> co -> Prop :=
  | talks_return q v : talks q (CoReturn v)
  | talks_act q a k : transfers a = true -> (forall r, talks true (k r)) -> talks q (Act a k)
  | talks_park w k : w <> PoolHop -> (forall ok, talks false (k ok)) -> talks true (Park w k)
  | talks_unfolded q : talks q Unfolded.

(** A connection closes its descriptor once, after which it only counts itself out, and loads [stopping_] at most
    once; the indices say whether the descriptor is open and the load still possible. *)
Inductive converses : bool -> bool -> bool -> co -> Prop :=
  | cv_return l q v : converses false l q (CoReturn v)
  | cv_act l q a k : a <> ShutdownClose -> a <> FetchSub -> a <> LoadStopping ->
      (forall r, converses true l (transfers a || q) (k r)) -> converses true l q (Act a k)
  | cv_load q k : (forall r, converses true false q (k r)) -> converses true true q (Act LoadStopping k)
  | cv_close l q k : (forall r, converses false l q (k r)) -> converses true l q (Act ShutdownClose k)
  | cv_sub l q k : (forall r, converses false l q (k r)) -> converses false l q (Act FetchSub k)
  | cv_hop l q k : (forall ok, converses true l q (k ok)) -> converses true l q (Park PoolHop k)
  | cv_park l w k : w <> PoolHop -> (forall ok, converses true l false (k ok)) -> converses true l true (Park w k)
  | cv_await l q child k : talks q child -> (forall q' v, converses true l q' (k (inl v))) ->
      converses true l q (Await child k)
  | cv_unfolded l q : converses true l q Unfolded.

Lemma talks_read fuel len got q : talks q (read_exact_body fuel len got).
Proof.
  revert got q. induction fuel as [|fuel IH]; intros got q; cbn; [constructor|].
  case_decide; [|constructor]. constructor; [done|]. intros [|[|b l]|n|e|b|l]; try constructor; [apply IH|].
  case_match; [constructor|]. constructor; [done|]. intros []; [apply IH|constructor].
Qed.

Lemma talks_write fuel buf sent q : talks q (write_exact_body fuel buf sent).
Proof.
  revert buf sent q. induction fuel as [|fuel IH]; intros [|b buf] sent q; cbn; try constructor; [done|].
  intros [|l|[|n]|e|c|l]; try constructor; [apply IH|].
  case_match; [constructor|]. constructor; [done|]. intros []; [apply IH|constructor].
Qed.

Lemma converses_close l q : converses true l q close_body.
Proof. apply cv_close. intros _. apply cv_sub. constructor. Qed.

Lemma converses_payload fuel got payload q : converses true true q (payload_body fuel got payload).
Proof.
  unfold payload_body. destruct got; [|apply converses_close].
  apply cv_load. intros [| | | |[]|]; try apply converses_close.
  apply cv_hop. intros ok. apply cv_act; [done..|]. intros [| | | | |l]; try constructor; [apply talks_write|].
  intros q' [[] ?]; [|apply converses_close]. constructor; [apply talks_write|]. intros q'' v. apply converses_close.
Qed.

Lemma converses_connection fuel : converses true true false (handle_connection_body fuel).
Proof.
  apply cv_act; [done..|]. intros _. constructor; [apply talks_read|]. intros q [[] header]; [|apply converses_close].
  cbv beta iota zeta. case_match; [|apply converses_close]. case_match; [apply converses_payload|].
  constructor; [apply talks_read|]. intros q' [ok payload]. apply converses_payload.
Qed.

Lemma talks_focus q b : talks q b ->
  match focus b with
  | Ends o => exists v, o = inl v
  | Calls a k => transfers a = true /\ forall r, talks true (k r)
  | Waits w k => w <> PoolHop /\ q = true /\ forall ok, talks false (k ok)
  | Stuck => True
  end.
Proof. intros []; cbn; eauto. Qed.

Lemma converses_focus l q b : converses true l q b ->
  match focus b with
  | Ends o => False
  | Calls ShutdownClose k => forall r, converses false l q (k r)
  | Calls FetchSub k => False
  | Calls LoadStopping k => l = true /\ forall r, converses true false q (k r)
  | Calls a k => forall r, converses true l (transfers a || q) (k r)
  | Waits PoolHop k => forall ok, converses true l q (k ok)
  | Waits w k => q = true /\ forall ok, converses true l false (k ok)
  | Stuck => True
  end.
Proof.
  remember true as o eqn:Eo.
  induction 1 as [l q v|l q a k Ha Ha' Ha'' Hk IH|q k Hk _|l q k Hk _|l q k Hk _|l q k Hk _|l w k Hw Hk _
    |l q child k Hc Hk IH|l q];
    try done; cbn.
  - by destruct a.
  - by destruct w.
  - pose proof (talks_focus _ _ Hc) as Hf. destruct (focus child) as [o'|a j|w j|]; [| | |done].
    + destruct Hf as [v ->]. by apply (IH q v).
    + destruct Hf as [Ha Hj]. destruct a; try done; intros r; rewrite Ha; constructor; auto.
    + destruct Hf as (Hw & -> & Hj). destruct w; try done; (split; [done|]); intros ok; constructor; auto.
Qed.

Lemma closed_focus l q b : converses false l q b ->
  (exists v, b = CoReturn v) \/ (exists k, b = Act FetchSub k /\ forall r, converses false l q (k r)).
Proof. inversion 1; eauto. Qed.

(** ** Fuel *)

(** The kinds of answers a call can get. *)
Definition fits (a : call) (r : answer) : Prop :=
  match a, r with
  | Recv _, (Bytes _ | Errno _) | Send _, (Count _ | Errno _) | LoadStopping, Flag _ | CallHandler _, Response _ => True
  | FetchAdd, _ | ShutdownClose, _ | FetchSub, _ => True
  | _, _ => False
  end.

(** Fewer than [n] transfers do not use up the fuel of a body. *)
Inductive deep : nat -> co -> Prop :=
  | deep_zero b : deep 0 b
  | deep_return n v : deep n (CoReturn v)
  | deep_throw n e : deep n (Throw e)
  | deep_act n a k : (forall r, fits a r -> deep (if transfers a then n else S n) (k r)) -> deep (S n) (Act a k)
  | deep_park n w k : (forall ok, deep n (k ok)) -> deep n (Park w k)
  | deep_await n child k : deep n child -> (forall m o, (m <= n)%nat -> deep m (k o)) -> deep n (Await child k).

Lemma deep_action n a k : (forall m r, (m <= n)%nat -> fits a r -> deep m (k r)) -> deep n (Act a k).
Proof. intros H. destruct n as [|n]; constructor. intros r Hr. apply H; [destruct (transfers a); lia|done]. Qed.

Lemma deep_read fuel len got n : (n <= fuel)%nat -> deep n (read_exact_body fuel len got).
Proof.
  revert got n. induction fuel as [|fuel IH]; intros got [|n] Hn; try lia; try constructor.
  cbn. case_decide; constructor. cbn. intros [|[|b l]|c|e|b|l]; cbn; try done; intros _; [constructor|apply IH; lia|].
  case_match; constructor. intros []; [apply IH; lia|constructor].
Qed.

Lemma deep_write fuel buf sent n : (n <= fuel)%nat -> deep n (write_exact_body fuel buf sent).
Proof.
  revert buf sent n. induction fuel as [|fuel IH]; intros buf sent [|n] Hn; try lia; try constructor.
  cbn. destruct buf; constructor. cbn. intros [|l|[|c]|e|b|l]; cbn; try done; intros _; [constructor|apply IH; lia|].
  case_match; constructor. intros []; [apply IH; lia|constructor].
Qed.

Lemma deep_close n : deep n close_body.
Proof. apply deep_action. intros m r _ _. apply deep_action. constructor. Qed.

Lemma deep_co_await n child k : deep n child -> (forall m v, (m <= n)%nat -> deep m (k v)) -> deep n (co_await child k).
Proof. intros Hc Hk. constructor; [done|]. intros m [v|e] Hm; [by apply Hk|constructor]. Qed.

Lemma deep_payload fuel got payload n : (n <= fuel)%nat -> deep n (payload_body fuel got payload).
Proof.
  intros Hn. unfold payload_body. destruct got; [|apply deep_close].
  apply deep_action. intros m [| | | |[]|] Hm; try done; intros _; [apply deep_close|].
  constructor. intros _. apply deep_action. intros m1 [| | | | |l] Hm1; try done. intros _.
  apply deep_co_await; [apply deep_write; lia|]. intros m2 [[] ?] Hm2; [|apply deep_close].
  apply deep_co_await; [apply deep_write; lia|]. intros m3 v Hm3. apply deep_close.
Qed.

Lemma deep_connection fuel : deep fuel (handle_connection_body fuel).
Proof.
  apply deep_action. intros m _ Hm _. apply deep_co_await; [apply deep_read; lia|].
  intros m1 [[] header] Hm1; [|apply deep_close]. cbv zeta. case_match; [|apply deep_close].
  case_match; [apply deep_payload; lia|]. apply deep_co_await; [apply deep_read; lia|].
  intros m2 [ok payload] Hm2. apply deep_payload. lia.
Qed.

Lemma deep_focus n b : deep n b ->
  match focus b with
  | Ends _ => True
  | Calls a k => forall r, fits a r -> deep (if transfers a then pred n else n) (k r)
  | Waits w k => forall ok, deep n (k ok)
  | Stuck => n = 0%nat
  end.
Proof.
  induction 1 as [b|n v|n e|n a k Hk _|n w k Hk _|n child k Hc IHc Hk IHk]; cbn; try done.
  - by destruct (focus b); intros; try case_match; constructor.
  - destruct (focus child) as [o|a j|w j|]; [by apply IHk| | |done].
    + intros r Hr. constructor; [by apply IHc|]. intros m o Hm. apply Hk. destruct (transfers a); lia.
    + intros ok. constructor; auto.
Qed.

(** ** Direct style in steps *)

Lemma eval_focus {S} (act : call -> S -> option (answer * S)) (ready : wait -> S -> option (bool * S)) b s :
  eval act ready b s =
  match focus b with
  | Ends o => Some (o, s)
  | Calls a k => '(r, s) ← act a s; eval act ready (k r) s
  | Waits w k => '(ok, s) ← ready w s; eval act ready (k ok) s
  | Stuck => None
  end.
Proof.
  revert s. induction b as [v|e|a k IH|w k IH|child IHc k IH|]; intros s; try done. cbn. rewrite IHc.
  destruct (focus child) as [o|a j|w j|]; cbn; [apply IH|..|done].
  - by destruct (act a s) as [[r s']|].
  - by destruct (ready w s) as [[ok s']|].
Qed.

(** ** More fuel changes nothing that is finished *)

Inductive unfolds : co -> co -> Prop :=
  | un_stop b : unfolds Unfolded b
  | un_return v : unfolds (CoReturn v) (CoReturn v)
  | un_throw e : unfolds (Throw e) (Throw e)
  | un_act a k k' : (forall r, unfolds (k r) (k' r)) -> unfolds (Act a k) (Act a k')
  | un_park w k k' : (forall r, unfolds (k r) (k' r)) -> unfolds (Park w k) (Park w k')
  | un_await c c' k k' : unfolds c c' -> (forall o, unfolds (k o) (k' o)) -> unfolds (Await c k) (Await c' k').

Create HintDb unfolds.
#[local] Hint Constructors unfolds : unfolds.

Lemma unfolds_eval {S} (act : call -> S -> option (answer * S)) (ready : wait -> S -> option (bool * S)) b b' s x :
  unfolds b b' -> eval act ready b s = Some x -> eval act ready b' s = Some x.
Proof.
  intros H. revert s x. induction H as [| | |a k k' _ IH|w k k' _ IH|c c' k k' _ IHc _ IH]; intros s x; try done; cbn.
  - intros ([r s'] & -> & Hx)%bind_Some. by apply IH.
  - intros ([r s'] & -> & Hx)%bind_Some. by apply IH.
  - intros ([o s'] & Hc & Hx)%bind_Some. rewrite (IHc _ _ Hc). by apply IH.
Qed.

Lemma unfolds_read n m len got : (n <= m)%nat -> unfolds (read_exact_body n len got) (read_exact_body m len got).
Proof.
  revert m got. induction n as [|n IH]; intros [|m] got Hle; cbn; try lia; auto with unfolds.
  case_decide; auto with unfolds. constructor. intros [|[|b l]|c|e|b|l]; auto with unfolds; [apply IH; lia|].
  case_match; auto with unfolds. constructor. intros []; auto with unfolds. apply IH. lia.
Qed.

Lemma unfolds_write n m buf sent : (n <= m)%nat -> unfolds (write_exact_body n buf sent) (write_exact_body m buf sent).
Proof.
  revert m buf sent. induction n as [|n IH]; intros [|m] [|b buf] sent Hle; cbn; try lia; auto with unfolds.
  constructor. intros [|l|[|c]|e|d|l]; auto with unfolds; [apply IH; lia|].
  case_match; auto with unfolds. constructor. intros []; auto with unfolds. apply IH. lia.
Qed.

Lemma unfolds_close : unfolds close_body close_body.
Proof. unfold close_body. auto with unfolds. Qed.

Lemma unfolds_await c c' k k' : unfolds c c' -> (forall v, unfolds (k v) (k' v)) -> unfolds (co_await c k) (co_await c' k').
Proof. intros Hc Hk. constructor; [done|]. intros [v|e]; auto with unfolds. Qed.

#[local] Hint Resolve unfolds_read unfolds_write unfolds_close unfolds_await : unfolds.

Lemma unfolds_payload n m got payload : (n <= m)%nat -> unfolds (payload_body n got payload) (payload_body m got payload).
Proof.
  intros Hle. unfold payload_body. destruct got; auto with unfolds. constructor. intros [| | | |[]|]; auto with unfolds.
  constructor. intros ok. constructor. intros [| | | | |l]; auto with unfolds.
  apply unfolds_await; [auto with unfolds|]. intros [[] ?]; auto with unfolds.
Qed.

Lemma unfolds_connection n m : (n <= m)%nat -> unfolds (handle_connection_body n) (handle_connection_body m).
Proof.
  intros Hle. constructor. intros _. apply unfolds_await; [by apply unfolds_read|]. intros [[] header]; auto with unfolds.
  cbv beta iota zeta. case_match; auto with unfolds. case_match; [by apply unfolds_payload|].
  apply unfolds_await; [by apply unfolds_read|]. intros [ok payload]. by apply unfolds_payload.
Qed.

(** A connection that has ended, whatever the fuel. *)
Lemma ended_connection handler stopping fuel script stream v c' :
  eval (answer_call handler stopping) answer_wait (handle_connection_body fuel)
    (mkConnection script stream false [] 0 true) = Some (inl v, c') ->
  handle_connection handler stopping script stream = Some (c_written c') /\ c_active c' = 0.
Proof.
  intros He. set (m := Nat.max fuel (S (length script))).
  apply (unfolds_eval _ _ _ (handle_connection_body m)) in He; [|apply unfolds_connection; lia].
  pose proof (connection_does handler stopping m (mkConnection script stream false [] 0 true) ltac:(cbn; lia)) as H.
  cbn [c_script c_stream] in H. destruct (handle_connection _ _ _ _) as [w|].
  - destruct H as (v' & c1 & H & Hw & Ha & _). rewrite He in H. injection H as _ <-. rewrite Hw. by split.
  - by rewrite He in H.
Qed.

(** * One connection *)

Section connection.
Context (handler : list Z -> list Z) (fuel : nat).

Abbreviation run stp := (eval (answer_call handler stp) answer_wait).

(** The coroutine is where the function's answers so far have brought it: running the rest
    of it is running the connection from its start with those answers in front. *)
Definition tracks (c : conn) : Prop :=
  forall stp ready rest, (cn_saw c = None \/ cn_saw c = Some stp) ->
  exists w, (is_Some (cn_last c) -> w = ready) /\
    run stp (handle_connection_body fuel)
      (mkConnection (cn_past c ++ decided c ready ++ rest) (cn_request c) false [] 0 true) =
    run stp (cn_co c) (mkConnection rest (cn_stream c) w (cn_written c) (cn_active c) (cn_open c)).

Definition asked (c : conn) : bool := bool_decide (is_Some (cn_last c)).

Record conn_ok (c : conn) : Prop := {
  co_tracks : tracks c;
  co_converses : converses (cn_open c) (bool_decide (cn_saw c = None)) (asked c) (cn_co c);
  co_place : match cn_at c with
             | Runs => True
             | InPool => exists k, focus (cn_co c) = Waits PoolHop k
             | InReactor _ => exists w k, focus (cn_co c) = Waits w k /\ w <> PoolHop
             | Done => cn_open c = false /\ exists o, focus (cn_co c) = Ends o
             end;
  co_deep : deep (fuel - (length (cn_past c) + length (decided c true))) (cn_co c)
}.

Lemma new_conn_ok fd bytes : conn_ok (new_conn fuel fd bytes).
Proof.
  split; [|apply converses_connection|done|].
  - intros stp ready rest _. exists false. split; [by intros []|done].
  - cbn. rewrite Nat.sub_0_r. apply deep_connection.
Qed.

(** A transfer, with its answer in front of any others. *)
Lemma answer_transfer stp a ret err stream written active open r w :
  transfers a = true ->
  answer_call handler stp a (mkConnection [mkAio ret err false] stream false written active open) = Some (r, w) ->
  c_open w = open /\ c_active w = active /\
  forall stp' ready rest w0, answer_call handler stp' a (mkConnection (mkAio ret err ready :: rest) stream w0 written active open)
    = Some (r, mkConnection rest (c_stream w) ready (c_written w) active open).
Proof.
  destruct a as [|n|buf| | | |]; try done; intros _; cbn; intros H;
    repeat case_match; simplify_eq/=; by split_and!.
Qed.

Lemma answer_other stp a sc stream w0 written active open r w :
  transfers a = false ->
  answer_call handler stp a (mkConnection sc stream w0 written active open) = Some (r, w) ->
  w = mkConnection sc stream w0 written (c_active w) (c_open w) /\
  c_open w = (match a with ShutdownClose => false | _ => open end) /\
  forall stp' sc' w1, (a = LoadStopping -> stp' = stp) ->
    answer_call handler stp' a (mkConnection sc' stream w1 written active open)
    = Some (r, mkConnection sc' stream w1 written (c_active w) (c_open w)).
Proof.
  destruct a as [|n|buf| |payload| |]; try done; intros _; cbn; intros [= <- <-]; cbn; split_and!; try done;
    intros stp' sc' w1 H; by rewrite ?H.
Qed.

Lemma answer_fits stp a c r w : answer_call handler stp a c = Some (r, w) -> fits a r.
Proof. destruct a; cbn; intros H; repeat case_match; simplify_eq/=; done. Qed.

Lemma answer_total stp a io stream w0 written active open :
  is_Some (answer_call handler stp a (mkConnection [io] stream w0 written active open)).
Proof. destruct a; cbn; eauto. Qed.

Lemma calls_open c a k : conn_ok c -> focus (cn_co c) = Calls a k -> a <> FetchSub -> cn_open c = true.
Proof.
  intros [_ Hv _ _] Hf Ha. destruct (cn_open c); [done|].
  apply closed_focus in Hv as [[v Hv]|(j & Hv & _)]; rewrite Hv in Hf; cbn in Hf; congruence.
Qed.

(** The last call of a connection: it counts itself out. *)
Lemma count_out_ok stopping io c c' k : conn_ok c -> focus (cn_co c) = Calls FetchSub k ->
  conn_call handler stopping io c = Some c' ->
  conn_ok c' /\ cn_fd c' = cn_fd c /\ cn_at c = Runs /\ cn_at c' = Runs /\ cn_open c' = cn_open c /\
  cn_request c' = cn_request c.
Proof.
  intros [Ht Hv _ Hd] Ef. unfold conn_call. destruct (cn_at c); try done. rewrite Ef. cbn. intros [= <-].
  assert (cn_open c = false) as Ho.
  { destruct (cn_open c); [|done]. apply converses_focus in Hv. by rewrite Ef in Hv. }
  rewrite Ho in Hv. apply closed_focus in Hv as [[v Hv]|(j & Hv & Hk)]; rewrite Hv in Ef; [done|]. injection Ef as <-.
  pose proof (deep_focus _ _ Hd) as Hd'. rewrite Hv in Hd'. split_and!; try done.
  split; cbn; [|rewrite Ho; apply Hk|done|by apply Hd'].
  intros stp ready rest Hs. destruct (Ht stp ready rest Hs) as (w0 & Hw0 & He). exists w0. split; [done|].
  etrans; [exact He|]. by rewrite Hv.
Qed.

Lemma conn_call_ok stopping io c c' : conn_ok c -> conn_call handler stopping io c = Some c' ->
  conn_ok c' /\ cn_fd c' = cn_fd c /\ cn_at c = Runs /\ cn_at c' = Runs /\ (cn_open c' = true -> cn_open c = true) /\
  cn_request c' = cn_request c.
Proof.
  intros Hok Hc. destruct (focus (cn_co c)) as [|a k| |] eqn:Ef;
    [by unfold conn_call in Hc; rewrite Ef in Hc; destruct (cn_at c)| |
     by unfold conn_call in Hc; rewrite Ef in Hc; destruct (cn_at c)..].
  assert (a = FetchSub \/ a <> FetchSub) as [->|Hns] by (destruct a; auto).
  { destruct (count_out_ok _ _ _ _ _ Hok Ef Hc) as (? & ? & ? & ? & -> & ?). by split_and!. }
  unfold conn_call in Hc. rewrite Ef in Hc. destruct (cn_at c) eqn:Eat; try done.
  pose proof (calls_open _ _ _ Hok Ef Hns) as Ho. destruct Hok as [Ht Hv _ Hd]. rewrite Ho in *.
  pose proof (deep_focus _ _ Hd) as Hd'. rewrite Ef in Hd'.
  pose proof (converses_focus _ _ _ Hv) as Hv'. rewrite Ef in Hv'.
  apply bind_Some in Hc as ([r w] & Ha & [= <-]). cbn. split_and!; try done.
  specialize (Hd' r (answer_fits _ _ _ _ _ Ha)).
  destruct (transfers a) eqn:Et.
  - destruct (answer_transfer _ _ _ _ _ _ _ _ _ _ Et Ha) as (Ho' & Hac & Hany).
    assert (a <> LoadStopping) as Hl by (by destruct a).
    split; cbn; [|rewrite Ho'|done|].
    + intros stp ready rest Hs.
      replace (match a with LoadStopping => Some stopping | _ => cn_saw c end) with (cn_saw c) in Hs by (by destruct a).
      destruct (Ht stp true (mkAio io.1 io.2 ready :: rest) Hs) as (w0 & _ & He). exists ready. split; [done|].
      destruct io as [ret err]. cbn in *. rewrite <- (assoc_L (++)) in *. cbn in *. rewrite He, eval_focus, Ef, Ho, Hany.
      by rewrite Ho', Hac.
    + replace (match a with LoadStopping => Some stopping | _ => cn_saw c end) with (cn_saw c) by (by destruct a).
      destruct a; try done; apply Hv'.
    + destruct io as [ret err]. cbn. rewrite length_app. cbn.
      replace (fuel - _)%nat with (pred (fuel - (length (cn_past c) + length (decided c true)))) by lia. exact Hd'.
  - destruct (answer_other _ _ _ _ _ _ _ _ _ _ Et Ha) as (Hw & Ho' & Hany).
    split; cbn; [|rewrite Ho'|done|exact Hd'].
    + intros stp ready rest Hs.
      assert (cn_saw c = None \/ cn_saw c = Some stp) as Hs'.
      { destruct a; try done. destruct Hv' as [Hv'%bool_decide_eq_true _]. by left. }
      destruct (Ht stp ready rest Hs') as (w0 & Hw0 & He). exists w0. split; [done|].
      etrans; [exact He|]. rewrite eval_focus, Ef, Ho, Hany; [by rewrite Hw|]. intros ->. naive_solver.
    + change (asked _) with (asked c). destruct a; try done; try apply Hv'.
Qed.

Lemma waits_open c w k : conn_ok c -> focus (cn_co c) = Waits w k -> cn_open c = true.
Proof.
  intros [_ Hv _ _] Hf. destruct (cn_open c); [done|].
  apply closed_focus in Hv as [[v Hv]|(j & Hv & _)]; by rewrite Hv in Hf.
Qed.

Lemma waiting_open c h : conn_ok c -> cn_at c = InReactor h -> cn_open c = true.
Proof.
  intros Hok Ha. pose proof (co_place _ Hok) as Hp. rewrite Ha in Hp. destruct Hp as (w & k & Ef & _).
  by eapply waits_open.
Qed.

Lemma conn_resume_ok ready c w k : conn_ok c -> focus (cn_co c) = Waits w k -> (w = PoolHop -> ready = true) ->
  conn_ok (conn_resume ready c).
Proof.
  intros Hok Ef Hr. pose proof (waits_open _ _ _ Hok Ef) as Ho. destruct Hok as [Ht Hv _ Hd]. rewrite Ho in Hv.
  pose proof (deep_focus _ _ Hd) as Hd'. rewrite Ef in Hd'.
  pose proof (converses_focus _ _ _ Hv) as Hv'. rewrite Ef in Hv'. unfold conn_resume. rewrite Ef.
  destruct (decide (w = PoolHop)) as [->|Hw].
  - split; cbn; [|by rewrite Ho|done|apply Hd']. intros stp b rest Hs. destruct (Ht stp b rest Hs) as (w0 & Hw0 & He).
    exists w0. split; [done|]. etrans; [exact He|]. rewrite eval_focus, Ef. cbn. by rewrite (Hr eq_refl).
  - assert (asked c = true /\ forall ok, converses true (bool_decide (cn_saw c = None)) false (k ok)) as [Ha Hk].
    { by destruct w. }
    apply bool_decide_eq_true in Ha as [[ret err] El].
    set (c1 := mkConn (cn_fd c) (cn_request c) (k ready) Runs (cn_stream c) (cn_written c) (cn_open c) (cn_active c)
                 (cn_past c ++ decided c ready) None (cn_saw c)).
    assert (conn_ok c1) as Hc1; [|by destruct w].
    split; cbn; [|rewrite Ho; apply Hk|done|].
    2: { specialize (Hd' ready). rewrite length_app. unfold decided in *. rewrite El in *. cbn in *.
         by rewrite Nat.add_0_r. }
    intros stp b rest Hs.
    destruct (Ht stp ready rest Hs) as (w0 & Hw0 & He). rewrite Hw0 in He by (by rewrite El).
    exists ready. split; [by intros []|]. cbn. rewrite <- (assoc_L (++)). etrans; [exact He|].
    rewrite eval_focus, Ef. by destruct w.
Qed.

Lemma conn_resume_same ready c w k : focus (cn_co c) = Waits w k ->
  let c' := conn_resume ready c in
  cn_fd c' = cn_fd c /\ cn_open c' = cn_open c /\ cn_at c' = Runs /\ cn_active c' = cn_active c /\
  cn_request c' = cn_request c.
Proof. intros Ef. unfold conn_resume. rewrite Ef. by destruct w. Qed.

Lemma finished_closed c o : conn_ok c -> focus (cn_co c) = Ends o -> cn_open c = false.
Proof.
  intros [_ Hv _ _] Ef. destruct (cn_open c); [|done]. apply converses_focus in Hv. by rewrite Ef in Hv.
Qed.

Lemma moved_ok p c : conn_ok c ->
  match p with
  | Runs => True
  | InPool => exists k, focus (cn_co c) = Waits PoolHop k
  | InReactor _ => exists w k, focus (cn_co c) = Waits w k /\ w <> PoolHop
  | Done => cn_open c = false /\ exists o, focus (cn_co c) = Ends o
  end -> conn_ok (moved_to p c).
Proof. intros [Ht Hv _ Hd] Hp. by split. Qed.

(** A connection that is neither waiting nor done has a next step while its fuel lasts. *)
Lemma conn_progress c : conn_ok c -> cn_at c = Runs -> (length (cn_past c) + 1 < fuel)%nat ->
  (forall stp io, is_Some (conn_call handler stp io c)) \/ (exists w k, focus (cn_co c) = Waits w k) \/
  (exists o, focus (cn_co c) = Ends o).
Proof.
  intros Hok Ha Hf. pose proof (deep_focus _ _ (co_deep _ Hok)) as Hd. unfold conn_call. rewrite Ha.
  destruct (focus (cn_co c)) as [o|a k|w k|]; [eauto| |eauto|].
  - left. intros stp [ret err]. cbn [fst snd].
    destruct (answer_total stp a (mkAio ret err false) (cn_stream c) false (cn_written c) (cn_active c) (cn_open c))
      as [[r w] ->]. cbn. eauto.
  - exfalso. unfold decided in Hd. destruct (cn_last c) as [[]|]; cbn in Hd; lia.
Qed.

(** What an ended connection has written. *)
Lemma done_written c : conn_ok c -> cn_at c = Done -> exists stopping script,
  handle_connection handler stopping script (cn_request c) = Some (cn_written c) /\ cn_active c = 0.
Proof.
  intros [Ht Hv Hp _] Hd. rewrite Hd in Hp. destruct Hp as [Hp [o Ef]]. rewrite Hp in Hv.
  apply closed_focus in Hv as [[v Hv]|(j & Hv & _)]; [|by rewrite Hv in Ef].
  destruct (Ht (default false (cn_saw c)) true []) as (w & _ & He).
  { destruct (cn_saw c); auto. }
  rewrite Hv in He. apply ended_connection in He. eexists _, _. exact He.
Qed.
End connection.

(** * The reactor's side *)

(** A step of the reactor thread resumes the head of its list, or moves waiters into the
    list, and forgets none. *)
Lemma thread_next_moves order events now r r' :
  (forall m, order m ≡ₚ map_to_list m) -> interest r = dom (waiters_ r) -> thread_next order events now r = Some r' ->
  match about_to_resume (thread_at r) with
  | Some x => waiters_ r' = waiters_ r /\ pending (thread_at r) = x :: pending (thread_at r')
  | None =>
      (forall fd w, waiters_ r' !! fd = Some w -> waiters_ r !! fd = Some w) /\
      (forall fd w, waiters_ r !! fd = Some w -> waiters_ r' !! fd = Some w \/ handle w ∈ (pending (thread_at r')).*1) /\
      pending (thread_at r) = []
  end.
Proof.
  intros Hord Hi Hn. unfold thread_next in Hn.
  destruct (thread_at r) as [| | |[|x l]| |[|x l]|] eqn:Ep; try done; injection Hn as <-; cbn; try (by auto).
  - destruct (collect_ok order Hord events now r Hi) as (C1 & C2 & (l & C3) & _).
    split_and!; [|intros fd w Hw|done].
    + intros fd w Hw. apply (thread_next_waiters order Hord events now r (collect order events now r)); [|done].
      unfold thread_next. by rewrite Ep.
    + destruct (collect_exact order Hord events now r fd w l Hw C3) as (E1 & E2 & E3). rewrite C3. cbn.
      destruct (decide (fd ∈ events)) as [He|He]; [right; apply list_elem_of_fmap; exists (handle w, true); auto|].
      destruct (decide (deadline w <= now)) as [Hd|Hd]; [|left; apply E3; [done|lia]].
      right. apply list_elem_of_fmap. exists (handle w, false). auto.
  - destruct (drain_ok order Hord r Hi) as (D1 & D2 & _ & D4). split_and!; [|intros fd w Hw|done].
    + intros fd w. by rewrite lookup_empty.
    + right. cbn in D4. rewrite <- D4. unfold parked. apply list_elem_of_fmap. exists w. split; [done|].
      apply list_elem_of_fmap. exists (fd, w). split; [done|]. by apply elem_of_map_to_list.
Qed.

(** * The server *)

(** Who is waiting for descriptor [fd] under handle [h]. *)
Definition owner (s : server) (h : nat) (fd : Z) : Prop :=
  (sv_accept s = AcWaiting h /\ fd = sv_fd s) \/
  (exists i c, sv_conns s !! i = Some c /\ cn_at c = InReactor h /\ cn_fd c = fd).

Definition total_active (cs : list conn) : Z := foldr (fun c n => cn_active c + n) 0 cs.

Lemma total_active_insert cs i c c' : cs !! i = Some c ->
  total_active (<[i := c']> cs) = total_active cs + (cn_active c' - cn_active c).
Proof.
  unfold total_active. revert i. induction cs as [|d cs IH]; intros [|i] H; [done..| |].
  - injection H as ->. cbn. lia.
  - change (<[S i := c']> (d :: cs)) with (d :: <[i := c']> cs). cbn [foldr]. rewrite (IH i H). lia.
Qed.

Lemma total_active_app cs c : total_active (cs ++ [c]) = total_active cs + cn_active c.
Proof. unfold total_active. rewrite foldr_app. cbn. induction cs as [|d cs IH]; cbn; lia. Qed.

Lemma total_active_resume h ready cs :
  total_active ((fun c => if decide (cn_at c = InReactor h) then conn_resume ready c else c) <$> cs) = total_active cs.
Proof.
  unfold total_active. induction cs as [|c cs IH]; [done|]. cbn. rewrite IH. f_equal.
  destruct (decide (cn_at c = InReactor h)); [|done]. unfold conn_resume. by repeat case_match.
Qed.

Section server.
Context (handler : list Z -> list Z) (order : gmap Z Waiter -> list (Z * Waiter)).
Context (fuel : nat) (io_timeout_ms : Z).
Hypothesis order_perm : forall m, order m ≡ₚ map_to_list m.

Record server_inv (s : server) : Prop := {
  si_reactor : rtc (reactor_step order) (new_reactor, []) (sv_reactor s, sv_parked s);
  si_fresh : forall h, h ∈ sv_parked s -> (h < sv_next s)%nat;
  si_token : forall i j c c' h, sv_conns s !! i = Some c -> sv_conns s !! j = Some c' ->
    cn_at c = InReactor h -> cn_at c' = InReactor h -> i = j;
  si_token_accept : forall i c h, sv_conns s !! i = Some c -> cn_at c = InReactor h -> sv_accept s <> AcWaiting h;
  si_waiters : forall fd w, waiters_ (sv_reactor s) !! fd = Some w -> owner s (handle w) fd;
  si_kept : forall h fd, owner s h fd ->
    (exists dl, waiters_ (sv_reactor s) !! fd = Some (mkWaiter h dl)) \/ h ∈ (pending (thread_at (sv_reactor s))).*1;
  si_fds : forall i j c c', sv_conns s !! i = Some c -> sv_conns s !! j = Some c' ->
    cn_open c = true -> cn_open c' = true -> cn_fd c = cn_fd c' -> i = j;
  si_fd_accept : forall i c, sv_conns s !! i = Some c -> cn_open c = true -> cn_fd c <> sv_fd s;
  si_conns : forall i c, sv_conns s !! i = Some c -> conn_ok handler fuel c;
  si_active : sv_active s = total_active (sv_conns s)
}.

Definition free (p : place) : Prop := forall h, p <> InReactor h.

(** A connection moves on outside of the reactor. *)
Lemma inv_conn s i c c' r next :
  server_inv s -> sv_conns s !! i = Some c -> conn_ok handler fuel c' ->
  cn_fd c' = cn_fd c -> (cn_open c' = true -> cn_open c = true) -> free (cn_at c) -> free (cn_at c') ->
  rtc (reactor_step order) (new_reactor, []) (r, sv_parked s) ->
  waiters_ r = waiters_ (sv_reactor s) -> thread_at r = thread_at (sv_reactor s) -> (sv_next s <= next)%nat ->
  server_inv (mkServer r (sv_parked s) next (sv_fd s) (sv_stopping s)
    (sv_active s + (cn_active c' - cn_active c)) (<[i := c']> (sv_conns s)) (sv_accept s)).
Proof.
  intros [] Hi Hok Hfd Hop Hf Hf' Hr Hw Ht Hn.
  assert (forall h fd, owner (mkServer r (sv_parked s) next (sv_fd s) (sv_stopping s)
    (sv_active s + (cn_active c' - cn_active c)) (<[i := c']> (sv_conns s)) (sv_accept s)) h fd <-> owner s h fd) as Hown.
  { intros h fd. unfold owner. cbn. f_equiv. split; intros (j & d & Hj & Ha & Hd).
    - apply list_lookup_insert_Some in Hj as [(<- & <- & _)|[Hne Hj]]; [by destruct (Hf' h)|eauto].
    - exists j, d. rewrite list_lookup_insert_ne; [done|]. intros ->. rewrite Hi in Hj. simplify_eq. by destruct (Hf h). }
  split; cbn [sv_reactor sv_parked sv_next sv_fd sv_conns sv_accept sv_active]; rewrite ?Hw, ?Ht; auto.
  - intros h Hh. specialize (si_fresh0 h Hh). lia.
  - intros j k d e h Hj Hk. apply list_lookup_insert_Some in Hj as [(<- & <- & _)|[_ Hj]]; [intros H; by destruct (Hf' h)|].
    apply list_lookup_insert_Some in Hk as [(<- & <- & _)|[_ Hk]]; [intros _ H; by destruct (Hf' h)|]. by eapply si_token0.
  - intros j d h Hj. apply list_lookup_insert_Some in Hj as [(<- & <- & _)|[_ Hj]]; [intros H; by destruct (Hf' h)|]. eauto.
  - intros fd w H. apply Hown. by apply si_waiters0.
  - intros h fd H%Hown. by apply si_kept0.
  - intros j k d e Hj Hk Hod Hoe Heq. apply list_lookup_insert_Some in Hj as [(<- & <- & _)|[Hjne Hj]];
      apply list_lookup_insert_Some in Hk as [(<- & <- & _)|[Hkne Hk]]; try done; rewrite ?Hfd in *; eauto.
  - intros j d Hj Ho. apply list_lookup_insert_Some in Hj as [(<- & <- & _)|[_ Hj]]; [rewrite Hfd|]; eauto.
  - intros j d Hj. apply list_lookup_insert_Some in Hj as [(<- & <- & _)|[_ Hj]]; eauto.
  - rewrite (total_active_insert _ _ _ _ Hi). lia.
Qed.

(** The acceptor moves on outside of the reactor, or the reactor without touching waiters. *)
Lemma inv_accept s r next stopping a :
  server_inv s -> (forall h, sv_accept s = AcWaiting h <-> a = AcWaiting h) ->
  rtc (reactor_step order) (new_reactor, []) (r, sv_parked s) ->
  waiters_ r = waiters_ (sv_reactor s) -> pending (thread_at r) = pending (thread_at (sv_reactor s)) ->
  (sv_next s <= next)%nat ->
  server_inv (mkServer r (sv_parked s) next (sv_fd s) stopping (sv_active s) (sv_conns s) a).
Proof.
  intros [] Ha Hr Hw Ht Hn.
  assert (forall h fd, owner (mkServer r (sv_parked s) next (sv_fd s) stopping (sv_active s) (sv_conns s) a) h fd
            <-> owner s h fd) as Hown.
  { intros h fd. unfold owner. cbn. by rewrite Ha. }
  split; cbn [sv_reactor sv_parked sv_next sv_fd sv_conns sv_accept sv_active]; rewrite ?Hw, ?Ht; auto.
  - intros h Hh. specialize (si_fresh0 h Hh). lia.
  - intros i c h Hi Hc. rewrite <- Ha. eauto.
  - intros fd w H. apply Hown. by apply si_waiters0.
  - intros h fd H%Hown. by apply si_kept0.
Qed.

(** ** Parking *)

Lemma inv_reactor s : server_inv s -> reactor_inv (sv_reactor s) (sv_parked s).
Proof. intros [Hr _ _ _ _ _ _ _ _ _]. apply (reactor_reachable_inv order order_perm _ Hr). Qed.

Lemma owner_parked s h fd : server_inv s -> owner s h fd -> h ∈ sv_parked s.
Proof.
  intros Hs Ho. rewrite (ri_once _ _ (inv_reactor s Hs)), !elem_of_app.
  destruct (si_kept s Hs h fd Ho) as [[dl Hw]|Hp]; [left|right; by left].
  apply list_elem_of_fmap. exists (mkWaiter h dl). split; [done|]. apply list_elem_of_fmap. exists (fd, mkWaiter h dl).
  split; [done|]. by apply elem_of_map_to_list.
Qed.

Lemma next_unowned s fd : server_inv s -> ~ owner s (sv_next s) fd.
Proof. intros Hs Ho. pose proof (si_fresh s Hs _ (owner_parked s _ _ Hs Ho)). lia. Qed.

Lemma conn_not_waiting s i c : server_inv s -> sv_conns s !! i = Some c -> free (cn_at c) -> cn_open c = true ->
  waiters_ (sv_reactor s) !! cn_fd c = None.
Proof.
  intros Hs Hi Hf Ho. destruct (waiters_ (sv_reactor s) !! cn_fd c) as [w|] eqn:E; [|done]. exfalso.
  destruct (si_waiters s Hs _ _ E) as [[_ Hfd]|(j & d & Hj & Ha & Hfd)].
  - by apply (si_fd_accept s Hs i c Hi Ho).
  - assert (cn_open d = true) as Hod by (eapply waiting_open; [by apply (si_conns s Hs j d)|exact Ha]).
    rewrite (si_fds s Hs j i d c Hj Hi Hod Ho Hfd) in Hj. rewrite Hi in Hj. simplify_eq. by destruct (Hf (handle w)).
Qed.

Lemma accept_not_waiting s : server_inv s -> (forall h, sv_accept s <> AcWaiting h) ->
  waiters_ (sv_reactor s) !! sv_fd s = None.
Proof.
  intros Hs Hf. destruct (waiters_ (sv_reactor s) !! sv_fd s) as [w|] eqn:E; [|done]. exfalso.
  destruct (si_waiters s Hs _ _ E) as [[Ha _]|(j & d & Hj & Ha & Hfd)]; [by destruct (Hf (handle w))|].
  apply (si_fd_accept s Hs j d Hj); [|done]. eapply waiting_open; [by apply (si_conns s Hs j d)|exact Ha].
Qed.

(** What a new waiter changes, whoever it is: [who] says what it is waiting for. *)
Lemma inv_parked s s' fd timeout now add_ok r :
  server_inv s -> register_waiter (sv_next s) fd timeout now add_ok (sv_reactor s) = (true, r) ->
  waiters_ (sv_reactor s) !! fd = None ->
  sv_reactor s' = r -> sv_parked s' = sv_next s :: sv_parked s -> sv_next s' = S (sv_next s) ->
  (forall h fd', owner s' h fd' <-> owner s h fd' \/ (h = sv_next s /\ fd' = fd)) ->
  rtc (reactor_step order) (new_reactor, []) (sv_reactor s', sv_parked s') /\
  (forall h, h ∈ sv_parked s' -> (h < sv_next s')%nat) /\
  (forall fd w, waiters_ (sv_reactor s') !! fd = Some w -> owner s' (handle w) fd) /\
  (forall h fd, owner s' h fd -> (exists dl, waiters_ (sv_reactor s') !! fd = Some (mkWaiter h dl)) \/
     h ∈ (pending (thread_at (sv_reactor s'))).*1).
Proof.
  intros Hs Hr Hfd -> -> -> Hown.
  assert (sv_next s ∉ sv_parked s) as Hnew by (intros Hin%(si_fresh s Hs); lia).
  pose proof (rs_register order (sv_next s) fd timeout now add_ok (sv_reactor s) (sv_parked s) Hnew Hfd) as Hstep.
  rewrite Hr in Hstep. apply register_effect in Hr as (E1 & _ & _ & E4); [|done]. split_and!.
  - eapply rtc_r; [apply (si_reactor s Hs)|exact Hstep].
  - intros h [->|Hin%(si_fresh s Hs)]%elem_of_cons; lia.
  - intros fd' w. rewrite E4. intros [[<- <-]|[_ Hw]]%lookup_insert_Some; apply Hown; [by right|left].
    by apply (si_waiters s Hs).
  - intros h fd' [Ho|[-> ->]]%Hown; rewrite E1, E4.
    + destruct (si_kept s Hs h fd' Ho) as [[dl Hw]|Hp]; [left|by right]. exists dl.
      rewrite lookup_insert_ne; [done|]. intros ->. by rewrite Hfd in Hw.
    + left. eexists. by rewrite lookup_insert_eq.
Qed.

Lemma inv_park_conn s i c now add_ok r w k :
  server_inv s -> sv_conns s !! i = Some c -> cn_at c = Runs -> focus (cn_co c) = Waits w k -> w <> PoolHop ->
  register_waiter (sv_next s) (cn_fd c) io_timeout_ms now add_ok (sv_reactor s) = (true, r) ->
  server_inv (mkServer r (sv_next s :: sv_parked s) (S (sv_next s)) (sv_fd s) (sv_stopping s) (sv_active s)
    (<[i := moved_to (InReactor (sv_next s)) c]> (sv_conns s)) (sv_accept s)).
Proof.
  intros Hs Hi Hat Ef Hw Hr. set (c' := moved_to _ c). set (s' := mkServer _ _ _ _ _ _ _ _).
  pose proof (si_conns s Hs i c Hi) as Hok. pose proof (waits_open _ _ _ _ _ Hok Ef) as Ho.
  assert (free (cn_at c)) as Hf by (rewrite Hat; by intros h).
  assert (forall h fd', owner s' h fd' <-> owner s h fd' \/ (h = sv_next s /\ fd' = cn_fd c)) as Hown.
  { intros h fd'. unfold owner. cbn. split.
    - intros [H|(j & d & Hj & Ha & Hd)]; [auto|].
      apply list_lookup_insert_Some in Hj as [(<- & <- & _)|[Hne Hj]]; [|naive_solver].
      cbn in Ha, Hd. injection Ha as <-. auto.
    - intros [[H|(j & d & Hj & Ha & Hd)]|[-> ->]]; [auto|..]; right.
      + exists j, d. rewrite list_lookup_insert_ne; [done|]. intros ->. rewrite Hi in Hj. simplify_eq. by destruct (Hf h).
      + exists i, c'. rewrite list_lookup_insert_eq; [done|]. by eapply lookup_lt_Some. }
  destruct (inv_parked s s' _ _ _ _ _ Hs Hr (conn_not_waiting s i c Hs Hi Hf Ho) eq_refl eq_refl eq_refl Hown)
    as (P1 & P2 & P3 & P4).
  pose proof (next_unowned s (cn_fd c) Hs) as Hun.
  assert (forall j d, sv_conns s !! j = Some d -> cn_at d <> InReactor (sv_next s)) as Hnew.
  { intros j d Hj Hd. apply (next_unowned s (cn_fd d) Hs). right. eauto. }
  split; try done; cbn.
  - intros j l d e h Hj Hl Hd He. apply list_lookup_insert_Some in Hj as [(<- & <- & _)|[_ Hj]];
      apply list_lookup_insert_Some in Hl as [(<- & <- & _)|[_ Hl]]; try done; cbn in *.
    + injection Hd as <-. by destruct (Hnew l e Hl).
    + injection He as <-. by destruct (Hnew j d Hj).
    + by eapply (si_token s Hs).
  - intros j d h Hj Hd. apply list_lookup_insert_Some in Hj as [(<- & <- & _)|[_ Hj]]; [|by eapply (si_token_accept s Hs)].
    injection Hd as <-. intros Ha. apply (next_unowned s (sv_fd s) Hs). by left.
  - intros j l d e Hj Hl. apply list_lookup_insert_Some in Hj as [(<- & <- & _)|[_ Hj]];
      apply list_lookup_insert_Some in Hl as [(<- & <- & _)|[_ Hl]]; try done;
      [apply (si_fds s Hs i l c e Hi Hl)|apply (si_fds s Hs j i d c Hj Hi)|by apply (si_fds s Hs)].
  - intros j d Hj. apply list_lookup_insert_Some in Hj as [(<- & <- & _)|[_ Hj]];
      [apply (si_fd_accept s Hs i c Hi)|apply (si_fd_accept s Hs j d Hj)].
  - intros j d Hj. apply list_lookup_insert_Some in Hj as [(<- & <- & _)|[_ Hj]]; [|by eapply (si_conns s Hs)].
    apply moved_ok; [done|]. eauto.
  - rewrite (total_active_insert _ _ _ _ Hi), (si_active s Hs). cbn. lia.
Qed.

Lemma inv_park_accept s now add_ok r :
  server_inv s -> sv_accept s = AcTest ->
  register_waiter (sv_next s) (sv_fd s) 500 now add_ok (sv_reactor s) = (true, r) ->
  server_inv (mkServer r (sv_next s :: sv_parked s) (S (sv_next s)) (sv_fd s) (sv_stopping s) (sv_active s)
    (sv_conns s) (AcWaiting (sv_next s))).
Proof.
  intros Hs Ha Hr. set (s' := mkServer _ _ _ _ _ _ _ _).
  assert (forall h fd', owner s' h fd' <-> owner s h fd' \/ (h = sv_next s /\ fd' = sv_fd s)) as Hown.
  { intros h fd'. unfold owner. cbn. rewrite Ha. naive_solver. }
  destruct (inv_parked s s' _ _ _ _ _ Hs Hr) as (P1 & P2 & P3 & P4); try done.
  { apply accept_not_waiting; [done|]. by rewrite Ha. }
  split; try done; try apply Hs. cbn. intros i c h Hi Hc [= <-].
  apply (next_unowned s (cn_fd c) Hs). right. eauto.
Qed.

(** ** Resuming *)

Lemma resumed_lookup s h ready j d : sv_conns (resume_handle h ready s) !! j = Some d ->
  exists c, sv_conns s !! j = Some c /\ d = if decide (cn_at c = InReactor h) then conn_resume ready c else c.
Proof. cbn. rewrite list_lookup_fmap. intros (c & Hc & ->)%fmap_Some. eauto. Qed.

(** A connection before and after the resumption of handle [h]. *)
Lemma resumed_conn s h ready c i : server_inv s -> sv_conns s !! i = Some c ->
  let d := if decide (cn_at c = InReactor h) then conn_resume ready c else c in
  conn_ok handler fuel d /\ cn_fd d = cn_fd c /\ cn_open d = cn_open c /\ cn_active d = cn_active c /\
  (forall h', cn_at d = InReactor h' <-> cn_at c = InReactor h' /\ h' <> h).
Proof.
  intros Hs Hi. pose proof (si_conns s Hs i c Hi) as Hok. cbv zeta.
  destruct (decide (cn_at c = InReactor h)) as [Ha|Ha]; [|naive_solver].
  pose proof (co_place _ _ _ Hok) as Hp. rewrite Ha in Hp. destruct Hp as (w & k & Ef & Hw).
  destruct (conn_resume_same ready c w k Ef) as (-> & -> & -> & -> & _). split_and!; try done.
  - by eapply conn_resume_ok.
  - intros h'. rewrite Ha. split; [done|]. by intros [[= ->] ?].
Qed.

Lemma owner_resumed s h ready r : server_inv s ->
  forall h' fd, owner (with_reactor r (resume_handle h ready s)) h' fd <-> owner s h' fd /\ h' <> h.
Proof.
  intros Hs. intros h' fd. unfold owner. cbn. split.
  - intros [[Ha ->]|(i & d & Hd & Hat & Hfd)].
    + destruct (decide (sv_accept s = AcWaiting h)); naive_solver.
    + apply (resumed_lookup s h ready) in Hd as (c & Hc & ->).
      destruct (resumed_conn s h ready c i Hs Hc) as (_ & E1 & _ & _ & E2). apply E2 in Hat as [Hat Hne].
      split; [right; exists i, c; split_and!; congruence|done].
  - intros [[[Ha ->]|(i & c & Hc & Hat & Hfd)] Hne].
    + left. rewrite decide_False by congruence. done.
    + right. destruct (resumed_conn s h ready c i Hs Hc) as (_ & E1 & _ & _ & E2).
      eexists i, _. rewrite list_lookup_fmap, Hc. split; [done|]. rewrite E2, E1. done.
Qed.

Lemma inv_resume s h ready r :
  server_inv s -> waiters_ r = waiters_ (sv_reactor s) ->
  pending (thread_at (sv_reactor s)) = (h, ready) :: pending (thread_at r) ->
  rtc (reactor_step order) (new_reactor, []) (r, sv_parked s) ->
  server_inv (with_reactor r (resume_handle h ready s)).
Proof.
  intros Hs Hw Hp Hr.
  pose proof (inv_reactor s Hs) as Hri. pose proof (ri_nodup _ _ Hri) as Hnd. rewrite (ri_once _ _ Hri), Hp in Hnd.
  assert (forall fd w, waiters_ (sv_reactor s) !! fd = Some w -> handle w <> h) as Hout.
  { intros fd w Hin Heq. apply NoDup_app in Hnd as (_ & Hd & _). apply (Hd (handle w)); [|rewrite Heq; left].
    apply list_elem_of_fmap. exists w. split; [done|]. apply list_elem_of_fmap. exists (fd, w).
    split; [done|]. by apply elem_of_map_to_list. }
  pose proof (owner_resumed s h ready r Hs) as Hown.
  split; cbn [sv_reactor sv_parked sv_next sv_fd sv_active with_reactor resume_handle sv_accept]; rewrite ?Hw; try done.
  - apply (si_fresh s Hs).
  - intros i j c d h' Hi Hj Hc Hd. apply (resumed_lookup s h ready) in Hi as (c0 & Hi & ->), Hj as (d0 & Hj & ->).
    destruct (resumed_conn s h ready c0 i Hs Hi) as (_ & _ & _ & _ & E2).
    destruct (resumed_conn s h ready d0 j Hs Hj) as (_ & _ & _ & _ & E3).
    apply E2 in Hc as [Hc _]. apply E3 in Hd as [Hd _]. by eapply (si_token s Hs).
  - intros i c h' Hi Hc. apply (resumed_lookup s h ready) in Hi as (c0 & Hi & ->).
    destruct (resumed_conn s h ready c0 i Hs Hi) as (_ & _ & _ & _ & E2). apply E2 in Hc as [Hc _].
    pose proof (si_token_accept s Hs i c0 h' Hi Hc). by destruct (decide (sv_accept s = AcWaiting h)).
  - intros fd w Hin. apply Hown. split; [by apply (si_waiters s Hs)|by eapply Hout].
  - intros h' fd [Ho Hne]%Hown. destruct (si_kept s Hs h' fd Ho) as [Hin|Hin]; [by left|right].
    rewrite Hp in Hin. by apply elem_of_cons in Hin as [->|Hin].
  - intros i j c d Hi Hj Hc Hd. apply (resumed_lookup s h ready) in Hi as (c0 & Hi & ->), Hj as (d0 & Hj & ->).
    destruct (resumed_conn s h ready c0 i Hs Hi) as (_ & E1 & E2 & _).
    destruct (resumed_conn s h ready d0 j Hs Hj) as (_ & E3 & E4 & _).
    rewrite E1, E3. rewrite E2 in Hc. rewrite E4 in Hd. by apply (si_fds s Hs).
  - intros i c Hi Hc. apply (resumed_lookup s h ready) in Hi as (c0 & Hi & ->).
    destruct (resumed_conn s h ready c0 i Hs Hi) as (_ & E1 & E2 & _). rewrite E1. rewrite E2 in Hc.
    by apply (si_fd_accept s Hs i c0).
  - intros i c Hi. apply (resumed_lookup s h ready) in Hi as (c0 & Hi & ->).
    by destruct (resumed_conn s h ready c0 i Hs Hi).
  - rewrite (si_active s Hs). symmetry. apply total_active_resume.
Qed.

(** ** Every step *)

(** The reactor thread moves waiters about without resuming anyone. *)
Lemma inv_moved s r :
  server_inv s ->
  (forall fd w, waiters_ r !! fd = Some w -> waiters_ (sv_reactor s) !! fd = Some w) ->
  (forall fd w, waiters_ (sv_reactor s) !! fd = Some w ->
     waiters_ r !! fd = Some w \/ handle w ∈ (pending (thread_at r)).*1) ->
  pending (thread_at (sv_reactor s)) = [] ->
  rtc (reactor_step order) (new_reactor, []) (r, sv_parked s) -> server_inv (with_reactor r s).
Proof.
  intros [] Hsub Hkept Hp Hr. split; cbn; try done.
  - intros fd w Hin. apply (si_waiters0 fd w). by apply Hsub.
  - intros h fd Ho. destruct (si_kept0 h fd Ho) as [[dl Hin]|Hin]; [|by rewrite Hp in Hin; apply elem_of_nil in Hin].
    destruct (Hkept _ _ Hin) as [Hin'|Hin']; [left; eauto|by right].
Qed.

Lemma lookup_snoc_cases {A} (l : list A) x i y : (l ++ [x]) !! i = Some y ->
  l !! i = Some y \/ (i = length l /\ y = x).
Proof. intros [[_ H]|[-> H]]%lookup_snoc_Some; auto. Qed.

Lemma in_use s i c : sv_conns s !! i = Some c -> cn_open c = true -> cn_fd c ∈ fds_in_use s.
Proof.
  intros Hi Ho. right. apply list_elem_of_fmap. exists c. split; [done|]. apply list_elem_of_filter. split; [done|].
  by eapply list_elem_of_lookup_2.
Qed.

Lemma inv_new_conn s fd bytes : server_inv s -> sv_accept s = AcAccepting -> fd ∉ fds_in_use s ->
  server_inv (mkServer (sv_reactor s) (sv_parked s) (sv_next s) (sv_fd s) (sv_stopping s) (sv_active s)
    (sv_conns s ++ [new_conn fuel fd bytes]) AcAccepting).
Proof.
  intros Hs Ha Hfd. set (s' := mkServer _ _ _ _ _ _ _ _).
  assert (forall h fd', owner s' h fd' <-> owner s h fd') as Hown.
  { intros h fd'. unfold owner. cbn. rewrite Ha. f_equiv. split; intros (i & c & Hi & Hc & Hd).
    - apply lookup_snoc_cases in Hi as [Hi|[_ ->]]; [eauto|done].
    - exists i, c. split_and!; [by apply lookup_app_l_Some|done..]. }
  split; cbn; try apply Hs.
  - intros i j c d h Hi Hj Hc Hd. apply lookup_snoc_cases in Hi as [Hi|[-> ->]], Hj as [Hj|[-> ->]]; try done.
    by eapply (si_token s Hs).
  - done.
  - intros fd' w Hw. apply Hown. by apply (si_waiters s Hs).
  - intros h fd' Ho%Hown. by apply (si_kept s Hs).
  - intros i j c d Hi Hj Hc Hd Heq. apply lookup_snoc_cases in Hi as [Hi|[-> ->]], Hj as [Hj|[-> ->]]; try done.
    + by eapply (si_fds s Hs).
    + destruct Hfd. cbn in Heq. rewrite <- Heq. by eapply in_use.
    + destruct Hfd. cbn in Heq. rewrite Heq. by eapply in_use.
  - intros i c Hi Hc. apply lookup_snoc_cases in Hi as [Hi|[-> ->]]; [by eapply (si_fd_accept s Hs)|].
    cbn. intros ->. apply Hfd. left.
  - intros i c Hi. apply lookup_snoc_cases in Hi as [Hi|[-> ->]]; [by eapply (si_conns s Hs)|apply new_conn_ok].
  - rewrite total_active_app, (si_active s Hs). cbn. lia.
Qed.

(** A refused registration leaves the reactor as it was. *)
Lemma refused_reachable s fd timeout now add_ok r :
  server_inv s -> waiters_ (sv_reactor s) !! fd = None ->
  register_waiter (sv_next s) fd timeout now add_ok (sv_reactor s) = (false, r) ->
  rtc (reactor_step order) (new_reactor, []) (r, sv_parked s) /\
  waiters_ r = waiters_ (sv_reactor s) /\ thread_at r = thread_at (sv_reactor s).
Proof.
  intros Hs Hfd Hr. assert (sv_next s ∉ sv_parked s) as Hnew by (intros Hin%(si_fresh s Hs); lia).
  pose proof (rs_register order (sv_next s) fd timeout now add_ok (sv_reactor s) (sv_parked s) Hnew Hfd) as Hstep.
  rewrite Hr in Hstep. apply register_effect in Hr as (E1 & _ & _ & E4); [|done].
  split_and!; [|done..]. eapply rtc_r; [apply (si_reactor s Hs)|exact Hstep].
Qed.

Lemma call_inv s s' i io : call_conn handler i io s = Some s' -> server_inv s -> server_inv s'.
Proof.
  intros (c & Hi & (c' & Hc & [= <-])%bind_Some)%bind_Some Hs.
  destruct (conn_call_ok handler fuel _ _ _ _ (si_conns s Hs i c Hi) Hc) as (Hok & Hfd & Ha & Ha' & Ho & _).
  eapply inv_conn; try done; [by rewrite Ha|by rewrite Ha'|apply Hs].
Qed.

Lemma park_inv s s' i now add_ok : park_conn io_timeout_ms i now add_ok s = Some s' -> server_inv s -> server_inv s'.
Proof.
  intros (c & Hi & Hp)%bind_Some Hs. pose proof (si_conns s Hs i c Hi) as Hok.
  destruct (cn_at c) eqn:Ha; try done. destruct (focus (cn_co c)) as [| |w k|] eqn:Ef; try done.
  assert (free (cn_at c)) as Hf by (by rewrite Ha). destruct (decide (w = PoolHop)) as [->|Hw].
  - injection Hp as <-. unfold with_conn. replace (sv_active s) with
      (sv_active s + (cn_active (moved_to InPool c) - cn_active c)) by (cbn; lia).
    eapply inv_conn; try done; [apply moved_ok; eauto|apply Hs].
  - assert (exists b r, register_waiter (sv_next s) (cn_fd c) io_timeout_ms now add_ok (sv_reactor s) = (b, r) /\
      s' = mkServer r (if b : bool then sv_next s :: sv_parked s else sv_parked s) (S (sv_next s)) (sv_fd s)
              (sv_stopping s) (sv_active s)
              (<[i := if b then moved_to (InReactor (sv_next s)) c else conn_resume false c]> (sv_conns s))
              (sv_accept s)) as (b & r & Hr & ->).
    { destruct w; try done; destruct (register_waiter _ _ _ _ _ _) as [b r]; injection Hp as <-; eauto. }
    destruct b; [by eapply inv_park_conn|].
    pose proof (conn_not_waiting s i c Hs Hi Hf (waits_open _ _ _ _ _ Hok Ef)) as Hnone.
    destruct (refused_reachable _ _ _ _ _ _ Hs Hnone Hr) as (R1 & R2 & R3).
    destruct (conn_resume_same false c w k Ef) as (E1 & E2 & E3 & E4 & _).
    replace (sv_active s) with (sv_active s + (cn_active (conn_resume false c) - cn_active c)) by (rewrite E4; lia).
    eapply inv_conn; try done; [by eapply conn_resume_ok|by rewrite E2|by rewrite E3|lia].
Qed.

Lemma hop_inv s s' i : hop_conn i s = Some s' -> server_inv s -> server_inv s'.
Proof.
  intros (c & Hi & Hp)%bind_Some Hs. pose proof (si_conns s Hs i c Hi) as Hok.
  pose proof (co_place _ _ _ Hok) as Hpl. destruct (cn_at c) eqn:Ha; try done. injection Hp as <-.
  destruct Hpl as [k Ef]. destruct (conn_resume_same true c PoolHop k Ef) as (E1 & E2 & E3 & E4 & _).
  unfold with_conn. replace (sv_active s) with (sv_active s + (cn_active (conn_resume true c) - cn_active c))
    by (rewrite E4; lia).
  eapply inv_conn; try done; [by eapply conn_resume_ok|by rewrite E2|by rewrite Ha|by rewrite E3|apply Hs].
Qed.

Lemma server_finish_inv s s' i : finish_conn i s = Some s' -> server_inv s -> server_inv s'.
Proof.
  intros (c & Hi & Hp)%bind_Some Hs. pose proof (si_conns s Hs i c Hi) as Hok.
  destruct (cn_at c) eqn:Ha; try done. destruct (focus (cn_co c)) as [o| | |] eqn:Ef; try done. injection Hp as <-.
  unfold with_conn. replace (sv_active s) with (sv_active s + (cn_active (moved_to Done c) - cn_active c)) by (cbn; lia).
  eapply inv_conn; try done; [|by rewrite Ha|apply Hs]. apply moved_ok; [done|].
  split; [by eapply finished_closed|eauto].
Qed.

Lemma server_accept_inv s s' now add_ok client bytes : client ∉ fds_in_use s ->
  accept_next fuel now add_ok client bytes s = Some s' -> server_inv s -> server_inv s'.
Proof.
  intros Hfd Hn Hs. unfold accept_next in Hn. pose proof (si_reactor s Hs) as Hr.
  destruct (sv_accept s) as [|h|ready| |] eqn:Ea; try done.
  - destruct (sv_stopping s) eqn:Est.
    { injection Hn as <-. eapply inv_accept; try done. by rewrite Ea. }
    destruct (register_waiter _ _ _ _ _ _) as [[] r] eqn:Er; injection Hn as <-; rewrite <- Est.
    + by eapply inv_park_accept.
    + destruct (refused_reachable _ _ _ _ _ _ Hs (accept_not_waiting s Hs ltac:(by rewrite Ea)) Er) as (R1 & R2 & R3).
      eapply inv_accept; try done; [by rewrite Ea|by rewrite R3|lia].
  - injection Hn as <-. eapply inv_accept; try done. rewrite Ea. intros h. by repeat case_match.
  - destruct (client <? 0); injection Hn as <-; [|by apply inv_new_conn]. eapply inv_accept; try done. by rewrite Ea.
Qed.

Lemma react_inv s s' events now : react order events now s = Some s' -> server_inv s -> server_inv s'.
Proof.
  intros (r & Hn & [= <-])%bind_Some Hs.
  assert (rtc (reactor_step order) (new_reactor, []) (r, sv_parked s)) as Hr.
  { eapply rtc_r; [apply (si_reactor s Hs)|]. by eapply rs_thread. }
  pose proof (thread_next_moves order events now _ _ order_perm (ri_interest _ _ (inv_reactor s Hs)) Hn) as Hm.
  destruct (about_to_resume _) as [[h ready]|].
  - destruct Hm as [Hw Hp]. by apply inv_resume.
  - destruct Hm as (M1 & M2 & M3). by apply inv_moved.
Qed.

Lemma server_step_inv s s' : server_step handler order fuel io_timeout_ms s s' -> server_inv s -> server_inv s'.
Proof.
  intros [i io s0 s1 H|i now add_ok s0 s1 H|i s0 s1 H|i s0 s1 H|now add_ok client bytes s0 s1 Hfd H
         |events now s0 s1 H|s0|s0 s1 H|s0 s1 H] Hs.
  - by eapply call_inv.
  - by eapply park_inv.
  - by eapply hop_inv.
  - by eapply server_finish_inv.
  - by eapply server_accept_inv.
  - by eapply react_inv.
  - eapply inv_accept; try done. apply Hs.
  - unfold stop_reactor in H. destruct (sv_stopping s0); [|done]. injection H as <-.
    eapply inv_accept; try done; [|unfold request_stop; by case_match..].
    eapply rtc_r; [apply (si_reactor s0 Hs)|apply rs_stop].
  - apply bind_Some in H as (r & Hj & [= <-]). pose proof Hj as Hj'. unfold joined in Hj'.
    destruct (thread_at (sv_reactor s0)) eqn:Et; try done. injection Hj' as <-.
    eapply inv_accept; try done; [|by rewrite Et]. eapply rtc_r; [apply (si_reactor s0 Hs)|]. by apply rs_join.
Qed.

Lemma serving_inv fd : server_inv (serving fd).
Proof.
  split; cbn; try done.
  - eapply rtc_once, (rs_start order true new_reactor []).
  - intros h Hh. by apply elem_of_nil in Hh.
  - intros h fd' [[H _]|(i & c & Hi & _)]; done.
Qed.

Lemma server_reachable fd s : rtc (server_step handler order fuel io_timeout_ms) (serving fd) s -> server_inv s.
Proof.
  intros Hr. eapply (rtc_preserve server_inv); [|exact Hr|apply serving_inv]. intros x y Hx Hs. by eapply server_step_inv.
Qed.

(** A connection off the reactor can take its next step. *)
Lemma server_progress s i c : sv_conns s !! i = Some c -> conn_ok handler fuel c ->
  cn_at c = Runs \/ cn_at c = InPool -> (length (cn_past c) + 1 < fuel)%nat ->
  (forall io, is_Some (call_conn handler i io s)) \/
  (forall now add_ok, is_Some (park_conn io_timeout_ms i now add_ok s)) \/
  is_Some (hop_conn i s) \/ is_Some (finish_conn i s).
Proof.
  intros Hi Hok Hat Hf. unfold call_conn, park_conn, hop_conn, finish_conn. rewrite Hi. cbn [mbind option_bind].
  destruct Hat as [Ha|Ha]; [|rewrite Ha; eauto].
  destruct (conn_progress _ _ c Hok Ha Hf) as [H|[(w & k & Ef)|(o & Ef)]].
  - left. intros io. destruct (H (sv_stopping s) io) as [c' ->]. cbn. eauto.
  - right; left. intros now add_ok. rewrite Ha, Ef. destruct w; [| |by eauto];
      destruct (register_waiter _ _ _ _ _ _) as [b r]; eauto.
  - do 3 right. rewrite Ha, Ef. eauto.
Qed.
End server.

(** C11: The server answers each client as if it were the only one.  Whatever the interleaving
    of the accept coroutine, any number of connections, the reactor thread, the handler pool
    and a stop: the reactor is only used as its own theorems require (no two coroutines ever
    wait for one descriptor); an ended connection has closed its descriptor and written what
    [handle_connection] writes for some answers of the kernel, so nothing or the beginning of
    the framed answer to its own client's request; a suspended connection is known to the
    reactor or about to be resumed, every other one can go on whatever the kernel answers, as
    long as [fuel] exceeds its transfers; and when all connections have ended
    [active_connections_] is zero. *)
Theorem server_serves_each_alone handler order fuel io_timeout_ms fd s :
  (forall m, order m ≡ₚ map_to_list m) ->
  rtc (server_step handler order fuel io_timeout_ms) (serving fd) s ->
  rtc (reactor_step order) (new_reactor, []) (sv_reactor s, sv_parked s) /\
  (forall i c, sv_conns s !! i = Some c ->
     (cn_at c = Done ->
        cn_open c = false /\
        (exists stopping script, handle_connection handler stopping script (cn_request c) = Some (cn_written c)) /\
        (cn_written c = [] \/
         exists req, request_in (cn_request c) = Some req /\ cn_written c `prefix_of` frame (handler req))) /\
     (forall h, cn_at c = InReactor h ->
        (exists dl, waiters_ (sv_reactor s) !! cn_fd c = Some (mkWaiter h dl)) \/
        h ∈ (pending (thread_at (sv_reactor s))).*1) /\
     (cn_at c = Runs \/ cn_at c = InPool -> (length (cn_past c) + 1 < fuel)%nat ->
        (forall io, is_Some (call_conn handler i io s)) \/
        (forall now add_ok, is_Some (park_conn io_timeout_ms i now add_ok s)) \/
        is_Some (hop_conn i s) \/ is_Some (finish_conn i s))) /\
  ((forall i c, sv_conns s !! i = Some c -> cn_at c = Done) -> sv_active s = 0).
Proof.
  intros Hord Hr. pose proof (server_reachable handler order fuel io_timeout_ms Hord fd s Hr) as Hs.
  split_and!; [apply Hs|..].
  - intros i c Hi. pose proof (si_conns _ _ _ s Hs i c Hi) as Hok. split_and!; [| |by apply server_progress].
    + intros Hd. pose proof (co_place _ _ _ Hok) as Hp. rewrite Hd in Hp.
      destruct (done_written _ _ _ Hok Hd) as (stp & script & Hw & _).
      split_and!; [apply Hp|eauto|]. apply handle_connection_sound in Hw as [Hw|(req & H1 & _ & H3)]; eauto.
    + intros h Ha. apply (si_kept _ _ _ s Hs). right. eauto.
  - intros Hall. rewrite (si_active _ _ _ s Hs). pose proof (si_conns _ _ _ s Hs) as Hok. revert Hall Hok.
    unfold total_active. induction (sv_conns s) as [|c cs IH]; intros Hall Hok; [done|]. cbn.
    destruct (done_written _ _ _ (Hok 0%nat c eq_refl) (Hall 0%nat c eq_refl)) as (_ & _ & _ & ->).
    rewrite IH; [done|intros i d Hi; apply (Hall (S i) d Hi)|intros i d Hi; apply (Hok (S i) d Hi)].
Qed.

(** * A concrete run *)

Inductive server_event :=
  | ECall (i : nat) (ret err : Z)
  | EPark (i : nat)
  | EHop (i : nat)
  | EFinish (i : nat)
  | EAccept (client : Z) (bytes : list Z)
  | EReact (events : list Z).

Definition server_next (handler : list Z -> list Z) (e : server_event) (s : server) : option server :=
  match e with
  | ECall i ret err => call_conn handler i (ret, err) s
  | EPark i => park_conn 10000 i 0 true s
  | EHop i => hop_conn i s
  | EFinish i => finish_conn i s
  | EAccept client bytes => if decide (client ∈ fds_in_use s) then None else accept_next 20 0 true client bytes s
  | EReact events => react map_to_list events 0 s
  end.

Fixpoint server_run (handler : list Z -> list Z) (es : list server_event) (s : server) : option server :=
  match es with
  | [] => Some s
  | e :: es' => s' ← server_next handler e s; server_run handler es' s'
  end.

Lemma server_run_steps handler es s s' : server_run handler es s = Some s' ->
  rtc (server_step handler map_to_list 20 10000) s s'.
Proof.
  revert s. induction es as [|e es IH]; intros s; cbn; [by intros [= ->]|].
  intros (s1 & H1 & H2)%bind_Some. eapply rtc_l; [|by apply IH]. destruct e; cbn in H1.
  - by eapply sv_calls.
  - by eapply sv_parks.
  - by eapply sv_hops.
  - by eapply sv_finishes.
  - case_decide; [done|]. by eapply sv_accepts.
  - by eapply sv_reacts.
Qed.

(** The whole exchange of connection [i], without a wait. *)
Definition exchange (i : nat) : list server_event :=
  [ECall i 4 0; ECall i 9 0; ECall i 0 0; EPark i; EHop i; ECall i 0 0; ECall i 4 0; ECall i 9 0; ECall i 0 0; ECall i 0 0; EFinish i].

(** Two clients: the first is slow, so that the second is answered while the first waits in
    the reactor, and then the first. *)
Definition two_clients : list server_event :=
  [EAccept (-1) []; EReact []; EReact [3]; EReact []; EAccept (-1) [];
   EAccept 7 (frame [1; 2]); EAccept 8 (frame [3; 4; 5]); ECall 0 0 0; ECall 0 (-1) EAGAIN; EPark 0; ECall 1 0 0]
  ++ exchange 1 ++ [EReact []; EReact []; EReact [7]; EReact []] ++ exchange 0.

Definition both_served : server := default (serving 3) (server_run echo two_clients (serving 3)).

Lemma both_served_reachable : rtc (server_step echo map_to_list 20 10000) (serving 3) both_served.
Proof.
  apply (server_run_steps echo two_clients). unfold both_served.
  assert (is_Some (server_run echo two_clients (serving 3))) as [s ->]; [|done].
  apply (bool_decide_eq_true_1 (is_Some (server_run echo two_clients (serving 3)))). vm_compute. reflexivity.
Qed.

Lemma server_serves_each_alone_witness :
  cn_written <$> sv_conns both_served = [frame [2; 1]; frame [5; 4; 3]] /\ sv_active both_served = 0.
Proof.
  split; [vm_compute; reflexivity|].
  destruct (server_serves_each_alone echo map_to_list 20 10000 3 both_served (fun m => reflexivity _)
              both_served_reachable) as (_ & _ & H).
  apply H. intros i c Hi.
  assert (Forall (fun c => cn_at c = Done) (sv_conns both_served)) as Hall by decide_now.
  exact (proj1 (Forall_lookup _ _) Hall i c Hi).
Defined.
