(* ===== verification/Cluster.v ===== *)
(** [network/cluster_view.cpp]: the peers the scheduler sees.

    Every method holds the mutex for its whole body, so each is one atomic function of the
    map. *)

From Stdlib Require Import ZArith Lia.
From stdpp Require Import base gmap strings numbers list.
From S2P Require Import Prelude Core Scheduler.

Local Open Scope Z_scope.

Abbreviation PeerMap := (gmap NodeId PeerInfo).

(** The value-initialised [PeerInfo], which [peers_\[id\]] inserts for a new key. *)
Definition default_peer : PeerInfo := mkPeer "" empty_snapshot "" 0 true.

Definition update_peer_resources (id : NodeId) (snapshot : ResourceSnapshot) (m : PeerMap) : PeerMap :=
  let entry := at_or default_peer m id in
  <[id := mkPeer id snapshot (peer_address entry) (peer_tcp_port entry) true]> m.

Definition update_peer (info : PeerInfo) (m : PeerMap) : PeerMap :=
  <[peer_node_id info := info]> m.

Definition mark_unreachable (id : NodeId) (m : PeerMap) : PeerMap :=
  match m !! id with
  | Some p => <[id := mkPeer (peer_node_id p) (peer_resources p) (peer_address p)
                        (peer_tcp_port p) false]> m
  | None => m
  end.

Definition remove_peer (id : NodeId) (m : PeerMap) : PeerMap := delete id m.

Definition clear (m : PeerMap) : PeerMap := ∅.

Definition snapshot {IO : IterOrder} (m : PeerMap) : ClusterView :=
  mkView (filter (fun p => reachable p = true) (iter m).*2).

Definition available_peers {IO : IterOrder} (m : PeerMap) : list NodeId :=
  (filter (fun e : NodeId * PeerInfo => reachable e.2 = true) (iter m)).*1.

Definition peer_info (m : PeerMap) (id : NodeId) : option PeerInfo :=
  match m !! id with
  | Some p => if reachable p then Some p else None
  | None => None
  end.

Definition lookup_resources (m : PeerMap) (id : NodeId) : option ResourceSnapshot :=
  match m !! id with
  | Some p => if reachable p then Some (peer_resources p) else None
  | None => None
  end.

Definition cluster_size (m : PeerMap) : nat := size m.
Definition has_peer (m : PeerMap) (id : NodeId) : bool := bool_decide (is_Some (m !! id)).

(** Peers are filed under their own id. *)
Definition peers_keyed (m : PeerMap) : Prop := map_Forall (fun id p => peer_node_id p = id) m.

Lemma update_peer_keyed info m : peers_keyed m -> peers_keyed (update_peer info m).
Proof. intros Hm. by apply map_Forall_insert_2. Qed.

Lemma update_peer_resources_keyed id s m : peers_keyed m -> peers_keyed (update_peer_resources id s m).
Proof. intros Hm. by apply map_Forall_insert_2. Qed.

Lemma mark_unreachable_keyed id m : peers_keyed m -> peers_keyed (mark_unreachable id m).
Proof.
  intros Hm. unfold mark_unreachable. destruct (m !! id) as [p|] eqn:E; [|done].
  apply map_Forall_insert_2; [by apply (Hm id p)|done].
Qed.

Lemma remove_peer_keyed id m : peers_keyed m -> peers_keyed (remove_peer id m).
Proof. apply map_Forall_delete. Qed.

Section view.
Context {IO : IterOrder}.

Lemma snapshot_peers m p : p ∈ peers (snapshot m) <-> reachable p = true /\ exists id, m !! id = Some p.
Proof.
  unfold snapshot. simpl. rewrite list_elem_of_filter, list_elem_of_fmap. f_equiv. split.
  - intros ([id q] & -> & Hin%elem_of_iter). by exists id.
  - intros [id H%elem_of_iter]. by exists (id, p).
Qed.

Lemma snapshot_all_reachable m : reachable_peers (snapshot m) = peers (snapshot m).
Proof.
  unfold reachable_peers, snapshot. simpl. rewrite list_filter_filter.
  apply list_filter_iff. naive_solver.
Qed.

Lemma snapshot_ids_distinct m : peers_keyed m -> NoDup (peer_node_id <$> peers (snapshot m)).
Proof.
  intros Hm. unfold snapshot. simpl. pose proof (NoDup_iter_fst m) as Hnd.
  assert (forall e, e ∈ iter m -> peer_node_id e.2 = e.1) as Hk.
  { intros [id p] He%elem_of_iter. by apply (Hm id p). }
  induction (iter m) as [|[id p] l IH]; [constructor|].
  apply NoDup_cons in Hnd as [Hid Hnd]. csimpl. rewrite filter_cons.
  case_decide; [|apply IH; set_solver]. csimpl. constructor; [|apply IH; set_solver].
  intros (q & Hq & Hin)%list_elem_of_fmap. apply list_elem_of_filter in Hin as [_ Hin].
  apply list_elem_of_fmap in Hin as ([id' q'] & -> & Hin).
  pose proof (Hk (id', q') ltac:(set_solver)) as Hq'. pose proof (Hk (id, p) ltac:(set_solver)) as Hp.
  simpl in *. rewrite Hq', Hp in Hq. subst id.
  apply Hid. apply list_elem_of_fmap. by exists (id', q').
Qed.

(** The ids of a snapshot and this node's own id never clash. *)
Lemma snapshot_node_ids_distinct m local :
  peers_keyed m -> m !! snap_node_id local = None -> NoDup (node_ids local (snapshot m)).
Proof.
  intros Hm Hself. unfold node_ids. rewrite snapshot_all_reachable.
  constructor; [|by apply snapshot_ids_distinct].
  intros (p & Hp & (_ & id & Hid)%snapshot_peers)%list_elem_of_fmap.
  specialize (Hm id p Hid). simpl in Hm. congruence.
Qed.

(** An id the plan may name is this node or a peer [peer_info] can resolve. *)
Lemma node_ids_resolve m local n : peers_keyed m -> n ∈ node_ids local (snapshot m) ->
  n = snap_node_id local \/ exists p, peer_info m n = Some p /\ peer_node_id p = n.
Proof.
  intros Hm. unfold node_ids. rewrite snapshot_all_reachable.
  intros [->|(p & -> & (Hr & id & Hid)%snapshot_peers)%list_elem_of_fmap]%elem_of_cons; [by left|].
  right. exists p. split; [|done]. pose proof (Hm id p Hid) as Hk. simpl in Hk. unfold peer_info.
  by rewrite Hk, Hid, Hr.
Qed.
End view.
