(* ===== verification/Discovery.v ===== *)
(** [network/peer_discovery.cpp]: the advertisement packet, the tables of the listen and
    eviction threads, and the callbacks the orchestrator registers on them. *)

From Stdlib Require Import ZArith Lia Ascii String.
From stdpp Require Import base gmap strings relations numbers list.
From S2P Require Import Prelude Float32 Core Scheduler Cluster.

Local Open Scope Z_scope.

(** * Bytes *)

(** The bytes of a fixed-width field after [htobeN]. *)
Fixpoint be_bytes (k : nat) (v : Z) : list Z :=
  match k with
  | O => []
  | S k' => (v / 256 ^ Z.of_nat k') mod 256 :: be_bytes k' v
  end.

(** [beNtoh] of the field. *)
Definition be_value (l : list Z) : Z := foldl (fun acc b => acc * 256 + b) 0 l.

Definition bytes_of_string (s : string) : list Z :=
  (fun c => Z.of_N (N_of_ascii c)) <$> String.list_ascii_of_string s.

Definition string_of_bytes (l : list Z) : string :=
  String.string_of_list_ascii ((fun b => ascii_of_N (Z.to_N b)) <$> l).

(** * The packet

    The fields as they lie in memory. *)

Record AdvertPacket := mkPacket {
  magic : list Z;
  version : Z;
  reserved : list Z;
  pkt_node_id : list Z;
  tcp_port_be : list Z;
  padding : list Z;
  cpu_usage_bits_be : list Z;
  memory_available_be : list Z;
  memory_total_be : list Z;
  temperature_bits_be : list Z;
  flags_be : list Z
}.

Definition MAGIC : list Z := bytes_of_string "EORC".
Definition PROTOCOL_VERSION : Z := 2.
Definition packet_size : nat := 72.

(** The packed layout. *)
Definition packet_bytes (p : AdvertPacket) : list Z :=
  magic p ++ [version p] ++ reserved p ++ pkt_node_id p ++ tcp_port_be p ++ padding p ++
  cpu_usage_bits_be p ++ memory_available_be p ++ memory_total_be p ++
  temperature_bits_be p ++ flags_be p.

Definition field (off len : nat) (l : list Z) : list Z := take len (drop off l).

Definition packet_of_bytes (l : list Z) : AdvertPacket :=
  mkPacket (field 0 4 l) (l !!! 4%nat) (field 5 3 l) (field 8 32 l) (field 40 2 l) (field 42 2 l)
    (field 44 4 l) (field 48 8 l) (field 56 8 l) (field 64 4 l) (field 68 4 l).

Definition float_to_wire (x : float32) : list Z := be_bytes 4 (f32_to_bits x).
Definition float_from_wire (w : list Z) : float32 := f32_of_bits (be_value w).

(** [strnlen] followed by the [std::string] constructor. *)
Fixpoint before_nul (l : list Z) : list Z :=
  match l with
  | [] => []
  | b :: l' => if b =? 0 then [] else b :: before_nul l'
  end.

(** * The object *)

Record PeerRecord := mkRecord { info : PeerInfo; last_seen : Z }.

Record PeerDiscovery := mkDiscovery {
  node_id_ : NodeId;
  tcp_port_ : Z;
  peer_timeout_ms_ : Z;
  local_resources_ : ResourceSnapshot;
  known_peers_ : gmap NodeId PeerRecord
}.

Definition set_node_id (id : NodeId) (s : ResourceSnapshot) : ResourceSnapshot :=
  mkSnapshot id (timestamp s) (cpu_usage_percent s) (per_core_cpu_percent s)
    (memory_available_bytes s) (memory_total_bytes s) (cpu_temperature_celsius s)
    (gpu_temperature_celsius s) (network_rx_bytes_sec s) (network_tx_bytes_sec s) (is_throttled s).

Definition new_discovery (node_id : NodeId) (tcp_port peer_timeout_ms : Z) : PeerDiscovery :=
  mkDiscovery node_id tcp_port peer_timeout_ms (set_node_id node_id empty_snapshot) ∅.

Definition update_local_resources (s : ResourceSnapshot) (d : PeerDiscovery) : PeerDiscovery :=
  mkDiscovery (node_id_ d) (tcp_port_ d) (peer_timeout_ms_ d) s (known_peers_ d).

Definition with_peers (d : PeerDiscovery) (m : gmap NodeId PeerRecord) : PeerDiscovery :=
  mkDiscovery (node_id_ d) (tcp_port_ d) (peer_timeout_ms_ d) (local_resources_ d) m.

Definition known_peer_count (d : PeerDiscovery) : nat := size (known_peers_ d).

Definition build_advert (d : PeerDiscovery) : AdvertPacket :=
  let r := local_resources_ d in
  let copied := take 31 (bytes_of_string (node_id_ d)) in
  mkPacket MAGIC PROTOCOL_VERSION (replicate 3 0)
    (copied ++ replicate (32 - length copied) 0)
    (be_bytes 2 (tcp_port_ d)) (replicate 2 0)
    (float_to_wire (cpu_usage_percent r))
    (be_bytes 8 (memory_available_bytes r)) (be_bytes 8 (memory_total_bytes r))
    (float_to_wire (cpu_temperature_celsius r))
    (be_bytes 4 (if is_throttled r then 1 else 0)).

(** [wall] is [system_clock::now()]. *)
Definition parse_advert (pkt : AdvertPacket) (sender_addr : string) (wall : Z) : PeerInfo :=
  let id := string_of_bytes (before_nul (pkt_node_id pkt)) in
  mkPeer id
    (mkSnapshot id wall (float_from_wire (cpu_usage_bits_be pkt)) (replicate 4 f32_zero)
       (be_value (memory_available_be pkt)) (be_value (memory_total_be pkt))
       (float_from_wire (temperature_bits_be pkt)) f32_zero 0 0
       (negb (Z.land (be_value (flags_be pkt)) 1 =? 0)))
    sender_addr (be_value (tcp_port_be pkt)) true.

(** One datagram through [listen_loop]; [recvfrom] truncates it to the buffer.  The peer
    to notify about is the second component. *)
Definition receive_advert (datagram : list Z) (sender_ip : string) (now wall : Z) (d : PeerDiscovery)
  : PeerDiscovery * option PeerInfo :=
  let buf := take packet_size datagram in
  if negb (Nat.eqb (length buf) packet_size) then (d, None)
  else
    let pkt := packet_of_bytes buf in
    if negb (bool_decide (magic pkt = MAGIC)) then (d, None)
    else if negb (version pkt =? PROTOCOL_VERSION) then (d, None)
    else
      let peer := parse_advert pkt sender_ip wall in
      if decide (peer_node_id peer = node_id_ d) then (d, None)
      else
        let d' := with_peers d (<[peer_node_id peer := mkRecord peer now]> (known_peers_ d)) in
        match known_peers_ d !! peer_node_id peer with
        | None => (d', Some peer)
        | Some _ => (d', None)
        end.

(** The clock counts nanoseconds, the timeout milliseconds. *)
Definition expired (now timeout_ms : Z) (r : PeerRecord) : bool :=
  now - last_seen r >? timeout_ms * 1000000.

Section evict.
Context {IO : IterOrder}.

Definition evict_step (now timeout_ms : Z) (acc : gmap NodeId PeerRecord * list PeerInfo)
    (e : NodeId * PeerRecord) : gmap NodeId PeerRecord * list PeerInfo :=
  if expired now timeout_ms e.2 then (delete e.1 acc.1, acc.2 ++ [info e.2]) else acc.

(** One round of [eviction_loop]: the table and the peers to notify about. *)
Definition evict (now : Z) (d : PeerDiscovery) : PeerDiscovery * list PeerInfo :=
  let '(m, evicted) := foldl (evict_step now (peer_timeout_ms_ d)) (known_peers_ d, [])
                         (iter (known_peers_ d)) in
  (with_peers d m, evicted).
End evict.

(** * Sockets and threads

    The kernel's answers to [socket] and [bind] are arguments. *)

Record discovery_io := mkIoState {
  broadcast_fd_ : Z;
  listen_fd_ : Z;
  threads_running : bool;
  io_open : gset Z
}.

Definition io_idle : discovery_io := mkIoState (-1) (-1) false ∅.

(** [create_udp_socket]: the descriptor, or [-1]. *)
Definition create_udp_socket (answer : Z) (o : gset Z) : Z * gset Z :=
  if answer <? 0 then (-1, o) else (answer, {[answer]} ∪ o).

Definition start (socket1 socket2 bind_ret : Z) (s : discovery_io) : discovery_io :=
  let '(bfd, o) := create_udp_socket socket1 (io_open s) in
  if bfd <? 0 then mkIoState bfd (listen_fd_ s) (threads_running s) o
  else
    let '(lfd, o) := create_udp_socket socket2 o in
    if lfd <? 0 then mkIoState (-1) lfd (threads_running s) (o ∖ {[bfd]})
    else if bind_ret <? 0 then mkIoState (-1) (-1) (threads_running s) (o ∖ {[bfd]} ∖ {[lfd]})
    else mkIoState bfd lfd true o.

(** The threads are asked to stop; the sockets are closed. *)
Definition stop (s : discovery_io) : discovery_io :=
  let o := if broadcast_fd_ s >=? 0 then io_open s ∖ {[broadcast_fd_ s]} else io_open s in
  let o := if listen_fd_ s >=? 0 then o ∖ {[listen_fd_ s]} else o in
  mkIoState (if broadcast_fd_ s >=? 0 then -1 else broadcast_fd_ s)
    (if listen_fd_ s >=? 0 then -1 else listen_fd_ s) false o.

(** One heartbeat of [broadcast_loop]: the datagram sent, if any. *)
Definition broadcast_round (d : PeerDiscovery) (s : discovery_io) : option (list Z) :=
  if broadcast_fd_ s >=? 0 then Some (packet_bytes (build_advert d)) else None.

(** * Discovery with its callbacks

    [Orchestrator::start] registers [update_peer] on discovery and [remove_peer] on loss.
    The callbacks run after the lock on the table is released, each on its own thread:
    [listener] and [evictor] are the notifications the two threads still have to
    deliver. *)

Record network := mkNetwork {
  disc : PeerDiscovery;
  view : PeerMap;
  listener : option PeerInfo;
  evictor : list PeerInfo
}.

Inductive net_event :=
  | EvReceive (datagram : list Z) (sender_ip : string) (now wall : Z)
  | EvNotifyDiscovered
  | EvEvict (now : Z)
  | EvNotifyLost
  | EvResources (s : ResourceSnapshot).

(** [None] when the thread is not at that point. *)
Definition net_next {IO : IterOrder} (ev : net_event) (n : network) : option network :=
  match ev with
  | EvReceive dg ip now wall =>
      match listener n with
      | Some _ => None
      | None =>
          let '(d, p) := receive_advert dg ip now wall (disc n) in
          Some (mkNetwork d (view n) p (evictor n))
      end
  | EvNotifyDiscovered =>
      match listener n with
      | Some p => Some (mkNetwork (disc n) (update_peer p (view n)) None (evictor n))
      | None => None
      end
  | EvEvict now =>
      match evictor n with
      | [] => let '(d, ps) := evict now (disc n) in Some (mkNetwork d (view n) (listener n) ps)
      | _ => None
      end
  | EvNotifyLost =>
      match evictor n with
      | p :: ps => Some (mkNetwork (disc n) (remove_peer (peer_node_id p) (view n)) (listener n) ps)
      | [] => None
      end
  | EvResources s =>
      Some (mkNetwork (update_local_resources s (disc n)) (view n) (listener n) (evictor n))
  end.

Definition net_step {IO : IterOrder} (n n' : network) : Prop := exists ev, net_next ev n = Some n'.

Fixpoint net_run {IO : IterOrder} (evs : list net_event) (n : network) : option network :=
  match evs with
  | [] => Some n
  | ev :: evs' => n' ← net_next ev n; net_run evs' n'
  end.

Definition new_network (d : PeerDiscovery) : network := mkNetwork d ∅ None [].
