(* ===== verification/DiscoveryTheorems.v ===== *)
(** What discovery guarantees: an advertisement arrives as it was sent, and the cluster
    view follows the table of known peers as long as the two threads' notifications are
    not reordered. *)

From Stdlib Require Import ZArith Lia Ascii String.
From stdpp Require Import base gmap strings relations numbers list.
From S2P Require Import Prelude Float32 Core Scheduler Cluster Discovery.

Local Open Scope Z_scope.

(** * Bytes *)

Lemma be_value_acc k v acc :
  foldl (fun acc b => acc * 256 + b) acc (be_bytes k v) = acc * 256 ^ Z.of_nat k + v mod 256 ^ Z.of_nat k.
Proof.
  revert acc. induction k as [|k IH]; intros acc; cbn [be_bytes foldl].
  - rewrite Z.mod_1_r. simpl. lia.
  - rewrite IH, Nat2Z.inj_succ, Z.pow_succ_r by lia. rewrite (Z.mul_comm 256 (256 ^ Z.of_nat k)).
    rewrite (Z.rem_mul_r v (256 ^ Z.of_nat k) 256) by lia. lia.
Qed.

Lemma be_roundtrip k v : 0 <= v < 256 ^ Z.of_nat k -> be_value (be_bytes k v) = v.
Proof. intros Hv. unfold be_value. rewrite be_value_acc, Z.mod_small by done. lia. Qed.

Lemma length_be_bytes k v : length (be_bytes k v) = k.
Proof. induction k; simpl; by f_equal. Qed.

Lemma string_bytes_roundtrip s : string_of_bytes (bytes_of_string s) = s.
Proof.
  unfold string_of_bytes, bytes_of_string. rewrite <- list_fmap_compose.
  rewrite (list_fmap_ext _ id); [|intros i c _; unfold compose; by rewrite N2Z.id, ascii_N_embedding].
  by rewrite list_fmap_id, String.string_of_list_ascii_of_string.
Qed.

Lemma before_nul_padded l n : before_nul (l ++ replicate (S n) 0) = before_nul l.
Proof. induction l as [|b l IH]; [done|]. cbn [app before_nul]. by rewrite IH. Qed.

Lemma before_nul_all l : 0 ∉ l -> before_nul l = l.
Proof.
  induction l as [|b l IH]; [done|]. intros [Hb Hl]%not_elem_of_cons. cbn [before_nul].
  rewrite (proj2 (Z.eqb_neq _ _)) by done. f_equal. by apply IH.
Qed.

Lemma field_skip (a b : list Z) off len :
  (length a <= off)%nat -> field off len (a ++ b) = field (off - length a) len b.
Proof. intros H. unfold field. by rewrite drop_app_ge. Qed.

Lemma field_here (b c : list Z) off len :
  off = 0%nat -> len = length b -> field off len (b ++ c) = b.
Proof. intros -> ->. unfold field. by rewrite drop_0, take_app_length. Qed.

Lemma field_last (b : list Z) off len : off = 0%nat -> len = length b -> field off len b = b.
Proof. intros -> ->. unfold field. by rewrite drop_0, take_ge. Qed.

Record packet_ok (p : AdvertPacket) : Prop := {
  ok_magic : length (magic p) = 4%nat;
  ok_reserved : length (reserved p) = 3%nat;
  ok_node_id : length (pkt_node_id p) = 32%nat;
  ok_port : length (tcp_port_be p) = 2%nat;
  ok_padding : length (padding p) = 2%nat;
  ok_cpu : length (cpu_usage_bits_be p) = 4%nat;
  ok_avail : length (memory_available_be p) = 8%nat;
  ok_total : length (memory_total_be p) = 8%nat;
  ok_temp : length (temperature_bits_be p) = 4%nat;
  ok_flags : length (flags_be p) = 4%nat
}.

Lemma packet_roundtrip p : packet_ok p ->
  length (packet_bytes p) = packet_size /\ packet_of_bytes (packet_bytes p) = p.
Proof.
  intros []. unfold packet_of_bytes, packet_bytes, packet_size.
  destruct p as [m v r i po pa c a t te f]; cbn [magic version reserved pkt_node_id tcp_port_be
    padding cpu_usage_bits_be memory_available_be memory_total_be temperature_bits_be flags_be] in *.
  split; [rewrite !length_app; simpl; lia|].
  assert (length [v] = 1%nat) by done.
  f_equal; [| |repeat (rewrite field_skip by lia); (apply field_here || apply field_last); lia..].
  - by apply field_here.
  - rewrite lookup_total_app_r by lia. by replace (4 - length m)%nat with 0%nat by lia.
Qed.

(** * Advertisements *)

(** An id the packet can carry: at most 31 bytes, none of them NUL. *)
Definition id_fits (id : NodeId) : Prop :=
  (length (bytes_of_string id) <= 31)%nat /\ 0 ∉ bytes_of_string id.

(** What is left of an id on the wire: at most 31 bytes, up to a NUL. *)
Definition wire_id (id : NodeId) : NodeId := string_of_bytes (before_nul (take 31 (bytes_of_string id))).

Lemma wire_id_fits id : id_fits id -> wire_id id = id.
Proof. intros [Hl Hn]. unfold wire_id. by rewrite take_ge, before_nul_all, string_bytes_roundtrip. Qed.

(** The fields hold values of their C++ types. *)
Definition advertised_ok (d : PeerDiscovery) : Prop :=
  0 <= tcp_port_ d < 2 ^ 16 /\
  f32_valid (cpu_usage_percent (local_resources_ d)) /\
  f32_valid (cpu_temperature_celsius (local_resources_ d)) /\
  is_u64 (memory_available_bytes (local_resources_ d)) /\
  is_u64 (memory_total_bytes (local_resources_ d)).

(** What a receiver should learn about [d]. *)
Definition advertised_peer (d : PeerDiscovery) (ip : string) (wall : Z) : PeerInfo :=
  let r := local_resources_ d in
  mkPeer (wire_id (node_id_ d))
    (mkSnapshot (wire_id (node_id_ d)) wall (cpu_usage_percent r) (replicate 4 f32_zero)
       (memory_available_bytes r) (memory_total_bytes r) (cpu_temperature_celsius r) f32_zero 0 0
       (is_throttled r))
    ip (tcp_port_ d) true.

Lemma build_advert_ok d : packet_ok (build_advert d).
Proof.
  split; unfold build_advert, float_to_wire;
    cbn [magic version reserved pkt_node_id tcp_port_be padding cpu_usage_bits_be
         memory_available_be memory_total_be temperature_bits_be flags_be];
    rewrite ?length_be_bytes; try done.
  rewrite length_app, length_replicate, length_take. lia.
Qed.

(** The id a receiver reads out of the packet. *)
Lemma advert_id d : string_of_bytes (before_nul (pkt_node_id (build_advert d))) = wire_id (node_id_ d).
Proof.
  cbn [pkt_node_id build_advert]. set (copied := take 31 _).
  assert (length copied <= 31)%nat by (unfold copied; rewrite length_take; lia).
  replace (32 - length copied)%nat with (S (31 - length copied)) by lia. by rewrite before_nul_padded.
Qed.

Lemma parse_build d ip wall : advertised_ok d ->
  parse_advert (build_advert d) ip wall = advertised_peer d ip wall.
Proof.
  intros (Hport & Hcpu & Htemp & Ha & Ht). unfold parse_advert. rewrite advert_id.
  unfold build_advert, advertised_peer, float_to_wire, float_from_wire.
  cbn [magic version reserved pkt_node_id tcp_port_be padding cpu_usage_bits_be
       memory_available_be memory_total_be temperature_bits_be flags_be].
  rewrite !be_roundtrip by (try apply f32_to_bits_range; try done; by destruct (is_throttled _)).
  rewrite !f32_bits_roundtrip by done. by destruct (is_throttled _).
Qed.

(** C34: an advertisement is a faithful message.  The 72 bytes a node broadcasts teach every
    receiver exactly its endpoint, load, memory, temperature and throttling flag, whatever
    trails the datagram, under the first 31 bytes of its id up to a NUL: the whole id, if it
    has at most 31 bytes and no NUL.  A receiver that has this id itself ignores the message,
    so a node whose id fits ignores its own broadcast; every other receiver enters the peer
    and reports it as discovered exactly when it did not know it. *)
Theorem advert_roundtrip d d2 ip now wall trailing :
  advertised_ok d ->
  let dg := packet_bytes (build_advert d) ++ trailing in
  let id := wire_id (node_id_ d) in
  let peer := advertised_peer d ip wall in
  length (packet_bytes (build_advert d)) = packet_size /\
  (id_fits (node_id_ d) -> id = node_id_ d /\ receive_advert dg ip now wall d = (d, None)) /\
  receive_advert dg ip now wall d2 =
    if decide (id = node_id_ d2) then (d2, None)
    else (with_peers d2 (<[id := mkRecord peer now]> (known_peers_ d2)),
          if decide (is_Some (known_peers_ d2 !! id)) then None else Some peer).
Proof.
  intros Hok. cbv zeta. destruct (packet_roundtrip _ (build_advert_ok d)) as [Hlen Hpkt].
  assert (forall d2, receive_advert (packet_bytes (build_advert d) ++ trailing) ip now wall d2 =
    if decide (wire_id (node_id_ d) = node_id_ d2) then (d2, None)
    else (with_peers d2 (<[wire_id (node_id_ d) := mkRecord (advertised_peer d ip wall) now]> (known_peers_ d2)),
          if decide (is_Some (known_peers_ d2 !! wire_id (node_id_ d))) then None
          else Some (advertised_peer d ip wall))) as Hrecv.
  { intros d'. unfold receive_advert. rewrite take_app_length' by done. rewrite Hlen, Nat.eqb_refl, Hpkt. cbn [negb].
    rewrite bool_decide_eq_true_2 by done. cbn [negb version build_advert].
    rewrite Z.eqb_refl. cbn [negb]. rewrite parse_build by done. cbn [advertised_peer peer_node_id].
    case_decide; [done|]. destruct (known_peers_ d' !! _); [by rewrite decide_True|].
    rewrite decide_False; [done|]. by intros [? ?]. }
  split_and!; [done| |apply Hrecv]. intros Hid%wire_id_fits. split; [done|]. rewrite Hrecv. by rewrite decide_True.
Qed.

(** * The table and the view *)

Section table.
Context {IO : IterOrder}.

Lemma evict_spec now d d' ps : evict now d = (d', ps) ->
  d' = with_peers d (known_peers_ d') /\
  (forall id r, known_peers_ d' !! id = Some r <->
     known_peers_ d !! id = Some r /\ expired now (peer_timeout_ms_ d) r = false) /\
  (forall p, p ∈ ps <-> exists id r, known_peers_ d !! id = Some r /\
     expired now (peer_timeout_ms_ d) r = true /\ p = info r).
Proof.
  unfold evict. set (m := known_peers_ d). set (t := peer_timeout_ms_ d).
  destruct (foldl _ _ _) as [m' ev] eqn:E. intros [= <- <-]. simpl. split; [done|].
  pose proof (foldl_inv (fun done acc =>
    (forall id r, acc.1 !! id = Some r <->
       m !! id = Some r /\ forall r', (id, r') ∈ done -> expired now t r' = false) /\
    (forall p, p ∈ acc.2 <-> exists id r, (id, r) ∈ done /\ expired now t r = true /\ p = info r))
    (evict_step now t) (m, []) (iter m)) as H.
  rewrite E in H. destruct H as [H1 H2].
  - simpl. set_solver.
  - intros done [m1 ev1] [id0 r0] [H1 H2]. unfold evict_step. cbn [fst snd] in *.
    destruct (expired now t r0) eqn:Ex; cbn [fst snd]; split.
    + intros id r. rewrite lookup_delete_Some, H1. setoid_rewrite elem_of_app.
      setoid_rewrite list_elem_of_singleton. split.
      * intros (Hne & Hm & Hd). split; [done|]. intros r' [Hin|[= -> ->]]; [by apply Hd|done].
      * intros (Hm & Hd). split_and!; [|done|by auto].
        intros ->. specialize (Hd r0 (or_intror eq_refl)). congruence.
    + intros p. rewrite elem_of_app, H2. setoid_rewrite elem_of_app.
      setoid_rewrite list_elem_of_singleton. naive_solver.
    + intros id r. rewrite H1. setoid_rewrite elem_of_app.
      setoid_rewrite list_elem_of_singleton. naive_solver congruence.
    + intros p. rewrite H2. setoid_rewrite elem_of_app.
      setoid_rewrite list_elem_of_singleton. naive_solver congruence.
  - split; [|intros p; setoid_rewrite elem_of_iter in H2; apply H2].
    intros id r. rewrite H1. setoid_rewrite elem_of_iter. naive_solver.
Qed.

Lemma receive_advert_cases dg ip now wall d d' p :
  receive_advert dg ip now wall d = (d', p) ->
  (d' = d /\ p = None) \/
  exists peer, peer_node_id peer <> node_id_ d /\ reachable peer = true /\
    d' = with_peers d (<[peer_node_id peer := mkRecord peer now]> (known_peers_ d)) /\
    p = match known_peers_ d !! peer_node_id peer with Some _ => None | None => Some peer end.
Proof.
  unfold receive_advert. set (peer := parse_advert _ _ _).
  repeat (case_match; [intros; simplify_eq; by left|]).
  intros H'. right. exists peer. split_and!; [done|done|..];
    by destruct (known_peers_ d !! peer_node_id peer); simplify_eq.
Qed.

(** ** Every interleaving *)

(** The table and the view are keyed by the peers' ids and never hold the node itself. *)
Record net_ok (self : NodeId) (n : network) : Prop := {
  nk_self : node_id_ (disc n) = self;
  nk_keys : forall id r, known_peers_ (disc n) !! id = Some r -> peer_node_id (info r) = id /\ id <> self;
  nk_listener : forall p, listener n = Some p -> peer_node_id p <> self /\ reachable p = true;
  nk_view : peers_keyed (view n);
  nk_view_self : view n !! self = None;
  nk_reachable : map_Forall (fun _ p => reachable p = true) (view n)
}.

Lemma net_next_ok self ev n n' : net_next ev n = Some n' -> net_ok self n -> net_ok self n'.
Proof.
  intros Hn [Hs Hk Hl Hv Hvs Hr]. destruct ev as [dg ip now wall| |now| |s]; cbn in Hn.
  - destruct (listener n); [done|]. destruct (receive_advert _ _ _ _ _) as [d p] eqn:E. injection Hn as <-.
    apply receive_advert_cases in E as [[-> ->]|(peer & Hne & Hre & -> & Hp)]; [by split|]. rewrite Hs in Hne.
    split; cbn; try done.
    + intros id r [[<- <-]|[_ ?]]%lookup_insert_Some; [done|by apply Hk].
    + intros q ->. by destruct (known_peers_ (disc n) !! _); simplify_eq.
  - destruct (listener n) as [p|] eqn:El; [|done]. injection Hn as <-. destruct (Hl p eq_refl) as [Hne Hre].
    split; cbn; try done.
    + by apply update_peer_keyed.
    + unfold update_peer. by rewrite lookup_insert_ne.
    + by apply map_Forall_insert_2.
  - destruct (evictor n); [|done]. destruct (evict now (disc n)) as [d ps] eqn:E. injection Hn as <-.
    apply evict_spec in E as (Hd & Hkeep & _). split; cbn; try done.
    + by rewrite Hd.
    + intros id r [? _]%Hkeep. by apply Hk.
  - destruct (evictor n) as [|p ps]; [done|]. injection Hn as <-. split; cbn; try done.
    + by apply remove_peer_keyed.
    + unfold remove_peer. by rewrite lookup_delete_None; right.
    + by apply map_Forall_delete.
  - injection Hn as <-. by split.
Qed.

Lemma new_network_ok id port timeout : net_ok id (new_network (new_discovery id port timeout)).
Proof. split; cbn; intros; try done; apply map_Forall_empty. Qed.

(** The view is fit for a scheduler.  Through any interleaving of received datagrams
    (well-formed or not), eviction rounds, notifications and resource updates, it holds peers
    under their own ids, reachable, never the node itself, and the node list a scheduler makes
    of it has no duplicates. *)
Theorem view_fits_scheduler id port timeout n :
  rtc net_step (new_network (new_discovery id port timeout)) n ->
  peers_keyed (view n) /\ view n !! id = None /\
  (forall local, snap_node_id local = id -> NoDup (node_ids local (snapshot (view n)))) /\
  length (peers (snapshot (view n))) = size (view n).
Proof.
  intros Hrun. assert (net_ok id n) as [_ _ _ V S Rc].
  { eapply (rtc_preserve (net_ok id)); [|done|apply new_network_ok].
    intros x y Hx [ev Hev]. by eapply net_next_ok. }
  split_and!; [done|done| |].
  - intros local Hl. apply snapshot_node_ids_distinct; [done|by rewrite Hl].
  - unfold snapshot. simpl. rewrite filter_all; [by rewrite length_fmap, length_iter|].
    apply Forall_forall. intros p ([m q] & -> & Hin%elem_of_iter)%list_elem_of_fmap. by apply (Rc m q).
Qed.
End table.

(** * Sockets *)

(** Whatever [start] ran into, [stop] leaves no socket open and no thread running, and
    threads run exactly when both sockets are usable. *)
Lemma start_stop_balanced socket1 socket2 bind_ret : socket1 <> socket2 \/ socket2 < 0 ->
  let s := start socket1 socket2 bind_ret io_idle in
  io_open (stop s) = ∅ /\ threads_running (stop s) = false /\
  (threads_running s = true <-> 0 <= broadcast_fd_ s /\ 0 <= listen_fd_ s).
Proof.
  intros Hne. unfold start, create_udp_socket.
  destruct (socket1 <? 0) eqn:H1; [split_and!; [done..|simpl; lia]|]. apply Z.ltb_ge in H1.
  rewrite (proj2 (Z.ltb_ge socket1 0)) by done.
  destruct (socket2 <? 0) eqn:H2; [unfold stop; simpl; split_and!; [set_solver|done|lia]|].
  apply Z.ltb_ge in H2. rewrite (proj2 (Z.ltb_ge socket2 0)) by done.
  destruct (bind_ret <? 0); unfold stop; simpl; [split_and!; [set_solver|done|lia]|].
  rewrite !Z.geb_leb, !(proj2 (Z.leb_le 0 _)) by done. split_and!; [set_solver|done|done].
Qed.

(** * Samples *)

Definition sample_disc (id : NodeId) : PeerDiscovery :=
  update_local_resources
    (mkSnapshot id 0 (f32_of_Z 25) (replicate 4 f32_zero) 4096 8192 (f32_of_Z 48) f32_zero 0 0 true)
    (new_discovery id 9001 6000).

Definition sample_advert : list Z := packet_bytes (build_advert (sample_disc "pi-1")).

Lemma advert_roundtrip_witness :
  wire_id "pi-1" = "pi-1" /\
  exists d', receive_advert (sample_advert ++ [7]) "10.0.0.7" 5 9 (new_discovery "pi-0" 9000 6000)
             = (d', Some (advertised_peer (sample_disc "pi-1") "10.0.0.7" 9)).
Proof.
  destruct (advert_roundtrip (sample_disc "pi-1") (new_discovery "pi-0" 9000 6000) "10.0.0.7" 5 9 [7])
    as (_ & H1 & H2).
  - unfold advertised_ok, f32_valid, is_u64. decide_now.
  - split; [apply H1; split; [vm_compute; lia|decide_now]|]. eexists. exact H2.
Defined.

(** The orders of notification the two threads allow: [pi-1] expires, and before the
    eviction thread delivers the loss a fresh advertisement rediscovers it. *)
Definition race : list net_event :=
  [EvReceive sample_advert "10.0.0.7" 0 0; EvNotifyDiscovered;
   EvEvict 7000000000;
   EvReceive sample_advert "10.0.0.7" 7000000001 7; EvNotifyDiscovered;
   EvNotifyLost].

Lemma known_peer_not_announced {IO : IterOrder} dg ip now wall n n' id :
  is_Some (known_peers_ (disc n) !! id) -> net_next (EvReceive dg ip now wall) n = Some n' ->
  view n' = view n /\ is_Some (known_peers_ (disc n') !! id) /\
  forall p, listener n' = Some p -> peer_node_id p <> id.
Proof.
  intros Hk. unfold net_next. destruct (listener n); [done|].
  destruct (receive_advert _ _ _ _ _) as [d p] eqn:E. intros [= <-]. simpl. split; [done|].
  apply receive_advert_cases in E as [[-> ->]|(peer & _ & _ & -> & ->)]; [done|]. simpl.
  split; [rewrite lookup_insert_is_Some; destruct (decide (peer_node_id peer = id)); auto|].
  intros p' Hp <-. destruct Hk as [r Hr]. destruct (known_peers_ (disc n) !! peer_node_id peer) eqn:E;
    simplify_eq.
Qed.

(** The view can lose a live peer for good.  There is an interleaving of the two
    discovery threads after which [pi-1] is known, was heard from after its eviction, no
    notification is pending, and yet the cluster view does not hold it; and no further
    advertisement of it is announced, so only its next timeout can repair the view. *)
Theorem notification_race_hides_live_peer :
  exists n, @net_run IterCanonical race (new_network (new_discovery "pi-0" 9000 6000)) = Some n /\
    is_Some (known_peers_ (disc n) !! "pi-1") /\ view n !! "pi-1" = None /\
    listener n = None /\ evictor n = [] /\
    forall dg ip now wall n', @net_next IterCanonical (EvReceive dg ip now wall) n = Some n' ->
      view n' = view n /\ is_Some (known_peers_ (disc n') !! "pi-1") /\
      forall p, listener n' = Some p -> peer_node_id p <> "pi-1".
Proof.
  destruct (net_run race _) as [n|] eqn:E; [|exfalso; revert E; vm_compute; discriminate].
  assert (option_map (fun n => (bool_decide (is_Some (known_peers_ (disc n) !! "pi-1")),
             bool_decide (view n !! "pi-1" = None), bool_decide (listener n = None),
             match evictor n with [] => true | _ => false end)) (Some n)
          = Some (true, true, true, true)) as H.
  { rewrite <- E. vm_compute. reflexivity. }
  injection H as H1%bool_decide_eq_true H2%bool_decide_eq_true H3%bool_decide_eq_true H4.
  exists n. split_and!; [done..|by destruct (evictor n)|].
  intros dg ip now wall n'. by apply known_peer_not_announced.
Qed.
