(* ===== verification/Generator.v ===== *)
(** [workload/generator.cpp]: the five synthetic workloads.

    Each loop is a fold over the indices it runs through, in the order of the calls it
    makes on the DAG. *)

From Stdlib Require Import ZArith Lia Ascii.
From stdpp Require Import base gmap strings relations numbers pretty list.
From S2P Require Import Prelude Float32 Core Dag Kahn Cycle DagTheorems Codec CodecTheorems.

Local Open Scope Z_scope.
Local Open Scope cpp_scope.

(** [std::to_string] of a [size_t]. *)
Definition to_string (i : nat) : string := pretty i.

Definition fresh_task (id name : string) (profile : TaskProfile) : Task :=
  mkTask id name profile [] Pending.

(** [dag.add_task(...)] where the returned id is not used. *)
Definition put (t : Task) (d : WorkloadDAG) : WorkloadDAG := (add_task t d).2.

(** * Linear chain *)

Definition chain_id (i : nat) : TaskId := "chain_" +:+ to_string i.

Definition chain_step (base_profile : TaskProfile) (acc : WorkloadDAG * TaskId) (i : nat)
  : WorkloadDAG * TaskId :=
  let '(dag, prev_id) := acc in
  let '(id, dag) := add_task (fresh_task (chain_id i) ("Chain Task " +:+ to_string i) base_profile) dag in
  let dag := if decide (0 < i)%nat then add_dependency prev_id id dag else dag in
  (dag, id).

Definition linear_chain (num_tasks : nat) (base_profile : TaskProfile) : WorkloadDAG :=
  (foldl (chain_step base_profile) (empty_dag, "") (seq 0 num_tasks)).1.

(** * Fan-out / fan-in *)

Definition fan_branch_id (i : nat) : TaskId := "fan_branch_" +:+ to_string i.

Definition fan_step (base_profile : TaskProfile) (acc : WorkloadDAG * list TaskId) (i : nat)
  : WorkloadDAG * list TaskId :=
  let '(dag, branch_ids) := acc in
  let branch_id := fan_branch_id i in
  let dag := put (fresh_task branch_id ("Branch " +:+ to_string i) base_profile) dag in
  let dag := add_dependency "fan_src" branch_id dag in
  (dag, branch_ids ++ [branch_id]).

Definition fan_out_fan_in (width : nat) (base_profile : TaskProfile) : WorkloadDAG :=
  let src_profile := mkProfile (compute_cost base_profile) (memory_bytes base_profile)
                       (input_bytes base_profile) (input_bytes base_profile *! Z.of_nat width) in
  let dag := put (fresh_task "fan_src" "Fan-Out Source" src_profile) empty_dag in
  let '(dag, branch_ids) := foldl (fan_step base_profile) (dag, []) (seq 0 width) in
  let sink_profile := mkProfile (compute_cost base_profile) (memory_bytes base_profile)
                        (output_bytes base_profile *! Z.of_nat width) (output_bytes base_profile) in
  let dag := put (fresh_task "fan_sink" "Fan-In Sink" sink_profile) dag in
  foldl (fun dag branch_id => add_dependency branch_id "fan_sink" dag) dag branch_ids.

(** * Diamond *)

Definition hub_id (d : nat) : TaskId := "hub_" +:+ to_string d.
Definition merge_id (d : nat) : TaskId := "merge_" +:+ to_string d.
Definition diamond_id (d w : nat) : TaskId := "diamond_" +:+ to_string d +:+ "_" +:+ to_string w.

Definition diamond_branch (base_profile : TaskProfile) (d : nat) (acc : WorkloadDAG * list TaskId)
    (w : nat) : WorkloadDAG * list TaskId :=
  let '(dag, branch_ids) := acc in
  let branch_id := diamond_id d w in
  let dag := put (fresh_task branch_id
                    ("Diamond D" +:+ to_string d +:+ " B" +:+ to_string w) base_profile) dag in
  let dag := add_dependency (hub_id d) branch_id dag in
  (dag, branch_ids ++ [branch_id]).

Definition diamond_level (width : nat) (base_profile : TaskProfile) (acc : WorkloadDAG * TaskId)
    (d : nat) : WorkloadDAG * TaskId :=
  let '(dag, prev_hub) := acc in
  let dag := put (fresh_task (hub_id d) ("Hub " +:+ to_string d) base_profile) dag in
  let dag := if decide (0 < d)%nat then add_dependency prev_hub (hub_id d) dag else dag in
  let '(dag, branch_ids) := foldl (diamond_branch base_profile d) (dag, []) (seq 0 width) in
  let sink_id := merge_id d in
  let dag := put (fresh_task sink_id ("Merge " +:+ to_string d) base_profile) dag in
  let dag := foldl (fun dag bid => add_dependency bid sink_id dag) dag branch_ids in
  (dag, sink_id).

Definition diamond (depth width : nat) (base_profile : TaskProfile) : WorkloadDAG :=
  (foldl (diamond_level width base_profile) (empty_dag, "") (seq 0 depth)).1.

(** * Transformer layers *)

Definition attn_id (i : nat) : TaskId := "layer_" +:+ to_string i +:+ "_attn".
Definition ffn_id (i : nat) : TaskId := "layer_" +:+ to_string i +:+ "_ffn".

Definition layer_step (hidden_dim kv_cache_bytes_per_layer : Z) (acc : WorkloadDAG * TaskId) (i : nat)
  : WorkloadDAG * TaskId :=
  let '(dag, prev_id) := acc in
  let io_bytes := hidden_dim *! 4 in
  let attn_memory := (hidden_dim *! hidden_dim *! 4)
                     +! (kv_cache_bytes_per_layer *! (Z.of_nat i +! 1)) in
  let dag := put (fresh_task (attn_id i) ("Layer " +:+ to_string i +:+ " Attention")
                    (mkProfile (i64 (hidden_dim *! 2)) attn_memory io_bytes io_bytes)) dag in
  let dag := if decide (0 < i)%nat then add_dependency prev_id (attn_id i) dag else dag in
  let ffn_memory := hidden_dim *! hidden_dim *! 4 *! 4 in
  let dag := put (fresh_task (ffn_id i) ("Layer " +:+ to_string i +:+ " FFN")
                    (mkProfile (i64 (hidden_dim *! 4)) ffn_memory io_bytes io_bytes)) dag in
  let dag := add_dependency (attn_id i) (ffn_id i) dag in
  (dag, ffn_id i).

Definition transformer_layers (num_layers : nat) (hidden_dim kv_cache_bytes_per_layer : Z) : WorkloadDAG :=
  (foldl (layer_step hidden_dim kv_cache_bytes_per_layer) (empty_dag, "") (seq 0 num_layers)).1.

(** * Random DAG *)

(** [std::mt19937] and the distributions drawn from it. *)
Class Mt19937 := {
  mt_state : Type;
  uniform_int64 : Z -> Z -> mt_state -> Z * mt_state;
  uniform_uint64 : Z -> Z -> mt_state -> Z * mt_state;
  uniform_float01 : mt_state -> float32 * mt_state
}.

(** What the standard says of the integer distributions. *)
Class Mt19937Laws (MT : Mt19937) := {
  uniform_int64_range : forall a b r, a <= b -> a <= (uniform_int64 a b r).1 <= b;
  uniform_uint64_range : forall a b r, a <= b -> a <= (uniform_uint64 a b r).1 <= b
}.

Section random.
Context {MT : Mt19937}.

Definition rand_id (i : nat) : TaskId := "rand_" +:+ to_string i.

(** The members of a braced initialiser are evaluated in order. *)
Definition random_profile (lo hi : TaskProfile) (rng : mt_state) : TaskProfile * mt_state :=
  let '(c, rng) := uniform_int64 (compute_cost lo) (compute_cost hi) rng in
  let '(m, rng) := uniform_uint64 (memory_bytes lo) (memory_bytes hi) rng in
  let '(i, rng) := uniform_uint64 (input_bytes lo) (input_bytes hi) rng in
  let '(o, rng) := uniform_uint64 (output_bytes lo) (output_bytes hi) rng in
  (mkProfile c m i o, rng).

Definition random_task_step (lo hi : TaskProfile) (acc : WorkloadDAG * list TaskId * mt_state) (i : nat)
  : WorkloadDAG * list TaskId * mt_state :=
  let '(dag, task_ids, rng) := acc in
  let '(profile, rng) := random_profile lo hi rng in
  let dag := put (fresh_task (rand_id i) ("Random Task " +:+ to_string i) profile) dag in
  (dag, task_ids ++ [rand_id i], rng).

Definition random_edge_step (edge_probability : float32) (task_ids : list TaskId)
    (acc : WorkloadDAG * mt_state) (ij : nat * nat) : WorkloadDAG * mt_state :=
  let '(dag, rng) := acc in
  let '(x, rng) := uniform_float01 rng in
  if f32_ltb x edge_probability
  then (add_dependency (task_ids !!! ij.1) (task_ids !!! ij.2) dag, rng)
  else (dag, rng).

(** The pairs the nested loops visit. *)
Definition index_pairs (n : nat) : list (nat * nat) :=
  i ← seq 0 n; (fun j => (i, j)) <$> seq (S i) (n - S i).

Definition random_dag (num_tasks : nat) (edge_probability : float32) (min_profile max_profile : TaskProfile)
    (rng : mt_state) : WorkloadDAG * mt_state :=
  let '(dag, task_ids, rng) :=
    foldl (random_task_step min_profile max_profile) (empty_dag, [], rng) (seq 0 num_tasks) in
  foldl (random_edge_step edge_probability task_ids) (dag, rng) (index_pairs num_tasks).
End random.

(** * Construction order

    [ids] lists the tasks in the order they were added; every edge goes forward in it. *)

Definition before (ids : list TaskId) (u v : TaskId) : Prop :=
  exists i j, (i < j)%nat /\ ids !! i = Some u /\ ids !! j = Some v.

Record generated (ids : list TaskId) (d : WorkloadDAG) : Prop := {
  gen_distinct : NoDup ids;
  gen_known : forall v, known d v <-> v ∈ ids;
  gen_forward : forall u v, edge d u v -> before ids u v;
  gen_wf : dag_wf d;
  gen_mirror : deps_mirror d
}.

Lemma before_app ids k u v : before ids u v -> before (ids ++ k) u v.
Proof. intros (i & j & Hij & Hu & Hv). exists i, j. split_and!; [done|by apply lookup_app_l_Some..]. Qed.

Lemma before_snoc ids u v : u ∈ ids -> before (ids ++ [v]) u v.
Proof.
  intros [i Hi]%list_elem_of_lookup. exists i, (length ids). split_and!.
  - by eapply lookup_lt_Some.
  - by apply lookup_app_l_Some.
  - by rewrite list_lookup_middle.
Qed.

Lemma generated_empty : generated [] empty_dag.
Proof.
  split; [constructor| | |apply dag_wf_empty|apply deps_mirror_empty].
  - intros v. unfold known. simpl. rewrite lookup_empty. split; [by intros []|set_solver].
  - intros u v. unfold edge, dependents. simpl. rewrite lookup_empty. set_solver.
Qed.

Lemma generated_put ids d t : generated ids d -> task_id t ∉ ids -> task_dependencies t = [] ->
  generated (ids ++ [task_id t]) (put t d).
Proof.
  intros [Hn Hk Hf Hw Hm] Hnew Ht. split.
  - apply NoDup_app. split_and!; [done|set_solver|apply NoDup_singleton].
  - intros v. unfold put. rewrite known_add_task, Hk. set_solver.
  - intros u v. unfold put. rewrite edge_add_task. intros He. by apply before_app, Hf.
  - eapply dag_wf_step; [apply step_add_task|done].
  - apply deps_mirror_add_task; [done|done|]. right. intros u He. apply Hnew.
    destruct (Hf _ _ He) as (i & j & _ & _ & Hj). by eapply list_elem_of_lookup_2.
Qed.

Lemma generated_edge ids d u v : generated ids d -> before ids u v -> generated ids (add_dependency u v d).
Proof.
  intros [Hn Hk Hf Hw Hm] Hb. split; [done| | | |by apply deps_mirror_add_dependency].
  - intros x. by rewrite known_add_dependency.
  - intros x y [He|[-> ->]]%edge_add_dependency; [by apply Hf|done].
  - eapply dag_wf_step; [apply step_add_dependency|done].
Qed.

(** What every client of a generator relies on. *)
Record well_generated (n : nat) (d : WorkloadDAG) : Prop := {
  wg_wf : dag_wf d;
  wg_mirror : deps_mirror d;
  wg_closed : closed d;
  wg_acyclic : acyclic (edge d);
  wg_count : task_count d = n
}.

Lemma generated_well ids d : generated ids d -> well_generated (length ids) d.
Proof.
  intros [Hn Hk Hf Hw Hm]. split; [done|done| | |].
  - intros u v (i & j & _ & Hi & Hj)%Hf. split; apply Hk; by eapply list_elem_of_lookup_2.
  - assert (forall x y, tc (edge d) x y -> before ids x y) as H.
    { induction 1 as [x y He|x y z He _ IH]; [by apply Hf|].
      apply Hf in He as (i & j & Hij & Hi & Hj). destruct IH as (j' & l & Hjl & Hj' & Hl).
      assert (j = j') as <- by by eapply NoDup_lookup. exists i, l. split_and!; [lia|done..]. }
    intros x (i & j & Hij & Hi & Hj)%H. assert (i = j) by by eapply NoDup_lookup. lia.
  - unfold task_count. rewrite <- size_dom.
    rewrite (leibniz_equiv (dom (tasks_ d)) (list_to_set ids)), size_list_to_set by
      (try done; intros v; rewrite elem_of_dom, elem_of_list_to_set; apply Hk). done.
Qed.
