(* ===== verification/GeneratorTheorems.v ===== *)
(** Every generated workload is a valid DAG, ready for the scheduler and the wire. *)

From Stdlib Require Import ZArith Lia Ascii String.
From stdpp Require Import base gmap strings relations numbers pretty list.
From S2P Require Import Prelude Float32 Core Dag Kahn Cycle DagTheorems Codec CodecTheorems Generator.

Local Open Scope Z_scope.

(** * The ids are distinct *)

Abbreviation chars := String.list_ascii_of_string.
Definition sep : ascii := "_"%char.

Lemma pretty_go_no_sep x s : sep ∉ chars s -> sep ∉ chars (pretty_N_go x s).
Proof.
  revert s. induction (N.lt_wf_0 x) as [x _ IH]; intros s Hs.
  assert (x = 0 \/ 0 < x)%N as [->|Hx] by lia; [by rewrite pretty_N_go_0|].
  rewrite pretty_N_go_step by done. apply IH; [by apply N.div_lt|].
  simpl. apply not_elem_of_cons. split; [|done].
  unfold pretty_N_char, sep. by repeat case_match.
Qed.

Lemma to_string_no_sep i : sep ∉ chars (to_string i).
Proof.
  unfold to_string, pretty, pretty_nat, pretty, pretty_N. case_decide.
  - simpl. rewrite list_elem_of_singleton. done.
  - apply pretty_go_no_sep. simpl. set_solver.
Qed.

Lemma sep_inj a b x y : sep ∉ chars a -> sep ∉ chars b ->
  a +:+ "_" +:+ x = b +:+ "_" +:+ y -> a = b /\ x = y.
Proof.
  revert b. induction a as [|c a IH]; intros [|c' b] Ha Hb; simpl in *.
  - intros [= H]. split; [done|exact H].
  - intros [= <- _]. set_solver.
  - intros [= -> _]. set_solver.
  - intros [= -> H]. destruct (IH b) as [-> ->]; [set_solver..|done|done].
Qed.

Lemma to_string_inj i j : to_string i = to_string j -> i = j.
Proof. apply (inj pretty). Qed.

Lemma chain_id_inj i j : chain_id i = chain_id j -> i = j.
Proof. intros [= H]. by apply to_string_inj. Qed.

Lemma fan_branch_id_inj i j : fan_branch_id i = fan_branch_id j -> i = j.
Proof. intros [= H]. by apply to_string_inj. Qed.

Lemma rand_id_inj i j : rand_id i = rand_id j -> i = j.
Proof. intros [= H]. by apply to_string_inj. Qed.

Lemma hub_id_inj i j : hub_id i = hub_id j -> i = j.
Proof. intros [= H]. by apply to_string_inj. Qed.

Lemma merge_id_inj i j : merge_id i = merge_id j -> i = j.
Proof. intros [= H]. by apply to_string_inj. Qed.

Lemma diamond_id_inj d w d' w' : diamond_id d w = diamond_id d' w' -> d = d' /\ w = w'.
Proof.
  intros [= H]. apply sep_inj in H as [?%to_string_inj ?%to_string_inj]; auto using to_string_no_sep.
Qed.

Lemma layer_id_inj i j s s' :
  "layer_" +:+ to_string i +:+ "_" +:+ s = "layer_" +:+ to_string j +:+ "_" +:+ s' -> i = j /\ s = s'.
Proof.
  intros [= H]. apply sep_inj in H as [?%to_string_inj ?]; auto using to_string_no_sep.
Qed.

Lemma fmap_seq_fresh (f : nat -> TaskId) n k : (forall i j, f i = f j -> i = j) -> (k <= n)%nat ->
  f n ∉ f <$> seq 0 k.
Proof. intros Hf Hk (i & ->%Hf & Hi%elem_of_seq)%list_elem_of_fmap. lia. Qed.

Lemma fmap_seq_S {A} (f : nat -> A) n : f <$> seq 0 (S n) = (f <$> seq 0 n) ++ [f n].
Proof. by rewrite seq_S, fmap_app. Qed.

(** * Steps that keep the construction order *)

(** A new task and an edge into it. *)
Lemma generated_child ids d t u : generated ids d -> task_id t ∉ ids -> task_dependencies t = [] ->
  u ∈ ids -> generated (ids ++ [task_id t]) (add_dependency u (task_id t) (put t d)).
Proof. intros. apply generated_edge; [by apply generated_put|by apply before_snoc]. Qed.

(** Edges from earlier tasks into the newest one. *)
Lemma generated_fan_in ids d v us : generated (ids ++ [v]) d -> (forall u, u ∈ us -> u ∈ ids) ->
  generated (ids ++ [v]) (foldl (fun dag u => add_dependency u v dag) d us).
Proof.
  revert d. induction us as [|u us IH]; intros d Hd Hus; simpl; [done|].
  apply IH; [|set_solver]. apply generated_edge; [done|]. apply before_snoc. set_solver.
Qed.

(** * The five generators *)

Lemma linear_chain_generated n p : generated (chain_id <$> seq 0 n) (linear_chain n p).
Proof.
  unfold linear_chain. set (acc := foldl _ _ _).
  cut (generated (chain_id <$> seq 0 n) acc.1 /\ ((0 < n)%nat -> acc.2 ∈ chain_id <$> seq 0 n)); [by intros []|].
  subst acc. induction n as [|n [IH Hprev]]; [split; [apply generated_empty|lia]|].
  rewrite fmap_seq_S, seq_S, foldl_app. cbn [foldl Nat.add].
  destruct (foldl _ _ (seq 0 n)) as [d prev]. cbn [fst snd] in IH, Hprev. unfold chain_step.
  set (t := fresh_task _ _ _). assert (task_id t ∉ chain_id <$> seq 0 n) as Hnew
    by (by apply fmap_seq_fresh; [apply chain_id_inj|]).
  change (add_task t d) with (task_id t, put t d). cbn [fst snd]. split.
  - case_decide; [|by apply (generated_put _ _ t)].
    apply (generated_child _ _ t); auto.
  - set_solver.
Qed.

Lemma fan_branches_generated p n d : generated ["fan_src"] d ->
  let '(d', bs) := foldl (fan_step p) (d, []) (seq 0 n) in
  generated ("fan_src" :: (fan_branch_id <$> seq 0 n)) d' /\ bs = fan_branch_id <$> seq 0 n.
Proof.
  intros Hd. induction n as [|n IH]; [done|].
  rewrite fmap_seq_S, seq_S, foldl_app. cbn [foldl Nat.add].
  destruct (foldl _ _ (seq 0 n)) as [d' bs]. destruct IH as [IH ->]. cbn [fan_step]. split; [|done].
  rewrite app_comm_cons. set (t := fresh_task _ _ _). apply (generated_child _ _ t); [done| |done|by left].
  apply not_elem_of_cons. split; [done|]. by apply fmap_seq_fresh; [apply fan_branch_id_inj|].
Qed.

Lemma fan_generated w p :
  generated (("fan_src" :: (fan_branch_id <$> seq 0 w)) ++ ["fan_sink"]) (fan_out_fan_in w p).
Proof.
  unfold fan_out_fan_in. set (src := fresh_task "fan_src" _ _).
  assert (generated ["fan_src"] (put src empty_dag)) as Hsrc.
  { apply (generated_put [] _ src); [apply generated_empty|set_solver|done]. }
  pose proof (fan_branches_generated p w _ Hsrc) as Hb.
  destruct (foldl _ _ (seq 0 w)) as [d bs]. destruct Hb as [Hb ->].
  apply generated_fan_in; [|set_solver]. set (t := fresh_task "fan_sink" _ _).
  apply (generated_put _ _ t); [done| |done].
  apply not_elem_of_cons. split; [done|]. by intros (i & [=] & _)%list_elem_of_fmap.
Qed.

(** The ids of one diamond level, and of the levels before [d]. *)
Definition level_ids (width d : nat) : list TaskId :=
  (hub_id d :: (diamond_id d <$> seq 0 width)) ++ [merge_id d].
Definition levels_ids (width d : nat) : list TaskId := seq 0 d ≫= level_ids width.

Lemma elem_of_levels_ids width d x : x ∈ levels_ids width d ->
  exists d', (d' < d)%nat /\ (x = hub_id d' \/ x = merge_id d' \/ exists w, x = diamond_id d' w).
Proof.
  unfold levels_ids. rewrite list_elem_of_bind.
  intros (d' & Hx & Hd%elem_of_seq). exists d'. split; [lia|].
  unfold level_ids in Hx. apply elem_of_app in Hx as [[->|(w & -> & _)%list_elem_of_fmap]%elem_of_cons|H];
    [auto|eauto|]. apply list_elem_of_singleton in H. auto.
Qed.

Lemma levels_ids_S width d : levels_ids width (S d) = levels_ids width d ++ level_ids width d.
Proof. unfold levels_ids. by rewrite seq_S, bind_app, bind_singleton. Qed.

Lemma fresh_in_levels width d :
  hub_id d ∉ levels_ids width d /\ merge_id d ∉ levels_ids width d /\
  forall w, diamond_id d w ∉ levels_ids width d.
Proof.
  split_and!; [| |intros w]; intros (d' & Hd & [H|[H|[w' H]]])%elem_of_levels_ids; try done;
    first [apply hub_id_inj in H | apply merge_id_inj in H | apply diamond_id_inj in H as [H _]]; lia.
Qed.

Lemma diamond_branches_generated p d ids n dag : generated (ids ++ [hub_id d]) dag ->
  (forall w, diamond_id d w ∉ ids) ->
  let '(dag', bs) := foldl (diamond_branch p d) (dag, []) (seq 0 n) in
  generated (ids ++ hub_id d :: (diamond_id d <$> seq 0 n)) dag' /\ bs = diamond_id d <$> seq 0 n.
Proof.
  intros Hd Hids. induction n as [|n IH]; [done|].
  rewrite fmap_seq_S, seq_S, foldl_app. cbn [foldl Nat.add].
  destruct (foldl _ _ (seq 0 n)) as [d' bs]. destruct IH as [IH ->]. cbn [diamond_branch]. split; [|done].
  rewrite app_comm_cons, (assoc_L (++)). set (t := fresh_task _ _ _).
  apply (generated_child _ _ t); [done| |done|set_solver].
  apply not_elem_of_app. split; [apply Hids|]. apply not_elem_of_cons. split; [done|].
  apply fmap_seq_fresh; [|done]. by intros i j [_ ?]%diamond_id_inj.
Qed.

Lemma diamond_level_generated w p d dag prev : generated (levels_ids w d) dag ->
  ((0 < d)%nat -> prev ∈ levels_ids w d) ->
  let '(dag', prev') := diamond_level w p (dag, prev) d in
  generated (levels_ids w (S d)) dag' /\ prev' ∈ levels_ids w (S d).
Proof.
  intros Hd Hprev. unfold diamond_level. destruct (fresh_in_levels w d) as (Hh & Hm & Hb).
  set (hub := fresh_task (hub_id d) _ _).
  set (dag1 := if decide _ then _ else _).
  assert (generated (levels_ids w d ++ [hub_id d]) dag1) as H1.
  { subst dag1. case_decide; [apply (generated_child _ _ hub)|apply (generated_put _ _ hub)]; auto. }
  pose proof (diamond_branches_generated p d _ w _ H1 Hb) as H2.
  destruct (foldl _ _ (seq 0 w)) as [dag2 bs]. destruct H2 as [H2 ->].
  rewrite levels_ids_S. unfold level_ids. rewrite (assoc_L (++)). split; [|set_solver].
  apply generated_fan_in; [|set_solver]. set (t := fresh_task (merge_id d) _ _).
  apply (generated_put _ _ t); [done| |done].
  rewrite not_elem_of_app, not_elem_of_cons. split_and!; [done|done|].
  by intros (i & [=] & _)%list_elem_of_fmap.
Qed.

Lemma diamond_generated depth w p : generated (levels_ids w depth) (diamond depth w p).
Proof.
  unfold diamond. set (acc := foldl _ _ _).
  cut (generated (levels_ids w depth) acc.1 /\ ((0 < depth)%nat -> acc.2 ∈ levels_ids w depth)); [by intros []|].
  subst acc. induction depth as [|d [IH Hprev]]; [split; [apply generated_empty|lia]|].
  rewrite seq_S, foldl_app. cbn [foldl Nat.add].
  destruct (foldl _ _ (seq 0 d)) as [dag prev]. cbn [fst snd] in IH, Hprev.
  pose proof (diamond_level_generated w p d dag prev IH Hprev) as H.
  by destruct (diamond_level w p (dag, prev) d) as [dag' prev'], H.
Qed.

Lemma length_levels_ids w d : length (levels_ids w d) = (d * (w + 2))%nat.
Proof.
  induction d as [|d IH]; [done|]. rewrite levels_ids_S, length_app, IH. unfold level_ids.
  rewrite length_app. simpl. rewrite length_fmap, length_seq. lia.
Qed.

Definition layer_ids (n : nat) : list TaskId := i ← seq 0 n; [attn_id i; ffn_id i].

Lemma layer_ids_S n : layer_ids (S n) = layer_ids n ++ [attn_id n] ++ [ffn_id n].
Proof. unfold layer_ids. by rewrite seq_S, bind_app. Qed.

Lemma elem_of_layer_ids n x : x ∈ layer_ids n -> exists i, (i < n)%nat /\ (x = attn_id i \/ x = ffn_id i).
Proof.
  unfold layer_ids. rewrite list_elem_of_bind. intros (i & Hx & Hi%elem_of_seq). exists i.
  split; [lia|set_solver].
Qed.

Lemma transformer_generated n h kv : generated (layer_ids n) (transformer_layers n h kv).
Proof.
  unfold transformer_layers. set (acc := foldl _ _ _).
  cut (generated (layer_ids n) acc.1 /\ ((0 < n)%nat -> acc.2 ∈ layer_ids n)); [by intros []|].
  subst acc. induction n as [|n [IH Hprev]]; [split; [apply generated_empty|lia]|].
  rewrite seq_S, foldl_app. cbn [foldl Nat.add].
  destruct (foldl _ _ (seq 0 n)) as [dag prev]. cbn [fst snd] in IH, Hprev. cbn [layer_step fst snd].
  set (attn := fresh_task (attn_id n) _ _). set (ffn := fresh_task (ffn_id n) _ _).
  rewrite layer_ids_S, (assoc_L (++)). split; [|set_solver].
  assert (forall s, "layer_" +:+ to_string n +:+ "_" +:+ s ∉ layer_ids n) as Hfresh.
  { intros s (i & Hi & [H|H])%elem_of_layer_ids; apply layer_id_inj in H as [? _]; lia. }
  apply (generated_child _ _ ffn); [| |done|set_solver].
  - case_decide; [apply (generated_child _ _ attn)|apply (generated_put _ _ attn)]; auto; apply Hfresh.
  - rewrite not_elem_of_app, list_elem_of_singleton. split; [apply Hfresh|].
    by intros [_ [=]]%layer_id_inj.
Qed.

Lemma length_layer_ids n : length (layer_ids n) = (2 * n)%nat.
Proof. induction n as [|n IH]; [done|]. rewrite layer_ids_S, !length_app, IH. simpl. lia. Qed.

Section random.
Context {MT : Mt19937}.

Lemma random_tasks_generated lo hi n rng :
  let '(d, ids, _) := foldl (random_task_step lo hi) (empty_dag, [], rng) (seq 0 n) in
  generated (rand_id <$> seq 0 n) d /\ ids = rand_id <$> seq 0 n.
Proof.
  induction n as [|n IH]; [split; [apply generated_empty|done]|].
  rewrite fmap_seq_S, seq_S, foldl_app. cbn [foldl Nat.add].
  destruct (foldl _ _ (seq 0 n)) as [[d ids] r]. destruct IH as [IH ->]. cbn [random_task_step].
  destruct (random_profile lo hi r) as [p r']. split; [|done].
  set (t := fresh_task _ _ _). apply (generated_put _ _ t); [done| |done].
  by apply fmap_seq_fresh; [apply rand_id_inj|].
Qed.

Lemma index_pairs_ordered n i j : (i, j) ∈ index_pairs n -> (i < j < n)%nat.
Proof.
  unfold index_pairs. intros (i' & Hj & Hi%elem_of_seq)%list_elem_of_bind.
  apply list_elem_of_fmap in Hj as (j' & [= -> ->] & Hj%elem_of_seq). lia.
Qed.

Lemma random_edge_generated n prob d r ij : generated (rand_id <$> seq 0 n) d -> ij ∈ index_pairs n ->
  generated (rand_id <$> seq 0 n) (random_edge_step prob (rand_id <$> seq 0 n) (d, r) ij).1.
Proof.
  destruct ij as [i j]. intros Hd Hij%index_pairs_ordered. unfold random_edge_step.
  destruct (uniform_float01 r) as [x r']. case_match; [|done]. apply generated_edge; [done|].
  assert (forall k, (k < n)%nat -> (rand_id <$> seq 0 n) !! k = Some (rand_id k)) as Hk.
  { intros k Hk. rewrite list_lookup_fmap, lookup_seq_lt by done. done. }
  exists i, j. cbn [fst snd]. rewrite !list_lookup_total_alt, !Hk by lia. split_and!; [lia|done..].
Qed.

Lemma random_generated n prob lo hi rng :
  generated (rand_id <$> seq 0 n) (random_dag n prob lo hi rng).1.
Proof.
  unfold random_dag. pose proof (random_tasks_generated lo hi n rng) as H.
  destruct (foldl _ _ (seq 0 n)) as [[d ids] r]. destruct H as [Hd ->].
  apply (foldl_prefix_inv (fun _ acc => generated (rand_id <$> seq 0 n) acc.1)); [done|].
  intros done ij rest [d' r'] E Hd'. apply random_edge_generated; [done|].
  rewrite E. set_solver.
Qed.
End random.

(** * Theorem *)

Section valid.
Context {IO : IterOrder}.

(** A DAG of [n] tasks the whole system accepts: consistent, validated when non-empty, and
    scheduled completely. *)
Definition usable (n : nat) (d : WorkloadDAG) : Prop :=
  well_generated n d /\ is_valid d = bool_decide (0 < n)%nat /\ length (topological_order d) = n.

Lemma generated_usable ids d : generated ids d -> usable (length ids) d.
Proof.
  intros Hg. pose proof (generated_well ids d Hg) as Hw. split_and!; [done| |].
  - case_bool_decide as Hn.
    + apply is_valid_spec. split.
      * destruct ids as [|v ids]; [simpl in Hn; lia|]. exists v. apply (gen_known _ _ Hg). by left.
      * apply closed_reachable_cycle; [apply (wg_closed _ _ Hw)|apply (wg_acyclic _ _ Hw)].
    + apply not_true_iff_false. intros [[v Hv] _]%is_valid_spec. apply (gen_known _ _ Hg) in Hv.
      destruct ids; [set_solver|simpl in Hn; lia].
  - rewrite <- (wg_count _ _ Hw). apply topological_order_length; [apply (wg_closed _ _ Hw)|].
    apply (wg_acyclic _ _ Hw).
Qed.

(** Every generator produces a usable workload of the advertised size for all
    parameters, zero sizes included: task ids never collide, every edge joins two tasks of
    the DAG and goes forward in construction order, the task vectors mirror the edges, the
    result is valid exactly when it is not empty, and the topological order covers it.
    For the random generator this holds for every random engine and probability. *)
Theorem generated_workloads_are_usable (MT : Mt19937) n w p h kv prob lo hi (rng : mt_state) :
  usable n (linear_chain n p) /\
  usable (w + 2) (fan_out_fan_in w p) /\
  usable (n * (w + 2)) (diamond n w p) /\
  usable (2 * n) (transformer_layers n h kv) /\
  usable n (random_dag n prob lo hi rng).1.
Proof.
  pose proof (generated_usable _ _ (linear_chain_generated n p)) as H1.
  pose proof (generated_usable _ _ (fan_generated w p)) as H2.
  pose proof (generated_usable _ _ (diamond_generated n w p)) as H3.
  pose proof (generated_usable _ _ (transformer_generated n h kv)) as H4.
  pose proof (generated_usable _ _ (random_generated n prob lo hi rng)) as H5.
  rewrite length_app in H2. simpl in H2. rewrite length_fmap, length_seq in H1, H2, H5.
  rewrite length_levels_ids in H3. rewrite length_layer_ids in H4.
  replace (w + 2)%nat with (S (w + 1)) by lia. split_and!; try done.
  by replace (n * S (w + 1))%nat with (n * (w + 2))%nat by lia.
Qed.
End valid.
