(* ===== verification/Telemetry.v ===== *)
(** The NDJSON streams: [core/logger.cpp], [telemetry/metrics_collector.cpp] and
    [telemetry/json_sink.cpp].

    A sink is the sequence of lines written to it; the mutexes make each write one step.
    Numbers are formatted the way [operator<<] formats them in the default stream state,
    dates the way [std::put_time] does in the C locale. *)

From Stdlib Require Import ZArith Lia Ascii String SpecFloat.
From stdpp Require Import base strings numbers pretty list.
From S2P Require Import Prelude Text Float32 Core Scheduler.

Local Open Scope Z_scope.

(** * Formatting numbers *)

(** The character [0x22] as a string. *)
Definition dq : string := String (ascii_of_nat 34) EmptyString.

Definition zeros (n : nat) : string := String.string_of_list_ascii (replicate n "0"%char).

(** At least [w] digits of a nonnegative number. *)
Definition padded (w : nat) (z : Z) : string :=
  let s := pretty z in zeros (w - String.length s) +:+ s.

Definition trim_zeros (s : string) : string :=
  let fix drop_zeros (l : list ascii) :=
    match l with
    | "0"%char :: l' => drop_zeros l'
    | _ => l
    end in
  String.string_of_list_ascii (rev (drop_zeros (rev (String.list_ascii_of_string s)))).

(** Division rounded to nearest, ties to even. *)
Definition div_nearest (n d : Z) : Z :=
  let q := n / d in
  let r := n mod d in
  if 2 * r <? d then q else if d <? 2 * r then q + 1 else if Z.even q then q else q + 1.

(** [num / den >= 10 ^ x]. *)
Definition at_least_pow10 (num den x : Z) : bool :=
  if 0 <=? x then den * 10 ^ x <=? num else den <=? num * 10 ^ (- x).

(** The decimal exponent of a positive binary32 value: these lie between [10^-46] and
    [10^39]. *)
Fixpoint exponent_from (fuel : nat) (x num den : Z) : Z :=
  match fuel with
  | O => x
  | S f => if at_least_pow10 num den x then x else exponent_from f (x - 1) num den
  end.

(** Six significant digits and the exponent of the first. *)
Definition six_digits (num den : Z) : Z * Z :=
  let x := exponent_from 90 39 num den in
  let q := if 5 <? x then div_nearest num (den * 10 ^ (x - 5))
           else div_nearest (num * 10 ^ (5 - x)) den in
  if q =? 10 ^ 6 then (10 ^ 5, x + 1) else (q, x).

Definition with_fraction (int frac : string) : string :=
  let f := trim_zeros frac in
  if decide (f = "") then int else int +:+ "." +:+ f.

(** [%g]: fixed notation for exponents from [-4] to [5]. *)
Definition format_general (num den : Z) : string :=
  let '(q, x) := six_digits num den in
  if (x <? -4) || (6 <=? x) then
    let e := Z.abs x in
    with_fraction (pretty (q / 10 ^ 5)) (padded 5 (q mod 10 ^ 5))
      +:+ "e" +:+ (if x <? 0 then "-" else "+") +:+ padded 2 e
  else if 0 <=? x then
    with_fraction (pretty (q / 10 ^ (5 - x))) (padded (Z.to_nat (5 - x)) (q mod 10 ^ (5 - x)))
  else with_fraction "0" (zeros (Z.to_nat (- x - 1)) +:+ pretty q).

(** [std::ostream << float]. *)
Definition show_float (x : float32) : string :=
  match x with
  | S754_zero s => if s then "-0" else "0"
  | S754_infinity s => if s then "-inf" else "inf"
  | S754_nan => "nan"
  | S754_finite s m e =>
      (if s then "-" else "") +:+
      (if 0 <=? e then format_general (Z.pos m * 2 ^ e) 1 else format_general (Z.pos m) (2 ^ (- e)))
  end.

(** * Dates *)

(** The proleptic Gregorian date of a day number, day 0 being 1970-01-01. *)
Definition civil_of_days (days : Z) : Z * Z * Z :=
  let z := days + 719468 in
  let era := z / 146097 in
  let doe := z mod 146097 in
  let yoe := (doe - doe / 1460 + doe / 36524 - doe / 146096) / 365 in
  let doy := doe - (365 * yoe + yoe / 4 - yoe / 100) in
  let mp := (5 * doy + 2) / 153 in
  let d := doy - (153 * mp + 2) / 5 + 1 in
  let m := if mp <? 10 then mp + 3 else mp - 9 in
  ((if m <=? 2 then 1 else 0) + yoe + era * 400, m, d).

(** [std::put_time(std::gmtime(&t), "%FT%T")]. *)
Definition format_utc (t : Z) : string :=
  let '(y, m, d) := civil_of_days (t / 86400) in
  let s := t mod 86400 in
  pretty y +:+ "-" +:+ padded 2 m +:+ "-" +:+ padded 2 d +:+ "T" +:+
  padded 2 (s / 3600) +:+ ":" +:+ padded 2 (s / 60 mod 60) +:+ ":" +:+ padded 2 (s mod 60).

(** * Sinks *)

Record JsonFileSink := mkFileSink {
  sink_path : string;
  max_file_size_bytes_ : Z;
  max_files_ : Z;
  is_open : bool;
  contents : string;
  current_size_ : Z
}.

(** What the file system answers the constructor: [create_directories] throws, or the file
    cannot be opened, or it is opened for appending to what it holds. *)
Inductive file_answer :=
  | DirectoryFails
  | OpenFails
  | Opens (existing : string).

(** [None] when the constructor throws. *)
Definition new_file_sink (dir prefix : string) (size_mb files : Z) (answer : file_answer) : option JsonFileSink :=
  let sink opened existing :=
    mkFileSink (dir +:+ "/" +:+ prefix +:+ ".ndjson") (u32 (u32 (size_mb * 1024) * 1024)) files opened existing 0 in
  match answer with
  | DirectoryFails => None
  | OpenFails => Some (sink false EmptyString)
  | Opens existing => Some (sink true existing)
  end.

(** A new metrics file in [/var/log]. *)
Definition fresh_metrics : JsonFileSink := mkFileSink "/var/log/metrics.ndjson" (50 * 1024 * 1024) 5 true EmptyString 0.

(** [rotate_if_needed] does nothing on either side of its test. *)
Definition rotate_if_needed (s : JsonFileSink) : JsonFileSink :=
  if current_size_ s <? max_file_size_bytes_ s then s else s.

Definition write_line (line : string) (s : JsonFileSink) : JsonFileSink :=
  let s := rotate_if_needed s in
  if is_open s then
    mkFileSink (sink_path s) (max_file_size_bytes_ s) (max_files_ s) true
      (contents s +:+ line +:+ newline) (u64 (current_size_ s + (Z.of_nat (String.length line) + 1)))
  else s.

(** The destructor flushes and closes. *)
Definition close_file_sink (s : JsonFileSink) : JsonFileSink :=
  mkFileSink (sink_path s) (max_file_size_bytes_ s) (max_files_ s) false (contents s) (current_size_ s).

(** [ILogSink] and its implementations; what [std::cout] has received is kept. *)
Inductive ILogSink :=
  | FileSink (f : JsonFileSink)
  | StdoutSink (out : string)
  | NullSink.

Definition sink_write (line : string) (s : ILogSink) : ILogSink :=
  match s with
  | FileSink f => FileSink (write_line line f)
  | StdoutSink out => StdoutSink (out +:+ line +:+ newline)
  | NullSink => NullSink
  end.

(** * Metrics *)

Definition record_resource_snapshot (snap : ResourceSnapshot) : string :=
  "{" +:+ dq +:+ "event" +:+ dq +:+ ":" +:+ dq +:+ "resource_snapshot" +:+ dq
  +:+ "," +:+ dq +:+ "node" +:+ dq +:+ ":" +:+ dq +:+ snap_node_id snap +:+ dq
  +:+ "," +:+ dq +:+ "cpu_pct" +:+ dq +:+ ":" +:+ show_float (cpu_usage_percent snap)
  +:+ "," +:+ dq +:+ "mem_avail_mb" +:+ dq +:+ ":" +:+ pretty (memory_available_bytes snap / (1024 * 1024))
  +:+ "," +:+ dq +:+ "temp_c" +:+ dq +:+ ":" +:+ show_float (cpu_temperature_celsius snap)
  +:+ "," +:+ dq +:+ "throttled" +:+ dq +:+ ":" +:+ (if is_throttled snap then "true" else "false")
  +:+ "}".

Definition reason_code (r : Reason) : Z :=
  match r with
  | LocalCapacity => 0 | LeastLoaded => 1 | ThresholdOffload => 2 | OptimizationResult => 3 | Fallback => 4
  end.

Definition record_scheduling_decision (decision : SchedulingDecision) : string :=
  "{" +:+ dq +:+ "event" +:+ dq +:+ ":" +:+ dq +:+ "scheduling_decision" +:+ dq
  +:+ "," +:+ dq +:+ "task" +:+ dq +:+ ":" +:+ dq +:+ dec_task decision +:+ dq
  +:+ "," +:+ dq +:+ "assigned_to" +:+ dq +:+ ":" +:+ dq +:+ assigned_node decision +:+ dq
  +:+ "," +:+ dq +:+ "reason" +:+ dq +:+ ":" +:+ pretty (reason_code (reason decision))
  +:+ "}".

Definition record_task_event (id : TaskId) (state : TaskState) (duration : Duration) : string :=
  "{" +:+ dq +:+ "event" +:+ dq +:+ ":" +:+ dq +:+ "task_state_change" +:+ dq
  +:+ "," +:+ dq +:+ "task" +:+ dq +:+ ":" +:+ dq +:+ id +:+ dq
  +:+ "," +:+ dq +:+ "state" +:+ dq +:+ ":" +:+ dq +:+ task_state_to_string state +:+ dq
  +:+ "," +:+ dq +:+ "duration_us" +:+ dq +:+ ":" +:+ pretty duration
  +:+ "}".

Definition record_peer_event (peer : NodeId) (event_type : string) : string :=
  "{" +:+ dq +:+ "event" +:+ dq +:+ ":" +:+ dq +:+ "peer_" +:+ event_type +:+ dq
  +:+ "," +:+ dq +:+ "peer" +:+ dq +:+ ":" +:+ dq +:+ peer +:+ dq
  +:+ "}".

Definition record_custom (event json_payload : string) : string :=
  "{" +:+ dq +:+ "event" +:+ dq +:+ ":" +:+ dq +:+ event +:+ dq
  +:+ "," +:+ dq +:+ "data" +:+ dq +:+ ":" +:+ json_payload
  +:+ "}".

(** The calls made on a [MetricsCollector]. *)

Inductive event :=
  | ESnapshot (s : ResourceSnapshot)
  | EDecision (d : SchedulingDecision)
  | ETask (id : TaskId) (st : TaskState) (duration : Duration)
  | EPeer (peer : NodeId) (event_type : string)
  | ECustom (name payload : string).

Definition event_line (e : event) : string :=
  match e with
  | ESnapshot s => record_resource_snapshot s
  | EDecision d => record_scheduling_decision d
  | ETask id st d => record_task_event id st d
  | EPeer p ty => record_peer_event p ty
  | ECustom n p => record_custom n p
  end.

(** * Logger *)

Inductive LogLevel := Debug | Info | Warn | LogError.

Definition level_rank (l : LogLevel) : Z :=
  match l with Debug => 0 | Info => 1 | Warn => 2 | LogError => 3 end.

Definition level_to_string (l : LogLevel) : string :=
  match l with Debug => "debug" | Info => "info" | Warn => "warn" | LogError => "error" end.

(** [now] counts nanoseconds since the epoch. *)
Definition log_line (level : LogLevel) (now : Z) (message : string) : string :=
  let ms := Z.rem (Z.quot now 1000000) 1000 in
  "{" +:+ dq +:+ "level" +:+ dq +:+ ":" +:+ dq +:+ level_to_string level +:+ dq +:+ ","
  +:+ dq +:+ "ts" +:+ dq +:+ ":" +:+ dq
  +:+ format_utc (Z.quot now 1000000000)
  +:+ "." +:+ padded 3 ms
  +:+ "Z" +:+ dq +:+ ","
  +:+ dq +:+ "msg" +:+ dq +:+ ":" +:+ dq +:+ message +:+ dq +:+ "}".

(** The lines [log] writes to the sink. *)
Definition log (min_level level : LogLevel) (now : Z) (message : string) : list string :=
  if level_rank level <? level_rank min_level then [] else [log_line level now message].

Record Logger := mkLogger { logger_sink : ILogSink; min_level_ : LogLevel }.

Definition set_level (l : LogLevel) (lg : Logger) : Logger := mkLogger (logger_sink lg) l.

(** A call of [debug], [info], [warn] or [error] at time [now]. *)
Definition logger_log (level : LogLevel) (now : Z) (message : string) (lg : Logger) : Logger :=
  mkLogger (foldl (fun s l => sink_write l s) (logger_sink lg) (log (min_level_ lg) level now message)) (min_level_ lg).

Record MetricsCollector := mkMetrics { metrics_sink : ILogSink }.

(** The orchestrator's constructor: no sink means the events are discarded. *)
Definition new_metrics (s : option ILogSink) : MetricsCollector := mkMetrics (default NullSink s).

Definition emit (json_line : string) (m : MetricsCollector) : MetricsCollector :=
  mkMetrics (sink_write json_line (metrics_sink m)).

Definition record_event (m : MetricsCollector) (e : event) : MetricsCollector := emit (event_line e) m.
