(* ===== verification/TelemetryTheorems.v ===== *)
(** The telemetry stream is newline-delimited JSON: a reference renderer that escapes
    strings, and the agreement of the hand-assembled lines with it. *)

From Stdlib Require Import ZArith Lia Ascii String.
From stdpp Require Import base strings numbers pretty list.
From S2P Require Import Prelude Text Float32 Core Scheduler Telemetry.

Local Open Scope Z_scope.

(** * Reference renderer *)

(** [JRaw] is text that is JSON already. *)
Inductive json :=
  | JString (s : string)
  | JInt (z : Z)
  | JFloat (x : float32)
  | JBool (b : bool)
  | JRaw (text : string)
  | JObject (members : list (string * json)).

Definition hex_digit (n : N) : ascii := ascii_of_N (if (n <? 10)%N then 48 + n else 87 + n).

(** Quotes and backslashes are escaped, control characters become [\u00XX]. *)
Definition escape_char (c : ascii) : list ascii :=
  let n := N_of_ascii c in
  if (n =? 34)%N then chars "\" ++ [c]
  else if (n =? 92)%N then chars "\\"
  else if (n <? 32)%N then chars "\u00" ++ [hex_digit (n / 16); hex_digit (n mod 16)]
  else [c].

Definition escape (s : string) : string := unchars (chars s ≫= escape_char).

Definition quoted (s : string) : string := dq +:+ escape s +:+ dq.

Fixpoint render (j : json) : string :=
  match j with
  | JString s => quoted s
  | JInt z => pretty z
  | JFloat x => show_float x
  | JBool b => if b then "true" else "false"
  | JRaw t => t
  | JObject ms =>
      let fix go (ms : list (string * json)) (sep : string) : string :=
        match ms with
        | [] => "}"
        | (k, v) :: ms' => sep +:+ quoted k +:+ ":" +:+ render v +:+ go ms' ","
        end in
      "{" +:+ go ms ""
  end.

(** * Events as JSON *)

Definition event_json (e : event) : json :=
  match e with
  | ESnapshot s =>
      JObject [("event", JString "resource_snapshot"); ("node", JString (snap_node_id s));
               ("cpu_pct", JFloat (cpu_usage_percent s));
               ("mem_avail_mb", JInt (memory_available_bytes s / 1048576));
               ("temp_c", JFloat (cpu_temperature_celsius s)); ("throttled", JBool (is_throttled s))]
  | EDecision d =>
      JObject [("event", JString "scheduling_decision"); ("task", JString (dec_task d));
               ("assigned_to", JString (assigned_node d)); ("reason", JInt (reason_code (reason d)))]
  | ETask id st d =>
      JObject [("event", JString "task_state_change"); ("task", JString id);
               ("state", JString (task_state_to_string st)); ("duration_us", JInt d)]
  | EPeer p ty => JObject [("event", JString ("peer_" +:+ ty)); ("peer", JString p)]
  | ECustom n p => JObject [("event", JString n); ("data", JRaw p)]
  end.

(** * Clean strings: no quote, no backslash, no control character *)

Definition clean_char (c : ascii) : bool :=
  let n := N_of_ascii c in (32 <=? n)%N && negb (n =? 34)%N && negb (n =? 92)%N.

Definition clean (s : string) : Prop := Forall (fun c => clean_char c = true) (chars s).

#[export] Instance clean_dec s : Decision (clean s).
Proof. unfold clean. apply _. Defined.

Definition event_clean (e : event) : Prop :=
  match e with
  | ESnapshot s => clean (snap_node_id s)
  | EDecision d => clean (dec_task d) /\ clean (assigned_node d)
  | ETask id _ _ => clean id
  | EPeer p ty => clean p /\ clean ty
  | ECustom n p => clean n /\ one_line p
  end.

#[export] Instance event_clean_dec e : Decision (event_clean e).
Proof. destruct e; cbn; apply _. Defined.

Lemma clean_app s t : clean s -> clean t -> clean (s +:+ t).
Proof. unfold clean. rewrite chars_app. apply Forall_app_2. Qed.

Lemma clean_one_line s : clean s -> one_line s.
Proof. intros Hs. eapply List.Forall_impl; [|exact Hs]. by intros c Hc ->. Qed.

Lemma escape_char_clean c : clean_char c = true -> escape_char c = [c].
Proof.
  unfold clean_char, escape_char. intros [[H1 H2]%andb_true_iff H3]%andb_true_iff.
  apply negb_true_iff in H2, H3. rewrite H2, H3. apply N.leb_le in H1.
  by rewrite (proj2 (N.ltb_ge _ _)).
Qed.

Lemma escape_clean s : clean s -> escape s = s.
Proof.
  intros Hs. unfold escape. rewrite <- (String.string_of_list_ascii_of_string s) at 2. f_equal.
  induction Hs as [|c l Hc _ IH]; [done|]. cbn [mbind list_bind]. rewrite escape_char_clean by done.
  simpl. by f_equal.
Qed.

(** * Numbers are clean *)

Lemma clean_pretty_N_go x s : clean s -> clean (pretty_N_go x s).
Proof.
  revert s. induction (N.lt_wf_0 x) as [x _ IH]; intros s Hs.
  assert (x = 0 \/ 0 < x)%N as [->|Hx] by lia; [by rewrite pretty_N_go_0|].
  rewrite pretty_N_go_step by done. apply IH; [by apply N.div_lt|].
  constructor; [|done]. unfold pretty_N_char. by repeat case_match.
Qed.

Lemma clean_pretty_N (x : N) : clean (pretty x).
Proof.
  unfold pretty, pretty_N. case_decide; [by vm_compute; repeat constructor|].
  apply clean_pretty_N_go. constructor.
Qed.

Lemma clean_pretty_Z (z : Z) : clean (pretty z).
Proof.
  destruct z as [|p|p]; cbn [pretty pretty_Z].
  - repeat constructor.
  - apply clean_pretty_N.
  - apply clean_app; [repeat constructor|apply clean_pretty_N].
Qed.

Lemma clean_zeros n : clean (zeros n).
Proof. unfold clean, zeros. rewrite chars_unchars. by apply Forall_replicate. Qed.

Lemma clean_padded w z : clean (padded w z).
Proof. apply clean_app; [apply clean_zeros|apply clean_pretty_Z]. Qed.

Lemma clean_trim_zeros s : clean s -> clean (trim_zeros s).
Proof.
  unfold clean, trim_zeros. intros Hs. rewrite chars_unchars. apply Forall_rev.
  apply Forall_rev in Hs. induction Hs as [|c l Hc Hl IH]; [constructor|].
  destruct (decide (c = "0"%char)) as [->|Hne]; [done|].
  assert (forall l', (fix drop_zeros (l : list ascii) :=
    match l with "0"%char :: l' => drop_zeros l' | _ => l end) (c :: l') = c :: l') as ->.
  { intros l'. destruct c as [[] [] [] [] [] [] [] []]; done. }
  by constructor.
Qed.

Lemma clean_with_fraction int frac : clean int -> clean frac -> clean (with_fraction int frac).
Proof.
  intros Hi Hf. unfold with_fraction. case_decide; [done|].
  apply clean_app; [done|]. apply clean_app; [repeat constructor|by apply clean_trim_zeros].
Qed.

Lemma clean_format_general num den : clean (format_general num den).
Proof.
  unfold format_general. destruct (six_digits num den) as [q x].
  case_match; [|case_match].
  - apply clean_app; [apply clean_with_fraction; [apply clean_pretty_Z|apply clean_padded]|].
    apply clean_app; [repeat constructor|].
    apply clean_app; [case_match; repeat constructor|apply clean_padded].
  - apply clean_with_fraction; [apply clean_pretty_Z|apply clean_padded].
  - apply clean_with_fraction; [repeat constructor|].
    apply clean_app; [apply clean_zeros|apply clean_pretty_Z].
Qed.

Lemma clean_show_float x : clean (show_float x).
Proof.
  destruct x as [[]|[]| |s m e]; try (repeat constructor). cbn [show_float].
  apply clean_app; [destruct s; repeat constructor|].
  case_match; apply clean_format_general.
Qed.

Lemma clean_task_state st : clean (task_state_to_string st).
Proof. destruct st; repeat constructor. Qed.

(** * Lines *)

Lemma event_line_json e : event_clean e -> event_line e = render (event_json e).
Proof.
  destruct e as [s|d|id st du|p ty|n p]; cbn [event_clean event_line event_json render]; unfold quoted;
    intros Hc; repeat match goal with H : _ /\ _ |- _ => destruct H end;
    rewrite ?(escape_clean _ Hc), ?(escape_clean _ (clean_task_state _));
    repeat match goal with H : clean ?s |- _ => rewrite (escape_clean s H); clear H end.
  4: rewrite (escape_clean ("peer_" +:+ ty)) by by apply clean_app; [repeat constructor|].
  all: repeat match goal with
       | |- context [escape ?s] => rewrite (escape_clean s) by (repeat constructor)
       end.
  all: unfold record_resource_snapshot, record_scheduling_decision, record_task_event,
         record_peer_event, record_custom; change (1024 * 1024) with 1048576.
  all: rewrite ?sapp_assoc; done.
Qed.

Lemma clean_dq_free s : clean s -> one_line (dq +:+ s +:+ dq).
Proof.
  intros Hs. apply one_line_app; [repeat constructor; done|].
  apply one_line_app; [by apply clean_one_line|repeat constructor; done].
Qed.

Lemma one_line_members (ms : list (string * json)) sep :
  Forall (fun m => clean m.1 /\ one_line (render m.2)) ms -> one_line sep ->
  one_line ((fix go (ms : list (string * json)) (sep : string) : string :=
        match ms with
        | [] => "}"
        | (k, v) :: ms' => sep +:+ quoted k +:+ ":" +:+ render v +:+ go ms' ","
        end) ms sep).
Proof.
  intros Hms. revert sep. induction Hms as [|[k v] ms [Hk Hv] _ IH]; intros sep Hsep.
  { repeat constructor; done. }
  apply one_line_app; [done|].
  apply one_line_app; [unfold quoted; rewrite escape_clean by done; by apply clean_dq_free|].
  apply one_line_app; [repeat constructor; done|]. apply one_line_app; [done|].
  apply IH. repeat constructor; done.
Qed.

Lemma event_one_line e : event_clean e -> one_line (event_line e).
Proof.
  intros Hc. rewrite event_line_json by done.
  assert (forall s, clean s -> one_line (render (JString s))) as Hs.
  { intros s Hs. cbn [render]. unfold quoted. rewrite escape_clean by done. by apply clean_dq_free. }
  assert (forall z, one_line (render (JInt z))) as Hz by (intros; apply clean_one_line, clean_pretty_Z).
  assert (forall x, one_line (render (JFloat x))) as Hf by (intros; apply clean_one_line, clean_show_float).
  assert (forall b, one_line (render (JBool b))) as Hb by (intros []; repeat constructor; done).
  assert (forall k v, clean k -> one_line (render v) ->
            clean (k, v).1 /\ one_line (render (k, v).2)) as Hm by done.
  assert (forall s, bool_decide (clean s) = true -> clean s) as Hk by (intros s; apply bool_decide_eq_true_1).
  assert (forall ms, Forall (fun m => clean m.1 /\ one_line (render m.2)) ms ->
            one_line (render (JObject ms))) as Hobj.
  { intros ms Hms. cbn [render]. apply one_line_app; [repeat constructor; done|].
    apply one_line_members; [done|decide_now]. }
  destruct e as [s|d|id st du|p ty|n p]; cbn [event_clean event_json] in *;
    repeat match goal with H : _ /\ _ |- _ => destruct H end; apply Hobj;
    repeat (apply Forall_cons_2; [apply Hm; [by apply Hk|]|]); try apply Forall_nil_2;
    auto using clean_task_state.
  all: try (apply Hs; by apply Hk).
  apply Hs. apply clean_app; [by apply Hk|done].
Qed.

Lemma write_lines_contents lines s : is_open s = true ->
  let s' := foldl (fun s l => write_line l s) s lines in
  is_open s' = true /\ contents s' = contents s +:+ text_of lines.
Proof.
  revert s. induction lines as [|l lines IH]; intros s Hs; cbn [foldl]; [by rewrite sapp_nil|].
  assert (rotate_if_needed s = s) as Hr by (unfold rotate_if_needed; by case_match).
  destruct (IH (write_line l s)) as [H1 H2]; [unfold write_line; by rewrite Hr, Hs|].
  split; [done|]. rewrite H2. unfold write_line. rewrite Hr, Hs. cbn [contents text_of foldr].
  by rewrite !sapp_assoc.
Qed.

(** The lines of the file after a run of events. *)
Lemma event_stream_lines evs s :
  is_open s = true -> contents s = "" -> Forall event_clean evs ->
  file_lines (contents (foldl (fun s e => write_line (event_line e) s) s evs))
  = (fun e => render (event_json e)) <$> evs.
Proof.
  intros Ho Hc Hev.
  assert (foldl (fun s e => write_line (event_line e) s) s evs
          = foldl (fun s l => write_line l s) s (event_line <$> evs)) as ->.
  { clear. revert s. induction evs as [|e evs IH]; intros s; simpl; [done|apply IH]. }
  destruct (write_lines_contents (event_line <$> evs) s Ho) as [_ ->]. rewrite Hc.
  change ("" +:+ ?t) with t. rewrite file_lines_text.
  - clear Ho Hc. induction Hev as [|e evs He _ IH]; [done|]. csimpl. by rewrite event_line_json, IH.
  - apply Forall_fmap. eapply List.Forall_impl; [|exact Hev]. apply event_one_line.
Qed.

(** * Theorems *)

(** The metrics file is newline-delimited JSON.  Whatever events are recorded, with
    ids free of quotes, backslashes and control characters, the file splits back into one
    line per event in order, and each line is the reference JSON rendering of its event. *)
Theorem telemetry_stream_roundtrip evs s :
  is_open s = true -> contents s = "" -> Forall event_clean evs ->
  file_lines (contents (foldl (fun s e => write_line (event_line e) s) s evs))
  = (fun e => render (event_json e)) <$> evs.
Proof.
  apply event_stream_lines.
Qed.

Lemma telemetry_stream_roundtrip_witness :
  new_file_sink "/var/log" "metrics" 50 5 (Opens "") = Some fresh_metrics /\
  let s := fresh_metrics in
  let evs := [EPeer "pi-1" "discovered"; ETask "t0" Completed 1500] in
  length (file_lines (contents (foldl (fun s e => write_line (event_line e) s) s evs))) = 2%nat.
Proof.
  split; [reflexivity|]. cbv zeta. rewrite telemetry_stream_roundtrip; [reflexivity|reflexivity|reflexivity|].
  repeat constructor; decide_now.
Defined.

(** An id with a quote in it escapes from its string: the line is no rendering of any
    event of that kind, and a reader sees a member that was never recorded. *)
Lemma quote_in_id_breaks_json :
  let id := "x" +:+ dq +:+ "," +:+ dq +:+ "state" +:+ dq +:+ ":" +:+ dq +:+ "forged" in
  event_line (ETask id Completed 1) <> render (event_json (ETask id Completed 1)).
Proof. vm_compute. discriminate. Qed.

(** The file never rotates: no sequence of writes changes the path, and the size limit of
    a configuration of 4096 MiB is zero bytes. *)
Lemma file_never_rotates lines s :
  sink_path (foldl (fun s l => write_line l s) s lines) = sink_path s.
Proof.
  revert s. induction lines as [|l lines IH]; intros s; [done|]. cbn [foldl]. rewrite IH.
  unfold write_line, rotate_if_needed. by repeat case_match.
Qed.

Lemma size_limit_wraps :
  max_file_size_bytes_ <$> new_file_sink "/var/log" "metrics" 4096 5 (Opens "") = Some 0.
Proof. reflexivity. Qed.
