(* ===== verification/JsonTheorems.v ===== *)
(** The lines of the telemetry stream are read back by [json.loads]: every event that the
    collector writes with clean identifiers and finite numbers is one JSON object, and the
    value Python gets is the event's. *)

From Stdlib Require Import ZArith Lia Ascii String SpecFloat.
From stdpp Require Import base strings numbers pretty list.
From S2P Require Import Prelude Text Float32 Core Scheduler Telemetry TelemetryTheorems Json.

Local Open Scope Z_scope.

(** * Strings *)

Lemma scan_escape_char c l :
  scan_chars (escape_char c ++ l) = '(s, r) ← scan_chars l; Some (code c :: s, r).
Proof. destruct c as [[] [] [] [] [] [] [] []]; reflexivity. Qed.

Lemma scan_escaped s r : scan_chars (chars (escape s) ++ chars dq ++ r) = Some (codes s, r).
Proof.
  unfold escape, codes. rewrite chars_unchars. induction (chars s) as [|c l IH]; [reflexivity|].
  cbn [mbind list_bind]. rewrite <- app_assoc, scan_escape_char.
  change (foldr (fun x acc => escape_char x ++ acc) [] l) with (l ≫= escape_char) in *. rewrite IH. reflexivity.
Qed.

Lemma code_bound c : 0 <= code c < 256.
Proof. unfold code. pose proof (N_ascii_bounded c). lia. Qed.

Lemma join_small s : Forall (fun u => u < 256) s -> join_surrogates s = s.
Proof.
  induction 1 as [|u s Hu Hs IH]; [done|]. cbn. destruct s as [|v s]; [done|].
  destruct (55296 <=? u) eqn:E; [lia|]. cbn. by f_equal.
Qed.

Lemma scan_quoted s r : scan_string (chars (escape s) ++ chars dq ++ r) = Some (codes s, r).
Proof.
  unfold scan_string. rewrite scan_escaped. cbn. rewrite join_small; [done|].
  apply Forall_fmap, Forall_true. intros c. cbn. apply code_bound.
Qed.

(** * Numbers *)

Definition is_digit (c : ascii) : Prop := is_Some (digit_in 10 c).

(** A text after which a number has ended. *)
Definition ends_value (r : list ascii) : Prop :=
  ends_number r /\ after "." r = None /\ after "e" r = None /\ after "E" r = None.

Lemma digits_run d acc seen : Forall is_digit d -> (d = [] -> seen = true) ->
  exists v, forall l, ends_number l -> digits 10 acc seen (d ++ l) = (true, v, l).
Proof.
  intros Hd. revert acc seen. induction Hd as [|c d [x Hc] _ IH]; intros acc seen Hs.
  - rewrite Hs by done. exists acc. intros l Hl. by apply digits_stop.
  - destruct (IH (acc * 10 + x) true ltac:(done)) as [v Hv]. exists v. intros l Hl. cbn. rewrite Hc. by apply Hv.
Qed.

Lemma digit_not c d : is_digit c -> digit_in 10 d = None -> c <> d.
Proof. intros [x Hc] Hd ->. congruence. Qed.

Lemma after_other c d l : d <> c -> after c (d :: l) = None.
Proof. intros H. cbn. by rewrite decide_False. Qed.

(** A fraction and an exponent, as text. *)
Definition tail_text (frac : list ascii) (ex : option (bool * list ascii)) : list ascii :=
  match frac with [] => [] | _ => "."%char :: frac end ++
  match ex with None => [] | Some (neg, e) => "e"%char :: (if neg : bool then "-"%char else "+"%char) :: e end.

Definition tail_ok (frac : list ascii) (ex : option (bool * list ascii)) : Prop :=
  Forall is_digit frac /\ match ex with None => True | Some (_, e) => e <> [] /\ Forall is_digit e end.

Lemma scan_fraction_text v frac : Forall is_digit frac ->
  exists f, (frac = [] -> f = None) /\ forall l, ends_number l -> after "." l = None ->
    scan_fraction v (match frac with [] => [] | _ => "."%char :: frac end ++ l) = (f, l).
Proof.
  intros Hf. destruct frac as [|c frac].
  - exists None. split; [done|]. intros l Hl Hd. unfold scan_fraction. cbn [app]. by rewrite Hd.
  - destruct (digits_run (c :: frac) v false Hf ltac:(done)) as [x Hx].
    exists (Some (x, Z.of_nat (length (c :: frac)))). split; [done|]. intros l Hl Hd. unfold scan_fraction.
    cbn [app after]. rewrite decide_True by done. specialize (Hx l Hl). cbn [app] in Hx. rewrite Hx.
    do 3 f_equal. cbn. rewrite length_app. lia.
Qed.

Lemma scan_exponent_text ex : match ex with None => True | Some (_, e) => e <> [] /\ Forall is_digit e end ->
  exists x, (ex = None -> x = None) /\ forall l, ends_value l ->
    scan_exponent (match ex with None => [] | Some (neg, e) =>
      "e"%char :: (if neg : bool then "-"%char else "+"%char) :: e end ++ l) = (x, l).
Proof.
  intros He. destruct ex as [[neg e]|].
  - destruct He as [Hne He]. destruct (digits_run e 0 false He ltac:(done)) as [x Hx].
    exists (Some (if neg then - x else x)). split; [done|]. intros l (Hn & _). unfold scan_exponent.
    cbn [app after]. rewrite decide_True by done. destruct neg; cbn [sign]; by rewrite Hx.
  - exists None. split; [done|]. intros l (_ & _ & H1 & H2). unfold scan_exponent. cbn [app]. by rewrite H1, H2.
Qed.

Lemma scan_tail_text (neg : bool) v frac ex : tail_ok frac ex ->
  exists x, (frac = [] -> ex = None -> x = PInt (if neg then - v else v)) /\
    forall r, ends_value r -> scan_tail neg v (tail_text frac ex ++ r) = (x, r).
Proof.
  intros [Hf He]. destruct (scan_fraction_text v frac Hf) as (f & Hf0 & Hfr).
  destruct (scan_exponent_text ex He) as (x & Hx0 & Hex). eexists. split; cycle 1.
  - intros r Hr. unfold scan_tail, tail_text. rewrite <- app_assoc, Hfr; [by rewrite Hex|..];
      (destruct ex as [[ng e]|]; [reflexivity|apply Hr]).
  - intros H1 H2. apply Hf0 in H1. apply Hx0 in H2. by subst.
Qed.

Lemma pretty_leading n : 0 < n -> exists c l, chars (pretty n) = c :: l /\ is_digit c /\ c <> "0"%char.
Proof.
  intros Hn. destruct (pretty_head n ltac:(lia)) as (c & l & E & Hc). exists c, l. split_and!; [done|done|].
  intros ->. pose proof (digits_pretty n [] ltac:(lia) I) as H1. rewrite app_nil_r, E in H1.
  assert (Hgo : forall x s, (0 < x)%N -> exists d k, chars (pretty_N_go x s) = d :: k /\ d <> "0"%char).
  { intros x. induction (N.lt_wf_0 x) as [x _ IH]; intros s Hx. rewrite pretty_N_go_step by done.
    destruct (decide (x `div` 10 = 0)%N) as [H0|H0].
    - rewrite H0, pretty_N_go_0. eexists _, _. split; [reflexivity|].
      assert (x < 10)%N by (apply N.div_small_iff; [done|lia]). rewrite N.mod_small by done.
      assert (x ∈ [1;2;3;4;5;6;7;8;9])%N as Hin by (rewrite !elem_of_cons; lia).
      repeat (apply elem_of_cons in Hin as [->|Hin]; [discriminate|]). by apply elem_of_nil in Hin.
    - apply IH; [apply N.div_lt; lia|]. by apply N.neq_0_lt_0. }
  destruct n as [|p|p]; [lia| |lia]. destruct (Hgo (Npos p) EmptyString ltac:(lia)) as (d & k & Hd & Hne).
  assert (Hp : pretty (Z.pos p) = pretty_N_go (Npos p) EmptyString) by reflexivity.
  rewrite Hp, Hd in E. injection E as -> _. done.
Qed.

(** A number as C++ prints it. *)
Definition number_text (neg : bool) (n : Z) (frac : list ascii) (ex : option (bool * list ascii)) : list ascii :=
  (if neg then ["-"%char] else []) ++ chars (pretty n) ++ tail_text frac ex.

Lemma ends_tail frac ex r : ends_value r -> ends_number (tail_text frac ex ++ r).
Proof.
  intros (H & _). unfold tail_text. destruct frac; [destruct ex as [[]|]|]; cbn; try done.
Qed.

Lemma scan_number_text (neg : bool) n frac ex : 0 <= n -> tail_ok frac ex ->
  exists x, (frac = [] -> ex = None -> x = PInt (if neg then - n else n)) /\
    forall r, ends_value r -> scan_number (number_text neg n frac ex ++ r) = Some (x, r).
Proof.
  intros Hn Ht. destruct (scan_tail_text neg n frac ex Ht) as (x & Hint & Hx). exists x. split; [done|].
  intros r Hr. unfold scan_number, number_text. rewrite <- !app_assoc.
  assert (Hs : match after "-" ((if neg then ["-"%char] else []) ++ chars (pretty n) ++ tail_text frac ex ++ r) with
    Some l' => (true, l') | None => (false, (if neg then ["-"%char] else []) ++ chars (pretty n) ++ tail_text frac ex ++ r)
    end = (neg, chars (pretty n) ++ tail_text frac ex ++ r)).
  { destruct neg; [reflexivity|]. cbn [app]. destruct (pretty_head n Hn) as (c & l & -> & Hc). cbn [app].
    rewrite after_other by (apply digit_not; done). done. }
  rewrite Hs. destruct (decide (n = 0)) as [->|Hne].
  - change (after "0" (chars (pretty 0) ++ tail_text frac ex ++ r)) with (Some (tail_text frac ex ++ r)).
    cbv iota beta. by rewrite Hx.
  - destruct (pretty_leading n ltac:(lia)) as (c & l & E & Hc & H0).
    assert (Ha : after "0" (chars (pretty n) ++ tail_text frac ex ++ r) = None) by (rewrite E; by apply after_other).
    rewrite Ha, digits_pretty by (lia || by apply ends_tail). by rewrite Hx.
Qed.

(** * Values *)

(** The text is one JSON value, whatever comes after it. *)
Definition reads (t : string) (v : pyvalue) : Prop :=
  forall n r, ends_value r -> (2 * length (chars t ++ r) < n)%nat -> scan_once n (chars t ++ r) = Some (v, r).

Lemma reads_loads t v : reads t v -> loads (chars t) = Some v.
Proof.
  intros Ht. unfold loads.
  assert (Hc : forall l, skip_ws l = l \/ exists c l', l = c :: l' /\ is_ws c = true).
  { intros [|c l]; [by left|]. cbn. destruct (is_ws c) eqn:E; [right; eauto|by left]. }
  destruct (Hc (chars t)) as [->|(c & l & E & Hw)].
  - rewrite <- (app_nil_r (chars t)), Ht; [reflexivity|done|lia].
  - exfalso. specialize (Ht (2 * length (chars t) + 2)%nat [] ltac:(done)). rewrite app_nil_r, E in Ht.
    specialize (Ht ltac:(lia)). destruct c as [[] [] [] [] [] [] [] []]; cbn in Hw; try discriminate; cbn in Ht; discriminate.
Qed.

Lemma reads_string s : reads (quoted s) (PStr (codes s)).
Proof.
  intros [|n] r _ Hn; [lia|]. unfold quoted. rewrite !chars_app, <- !app_assoc.
  change (chars dq ++ chars (escape s) ++ chars dq ++ r) with ("034"%char :: chars (escape s) ++ chars dq ++ r).
  cbn [scan_once]. change (code "034" =? 34) with true. cbv iota. by rewrite scan_quoted.
Qed.

Lemma reads_bool (b : bool) : reads (if b then "true" else "false") (PBool b).
Proof. intros [|n] r _ Hn; [lia|]. destruct b; reflexivity. Qed.

(** The scanner takes a text that starts like a number to [scan_number]. *)
Lemma scan_once_number n l : (exists c l', l = c :: l' /\ (is_digit c \/ c = "-"%char /\
    exists d l'', l' = d :: l'' /\ is_digit d)) -> scan_once (S n) l = scan_number l.
Proof.
  intros (c & l' & -> & Hc). cbn [scan_once].
  assert (Hcode : code c =? 34 = false /\ code c =? 123 = false /\ code c =? 91 = false).
  { destruct Hc as [[x Hx]|[-> _]]; [|done].
    destruct c as [[] [] [] [] [] [] [] []]; cbn in Hx; try discriminate; done. }
  destruct Hcode as (-> & -> & ->).
  assert (Hk : scan_constant constants (c :: l') = None); [|by rewrite Hk].
  unfold constants. cbn -[decide]. destruct Hc as [Hd|[-> (d & l'' & -> & Hd)]].
  - rewrite !decide_False by (intros <-; by destruct Hd). done.
  - repeat (rewrite decide_False by done). rewrite decide_True by done. cbn -[decide].
    rewrite decide_False by (intros <-; by destruct Hd). done.
Qed.

Lemma number_starts neg n frac ex r : 0 <= n ->
  exists c l', number_text neg n frac ex ++ r = c :: l' /\ (is_digit c \/ c = "-"%char /\
    exists d l'', l' = d :: l'' /\ is_digit d).
Proof.
  intros Hn. unfold number_text. destruct (pretty_head n Hn) as (c & l & -> & Hc).
  destruct neg; cbn; eexists _, _; (split; [reflexivity|]); [right; eauto|by left].
Qed.

Lemma reads_number neg n frac ex t : 0 <= n -> tail_ok frac ex -> chars t = number_text neg n frac ex ->
  exists v, reads t v /\ (frac = [] -> ex = None -> v = PInt (if neg then - n else n)).
Proof.
  intros Hn Ht Et. destruct (scan_number_text neg n frac ex Hn Ht) as (x & Hint & Hx). exists x. split; [|done].
  intros [|k] r Hr Hk; [lia|]. rewrite Et, scan_once_number by (by apply number_starts). by apply Hx.
Qed.

Lemma reads_int (z : Z) : reads (pretty z) (PInt z).
Proof.
  destruct (reads_number (z <? 0) (Z.abs z) [] None (pretty z)) as (v & Hv & Hi); [lia|by split|..].
  - unfold number_text, tail_text. rewrite !app_nil_r. destruct z; reflexivity.
  - rewrite Hi in Hv by done. destruct (z <? 0) eqn:E; [rewrite Z.abs_neq, Z.opp_involutive in Hv by lia|
      rewrite Z.abs_eq in Hv by lia]; exact Hv.
Qed.

(** * Floats *)

Lemma digits_pretty_chars n : 0 <= n -> Forall is_digit (chars (pretty n)).
Proof.
  intros Hn. assert (exists x : N, n = Z.of_N x) as [x ->] by (exists (Z.to_N n); lia).
  assert (pretty (Z.of_N x) = pretty x) as -> by by destruct x.
  unfold pretty, pretty_N. case_decide; [repeat constructor; by eexists|].
  assert (Hgo : forall y s, Forall is_digit (chars s) -> Forall is_digit (chars (pretty_N_go y s))).
  { intros y. induction (N.lt_wf_0 y) as [y _ IH]; intros s Hs.
    assert (y = 0 \/ 0 < y)%N as [->|Hy] by lia; [by rewrite pretty_N_go_0|].
    rewrite pretty_N_go_step by done. apply IH; [by apply N.div_lt|]. constructor; [|done].
    eexists. apply pretty_char_digit. by apply N.mod_lt. }
  apply Hgo. constructor.
Qed.

Lemma digits_zeros n : Forall is_digit (chars (zeros n)).
Proof. unfold zeros. rewrite chars_unchars. apply Forall_replicate. by eexists. Qed.

Lemma digits_padded w n : 0 <= n -> Forall is_digit (chars (padded w n)).
Proof. intros Hn. unfold padded. rewrite chars_app. apply Forall_app_2; [apply digits_zeros|by apply digits_pretty_chars]. Qed.

Lemma digits_trim s : Forall is_digit (chars s) -> Forall is_digit (chars (trim_zeros s)).
Proof.
  unfold trim_zeros. intros Hs. rewrite chars_unchars. apply Forall_rev.
  apply Forall_rev in Hs. induction Hs as [|c l Hc Hl IH]; [constructor|].
  destruct (decide (c = "0"%char)) as [->|Hne]; [done|].
  destruct c as [[] [] [] [] [] [] [] []]; try (by constructor); by exfalso; apply Hne.
Qed.

Lemma with_fraction_text (n : Z) frac : Forall is_digit (chars frac) ->
  exists f, Forall is_digit f /\ chars (with_fraction (pretty n) frac) =
    chars (pretty n) ++ match f with [] => [] | _ => "."%char :: f end.
Proof.
  intros Hf. unfold with_fraction. exists (chars (trim_zeros frac)). split; [by apply digits_trim|].
  case_decide as E; [by rewrite E, app_nil_r|]. rewrite !chars_app. f_equal. cbn.
  by destruct (trim_zeros frac).
Qed.

Lemma div_nearest_nonneg n d : 0 <= n -> 0 < d -> 0 <= div_nearest n d.
Proof. intros Hn Hd. unfold div_nearest. pose proof (Z.div_pos n d Hn Hd). repeat case_match; lia. Qed.

Lemma six_digits_nonneg num den q x : 0 <= num -> 0 < den -> six_digits num den = (q, x) -> 0 <= q.
Proof.
  intros Hn Hd. unfold six_digits. set (y := exponent_from 90 39 num den).
  assert (Hq : 0 <= (if 5 <? y then div_nearest num (den * 10 ^ (y - 5)) else div_nearest (num * 10 ^ (5 - y)) den)).
  { destruct (5 <? y) eqn:Ey; apply div_nearest_nonneg; lia. }
  revert Hq. generalize (if 5 <? y then div_nearest num (den * 10 ^ (y - 5)) else div_nearest (num * 10 ^ (5 - y)) den).
  intros p Hp. destruct (p =? 10 ^ 6); intros E%(f_equal fst); cbn [fst] in E; rewrite <- E; [by apply Z.pow_nonneg|done].
Qed.

Lemma format_general_text num den : 0 <= num -> 0 < den ->
  exists n frac ex, 0 <= n /\ tail_ok frac ex /\ chars (format_general num den) = chars (pretty n) ++ tail_text frac ex.
Proof.
  intros Hn Hd. unfold format_general. destruct (six_digits num den) as [q x] eqn:E.
  apply six_digits_nonneg in E; [|done..].
  assert (Hp : forall k, 0 <= k -> 0 < 10 ^ k) by (intros; by apply Z.pow_pos_nonneg).
  destruct ((x <? -4) || (6 <=? x)) eqn:Ex.
  - destruct (with_fraction_text (q / 10 ^ 5) (padded 5 (q mod 10 ^ 5))) as (f & Hf & Et).
    { apply digits_padded, Z.mod_pos_bound. lia. }
    exists (q / 10 ^ 5), f, (Some (x <? 0, chars (padded 2 (Z.abs x)))). split_and!; [by apply Z.div_pos|split; [done|]|].
    + split; [|apply digits_padded; lia]. unfold padded. rewrite chars_app.
      destruct (pretty_head (Z.abs x) ltac:(lia)) as (c & l & -> & _). by destruct (chars (zeros _)).
    + rewrite !chars_app, Et. unfold tail_text. rewrite <- app_assoc. do 2 f_equal. by destruct (x <? 0).
  - destruct (0 <=? x) eqn:E0.
    + destruct (with_fraction_text (q / 10 ^ (5 - x)) (padded (Z.to_nat (5 - x)) (q mod 10 ^ (5 - x)))) as (f & Hf & Et).
      { apply digits_padded, Z.mod_pos_bound, Hp. apply orb_false_iff in Ex. lia. }
      exists (q / 10 ^ (5 - x)), f, None. split_and!; [apply Z.div_pos; [done|apply Hp; apply orb_false_iff in Ex; lia]|by split|].
      unfold tail_text. by rewrite Et, app_nil_r.
    + destruct (with_fraction_text 0 (zeros (Z.to_nat (- x - 1)) +:+ pretty q)) as (f & Hf & Et).
      { rewrite chars_app. apply Forall_app_2; [apply digits_zeros|by apply digits_pretty_chars]. }
      exists 0, f, None. split_and!; [done|by split|]. unfold tail_text. rewrite app_nil_r. exact Et.
Qed.

Definition finite (x : float32) : Prop := match x with S754_zero _ | S754_finite _ _ _ => True | _ => False end.

#[export] Instance finite_dec x : Decision (finite x).
Proof. destruct x; cbn; apply _. Defined.

(** A finite float is printed as a JSON number; [inf] and [nan] are not. *)
Lemma reads_float x : finite x -> exists v, reads (show_float x) v.
Proof.
  destruct x as [[]|[]| |s m e]; cbn [finite]; try done; intros _.
  - destruct (reads_number true 0 [] None "-0") as (v & Hv & _); [done|by split|done|by exists v].
  - exists (PInt 0). exact (reads_int 0).
  - assert (Hf : exists n frac ex, 0 <= n /\ tail_ok frac ex /\
      chars (if 0 <=? e then format_general (Z.pos m * 2 ^ e) 1 else format_general (Z.pos m) (2 ^ (- e)))
      = chars (pretty n) ++ tail_text frac ex).
    { destruct (0 <=? e) eqn:E; apply format_general_text; lia. }
    destruct Hf as (n & frac & ex & Hn & Ht & Et).
    destruct (reads_number s n frac ex (show_float (S754_finite s m e))) as (v & Hv & _); [done|done| |by exists v].
    cbn [show_float]. rewrite chars_app, Et. unfold number_text. by destruct s.
Qed.

(** The value Python reads. *)
Definition number_of (t : string) : pyvalue := default PNone (loads (chars t)).

Lemma reads_number_of t v : reads t v -> reads t (number_of t).
Proof. intros Hv. unfold number_of. by rewrite (reads_loads t v Hv). Qed.

(** * Objects *)

Fixpoint members_text (ms : list (string * json)) (sep : string) : string :=
  match ms with
  | [] => "}"
  | (k, v) :: ms' => sep +:+ quoted k +:+ ":" +:+ render v +:+ members_text ms' ","
  end.

Lemma render_object ms : render (JObject ms) = "{" +:+ members_text ms "".
Proof. reflexivity. Qed.

Lemma reads_no_space t v r : reads t v -> skip_ws (chars t ++ r) = chars t ++ r.
Proof.
  intros Ht. specialize (Ht (S (2 * length (chars t))) [] ltac:(done)). rewrite app_nil_r in Ht. specialize (Ht ltac:(lia)).
  destruct (chars t) as [|c l]; [done|]. cbn [app skip_ws]. destruct (is_ws c) eqn:Hw; [|done]. exfalso.
  destruct c as [[] [] [] [] [] [] [] []]; cbn in Hw; try discriminate; cbn in Ht; discriminate.
Qed.

Lemma members_text_ends ms r : ends_value (chars (members_text ms ",") ++ r) /\
  skip_ws (chars (members_text ms ",") ++ r) = chars (members_text ms ",") ++ r.
Proof. destruct ms as [|[k v] ms]; split; reflexivity || done. Qed.

Lemma scan_members_text ms vs : Forall2 (fun m v => reads (render m.2) v) ms vs -> ms <> [] -> forall n r,
  (2 * length (chars (members_text ms "") ++ r) < n)%nat ->
  scan_members n (chars (members_text ms "") ++ r) = Some (zip (codes ∘ fst <$> ms) vs, r).
Proof.
  induction 1 as [|[k j] v ms vs Hv Hms IH]; [done|]. intros _ [|n] r Hn; [lia|]. cbn [snd] in Hv. cbn [members_text] in *.
  change ("" +:+ ?t) with t in *.
  assert (E : chars (quoted k +:+ ":" +:+ render j +:+ members_text ms ",") ++ r =
    "034"%char :: chars (escape k) ++ chars dq ++ ":"%char :: chars (render j) ++ chars (members_text ms ",") ++ r).
  { unfold quoted. rewrite !chars_app, <- !app_assoc. reflexivity. }
  rewrite E in Hn |- *. cbn in Hn. rewrite !length_app in Hn. cbn in Hn. rewrite !length_app in Hn.
  cbn [scan_members]. change (code "034" =? 34) with true. cbv iota. rewrite scan_quoted. cbn [mbind option_bind].
  change (skip_ws (":"%char :: ?l)) with (":"%char :: l). cbn [after]. rewrite decide_True by done. cbn [mbind option_bind].
  destruct (members_text_ends ms r) as [Hends Hws].
  rewrite (reads_no_space _ _ _ Hv), Hv; [|done|rewrite !length_app; lia]. cbn [mbind option_bind]. rewrite Hws.
  destruct ms as [|[k' j'] ms].
  - inversion Hms. reflexivity.
  - set (t := quoted k' +:+ ":" +:+ render j' +:+ members_text ms ",") in *.
    change (chars (members_text ((k', j') :: ms) ",")) with (","%char :: chars t) in *.
    change (members_text ((k', j') :: ms) "") with t in IH. cbn [app after]. rewrite decide_False, decide_True by done.
    cbn [mbind option_bind]. assert (Hsk : skip_ws (chars t ++ r) = chars t ++ r) by reflexivity.
    rewrite Hsk, IH; [reflexivity|done|]. rewrite length_app. cbn in Hn. lia.
Qed.

Lemma reads_object ms vs : ms <> [] -> Forall2 (fun m v => reads (render m.2) v) ms vs ->
  reads (render (JObject ms)) (PDict (zip (codes ∘ fst <$> ms) vs)).
Proof.
  intros Hne Hms [|n] r Hr Hn; [lia|]. rewrite render_object, chars_app in *. cbn [chars app] in *.
  cbn -[members_text] in Hn. cbn [scan_once]. change (code "{" =? 34) with false. change (code "{" =? 123) with true. cbv iota.
  assert (Hq : exists l, chars (members_text ms "") ++ r = "034"%char :: l).
  { destruct ms as [|[k v] ms]; [done|]. cbn [members_text]. by eexists. }
  pose proof (scan_members_text ms vs Hms Hne n r) as Hs. destruct Hq as [l Hq]. rewrite Hq in *.
  change (skip_ws ("034"%char :: l)) with ("034"%char :: l). cbn [after]. rewrite decide_False by done.
  rewrite Hs by (cbn in *; lia). reflexivity.
Qed.

Lemma reads_dict ms vs d : ms <> [] -> Forall2 (fun m v => reads (render m.2) v) ms vs ->
  d = zip (codes ∘ fst <$> ms) vs -> reads (render (JObject ms)) (PDict d).
Proof. intros Hne Hms ->. by apply reads_object. Qed.

(** * Events *)

Abbreviation member k v := (codes k, v).

(** What Python gets for the line of an event. *)
Definition event_value (e : event) : pyvalue :=
  match e with
  | ESnapshot s =>
      PDict [member "event" (PStr (codes "resource_snapshot")); member "node" (PStr (codes (snap_node_id s)));
             member "cpu_pct" (number_of (show_float (cpu_usage_percent s)));
             member "mem_avail_mb" (PInt (memory_available_bytes s / 1048576));
             member "temp_c" (number_of (show_float (cpu_temperature_celsius s)));
             member "throttled" (PBool (is_throttled s))]
  | EDecision d =>
      PDict [member "event" (PStr (codes "scheduling_decision")); member "task" (PStr (codes (dec_task d)));
             member "assigned_to" (PStr (codes (assigned_node d))); member "reason" (PInt (reason_code (reason d)))]
  | ETask id st d =>
      PDict [member "event" (PStr (codes "task_state_change")); member "task" (PStr (codes id));
             member "state" (PStr (codes (task_state_to_string st))); member "duration_us" (PInt d)]
  | EPeer p ty => PDict [member "event" (PStr (codes ("peer_" +:+ ty))); member "peer" (PStr (codes p))]
  | ECustom n p => PDict [member "event" (PStr (codes n)); member "data" (number_of p)]
  end.

(** No control characters. *)
Definition printable (s : string) : Prop := Forall (fun c => 32 <= code c) (chars s).

(** Clean identifiers, finite numbers, payloads that are JSON. *)
Definition event_readable (e : event) : Prop :=
  event_clean e /\
  match e with
  | ESnapshot s => finite (cpu_usage_percent s) /\ finite (cpu_temperature_celsius s)
  | ECustom n p => printable p /\ exists v, reads p v
  | _ => True
  end.

Lemma event_reads e : event_readable e -> reads (event_line e) (event_value e).
Proof.
  intros [Hc Hr]. rewrite event_line_json by done.
  assert (Hs : forall s, reads (render (JString s)) (PStr (codes s))) by apply reads_string.
  assert (Hi : forall z, reads (render (JInt z)) (PInt z)) by apply reads_int.
  assert (Hf : forall x, finite x -> reads (render (JFloat x)) (number_of (show_float x))).
  { intros x [v Hv]%reads_float. by eapply reads_number_of. }
  assert (Hb : forall b, reads (render (JBool b)) (PBool b)) by apply reads_bool.
  assert (Hp : forall p, (exists v, reads p v) -> reads (render (JRaw p)) (number_of p)).
  { intros p [v Hv]. by eapply reads_number_of. }
  destruct e as [s|d|id st du|p ty|n p]; cbn [event_json event_value]; try destruct Hr as [Hr1 Hr2];
    (eapply reads_dict; [done|repeat (apply Forall2_cons; split; [solve [eauto]|]); constructor|reflexivity]).
Qed.
