(* ===== verification/LogAnalyzer.v ===== *)
(** [tools/log_analyzer.py]: the script that reads the metrics stream and counts events.

    The file is ASCII text.  What the script prints is kept as data: the numbers and values
    of each [print].  An exception other than the [JSONDecodeError] it catches ends it.
    [json.dumps], which only [--event] uses for its output, is not modelled. *)

From Stdlib Require Import ZArith Lia Ascii String SpecFloat.
From stdpp Require Import base strings numbers pretty sorting list.
From S2P Require Import Prelude Text Float32 Core Scheduler Telemetry TelemetryTheorems Json JsonTheorems.

Local Open Scope Z_scope.

(** * Reading *)

(** Iterating over a text file: [\r] and [\r\n] end a line too. *)
Fixpoint universal_newlines (l : list ascii) : list ascii :=
  match l with
  | [] => []
  | c :: l' =>
      if code c =? 13 then
        match l' with
        | d :: l'' => if code d =? 10 then d :: universal_newlines l'' else ascii_of_nat 10 :: universal_newlines l'
        | [] => [ascii_of_nat 10]
        end
      else c :: universal_newlines l'
  end.

Definition py_lines (text : string) : list string := split_lines [] (universal_newlines (chars text)).

(** [str.strip] *)
Definition py_space (c : ascii) : bool :=
  let n := code c in ((9 <=? n) && (n <=? 13)) || ((28 <=? n) && (n <=? 32)).

Fixpoint lstrip (l : list ascii) : list ascii :=
  match l with
  | c :: l' => if py_space c then lstrip l' else l
  | [] => []
  end.

Definition strip (l : list ascii) : list ascii := rev (lstrip (rev (lstrip l))).

(** The events, and the numbers of the lines it warns about. *)
Fixpoint load_lines (line_num : nat) (lines : list string) : list pyvalue * list nat :=
  match lines with
  | [] => ([], [])
  | line :: lines' =>
      let '(evs, warned) := load_lines (S line_num) lines' in
      match strip (chars line) with
      | [] => (evs, warned)
      | l => match loads l with
             | Some v => (v :: evs, warned)
             | None => (evs, line_num :: warned)
             end
      end
  end.

Definition load_events (text : string) : list pyvalue * list nat := load_lines 1 (py_lines text).

(** [e.get(key, dflt)]; [None]: [e] is no dict. *)
Definition py_get (key : string) (dflt : pyvalue) (e : pyvalue) : option pyvalue :=
  match e with
  | PDict ms => Some (default dflt (snd <$> last (filter (fun m => m.1 = codes key) ms)))
  | _ => None
  end.

(** [v == s] for a string [s]. *)
Definition is_str (s : string) (v : pyvalue) : bool :=
  match v with PStr t => bool_decide (t = codes s) | _ => false end.

(** * Counting *)

#[global] Instance spec_float_eq_dec : EqDecision spec_float.
Proof. solve_decision. Defined.

(** Dictionary keys: numbers that are equal are the same key; lists and dicts are not hashable. *)
Inductive key := KNone | KInt (z : Z) | KFloat (x : spec_float) | KStr (s : list Z).

#[global] Instance key_eq_dec : EqDecision key.
Proof. solve_decision. Defined.

Definition float_key (x : spec_float) : key :=
  match x with
  | S754_zero _ => KInt 0
  | S754_finite s m e =>
      let signed (z : Z) := if s then - z else z in
      if 0 <=? e then KInt (signed (Z.pos m * 2 ^ e))
      else if Z.pos m mod 2 ^ (- e) =? 0 then KInt (signed (Z.pos m / 2 ^ (- e)))
      else KFloat x
  | _ => KFloat x
  end.

Definition hash_key (v : pyvalue) : option key :=
  match v with
  | PNone => Some KNone
  | PBool b => Some (KInt (if b then 1 else 0))
  | PInt z => Some (KInt z)
  | PFloat x => Some (float_key x)
  | PStr s => Some (KStr s)
  | PList _ | PDict _ => None
  end.

(** A [Counter]: keys in the order of their first appearance, with the value seen then. *)
Definition counter := list (key * (pyvalue * nat)).

Fixpoint counter_add (k : key) (v : pyvalue) (c : counter) : counter :=
  match c with
  | [] => [(k, (v, 1%nat))]
  | (k', (v', n)) :: c' => if decide (k = k') then (k', (v', S n)) :: c' else (k', (v', n)) :: counter_add k v c'
  end.

Fixpoint count_types (events : list pyvalue) (c : counter) : option counter :=
  match events with
  | [] => Some c
  | e :: events' =>
      v ← py_get "event" (PStr (codes "unknown")) e;
      k ← hash_key v;
      count_types events' (counter_add k v c)
  end.

(** [most_common()]: a stable sort by count, largest first. *)
Fixpoint place (x : pyvalue * nat) (l : list (pyvalue * nat)) : list (pyvalue * nat) :=
  match l with
  | [] => [x]
  | y :: l' => if (y.2 <? x.2)%nat then x :: l else y :: place x l'
  end.

Definition most_common (c : counter) : list (pyvalue * nat) := foldl (fun acc x => place x.2 acc) [] c.

(** * Statistics *)

(** [[e for e in events if e.get(key) == s]] *)
Fixpoint select (key s : string) (events : list pyvalue) : option (list pyvalue) :=
  match events with
  | [] => Some []
  | e :: events' =>
      v ← py_get key PNone e;
      es ← select key s events';
      Some (if is_str s v then e :: es else es)
  end.

Definition filter_events (events : list pyvalue) (event_type : string) : option (list pyvalue) :=
  select "event" event_type events.

(** [f"{x:.0f}"] *)
Definition show_rounded (x : spec_float) : string :=
  match x with
  | S754_zero s => if s then "-0" else "0"
  | S754_infinity s => if s then "-inf" else "inf"
  | S754_nan => "nan"
  | S754_finite s m e =>
      (if s then "-" else "") +:+
      pretty (if 0 <=? e then Z.pos m * 2 ^ e else div_nearest (Z.pos m) (2 ^ (- e)))
  end.

(** [sum(durations) / len(durations)]: the nearest double, [None] when it is too large for one. *)
Definition true_divide (n d : Z) : option spec_float :=
  if d * (2 ^ 1024 - 2 ^ 970) <=? Z.abs n then None else Some (double_ratio (n <? 0) (Z.abs n) d).

Record duration_stats := mkStats { avg_shown : string; min_duration : Z; max_duration : Z }.

Definition sum (l : list Z) : Z := foldl Z.add 0 l.

(** [None]: an exception. *)
Definition stats_of (durations : list Z) : option (option duration_stats) :=
  match durations with
  | [] => Some None
  | d :: ds =>
      a ← true_divide (sum durations) (Z.of_nat (length durations));
      Some (Some (mkStats (show_rounded a) (foldl Z.min d ds) (foldl Z.max d ds)))
  end.

Record task_stats := mkTaskStats { n_completed : nat; n_failed : nat; durations_shown : option duration_stats }.

Record summary := mkSummary {
  total_events : nat;
  breakdown : list (pyvalue * nat);
  task_part : option task_stats
}.

(** Durations that are not integers are outside the model. *)
Inductive printed := Printed (s : summary) | Raised | NotModelled.

Definition int_of (v : pyvalue) : option Z := match v with PInt z => Some z | _ => None end.

Definition print_tasks (task_events : list pyvalue) : option (option task_stats) + unit :=
  match task_events with
  | [] => inl (Some None)
  | _ =>
      match select "state" "completed" task_events, select "state" "failed" task_events with
      | Some completed, Some failed =>
          match mapM (fun e => v ← py_get "duration_us" (PInt 0) e; int_of v) completed with
          | Some durations =>
              inl (st ← stats_of durations; Some (Some (mkTaskStats (length completed) (length failed) st)))
          | None => inr ()
          end
      | _, _ => inl None
      end
  end.

Definition print_summary (events : list pyvalue) : printed :=
  match count_types events [], select "event" "task_state_change" events with
  | Some c, Some task_events =>
      match print_tasks task_events with
      | inl (Some tasks) => Printed (mkSummary (length events) (most_common c) tasks)
      | inl None => Raised
      | inr _ => NotModelled
      end
  | _, _ => Raised
  end.

(** * The command *)

Record analyzer_args := mkAnalyzerArgs { aa_summary : bool; aa_event : option string; aa_json : bool }.

Inductive report :=
  | NoSuchFile                                        (** exit status 1 *)
  | Summarised (warned : list nat) (p : printed)
  | Dumped (warned : list nat) (events : list pyvalue) (compact : bool)
  | FilterRaised (warned : list nat).

(** [text] is the file, if it exists. *)
Definition analyze (args : analyzer_args) (text : option string) : report :=
  match text with
  | None => NoSuchFile
  | Some text =>
      let '(events, warned) := load_events text in
      if aa_summary args then Summarised warned (print_summary events)
      else match aa_event args with
           | Some ty =>
               if decide (ty = EmptyString) then Summarised warned (print_summary events)
               else match filter_events events ty with
                    | Some es => Dumped warned es (aa_json args)
                    | None => FilterRaised warned
                    end
           | None => Summarised warned (print_summary events)
           end
  end.
