(* ===== verification/LogAnalyzerTheorems.v ===== *)
(** What [tools/log_analyzer.py] reports on a metrics file is what the program recorded. *)

From Stdlib Require Import ZArith Lia Ascii String SpecFloat.
From stdpp Require Import base strings sets numbers pretty sorting list.
From S2P Require Import Prelude Text Float32 Core Scheduler Telemetry TelemetryTheorems Json JsonTheorems LogAnalyzer.

Local Open Scope Z_scope.

(** * Lines *)



#[export] Instance printable_dec s : Decision (printable s).
Proof. unfold printable. apply _. Defined.











(** * Members *)







(** * The counter *)













(** * Task statistics *)


Definition is_task (e : event) : Prop := match e with ETask _ _ _ => True | _ => False end.

#[export] Instance is_task_dec e : Decision (is_task e).
Proof. destruct e; cbn; apply _. Defined.















(** * Properties *)


