(* ===== verification/Monitor.v ===== *)
(** [resource_monitor/]: the Linux monitor, which turns the text of [/proc] and [/sys] into
    snapshots, the mock monitor, and the [ResourceMonitorLike] concept of [core/concepts.hpp]
    they both satisfy.

    The contents of the files at a sample are an input; a file that cannot be opened reads
    as the empty text.  Values the code reads without having written them are inputs too. *)

From Stdlib Require Import ZArith Lia Ascii String.
From stdpp Require Import base strings numbers pretty list.
From S2P Require Import Prelude Text Float32 Core.

Local Open Scope Z_scope.
Local Open Scope cpp_scope.

(** * Files *)

Record proc_files := mkFiles {
  f_stat : string;          (** [/proc/stat] *)
  f_meminfo : string;       (** [/proc/meminfo] *)
  f_net_dev : string;       (** [/proc/net/dev] *)
  f_zone0 : string;         (** [/sys/class/thermal/thermal_zone0/temp] *)
  f_zone1 : string;         (** [/sys/class/thermal/thermal_zone1/temp] *)
  f_throttled : string      (** the firmware's [get_throttled] *)
}.

(** [read_file_lines] is [file_lines] of the contents. *)
Definition read_file_line (text : string) : string := hd "" (file_lines text).

(** * Parsing *)

Record CpuTimes := mkCpu {
  user : Z; nice : Z; system : Z; idle : Z; iowait : Z; irq : Z; softirq : Z; steal : Z
}.

Definition no_cpu : CpuTimes := mkCpu 0 0 0 0 0 0 0 0.

#[export] Instance CpuTimes_inhabited : Inhabited CpuTimes := populate no_cpu.

Definition parse_cpu_line (line : string) : CpuTimes :=
  let '(_, s) := extract_word "" (istringstream line) in
  let v := fst (extract_all (replicate 8 0) s) in
  mkCpu (v !!! 0%nat) (v !!! 1%nat) (v !!! 2%nat) (v !!! 3%nat)
        (v !!! 4%nat) (v !!! 5%nat) (v !!! 6%nat) (v !!! 7%nat).

Definition cpu_total (t : CpuTimes) : Z :=
  user t +! nice t +! system t +! idle t +! iowait t +! irq t +! softirq t +! steal t.

Definition cpu_active (t : CpuTimes) : Z :=
  user t +! nice t +! system t +! irq t +! softirq t +! steal t.

Definition compute_cpu_percent (prev curr : CpuTimes) : float32 :=
  let total_delta := cpu_total curr -! cpu_total prev in
  if total_delta =? 0 then f32_zero
  else
    let active_delta := cpu_active curr -! cpu_active prev in
    f32_div (f32_mul f32_100 (f32_of_Z active_delta)) (f32_of_Z total_delta).

Record MemInfo := mkMem { total_kb : Z; available_kb : Z }.

Definition meminfo_line (info : MemInfo) (line : string) : MemInfo :=
  match strip_prefix (chars "MemTotal:") (chars line) with
  | Some l => mkMem (fst (extract_u64 (total_kb info) (mkStream l true))) (available_kb info)
  | None =>
      match strip_prefix (chars "MemAvailable:") (chars line) with
      | Some l => mkMem (total_kb info) (fst (extract_u64 (available_kb info) (mkStream l true)))
      | None => info
      end
  end.

Definition parse_meminfo (text : string) : MemInfo := foldl meminfo_line (mkMem 0 0) (file_lines text).

(** [None] when [std::stol] throws. *)
Definition read_temperature (text : string) : float32 :=
  let line := read_file_line text in
  if decide (line = "") then f32_zero
  else match stol line with
       | Some v => f32_div (f32_of_Z v) (f32_of_Z 1000)
       | None => f32_zero
       end.

Record NetCounters := mkNet { rx_bytes : Z; tx_bytes : Z }.

(** The text before and after the first colon. *)
Fixpoint split_colon (l : list ascii) : option (list ascii * list ascii) :=
  match l with
  | [] => None
  | c :: l' =>
      if decide (c = ":"%char) then Some ([], l')
      else '(a, b) ← split_colon l'; Some (c :: a, b)
  end.

(** Leading spaces are dropped unless there is nothing else. *)
Fixpoint drop_spaces (l : list ascii) : list ascii :=
  match l with
  | " "%char :: l' => drop_spaces l'
  | _ => l
  end.

Definition iface_name (l : list ascii) : list ascii :=
  match drop_spaces l with [] => l | r => r end.

(** [uninit] is what the two variables hold before the extraction. *)
Definition net_line (uninit : Z * Z) (total : NetCounters) (line : string) : NetCounters :=
  match split_colon (chars line) with
  | None => total
  | Some (name, l) =>
      if decide (iface_name name = chars "lo") then total
      else
        let v := fst (extract_all (fst uninit :: replicate 7 0 ++ [snd uninit]) (mkStream l true)) in
        mkNet (rx_bytes total +! (v !!! 0%nat)) (tx_bytes total +! (v !!! 8%nat))
  end.

Fixpoint net_lines (uninit : nat -> Z * Z) (i : nat) (total : NetCounters) (lines : list string) : NetCounters :=
  match lines with
  | [] => total
  | line :: lines' => net_lines uninit (S i) (net_line (uninit i) total line) lines'
  end.

(** The first two lines are the header. *)
Definition parse_net_dev (uninit : nat -> Z * Z) (text : string) : NetCounters :=
  net_lines uninit 0 (mkNet 0 0) (drop 2 (file_lines text)).

Definition read_rpi_throttled (text : string) : bool :=
  let line := read_file_line text in
  if decide (line = "") then false
  else match stoull0 line with
       | Some val => negb (Z.land val 4 =? 0)
       | None => false
       end.

(** [static_cast<uint64_t>] of a float; [undef] when the value does not fit. *)
Definition f32_to_u64 (undef : Z) (x : float32) : Z :=
  match f32_trunc x with
  | Some z => if (0 <=? z) && (z <? 2 ^ 64) then z else undef
  | None => undef
  end.

(** * [LinuxMonitor] *)

(** A callback is a number, the call of it an element of a list. *)
Record LinuxMonitor := mkLinux {
  lm_node_id : NodeId;
  lm_interval_ms : Z;
  latest_ : option ResourceSnapshot;
  prev_cpu_times_ : CpuTimes;
  prev_per_core_times_ : list CpuTimes;
  prev_net_ : NetCounters;
  cpu_callbacks_ : list (float32 * nat);
  memory_callbacks_ : list (float32 * nat);
  sampling : bool
}.

Definition new_linux_monitor (id : NodeId) (interval_ms : Z) : LinuxMonitor :=
  mkLinux id interval_ms None no_cpu (replicate 4 no_cpu) (mkNet 0 0) [] [] false.

(** What a sample observes besides the files: the clock, the variables [net_line] reads
    unset, and the values of casts that do not fit. *)
Record sample_env := mkSample {
  sa_now : Z;
  sa_files : proc_files;
  sa_uninit : nat -> Z * Z;
  sa_undef : Z * Z
}.

(** The cores whose line is there: position and times. *)
Definition core_line (lines : list string) (i : nat) : option CpuTimes :=
  line ← lines !! S i;
  if starts_with "cpu" line then Some (parse_cpu_line line) else None.

Definition start_core (lines : list string) (cores : list CpuTimes) (i : nat) : list CpuTimes :=
  match core_line lines i with Some t => <[i := t]> cores | None => cores end.

Definition start (e : sample_env) (m : LinuxMonitor) : LinuxMonitor :=
  let lines := file_lines (f_stat (sa_files e)) in
  mkLinux (lm_node_id m) (lm_interval_ms m) (latest_ m)
    (match lines with line :: _ => parse_cpu_line line | [] => no_cpu end)
    (match lines with _ :: _ => foldl (start_core lines) (replicate 4 no_cpu) (seq 0 4)
                    | [] => replicate 4 no_cpu end)
    (parse_net_dev (sa_uninit e) (f_net_dev (sa_files e)))
    (cpu_callbacks_ m) (memory_callbacks_ m) true.

Definition stop (m : LinuxMonitor) : LinuxMonitor :=
  mkLinux (lm_node_id m) (lm_interval_ms m) (latest_ m) (prev_cpu_times_ m) (prev_per_core_times_ m)
    (prev_net_ m) (cpu_callbacks_ m) (memory_callbacks_ m) false.

Definition read (m : LinuxMonitor) : Result ResourceSnapshot :=
  match latest_ m with
  | None => make_error "No snapshot available yet"
  | Some s => Ok s
  end.

Definition cpu_usage (m : LinuxMonitor) : float32 :=
  match latest_ m with Some s => cpu_usage_percent s | None => f32_zero end.
Definition memory_available (m : LinuxMonitor) : Z :=
  match latest_ m with Some s => memory_available_bytes s | None => 0 end.
Definition throttled_now (m : LinuxMonitor) : bool :=
  match latest_ m with Some s => is_throttled s | None => false end.

Definition on_cpu_threshold (percent : float32) (cb : nat) (m : LinuxMonitor) : LinuxMonitor :=
  mkLinux (lm_node_id m) (lm_interval_ms m) (latest_ m) (prev_cpu_times_ m) (prev_per_core_times_ m)
    (prev_net_ m) (cpu_callbacks_ m ++ [(percent, cb)]) (memory_callbacks_ m) (sampling m).
Definition on_memory_threshold (percent : float32) (cb : nat) (m : LinuxMonitor) : LinuxMonitor :=
  mkLinux (lm_node_id m) (lm_interval_ms m) (latest_ m) (prev_cpu_times_ m) (prev_per_core_times_ m)
    (prev_net_ m) (cpu_callbacks_ m) (memory_callbacks_ m ++ [(percent, cb)]) (sampling m).

(** One iteration of the per-core loop of [sample_once]. *)
Definition sample_core (lines : list string) (acc : list float32 * list CpuTimes) (i : nat)
  : list float32 * list CpuTimes :=
  let '(percents, cores) := acc in
  match core_line lines i with
  | Some t => (<[i := compute_cpu_percent (cores !!! i) t]> percents, <[i := t]> cores)
  | None => acc
  end.

Definition sample_once (e : sample_env) (m : LinuxMonitor) : ResourceSnapshot * LinuxMonitor :=
  let lines := file_lines (f_stat (sa_files e)) in
  let '(cpu, prev_cpu, percents, cores) :=
    match lines with
    | [] => (f32_zero, prev_cpu_times_ m, replicate 4 f32_zero, prev_per_core_times_ m)
    | line :: _ =>
        let curr := parse_cpu_line line in
        let '(percents, cores) :=
          foldl (sample_core lines) (replicate 4 f32_zero, prev_per_core_times_ m) (seq 0 4) in
        (compute_cpu_percent (prev_cpu_times_ m) curr, curr, percents, cores)
    end in
  let mem := parse_meminfo (f_meminfo (sa_files e)) in
  let net := parse_net_dev (sa_uninit e) (f_net_dev (sa_files e)) in
  let interval_sec := f32_div (f32_of_Z (lm_interval_ms m)) (f32_of_Z 1000) in
  let rate undef curr prev :=
    if f32_gtb interval_sec f32_zero
    then f32_to_u64 undef (f32_div (f32_of_Z (curr -! prev)) interval_sec) else 0 in
  (mkSnapshot (lm_node_id m) (sa_now e) cpu percents
     (available_kb mem *! 1024) (total_kb mem *! 1024)
     (read_temperature (f_zone0 (sa_files e))) (read_temperature (f_zone1 (sa_files e)))
     (rate (fst (sa_undef e)) (rx_bytes net) (rx_bytes (prev_net_ m)))
     (rate (snd (sa_undef e)) (tx_bytes net) (tx_bytes (prev_net_ m)))
     (read_rpi_throttled (f_throttled (sa_files e))),
   mkLinux (lm_node_id m) (lm_interval_ms m) (latest_ m) prev_cpu cores net
     (cpu_callbacks_ m) (memory_callbacks_ m) (sampling m)).

(** The callbacks called, in order. *)
Definition check_thresholds (snap : ResourceSnapshot) (m : LinuxMonitor) : list nat :=
  snd <$> filter (fun cb => f32_geb (cpu_usage_percent snap) cb.1 = true) (cpu_callbacks_ m) ++
  filter (fun cb => f32_geb (memory_usage_percent snap) cb.1 = true) (memory_callbacks_ m).

(** One round of [sampling_loop]. *)
Definition sampling_round (e : sample_env) (m : LinuxMonitor) : list nat * LinuxMonitor :=
  let '(snap, m) := sample_once e m in
  let m := mkLinux (lm_node_id m) (lm_interval_ms m) (Some snap) (prev_cpu_times_ m) (prev_per_core_times_ m)
             (prev_net_ m) (cpu_callbacks_ m) (memory_callbacks_ m) (sampling m) in
  (check_thresholds snap m, m).

(** * [MockMonitor] *)

Module Mock.

Record MockMonitor := mkMock {
  mm_node_id : NodeId;
  sequence_ : list ResourceSnapshot;
  index_ : nat;
  static_snapshot_ : ResourceSnapshot;
  use_static_ : bool
}.

Definition with_node (id : NodeId) (s : ResourceSnapshot) : ResourceSnapshot :=
  mkSnapshot id (timestamp s) (cpu_usage_percent s) (per_core_cpu_percent s) (memory_available_bytes s)
    (memory_total_bytes s) (cpu_temperature_celsius s) (gpu_temperature_celsius s)
    (network_rx_bytes_sec s) (network_tx_bytes_sec s) (is_throttled s).
Definition stamped (now : Z) (s : ResourceSnapshot) : ResourceSnapshot :=
  mkSnapshot (snap_node_id s) now (cpu_usage_percent s) (per_core_cpu_percent s) (memory_available_bytes s)
    (memory_total_bytes s) (cpu_temperature_celsius s) (gpu_temperature_celsius s)
    (network_rx_bytes_sec s) (network_tx_bytes_sec s) (is_throttled s).
Definition with_static (m : MockMonitor) (s : ResourceSnapshot) : MockMonitor :=
  mkMock (mm_node_id m) (sequence_ m) (index_ m) s (use_static_ m).

Definition new_mock (id : NodeId) : MockMonitor :=
  mkMock id [] 0
    (mkSnapshot id 0 (f32_of_Z 25) (replicate 4 (f32_of_Z 25)) (2 * 1024 * 1024 * 1024) (4 * 1024 * 1024 * 1024)
       (f32_of_Z 45) f32_zero 0 0 false) true.

Definition read (now : Z) (m : MockMonitor) : Result ResourceSnapshot * MockMonitor :=
  if use_static_ m then
    let s := stamped now (static_snapshot_ m) in (Ok s, with_static m s)
  else
    match sequence_ m !! index_ m with
    | None => (make_error "Mock sequence exhausted", m)
    | Some s =>
        (Ok (stamped now s),
         mkMock (mm_node_id m) (sequence_ m) (S (index_ m)) (static_snapshot_ m) (use_static_ m))
    end.

(** The snapshot the three accessors look at: the static one or the last one read. *)
Definition current (m : MockMonitor) : option ResourceSnapshot :=
  if use_static_ m then Some (static_snapshot_ m)
  else match index_ m with O => None | S i => sequence_ m !! i end.

Definition cpu_usage (m : MockMonitor) : float32 :=
  match current m with Some s => cpu_usage_percent s | None => f32_zero end.
Definition memory_available (m : MockMonitor) : Z :=
  match current m with Some s => memory_available_bytes s | None => 0 end.
Definition throttled_now (m : MockMonitor) : bool :=
  match current m with Some s => is_throttled s | None => false end.

Definition push_snapshot (s : ResourceSnapshot) (m : MockMonitor) : MockMonitor :=
  mkMock (mm_node_id m) (sequence_ m ++ [with_node (mm_node_id m) s]) (index_ m) (static_snapshot_ m) false.
Definition set_static_snapshot (s : ResourceSnapshot) (m : MockMonitor) : MockMonitor :=
  mkMock (mm_node_id m) (sequence_ m) (index_ m) (with_node (mm_node_id m) s) true.

Definition set_cpu (percent : float32) (m : MockMonitor) : MockMonitor :=
  let s := static_snapshot_ m in
  with_static m (mkSnapshot (snap_node_id s) (timestamp s) percent (replicate 4 percent) (memory_available_bytes s)
    (memory_total_bytes s) (cpu_temperature_celsius s) (gpu_temperature_celsius s)
    (network_rx_bytes_sec s) (network_tx_bytes_sec s) (is_throttled s)).
Definition set_memory (available total : Z) (m : MockMonitor) : MockMonitor :=
  let s := static_snapshot_ m in
  with_static m (mkSnapshot (snap_node_id s) (timestamp s) (cpu_usage_percent s) (per_core_cpu_percent s) available
    total (cpu_temperature_celsius s) (gpu_temperature_celsius s)
    (network_rx_bytes_sec s) (network_tx_bytes_sec s) (is_throttled s)).
Definition set_throttled (throttled : bool) (m : MockMonitor) : MockMonitor :=
  let s := static_snapshot_ m in
  with_static m (mkSnapshot (snap_node_id s) (timestamp s) (cpu_usage_percent s) (per_core_cpu_percent s)
    (memory_available_bytes s) (memory_total_bytes s) (cpu_temperature_celsius s) (gpu_temperature_celsius s)
    (network_rx_bytes_sec s) (network_tx_bytes_sec s) throttled).

End Mock.

(** * The concept *)

(** [ResourceMonitorLike]: what the orchestrator may ask of a monitor, and what it relies
    on: a snapshot carries the node's id and fields of their C++ types. *)

Definition snapshot_ok (id : NodeId) (s : ResourceSnapshot) : Prop :=
  snap_node_id s = id /\ length (per_core_cpu_percent s) = 4%nat /\
  is_u64 (memory_available_bytes s) /\ is_u64 (memory_total_bytes s) /\
  is_u64 (network_rx_bytes_sec s) /\ is_u64 (network_tx_bytes_sec s).

Class ResourceMonitorLike (M : Type) := {
  monitor_read : Z -> M -> Result ResourceSnapshot * M;
  monitor_cpu_usage : M -> float32;
  monitor_memory_available : M -> Z;
  monitor_is_throttled : M -> bool
}.

Class ResourceMonitorLaws (M : Type) `{ResourceMonitorLike M} := {
  monitor_ok : NodeId -> M -> Prop;
  monitor_read_ok : forall id now m, monitor_ok id m ->
    let '(r, m') := monitor_read now m in
    monitor_ok id m' /\ forall s, r = Ok s -> snapshot_ok id s /\
      monitor_cpu_usage m' = cpu_usage_percent s /\ monitor_memory_available m' = memory_available_bytes s /\
      monitor_is_throttled m' = is_throttled s
}.

#[export] Instance LinuxMonitorLike : ResourceMonitorLike LinuxMonitor := {|
  monitor_read := fun _ m => (read m, m);
  monitor_cpu_usage := cpu_usage;
  monitor_memory_available := memory_available;
  monitor_is_throttled := throttled_now
|}.

#[export] Instance MockMonitorLike : ResourceMonitorLike Mock.MockMonitor := {|
  monitor_read := Mock.read;
  monitor_cpu_usage := Mock.cpu_usage;
  monitor_memory_available := Mock.memory_available;
  monitor_is_throttled := Mock.throttled_now
|}.
