(* ===== verification/MonitorTheorems.v ===== *)
(** The monitors: what the kernel prints is what a snapshot says, and both monitors keep
    the contract the orchestrator relies on. *)

From Stdlib Require Import ZArith Lia Ascii String.
From stdpp Require Import base strings relations numbers pretty list.
From S2P Require Import Prelude Text Float32 Core Monitor.

Local Open Scope Z_scope.
Local Open Scope cpp_scope.

(** * Wrapping sums *)

Lemma u64_add_l a b : u64 (u64 a + b) = u64 (a + b).
Proof. unfold u64. apply Zplus_mod_idemp_l. Qed.
Lemma u64_add_r a b : u64 (a + u64 b) = u64 (a + b).
Proof. unfold u64. apply Zplus_mod_idemp_r. Qed.
Lemma u64_sub_l a b : u64 (u64 a - b) = u64 (a - b).
Proof. unfold u64. apply Zminus_mod_idemp_l. Qed.
Lemma u64_sub_r a b : u64 (a - u64 b) = u64 (a - b).
Proof. unfold u64. apply Zminus_mod_idemp_r. Qed.

(** Sums wrapped at every step are wrapped once, from the inside out. *)
Ltac flatten_u64 :=
  repeat match goal with
  | |- context [u64 (u64 ?a + ?b)] =>
      lazymatch a with context [u64 _] => fail | _ => rewrite (u64_add_l a b) end
  end;
  rewrite ?u64_sub_l, ?u64_sub_r.

Lemma u64_sum l : u64 (sumZ u64 l) = u64 (sumZ id l).
Proof.
  induction l as [|x l IH]; cbn [sumZ]; [done|]. rewrite u64_add_l, <- u64_add_r, IH. apply u64_add_r.
Qed.

(** * What the kernel prints *)

(** A line with numbers: the prefix, the numbers each after at least one space, and any text
    that does not go on with a digit -- a unit, or further numbers. *)
Definition prints (prefix : list ascii) (ns : list Z) (line : string) : Prop :=
  exists (pads : list nat) (tail : list ascii), length pads = length ns /\ ends_number tail /\
    chars line = prefix ++ spaced (zip pads ns) ++ tail.

Definition cpu_fields (t : CpuTimes) : list Z :=
  [user t; nice t; system t; idle t; iowait t; irq t; softirq t; steal t].

Definition cpu_ok (t : CpuTimes) : Prop := Forall is_u64 (cpu_fields t).

(** [cpu], the number of the core on the lines of the cores, the eight counters and what
    follows: the two guest counters, on the kernels that have them. *)
Definition shows_cpu (line : string) (t : CpuTimes) : Prop :=
  exists number, Forall (fun c => is_space c = false) (chars number) /\
    prints (chars ("cpu" +:+ number)) (cpu_fields t) line.

(** An interface with its counters; [if_more] are those between the two byte counters:
    packets, errs, drop, fifo, frame, compressed, multicast. *)
Record iface := mkIface { if_name : string; if_rx : Z; if_more : list Z; if_tx : Z }.

Definition if_fields (i : iface) : list Z := if_rx i :: if_more i ++ [if_tx i].

(** The name, right-aligned, a colon and the counters. *)
Definition shows_iface (line : string) (i : iface) : Prop :=
  exists pad, prints (replicate pad " "%char ++ chars (if_name i) ++ [":"%char]) (if_fields i) line.

(** A name the kernel would give an interface. *)
Definition name_ok (n : string) : Prop :=
  n <> "" /\ Forall (fun c => c <> ":"%char /\ c <> " "%char) (chars n).

Definition iface_ok (i : iface) : Prop :=
  name_ok (if_name i) /\ length (if_more i) = 7%nat /\ Forall is_u64 (if_fields i).

(** The figures of a kernel state the monitor asks for. *)
Record kernel := mkKernel {
  k_cpu : CpuTimes;
  k_cores : list CpuTimes;
  k_total_kb : Z;
  k_available_kb : Z;
  k_ifaces : list iface;
  k_zone0 : Z;               (** millidegrees *)
  k_zone1 : Z
}.

Record kernel_ok (k : kernel) : Prop := {
  ko_cpu : cpu_ok (k_cpu k);
  ko_cores : Forall cpu_ok (k_cores k);
  ko_mem : 0 <= k_available_kb k < 2 ^ 54 /\ 0 <= k_total_kb k < 2 ^ 54;
  ko_ifaces : Forall iface_ok (k_ifaces k);
  ko_zones : is_i64 (k_zone0 k) /\ is_i64 (k_zone1 k)
}.

(** The line of the total, one per core, and lines that are not about cores. *)
Definition shows_stat (lines : list string) (k : kernel) : Prop :=
  exists total cores others, lines = total :: cores ++ others /\
    shows_cpu total (k_cpu k) /\ Forall2 shows_cpu cores (k_cores k) /\
    Forall (fun l => starts_with "cpu" l = false) others.

(** A line for each of the two figures, anywhere among the others. *)
Definition shows_meminfo (lines : list string) (k : kernel) : Prop :=
  let figure label kb :=
    Exists (fun l => starts_with label l = true) lines /\
    Forall (fun l => starts_with label l = true -> prints (chars label) [kb] l) lines in
  figure "MemTotal:" (k_total_kb k) /\ figure "MemAvailable:" (k_available_kb k).

(** Two header lines, whatever they say, and one line per interface. *)
Definition shows_net_dev (lines : list string) (k : kernel) : Prop :=
  exists h1 h2 ifaces, lines = h1 :: h2 :: ifaces /\ Forall2 shows_iface ifaces (k_ifaces k).

(** The files show the kernel state. *)
Record shows (f : proc_files) (k : kernel) : Prop := {
  sh_ok : kernel_ok k;
  sh_stat : shows_stat (file_lines (f_stat f)) k;
  sh_meminfo : shows_meminfo (file_lines (f_meminfo f)) k;
  sh_net_dev : shows_net_dev (file_lines (f_net_dev f)) k;
  sh_zone0 : read_file_line (f_zone0 f) = pretty (k_zone0 k);
  sh_zone1 : read_file_line (f_zone1 f) = pretty (k_zone1 k)
}.

(** * Reading it back *)

Lemma word_stop (w r : list ascii) : Forall (fun c => is_space c = false) w ->
  (exists c r', r = c :: r' /\ is_space c = true) -> word (w ++ r) = (w, r).
Proof.
  intros Hw (c & r' & -> & Hc). induction Hw as [|a w Ha _ IH]; cbn [app word]; [by rewrite Hc|].
  by rewrite Ha, IH.
Qed.

(** Extraction gets the printed numbers, whatever follows them. *)
Lemma extract_printed xs pads ns l : length xs = length ns -> length pads = length ns -> Forall is_u64 ns ->
  ends_number l -> fst (extract_all xs (mkStream (spaced (zip pads ns) ++ l) true)) = ns.
Proof.
  intros Hx Hp Hns He. revert xs pads Hx Hp.
  induction Hns as [|n ns Hn Hns IH]; intros [|x xs] [|pad pads] Hx Hp; try done.
  cbn [zip zip_with extract_all]. change (spaced ((pad, n) :: ?r)) with ((replicate (S pad) " "%char ++ chars (pretty n)) ++ spaced r).
  rewrite <- !(assoc_L (++)), extract_pretty; [|done|by apply spaced_ends].
  destruct ns as [|n' ns].
  - by destruct xs.
  - destruct pads as [|pad' pads]; [done|]. rewrite bool_decide_eq_false_2 by done. cbn [negb].
    specialize (IH xs (pad' :: pads)). destruct (extract_all xs _) as [vs s']. cbn [fst] in *.
    rewrite IH; [done|simpl in *; lia..].
Qed.

Lemma parse_shown_cpu line t : shows_cpu line t -> cpu_ok t -> parse_cpu_line line = t.
Proof.
  intros (number & Hn & pads & tail & Hlen & He & E) Ht.
  unfold parse_cpu_line, istringstream, extract_word. cbn [good rest]. rewrite E, chars_app.
  destruct pads as [|pad pads]; [done|]. set (nums := spaced (zip _ _)).
  change (chars "cpu") with ["c"; "p"; "u"]%char. cbn [app skip_space].
  change (is_space "c") with false. cbv iota.
  change ("c" :: "p" :: "u" :: chars number ++ nums ++ tail)%char with ((["c"; "p"; "u"]%char ++ chars number) ++ nums ++ tail).
  rewrite word_stop; [|by apply Forall_app_2; [decide_now|]|by exists " "%char; eexists].
  rewrite (bool_decide_eq_false_2 (nums ++ tail = [])) by done. cbn [negb]. unfold nums.
  rewrite extract_printed by done. by destruct t.
Qed.

Lemma shown_cpu_prefix line t : shows_cpu line t -> starts_with "cpu" line = true.
Proof.
  intros (number & _ & pads & tail & _ & _ & E). unfold starts_with.
  rewrite E, chars_app, <- (assoc_L (++)), strip_prefix_app. by apply bool_decide_eq_true_2.
Qed.

Lemma split_colon_app a b : Forall (fun c => c <> ":"%char) a ->
  split_colon (a ++ ":"%char :: b) = Some (a, b).
Proof.
  induction 1 as [|c a Hc _ IH]; cbn [app split_colon]; [done|]. rewrite decide_False by done. by rewrite IH.
Qed.

Lemma iface_name_pad pad n : name_ok n -> iface_name (replicate pad " "%char ++ chars n) = chars n.
Proof.
  intros [Hne Hn]. unfold iface_name.
  assert (drop_spaces (replicate pad " "%char ++ chars n) = chars n) as ->.
  { induction pad as [|pad IH]; cbn [replicate app drop_spaces]; [|done].
    destruct n as [|c n]; [by destruct Hne|]. cbn in Hn |- *. apply Forall_cons in Hn as [(_ & Hc) _].
    destruct c as [[] [] [] [] [] [] [] []]; done. }
  by destruct n.
Qed.

Definition counts (i : iface) : Prop := if_name i <> "lo".

#[export] Instance counts_dec i : Decision (counts i).
Proof. unfold counts. apply _. Defined.

Lemma net_line_shown u total line i : iface_ok i -> shows_iface line i ->
  net_line u total line =
  if decide (counts i) then mkNet (rx_bytes total +! if_rx i) (tx_bytes total +! if_tx i) else total.
Proof.
  intros (Hn & Hm & Hf) (pad & pads & tail & Hlen & He & E). unfold net_line. rewrite E, <- !(assoc_L (++)).
  cbn [app]. rewrite (assoc_L (++) (replicate _ _)), split_colon_app.
  - rewrite iface_name_pad by done. destruct (decide (if_name i = "lo")) as [El|El].
    + rewrite decide_True by by rewrite El. by rewrite decide_False by (intros H; by apply H).
    + rewrite decide_False. 2: { intros H. apply El. rewrite <- (unchars_chars (if_name i)), H. done. }
      rewrite decide_True by done. rewrite extract_printed; [|cbn; by rewrite length_app, Hm|done..].
      unfold if_fields. by destruct (if_more i) as [|? [|? [|? [|? [|? [|? [|? []]]]]]]].
  - apply Forall_app_2; [by apply Forall_replicate|]. destruct Hn as [_ Hn].
    eapply List.Forall_impl; [|exact Hn]. by intros c (? & _).
Qed.

(** The sum over the interfaces but the loopback. *)
Definition rx_sum (ifs : list iface) : Z := sumZ if_rx (filter counts ifs).
Definition tx_sum (ifs : list iface) : Z := sumZ if_tx (filter counts ifs).

Lemma net_lines_shown u j total lines ifs : Forall2 shows_iface lines ifs -> Forall iface_ok ifs ->
  is_u64 (rx_bytes total) -> is_u64 (tx_bytes total) ->
  net_lines u j total lines = mkNet (rx_bytes total +! rx_sum ifs) (tx_bytes total +! tx_sum ifs).
Proof.
  intros Hl. revert j total. induction Hl as [|l i ls ifs Hi _ IH]; intros j total His H1 H2.
  - unfold rx_sum, tx_sum. cbn. rewrite !Z.add_0_r, !u64_small by done. by destruct total.
  - apply Forall_cons in His as [Hok His]. cbn [net_lines]. rewrite (net_line_shown _ _ _ i) by done.
    unfold rx_sum, tx_sum. rewrite filter_cons. case_decide.
    + cbn [sumZ]. rewrite IH by (done || apply u64_range). cbn [rx_bytes tx_bytes]. rewrite !u64_add_l.
      by rewrite !Z.add_assoc.
    + by apply IH.
Qed.

(** * The files of a kernel state *)

Lemma read_total k lines : kernel_ok k -> shows_stat lines k ->
  exists line rest, lines = line :: rest /\ parse_cpu_line line = k_cpu k.
Proof.
  intros Hk (total & cores & others & -> & Ht & _). exists total, (cores ++ others).
  split; [done|]. apply parse_shown_cpu; [done|apply Hk].
Qed.

Lemma read_core k lines i : kernel_ok k -> shows_stat lines k -> core_line lines i = k_cores k !! i.
Proof.
  intros Hk (total & cores & others & -> & _ & Hc & Ho). unfold core_line. change ((_ :: ?l) !! S i) with (l !! i).
  destruct (k_cores k !! i) as [t|] eqn:E.
  - destruct (Forall2_lookup_r _ _ _ _ _ Hc E) as (l & El & Hl).
    rewrite (lookup_app_l_Some _ _ _ _ El). cbn [mbind option_bind]. rewrite (shown_cpu_prefix _ t) by done.
    f_equal. apply parse_shown_cpu; [done|]. eapply Forall_lookup_1; [apply Hk|done].
  - apply lookup_ge_None in E. rewrite <- (Forall2_length _ _ _ Hc) in E. rewrite lookup_app_r by done.
    destruct (others !! _) as [l|] eqn:El; [|done]. cbn [mbind option_bind]. by rewrite (Forall_lookup_1 _ _ _ _ Ho El).
Qed.

(** A line with one of the two labels sets its figure, another leaves it. *)
Lemma figure_line label kb l x : 0 <= kb < 2 ^ 64 -> (starts_with label l = true -> prints (chars label) [kb] l) ->
  match strip_prefix (chars label) (chars l) with
  | Some r => starts_with label l = true /\ fst (extract_u64 x (mkStream r true)) = kb
  | None => starts_with label l = false
  end.
Proof.
  intros Hkb Hp. unfold starts_with in *. destruct (strip_prefix (chars label) (chars l)) as [r|] eqn:E; [|done].
  split; [done|]. destruct Hp as (pads & tail & Hlen & He & El); [done|]. rewrite El, strip_prefix_app in E.
  injection E as <-. destruct pads as [|pad [|]]; try done. unfold spaced. cbn [zip zip_with fmap list_fmap mjoin list_join].
  rewrite app_nil_r, <- (assoc_L (++)). by rewrite extract_pretty.
Qed.

Lemma labels_differ l : starts_with "MemTotal:" l = true -> starts_with "MemAvailable:" l = true -> False.
Proof.
  unfold starts_with. intros H1 H2. apply bool_decide_eq_true in H1, H2. revert H1 H2.
  destruct (chars l) as [|c1 [|c2 [|c3 [|c4 r]]]]; cbn; repeat case_match; try done; try (by intros [? [=]]).
  all: subst; try done; try (by intros _ [? [=]]).
Qed.

(** The figures found so far. *)
Definition partly_read (k : kernel) (lines : list string) (m : MemInfo) : Prop :=
  (Exists (fun l => starts_with "MemTotal:" l = true) lines -> total_kb m = k_total_kb k) /\
  (Exists (fun l => starts_with "MemAvailable:" l = true) lines -> available_kb m = k_available_kb k).

Lemma meminfo_line_reads k lines l m :
  0 <= k_total_kb k < 2 ^ 64 -> 0 <= k_available_kb k < 2 ^ 64 -> partly_read k lines m ->
  (starts_with "MemTotal:" l = true -> prints (chars "MemTotal:") [k_total_kb k] l) ->
  (starts_with "MemAvailable:" l = true -> prints (chars "MemAvailable:") [k_available_kb k] l) ->
  partly_read k (lines ++ [l]) (meminfo_line m l).
Proof.
  intros H1 H2 (P1 & P2) L1 L2.
  pose proof (figure_line _ _ l (total_kb m) H1 L1) as F1. pose proof (figure_line _ _ l (available_kb m) H2 L2) as F2.
  unfold meminfo_line, partly_read. rewrite !Exists_app, !Exists_cons, !Exists_nil.
  destruct (strip_prefix (chars "MemTotal:") (chars l)) as [r|].
  - destruct F1 as [F1 E1]. cbn [total_kb available_kb]. split; [done|].
    intros [?|[?|[]]]; [by apply P2|]. by destruct (labels_differ l).
  - destruct (strip_prefix (chars "MemAvailable:") (chars l)) as [r|]; cbn [total_kb available_kb];
      [destruct F2 as [F2 E2]|]; (split; [intros [?|[?|[]]]; [by apply P1|congruence]|]); [done|].
    intros [?|[?|[]]]; [by apply P2|congruence].
Qed.

Lemma read_mem k text : kernel_ok k -> shows_meminfo (file_lines text) k ->
  parse_meminfo text = mkMem (k_total_kb k) (k_available_kb k).
Proof.
  intros Hk [[T1 T2] [A1 A2]]. destruct (ko_mem _ Hk) as [Ha Ht]. unfold parse_meminfo.
  assert (partly_read k (file_lines text) (foldl meminfo_line (mkMem 0 0) (file_lines text))) as [P1 P2].
  { clear T1 A1. induction (file_lines text) as [|l ls IH] using rev_ind.
    - split; by intros ?%Exists_nil.
    - rewrite foldl_app. cbn [foldl]. rewrite !Forall_app, !Forall_singleton in T2, A2.
      apply meminfo_line_reads; [lia|lia|apply IH; tauto|tauto|tauto]. }
  destruct (foldl _ _ _). by rewrite <- (P1 T1), <- (P2 A1).
Qed.

Lemma read_net u k text : kernel_ok k -> shows_net_dev (file_lines text) k ->
  parse_net_dev u text = mkNet (u64 (rx_sum (k_ifaces k))) (u64 (tx_sum (k_ifaces k))).
Proof.
  intros Hk (h1 & h2 & ls & E & Hi). unfold parse_net_dev. rewrite E. cbn [drop].
  rewrite (net_lines_shown _ _ _ _ (k_ifaces k)); [done|done|apply Hk|by split..].
Qed.

(** * A sample after [start] *)

(** The ticks each counter went up by, across a wrap-around too. *)
Definition ticks (t t' : CpuTimes) : CpuTimes :=
  mkCpu (user t' -! user t) (nice t' -! nice t) (system t' -! system t) (idle t' -! idle t)
    (iowait t' -! iowait t) (irq t' -! irq t) (softirq t' -! softirq t) (steal t' -! steal t).

Definition all_ticks (t : CpuTimes) : Z := sumZ id (cpu_fields t).
(** Waiting for input and output counts as idle. *)
Definition busy_ticks (t : CpuTimes) : Z :=
  sumZ id [user t; nice t; system t; irq t; softirq t; steal t].

(** The busy share in percent, in [float] arithmetic. *)
Definition percent_of (d : CpuTimes) : float32 :=
  if all_ticks d =? 0 then f32_zero
  else f32_div (f32_mul f32_100 (f32_of_Z (busy_ticks d))) (f32_of_Z (all_ticks d)).

Lemma ticks_nonneg t t' : Forall is_u64 (cpu_fields (ticks t t')).
Proof. unfold cpu_fields, ticks. cbn. repeat (apply Forall_cons_2; [apply u64_range|]). constructor. Qed.

Lemma cpu_percent_ticks t t' : all_ticks (ticks t t') < 2 ^ 64 ->
  compute_cpu_percent t t' = percent_of (ticks t t').
Proof.
  intros Hlt. unfold compute_cpu_percent, percent_of.
  pose proof (ticks_nonneg t t') as Hn. unfold cpu_fields in Hn. rewrite !Forall_cons in Hn.
  assert (is_u64 (all_ticks (ticks t t')) /\ is_u64 (busy_ticks (ticks t t'))) as [H1 H2].
  { unfold is_u64, all_ticks, busy_ticks, cpu_fields in *. cbn [sumZ id] in *. unfold id in *. lia. }
  assert (cpu_total t' -! cpu_total t = all_ticks (ticks t t')) as ->.
  { rewrite <- (u64_small _ H1). unfold all_ticks. change (sumZ id (cpu_fields (ticks t t'))) with
      (sumZ u64 [user t' - user t; nice t' - nice t; system t' - system t; idle t' - idle t;
                 iowait t' - iowait t; irq t' - irq t; softirq t' - softirq t; steal t' - steal t]).
    rewrite u64_sum. unfold cpu_total. flatten_u64. f_equal. cbn [sumZ]. unfold id. lia. }
  assert (cpu_active t' -! cpu_active t = busy_ticks (ticks t t')) as ->; [|done].
  rewrite <- (u64_small _ H2). unfold busy_ticks. cbn [user nice system irq softirq steal ticks].
  change (sumZ id ?l) with (sumZ u64 [user t' - user t; nice t' - nice t; system t' - system t;
    irq t' - irq t; softirq t' - softirq t; steal t' - steal t]).
  rewrite u64_sum. unfold cpu_active. flatten_u64. f_equal. cbn [sumZ]. unfold id. lia.
Qed.

Lemma stol_pretty z : is_i64 z -> stol (pretty z) = Some z.
Proof.
  unfold is_i64. intros Hz. unfold stol. destruct (decide (0 <= z)) as [Hp|Hp].
  - destruct (pretty_head z Hp) as (c & r & E & Hc). pose proof (digits_pretty z [] Hp I) as Hd.
    rewrite app_nil_r in Hd. rewrite E in Hd |- *. cbn [skip_space]. rewrite (proj1 (digit_plain c Hc)).
    rewrite (proj2 (digit_plain c Hc)), Hd. by rewrite (proj2 (Z.leb_le _ _)), (proj2 (Z.ltb_lt _ _)) by lia.
  - destruct z as [|p|p]; try lia. change (pretty (Z.neg p)) with ("-" +:+ pretty (Z.pos p)).
    rewrite chars_app. cbn [String.list_ascii_of_string app skip_space]. change (is_space "-") with false.
    cbn [sign]. pose proof (digits_pretty (Z.pos p) [] ltac:(lia) I) as Hd. rewrite app_nil_r in Hd. rewrite Hd.
    change (- Z.pos p) with (Z.neg p). by rewrite (proj2 (Z.leb_le _ _)), (proj2 (Z.ltb_lt _ _)) by lia.
Qed.

Lemma read_zone text z : is_i64 z -> read_file_line text = pretty z ->
  read_temperature text = f32_div (f32_of_Z z) (f32_of_Z 1000).
Proof.
  intros Hz E. unfold read_temperature. rewrite E, stol_pretty by done.
  rewrite decide_False; [done|]. intros E'. pose proof (stol_pretty z Hz) as H. by rewrite E' in H.
Qed.

(** The four iterations of the per-core loops. *)
Lemma sample_cores lines prev : length prev = 4%nat ->
  foldl (sample_core lines) (replicate 4 f32_zero, prev) (seq 0 4) =
  ((fun i => match core_line lines i with Some t => compute_cpu_percent (prev !!! i) t | None => f32_zero end) <$> seq 0 4,
   (fun i => default (prev !!! i) (core_line lines i)) <$> seq 0 4).
Proof.
  destruct prev as [|a [|b [|c [|d [|]]]]]; try done. intros _. cbn [seq foldl fmap list_fmap]. unfold sample_core.
  destruct (core_line lines 0), (core_line lines 1), (core_line lines 2), (core_line lines 3); reflexivity.
Qed.

Lemma start_cores lines :
  foldl (start_core lines) (replicate 4 no_cpu) (seq 0 4) =
  (fun i => default no_cpu (core_line lines i)) <$> seq 0 4.
Proof.
  cbn [seq foldl fmap list_fmap]. unfold start_core.
  destruct (core_line lines 0), (core_line lines 1), (core_line lines 2), (core_line lines 3); reflexivity.
Qed.

(** The seconds between samples, as the code computes them. *)
Definition interval_sec (m : LinuxMonitor) : float32 := f32_div (f32_of_Z (lm_interval_ms m)) (f32_of_Z 1000).

(** The monitor remembers the counters of a kernel state. *)
Record primed (m : LinuxMonitor) (k : kernel) : Prop := {
  pr_cpu : prev_cpu_times_ m = k_cpu k;
  pr_length : length (prev_per_core_times_ m) = 4%nat;
  pr_cores : forall i t, (i < 4)%nat -> k_cores k !! i = Some t -> prev_per_core_times_ m !! i = Some t;
  pr_net : prev_net_ m = mkNet (u64 (rx_sum (k_ifaces k))) (u64 (tx_sum (k_ifaces k)))
}.

(** The cores [start] and a sample leave behind. *)
Lemma cores_kept (k : kernel) (old : nat -> CpuTimes) (found : nat -> option CpuTimes) i t :
  (forall i, found i = k_cores k !! i) -> (i < 4)%nat -> k_cores k !! i = Some t ->
  ((fun i => default (old i) (found i)) <$> seq 0 4) !! i = Some t.
Proof.
  intros Hf Hi Ht. rewrite list_lookup_fmap, lookup_seq_lt by done. cbn. by rewrite Hf, Ht.
Qed.

Lemma start_primes e m k : shows (sa_files e) k -> primed (start e m) k.
Proof.
  intros []. destruct (read_total k _ sh_ok0 sh_stat0) as (line & r & E & El).
  unfold start. rewrite (read_net _ k) by done.
  split; cbn [prev_cpu_times_ prev_per_core_times_ prev_net_]; [by rewrite E|..|done]; rewrite E, <- E, start_cores;
    [done|].
  intros i t. apply (cores_kept k (fun _ => no_cpu)). intros j. by apply read_core.
Qed.

(** What a sample makes of the counters kept and of a kernel state. *)
Lemma sample_shown e m k : shows (sa_files e) k -> length (prev_per_core_times_ m) = 4%nat ->
  let rate undef curr prev :=
    if f32_gtb (interval_sec m) f32_zero
    then f32_to_u64 undef (f32_div (f32_of_Z (curr -! prev)) (interval_sec m)) else 0 in
  (sample_once e m).1 = mkSnapshot (lm_node_id m) (sa_now e) (compute_cpu_percent (prev_cpu_times_ m) (k_cpu k))
    ((fun i => match k_cores k !! i with
               | Some t => compute_cpu_percent (prev_per_core_times_ m !!! i) t | None => f32_zero end) <$> seq 0 4)
    (k_available_kb k * 1024) (k_total_kb k * 1024)
    (f32_div (f32_of_Z (k_zone0 k)) (f32_of_Z 1000)) (f32_div (f32_of_Z (k_zone1 k)) (f32_of_Z 1000))
    (rate (fst (sa_undef e)) (u64 (rx_sum (k_ifaces k))) (rx_bytes (prev_net_ m)))
    (rate (snd (sa_undef e)) (u64 (tx_sum (k_ifaces k))) (tx_bytes (prev_net_ m)))
    (read_rpi_throttled (f_throttled (sa_files e))) /\
  primed (sample_once e m).2 k.
Proof.
  intros [] Hlen rate. destruct (read_total k _ sh_ok0 sh_stat0) as (line & r & E & El).
  unfold sample_once. rewrite (read_mem k), (read_net _ k) by done.
  rewrite (read_zone _ (k_zone0 k)), (read_zone _ (k_zone1 k)) by (done || apply sh_ok0).
  rewrite E, <- E, sample_cores by done. cbn [fst snd]. rewrite El.
  destruct (ko_mem _ sh_ok0). rewrite !(u64_small (_ * 1024)) by (cbn [total_kb available_kb]; unfold is_u64; lia).
  cbn [total_kb available_kb rx_bytes tx_bytes]. split.
  - f_equal. apply list_fmap_ext. intros _ i _. by rewrite (read_core k).
  - split; cbn [prev_cpu_times_ prev_per_core_times_ prev_net_]; [done|done| |done].
    intros i t. apply (cores_kept k (fun i => prev_per_core_times_ m !!! i)). intros j. by apply read_core.
Qed.

(** The rounds of the sampling thread, one after the other. *)
Definition sampled (es : list sample_env) (m : LinuxMonitor) : LinuxMonitor :=
  foldl (fun m e => (sampling_round e m).2) m es.

(** After the samples the counters are those of the last one. *)
Lemma sampled_primed es ks m k0 k : primed m k0 -> Forall2 (fun e k => shows (sa_files e) k) es ks ->
  last (k0 :: ks) = Some k ->
  primed (sampled es m) k /\ lm_node_id (sampled es m) = lm_node_id m /\ lm_interval_ms (sampled es m) = lm_interval_ms m.
Proof.
  intros Hp Hs. revert m k0 Hp. induction Hs as [|e k1 es ks He _ IH]; intros m k0 Hp Hl.
  - by injection Hl as <-.
  - change (sampled (e :: es) m) with (sampled es (sampling_round e m).2).
    apply (IH (sampling_round e m).2 k1) in Hl.
    + destruct Hl as (H1 & -> & ->). split; [done|]. unfold sampling_round, sample_once. by repeat case_match; simplify_eq.
    + destruct (sample_shown e m k1 He (pr_length _ _ Hp)) as [_ []]. unfold sampling_round.
      destruct (sample_once e m). by split.
Qed.

(** C39: every sample reports the kernel's figures.  Let the files show a kernel state at
    [start] and one at each of any number of samples.  The snapshot read after the next
    sample is about this node; its CPU figures are the busy share of the ticks since the
    sample before it (since [start], for the first), in total and per core -- also when a
    counter wrapped around in between; its memory figures are those of [meminfo] in bytes,
    its temperatures the printed millidegrees over 1000, and its rates the bytes that every
    interface but the loopback moved since the sample before it, over the configured
    interval.  Counters of both samples fit 64 bits and the memory figures [2^54] kB; the
    per-core figure is for a core listed at both; the rate is for a positive interval and
    byte totals that did not go down. *)
Theorem sample_reports_kernel_state m e0 k0 es ks e k k' :
  shows (sa_files e0) k0 -> Forall2 (fun e k => shows (sa_files e) k) es ks -> last (k0 :: ks) = Some k ->
  shows (sa_files e) k' -> all_ticks (ticks (k_cpu k) (k_cpu k')) < 2 ^ 64 ->
  exists s, read (sampled (es ++ [e]) (start e0 m)) = Ok s /\
    snap_node_id s = lm_node_id m /\ timestamp s = sa_now e /\
    cpu_usage_percent s = percent_of (ticks (k_cpu k) (k_cpu k')) /\
    (forall i t t', (i < 4)%nat -> k_cores k !! i = Some t -> k_cores k' !! i = Some t' ->
       all_ticks (ticks t t') < 2 ^ 64 -> per_core_cpu_percent s !! i = Some (percent_of (ticks t t'))) /\
    memory_total_bytes s = k_total_kb k' * 1024 /\ memory_available_bytes s = k_available_kb k' * 1024 /\
    cpu_temperature_celsius s = f32_div (f32_of_Z (k_zone0 k')) (f32_of_Z 1000) /\
    gpu_temperature_celsius s = f32_div (f32_of_Z (k_zone1 k')) (f32_of_Z 1000) /\
    (f32_gtb (interval_sec m) f32_zero = true ->
       is_u64 (rx_sum (k_ifaces k') - rx_sum (k_ifaces k)) -> is_u64 (tx_sum (k_ifaces k') - tx_sum (k_ifaces k)) ->
       network_rx_bytes_sec s = f32_to_u64 (fst (sa_undef e))
         (f32_div (f32_of_Z (rx_sum (k_ifaces k') - rx_sum (k_ifaces k))) (interval_sec m)) /\
       network_tx_bytes_sec s = f32_to_u64 (snd (sa_undef e))
         (f32_div (f32_of_Z (tx_sum (k_ifaces k') - tx_sum (k_ifaces k))) (interval_sec m))).
Proof.
  intros S0 Ss Hl S' Hlt.
  destruct (sampled_primed es ks (start e0 m) k0 k (start_primes e0 m k0 S0) Ss Hl) as ([P1 P2 P3 P4] & Hid & Hiv).
  assert (sampled (es ++ [e]) (start e0 m) = (sampling_round e (sampled es (start e0 m))).2) as ->
    by (unfold sampled; by rewrite foldl_app).
  revert P1 P2 P3 P4 Hid Hiv. generalize (sampled es (start e0 m)). intros m0 P1 P2 P3 P4 Hid Hiv.
  destruct (sample_shown e m0 k' S' P2) as [Hs _]. cbv zeta in Hs. unfold sampling_round.
  destruct (sample_once e m0) as [s m1]. cbn [fst] in Hs. subst s. eexists. split; [reflexivity|].
  unfold interval_sec in *. change (lm_interval_ms (start e0 m)) with (lm_interval_ms m) in Hiv. rewrite Hid, Hiv, P1, P4.
  cbn [snap_node_id timestamp cpu_usage_percent per_core_cpu_percent memory_available_bytes memory_total_bytes
       cpu_temperature_celsius gpu_temperature_celsius network_rx_bytes_sec network_tx_bytes_sec
       rx_bytes tx_bytes].
  split_and!; try done.
  - by apply cpu_percent_ticks.
  - intros i t t' Hi H0 H1 Ht. rewrite <- cpu_percent_ticks by done. specialize (P3 i t Hi H0).
    apply list_lookup_total_correct in P3 as <-.
    rewrite list_lookup_fmap, lookup_seq_lt by done. cbn [fmap option_fmap option_map].
    change (0 + i)%nat with i. by rewrite H1.
  - intros -> Hrx Htx. by rewrite !u64_sub_l, !u64_sub_r, !u64_small.
Qed.

(** * The contract *)

Definition linux_ok (id : NodeId) (m : LinuxMonitor) : Prop :=
  lm_node_id m = id /\ length (prev_per_core_times_ m) = 4%nat /\ forall s, latest_ m = Some s -> snapshot_ok id s.

(** The calls on a [LinuxMonitor], and the rounds of its sampling thread. *)
Inductive linux_step : LinuxMonitor -> LinuxMonitor -> Prop :=
  | ls_start e m : linux_step m (start e m)
  | ls_stop m : linux_step m (stop m)
  | ls_round e m : is_u64 (fst (sa_undef e)) -> is_u64 (snd (sa_undef e)) -> linux_step m (sampling_round e m).2
  | ls_on_cpu percent cb m : linux_step m (on_cpu_threshold percent cb m)
  | ls_on_memory percent cb m : linux_step m (on_memory_threshold percent cb m).

Lemma f32_to_u64_range undef x : is_u64 undef -> is_u64 (f32_to_u64 undef x).
Proof.
  intros Hu. unfold f32_to_u64. destruct (f32_trunc x) as [z|]; [|done].
  destruct ((0 <=? z) && (z <? 2 ^ 64)) eqn:E; [|done].
  apply andb_true_iff in E as [?%Z.leb_le ?%Z.ltb_lt]. by split.
Qed.

Lemma sample_once_ok e m : length (prev_per_core_times_ m) = 4%nat ->
  is_u64 (fst (sa_undef e)) -> is_u64 (snd (sa_undef e)) ->
  snapshot_ok (lm_node_id m) (sample_once e m).1 /\
  lm_node_id (sample_once e m).2 = lm_node_id m /\ length (prev_per_core_times_ (sample_once e m).2) = 4%nat.
Proof.
  intros Hlen U1 U2. unfold sample_once. set (lines := file_lines _). rewrite sample_cores by done.
  assert (is_u64 0) by (split; lia).
  destruct lines as [|l ls]; cbn [fst snd snap_node_id lm_node_id prev_per_core_times_];
    (split_and!; [|done|by rewrite ?length_fmap]); unfold snapshot_ok;
    cbn [snap_node_id per_core_cpu_percent memory_available_bytes memory_total_bytes network_rx_bytes_sec
         network_tx_bytes_sec]; split_and!; try done; try apply u64_range; case_match; auto using f32_to_u64_range.
Qed.

Lemma linux_step_ok id m m' : linux_ok id m -> linux_step m m' -> linux_ok id m'.
Proof.
  intros Hok Hs. revert Hok. destruct Hs as [e m|m|e m U1 U2|percent cb m|percent cb m]; try done.
  - intros (Hid & _ & Hl). split_and!; [done| |done]. unfold start. cbn [prev_per_core_times_].
    destruct (file_lines _); [done|]. by rewrite start_cores.
  - intros (<- & Hlen & _). destruct (sample_once_ok e m Hlen U1 U2) as (H1 & H2 & H3).
    unfold sampling_round. destruct (sample_once e m) as [s m1]. cbn [fst snd] in *.
    unfold linux_ok. cbn. split_and!; [done|done|]. by intros s' [= <-].
Qed.

Lemma linux_read_ok id m s : linux_ok id m -> read m = Ok s ->
  snapshot_ok id s /\ cpu_usage m = cpu_usage_percent s /\ memory_available m = memory_available_bytes s /\
  throttled_now m = is_throttled s.
Proof.
  intros (_ & _ & Hl). unfold read, cpu_usage, memory_available, throttled_now.
  destruct (latest_ m) as [s0|]; [|done]. intros [= <-]. split_and!; try done. by apply Hl.
Qed.

#[export] Instance LinuxMonitorLaws : ResourceMonitorLaws LinuxMonitor.
Proof.
  refine {| monitor_ok := linux_ok |}. intros id now m Hok. cbn. split; [done|].
  intros s. by apply linux_read_ok.
Defined.

Definition mock_ok (id : NodeId) (m : Mock.MockMonitor) : Prop :=
  Mock.mm_node_id m = id /\ snapshot_ok id (Mock.static_snapshot_ m) /\ Forall (snapshot_ok id) (Mock.sequence_ m).

(** A snapshot of the C++ type, whatever its node. *)
Definition typed (s : ResourceSnapshot) : Prop := snapshot_ok (snap_node_id s) s.

Inductive mock_step : Mock.MockMonitor -> Mock.MockMonitor -> Prop :=
  | ms_read now m : mock_step m (Mock.read now m).2
  | ms_push s m : typed s -> mock_step m (Mock.push_snapshot s m)
  | ms_static s m : typed s -> mock_step m (Mock.set_static_snapshot s m)
  | ms_cpu percent m : mock_step m (Mock.set_cpu percent m)
  | ms_memory available total m : is_u64 available -> is_u64 total -> mock_step m (Mock.set_memory available total m)
  | ms_throttled b m : mock_step m (Mock.set_throttled b m).

Lemma mock_read_ok id now m : mock_ok id m ->
  mock_ok id (Mock.read now m).2 /\ forall s, (Mock.read now m).1 = Ok s -> snapshot_ok id s /\
    Mock.cpu_usage (Mock.read now m).2 = cpu_usage_percent s /\
    Mock.memory_available (Mock.read now m).2 = memory_available_bytes s /\
    Mock.throttled_now (Mock.read now m).2 = is_throttled s.
Proof.
  intros (Hid & Hs & Hq). unfold Mock.read, Mock.cpu_usage, Mock.memory_available, Mock.throttled_now, Mock.current.
  destruct (Mock.use_static_ m) eqn:Eu.
  - cbn. rewrite Eu. split; [by split_and!|]. intros s [= <-]. by split_and!.
  - destruct (Mock.sequence_ m !! Mock.index_ m) as [s|] eqn:E; cbn; [|done]. rewrite E.
    split; [by split_and!|]. intros s' [= <-]. split_and!; try done. exact (Forall_lookup_1 _ _ _ _ Hq E).
Qed.

Lemma mock_step_ok id m m' : mock_ok id m -> mock_step m m' -> mock_ok id m'.
Proof.
  intros Hok Hs. revert Hok. destruct Hs as [now m|s m Ht|s m Ht|percent m|a t m Ha Ht|b m]; intros Hok;
    [by apply mock_read_ok|..]; destruct Hok as (<- & (Hn & Hs) & Hq); unfold mock_ok; cbn.
  - split_and!; [done|done|]. apply Forall_app_2; [done|]. constructor; [|done]. split; [done|]. apply Ht.
  - split_and!; [done| |done]. split; [done|]. apply Ht.
  - split_and!; [done| |done]. split; [done|]. by destruct Hs as (_ & ?).
  - split_and!; [done| |done]. split; [done|]. by destruct Hs as (? & _ & _ & ?).
  - done.
Qed.

#[export] Instance MockMonitorLaws : ResourceMonitorLaws Mock.MockMonitor.
Proof.
  refine {| monitor_ok := mock_ok |}. intros id now m Hok. cbn [monitor_read MockMonitorLike].
  pose proof (mock_read_ok id now m Hok) as H. by destruct (Mock.read now m).
Defined.

(** C40: Both monitors keep the contract of [ResourceMonitorLike].  After any sequence of
    calls -- for the Linux monitor with any file contents at each sample -- a snapshot read
    carries the node's id, four core values and counters of their 64-bit types, and the
    accessors agree with it. *)
Theorem monitors_keep_contract id interval m n now :
  rtc linux_step (new_linux_monitor id interval) m -> rtc mock_step (Mock.new_mock id) n ->
  (forall s, read m = Ok s -> snapshot_ok id s /\ cpu_usage m = cpu_usage_percent s /\
     memory_available m = memory_available_bytes s /\ throttled_now m = is_throttled s) /\
  (forall s n', Mock.read now n = (Ok s, n') -> snapshot_ok id s /\ Mock.cpu_usage n' = cpu_usage_percent s /\
     Mock.memory_available n' = memory_available_bytes s /\ Mock.throttled_now n' = is_throttled s).
Proof.
  intros Hm Hn. split.
  - assert (linux_ok id m) as Hok.
    { eapply (rtc_preserve (linux_ok id)); [apply linux_step_ok|done|]. by split_and!. }
    intros s. by apply linux_read_ok.
  - assert (mock_ok id n) as Hok.
    { eapply (rtc_preserve (mock_ok id)); [apply mock_step_ok|done|]. by split_and!. }
    intros s n' E. pose proof (mock_read_ok id now n Hok) as [_ H]. rewrite E in H. by apply H.
Qed.

(** * Concrete runs *)

(** The files of a machine with two cores and two interfaces, as Linux prints them. *)
Definition net_header : list string :=
  ["Inter-|   Receive                                                |  Transmit";
   " face |bytes    packets errs drop fifo frame compressed multicast|bytes    packets errs drop fifo colls carrier compressed"].

Definition files_of (cpu cpu0 cpu1 available lo eth0 wlan0 zone0 zone1 : string) : proc_files :=
  mkFiles
    (text_of ["cpu  " +:+ cpu; "cpu0 " +:+ cpu0; "cpu1 " +:+ cpu1; "intr 12345 0 9"; "ctxt 678"; "btime 1700000000"])
    (text_of ["MemTotal:        3884368 kB"; "MemFree:          312404 kB"; "MemAvailable:    " +:+ available +:+ " kB";
              "Buffers:           10240 kB"; "HugePages_Total:       0"])
    (text_of (net_header ++ ["    lo: " +:+ lo; "  eth0: " +:+ eth0; " wlan0: " +:+ wlan0]))
    (text_of [zone0]) (text_of [zone1]) "0x50005".

Definition idle_counters : string := "       0    0    0    0     0          0         0        0       0    0    0    0     0       0          0".

(** Three readings; between the second and the third a total counter wraps around. *)
Definition files0 : proc_files :=
  files_of "18446744073709551506 0 40 700 10 1 2 0 5 0" "50 0 10 300 5 0 1 0 3 0" "30 0 20 300 5 1 1 0 2 0" "2890000"
    (" 4000" +:+ idle_counters) "   1000      9    0    0    0     0          0         3     2000      12    0    0    0     0       0          0"
    "     10       1    0    0    0     0          0         0       20       2    0    0    0     0       0          0" "48312" "-5".
Definition files1 : proc_files :=
  files_of "18446744073709551606 0 50 800 20 1 2 0 6 0" "60 0 20 400 10 0 1 0 3 0" "40 0 30 400 10 1 1 0 3 0" "2884368"
    (" 5000" +:+ idle_counters) "  31000     29    0    1    0     0          0         3     2200      14    0    0    0     0       0          0"
    "     10       1    0    0    0     0          0         0       20       2    0    0    0     0       0          0" "48800" "-5".
Definition files2 : proc_files :=
  files_of "15 0 60 860 25 1 2 0 6 0" "75 0 25 430 12 0 1 0 3 0" "50 0 35 430 13 1 1 0 3 0" "2800000"
    (" 9000" +:+ idle_counters) "  81000     60    0    1    0     0          0         4     2700      19    0    0    0     0       0          0"
    "     10       1    0    0    0     0          0         0       20       2    0    0    0     0       0          0" "49000" "0".

Definition wlan : iface := mkIface "wlan0" 10 [1; 0; 0; 0; 0; 0; 0] 20.
Definition lo (n : Z) : iface := mkIface "lo" n (replicate 7 0) 0.
Definition kernel0 : kernel :=
  mkKernel (mkCpu (2 ^ 64 - 110) 0 40 700 10 1 2 0) [mkCpu 50 0 10 300 5 0 1 0; mkCpu 30 0 20 300 5 1 1 0] 3884368 2890000
    [lo 4000; mkIface "eth0" 1000 [9; 0; 0; 0; 0; 0; 3] 2000; wlan] 48312 (-5).
Definition kernel1 : kernel :=
  mkKernel (mkCpu (2 ^ 64 - 10) 0 50 800 20 1 2 0) [mkCpu 60 0 20 400 10 0 1 0; mkCpu 40 0 30 400 10 1 1 0] 3884368 2884368
    [lo 5000; mkIface "eth0" 31000 [29; 0; 1; 0; 0; 0; 3] 2200; wlan] 48800 (-5).
Definition kernel2 : kernel :=
  mkKernel (mkCpu 15 0 60 860 25 1 2 0) [mkCpu 75 0 25 430 12 0 1 0; mkCpu 50 0 35 430 13 1 1 0] 3884368 2800000
    [lo 9000; mkIface "eth0" 81000 [60; 0; 1; 0; 0; 0; 4] 2700; wlan] 49000 0.

(** Finding the padding of a line. *)
Fixpoint spaces (l : list ascii) : nat * list ascii :=
  match l with
  | " "%char :: l' => let '(n, r) := spaces l' in (S n, r)
  | _ => (0%nat, l)
  end.

Lemma spaces_spec l : l = replicate (spaces l).1 " "%char ++ (spaces l).2.
Proof.
  induction l as [|c l IH]; [done|]. destruct (decide (c = " "%char)) as [->|Hc].
  - cbn [spaces]. destruct (spaces l). cbn [fst snd replicate app] in *. by f_equal.
  - by destruct c as [[] [] [] [] [] [] [] []].
Qed.

Fixpoint paddings (ns : list Z) (l : list ascii) : option (list nat * list ascii) :=
  match ns with
  | [] => Some ([], l)
  | n :: ns' =>
      '(pad, r) ← match spaces l with (S pad, r) => Some (pad, r) | _ => None end;
      r ← strip_prefix (chars (pretty n)) r;
      '(pads, r) ← paddings ns' r;
      Some (pad :: pads, r)
  end.

Lemma paddings_spec ns l pads r : paddings ns l = Some (pads, r) ->
  length pads = length ns /\ l = spaced (zip pads ns) ++ r.
Proof.
  revert l pads r. induction ns as [|n ns IH]; intros l pads r; cbn [paddings]; [by intros [= <- <-]|].
  pose proof (spaces_spec l) as Hl. destruct (spaces l) as [[|pad] l1]; [done|]. cbn [mbind option_bind fst snd] in *.
  destruct (strip_prefix _ l1) as [l2|] eqn:E2; [|done]. cbn [mbind option_bind].
  destruct (paddings ns l2) as [[pads' r']|] eqn:E; [|done]. intros [= <- <-].
  destruct (IH _ _ _ E) as [H1 ->]. apply strip_prefix_Some in E2 as ->. cbn [length]. split; [by rewrite H1|].
  rewrite Hl. cbn [zip zip_with]. unfold spaced at 2. cbn [fmap list_fmap mjoin list_join]. by rewrite <- !(assoc_L (++)).
Qed.

Definition prints_now (prefix : list ascii) (ns : list Z) (line : string) : bool :=
  match l ← strip_prefix prefix (chars line); paddings ns l with
  | Some (_, c :: _) => bool_decide (digit_in 10 c = None)
  | Some (_, []) => true
  | None => false
  end.

Lemma prints_now_prints prefix ns line : prints_now prefix ns line = true -> prints prefix ns line.
Proof.
  unfold prints_now. destruct (strip_prefix prefix (chars line)) as [l|] eqn:E; [|done].
  apply strip_prefix_Some in E. cbn [mbind option_bind].
  destruct (paddings ns l) as [[pads r]|] eqn:Ep; [|done]. intros Hr. destruct (paddings_spec _ _ _ _ Ep) as [H1 H2].
  exists pads, r. split_and!; [done| |by rewrite E, H2]. destruct r; [done|]. by apply bool_decide_eq_true in Hr.
Qed.

(** The lines of given files show a kernel state: by computation. *)
Ltac print_now := apply prints_now_prints; vm_compute; reflexivity.
Ltac show_cpu number := exists number; split; [decide_now|print_now].
Ltac show_figure := split; [decide_now|
  repeat (apply Forall_cons_2; [first [intros _; print_now|by intros [=]]|]); by apply Forall_nil_2].
Ltac show_kernel f :=
  split;
  [ split; unfold iface_ok, name_ok, cpu_ok, is_u64, is_i64; decide_now
  | let x := eval vm_compute in (file_lines (f_stat f)) in
    lazymatch x with ?t :: ?c0 :: ?c1 :: ?o => exists t, [c0; c1], o end;
    split; [vm_compute; reflexivity|]; split; [show_cpu ""|];
    split; [repeat apply Forall2_cons_2; [show_cpu "0"|show_cpu "1"|by apply Forall2_nil_2]|decide_now]
  | let x := eval vm_compute in (file_lines (f_meminfo f)) in change (file_lines (f_meminfo f)) with x;
    split; show_figure
  | let x := eval vm_compute in (file_lines (f_net_dev f)) in
    lazymatch x with ?h1 :: ?h2 :: ?o => exists h1, h2, o end; split; [vm_compute; reflexivity|];
    repeat apply Forall2_cons_2; [exists 4%nat; print_now|exists 2%nat; print_now|exists 1%nat; print_now|by apply Forall2_nil_2]
  | vm_compute; reflexivity | vm_compute; reflexivity ].

Lemma files0_show : shows files0 kernel0.
Proof. show_kernel files0. Qed.
Lemma files1_show : shows files1 kernel1.
Proof. show_kernel files1. Qed.
Lemma files2_show : shows files2 kernel2.
Proof. show_kernel files2. Qed.

Definition env_of (now : Z) (f : proc_files) : sample_env := mkSample now f (fun _ => (7, 8)) (9, 10).

Lemma sample_reports_kernel_state_witness :
  exists s, read (sampled [env_of 500 files1; env_of 1000 files2]
      (start (env_of 0 files0) (new_linux_monitor "pi-0" 500))) = Ok s /\
    cpu_usage_percent s = percent_of (mkCpu 25 0 10 60 5 0 0 0) /\
    f32_trunc (cpu_usage_percent s) = Some 35 /\
    memory_available_bytes s = 2867200000 /\ network_rx_bytes_sec s = 100000.
Proof.
  destruct (sample_reports_kernel_state (new_linux_monitor "pi-0" 500) (env_of 0 files0) kernel0
    [env_of 500 files1] [kernel1] (env_of 1000 files2) kernel1 kernel2) as (s & Hr & _ & _ & Hc & _ & _ & Ha & _ & _ & Hn);
    [exact files0_show|constructor; [exact files1_show|constructor]|reflexivity|exact files2_show|vm_compute; reflexivity|].
  exists s. split; [exact Hr|].
  change (ticks (k_cpu kernel1) (k_cpu kernel2)) with (mkCpu 25 0 10 60 5 0 0 0) in Hc.
  split; [exact Hc|]. rewrite Hc. split; [vm_compute; reflexivity|]. split; [exact Ha|].
  destruct Hn as [Hrx _]; [vm_compute; reflexivity|split; vm_compute; congruence..|].
  rewrite Hrx. vm_compute. reflexivity.
Defined.

Lemma monitors_keep_contract_witness :
  snapshot_ok "pi-0" (mkSnapshot "pi-0" 3 (f32_of_Z 80) (replicate 4 (f32_of_Z 80)) (2 * 1024 * 1024 * 1024)
    (4 * 1024 * 1024 * 1024) (f32_of_Z 45) f32_zero 0 0 false) /\
  exists s, read (sampling_round (env_of 5 files1) (new_linux_monitor "pi-0" 500)).2 = Ok s /\ snapshot_ok "pi-0" s.
Proof.
  assert (U : is_u64 9 /\ is_u64 10) by (split; split; vm_compute; congruence).
  destruct (monitors_keep_contract "pi-0" 500 (sampling_round (env_of 5 files1) (new_linux_monitor "pi-0" 500)).2
    (Mock.set_cpu (f32_of_Z 80) (Mock.new_mock "pi-0")) 3) as [H1 H2].
  - apply rtc_once, ls_round; apply U.
  - apply rtc_once, ms_cpu.
  - split; [exact (proj1 (H2 _ _ eq_refl))|].
    eexists. split; [reflexivity|]. apply H1. reflexivity.
Defined.
