(* ===== verification/Main.v ===== *)
(** [app/main.cpp]: the command line, the configuration overrides, the demo, and the status
    report of the daemon's main loop.

    [std::exit] and an exception that escapes [main] are outcomes; the shutdown flag set by
    the signal handler is read once per loop iteration and its answers are inputs. *)

From Stdlib Require Import ZArith Lia Ascii String.
From stdpp Require Import base gmap strings numbers pretty list.
From S2P Require Import Prelude Text Float32 Core Dag Metrics Config MemoryPool TaskRunner Scheduler Greedy Threshold.
From S2P Require Import Optimizer Cluster Telemetry Monitor MonitorTheorems Generator.

Local Open Scope Z_scope.

(** * The command line *)

Record CLIArgs := mkArgs {
  config_path : string;
  arg_node_id : string;
  arg_port : Z;
  arg_log_dir : string;
  demo_mode : bool
}.

Definition default_args : CLIArgs := mkArgs "config/default.toml" "" 0 "" false.

Inductive parsed :=
  | Parsed (args : CLIArgs)
  | HelpShown
  | Threw.              (** [std::stoi] found no number, or one that does not fit *)

(** [std::stoi]. *)
Definition stoi (s : string) : option Z :=
  v ← stol s; if (- 2 ^ 31 <=? v) && (v <? 2 ^ 31) then Some v else None.

Fixpoint parse_from (args : CLIArgs) (argv : list string) : parsed :=
  match argv with
  | [] => Parsed args
  | arg :: rest =>
      if decide (arg = "--config") then
        match rest with
        | v :: rest' =>
            parse_from (mkArgs v (arg_node_id args) (arg_port args) (arg_log_dir args) (demo_mode args)) rest'
        | [] => Parsed args
        end
      else if decide (arg = "--node-id") then
        match rest with
        | v :: rest' =>
            parse_from (mkArgs (config_path args) v (arg_port args) (arg_log_dir args) (demo_mode args)) rest'
        | [] => Parsed args
        end
      else if decide (arg = "--port") then
        match rest with
        | v :: rest' =>
            match stoi v with
            | Some n =>
                parse_from (mkArgs (config_path args) (arg_node_id args) (u16 n) (arg_log_dir args) (demo_mode args)) rest'
            | None => Threw
            end
        | [] => Parsed args
        end
      else if decide (arg = "--log-dir") then
        match rest with
        | v :: rest' =>
            parse_from (mkArgs (config_path args) (arg_node_id args) (arg_port args) v (demo_mode args)) rest'
        | [] => Parsed args
        end
      else if decide (arg = "--demo") then
        parse_from (mkArgs (config_path args) (arg_node_id args) (arg_port args) (arg_log_dir args) true) rest
      else if decide (arg = "--help" \/ arg = "-h") then HelpShown
      else parse_from args rest
  end.

(** [argv] without the program's name. *)
Definition parse_args (argv : list string) : parsed := parse_from default_args argv.

(** * Configuration *)

Definition apply_overrides (args : CLIArgs) (c : Config) : Config :=
  mkConfig
    (mkNodeConfig (if decide (arg_node_id args = "") then cfg_id (cfg_node c) else arg_node_id args)
       (if decide (arg_port args = 0) then cfg_port (cfg_node c) else arg_port args)
       (cfg_discovery_port (cfg_node c)))
    (cfg_monitor c) (cfg_executor c) (cfg_scheduler c) (cfg_network c)
    (mkTelemetryConfig (if decide (arg_log_dir args = "") then log_dir (cfg_telemetry c) else arg_log_dir args)
       (max_file_size_mb (cfg_telemetry c)) (rotate_count (cfg_telemetry c)) (log_level (cfg_telemetry c))).

(** Where the log goes; the size and the number of files are the constructor's defaults.
    [None] when the constructor throws. *)
Definition make_sink (answer : file_answer) (prefix : string) (c : Config) : option ILogSink :=
  if decide (log_dir (cfg_telemetry c) = "") then Some (StdoutSink EmptyString)
  else FileSink <$> new_file_sink (log_dir (cfg_telemetry c)) prefix 50 5 answer.

Inductive action :=
  | ExitHelp
  | Terminate
  | RunDemo (c : Config)
  | RunDaemon (c : Config).

(** Up to the choice of the mode; [loaded] is the answer of [load_config]. *)
Definition choose_mode (argv : list string) (loaded : string -> Result Config) : action :=
  match parse_args argv with
  | HelpShown => ExitHelp
  | Threw => Terminate
  | Parsed args =>
      let config := match loaded (config_path args) with Ok c => c | Err _ => default_config end in
      let config := apply_overrides args config in
      if demo_mode args then RunDemo config else RunDaemon config
  end.

(** * [execute_plan] *)

Record exec_state := mkExecState {
  local_executed : nat;
  remote_offloaded : nat;
  pool_jobs : list (TaskId * TaskProfile);
  exec_log : list (LogLevel * string);
  exec_events : list event
}.

Definition exec_init : exec_state := mkExecState 0 0 [] [] [].

Definition exec_step (dag : WorkloadDAG) (local_id : NodeId) (st : exec_state) (decision : SchedulingDecision)
  : exec_state :=
  match get_task dag (dec_task decision) with
  | None => st
  | Some task =>
      if decide (assigned_node decision = local_id)
      then mkExecState (S (local_executed st)) (remote_offloaded st)
             (pool_jobs st ++ [(dec_task decision, task_profile task)]) (exec_log st) (exec_events st)
      else mkExecState (local_executed st) (S (remote_offloaded st)) (pool_jobs st)
             (exec_log st ++ [(Info, "Offload task " +:+ dec_task decision +:+ " -> " +:+ assigned_node decision)])
             (exec_events st ++ [EDecision decision])
  end.

(** The loop from the [i]-th iteration on; [shutdown i] is the read of
    [g_shutdown_requested] there. *)
Fixpoint exec_loop (dag : WorkloadDAG) (local_id : NodeId) (shutdown : nat -> bool) (i : nat)
    (ds : list SchedulingDecision) (st : exec_state) : exec_state :=
  match ds with
  | [] => st
  | d :: ds' =>
      if shutdown i then st else exec_loop dag local_id shutdown (S i) ds' (exec_step dag local_id st d)
  end.

Definition plan_summary (local remote : nat) (makespan : Duration) : string :=
  "{" +:+ dq +:+ "local" +:+ dq +:+ ":" +:+ pretty local
  +:+ "," +:+ dq +:+ "offloaded" +:+ dq +:+ ":" +:+ pretty remote
  +:+ "," +:+ dq +:+ "makespan_us" +:+ dq +:+ ":" +:+ pretty makespan +:+ "}".

Definition execute_plan (plan : SchedulingPlan) (dag : WorkloadDAG) (local_id : NodeId) (shutdown : nat -> bool)
  : exec_state :=
  let st := exec_loop dag local_id shutdown 0 (decisions plan) exec_init in
  mkExecState (local_executed st) (remote_offloaded st) (pool_jobs st)
    (exec_log st ++ [(Info, "Plan executed: " +:+ pretty (local_executed st) +:+ " local, "
        +:+ pretty (remote_offloaded st) +:+ " offloaded, makespan " +:+ pretty (estimated_makespan plan) +:+ "us")])
    (exec_events st ++ [ECustom "plan_summary"
        (plan_summary (local_executed st) (remote_offloaded st) (estimated_makespan plan))]).

(** What a job of the pool reports when it has run. *)
Definition job_report (r : ExecutionResult) : list (LogLevel * string) * event :=
  (match er_final_state r with
   | Completed => [(Debug, "Task " +:+ er_task_id r +:+ " completed in " +:+ pretty (er_actual_duration r) +:+ "us")]
   | _ => match er_error_message r with
          | Some e => [(Warn, "Task " +:+ er_task_id r +:+ " failed: " +:+ e)]
          | None => []
          end
   end,
   ETask (er_task_id r) (er_final_state r) (er_actual_duration r)).

(** * The demo *)

Section demo.
Context {IO : IterOrder} {SS : StdSort} {R : Rng}.

Definition count_local (id : NodeId) (plan : SchedulingPlan) : nat :=
  length (filter (fun d => assigned_node d = id) (decisions plan)).

Definition policy_line (name : string) (id : NodeId) (plan : SchedulingPlan) : string :=
  name +:+ pretty (count_local id plan) +:+ " local, "
  +:+ pretty (length (decisions plan) - count_local id plan)%nat +:+ " offloaded, "
  +:+ "makespan " +:+ pretty (estimated_makespan plan) +:+ "us".

Definition demo_dag : WorkloadDAG := transformer_layers 6 768 2048.
Definition demo_fan : WorkloadDAG := fan_out_fan_in 8 (mkProfile 4000 (1024 * 1024) 0 0).

(** The simulated node and its one simulated peer. *)
Definition demo_monitor (id : NodeId) : Mock.MockMonitor :=
  Mock.set_memory (3 * 1024 * 1024 * 1024) (4 * 1024 * 1024 * 1024) (Mock.set_cpu (f32_of_Z 35) (Mock.new_mock id)).

Definition demo_peer : ResourceSnapshot :=
  mkSnapshot "rpi-peer-1" 0 (f32_of_Z 15) (replicate 4 f32_zero) (3 * 1024 * 1024 * 1024) (4 * 1024 * 1024 * 1024)
    f32_zero f32_zero 0 0 false.

Definition demo_view : ClusterView := snapshot (update_peer_resources "rpi-peer-1" demo_peer ∅).

(** The pool's size; [memory_pool_mb] is a [uint64_t]. *)
Definition demo_pool_bytes (c : Config) : Z := u64 (u64 (memory_pool_mb (cfg_executor c) * 1024) * 1024).

Definition plan_with (P : SchedulingPolicy) (now : Z) (d : WorkloadDAG) (s : ResourceSnapshot) : SchedulingPlan :=
  schedule (SchedulingPolicy := P) now d s demo_view.

Definition fan_line (id : NodeId) (g o : SchedulingPlan) : string :=
  "Fan-out(8): greedy " +:+ pretty (count_local id g) +:+ " local/"
  +:+ pretty (length (decisions g) - count_local id g)%nat
  +:+ " offloaded, makespan " +:+ pretty (estimated_makespan g)
  +:+ "us; optimizer " +:+ pretty (count_local id o) +:+ " local/"
  +:+ pretty (length (decisions o) - count_local id o)%nat
  +:+ " offloaded, makespan " +:+ pretty (estimated_makespan o) +:+ "us".

(** The log of the demo's main thread and the jobs it hands to the pool; [read_at] and [now]
    are clock readings. *)
Definition run_demo (read_at now : Z) (shutdown : nat -> bool) (c : Config) : list (LogLevel * string) * exec_state :=
  let id := cfg_id (cfg_node c) in
  let snap := match (Mock.read read_at (demo_monitor id)).1 with Ok s => s | Err _ => empty_snapshot end in
  let plan_g := plan_with GreedyPolicy now demo_dag snap in
  let plan_t := plan_with (ThresholdPolicy (threshold (cfg_scheduler c))) now demo_dag snap in
  let plan_o := plan_with (OptimizerPolicy (optimizer (cfg_scheduler c))) now demo_dag snap in
  let fan_g := plan_with GreedyPolicy now demo_fan snap in
  let fan_o := plan_with (OptimizerPolicy (optimizer (cfg_scheduler c))) now demo_fan snap in
  let st := execute_plan plan_o demo_dag id shutdown in
  ([(Info, "=== Demo Mode ===");
    (Info, "Generated workload: " +:+ pretty (task_count demo_dag) +:+ " tasks, "
             +:+ "critical path " +:+ pretty (critical_path_cost demo_dag) +:+ "us, "
             +:+ "peak memory " +:+ pretty (peak_memory_estimate demo_dag / 1024) +:+ " KB");
    (Info, policy_line "Greedy:    " id plan_g);
    (Info, policy_line "Threshold: " id plan_t);
    (Info, policy_line "Optimizer: " id plan_o);
    (Info, "(transformer layers are a sequential chain: distributing them " +:+
           "cannot beat the critical path, so keeping them local is correct)");
    (Info, fan_line id fan_g fan_o)]
   ++ exec_log st ++ [(Info, "=== Demo Complete ===")], st).

(** * The main loop *)

(** An iteration of the loop; [undef] is the value of the cast when it does not fit. *)
Definition status_round (undef : Z) (loop_count : Z) (snap : Result ResourceSnapshot) (peers : nat)
  : list (LogLevel * string) * list event :=
  if (loop_count mod 300 =? 0) && (0 <? loop_count) then
    match snap with
    | Ok s =>
        let cpu := match f32_trunc (cpu_usage_percent s) with
                   | Some z => if (- 2 ^ 31 <=? z) && (z <? 2 ^ 31) then z else undef
                   | None => undef
                   end in
        ([(Info, "Status: CPU " +:+ pretty cpu +:+ "%, mem "
                   +:+ pretty (memory_available_bytes s / (1024 * 1024)) +:+ " MB avail, "
                   +:+ pretty peers +:+ " peers")], [ESnapshot s])
    | Err _ => ([], [])
    end
  else ([], []).
End demo.
