(* ===== verification/MainTheorems.v ===== *)
(** The command line is read as it was written, and [execute_plan] handles exactly the
    decisions before a shutdown. *)

From Stdlib Require Import ZArith Lia Ascii String.
From stdpp Require Import base gmap strings numbers pretty list.
From S2P Require Import Prelude Text Float32 Core Dag Kahn Cycle DagTheorems Metrics Config MemoryPool TaskRunner.
From S2P Require Import Scheduler Greedy Threshold Optimizer OptimizerTheorems Cluster Telemetry Monitor.
From S2P Require Import MonitorTheorems Generator GeneratorTheorems Main.

Local Open Scope Z_scope.

(** * The command line *)

Inductive cli_option :=
  | OConfig (path : string)
  | ONodeId (id : string)
  | OPort (port : Z)
  | OLogDir (path : string)
  | ODemo
  | OOther (arg : string).       (** an argument the program does not know *)

Definition render_option (o : cli_option) : list string :=
  match o with
  | OConfig p => ["--config"; p]
  | ONodeId i => ["--node-id"; i]
  | OPort n => ["--port"; pretty n]
  | OLogDir p => ["--log-dir"; p]
  | ODemo => ["--demo"]
  | OOther a => [a]
  end.

Definition set_option (args : CLIArgs) (o : cli_option) : CLIArgs :=
  match o with
  | OConfig p => mkArgs p (arg_node_id args) (arg_port args) (arg_log_dir args) (demo_mode args)
  | ONodeId i => mkArgs (config_path args) i (arg_port args) (arg_log_dir args) (demo_mode args)
  | OPort n => mkArgs (config_path args) (arg_node_id args) n (arg_log_dir args) (demo_mode args)
  | OLogDir p => mkArgs (config_path args) (arg_node_id args) (arg_port args) p (demo_mode args)
  | ODemo => mkArgs (config_path args) (arg_node_id args) (arg_port args) (arg_log_dir args) true
  | OOther _ => args
  end.

Definition known_args : list string :=
  ["--config"; "--node-id"; "--port"; "--log-dir"; "--demo"; "--help"; "-h"].

Definition option_ok (o : cli_option) : Prop :=
  match o with OPort n => 0 <= n < 2 ^ 16 | OOther a => a ∉ known_args | _ => True end.

#[export] Instance option_ok_dec o : Decision (option_ok o).
Proof. destruct o; simpl; apply _. Defined.

Lemma stoi_pretty n : - 2 ^ 31 <= n < 2 ^ 31 -> stoi (pretty n) = Some n.
Proof.
  intros Hn. unfold stoi. rewrite stol_pretty by (unfold is_i64; lia). cbn [mbind option_bind].
  by rewrite (proj2 (Z.leb_le _ _)), (proj2 (Z.ltb_lt _ _)) by lia.
Qed.

Lemma parse_option args o rest : option_ok o ->
  parse_from args (render_option o ++ rest) = parse_from (set_option args o) rest.
Proof.
  intros Ho. destruct o as [p|i|n|p| |a]; cbn [render_option app]; [done|done| |done|done|].
  - cbn [option_ok] in Ho. cbn -[stoi u16 pretty]. rewrite stoi_pretty by lia.
    unfold u16. by rewrite Z.mod_small by lia.
  - change (a ∉ known_args) in Ho. unfold known_args in Ho. rewrite !not_elem_of_cons in Ho.
    cbn [parse_from set_option]. rewrite !decide_False by naive_solver. done.
Qed.

(** The command line is read as written.  Whatever options are given, in any order and
    repeated or not, among arguments the program does not know, the result is that of
    setting them one after the other on the defaults; an argument [--help] after them shows
    the help, and a port that is no number ends the program. *)
Theorem command_line_roundtrip opts : Forall option_ok opts ->
  parse_args (mjoin (render_option <$> opts)) = Parsed (foldl set_option default_args opts) /\
  parse_args (mjoin (render_option <$> opts) ++ ["--help"]) = HelpShown /\
  (forall s rest, stoi s = None -> parse_args (mjoin (render_option <$> opts) ++ "--port" :: s :: rest) = Threw).
Proof.
  intros Hok. assert (forall args rest, parse_from args (mjoin (render_option <$> opts) ++ rest) =
                                      parse_from (foldl set_option args opts) rest) as H.
  { induction Hok as [|o opts Ho _ IH]; intros args rest; [done|].
    cbn [fmap list_fmap mjoin list_join foldl]. rewrite <- (assoc_L (++)), parse_option by done. apply IH. }
  unfold parse_args. split_and!.
  - rewrite <- (app_nil_r (mjoin _)). by rewrite H.
  - by rewrite H.
  - intros s rest Hs. rewrite H. cbn -[stoi]. by rewrite Hs.
Qed.

Lemma command_line_roundtrip_witness :
  parse_args ["--verbose"; "--port"; "5300"; "--demo"; "--node-id"; "pi-7"; "--port"; "5301"]
    = Parsed (mkArgs "config/default.toml" "pi-7" 5301 "" true).
Proof.
  apply (proj1 (command_line_roundtrip
    [OOther "--verbose"; OPort 5300; ODemo; ONodeId "pi-7"; OPort 5301] ltac:(decide_now))).
Defined.

(** A port of 65536 reads as no port at all. *)
Lemma port_65536_is_ignored :
  parse_args ["--port"; "65536"] = Parsed default_args.
Proof. vm_compute. reflexivity. Qed.

(** * [execute_plan] *)

(** The decisions handled before the first iteration that sees the shutdown flag. *)
Fixpoint before_shutdown (shutdown : nat -> bool) (i : nat) (ds : list SchedulingDecision) : list SchedulingDecision :=
  match ds with
  | [] => []
  | d :: ds' => if shutdown i then [] else d :: before_shutdown shutdown (S i) ds'
  end.

Section execute.
Context (dag : WorkloadDAG) (id : NodeId).

Definition runs_here (d : SchedulingDecision) : Prop := assigned_node d = id.

#[export] Instance runs_here_dec d : Decision (runs_here d).
Proof. unfold runs_here. apply _. Defined.

Lemma exec_loop_prefix shutdown i ds st :
  exec_loop dag id shutdown i ds st = foldl (exec_step dag id) st (before_shutdown shutdown i ds).
Proof.
  revert i st. induction ds as [|d ds IH]; intros i st; cbn; [done|]. destruct (shutdown i); [done|apply IH].
Qed.

(** The names of the jobs, and the two counts, after some decisions. *)
Lemma exec_steps ds st : Forall (fun d => known dag (dec_task d)) ds ->
  let st' := foldl (exec_step dag id) st ds in
  (pool_jobs st').*1 = (pool_jobs st).*1 ++ (dec_task <$> filter runs_here ds) /\
  local_executed st' = (local_executed st + length (filter runs_here ds))%nat /\
  remote_offloaded st' = (remote_offloaded st + length (filter (fun d => ~ runs_here d) ds))%nat /\
  exec_events st' = exec_events st ++ (EDecision <$> filter (fun d => ~ runs_here d) ds).
Proof.
  intros Hk. revert st. induction Hk as [|d ds [t Ht] _ IH]; intros st; cbn [foldl].
  { cbn. rewrite !app_nil_r. split_and!; done || lia. }
  unfold exec_step at 2 4 6 8. unfold get_task. rewrite Ht. rewrite !filter_cons.
  destruct (decide (assigned_node d = id)) as [E|E].
  - rewrite (decide_True (P := runs_here d)) by done. rewrite (decide_False (P := ~ runs_here d)) by naive_solver.
    destruct (IH (mkExecState (S (local_executed st)) (remote_offloaded st)
      (pool_jobs st ++ [(dec_task d, task_profile t)]) (exec_log st) (exec_events st))) as (-> & -> & -> & ->).
    cbn [pool_jobs local_executed remote_offloaded exec_events length fmap list_fmap]. rewrite fmap_app, <- (assoc_L (++)).
    split_and!; done || lia.
  - rewrite (decide_False (P := runs_here d)) by done. rewrite (decide_True (P := ~ runs_here d)) by done.
    edestruct IH as (-> & -> & -> & ->).
    cbn [pool_jobs local_executed remote_offloaded exec_events length fmap list_fmap]. rewrite <- (assoc_L (++)).
    split_and!; done || lia.
Qed.
End execute.

Lemma length_filter_split {A} (Q : A -> Prop) `{!forall x, Decision (Q x)} (l : list A) :
  (length (filter Q l) + length (filter (fun x => ~ Q x) l))%nat = length l.
Proof.
  induction l as [|x l IH]; [done|]. rewrite !filter_cons. case_decide; case_decide; try done; simpl; lia.
Qed.

Lemma before_shutdown_prefix shutdown i ds : before_shutdown shutdown i ds `prefix_of` ds.
Proof.
  revert i. induction ds as [|d ds IH]; intros i; cbn; [apply prefix_nil|].
  destruct (shutdown i); [apply prefix_nil|apply prefix_cons, IH].
Qed.

Lemma before_shutdown_all shutdown i ds : (forall j, shutdown j = false) -> before_shutdown shutdown i ds = ds.
Proof. intros H. revert i. induction ds as [|d ds IH]; intros i; cbn; [done|]. by rewrite H, IH. Qed.

Section plans.
Context {IO : IterOrder} (P : SchedulingPolicy) {PL : SchedulingPolicyLaws P}.

(** [execute_plan] acts on exactly the decisions before a shutdown.  For a plan of any of
    the policies for a valid closed DAG, the tasks handed to the pool are the local ones
    among the decisions handled, in plan order and each at most once; the two counts and the
    offload events cover the rest; and when no read sees the flag every task of the DAG is
    accounted for. *)
Theorem execute_plan_exact now dag snap view id shutdown :
  closed dag -> is_valid dag = true ->
  let plan := schedule now dag snap view in
  let handled := before_shutdown shutdown 0 (decisions plan) in
  let st := execute_plan plan dag id shutdown in
  handled `prefix_of` decisions plan /\
  (pool_jobs st).*1 = dec_task <$> filter (runs_here id) handled /\ NoDup (pool_jobs st).*1 /\
  (local_executed st + remote_offloaded st)%nat = length handled /\
  ((forall i, shutdown i = false) ->
     (local_executed st + remote_offloaded st)%nat = task_count dag).
Proof.
  intros Hc Hv plan handled st.
  pose proof (schedule_complete (P := P) now dag snap view Hc) as Hp. fold plan in Hp.
  pose proof (before_shutdown_prefix shutdown 0 (decisions plan)) as Hpre. fold handled in Hpre.
  destruct (topological_order_spec dag) as (_ & Hnd & _).
  assert (Forall (fun d => known dag (dec_task d)) handled) as Hk.
  { apply Forall_forall. intros d Hd. apply topological_order_known; [done|]. rewrite <- Hp.
    apply list_elem_of_fmap_2. destruct Hpre as [k ->]. apply elem_of_app. by left. }
  destruct (exec_steps dag id handled exec_init Hk) as (H1 & H2 & H3 & _).
  assert (st = execute_plan plan dag id shutdown) as Est by done. unfold execute_plan in Est.
  rewrite exec_loop_prefix in Est. fold handled in Est.
  assert ((pool_jobs st).*1 = dec_task <$> filter (runs_here id) handled) as Ejobs by (by rewrite Est).
  assert ((local_executed st + remote_offloaded st)%nat = length handled) as Ecount.
  { rewrite Est. cbn [local_executed remote_offloaded]. rewrite H2, H3. cbn [local_executed remote_offloaded exec_init].
    apply (length_filter_split (runs_here id) handled). }
  split_and!; [done|done| |done|].
  - rewrite Ejobs. eapply sublist_NoDup; [rewrite <- Hp in Hnd; exact Hnd|].
    apply fmap_sublist. etrans; [apply sublist_filter|]. destruct Hpre as [k ->]. apply sublist_inserts_r. done.
  - intros Hf. rewrite Ecount. unfold handled. rewrite before_shutdown_all by done.
    rewrite <- (length_fmap dec_task), Hp. apply topological_order_length; [done|]. by apply valid_closed_acyclic.
Qed.
End plans.

#[local] Existing Instance IterCanonical.
#[local] Existing Instance InsertionSort.
#[local] Existing Instance CounterRng.

Lemma execute_plan_exact_witness :
  let snap := Mock.stamped 0 (Mock.static_snapshot_ (demo_monitor "node-01")) in
  let plan := plan_with (OptimizerPolicy default_optimizer)
    0 diamond_dag snap in
  let st := execute_plan plan diamond_dag "node-01" (Nat.eqb 2) in
  closed diamond_dag /\ is_valid diamond_dag = true /\ NoDup (pool_jobs st).*1 /\
  (local_executed st + remote_offloaded st)%nat = 2%nat.
Proof.
  cbv zeta. split; [decide_now|]. split; [vm_compute; reflexivity|].
  pose proof (execute_plan_exact (OptimizerPolicy default_optimizer) 0 diamond_dag
    (Mock.stamped 0 (Mock.static_snapshot_ (demo_monitor "node-01"))) demo_view "node-01"
    (Nat.eqb 2) ltac:(decide_now) ltac:(vm_compute; reflexivity)) as H.
  destruct H as (_ & _ & Hnd & Hc & _). split; [exact Hnd|]. etransitivity; [exact Hc|]. vm_compute. reflexivity.
Defined.

(** The demo on the default configuration. *)
Lemma demo_output :
  let '(log, st) := run_demo 0 0
                      (fun _ => false) default_config in
  length log = 9%nat /\ local_executed st = 12%nat /\ remote_offloaded st = 0%nat /\
  log !! 1%nat = Some (Info, "Generated workload: 12 tasks, critical path 27648us, peak memory 9216 KB").
Proof. vm_compute. by split_and!. Qed.
