(* ===== verification/DefaultToml.v ===== *)
(** The configuration file the repository ships, [config/default.toml], and what [load_config]
    and [main] make of it.

    toml++ stays behind [TomlApi]; [shows] says what its documentation promises about the
    nodes of a parsed document: tables are tables, a key leads to the node of its entry or to
    an empty view, and a node has the value of its type. *)

From Stdlib Require Import ZArith Lia.
From stdpp Require Import base gmap strings numbers list.
From S2P Require Import Prelude Float32 Core Config Main.

Local Open Scope Z_scope.


(** * Documents behind the interface *)

Section shows.
Context {T : TomlApi}.





(** ** Files that leave things out *)





End shows.


(** * The shipped file *)





