(* ===== verification/Orchestrator.v ===== *)
(** [orchestrator/orchestrator.hpp]: the facade that ties the modules together.

    Every call that reaches outside (the monitor, the clock, the kernel, the busy loop of a
    task) takes what it observes as an argument.  [submit_workload] hands its jobs to the
    executor pool one by one and polls two counters.  The interleaving of the calling thread,
    the jobs, which may run while others are still being handed over, and the callbacks of
    discovery is a list of events, and [sub_next] is what each event does: one access to the
    log, the metrics, a counter, the arena or the cluster view. *)

From Stdlib Require Import ZArith Lia.
From stdpp Require Import base gmap strings relations numbers pretty list.
From S2P Require Import Prelude Core Dag Config MemoryPool TaskRunner Scheduler Greedy Threshold Optimizer Codec.
From S2P Require Import Transport Cluster Discovery Telemetry.

Local Open Scope Z_scope.

(** * State *)

Record Orchestrator := mkOrchestrator {
  config_ : Config;
  memory_pool_ : MemoryPool;
  cluster_mgr_ : PeerMap;
  discovery_ : PeerDiscovery;
  log_calls : list (LogLevel * string);
  metric_events : list event
}.

Definition with_pool (o : Orchestrator) (p : MemoryPool) : Orchestrator :=
  mkOrchestrator (config_ o) p (cluster_mgr_ o) (discovery_ o) (log_calls o) (metric_events o).
Definition with_discovery (o : Orchestrator) (d : PeerDiscovery) : Orchestrator :=
  mkOrchestrator (config_ o) (memory_pool_ o) (cluster_mgr_ o) d (log_calls o) (metric_events o).
Definition with_cluster (o : Orchestrator) (m : PeerMap) : Orchestrator :=
  mkOrchestrator (config_ o) (memory_pool_ o) m (discovery_ o) (log_calls o) (metric_events o).
Definition logs (l : LogLevel) (msg : string) (o : Orchestrator) : Orchestrator :=
  mkOrchestrator (config_ o) (memory_pool_ o) (cluster_mgr_ o) (discovery_ o)
    (log_calls o ++ [(l, msg)]) (metric_events o).
Definition records (e : event) (o : Orchestrator) : Orchestrator :=
  mkOrchestrator (config_ o) (memory_pool_ o) (cluster_mgr_ o) (discovery_ o) (log_calls o)
    (metric_events o ++ [e]).

Definition node_id (o : Orchestrator) : NodeId := cfg_id (cfg_node (config_ o)).

(** The constructor; a pool size of [memory_pool_mb] mebibytes. *)
Definition new_orchestrator (c : Config) : Orchestrator :=
  mkOrchestrator c (MemoryPool.new_pool (u64 (u64 (memory_pool_mb (cfg_executor c) * 1024) * 1024))) ∅
    (new_discovery (cfg_id (cfg_node c)) (cfg_port (cfg_node c)) (peer_timeout_ms (cfg_network c)))
    [] [].

(** [thread_pool_]'s size: the hardware's when the configuration says 0. *)
Definition executor_threads (c : Config) (hardware_concurrency : Z) : Z :=
  if cfg_thread_count (cfg_executor c) =? 0 then hardware_concurrency else cfg_thread_count (cfg_executor c).

(** The callbacks [start] registers. *)
Definition on_discovered (peer : PeerInfo) (o : Orchestrator) : Orchestrator :=
  let o := with_cluster o (update_peer peer (cluster_mgr_ o)) in
  let o := logs Info ("Peer discovered: " +:+ peer_node_id peer +:+ " at " +:+ peer_address peer
                        +:+ ":" +:+ pretty (peer_tcp_port peer)) o in
  records (EPeer (peer_node_id peer) "discovered") o.

Definition on_lost (peer : PeerInfo) (o : Orchestrator) : Orchestrator :=
  let o := with_cluster o (remove_peer (peer_node_id peer) (cluster_mgr_ o)) in
  let o := logs Warn ("Peer lost: " +:+ peer_node_id peer) o in
  records (EPeer (peer_node_id peer) "lost") o.

(** * Lifecycle *)

(** What [start] brings up. *)
Record services := mkServices {
  running_ : bool;
  monitor_on : bool;
  server_on : bool;
  discovery_on : bool;
  resource_thread_on : bool
}.

Definition services_off : services := mkServices false false false false false.

(** [listened] is the answer of [offload_server_.listen]. *)
Definition start (listened : Result unit) (s : services) (o : Orchestrator)
  : Result unit * services * Orchestrator :=
  if running_ s then (make_error "Already running", mkServices true (monitor_on s) (server_on s)
                        (discovery_on s) (resource_thread_on s), o)
  else
    let port := pretty (cfg_port (cfg_node (config_ o))) in
    let o := logs Info ("Orchestrator starting: node=" +:+ node_id o +:+ " port=" +:+ port) o in
    let '(server, o) :=
      match listened with
      | Ok _ => (true, logs Info ("Offload server listening on port " +:+ port) o)
      | Err e => (server_on s, logs Warn ("Could not start offload server: " +:+ message e) o)
      end in
    let o := logs Info "Orchestrator started successfully" o in
    (Ok tt, mkServices true true server true true, o).

Definition stop (s : services) (o : Orchestrator) : services * Orchestrator :=
  if running_ s then
    (mkServices false false false false false,
     logs Info "Orchestrator stopped" (logs Info "Orchestrator shutting down..." o))
  else (mkServices false (monitor_on s) (server_on s) (discovery_on s) (resource_thread_on s), o).

(** One round of [resource_update_loop], and its period. *)
Definition resource_round (snap : Result ResourceSnapshot) (o : Orchestrator) : Orchestrator :=
  match snap with
  | Ok s => with_discovery o (update_local_resources s (discovery_ o))
  | Err _ => o
  end.

Definition update_interval_ms (c : Config) : Z :=
  if sampling_interval_ms (cfg_monitor c) =? 0 then 500 else sampling_interval_ms (cfg_monitor c).

(** * Tasks *)

(** [run_task]: one execution under the shared lock. *)
Definition run_task (id : TaskId) (profile : TaskProfile) (e : run_env) (o : Orchestrator)
  : option (ExecutionResult * Orchestrator) :=
  '(r, p) ← execute id profile (memory_pool_ o) e;
  Some (r, with_pool o p).

(** [owns_lock] is the answer of [try_to_lock]. *)
Definition try_reset_arena (owns_lock : bool) (o : Orchestrator) : Orchestrator :=
  if owns_lock then with_pool o (reset (memory_pool_ o)) else o.

(** * Policies *)

Section policy.
Context {IO : IterOrder} {SS : StdSort} {R : Rng}.

Definition create_policy (c : Config) : SchedulingPolicy :=
  if decide (policy (cfg_scheduler c) = "threshold") then ThresholdPolicy (threshold (cfg_scheduler c))
  else if decide (policy (cfg_scheduler c) = "optimizer") then OptimizerPolicy (optimizer (cfg_scheduler c))
  else GreedyPolicy.
End policy.

(** * Offloading to a peer *)

Record RemoteOutcome := mkOutcome {
  transport_ok : bool;
  task_ok : bool;
  out_duration : Duration;
  out_error : string
}.

(** What the round trip observes: the kernel's answers and the bytes the peer sent. *)
Record offload_env := mkOffload {
  oe_connect : connect_env;
  oe_send : list io;
  oe_recv : list io;
  oe_reply : list Z
}.

Section offload.
Context {PB : Protobuf} (strerror : Z -> string).

Definition offload_failed (msg : string) : option RemoteOutcome := Some (mkOutcome false false 0 msg).

(** [None] while a system call of the round trip has not returned. *)
Definition offload_to_peer (cluster : PeerMap) (id : TaskId) (profile : TaskProfile) (target : NodeId)
    (e : offload_env) : option RemoteOutcome :=
  match peer_info cluster target with
  | None => offload_failed ("no known endpoint for " +:+ target)
  | Some peer =>
      if decide (peer_address peer = "" \/ peer_tcp_port peer = 0)
      then offload_failed ("no known endpoint for " +:+ target)
      else
        let '(conn, client) := connect strerror (oe_connect e) (peer_address peer) new_transport in
        match conn with
        | Err er => offload_failed ("connect: " +:+ message er)
        | Ok _ =>
            '(sent, _, _) ← send (oe_send e) (encode_request id profile []) client;
            match sent with
            | Err er => offload_failed ("send: " +:+ message er)
            | Ok _ =>
                '(reply, _, _) ← receive (oe_recv e) (oe_reply e) client;
                match reply with
                | Err er => offload_failed ("receive: " +:+ message er)
                | Ok bytes =>
                    match decode_response bytes with
                    | None => offload_failed "malformed response"
                    | Some (success, duration, _, error_msg, _) =>
                        Some (mkOutcome true success duration error_msg)
                    end
                end
            end
        end
  end.
End offload.

(** * Submitting a workload *)

(** A job of the executor pool; [j_target] is the peer of an offloaded one. *)
Record job := mkJob { j_id : TaskId; j_profile : TaskProfile; j_target : option NodeId }.

(** Where a job is: handed over; with the outcome of its round trip; after a broken one, with
    the warning logged, the event recorded and the fallback counted; run on this node; with
    its task event recorded, and a warning still to log; or counted.  [fell_back] tells a job
    that ran here after a broken round trip. *)
Inductive job_state :=
  | Queued (j : job)
  | RoundTripped (j : job) (target : NodeId) (outcome : RemoteOutcome)
  | Warned (j : job) (target : NodeId)
  | Noted (j : job)
  | FallingBack (j : job)
  | Ran (j : job) (st : TaskState) (d : Duration) (fell_back : bool)
  | Reported (j : job) (st : TaskState) (warning : option string) (fell_back : bool)
  | Finished (j : job) (ok fell_back : bool).

Definition job_of (s : job_state) : job :=
  match s with
  | Queued j | RoundTripped j _ _ | Warned j _ | Noted j | FallingBack j | Ran j _ _ _ | Reported j _ _ _
  | Finished j _ _ => j
  end.

(** The calling thread: at the head of the dispatch loop, with a decision recorded and its
    job about to be submitted, before the test of the polling loop, between the two loads of
    the test, and in the three loads after the loop.  [timed_out] remembers why it left. *)
Inductive wait_pc :=
  | WDispatch (ds : list SchedulingDecision)
  | WSubmit (decision : SchedulingDecision) (task : Task) (ds : list SchedulingDecision)
  | WTest
  | WLoaded (c : nat)
  | WLeft (timed_out : bool)
  | WGotCompleted (timed_out : bool) (c : nat)
  | WGotFailed (timed_out : bool) (c f : nat)
  | WDone (timed_out : bool) (c f fb : nat).

Record submission := mkSubmission' {
  s_orch : Orchestrator;
  s_jobs : list job_state;
  s_local : Z;                 (** [result.local_tasks] *)
  s_offloaded : Z;             (** [result.offloaded_tasks] *)
  s_completed : nat;
  s_failed : nat;
  s_fallbacks : nat;
  s_waiter : wait_pc
}.

Inductive sub_event :=
  | EvCaller (now : Z)                          (** the calling thread takes a step *)
  | EvRun (i : nat) (e : run_env)               (** job [i] runs its task on this node *)
  | EvOffload (i : nat) (e : offload_env)       (** job [i] makes its round trip *)
  | EvJob (i : nat)                             (** job [i] logs, records or counts *)
  | EvPeer (found : bool) (peer : PeerInfo).    (** discovery calls back *)

Definition with_orch (s : submission) (o : Orchestrator) : submission :=
  mkSubmission' o (s_jobs s) (s_local s) (s_offloaded s) (s_completed s) (s_failed s) (s_fallbacks s) (s_waiter s).
Definition with_waiter (s : submission) (w : wait_pc) : submission :=
  mkSubmission' (s_orch s) (s_jobs s) (s_local s) (s_offloaded s) (s_completed s) (s_failed s) (s_fallbacks s) w.
Definition with_job (i : nat) (st : job_state) (o : Orchestrator) (s : submission) : submission :=
  mkSubmission' o (<[i := st]> (s_jobs s)) (s_local s) (s_offloaded s) (s_completed s) (s_failed s) (s_fallbacks s)
    (s_waiter s).

(** [completed.fetch_add(1)] or [failed.fetch_add(1)]. *)
Definition count_job (i : nat) (j : job) (ok fell_back : bool) (s : submission) : submission :=
  mkSubmission' (s_orch s) (<[i := Finished j ok fell_back]> (s_jobs s)) (s_local s) (s_offloaded s)
    (if ok then S (s_completed s) else s_completed s) (if ok then s_failed s else S (s_failed s))
    (s_fallbacks s) (s_waiter s).

(** [fallbacks.fetch_add(1)]. *)
Definition count_fallback (i : nat) (j : job) (s : submission) : submission :=
  mkSubmission' (s_orch s) (<[i := FallingBack j]> (s_jobs s)) (s_local s) (s_offloaded s) (s_completed s) (s_failed s)
    (S (s_fallbacks s)) (s_waiter s).

(** The payload of the fallback event. *)
Definition fallback_payload (id : TaskId) (target : NodeId) : string :=
  "{" +:+ dq +:+ "task" +:+ dq +:+ ":" +:+ dq +:+ id +:+ dq +:+ "," +:+ dq +:+ "target" +:+ dq +:+ ":"
  +:+ dq +:+ target +:+ dq +:+ "}".

(** The steps of a job after its task or its round trip. *)
Definition job_step (i : nat) (s : submission) : option submission :=
  match s_jobs s !! i with
  | Some (RoundTripped j target outcome) =>
      if transport_ok outcome then
        let st := if task_ok outcome then Completed else Failed in
        let warning := if task_ok outcome then None
                       else Some ("Peer " +:+ target +:+ " failed task " +:+ j_id j +:+ ": " +:+ out_error outcome) in
        Some (with_job i (Reported j st warning false) (records (ETask (j_id j) st (out_duration outcome)) (s_orch s)) s)
      else
        Some (with_job i (Warned j target)
                (logs Warn ("Offload of " +:+ j_id j +:+ " to " +:+ target +:+ " failed ("
                              +:+ out_error outcome +:+ "); executing locally") (s_orch s)) s)
  | Some (Warned j target) =>
      Some (with_job i (Noted j)
              (records (ECustom "offload_fallback" (fallback_payload (j_id j) target)) (s_orch s)) s)
  | Some (Noted j) => Some (count_fallback i j s)
  | Some (Ran j st d fb) =>
      Some (with_job i (Reported j st None fb) (records (ETask (j_id j) st d) (s_orch s)) s)
  | Some (Reported j st (Some warning) fb) =>
      Some (with_job i (Reported j st None fb) (logs Warn warning (s_orch s)) s)
  | Some (Reported j st None fb) => Some (count_job i j (bool_decide (st = Completed)) fb s)
  | _ => None
  end.

(** [run_task] of a local job, or of one that falls back. *)
Definition task_step (i : nat) (e : run_env) (s : submission) : option submission :=
  match s_jobs s !! i with
  | Some (Queued j) =>
      if j_target j then None
      else '(r, o) ← run_task (j_id j) (j_profile j) e (s_orch s);
           Some (with_job i (Ran j (er_final_state r) (er_actual_duration r) false) o s)
  | Some (FallingBack j) =>
      '(r, o) ← run_task (j_id j) (j_profile j) e (s_orch s);
      Some (with_job i (Ran j (er_final_state r) (er_actual_duration r) true) o s)
  | _ => None
  end.

(** [thread_pool_.submit] and the count that goes with it. *)
Definition submit_job (self : NodeId) (decision : SchedulingDecision) (task : Task) (ds : list SchedulingDecision)
    (s : submission) : submission :=
  let local := bool_decide (assigned_node decision = self) in
  let j := mkJob (dec_task decision) (task_profile task) (if local then None else Some (assigned_node decision)) in
  mkSubmission' (s_orch s) (s_jobs s ++ [Queued j]) (if local then s_local s + 1 else s_local s)
    (if local then s_offloaded s else s_offloaded s + 1) (s_completed s) (s_failed s) (s_fallbacks s) (WDispatch ds).

Section submit.
Context {PB : Protobuf} (strerror : Z -> string).

(** [offload_to_peer]; of the shared state it reads the cluster view. *)
Definition offload_step (i : nat) (e : offload_env) (s : submission) : option submission :=
  match s_jobs s !! i with
  | Some (Queued j) =>
      target ← j_target j;
      outcome ← offload_to_peer strerror (cluster_mgr_ (s_orch s)) (j_id j) (j_profile j) target e;
      Some (with_job i (RoundTripped j target outcome) (s_orch s) s)
  | _ => None
  end.

(** The calling thread; [total] is [plan.decisions.size()]. *)
Definition caller_step (dag : WorkloadDAG) (total : nat) (deadline now : Z) (s : submission) : option submission :=
  match s_waiter s with
  | WDispatch [] => Some (with_waiter s WTest)
  | WDispatch (decision :: ds) =>
      match get_task dag (dec_task decision) with
      | None => Some (with_waiter s (WDispatch ds))
      | Some task =>
          Some (with_waiter (with_orch s (records (EDecision decision) (s_orch s))) (WSubmit decision task ds))
      end
  | WSubmit decision task ds => Some (submit_job (node_id (s_orch s)) decision task ds s)
  | WTest => Some (with_waiter s (WLoaded (s_completed s)))
  | WLoaded c =>
      Some (with_waiter s
        (if decide (c + s_failed s < total)%nat
         then if now <? deadline then WTest else WLeft true
         else WLeft false))
  | WLeft b => Some (with_waiter s (WGotCompleted b (s_completed s)))
  | WGotCompleted b c => Some (with_waiter s (WGotFailed b c (s_failed s)))
  | WGotFailed b c f => Some (with_waiter s (WDone b c f (s_fallbacks s)))
  | WDone _ _ _ _ => None
  end.

(** [None] when the event is not enabled. *)
Definition sub_next (dag : WorkloadDAG) (total : nat) (deadline : Z) (ev : sub_event) (s : submission)
  : option submission :=
  match ev with
  | EvCaller now => caller_step dag total deadline now s
  | EvRun i e => task_step i e s
  | EvOffload i e => offload_step i e s
  | EvJob i => job_step i s
  | EvPeer found peer => Some (with_orch s (if found then on_discovered peer (s_orch s) else on_lost peer (s_orch s)))
  end.

Fixpoint sub_run (dag : WorkloadDAG) (total : nat) (deadline : Z) (evs : list sub_event) (s : submission)
  : option submission :=
  match evs with
  | [] => Some s
  | ev :: evs' => s' ← sub_next dag total deadline ev s; sub_run dag total deadline evs' s'
  end.

(** What one call observes: the monitor's answer, the wall clock of the plan, the steady
    clock before the dispatch and at the deadline computation, the interleaving, the answer
    of the lock and the final clock. *)
Record submit_env := mkSubmitEnv {
  se_snapshot : Result ResourceSnapshot;
  se_now : Z;
  se_start : Z;
  se_wait_start : Z;
  se_events : list sub_event;
  se_owns_lock : bool;
  se_end : Z
}.

Definition deadline_of (e : submit_env) : Z := se_wait_start e + 30 * 1000000000.

Definition complete_payload (r : OrchestrationResult) : string :=
  "{" +:+ dq +:+ "local" +:+ dq +:+ ":" +:+ pretty (local_tasks r)
  +:+ "," +:+ dq +:+ "offloaded" +:+ dq +:+ ":" +:+ pretty (offloaded_tasks r)
  +:+ "," +:+ dq +:+ "completed" +:+ dq +:+ ":" +:+ pretty (completed_tasks r)
  +:+ "," +:+ dq +:+ "failed" +:+ dq +:+ ":" +:+ pretty (failed_tasks r)
  +:+ "," +:+ dq +:+ "duration_us" +:+ dq +:+ ":" +:+ pretty (total_duration r) +:+ "}".

Context {IO : IterOrder} {SS : StdSort} {R : Rng}.

(** The plan of a call. *)
Definition make_plan (now : Z) (dag : WorkloadDAG) (snap : ResourceSnapshot) (o : Orchestrator) : SchedulingPlan :=
  schedule (SchedulingPolicy := create_policy (config_ o)) now dag snap (snapshot (cluster_mgr_ o)).

(** The state in which the dispatch starts. *)
Definition new_submission (plan : SchedulingPlan) (o : Orchestrator) : submission :=
  mkSubmission' o [] 0 0 0 0 0 (WDispatch (decisions plan)).

(** [None] while the call has not returned. *)
Definition submit_workload (e : submit_env) (dag : WorkloadDAG) (o : Orchestrator)
  : option (Result OrchestrationResult * Orchestrator) :=
  match se_snapshot e with
  | Err _ => Some (make_error "Resource monitor not ready", o)
  | Ok snap =>
      let o := with_discovery o (update_local_resources snap (discovery_ o)) in
      let plan := make_plan (se_now e) dag snap o in
      s ← sub_run dag (length (decisions plan)) (deadline_of e) (se_events e) (new_submission plan o);
      match s_waiter s with
      | WDone _ c f fb =>
          let o := try_reset_arena (se_owns_lock e) (s_orch s) in
          let result := mkOrchestration plan (s_local s) (s_offloaded s) (Z.of_nat c) (Z.of_nat f) (Z.of_nat fb)
                          (duration_cast_us (se_end e - se_start e)) in
          Some (Ok result, records (ECustom "orchestration_complete" (complete_payload result)) o)
      | _ => None
      end
  end.

(** * Requests from the network *)

Definition handle_offload_request (request : list Z) (e : run_env) (owns_lock : bool) (o : Orchestrator)
  : option (list Z * Orchestrator) :=
  match decode_request request with
  | None => Some (encode_response false 0 0 "Failed to decode request" [], o)
  | Some (id, profile, _) =>
      let o := logs Debug ("Executing offloaded task: " +:+ id) o in
      '(r, o) ← run_task id profile e o;
      let success := bool_decide (er_final_state r = Completed) in
      let err := default "" (er_error_message r) in
      let response := encode_response success (er_actual_duration r) (er_peak_memory_bytes r) err [] in
      let o := records (ETask id (er_final_state r) (er_actual_duration r)) o in
      Some (response, try_reset_arena owns_lock o)
  end.

Definition handle_workload_submission (request : list Z) (e : submit_env) (o : Orchestrator)
  : option (list Z * Orchestrator) :=
  let '(ok, workload_id, dag) := decode_submission request "" empty_dag in
  if negb ok then
    Some (encode_workload_result workload_id false "Invalid workload submission" empty_result, o)
  else
    let o := logs Info ("Workload '" +:+ workload_id +:+ "' received (" +:+ pretty (task_count dag)
                          +:+ " tasks)") o in
    '(result, o) ← submit_workload e dag o;
    Some (match result with
          | Err er => encode_workload_result workload_id false (message er) empty_result
          | Ok r => encode_workload_result workload_id true "" r
          end, o).

(** What serving one message observes. *)
Record message_env := mkMessageEnv { me_run : run_env; me_owns_lock : bool; me_submit : submit_env }.

Definition handle_message (request : list Z) (e : message_env) (o : Orchestrator)
  : option (list Z * Orchestrator) :=
  match classify request with
  | KindOffloadRequest => handle_offload_request request (me_run e) (me_owns_lock e) o
  | KindWorkloadSubmission => handle_workload_submission request (me_submit e) o
  | _ =>
      Some (encode_response false 0 0 "Unsupported message type" [],
            logs Warn ("Received unsupported message (" +:+ pretty (length request) +:+ " bytes)") o)
  end.
End submit.
