(* ===== verification/OrchestratorTheorems.v ===== *)
(** What a submitted workload can rely on: the plan covers the DAG, the counters add up
    under every interleaving of the jobs with the polling thread, the call returns, and a
    task or a DAG sent to another node is answered with what happened there. *)

From Stdlib Require Import ZArith Lia.
From stdpp Require Import base gmap strings relations numbers pretty list.
From S2P Require Import Prelude Float32 Core Dag Kahn Cycle Metrics DagTheorems Config MemoryPool TaskRunner.
From S2P Require Import Scheduler Greedy Threshold Optimizer OptimizerTheorems Codec CodecTheorems Transport Cluster.
From S2P Require Import Discovery Telemetry Monitor MonitorTheorems Orchestrator.

Local Open Scope Z_scope.

(** * The policy *)

#[export] Instance create_policy_laws {IO : IterOrder} {SS : StdSort} {R : Rng} c :
  SchedulingPolicyLaws (create_policy c).
Proof. unfold create_policy. repeat case_decide; apply _. Qed.

(** * Dispatch *)

Definition decision_job (self : NodeId) (dag : WorkloadDAG) (x : SchedulingDecision) : option job :=
  task ← get_task dag (dec_task x);
  Some (mkJob (dec_task x) (task_profile task)
          (if decide (assigned_node x = self) then None else Some (assigned_node x))).

Definition is_local (j : job) : Prop := j_target j = None.

#[export] Instance is_local_dec j : Decision (is_local j).
Proof. unfold is_local. apply _. Defined.

Definition locals (js : list job) : nat := length (filter is_local js).

Lemma locals_app js ks : locals (js ++ ks) = (locals js + locals ks)%nat.
Proof. unfold locals. by rewrite filter_app, length_app. Qed.

Lemma locals_le js : (locals js <= length js)%nat.
Proof. apply length_filter. Qed.

Lemma locals_snoc js j : (locals (js ++ [j]) = locals js + if decide (is_local j) then 1 else 0)%nat.
Proof. rewrite locals_app. unfold locals at 2. rewrite filter_cons. by case_decide. Qed.

Section plan.
Context {IO : IterOrder} {SS : StdSort} {R : Rng}.

(** The condition discovery maintains ([DiscoveryTheorems.view_fits_scheduler]). *)
Definition cluster_ok (o : Orchestrator) : Prop :=
  peers_keyed (cluster_mgr_ o) /\ cluster_mgr_ o !! node_id o = None.

Definition task_report (e : event) : option TaskId :=
  match e with ETask id _ _ => Some id | _ => None end.

Definition task_reports (o : Orchestrator) : list TaskId := omap task_report (metric_events o).

Lemma task_reports_records e o :
  task_reports (records e o) = task_reports o ++ option_list (task_report e).
Proof. unfold task_reports, records. cbn [metric_events]. rewrite omap_app. by destruct e. Qed.

(** Every decision about a task of the DAG becomes a job for it. *)
Lemma jobs_of_known self dag (ds : list SchedulingDecision) : (forall x, x ∈ ds -> known dag (dec_task x)) ->
  j_id <$> omap (decision_job self dag) ds = dec_task <$> ds.
Proof.
  induction ds as [|x ds IH]; intros Hk; [done|]. csimpl. unfold decision_job at 1, get_task.
  destruct (Hk x) as [t Ht]; [by left|]. rewrite Ht. cbn [mbind option_bind]. csimpl.
  rewrite IH; [done|]. intros y Hy. apply Hk. by right.
Qed.

Lemma make_plan_known now dag snap o x : closed dag ->
  x ∈ decisions (make_plan now dag snap o) -> known dag (dec_task x).
Proof.
  intros Hc Hx. apply topological_order_known; [done|].
  rewrite <- (schedule_complete (P := create_policy (config_ o)) now dag snap (snapshot (cluster_mgr_ o)) Hc).
  by apply list_elem_of_fmap_2.
Qed.

Lemma make_plan_length now dag snap o : closed dag -> is_valid dag = true ->
  length (decisions (make_plan now dag snap o)) = task_count dag.
Proof.
  intros Hc Hv. rewrite <- (length_fmap dec_task). unfold make_plan.
  rewrite (schedule_complete (P := create_policy (config_ o)) now dag snap (snapshot (cluster_mgr_ o)) Hc).
  apply topological_order_length; [done|]. by apply valid_closed_acyclic.
Qed.

(** The jobs of a plan. *)
Lemma planned_jobs now dag snap o : closed dag -> is_valid dag = true ->
  let plan := make_plan now dag snap o in
  let js := omap (decision_job (node_id o) dag) (decisions plan) in
  j_id <$> js ≡ₚ topological_order dag /\ length js = task_count dag /\
  length (decisions plan) = task_count dag.
Proof.
  intros Hc Hv plan js. pose proof (make_plan_length now dag snap o Hc Hv) as Hlen. fold plan in Hlen.
  assert (j_id <$> js = dec_task <$> decisions plan) as E.
  { apply jobs_of_known. intros x. by apply make_plan_known. }
  split_and!; [|by rewrite <- (length_fmap j_id), E, length_fmap|done].
  rewrite E. by apply (schedule_complete (P := create_policy (config_ o))).
Qed.

End plan.

(** * The counters of a submission *)

Definition is_finished (st : job_state) : bool := match st with Finished _ _ _ => true | _ => false end.

(** The task event of a job is in the metrics. *)
Definition reported_id (st : job_state) : option TaskId :=
  match st with Reported j _ _ _ | Finished j _ _ => Some (j_id j) | _ => None end.

Definition succeeded (st : job_state) : nat := match st with Finished _ true _ => 1 | _ => 0 end.
Definition went_wrong (st : job_state) : nat := match st with Finished _ false _ => 1 | _ => 0 end.
Definition fell_back (st : job_state) : nat :=
  match st with FallingBack _ | Ran _ _ _ true | Reported _ _ _ true | Finished _ _ true => 1 | _ => 0 end.

(** The job has a peer to go to. *)
Definition went_out (st : job_state) : bool :=
  match st with
  | RoundTripped _ _ _ | Warned _ _ | Noted _ | FallingBack _ => true
  | Ran _ _ _ fb | Reported _ _ _ fb | Finished _ _ fb => fb
  | Queued _ => false
  end.

(** What a step of a job may change: it does not lose its report, and is counted last. *)
Record job_move (st st' : job_state) : Prop := {
  mv_job : job_of st' = job_of st;
  mv_open : is_finished st = false;
  mv_report : forall id, reported_id st = Some id -> reported_id st' = Some id;
  mv_out : went_out st' = true -> ~ is_local (job_of st)
}.

(** The report a step adds. *)
Definition new_report (st st' : job_state) : list TaskId :=
  match reported_id st with Some _ => [] | None => option_list (reported_id st') end.

Lemma omap_move (jobs : list job_state) i st st' : jobs !! i = Some st -> job_move st st' ->
  omap reported_id (<[i := st']> jobs) ≡ₚ omap reported_id jobs ++ new_report st st'.
Proof.
  intros Hi Hm. pose proof (lookup_lt_Some _ _ _ Hi). rewrite insert_take_drop by done.
  rewrite <- (take_drop_middle jobs i st Hi) at 3. rewrite !omap_app. csimpl. unfold new_report.
  pose proof (mv_report _ _ Hm) as Hr. destruct (reported_id st) as [id|].
  - rewrite (Hr id eq_refl), app_nil_r. done.
  - destruct (reported_id st') as [id|]; cbn [option_list]; [|by rewrite app_nil_r].
    rewrite <- Permutation_middle. apply Permutation_cons_append.
Qed.

(** The decisions still to be dispatched. *)
Definition undispatched (w : wait_pc) : list SchedulingDecision :=
  match w with WDispatch ds => ds | WSubmit x _ ds => x :: ds | _ => [] end.

Definition dispatched (w : wait_pc) : bool :=
  match w with WDispatch _ | WSubmit _ _ _ => false | _ => true end.

Lemma dispatched_all w : dispatched w = true -> undispatched w = [].
Proof. by destruct w. Qed.

(** The task about to be submitted is the one the decision is about. *)
Definition task_in_hand (dag : WorkloadDAG) (w : wait_pc) : Prop :=
  match w with WSubmit x t _ => get_task dag (dec_task x) = Some t | _ => True end.

(** What the polling thread has read is no more than what has happened, and once it has
    left the loop because the count was reached nothing moves any more. *)
Definition waiter_ok (total completed failed fallbacks : nat) (w : wait_pc) : Prop :=
  match w with
  | WDispatch _ | WSubmit _ _ _ | WTest => True
  | WLoaded c => (c <= completed)%nat
  | WLeft b => b = false -> (total <= completed + failed)%nat
  | WGotCompleted b c => (c <= completed)%nat /\ (b = false -> (total <= c + failed)%nat)
  | WGotFailed b c f => (c <= completed /\ f <= failed)%nat /\ (b = false -> (total <= c + f)%nat)
  | WDone b c f fb => (c <= completed /\ f <= failed /\ fb <= fallbacks)%nat /\
                      (b = false -> (total <= c + f)%nat /\ fb = fallbacks)
  end.

Record sub_inv (self : NodeId) (dag : WorkloadDAG) (js : list job) (base : list TaskId) (s : submission) : Prop := {
  inv_jobs : (job_of <$> s_jobs s) ++ omap (decision_job self dag) (undispatched (s_waiter s)) = js;
  inv_task : task_in_hand dag (s_waiter s);
  inv_self : node_id (s_orch s) = self;
  inv_local : s_local s = Z.of_nat (locals (job_of <$> s_jobs s));
  inv_offloaded : s_offloaded s = Z.of_nat (length (s_jobs s) - locals (job_of <$> s_jobs s));
  inv_completed : s_completed s = sum_list_with succeeded (s_jobs s);
  inv_failed : s_failed s = sum_list_with went_wrong (s_jobs s);
  inv_fallbacks : s_fallbacks s = sum_list_with fell_back (s_jobs s);
  inv_remote : Forall (fun st => went_out st = true -> ~ is_local (job_of st)) (s_jobs s);
  inv_reports : exists ran, task_reports (s_orch s) = base ++ ran /\ ran ≡ₚ omap reported_id (s_jobs s);
  inv_waiter : waiter_ok (length js) (s_completed s) (s_failed s) (s_fallbacks s) (s_waiter s)
}.

Lemma counts_reported jobs :
  (sum_list_with succeeded jobs + sum_list_with went_wrong jobs <= length (omap reported_id jobs) <= length jobs)%nat.
Proof. induction jobs as [|[| | | | | | |? [] ?] jobs IH]; csimpl; lia. Qed.

(** A job that has not been counted leaves room in the two counts. *)
Lemma open_leaves_room jobs i st : jobs !! i = Some st -> is_finished st = false ->
  (sum_list_with succeeded jobs + sum_list_with went_wrong jobs < length jobs)%nat.
Proof.
  intros Hi Ho. rewrite <- (take_drop_middle jobs i st Hi), !sum_list_with_app, length_app. cbn [sum_list_with length].
  pose proof (counts_reported (take i jobs)). pose proof (counts_reported (drop (S i) jobs)).
  destruct st; try done; cbn; lia.
Qed.

Lemma reported_sublist jobs : omap reported_id jobs `sublist_of` j_id ∘ job_of <$> jobs.
Proof. induction jobs as [|[] jobs IH]; csimpl; by constructor. Qed.

(** The polling thread's readings stay true when a counter goes up while a job is open. *)
Lemma waiter_ok_mono total c f fb c' f' fb' w :
  (c + f < total)%nat -> (c <= c' /\ f <= f' /\ fb <= fb')%nat ->
  waiter_ok total c f fb w -> waiter_ok total c' f' fb' w.
Proof.
  intros Hlt Hle. destruct w as [| | |k|b|b k|b k l|b k l m]; simpl; [done|done|done|lia| | | |];
    destruct b; intros H; intuition (try discriminate; lia).
Qed.

(** The jobs after one of them moved. *)
Lemma moved_jobs (jobs : list job_state) i st st' : jobs !! i = Some st -> job_of st' = job_of st ->
  job_of <$> <[i := st']> jobs = job_of <$> jobs.
Proof.
  intros Hi E. rewrite list_fmap_insert, E. apply list_insert_id. by rewrite list_lookup_fmap, Hi.
Qed.

(** One job takes a step. *)
Lemma job_move_inv self dag js base s i st st' o c f fb :
  sub_inv self dag js base s -> s_jobs s !! i = Some st -> job_move st st' ->
  node_id o = node_id (s_orch s) -> task_reports o = task_reports (s_orch s) ++ new_report st st' ->
  c = (s_completed s + succeeded st')%nat -> f = (s_failed s + went_wrong st')%nat ->
  (fb + fell_back st = s_fallbacks s + fell_back st')%nat -> (fell_back st <= fell_back st')%nat ->
  sub_inv self dag js base (mkSubmission' o (<[i := st']> (s_jobs s)) (s_local s) (s_offloaded s) c f fb (s_waiter s)).
Proof.
  intros [Hj Ht Hs Hl Hof Hc Hf Hb Hrem (ran & Hr & Hp) Hw] Hi Hm Hid Hrep -> -> Hfb Hle.
  pose proof (open_leaves_room _ _ _ Hi (mv_open _ _ Hm)) as Hroom.
  pose proof (moved_jobs _ _ _ _ Hi (mv_job _ _ Hm)) as Emv.
  assert (length (s_jobs s) <= length js)%nat by (rewrite <- Hj, length_app, length_fmap; lia).
  pose proof (sum_list_with_insert succeeded _ i st st' Hi) as Ec.
  pose proof (sum_list_with_insert went_wrong _ i st st' Hi) as Ef.
  pose proof (sum_list_with_insert fell_back _ i st st' Hi) as Eb.
  assert (succeeded st = 0 /\ went_wrong st = 0)%nat as [E1 E2] by (pose proof (mv_open _ _ Hm); by destruct st).
  split; cbn [s_orch s_jobs s_local s_offloaded s_completed s_failed s_fallbacks s_waiter]; rewrite ?Emv, ?length_insert;
    try done; try lia.
  - congruence.
  - apply Forall_insert; [done|]. rewrite (mv_job _ _ Hm). apply Hm.
  - exists (ran ++ new_report st st'). rewrite Hrep, Hr, (assoc_L (++)). split; [done|]. by rewrite (omap_move _ i st), Hp.
  - eapply waiter_ok_mono, Hw; lia.
Qed.

(** Closes the side conditions of [job_move_inv] for a given step. *)
Ltac move_job Hinv Hi :=
  eapply job_move_inv; [exact Hinv|exact Hi|split; try done|..]; try done;
  rewrite ?task_reports_records; cbn; rewrite ?app_nil_r; try done; try lia.

Lemma task_step_inv self dag js base i e s s' :
  sub_inv self dag js base s -> task_step i e s = Some s' -> sub_inv self dag js base s'.
Proof.
  intros Hinv. unfold task_step, run_task.
  destruct (s_jobs s !! i) as [st|] eqn:Hi; [|done].
  pose proof (Forall_lookup_1 _ _ _ _ (inv_remote _ _ _ _ _ Hinv) Hi) as Hrem.
  destruct st as [j| | | |j| | |]; try done; [destruct (j_target j); [done|]|];
    (destruct (execute _ _ _ _) as [[r p]|]; [|done]); intros [= <-]; move_job Hinv Hi.
Qed.

Lemma job_step_inv self dag js base i s s' :
  sub_inv self dag js base s -> job_step i s = Some s' -> sub_inv self dag js base s'.
Proof.
  intros Hinv. unfold job_step. destruct (s_jobs s !! i) as [st|] eqn:Hi; [|done].
  pose proof (Forall_lookup_1 _ _ _ _ (inv_remote _ _ _ _ _ Hinv) Hi) as Hrem.
  destruct st as [j|j t oc|j t|j|j|j st d fb|j st [w|] fb|j ok fb]; try done.
  1: destruct (transport_ok oc).
  all: intros [= <-]; move_job Hinv Hi; case_bool_decide; lia.
Qed.

(** The calling thread does not touch the jobs while it polls. *)
Lemma with_waiter_inv self dag js base s w : sub_inv self dag js base s ->
  omap (decision_job self dag) (undispatched w) = omap (decision_job self dag) (undispatched (s_waiter s)) -> task_in_hand dag w ->
  waiter_ok (length js) (s_completed s) (s_failed s) (s_fallbacks s) w ->
  sub_inv self dag js base (with_waiter s w).
Proof. intros [] Hp Ht Hw. split; try done. cbn [with_waiter s_jobs s_waiter]. by rewrite Hp. Qed.

Lemma with_orch_inv self dag js base s o : sub_inv self dag js base s ->
  node_id o = node_id (s_orch s) -> task_reports o = task_reports (s_orch s) -> sub_inv self dag js base (with_orch s o).
Proof. intros [] Hi Hr. split; try done; cbn [s_orch with_orch]; [congruence|by rewrite Hr]. Qed.

(** A job is handed over. *)
Lemma submit_job_inv self dag js base s x t ds : sub_inv self dag js base s -> s_waiter s = WSubmit x t ds ->
  sub_inv self dag js base (submit_job (node_id (s_orch s)) x t ds s).
Proof.
  intros [Hj Ht Hs Hl Hof Hc Hf Hb Hrem (ran & Hr & Hp) Hw] Ew. rewrite Ew in Hj, Ht, Hw. rewrite Hs.
  cbn [undispatched task_in_hand] in Hj, Ht. unfold submit_job. set (j := mkJob _ _ _). csimpl in Hj.
  assert (decision_job self dag x = Some j) as Ej.
  { unfold decision_job. rewrite Ht. unfold j. cbn. by case_bool_decide; case_decide. }
  rewrite Ej in Hj.
  assert (is_local j <-> assigned_node x = self) as Hloc by (unfold is_local, j; case_bool_decide; naive_solver).
  pose proof (locals_le (job_of <$> s_jobs s)) as Hle. rewrite length_fmap in Hle.
  split; cbn [s_orch s_jobs s_local s_offloaded s_completed s_failed s_fallbacks s_waiter undispatched task_in_hand waiter_ok];
    rewrite ?fmap_app, ?sum_list_with_app, ?omap_app, ?length_app; cbn [fmap list_fmap job_of sum_list_with length];
    rewrite ?locals_snoc; try done.
  - by rewrite <- (assoc_L (++)).
  - case_bool_decide; case_decide; naive_solver lia.
  - case_bool_decide; case_decide; naive_solver lia.
  - cbn. lia.
  - cbn. lia.
  - cbn. lia.
  - apply Forall_app_2; [done|]. by constructor.
  - exists ran. split; [done|]. csimpl. by rewrite app_nil_r.
Qed.

Lemma caller_step_inv self dag js base deadline now s s' : sub_inv self dag js base s ->
  caller_step dag (length js) deadline now s = Some s' -> sub_inv self dag js base s'.
Proof.
  intros Hinv. unfold caller_step. pose proof (inv_waiter _ _ _ _ _ Hinv) as Hw.
  destruct (s_waiter s) as [[|x ds]|x t ds| |k|b|b k|b k l|b k l m] eqn:Ew; try done.
  - intros [= <-]. apply with_waiter_inv; rewrite ?Ew; done.
  - destruct (get_task dag (dec_task x)) as [t|] eqn:Et; intros [= <-].
    + apply with_waiter_inv; try done.
      * apply with_orch_inv; [done|done|]. rewrite task_reports_records. apply app_nil_r.
      * cbn [with_orch s_waiter]. by rewrite Ew.
    + apply with_waiter_inv; try done. rewrite Ew. csimpl. unfold decision_job at 2. by rewrite Et.
  - intros [= <-]. by apply submit_job_inv.
  - intros [= <-]. apply with_waiter_inv; rewrite ?Ew; try done. cbn. lia.
  - intros [= <-]. apply with_waiter_inv; rewrite ?Ew; [done|by repeat case_match..|].
    cbn in Hw. case_decide; [by destruct (now <? deadline)|]. cbn. intros _. lia.
  - intros [= <-]. apply with_waiter_inv; rewrite ?Ew; done.
  - intros [= <-]. apply with_waiter_inv; rewrite ?Ew; try done; cbn in Hw |- *; intuition lia.
  - intros [= <-]. apply with_waiter_inv; rewrite ?Ew; try done; cbn in Hw |- *; intuition lia.
Qed.

Section accounting.
Context {PB : Protobuf} (strerror : Z -> string).

Lemma offload_step_inv self dag js base i e s s' :
  sub_inv self dag js base s -> offload_step strerror i e s = Some s' -> sub_inv self dag js base s'.
Proof.
  intros Hinv. unfold offload_step. destruct (s_jobs s !! i) as [[j| | | | | | |]|] eqn:Hi; try done.
  destruct (j_target j) as [t|] eqn:Hj; [|done]. cbn [mbind option_bind].
  destruct (offload_to_peer _ _ _ _ _ _) as [out|]; [|done]. intros [= <-].
  move_job Hinv Hi. intros _. unfold is_local. cbn. congruence.
Qed.

Lemma sub_next_inv self dag js base deadline ev s s' : sub_inv self dag js base s ->
  sub_next strerror dag (length js) deadline ev s = Some s' -> sub_inv self dag js base s'.
Proof.
  intros Hinv. destruct ev as [now|i e|i e|i|found peer]; cbn [sub_next].
  - by apply caller_step_inv.
  - by apply task_step_inv.
  - by apply offload_step_inv.
  - by apply job_step_inv.
  - intros [= <-]. apply with_orch_inv; [done|by destruct found|].
    destruct found; unfold on_discovered, on_lost; rewrite task_reports_records; apply app_nil_r.
Qed.

Lemma sub_run_inv self dag js base deadline evs s s' : sub_inv self dag js base s ->
  sub_run strerror dag (length js) deadline evs s = Some s' -> sub_inv self dag js base s'.
Proof.
  revert s. induction evs as [|ev evs IH]; intros s Hinv; cbn [sub_run]; [by intros [= <-]|].
  destruct (sub_next _ _ _ _ _ _) as [s1|] eqn:E; [|done]. cbn [mbind option_bind].
  apply IH. by eapply sub_next_inv.
Qed.

(** A submission about to be dispatched. *)
Lemma new_submission_inv dag plan o :
  sub_inv (node_id o) dag (omap (decision_job (node_id o) dag) (decisions plan)) (task_reports o) (new_submission plan o).
Proof. split; try done. exists []. by rewrite app_nil_r. Qed.

(** ** Why the polling thread left *)

Definition timed_out (w : wait_pc) : bool :=
  match w with
  | WLeft b | WGotCompleted b _ | WGotFailed b _ _ | WDone b _ _ _ => b
  | _ => false
  end.

Definition timely (deadline : Z) (ev : sub_event) : Prop :=
  match ev with EvCaller now => now < deadline | _ => True end.

#[export] Instance timely_dec deadline ev : Decision (timely deadline ev).
Proof. destruct ev; simpl; apply _. Defined.

(** Jobs leave the calling thread alone. *)
Lemma job_event_waiter dag total deadline ev s s' : (forall now, ev <> EvCaller now) ->
  sub_next strerror dag total deadline ev s = Some s' -> s_waiter s' = s_waiter s.
Proof.
  intros Hev. destruct ev as [now|i e|i e|i|found peer]; cbn [sub_next]; [by destruct (Hev now)|..|by intros [= <-]].
  - unfold task_step. destruct (s_jobs s !! i) as [[]|]; try done; [destruct (j_target _); [done|]|];
      (destruct (run_task _ _ _ _) as [[]|]; [|done]); by intros [= <-].
  - unfold offload_step. destruct (s_jobs s !! i) as [[]|]; try done. destruct (j_target _); [|done].
    cbn [mbind option_bind]. destruct (offload_to_peer _ _ _ _ _ _); [|done]. by intros [= <-].
  - unfold job_step. destruct (s_jobs s !! i) as [[| ? ? oc| | | | | ? ? [] ?|]|]; try done; try (by intros [= <-]).
    destruct (transport_ok oc); by intros [= <-].
Qed.

Lemma sub_next_timely dag total deadline ev s s' : timely deadline ev ->
  timed_out (s_waiter s) = false -> sub_next strerror dag total deadline ev s = Some s' ->
  timed_out (s_waiter s') = false.
Proof.
  intros Ht Hw. destruct ev as [now|i e|i e|i|found peer]; [|by intros ->%job_event_waiter..].
  cbn [sub_next]. unfold caller_step. simpl in Ht.
  destruct (s_waiter s) as [[|x ds]|x t ds| | | | | |]; try (intros [= <-]; done); try done.
  - destruct (get_task dag _); by intros [= <-].
  - intros [= <-]. cbn [s_waiter with_waiter]. case_decide; [|done]. by rewrite (proj2 (Z.ltb_lt _ _)).
Qed.

Lemma sub_run_timely dag total deadline evs s s' : Forall (timely deadline) evs ->
  timed_out (s_waiter s) = false -> sub_run strerror dag total deadline evs s = Some s' ->
  timed_out (s_waiter s') = false.
Proof.
  revert s. induction evs as [|ev evs IH]; intros s Ht Hw; cbn [sub_run]; [by intros [= <-]|].
  apply Forall_cons in Ht as [Hev Ht]. destruct (sub_next _ _ _ _ _ _) as [s1|] eqn:E; [|done].
  cbn [mbind option_bind]. apply IH; [done|]. by eapply sub_next_timely.
Qed.

(** The jobs that fell back are among the offloaded ones. *)
Lemma fallbacks_le_remote jobs :
  Forall (fun st => went_out st = true -> ~ is_local (job_of st)) jobs ->
  (sum_list_with fell_back jobs <= length jobs - locals (job_of <$> jobs))%nat.
Proof.
  induction 1 as [|st jobs Hst _ IH]; [simpl; lia|]. cbn [fmap list_fmap sum_list_with length].
  pose proof (locals_le (job_of <$> jobs)) as Hle. rewrite length_fmap in Hle.
  assert (fell_back st <= 1 /\ (fell_back st = 1 -> went_out st = true))%nat as [H1 H2]
    by (destruct st as [| | | | |? ? ? []|? ? ? []|? ? []]; simpl; split; try done; lia).
  unfold locals in *. rewrite filter_cons. case_decide as Hl; cbn [length]; [|lia].
  assert (fell_back st <> 1%nat) by (intros E; by apply Hst; [apply H2|]). lia.
Qed.
End accounting.

Lemma NoDup_submseteq_1 {A} (l k : list A) : l ⊆+ k -> NoDup k -> NoDup l.
Proof. intros [k' ->]%submseteq_Permutation [? _]%NoDup_app. done. Qed.

Section submit_theorems.
Context {PB : Protobuf} (strerror : Z -> string) {IO : IterOrder} {SS : StdSort} {R : Rng}.

(** The state of a call after the given events. *)
Definition call_state (e : submit_env) (dag : WorkloadDAG) (snap : ResourceSnapshot) (evs : list sub_event)
    (o : Orchestrator) : option submission :=
  let o := with_discovery o (update_local_resources snap (discovery_ o)) in
  let plan := make_plan (se_now e) dag snap o in
  sub_run strerror dag (length (decisions plan)) (deadline_of e) evs (new_submission plan o).

Lemma call_state_inv e dag snap evs o s : closed dag -> is_valid dag = true ->
  call_state e dag snap evs o = Some s ->
  let js := omap (decision_job (node_id o) dag) (decisions (make_plan (se_now e) dag snap o)) in
  sub_inv (node_id o) dag js (task_reports o) s /\ j_id <$> js ≡ₚ topological_order dag /\ length js = task_count dag.
Proof.
  intros Hc Hv. unfold call_state. cbv zeta.
  change (make_plan (se_now e) dag snap _) with (make_plan (se_now e) dag snap o).
  set (o1 := with_discovery _ _). set (plan := make_plan _ _ _ _).
  destruct (planned_jobs (se_now e) dag snap o Hc Hv) as (Hp & Hlen & Hlen'). fold plan in Hp, Hlen, Hlen'.
  set (js := omap (decision_job (node_id o) dag) (decisions plan)) in *.
  intros Hrun. split_and!; [|done|done].
  rewrite Hlen', <- Hlen in Hrun. eapply sub_run_inv; [|exact Hrun]. apply (new_submission_inv dag plan o1).
Qed.

Lemma call_state_timely e dag snap evs o s : Forall (timely (deadline_of e)) evs ->
  call_state e dag snap evs o = Some s -> timed_out (s_waiter s) = false.
Proof. intros Ht. unfold call_state. cbv zeta. by apply sub_run_timely. Qed.

(** [submit_workload] is the call state plus the report. *)
Lemma submit_workload_unfold e dag o snap : se_snapshot e = Ok snap ->
  submit_workload strerror e dag o =
  s ← call_state e dag snap (se_events e) o;
  match s_waiter s with
  | WDone _ c f fb =>
      let result := mkOrchestration (make_plan (se_now e) dag snap o) (s_local s) (s_offloaded s)
                      (Z.of_nat c) (Z.of_nat f) (Z.of_nat fb) (duration_cast_us (se_end e - se_start e)) in
      Some (Ok result, records (ECustom "orchestration_complete" (complete_payload result))
                         (try_reset_arena (se_owns_lock e) (s_orch s)))
  | _ => None
  end.
Proof. intros Hs. unfold submit_workload, call_state. by rewrite Hs. Qed.

(** C2: the work of a submission is complete and feasible.  For a valid DAG whose
    dependencies are all tasks of it, a cluster view that files every peer under its own id
    and not this node, and every configured policy: once the dispatch loop is over, whatever the jobs have done
    meanwhile, each task has become exactly one job; a job
    runs here or on a reachable peer whose endpoint can be looked up; the two counts reported
    add up to the number of tasks; and if the tasks' memory sums to less than [2^64] bytes, no
    peer is asked for more memory than it advertised.  The snapshot comes from any monitor
    that keeps the contract of [ResourceMonitorLike]. *)
Theorem submission_covers_workload {M} {RM : ResourceMonitorLike M} {RL : ResourceMonitorLaws M}
    (mon mon' : M) at_ e dag snap o evs s :
  closed dag -> is_valid dag = true -> cluster_ok o ->
  monitor_ok (node_id o) mon -> monitor_read at_ mon = (Ok snap, mon') ->
  call_state e dag snap evs o = Some s -> dispatched (s_waiter s) = true ->
  (j_id ∘ job_of <$> s_jobs s) ≡ₚ (iter (tasks_ dag)).*1 /\
  s_local s + s_offloaded s = Z.of_nat (task_count dag) /\
  (forall st t, st ∈ s_jobs s -> j_target (job_of st) = Some t ->
     exists p, peer_info (cluster_mgr_ o) t = Some p /\ peer_node_id p = t) /\
  (mems_nonneg dag -> sumZ (mem_of dag) (topological_order dag) < 2 ^ 64 ->
   forall p, p ∈ peers (snapshot (cluster_mgr_ o)) -> is_u64 (memory_available_bytes (peer_resources p)) ->
     load (mem_of dag) (peer_node_id p) (decisions (make_plan (se_now e) dag snap o))
       <= memory_available_bytes (peer_resources p)).
Proof.
  intros Hc Hv [Hk Hself] Hmon Hread Hcs Hd. assert (snap_node_id snap = node_id o) as Hid.
  { pose proof (monitor_read_ok (node_id o) at_ mon Hmon) as H. rewrite Hread in H. by apply H. }
  destruct (call_state_inv _ _ _ _ _ _ Hc Hv Hcs) as ([Hj _ _ Hl Hof _ _ _ _ _ _] & Hp & Hlen).
  rewrite (dispatched_all _ Hd) in Hj. csimpl in Hj. rewrite app_nil_r in Hj. rewrite Hj in Hl, Hof.
  assert (length (s_jobs s) = task_count dag) as Hn by (by rewrite <- Hlen, <- Hj, length_fmap).
  split_and!.
  - rewrite list_fmap_compose, Hj. by rewrite Hp, (valid_closed_perm dag Hc Hv).
  - pose proof (locals_le (omap (decision_job (node_id o) dag) (decisions (make_plan (se_now e) dag snap o)))). lia.
  - intros st t Hst. apply (list_elem_of_fmap_2 job_of) in Hst. rewrite Hj in Hst.
    apply list_elem_of_omap in Hst as (x & Hx & Ejx).
    unfold decision_job in Ejx. destruct (get_task dag (dec_task x)); [|done]. simplify_eq/=. rewrite <- Ejx. cbn.
    case_decide as Hne; [done|]. intros [= <-].
    destruct (node_ids_resolve (cluster_mgr_ o) snap (assigned_node x) Hk) as [E|?]; [|congruence|done].
    by apply (schedule_nodes (P := create_policy (config_ o))) in Hx.
  - intros Hm Ht p Hpp Hu. apply (schedule_peer_memory (P := create_policy (config_ o))); try done.
    + apply snapshot_node_ids_distinct; [done|by rewrite Hid].
    + by rewrite snapshot_all_reachable.
Qed.

Lemma task_reports_reset b o : task_reports (try_reset_arena b o) = task_reports o.
Proof. by destruct b. Qed.

(** The report [r] of a call that ran the tasks [ran], cut short by the deadline or not. *)
Record accounted (dag : WorkloadDAG) (in_time : Prop) (r : OrchestrationResult) (ran : list TaskId) : Prop := {
  acc_once : NoDup ran;
  acc_ours : ran ⊆+ topological_order dag;
  acc_total : local_tasks r + offloaded_tasks r = Z.of_nat (task_count dag);
  acc_fallbacks : 0 <= offload_fallbacks r <= offloaded_tasks r;
  acc_nonneg : 0 <= completed_tasks r /\ 0 <= failed_tasks r;
  acc_le : completed_tasks r + failed_tasks r <= Z.of_nat (length ran);
  acc_all : in_time -> ran ≡ₚ topological_order dag /\
              completed_tasks r + failed_tasks r = Z.of_nat (task_count dag)
}.

Lemma submit_workload_accounted e dag o r o' :
  closed dag -> is_valid dag = true -> submit_workload strerror e dag o = Some (Ok r, o') ->
  exists ran, task_reports o' = task_reports o ++ ran /\
    accounted dag (Forall (timely (deadline_of e)) (se_events e)) r ran.
Proof.
  intros Hc Hv Hsub. destruct (se_snapshot e) as [snap|] eqn:Hsnap;
    [|unfold submit_workload in Hsub; by rewrite Hsnap in Hsub].
  rewrite (submit_workload_unfold e dag o snap Hsnap) in Hsub.
  destruct (call_state e dag snap (se_events e) o) as [s|] eqn:Hcs; [|done]. cbn [mbind option_bind] in Hsub.
  destruct (call_state_inv _ _ _ _ _ _ Hc Hv Hcs) as (Hinv & Hp & Hlen). set (js := omap _ _) in *.
  destruct Hinv as [Hjs _ _ Il Io Ic If Ib Hrem (ran & Hr & Hran) Hw].
  destruct (s_waiter s) as [| | | | | | |b c f fb] eqn:Ew; try done. injection Hsub as <- <-.
  csimpl in Hjs. rewrite app_nil_r in Hjs. rewrite Hjs in Il, Io.
  destruct Hw as ((H1 & H2 & H3) & H4). pose proof (locals_le js) as Hle.
  pose proof (fallbacks_le_remote _ Hrem) as Hfb. rewrite Hjs in Hfb.
  assert (length (s_jobs s) = length js) as Hlj by (by rewrite <- Hjs, length_fmap).
  pose proof (counts_reported (s_jobs s)) as Hcf. rewrite <- Hran in Hcf.
  exists ran. rewrite task_reports_records, task_reports_reset, app_nil_r.
  assert (ran ⊆+ topological_order dag) as Hsm.
  { rewrite Hran, <- Hp, <- Hjs, <- list_fmap_compose. apply sublist_submseteq, reported_sublist. }
  destruct (topological_order_spec dag) as (_ & Hnd & _).
  split; [done|]. split; cbn [local_tasks offloaded_tasks offload_fallbacks completed_tasks failed_tasks];
    [by eapply NoDup_submseteq_1|done|lia..|].
  intros Ht. assert (b = false) as ->.
  { pose proof (call_state_timely _ _ _ _ _ _ Ht Hcs) as Hto. by rewrite Ew in Hto. }
  destruct (H4 eq_refl). split; [|lia]. apply submseteq_length_Permutation; [done|].
  rewrite <- Hp, length_fmap. lia.
Qed.

(** C1: what [submit_workload] reports for a valid DAG whose dependencies are all tasks of
    it, whatever the interleaving of the dispatching and polling thread, the jobs and the
    callbacks of discovery.  Local and offloaded counts add up to the number of tasks;
    fallbacks are among the offloaded tasks; every task is run and reported at most once; the
    completed and failed counts never exceed the tasks that ran; and a call that no clock
    reading past the deadline cut short ran and counted every task exactly once. *)
Theorem submission_accounting e dag o r o' :
  closed dag -> is_valid dag = true ->
  submit_workload strerror e dag o = Some (Ok r, o') ->
  exists ran, task_reports o' = task_reports o ++ ran /\
    accounted dag (Forall (timely (deadline_of e)) (se_events e)) r ran.
Proof. apply submit_workload_accounted. Qed.

(** ** The call returns *)

Lemma sub_run_app dag total deadline evs evs' s :
  sub_run strerror dag total deadline (evs ++ evs') s =
  s' ← sub_run strerror dag total deadline evs s; sub_run strerror dag total deadline evs' s'.
Proof.
  revert s. induction evs as [|ev evs IH]; intros s; [done|]. cbn [app sub_run].
  destruct (sub_next _ _ _ _ _ _); [apply IH|done].
Qed.

Definition is_done (w : wait_pc) : bool := match w with WDone _ _ _ _ => true | _ => false end.

(** The steps the dispatch loop still takes at most. *)
Definition dispatch_left (w : wait_pc) : nat :=
  match w with
  | WDispatch ds => 2 * length ds + 1
  | WSubmit _ _ ds => 2 * length ds + 2
  | _ => 0
  end.

(** Left alone, the calling thread hands over every job. *)
Lemma dispatch_ends dag total deadline now s : exists k s', (k <= dispatch_left (s_waiter s))%nat /\
  sub_run strerror dag total deadline (replicate k (EvCaller now)) s = Some s' /\ dispatched (s_waiter s') = true /\
  s_completed s' = s_completed s /\ s_failed s' = s_failed s.
Proof.
  destruct (dispatched (s_waiter s)) eqn:Hd; [by exists 0%nat, s; split_and!; [lia|..]|].
  assert (forall ds s, s_waiter s = WDispatch ds -> exists k s', (k <= 2 * length ds + 1)%nat /\
    sub_run strerror dag total deadline (replicate k (EvCaller now)) s = Some s' /\ dispatched (s_waiter s') = true /\
    s_completed s' = s_completed s /\ s_failed s' = s_failed s) as Hloop.
  { clear s Hd. induction ds as [|x ds IH]; intros s Ew.
    - exists 1%nat, (with_waiter s WTest). split_and!; [cbn; lia| |done..]. cbn [replicate sub_run sub_next].
      unfold caller_step. by rewrite Ew.
    - assert (exists j s1, (j = 1 \/ j = 2)%nat /\ s_waiter s1 = WDispatch ds /\ s_completed s1 = s_completed s /\
        s_failed s1 = s_failed s /\ sub_run strerror dag total deadline (replicate j (EvCaller now)) s = Some s1)
        as (j & s1 & Hj & Ew1 & Ec & Ef & Hrun).
      { pose proof (eq_refl (caller_step dag total deadline now s)) as E. unfold caller_step at 2 in E. rewrite Ew in E.
        destruct (get_task dag (dec_task x)) as [t|]; [set (o := records (EDecision x) (s_orch s)) in E;
          exists 2%nat, (submit_job (node_id o) x t ds (with_waiter (with_orch s o) (WSubmit x t ds)))|
          exists 1%nat, (with_waiter s (WDispatch ds))]; (split_and!; [by auto|done..|]);
          cbn [replicate sub_run sub_next]; by rewrite E. }
      destruct (IH s1 Ew1) as (k & s2 & Hk & Hrun2 & Hd2 & Ec2 & Ef2). exists (j + k)%nat, s2.
      split_and!; [cbn; lia| |done|congruence..]. by rewrite replicate_add, sub_run_app, Hrun. }
  destruct (s_waiter s) as [ds|x t ds| | | | | |] eqn:Ew; try done; [by apply Hloop|].
  destruct (Hloop ds (submit_job (node_id (s_orch s)) x t ds s) eq_refl) as (k & s' & Hk & Hrun & Hd' & Ec & Ef).
  exists (S k), s'. split_and!; [cbn; lia| |done..]. cbn [replicate sub_run sub_next]. unfold caller_step. by rewrite Ew.
Qed.

(** The steps the polling thread still takes when it will not loop again. *)
Definition steps_left (w : wait_pc) : nat :=
  match w with
  | WTest => 5 | WLoaded _ => 4 | WLeft _ => 3 | WGotCompleted _ _ => 2 | WGotFailed _ _ _ => 1 | _ => 0
  end.

(** Left alone, it is done after [steps_left] steps, provided a pending loop test would
    leave the loop. *)
Lemma waiter_leaves dag total deadline now s : dispatched (s_waiter s) = true ->
  (deadline <= now \/ (total <= s_completed s + s_failed s)%nat) ->
  (forall c, s_waiter s = WLoaded c -> deadline <= now \/ (total <= c + s_failed s)%nat) ->
  exists s', sub_run strerror dag total deadline (replicate (steps_left (s_waiter s)) (EvCaller now)) s = Some s' /\
    is_done (s_waiter s') = true.
Proof.
  intros Hd H0 H1. destruct s as [o jobs lo off c f fb w]. cbn [s_waiter s_completed s_failed] in *.
  assert (forall k, (deadline <= now \/ (total <= k + f)%nat) ->
    exists b, (if decide (k + f < total)%nat then if now <? deadline then WTest else WLeft true
               else WLeft false) = WLeft b) as Hleave.
  { intros k [Hk|Hk]; case_decide; try lia; [|eauto..]. rewrite (proj2 (Z.ltb_ge _ _) Hk). eauto. }
  destruct w as [| | |k|b|b k|b k l|b k l m]; try done; cbn -[Z.ltb]; try (eexists; split; [done|done]).
  - destruct (Hleave c H0) as [b Eb]. rewrite Eb. cbn. eexists. by split.
  - destruct (Hleave k (H1 k eq_refl)) as [b Eb]. rewrite Eb. cbn. eexists. by split.
Qed.

(** Whatever it has read so far, six more steps are enough once the jobs are handed over. *)
Lemma waiter_returns dag total deadline now s : dispatched (s_waiter s) = true ->
  (deadline <= now \/ (total <= s_completed s + s_failed s)%nat) ->
  exists k s', (k <= 6)%nat /\ sub_run strerror dag total deadline (replicate k (EvCaller now)) s = Some s' /\
    is_done (s_waiter s') = true.
Proof.
  intros Hd H0. pose (stale c := now < deadline /\ (c + s_failed s < total)%nat).
  assert ((exists c, s_waiter s = WLoaded c /\ stale c) \/ (forall c, s_waiter s = WLoaded c -> ~ stale c))
    as [(c & Ew & Hnow & Hc)|Hn].
  { destruct (s_waiter s) as [| | |c| | | |]; try (by right). unfold stale.
    destruct (decide (now < deadline /\ (c + s_failed s < total)%nat)); [left; eauto|right; naive_solver]. }
  - destruct (waiter_leaves dag total deadline now (with_waiter s WTest)) as (s' & Hrun & Hd'); [done..|].
    exists 6%nat, s'. split_and!; [lia| |done]. rewrite <- Hrun.
    assert (sub_next strerror dag total deadline (EvCaller now) s = Some (with_waiter s WTest)) as E.
    { cbn [sub_next]. unfold caller_step. rewrite Ew, decide_True by done.
      by rewrite (proj2 (Z.ltb_lt now deadline)). }
    cbn [replicate sub_run]. by rewrite E.
  - destruct (waiter_leaves dag total deadline now s) as (s' & Hrun & Hd'); [done|done| |].
    { intros c Ew. specialize (Hn c Ew). unfold stale in Hn. lia. }
    exists (steps_left (s_waiter s)), s'. split_and!; [destruct (s_waiter s); simpl; lia|done|done].
Qed.

(** The same call, observed for longer. *)
Definition followed_by (e : submit_env) (evs : list sub_event) : submit_env :=
  mkSubmitEnv (se_snapshot e) (se_now e) (se_start e) (se_wait_start e) (se_events e ++ evs)
    (se_owns_lock e) (se_end e).

Lemma call_state_and_then e dag o snap evs s : call_state e dag snap (se_events e) o = Some s ->
  call_state (followed_by e evs) dag snap (se_events (followed_by e evs)) o =
  sub_run strerror dag (length (decisions (make_plan (se_now e) dag snap o))) (deadline_of e) evs s.
Proof.
  unfold call_state, followed_by, deadline_of. cbv zeta. cbn [se_now se_wait_start se_events].
  intros Hcs. by rewrite sub_run_app, Hcs.
Qed.

(** C7: [submit_workload] returns.  From whatever state an interleaving has brought the call
    to, once the deadline has passed -- or every task has been counted -- the calling thread
    ends the call with a result after at most six more steps, and, if it is still dispatching,
    the at most two steps per remaining decision that takes; no executor thread can hold it. *)
Theorem submit_workload_returns e dag o snap s now :
  se_snapshot e = Ok snap -> call_state e dag snap (se_events e) o = Some s ->
  deadline_of e <= now \/
    (s_completed s + s_failed s)%nat = length (decisions (make_plan (se_now e) dag snap o)) ->
  exists k r o', (k <= dispatch_left (s_waiter s) + 6)%nat /\
    submit_workload strerror (followed_by e (replicate k (EvCaller now))) dag o = Some (Ok r, o').
Proof.
  intros Hsnap Hcs Hend. set (total := length (decisions (make_plan (se_now e) dag snap o))) in *.
  destruct (dispatch_ends dag total (deadline_of e) now s) as (k1 & s1 & Hk1 & Hrun1 & Hd1 & Ec & Ef).
  destruct (waiter_returns dag total (deadline_of e) now s1 Hd1) as (k2 & s2 & Hk2 & Hrun2 & Hd2);
    [destruct Hend; [by left|right; lia]|].
  exists (k1 + k2)%nat. rewrite (submit_workload_unfold _ dag o snap) by done.
  rewrite (call_state_and_then _ _ _ _ _ s Hcs), replicate_add, sub_run_app. fold total. rewrite Hrun1.
  cbn [mbind option_bind]. rewrite Hrun2. cbn [mbind option_bind].
  destruct (s_waiter s2); try done. eexists _, _. split; [lia|reflexivity].
Qed.
End submit_theorems.

(** * A concrete node *)

#[local] Existing Instance IterCanonical.
#[local] Existing Instance InsertionSort.
#[local] Existing Instance CounterRng.
#[local] Existing Instance BitProtobuf.

Definition sample_config : Config :=
  mkConfig (mkNodeConfig "pi-0" 5201 5200) default_monitor default_executor default_scheduler default_network
    default_telemetry.

(** Node pi-0 after it has discovered two peers. *)
Definition sample_node : Orchestrator :=
  on_discovered (mkPeer "pi-1" (sample_snapshot "pi-1" 20 25 100) "10.0.0.1" 5201 true)
    (on_discovered (mkPeer "pi-3" (sample_snapshot "pi-3" 30 60 100) "10.0.0.3" 5201 true)
       (new_orchestrator sample_config)).

Definition sample_strerror (e : Z) : string := "Connection refused".

(** A run that meets its target, a refused connection and a round trip that works. *)
Definition sample_run : run_env := mkEnv 0 0 [mkTick false 500; mkTick false 20000] 30000 false false.
Definition sample_refused : offload_env := mkOffload (mkConnect 7 0 1 (-1) 111 0 0) [] [] [].
Definition sample_ok : offload_env :=
  mkOffload (mkConnect 7 0 1 0 0 0 0) (replicate 20 (mkIo 1 100 0)) (replicate 20 (mkIo 1 100 0))
    (frame (encode_response true 5 64 "" [])).

(** A job that is answered, and one that falls back. *)
Definition answered (i : nat) : list sub_event := [EvOffload i sample_ok; EvJob i; EvJob i].
Definition falls_back (i : nat) : list sub_event :=
  [EvOffload i sample_refused; EvJob i; EvJob i; EvJob i; EvRun i sample_run; EvJob i; EvJob i].

(** The first job is done before the second is handed over. *)
Definition sample_submit : submit_env :=
  mkSubmitEnv (Ok sample_local) 0 0 0
    (replicate 2 (EvCaller 0) ++ answered 0 ++ replicate 8 (EvCaller 10) ++ falls_back 1 ++ [EvCaller 20] ++
     answered 3 ++ answered 2 ++ replicate 5 (EvCaller 30)) true 90000.

Definition sample_plan : SchedulingPlan := make_plan 0 diamond_dag sample_local sample_node.

Lemma sample_submit_returns : exists r o',
  submit_workload sample_strerror sample_submit diamond_dag sample_node = Some (Ok r, o') /\
  local_tasks r = 0 /\ offloaded_tasks r = 4 /\ completed_tasks r = 4 /\ failed_tasks r = 0 /\
  offload_fallbacks r = 1 /\ total_duration r = 90.
Proof. eexists _, _. split; [vm_compute; reflexivity|]. by vm_compute. Qed.

Lemma diamond_closed : closed diamond_dag.
Proof. decide_now. Qed.

Lemma diamond_valid : is_valid diamond_dag = true.
Proof. vm_compute. reflexivity. Qed.

Lemma sample_cluster_ok : cluster_ok sample_node.
Proof. split; [|reflexivity]. unfold peers_keyed. decide_now. Qed.

(** A monitor scripted with the sample snapshot. *)
Definition sample_monitor : Mock.MockMonitor := Mock.push_snapshot sample_local (Mock.new_mock "pi-0").

Lemma sample_monitor_ok : monitor_ok (node_id sample_node) sample_monitor.
Proof.
  change (mock_ok "pi-0" sample_monitor). split; [done|]. unfold snapshot_ok, is_u64. split; decide_now.
Qed.

(** Everything has been handed over and nothing has run. *)
Definition handed_over : list sub_event := replicate 9 (EvCaller 0).

Lemma submission_covers_workload_witness :
  closed diamond_dag /\ is_valid diamond_dag = true /\ cluster_ok sample_node /\
  exists s, call_state sample_strerror sample_submit diamond_dag sample_local handed_over sample_node = Some s /\
    s_local s + s_offloaded s = 4 /\ j_id ∘ job_of <$> s_jobs s ≡ₚ (iter (tasks_ diamond_dag)).*1.
Proof.
  split; [exact diamond_closed|]. split; [exact diamond_valid|]. split; [exact sample_cluster_ok|].
  destruct (call_state sample_strerror sample_submit diamond_dag sample_local handed_over sample_node) as [s|] eqn:E;
    [|vm_compute in E; discriminate].
  assert (Hd : dispatched (s_waiter s) = true) by (vm_compute in E; injection E as <-; reflexivity).
  exists s. split; [reflexivity|].
  destruct (submission_covers_workload sample_strerror sample_monitor (Mock.read 0 sample_monitor).2 0 sample_submit
              diamond_dag sample_local sample_node handed_over s diamond_closed diamond_valid sample_cluster_ok
              sample_monitor_ok eq_refl E Hd) as (Hp & Ht & _).
  split; [exact Ht|exact Hp].
Defined.

Lemma submission_accounting_witness :
  closed diamond_dag /\ is_valid diamond_dag = true /\
  exists r o' ran, submit_workload sample_strerror sample_submit diamond_dag sample_node = Some (Ok r, o') /\
    task_reports o' = ran /\ ran ≡ₚ topological_order diamond_dag /\ offload_fallbacks r = 1.
Proof.
  split; [exact diamond_closed|]. split; [exact diamond_valid|].
  destruct sample_submit_returns as (r & o' & Hs & _ & _ & _ & _ & Hf & _).
  destruct (submission_accounting sample_strerror sample_submit diamond_dag sample_node r o' diamond_closed diamond_valid Hs)
    as (ran & Hr & Ha).
  exists r, o', ran. split; [exact Hs|]. split; [exact Hr|]. split; [|exact Hf].
  apply (acc_all _ _ _ _ Ha). decide_now.
Defined.

(** The same submission in the middle of the dispatch, with the deadline passed. *)
Definition stuck_submit : submit_env := mkSubmitEnv (Ok sample_local) 0 0 0 [EvCaller 10] false 31000000000.

Lemma submit_workload_returns_witness :
  exists k r o', (k <= 14)%nat /\
    submit_workload sample_strerror (followed_by stuck_submit (replicate k (EvCaller 30000000000))) diamond_dag sample_node
      = Some (Ok r, o').
Proof.
  destruct (call_state sample_strerror stuck_submit diamond_dag sample_local (se_events stuck_submit) sample_node)
    as [s|] eqn:E; [|vm_compute in E; discriminate].
  assert (Hl : dispatch_left (s_waiter s) = 8%nat) by (vm_compute in E; injection E as <-; reflexivity).
  destruct (submit_workload_returns sample_strerror stuck_submit diamond_dag sample_node sample_local s 30000000000
           eq_refl E) as (k & r & o' & Hk & H); [left; vm_compute; discriminate|].
  exists k, r, o'. split; [lia|exact H].
Defined.

(** The counters live on the stack of the call, and the jobs that refer to them may still be
    queued when it returns: here the call has reported after the deadline, and each of the
    four jobs can still run and update them. *)
Lemma job_outlives_the_call :
  (s ← call_state sample_strerror stuck_submit diamond_dag sample_local
         (handed_over ++ EvCaller 10 :: replicate 4 (EvCaller 30000000000)) sample_node;
   s' ← sub_run sample_strerror diamond_dag 4 30000000000 (answered 0) s;
   Some (is_done (s_waiter s), s_completed s, s_completed s')) = Some (true, 0%nat, 1%nat).
Proof. vm_compute. reflexivity. Qed.

(** Nothing orders the jobs: the sink of the diamond may run first. *)
Lemma child_may_run_before_parent :
  (fun s => reported_id <$> s_jobs s) <$>
    call_state sample_strerror sample_submit diamond_dag sample_local (handed_over ++ answered 3) sample_node
  = Some [None; None; None; Some "sink"].
Proof. vm_compute. reflexivity. Qed.
