(* ===== verification/Loops.v ===== *)
(** The threads of [PeerDiscovery], [LinuxMonitor] and the orchestrator as whole loops:
    [broadcast_loop], [listen_loop] and [eviction_loop] of [network/peer_discovery.cpp],
    [resource_update_loop] of [orchestrator/orchestrator.hpp] and [sampling_loop] of
    [resource_monitor/linux_monitor.cpp].

    A thread looks at its stop token and at the clock again and again; what it sees is a
    list of observations, in order.  Three of the loops have the same shape: do something,
    then nap in 50 ms slices until the interval is over or a stop is requested.  The bounds
    proved are in terms of [g], the longest time between two looks. *)

From Stdlib Require Import ZArith Lia.
From stdpp Require Import base gmap strings relations numbers sorting list.
From S2P Require Import Prelude Float32 Core Config Scheduler Cluster Discovery DiscoveryTheorems.
From S2P Require Import Monitor Telemetry Orchestrator.

Local Open Scope Z_scope.

(** * Napping *)

(** [stop.stop_requested()] and [steady_clock::now()] in nanoseconds. *)
Abbreviation look := (bool * Z)%type.

Definition ms (n : Z) : Z := n * 1000000.

(** [while (!stop_requested && now < deadline) sleep_for(50ms)]: the looks that remain
    after it, [None] while it goes on. *)
Fixpoint nap (deadline : Z) (obs : list look) : option (list look) :=
  match obs with
  | [] => None
  | (stop, now) :: obs' => if negb stop && (now <? deadline) then nap deadline obs' else Some obs'
  end.

(** The loop: the times at which its body ran, and whether it has returned. *)
Fixpoint periodic (fuel : nat) (interval_ms : Z) (obs : list look) : list Z * bool :=
  match fuel, obs with
  | O, _ | _, [] => ([], false)
  | S n, (stop, now) :: obs1 =>
      if stop then ([], true)
      else
        match obs1 with
        | [] => ([now], false)
        | (_, later) :: obs2 =>
            match nap (later + ms interval_ms) obs2 with
            | None => ([now], false)
            | Some obs3 => let '(times, ended) := periodic n interval_ms obs3 in (now :: times, ended)
            end
        end
  end.

Definition periodic_loop (interval_ms : Z) (obs : list look) : list Z * bool :=
  periodic (S (length obs)) interval_ms obs.

(** * The loops *)

(** [broadcast_loop]; the state it finds at a given time is an argument.  The result is the
    datagrams with their times. *)
Definition broadcast_loop (heartbeat_interval_ms : Z) (state_at : Z -> PeerDiscovery * discovery_io)
    (obs : list look) : list (Z * list Z) * bool :=
  let '(times, ended) := periodic_loop heartbeat_interval_ms obs in
  (omap (fun t => pkt ← broadcast_round (state_at t).1 (state_at t).2; Some (t, pkt)) times, ended).

(** [eviction_loop]: the times of its sweeps, every half timeout. *)
Definition eviction_loop (peer_timeout_ms : Z) (obs : list look) : list Z * bool :=
  periodic_loop (peer_timeout_ms / 2) obs.

(** One turn of [listen_loop]: the token, the descriptor, the answers of [poll] and
    [recvfrom], and the clocks. *)
Record listen_turn := mkTurn {
  lt_stop : bool;
  lt_fd : Z;
  lt_ready : Z;
  lt_datagram : list Z;   (** empty when [recvfrom] fails *)
  lt_sender : string;
  lt_now : Z;
  lt_wall : Z
}.

(** [listen_loop]: the table, the peers announced, and whether it has returned. *)
Fixpoint listen_loop (turns : list listen_turn) (d : PeerDiscovery) : PeerDiscovery * list PeerInfo * bool :=
  match turns with
  | [] => (d, [], false)
  | t :: turns' =>
      if lt_stop t then (d, [], true)
      else if lt_fd t <? 0 then (d, [], true)
      else if lt_ready t <=? 0 then listen_loop turns' d
      else
        let '(d, p) := receive_advert (lt_datagram t) (lt_sender t) (lt_now t) (lt_wall t) d in
        let '(d, ps, ended) := listen_loop turns' d in
        (d, option_list p ++ ps, ended)
  end.

(** [resource_update_loop]; [snap_at] is what [monitor_.read()] answers. *)
Definition resource_update_loop (snap_at : Z -> Result ResourceSnapshot) (obs : list look) (o : Orchestrator)
  : Orchestrator * bool :=
  let '(times, ended) := periodic_loop (update_interval_ms (config_ o)) obs in
  (foldl (fun o t => resource_round (snap_at t) o) o times, ended).

(** [sampling_loop] sleeps for its whole interval; one entry per turn.  The result is the
    callbacks run, the monitor, and whether the loop has returned. *)
Fixpoint sampling_loop (turns : list (bool * sample_env)) (m : LinuxMonitor) : list nat * LinuxMonitor * bool :=
  match turns with
  | [] => ([], m, false)
  | (stop, e) :: turns' =>
      if stop then ([], m, true)
      else
        let '(cbs, m) := sampling_round e m in
        let '(cbs', m, ended) := sampling_loop turns' m in
        (cbs ++ cbs', m, ended)
  end.

(** * Timing *)

(** The clock does not run backwards, and at most [g] passes between two looks: the nap
    of 50 ms, the body, and what the kernel's scheduler adds. *)
Fixpoint timely (g prev : Z) (obs : list look) : Prop :=
  match obs with
  | [] => True
  | (_, now) :: obs' => prev <= now <= prev + g /\ timely g now obs'
  end.

Definition running_looks (obs : list look) : Prop := Forall (fun o => o.1 = false) obs.

Lemma nap_shrinks deadline obs rest : nap deadline obs = Some rest -> (length rest < length obs)%nat.
Proof.
  induction obs as [|[stop now] obs IH]; [done|]. cbn. case_match; [intros ?%IH; lia|]. intros [= ->]. lia.
Qed.

Lemma nap_suffix deadline obs rest : nap deadline obs = Some rest -> forall o, o ∈ rest -> o ∈ obs.
Proof.
  induction obs as [|[stop now] obs IH]; [done|]. cbn.
  case_match; [intros Hn o Ho; right; by eapply IH|]. intros [= ->] o Ho. by right.
Qed.

Lemma nap_ends g prev deadline obs rest : prev <= deadline -> 0 <= g -> timely g prev obs -> running_looks obs ->
  nap deadline obs = Some rest ->
  exists t, deadline <= t <= deadline + g /\ timely g t rest /\ running_looks rest /\
    forall o, o ∈ obs -> deadline + g < o.2 -> o ∈ rest.
Proof.
  intros Hp Hg. revert prev Hp. induction obs as [|[stop now] obs IH]; intros prev Hp; [done|].
  cbn. intros [Ht Htl] [Hs Hr]%Forall_cons. cbn in Hs. subst stop. cbn.
  destruct (now <? deadline) eqn:E.
  - intros Hn. destruct (IH now ltac:(lia) Htl Hr Hn) as (t & ? & ? & ? & Hin). exists t. split_and!; [lia..|done|done|].
    intros o [->|Ho]%elem_of_cons Hlt; [cbn in Hlt; lia|by apply Hin].
  - intros [= ->]. exists now. split_and!; [lia..|done|done|].
    intros o [->|Ho]%elem_of_cons Hlt; [cbn in Hlt; lia|done].
Qed.

Lemma nap_goes_on deadline obs : running_looks obs -> nap deadline obs = None ->
  Forall (fun o => o.2 < deadline) obs.
Proof.
  induction 1 as [|[stop now] obs Hs Hr IH]; [done|]. cbn in Hs. subst stop. cbn.
  destruct (now <? deadline) eqn:E; [|done]. intros Hn. constructor; [cbn; lia|by apply IH].
Qed.

(** While it runs, the loop executes its body at least every interval and three looks. *)
Lemma periodic_covers g interval prev obs T fuel : 0 <= g -> 0 <= interval ->
  (length obs < fuel)%nat -> timely g prev obs -> running_looks obs ->
  (exists o, head obs = Some o /\ o.2 <= T) -> (exists o, o ∈ obs /\ T <= o.2) ->
  exists s, s ∈ (periodic fuel interval obs).1 /\ s <= T <= s + ms interval + 3 * g.
Proof.
  intros Hg Hi. revert prev obs. induction fuel as [|n IH]; intros prev obs Hf; [lia|].
  destruct obs as [|[stop now] obs1]; [intros _ _ (o & ? & _); done|].
  cbn [timely]. intros [Hnow Ht] [Hs Hr]%Forall_cons (o & Ho & HoT) (u & Hu & HT).
  cbn in Hs, Ho. subst stop. injection Ho as <-. cbn in HoT. cbn [periodic].
  destruct (decide (T <= now + ms interval + 3 * g)) as [Hle|Hgt].
  { exists now. split; [|lia]. destruct obs1 as [|[st later] obs2]; [left|].
    destruct (nap _ obs2); [destruct (periodic n interval l)|]; left. }
  apply elem_of_cons in Hu as [->|Hu]; [cbn in HT; unfold ms in *; lia|].
  destruct obs1 as [|[st later] obs2]; [by apply elem_of_nil in Hu|].
  destruct Ht as [Hlater Ht]. apply Forall_cons in Hr as [_ Hr].
  apply elem_of_cons in Hu as [->|Hu]; [cbn in HT; unfold ms in *; lia|].
  destruct (nap (later + ms interval) obs2) as [obs3|] eqn:Hn.
  - destruct (nap_ends g later (later + ms interval) obs2 obs3 ltac:(unfold ms; lia) Hg Ht Hr Hn) as (t & Ht1 & Ht3 & Hr3 & Hin).
    assert (Hu3 : u ∈ obs3) by (apply Hin; [done|unfold ms in *; lia]).
    apply nap_shrinks in Hn. cbn in Hf.
    destruct (IH t obs3) as (s & Hsin & Hst); [lia|done|done| |by exists u|].
    + destruct obs3 as [|[st3 n3] obs3]; [by apply elem_of_nil in Hu3|]. eexists. split; [done|].
      destruct Ht3 as [Ht3 _]. cbn. lia.
    + exists s. destruct (periodic n interval obs3). split; [by right|done].
  - pose proof (nap_goes_on _ _ Hr Hn) as Hall. rewrite Forall_forall in Hall. specialize (Hall _ Hu). lia.
Qed.

(** Once the token says stop, the loop returns within three looks and does nothing more. *)
Lemma nap_app deadline pre post o : o.1 = true ->
  nap deadline (pre ++ o :: post) =
  Some match nap deadline pre with Some rest => rest ++ o :: post | None => post end.
Proof.
  intros Ho. induction pre as [|[stop now] pre IH]; cbn.
  - destruct o as [stop now]. cbn in Ho. by subst stop.
  - destruct (negb stop && (now <? deadline)); [apply IH|done].
Qed.

Lemma periodic_ends fuel interval pre o1 o2 o3 post : (length pre < fuel)%nat -> (2 <= fuel)%nat ->
  o1.1 = true -> o2.1 = true -> o3.1 = true ->
  (periodic fuel interval (pre ++ o1 :: o2 :: o3 :: post)).2 = true /\
  Forall (fun t => t ∈ pre.*2) (periodic fuel interval (pre ++ o1 :: o2 :: o3 :: post)).1.
Proof.
  intros Hf Hf2 H1 H2 H3. revert pre Hf Hf2. induction fuel as [|n IH]; intros pre Hf Hf2; [lia|].
  destruct o1 as [st1 n1], o2 as [st2 n2], o3 as [st3 n3]. cbn in H1, H2, H3. subst st1 st2 st3.
  destruct pre as [|[stop now] pre]; [by cbn|]. cbn [app periodic]. destruct stop; [by cbn|].
  destruct pre as [|[st later] pre].
  - cbn. destruct n as [|n]; [cbn in Hf; lia|]. cbn. split; [done|]. constructor; [left|constructor].
  - cbn [app]. rewrite (nap_app _ pre _ (true, n1)) by done.
    destruct (nap (later + ms interval) pre) as [rest|] eqn:Hn.
    + pose proof (nap_shrinks _ _ _ Hn) as Hl. cbn in Hf.
      destruct (IH rest ltac:(lia) ltac:(lia)) as [He Hts].
      destruct (periodic n interval _) as [times ended]. cbn in *. split; [done|].
      pose proof (nap_suffix _ _ _ Hn) as Hsub.
      constructor; [left|]. eapply Forall_impl; [exact Hts|]. cbn. intros t (o & -> & Ho)%list_elem_of_fmap.
      do 2 right. apply list_elem_of_fmap. exists o. split; [done|by apply Hsub].
    + cbn in Hf. destruct n as [|n]; [lia|]. cbn. split; [done|]. constructor; [left|constructor].
Qed.

(** * Stopping *)

(** Stop requests are obeyed promptly.  Once their tokens say stop, the heartbeat, eviction
    and resource threads return within three further looks, and start no round after the
    request; the listener and the sampler return at their next turn, and a listener whose
    socket was closed also does. *)
Theorem loops_stop interval_ms heartbeat state_at timeout snap_at o pre o1 o2 o3 post d m t turns e samples :
  o1.1 = true -> o2.1 = true -> o3.1 = true -> (lt_stop t = true \/ lt_fd t < 0) ->
  let obs := pre ++ o1 :: o2 :: o3 :: post in
  (periodic_loop interval_ms obs).2 = true /\
  Forall (fun u => u ∈ pre.*2) (periodic_loop interval_ms obs).1 /\
  (broadcast_loop heartbeat state_at obs).2 = true /\
  Forall (fun b => b.1 ∈ pre.*2) (broadcast_loop heartbeat state_at obs).1 /\
  (eviction_loop timeout obs).2 = true /\ (resource_update_loop snap_at obs o).2 = true /\
  listen_loop (t :: turns) d = (d, [], true) /\ sampling_loop ((true, e) :: samples) m = ([], m, true).
Proof.
  intros H1 H2 H3 Ht obs.
  assert (Hp : forall i, (periodic_loop i obs).2 = true /\ Forall (fun u => u ∈ pre.*2) (periodic_loop i obs).1).
  { intros i. apply periodic_ends; try done; unfold obs; rewrite length_app; cbn; lia. }
  split_and!; try apply Hp; try done.
  - unfold broadcast_loop. destruct (Hp heartbeat) as [He _]. by destruct (periodic_loop heartbeat obs).
  - unfold broadcast_loop. destruct (Hp heartbeat) as [_ Hf]. destruct (periodic_loop heartbeat obs) as [times ended].
    cbn in *. apply Forall_forall. intros [u pkt] (s & Hin & Hs)%list_elem_of_omap. rewrite Forall_forall in Hf.
    destruct (broadcast_round _ _); [|done]. injection Hs as <- _. by apply Hf.
  - unfold resource_update_loop. destruct (Hp (update_interval_ms (config_ o))) as [He _].
    by destruct (periodic_loop _ obs).
  - cbn. destruct Ht as [-> | Hfd]; [done|]. apply Z.ltb_lt in Hfd. rewrite Hfd. by destruct (lt_stop t).
Qed.

(** * Concrete runs *)

(** A thread that looks every 50 ms. *)
Definition steady_looks (n : nat) : list look := (fun k => (false, ms (50 * Z.of_nat k))) <$> seq 0 n.

(** A node with open sockets. *)
Definition pi_1 : PeerDiscovery * discovery_io := (sample_disc "pi-1", mkIoState 3 4 true {[3; 4]}).

Definition no_sample : sample_env := mkSample 0 (mkFiles EmptyString EmptyString EmptyString EmptyString EmptyString EmptyString)
  (fun _ => (0, 0)) (0, 0).

Lemma loops_stop_witness :
  (eviction_loop 400 [(false, 0); (false, 10); (true, 60); (true, 110); (true, 160)]).2 = true /\
  sampling_loop [(true, no_sample)] (new_linux_monitor "pi-0" 500)
    = ([], new_linux_monitor "pi-0" 500, true).
Proof.
  destruct (loops_stop 400 400 (fun _ => pi_1) 400 (fun _ => make_error "not ready") (new_orchestrator default_config)
    [(false, 0); (false, 10)] (true, 60) (true, 110) (true, 160) [] pi_1.1 (new_linux_monitor "pi-0" 500)
    (mkTurn true 3 0 [] EmptyString 0 0) [] no_sample [])
    as (_ & _ & _ & _ & H1 & _ & _ & H2); try reflexivity; [by left|].
  split; [exact H1|exact H2].
Defined.
