(* ===== verification/Detector.v ===== *)
(** The cluster view as a failure detector, in real time.

    [Discovery] interleaves the listen and eviction threads of [network/peer_discovery.cpp]
    step by step: each changes the table under its lock and delivers its notifications to
    the cluster view afterwards.  Here the steps happen at moments of a clock.  [delta] bounds
    how long a thread takes from a change of the table to the last of its notifications, and
    from the clock reading of a sweep to the sweep; [g] is the longest time between two looks
    of the loops of [Loops] at the clock. *)

From Stdlib Require Import ZArith Lia.
From stdpp Require Import base gmap strings relations numbers list.
From S2P Require Import Prelude Float32 Core Scheduler Cluster Discovery DiscoveryTheorems Loops.

Local Open Scope Z_scope.

(** * Advertisements *)

(** The node a datagram announces to [self]: [None] when [listen_loop] drops it. *)
Definition advert_from (self : NodeId) (datagram : list Z) : option NodeId :=
  let buf := take packet_size datagram in
  if negb (Nat.eqb (length buf) packet_size) then None
  else
    let pkt := packet_of_bytes buf in
    if negb (bool_decide (magic pkt = MAGIC)) then None
    else if negb (version pkt =? PROTOCOL_VERSION) then None
    else
      let id := string_of_bytes (before_nul (pkt_node_id pkt)) in
      if decide (id = self) then None else Some id.

Lemma receive_advert_from dg ip now wall d d' p : receive_advert dg ip now wall d = (d', p) ->
  match advert_from (node_id_ d) dg with
  | None => d' = d /\ p = None
  | Some id => exists peer, peer_node_id peer = id /\
      d' = with_peers d (<[id := mkRecord peer now]> (known_peers_ d)) /\
      p = match known_peers_ d !! id with Some _ => None | None => Some peer end
  end.
Proof.
  unfold receive_advert, advert_from. cbn.
  destruct (negb (length _ =? _)%nat); [by intros [= <- <-]|].
  destruct (negb (bool_decide _)); [by intros [= <- <-]|]. destruct (negb (_ =? _)); [by intros [= <- <-]|].
  case_decide; [by intros [= <- <-]|]. intros E. exists (parse_advert (packet_of_bytes (take packet_size dg)) ip wall).
  split; [reflexivity|]. case_match; by injection E as <- <-.
Qed.

(** A node's own advertisement announces it to every other node. *)
Lemma advert_announces d self trailing : id_fits (node_id_ d) -> node_id_ d <> self ->
  advert_from self (packet_bytes (build_advert d) ++ trailing) = Some (node_id_ d).
Proof.
  intros Hid Hne. destruct (packet_roundtrip _ (build_advert_ok d)) as [Hl Hp].
  assert (Ht : take packet_size (packet_bytes (build_advert d) ++ trailing) = packet_bytes (build_advert d))
    by (rewrite <- Hl; apply take_app_length).
  unfold advert_from. rewrite Ht, Hl, Hp, advert_id, wire_id_fits by done. by rewrite decide_False.
Qed.

(** * The threads and the clock *)

(** [found_at] and [swept_at] are the moments of the last reception and of the last sweep,
    [history] all the steps so far with their moments. *)
Record watch := mkWatch {
  net : network;
  clock : Z;
  found_at : Z;
  swept_at : Z;
  history : list (Z * net_event)
}.

Definition boot_watch (self : NodeId) (port timeout now : Z) : watch :=
  mkWatch (new_network (new_discovery self port timeout)) now now now [].

Section watch.
Context {IO : IterOrder} (delta : Z).

(** A reception is stamped under the lock; the clock of a sweep is read before the lock is
    taken. *)
Definition stamped (t : Z) (ev : net_event) : Prop :=
  match ev with
  | EvReceive _ _ now _ => now = t
  | EvEvict now => now <= t <= now + delta
  | _ => True
  end.

Definition acts (w : watch) (ev : net_event) (n : network) : watch :=
  mkWatch n (clock w) (match ev with EvReceive _ _ _ _ => clock w | _ => found_at w end)
    (match ev with EvEvict _ => clock w | _ => swept_at w end) (history w ++ [(clock w, ev)]).

(** Time passes, but not beyond the moment a notification is due; or a thread moves. *)
Inductive watch_step : watch -> watch -> Prop :=
  | watch_tick w t :
      clock w <= t ->
      (is_Some (listener (net w)) -> t < found_at w + delta) ->
      (evictor (net w) <> [] -> t < swept_at w + delta) ->
      watch_step w (mkWatch (net w) t (found_at w) (swept_at w) (history w))
  | watch_acts w ev n :
      stamped (clock w) ev -> net_next ev (net w) = Some n -> watch_step w (acts w ev n).
End watch.

(** * What happened *)

(** [self] got an advertisement of node [id] at time [t]. *)
Definition heard (self : NodeId) (h : list (Z * net_event)) (id : NodeId) (t : Z) : Prop :=
  exists dg ip now wall, (t, EvReceive dg ip now wall) ∈ h /\ advert_from self dg = Some id.

(** At time [e] a sweep went over the table with the clock reading [now]. *)
Definition swept (h : list (Z * net_event)) (e now : Z) : Prop := (e, EvEvict now) ∈ h.

(** A sweep dropped [id], which was then heard again less than [delta] later. *)
Definition came_straight_back (delta timeout : Z) (self : NodeId) (h : list (Z * net_event)) (id : NodeId) : Prop :=
  exists e now u t, swept h e now /\ heard self h id u /\ u < e /\
    (forall v, heard self h id v -> v < e -> ms timeout < now - v) /\
    heard self h id t /\ e <= t < e + delta.

Lemma heard_snoc self h t ev id u : heard self (h ++ [(t, ev)]) id u <->
  heard self h id u \/
  (u = t /\ exists dg ip now wall, ev = EvReceive dg ip now wall /\ advert_from self dg = Some id).
Proof.
  unfold heard. split.
  - intros (dg & ip & now & wall & [Hin|Heq%list_elem_of_singleton]%elem_of_app & Ha); [left; by exists dg, ip, now, wall|].
    injection Heq as -> <-. right. split; [done|]. by exists dg, ip, now, wall.
  - intros [(dg & ip & now & wall & Hin & Ha)|(-> & dg & ip & now & wall & -> & Ha)]; exists dg, ip, now, wall;
      (split; [|done]); apply elem_of_app; [by left|right; by apply list_elem_of_singleton].
Qed.

Lemma swept_snoc h t ev e now : swept (h ++ [(t, ev)]) e now <-> swept h e now \/ (e = t /\ ev = EvEvict now).
Proof.
  unfold swept. rewrite elem_of_app, list_elem_of_singleton. split; (intros [?|?]; [by left|right]); naive_solver.
Qed.

(** The moments of the steps lie in the past. *)
Definition past (h : list (Z * net_event)) (now : Z) : Prop := forall t ev, (t, ev) ∈ h -> t <= now.

Lemma past_heard self h now id t : past h now -> heard self h id t -> t <= now.
Proof. intros Hp (dg & ip & n & wall & Hin & _). by eapply Hp. Qed.

(** Later steps do not undo that a peer came straight back. *)
Lemma came_back_snoc delta timeout self h now ev id : past h now ->
  came_straight_back delta timeout self h id -> came_straight_back delta timeout self (h ++ [(now, ev)]) id.
Proof.
  intros Hp (e & n & u & t & He & Hu & Hlt & Hall & Ht & Hr). exists e, n, u, t.
  split_and!; [apply swept_snoc; by left|apply heard_snoc; by left|done| |apply heard_snoc; by left|lia..].
  intros v [Hv|[-> _]]%heard_snoc Hve; [by apply Hall|]. specialize (Hp e _ He). lia.
Qed.

(** * The invariant *)

Section invariant.
Context {IO : IterOrder} (delta timeout : Z) (self : NodeId).
Hypothesis delta_ok : 0 < delta <= ms timeout.

(** What the table says of the past. *)
Record tracked (w : watch) : Prop := {
  tk_net : net_ok self (net w);
  tk_timeout : peer_timeout_ms_ (disc (net w)) = timeout;
  tk_past : past (history w) (clock w);
  tk_stamp : forall e now, swept (history w) e now -> now <= e;
  tk_last : forall id r, known_peers_ (disc (net w)) !! id = Some r ->
    heard self (history w) id (last_seen r) /\ forall t, heard self (history w) id t -> t <= last_seen r;
  tk_swept : forall id r e now, known_peers_ (disc (net w)) !! id = Some r -> swept (history w) e now ->
    now - last_seen r <= ms timeout;
  tk_kept : forall id t, heard self (history w) id t ->
    is_Some (known_peers_ (disc (net w)) !! id) \/ exists e now, swept (history w) e now /\ ms timeout < now - t
}.

(** What the pending notifications and the view say of it. *)
Record notified (w : watch) : Prop := {
  nt_listener : forall p, listener (net w) = Some p ->
    clock w < found_at w + delta /\
    (exists r, known_peers_ (disc (net w)) !! peer_node_id p = Some r /\ last_seen r = found_at w) /\
    (forall t, heard self (history w) (peer_node_id p) t -> t < found_at w ->
       exists e now, swept (history w) e now /\ ms timeout < now - t);
  nt_evictor : evictor (net w) <> [] -> swept_at w <= clock w < swept_at w + delta;
  nt_lost : forall p, p ∈ evictor (net w) -> exists now v,
    swept (history w) (swept_at w) now /\ heard self (history w) (peer_node_id p) v /\ v < swept_at w /\
    (forall u, heard self (history w) (peer_node_id p) u -> u < swept_at w -> ms timeout < now - u) /\
    (forall e n, swept (history w) e n -> e < swept_at w -> n - v <= ms timeout);
  nt_view : forall id, is_Some (view (net w) !! id) ->
    is_Some (known_peers_ (disc (net w)) !! id) \/ id ∈ peer_node_id <$> evictor (net w);
  nt_known : forall id, ~ came_straight_back delta timeout self (history w) id ->
    is_Some (known_peers_ (disc (net w)) !! id) ->
    id ∉ peer_node_id <$> evictor (net w) /\
    (is_Some (view (net w) !! id) \/ exists p, listener (net w) = Some p /\ peer_node_id p = id)
}.

Lemma expired_spec now r : expired now timeout r = false <-> now - last_seen r <= ms timeout.
Proof. unfold expired, ms. rewrite Z.gtb_ltb, Z.ltb_ge. done. Qed.

(** The moments stay in the past. *)
Lemma past_snoc h now ev : past h now -> past (h ++ [(now, ev)]) now.
Proof. intros Hp t e [Hin|[= -> ->]%list_elem_of_singleton]%elem_of_app; [by eapply Hp|lia]. Qed.

(** A step that is neither a reception nor a sweep adds nothing to hear or to sweep. *)
Definition silent (ev : net_event) : Prop :=
  match ev with EvReceive _ _ _ _ | EvEvict _ => False | _ => True end.

Lemma heard_silent h t ev id u : silent ev -> heard self (h ++ [(t, ev)]) id u <-> heard self h id u.
Proof. intros Hs. rewrite heard_snoc. split; [|by left]. by intros [?|(_ & ? & ? & ? & ? & -> & _)]. Qed.

Lemma swept_silent h t ev e now : silent ev -> swept (h ++ [(t, ev)]) e now <-> swept h e now.
Proof. intros Hs. rewrite swept_snoc. split; [|by left]. by intros [?|[_ ->]]. Qed.

Lemma heard_sweep h t now id u : heard self (h ++ [(t, EvEvict now)]) id u <-> heard self h id u.
Proof. rewrite heard_snoc. split; [|by left]. by intros [?|(_ & ? & ? & ? & ? & ? & _)]. Qed.

Lemma swept_hear h t dg ip n wall e now :
  swept (h ++ [(t, EvReceive dg ip n wall)]) e now <-> swept h e now.
Proof. rewrite swept_snoc. split; [|by left]. by intros [?|[_ ?]]. Qed.

(** ** The table *)

Lemma tracked_hear w dg ip wall n : tracked w ->
  net_next (EvReceive dg ip (clock w) wall) (net w) = Some n ->
  tracked (acts w (EvReceive dg ip (clock w) wall) n).
Proof.
  intros [Hn Ht Hp Hst Hl Hsw Hk] Hnext. pose proof (net_next_ok _ _ _ _ Hnext Hn) as Hn'.
  cbn in Hnext. destruct (listener (net w)); [done|].
  destruct (receive_advert _ _ _ _ _) as [d p] eqn:E. injection Hnext as <-. apply receive_advert_from in E.
  rewrite (nk_self _ _ Hn) in E. set (ev := EvReceive dg ip (clock w) wall).
  assert (Hd : peer_timeout_ms_ d = timeout /\ forall id,
    match advert_from self dg with
    | Some id0 => exists peer, known_peers_ d !! id = if decide (id = id0) then Some (mkRecord peer (clock w)) else known_peers_ (disc (net w)) !! id
    | None => known_peers_ d = known_peers_ (disc (net w))
    end).
  { destruct (advert_from self dg) as [id0|]; [|by destruct E as [-> _]].
    destruct E as (peer & _ & -> & _). split; [done|]. intros id. exists peer. cbn. case_decide; subst.
    - by rewrite lookup_insert_eq.
    - by rewrite lookup_insert_ne. }
  destruct Hd as [Hdt Hd].
  assert (Hh : forall id u, heard self (history w ++ [(clock w, ev)]) id u <->
    heard self (history w) id u \/ (u = clock w /\ advert_from self dg = Some id)).
  { intros id u. rewrite heard_snoc. subst ev. split; (intros [?|[-> Hx]]; [by left|right; split; [done|]]).
    - by destruct Hx as (? & ? & ? & ? & [= <- <- <- <-] & ?).
    - by exists dg, ip, (clock w), wall. }
  split; cbn [net clock history disc acts]; [done|done|by apply past_snoc| | | |].
  - intros e now Hs%swept_hear. by apply Hst.
  - intros id r Hr. specialize (Hd id). setoid_rewrite Hh. destruct (advert_from self dg) as [id0|] eqn:Ea.
    + destruct Hd as [peer Hd]. rewrite Hd in Hr. case_decide as Hi.
      * injection Hr as <-. subst id0. cbn. split; [by right|]. intros t [Hx|[-> _]]; [by eapply past_heard|lia].
      * destruct (Hl _ _ Hr) as [H1 H2]. split; [by left|]. intros t [Hx|[_ [=]]]; [by apply H2|congruence].
    + rewrite Hd in Hr. destruct (Hl _ _ Hr) as [H1 H2]. split; [by left|]. intros t [Hx|[_ [=]]]. by apply H2.
  - intros id r e now Hr Hs%swept_hear. specialize (Hd id). destruct (advert_from self dg) as [id0|].
    + destruct Hd as [peer Hd]. rewrite Hd in Hr. case_decide; [|by eapply Hsw].
      injection Hr as <-. cbn. pose proof (Hst _ _ Hs). pose proof (Hp _ _ Hs). lia.
    + rewrite Hd in Hr. by eapply Hsw.
  - intros id t Hx%Hh. unfold ev. setoid_rewrite swept_hear. specialize (Hd id).
    destruct Hx as [Hx|[-> Ea]].
    + destruct (Hk _ _ Hx) as [Hr|?]; [left|by right]. destruct (advert_from self dg); [|by rewrite Hd].
      destruct Hd as [peer ->]. case_decide; eauto.
    + left. rewrite Ea in Hd. destruct Hd as [peer ->]. rewrite decide_True; eauto.
Qed.

Lemma tracked_sweep w now n : tracked w -> now <= clock w ->
  net_next (EvEvict now) (net w) = Some n -> tracked (acts w (EvEvict now) n).
Proof.
  intros [Hn Ht Hp Hst Hl Hsw Hk] Hnow Hnext. pose proof (net_next_ok _ _ _ _ Hnext Hn) as Hn'.
  cbn in Hnext. destruct (evictor (net w)); [|done].
  destruct (evict now (disc (net w))) as [d ps] eqn:E. injection Hnext as <-.
  apply evict_spec in E as (Hd & Hkeep & _). rewrite Ht in Hkeep.
  split; cbn [net clock history disc acts]; [done|by rewrite Hd|by apply past_snoc| | | |].
  - intros e m [Hs|[-> [= <-]]]%swept_snoc; [by apply Hst|done].
  - intros id r [Hr _]%Hkeep. setoid_rewrite heard_sweep. by apply Hl.
  - intros id r e m [Hr Hx]%Hkeep [Hs|[_ [= <-]]]%swept_snoc; [by eapply Hsw|by apply expired_spec].
  - intros id t Hx%heard_sweep. setoid_rewrite swept_snoc.
    destruct (Hk _ _ Hx) as [[r Hr]|(e & m & Hs & Hm)]; [|right; eauto 10].
    destruct (expired now timeout r) eqn:Ex.
    + right. exists (clock w), now. split; [by right|]. destruct (Hl _ _ Hr) as [_ Hm]. specialize (Hm _ Hx).
      destruct (decide (now - last_seen r <= ms timeout)) as [Hc%expired_spec|]; [congruence|lia].
    + left. exists r. by apply Hkeep.
Qed.

(** Notifications and resource updates leave the table alone. *)
Lemma net_next_silent ev n n' : silent ev -> net_next ev n = Some n' ->
  known_peers_ (disc n') = known_peers_ (disc n) /\ peer_timeout_ms_ (disc n') = peer_timeout_ms_ (disc n).
Proof. destruct ev; try done; intros _ H; cbn in H; repeat case_match; by simplify_eq. Qed.

Lemma tracked_silent w ev n : tracked w -> silent ev -> net_next ev (net w) = Some n -> tracked (acts w ev n).
Proof.
  intros [Hn Ht Hp Hst Hl Hsw Hk] Hs Hnext. pose proof (net_next_ok _ _ _ _ Hnext Hn) as Hn'.
  destruct (net_next_silent _ _ _ Hs Hnext) as [Hd Hdt].
  split; cbn [net clock history disc acts]; rewrite ?Hd, ?Hdt; [done|done|by apply past_snoc| | | |];
    repeat setoid_rewrite (heard_silent _ _ _ _ _ Hs); repeat setoid_rewrite (swept_silent _ _ _ _ _ Hs); done.
Qed.

(** ** The notifications *)

Lemma notified_hear w dg ip wall n : tracked w -> notified w ->
  net_next (EvReceive dg ip (clock w) wall) (net w) = Some n ->
  notified (acts w (EvReceive dg ip (clock w) wall) n).
Proof.
  intros Htr [Hli Hev Hlo Hvi Hkn] Hnext. cbn in Hnext. destruct (listener (net w)) eqn:El; [done|].
  destruct (receive_advert _ _ _ _ _) as [d p] eqn:E. injection Hnext as <-. apply receive_advert_from in E.
  rewrite (nk_self _ _ (tk_net _ Htr)) in E.
  assert (Hh : forall id u, u < clock w ->
    heard self (history w ++ [(clock w, EvReceive dg ip (clock w) wall)]) id u -> heard self (history w) id u).
  { intros id u Hu [?|[-> _]]%heard_snoc; [done|lia]. }
  assert (Hkeep : forall id, is_Some (known_peers_ (disc (net w)) !! id) -> is_Some (known_peers_ d !! id)).
  { intros id Hid. destruct (advert_from self dg) as [id0|]; [|by destruct E as [-> _]].
    destruct E as (peer & _ & -> & _). cbn. rewrite lookup_insert_is_Some.
    destruct (decide (id0 = id)); [by left|by right]. }
  split; cbn [net clock history disc listener evictor view found_at swept_at acts].
  - intros q ->. destruct (advert_from self dg) as [id0|]; [|by destruct E as [_ ?]].
    destruct E as (peer & Hid & -> & Hp). destruct (known_peers_ (disc (net w)) !! id0) eqn:Eid; [done|].
    injection Hp as ->. rewrite Hid. cbn. split_and!; [lia|rewrite lookup_insert_eq; eauto|].
    intros t Ht Hlt. apply Hh in Ht; [|done]. destruct (tk_kept _ Htr _ _ Ht) as [Hx|(e & now & Hs & Hm)].
    + rewrite Eid in Hx. by destruct Hx.
    + exists e, now. split; [by apply swept_hear|done].
  - intros He. specialize (Hev He). lia.
  - intros q Hq. destruct (Hlo q Hq) as (now & v & Hs & Hv & Hlt & Hall & Hold). exists now, v.
    assert (evictor (net w) <> []) as Hne by (intros Hn; rewrite Hn in Hq; by apply elem_of_nil in Hq).
    specialize (Hev Hne). split_and!; [by apply swept_hear|apply heard_snoc; by left|done| |].
    + intros u Hu Hlu. apply Hall; [|done]. apply Hh; [lia|done].
    + intros e m Hm%swept_hear. by apply Hold.
  - intros id Hid. destruct (Hvi id Hid) as [?|?]; [left; by apply Hkeep|by right].
  - intros id Hnb Hid.
    assert (~ came_straight_back delta timeout self (history w) id) as Hnb'.
    { intros Hb. apply Hnb. apply came_back_snoc; [apply (tk_past _ Htr)|done]. }
    destruct (decide (is_Some (known_peers_ (disc (net w)) !! id))) as [Hold|Hnew].
    { destruct (Hkn id Hnb' Hold) as [H1 [H2|(q & [=] & _)]]. split; [done|by left]. }
    destruct (advert_from self dg) as [id0|] eqn:Ea; [|by destruct E as [-> _]].
    destruct E as (peer & Hpid & -> & ->). cbn in Hid. apply lookup_insert_is_Some in Hid as [->|[_ ?]]; [|done].
    assert (Hin : heard self (history w ++ [(clock w, EvReceive dg ip (clock w) wall)]) id (clock w)).
    { apply heard_snoc. right. split; [done|]. by exists dg, ip, (clock w), wall. }
    split.
    + intros (q & Hq & Hqin)%list_elem_of_fmap.
      destruct (Hlo q Hqin) as (now & v & Hs & Hv & Hlt & Hall & _). rewrite <- Hq in *.
      assert (evictor (net w) <> []) as Hne by (intros Hn; rewrite Hn in Hqin; by apply elem_of_nil in Hqin).
      specialize (Hev Hne). apply Hnb. exists (swept_at w), now, v, (clock w).
      split_and!; [by apply swept_hear|apply heard_snoc; by left|done| |done|lia..].
      intros u Hu Hlu. apply Hall; [|done]. apply Hh; [lia|done].
    + right. exists peer. split; [|done]. destruct (known_peers_ (disc (net w)) !! id); [|done]. exfalso. eauto.
Qed.

Lemma notified_discovered w n : tracked w -> notified w -> net_next EvNotifyDiscovered (net w) = Some n ->
  notified (acts w EvNotifyDiscovered n).
Proof.
  intros Htr [Hli Hev Hlo Hvi Hkn] Hnext. cbn in Hnext. destruct (listener (net w)) as [p|] eqn:El; [|done].
  injection Hnext as <-. destruct (Hli p eq_refl) as (_ & (r & Hr & _) & _).
  split; cbn [net clock history disc listener evictor view found_at swept_at acts]; [done|done|..].
  - repeat setoid_rewrite heard_silent; [|done..]. by repeat setoid_rewrite swept_silent.
  - intros id. unfold update_peer. rewrite lookup_insert_is_Some. intros [<-|[_ Hid]]; [left; eauto|by apply Hvi].
  - intros id Hnb Hid. destruct (Hkn id) as [H1 H2]; [|done|].
    { intros Hb. apply Hnb, came_back_snoc; [apply (tk_past _ Htr)|done]. }
    split; [done|]. left. unfold update_peer. rewrite lookup_insert_is_Some.
    destruct (decide (peer_node_id p = id)); [by left|]. right. split; [done|].
    destruct H2 as [?|(q & [= <-] & ?)]; [done|congruence].
Qed.

Lemma notified_lost w n : tracked w -> notified w -> net_next EvNotifyLost (net w) = Some n ->
  notified (acts w EvNotifyLost n).
Proof.
  intros Htr [Hli Hev Hlo Hvi Hkn] Hnext. cbn in Hnext. destruct (evictor (net w)) as [|p ps] eqn:Ee; [done|].
  injection Hnext as <-. split; cbn [net clock history disc listener evictor view found_at swept_at acts].
  - intros q Hq. repeat setoid_rewrite heard_silent; [|done..]. repeat setoid_rewrite swept_silent; [|done..].
    by apply Hli.
  - intros _. by apply Hev.
  - intros q Hq. repeat setoid_rewrite heard_silent; [|done..]. repeat setoid_rewrite swept_silent; [|done..].
    apply Hlo. by right.
  - intros id. unfold remove_peer. rewrite lookup_delete_is_Some. intros [Hne Hid].
    destruct (Hvi id Hid) as [?|Hin]; [by left|right]. cbn in Hin. by apply elem_of_cons in Hin as [->|?].
  - intros id Hnb Hid. destruct (Hkn id) as [H1 H2]; [|done|].
    { intros Hb. apply Hnb, came_back_snoc; [apply (tk_past _ Htr)|done]. }
    cbn in H1. apply not_elem_of_cons in H1 as [H1 H1']. split; [done|].
    destruct H2 as [H2|H2]; [left|by right]. unfold remove_peer. by apply lookup_delete_is_Some.
Qed.

Lemma notified_sweep w now n : tracked w -> notified w -> now <= clock w ->
  net_next (EvEvict now) (net w) = Some n -> notified (acts w (EvEvict now) n).
Proof.
  intros Htr [Hli Hev Hlo Hvi Hkn] Hnow Hnext. cbn in Hnext. destruct (evictor (net w)) eqn:Ee; [|done].
  destruct (evict now (disc (net w))) as [d ps] eqn:E. injection Hnext as <-.
  apply evict_spec in E as (Hd & Hkeep & Hps). rewrite (tk_timeout _ Htr) in Hkeep, Hps.
  assert (Hkey : forall id r, known_peers_ (disc (net w)) !! id = Some r -> peer_node_id (info r) = id)
    by (intros id r Hr; by apply (nk_keys _ _ (tk_net _ Htr))).
  split; cbn [net clock history disc listener evictor view found_at swept_at acts].
  - intros q Hq. repeat setoid_rewrite heard_sweep. destruct (Hli q Hq) as (H1 & (r & Hr & Hls) & H3).
    split_and!; [done| |].
    + exists r. split; [|done]. apply Hkeep. split; [done|]. apply expired_spec. lia.
    + intros t Ht Hlt. destruct (H3 t Ht Hlt) as (e & m & ? & ?). exists e, m. split; [|done]. apply swept_snoc. by left.
  - intros _. lia.
  - intros q (id & r & Hr & Hx & ->)%Hps. rewrite (Hkey _ _ Hr). exists now, (last_seen r).
    destruct (tk_last _ Htr _ _ Hr) as [H1 H2].
    assert (Hold : ms timeout < now - last_seen r).
    { destruct (decide (now - last_seen r <= ms timeout)) as [Hc%expired_spec|]; [congruence|lia]. }
    split_and!; [apply swept_snoc; by right|by apply heard_sweep|lia| |].
    + intros u Hu%heard_sweep _. specialize (H2 _ Hu). lia.
    + intros e m [Hs|[-> _]]%swept_snoc He; [by eapply tk_swept|lia].
  - intros id Hid. destruct (Hvi id Hid) as [[r Hr]|Hin]; [|by apply elem_of_nil in Hin].
    destruct (expired now timeout r) eqn:Ex; [right|left; exists r; by apply Hkeep].
    apply list_elem_of_fmap. exists (info r). split; [by rewrite (Hkey _ _ Hr)|]. apply Hps. eauto.
  - intros id Hnb [r [Hr Hx]%Hkeep]. destruct (Hkn id) as [_ H2]; [|eauto|].
    { intros Hb. apply Hnb, came_back_snoc; [apply (tk_past _ Htr)|done]. }
    split; [|done]. intros (q & -> & (id' & r' & Hr' & Hx' & ->)%Hps)%list_elem_of_fmap.
    rewrite (Hkey _ _ Hr') in *. congruence.
Qed.

Lemma notified_resources w s n : tracked w -> notified w -> net_next (EvResources s) (net w) = Some n ->
  notified (acts w (EvResources s) n).
Proof.
  intros Htr [Hli Hev Hlo Hvi Hkn] [= <-].
  split; cbn [net clock history disc listener evictor view found_at swept_at acts update_local_resources known_peers_];
    [..|done|].
  - intros q Hq. repeat setoid_rewrite heard_silent; [|done..]. repeat setoid_rewrite swept_silent; [|done..].
    by apply Hli.
  - done.
  - intros q Hq. repeat setoid_rewrite heard_silent; [|done..]. repeat setoid_rewrite swept_silent; [|done..].
    by apply Hlo.
  - intros id Hnb. apply Hkn. intros Hb. apply Hnb, came_back_snoc; [apply (tk_past _ Htr)|done].
Qed.

Lemma watch_step_ok w w' : tracked w /\ notified w -> watch_step delta w w' -> tracked w' /\ notified w'.
Proof.
  intros [Htr Hno] Hs. destruct Hs as [w t Hle Hl He|w ev n Hst Hnext].
  - destruct Htr as [? ? Hp ? ? ? ?], Hno as [H1 H2 ? ? ?]. split; split; cbn; try done.
    + intros u ev Hin. specialize (Hp u ev Hin). lia.
    + intros p Hp'. destruct (H1 p Hp') as (_ & ? & ?). split_and!; [by apply Hl|done..].
    + intros Hne. specialize (H2 Hne). specialize (He Hne). lia.
  - destruct ev as [dg ip now wall| |now| |s]; cbn in Hst.
    + subst now. split; [by apply tracked_hear|by apply notified_hear].
    + split; [by apply tracked_silent|by apply notified_discovered].
    + split; [apply tracked_sweep; [done|lia|done]|apply notified_sweep; [done..|lia|done]].
    + split; [by apply tracked_silent|by apply notified_lost].
    + split; [by apply tracked_silent|by apply notified_resources].
Qed.

Lemma watch_reachable port boot w :
  rtc (watch_step delta) (boot_watch self port timeout boot) w -> tracked w /\ notified w.
Proof.
  intros Hr. eapply (rtc_preserve (fun w => tracked w /\ notified w)); [|done|].
  - intros x y. apply watch_step_ok.
  - assert (forall id t, ~ heard self [] id t) as Hh by (intros id t (? & ? & ? & ? & Hin & _); by apply elem_of_nil in Hin).
    assert (forall e now, ~ swept [] e now) as Hs by (intros e now Hin; by apply elem_of_nil in Hin).
    split; split; cbn; try done.
    + intros t ev Hin. by apply elem_of_nil in Hin.
    + intros e now Hin. by destruct (Hs e now).
    + intros id t Hin. by destruct (Hh id t).
    + intros p Hin. by apply elem_of_nil in Hin.
    + intros id Hid. rewrite lookup_empty in Hid. by destruct Hid.
    + intros id _ Hid. rewrite lookup_empty in Hid. by destruct Hid.
Qed.

(** A peer that did not come straight back is visible from [delta] after it was heard until
    the timeout. *)
Lemma heard_is_visible w id t : tracked w -> notified w ->
  ~ came_straight_back delta timeout self (history w) id ->
  heard self (history w) id t -> t + delta <= clock w <= t + ms timeout -> is_Some (view (net w) !! id).
Proof.
  intros Htr Hno Hnb Hh Ht.
  assert (Hyoung : forall e now, swept (history w) e now -> now - t <= ms timeout).
  { intros e now Hs. pose proof (tk_stamp _ Htr _ _ Hs). pose proof (tk_past _ Htr _ _ Hs). lia. }
  destruct (tk_kept _ Htr _ _ Hh) as [Hk|(e & now & Hs & Hm)]; [|specialize (Hyoung _ _ Hs); lia].
  destruct (nt_known _ Hno id Hnb Hk) as [_ [?|(p & Hp & <-)]]; [done|].
  destruct (nt_listener _ Hno p Hp) as (Hc & _ & Hfresh).
  destruct (Hfresh t Hh ltac:(lia)) as (e & now & Hs & Hm). specialize (Hyoung _ _ Hs). lia.
Qed.

(** A visible peer was heard, and has outlived every sweep but the last [delta]. *)
Lemma visible_was_heard w id : tracked w -> notified w -> is_Some (view (net w) !! id) ->
  exists t, heard self (history w) id t /\
    forall e now, swept (history w) e now -> e + delta <= clock w -> now - t <= ms timeout.
Proof.
  intros Htr Hno Hv. destruct (nt_view _ Hno id Hv) as [[r Hr]|(p & -> & Hp)%list_elem_of_fmap].
  - exists (last_seen r). split; [by apply (tk_last _ Htr)|]. intros e now Hs _. by eapply tk_swept.
  - destruct (nt_lost _ Hno p Hp) as (n & v & _ & Hh & _ & _ & Hold). exists v. split; [done|].
    intros e now Hs Hlt. apply (Hold e now Hs).
    destruct (nt_evictor _ Hno) as [_ ?]; [|lia]. intros Hn. rewrite Hn in Hp. by apply elem_of_nil in Hp.
Qed.
End invariant.

(** * Properties *)

(** C35: The view as a failure detector, with its delays.  Let the eviction thread look at the
    clock at least every [g], let every notification be delivered less than [delta] after the
    change of the table it reports, every sweep happen within [delta] of its clock reading,
    and [delta] fit into the timeout.  Then at every moment the cluster view holds each peer
    that was heard within the timeout and at least [delta] ago, unless that peer had once
    been dropped by a sweep and come back less than [delta] later; and it holds no peer that
    has been silent for longer than one and a half timeouts, three looks and twice [delta]. *)
Theorem detector_is_timely {IO : IterOrder} delta self port timeout boot w g start obs :
  0 < delta <= ms timeout -> 0 <= g ->
  rtc (watch_step delta) (boot_watch self port timeout boot) w ->
  timely g start obs -> running_looks obs ->
  (exists o, head obs = Some o /\ o.2 <= clock w - 2 * delta) -> (exists o, o ∈ obs /\ clock w - 2 * delta <= o.2) ->
  (forall s, s ∈ (eviction_loop timeout obs).1 -> s + delta <= clock w ->
     exists e, s <= e <= s + delta /\ (e, EvEvict s) ∈ history w) ->
  forall id,
    (~ came_straight_back delta timeout self (history w) id ->
     (exists t, heard self (history w) id t /\ t + delta <= clock w <= t + ms timeout) ->
     is_Some (view (net w) !! id)) /\
    (is_Some (view (net w) !! id) ->
     exists t, heard self (history w) id t /\
       clock w <= t + ms timeout + ms (timeout / 2) + 3 * g + 2 * delta).
Proof.
  intros Hd Hg Hr Hob Hrun Hfirst Hlast Hsweeps id.
  destruct (watch_reachable delta timeout self Hd port boot w Hr) as [Htr Hno]. split.
  - intros Hnb (t & Hh & Ht). by eapply heard_is_visible.
  - intros Hv. destruct (visible_was_heard _ _ _ _ _ Htr Hno Hv) as (t & Hh & Hout). exists t. split; [done|].
    assert (Hto : 0 <= timeout) by (unfold ms in Hd; lia).
    destruct (periodic_covers g (timeout / 2) start obs (clock w - 2 * delta) (S (length obs)) Hg
                ltac:(by apply Z.div_pos) ltac:(lia) Hob Hrun Hfirst Hlast) as (s & Hin & Hsle & HT).
    destruct (Hsweeps s Hin ltac:(lia)) as (e & He & Hswept). specialize (Hout e s Hswept ltac:(lia)). lia.
Qed.

(** C36: A live peer stays visible.  Node [id], whose id fits into an advertisement, runs its
    broadcast loop with an open socket, looking at the clock at least every [g]; every
    datagram reaches this node within [delay], and no older advertisement of [id] is about.
    If the heartbeat interval, three looks, [delay] and [delta] fit into the timeout, the
    view holds [id] at every moment from [delay] and [delta] after the first look on, however
    receptions, sweeps and their notifications interleave. *)
Theorem live_peer_stays_visible {IO : IterOrder} delta self port timeout boot w id heartbeat state_at g start obs delay :
  0 < delta -> 0 <= g -> 0 <= heartbeat -> 0 <= delay -> id_fits id -> id <> self ->
  rtc (watch_step delta) (boot_watch self port timeout boot) w ->
  (forall t, node_id_ (state_at t).1 = id /\ 0 <= broadcast_fd_ (state_at t).2) ->
  timely g start obs -> running_looks obs ->
  (exists o, head obs = Some o /\ o.2 + delay + delta <= clock w /\
     forall t, heard self (history w) id t -> o.2 <= t) ->
  (exists o, o ∈ obs /\ clock w <= o.2) ->
  (forall t pkt, (t, pkt) ∈ (broadcast_loop heartbeat state_at obs).1 -> t + delay <= clock w ->
     exists u ip wall, t <= u <= t + delay /\ (u, EvReceive pkt ip u wall) ∈ history w) ->
  ms heartbeat + 3 * g + delay + delta <= ms timeout ->
  is_Some (view (net w) !! id).
Proof.
  intros Hdel Hg Hhb Hdy Hid Hne Hr Hst Hob Hrun (o & Ho & Hboot & Hnew) (o' & Ho' & Hend) Hdeliver Hfit.
  assert (Hpos : 0 <= ms heartbeat) by (unfold ms; lia).
  destruct (watch_reachable delta timeout self ltac:(lia) port boot w Hr) as [Htr Hno].
  (* a heartbeat arrives shortly before every moment [M] of the loop *)
  assert (Hbeat : forall M, o.2 <= M -> M + delay <= clock w ->
    exists u, heard self (history w) id u /\ u <= M + delay <= u + ms heartbeat + 3 * g + delay).
  { intros M H1 H2.
    destruct (periodic_covers g heartbeat start obs M (S (length obs)) Hg Hhb ltac:(lia) Hob Hrun)
      as (s & Hin & Hsle & HT); [by exists o|exists o'; split; [done|lia]|].
    destruct (Hst s) as [Hnode Hfd].
    destruct (Hdeliver s (packet_bytes (build_advert (state_at s).1))) as (u & ip & wall & Hu & Hev); [|lia|].
    { unfold broadcast_loop, periodic_loop. destruct (periodic _ _ _) as [times ended]. cbn in *.
      apply list_elem_of_omap. exists s. split; [done|]. unfold broadcast_round.
      rewrite Z.geb_leb, (proj2 (Z.leb_le _ _)) by done. done. }
    exists u. split; [|lia]. exists (packet_bytes (build_advert (state_at s).1)), ip, u, wall. split; [done|].
    rewrite <- (app_nil_r (packet_bytes _)), <- Hnode. apply advert_announces; by rewrite Hnode. }
  destruct (Hbeat (clock w - delta - delay) ltac:(lia) ltac:(lia)) as (t & Ht & Hlt).
  eapply heard_is_visible; [done|done| |exact Ht|lia].
  intros (e & now & u & t' & Hs & Hu & Hue & Hall & _).
  pose proof (tk_stamp _ _ _ Htr _ _ Hs). pose proof (tk_past _ _ _ Htr _ _ Hs). specialize (Hnew u Hu).
  destruct (decide (o.2 <= e - 1 - delay)) as [Hlate|Hearly].
  - destruct (Hbeat (e - 1 - delay) Hlate ltac:(lia)) as (v & Hv & Hvb). specialize (Hall v Hv ltac:(lia)). lia.
  - specialize (Hall u Hu Hue). lia.
Qed.

(** * Concrete runs *)

Inductive watch_event := Until (t : Z) | Does (ev : net_event).

Definition stamped_b (delta t : Z) (ev : net_event) : bool :=
  match ev with
  | EvReceive _ _ now _ => now =? t
  | EvEvict now => (now <=? t) && (t <=? now + delta)
  | _ => true
  end.

Definition watch_next (delta : Z) (e : watch_event) (w : watch) : option watch :=
  match e with
  | Until t =>
      if (clock w <=? t) && (bool_decide (listener (net w) = None) || (t <? found_at w + delta))
         && (match evictor (net w) with [] => true | _ => t <? swept_at w + delta end)
      then Some (mkWatch (net w) t (found_at w) (swept_at w) (history w)) else None
  | Does ev =>
      if stamped_b delta (clock w) ev then n ← @net_next IterCanonical ev (net w); Some (acts w ev n) else None
  end.

Fixpoint watch_run (delta : Z) (es : list watch_event) (w : watch) : option watch :=
  match es with
  | [] => Some w
  | e :: es' => w' ← watch_next delta e w; watch_run delta es' w'
  end.

Lemma watch_run_steps delta es w w' : watch_run delta es w = Some w' -> rtc (@watch_step IterCanonical delta) w w'.
Proof.
  revert w. induction es as [|e es IH]; intros w; [by intros [= <-]|]. cbn.
  intros (w1 & He & Hr)%bind_Some. eapply rtc_l; [|by apply IH]. clear Hr IH. destruct e as [t|ev]; cbn in He.
  - case_match eqn:E; [|done]. injection He as <-. apply andb_true_iff in E as [[E1 E2]%andb_true_iff E3].
    constructor; [lia| |].
    + intros [p Hp]. apply orb_true_iff in E2 as [E2%bool_decide_eq_true|E2]; [congruence|lia].
    + intros Hne. destruct (evictor (net w)); [done|lia].
  - case_match eqn:E; [|done]. apply bind_Some in He as (n & Hn & [= <-]). constructor; [|done].
    destruct ev; cbn in *; try done; lia.
Qed.

(** A node with a timeout of 400 ms hears another node once. *)
Definition quiet_run : list watch_event :=
  [Does (EvEvict 0); Until (ms 10); Does (EvReceive sample_advert "10.0.0.7" (ms 10) 0); Until (ms 12);
   Does EvNotifyDiscovered; Until (ms 301); Does (EvEvict (ms 300)); Until (ms 400)].

Definition quiet_watch : watch :=
  default (boot_watch "pi-0" 9000 400 0) (watch_run (ms 5) quiet_run (boot_watch "pi-0" 9000 400 0)).

Lemma quiet_reachable : rtc (@watch_step IterCanonical (ms 5)) (boot_watch "pi-0" 9000 400 0) quiet_watch.
Proof.
  assert (H : bool_decide (is_Some (watch_run (ms 5) quiet_run (boot_watch "pi-0" 9000 400 0))) = true)
    by (vm_compute; reflexivity).
  apply bool_decide_eq_true in H as [w Hw]. unfold quiet_watch. rewrite Hw. by eapply watch_run_steps.
Qed.

(** The moments at which something was received. *)
Definition receptions (h : list (Z * net_event)) : list Z :=
  omap (fun b => match b.2 with EvReceive _ _ _ _ => Some b.1 | _ => None end) h.

Lemma heard_receptions self h id t : heard self h id t -> t ∈ receptions h.
Proof. intros (dg & ip & now & wall & Hin & _). apply list_elem_of_omap. by exists (t, EvReceive dg ip now wall). Qed.

Lemma detector_is_timely_witness :
  clock quiet_watch = ms 400 /\ is_Some (view (net quiet_watch) !! "pi-1") /\
  exists t, heard "pi-0" (history quiet_watch) "pi-1" t /\
    ms 400 <= t + ms 400 + ms (400 / 2) + 3 * ms 50 + 2 * ms 5.
Proof.
  assert (Hc : clock quiet_watch = ms 400) by (vm_compute; reflexivity).
  destruct (@detector_is_timely IterCanonical (ms 5) "pi-0" 9000 400 0 quiet_watch (ms 50) 0 (steady_looks 20)
              ltac:(unfold ms; lia) ltac:(unfold ms; lia) quiet_reachable) with (id := "pi-1") as [H1 H2].
  - vm_compute. repeat split; discriminate.
  - apply Forall_forall. intros o (k & -> & _)%list_elem_of_fmap. reflexivity.
  - eexists. split; [reflexivity|]. vm_compute. discriminate.
  - exists (false, ms 450). split; [decide_now|]. vm_compute. discriminate.
  - assert (H : Forall (fun s => ms 400 < s + ms 5 \/ s = 0 \/ s = ms 300) (eviction_loop 400 (steady_looks 20)).1)
      by decide_now.
    rewrite Forall_forall in H. rewrite Hc. intros s Hin Hs. destruct (H _ Hin) as [?|[->| ->]]; [lia|..].
    + exists 0. split; [unfold ms; lia|]. vm_compute. left.
    + exists (ms 301). split; [unfold ms; lia|]. vm_compute. repeat (left || right).
  - assert (Hh : forall t, heard "pi-0" (history quiet_watch) "pi-1" t -> t = ms 10).
    { intros t Ht%heard_receptions. vm_compute in Ht. apply list_elem_of_singleton in Ht. by subst t. }
    assert (Hin : heard "pi-0" (history quiet_watch) "pi-1" (ms 10)).
    { exists sample_advert, "10.0.0.7", (ms 10), 0. split; [|vm_compute; reflexivity].
      vm_compute. right. left. }
    assert (Hv : is_Some (view (net quiet_watch) !! "pi-1")).
    { apply H1.
      - intros (e & now & u & t & _ & Hu%Hh & Hue & _ & Ht%Hh & Hte). lia.
      - exists (ms 10). split; [exact Hin|]. rewrite Hc. unfold ms. lia. }
    split; [exact Hc|]. split; [exact Hv|]. destruct (H2 Hv) as (t & Ht & Hle). exists t. rewrite <- Hc at 1. by split.
Defined.

(** The default configuration, a heartbeat of 2 s and a timeout of 6 s: every heartbeat takes
    5 ms; the first is announced, and a sweep happens after the second. *)
Definition heartbeats : list (Z * list Z) := (broadcast_loop 2000 (fun _ => pi_1) (steady_looks 200)).1.

Definition live_run : list watch_event :=
  match (fun p => [Until (p.1 + ms 5); Does (EvReceive p.2 "10.0.0.7" (p.1 + ms 5) 0)]) <$> heartbeats with
  | first :: second :: rest =>
      first ++ [Until (ms 7); Does EvNotifyDiscovered] ++ second ++ [Until (ms 3002); Does (EvEvict (ms 3000))]
      ++ concat rest
  | _ => []
  end ++ [Until (ms 9900)].

Definition live_watch : watch :=
  default (boot_watch "pi-0" 9000 6000 0) (watch_run (ms 5) live_run (boot_watch "pi-0" 9000 6000 0)).

Lemma live_reachable : rtc (@watch_step IterCanonical (ms 5)) (boot_watch "pi-0" 9000 6000 0) live_watch.
Proof.
  assert (H : bool_decide (is_Some (watch_run (ms 5) live_run (boot_watch "pi-0" 9000 6000 0))) = true)
    by (vm_compute; reflexivity).
  apply bool_decide_eq_true in H as [w Hw]. unfold live_watch. rewrite Hw. by eapply watch_run_steps.
Qed.

Definition received (h : list (Z * net_event)) : list (Z * list Z * string * Z * Z) :=
  omap (fun b => match b.2 with EvReceive dg ip now wall => Some (b.1, dg, ip, now, wall) | _ => None end) h.

Lemma received_in h t dg ip now wall : (t, dg, ip, now, wall) ∈ received h -> (t, EvReceive dg ip now wall) ∈ h.
Proof.
  intros ([u ev] & Hin & He)%list_elem_of_omap. cbn in He. destruct ev; try done. by injection He as -> -> -> -> ->.
Qed.

Lemma live_peer_stays_visible_witness :
  length heartbeats = 5%nat /\ clock live_watch = ms 9900 /\ is_Some (view (net live_watch) !! "pi-1").
Proof.
  assert (Hc : clock live_watch = ms 9900) by (vm_compute; reflexivity).
  split; [vm_compute; reflexivity|]. split; [exact Hc|].
  apply (@live_peer_stays_visible IterCanonical (ms 5) "pi-0" 9000 6000 0 live_watch "pi-1" 2000 (fun _ => pi_1)
           (ms 50) 0 (steady_looks 200) (ms 10)); try (unfold ms; lia).
  - split; [vm_compute; lia|decide_now].
  - done.
  - exact live_reachable.
  - intros t. split; [reflexivity|]. cbn. lia.
  - vm_compute. repeat split; discriminate.
  - apply Forall_forall. intros o (k & -> & _)%list_elem_of_fmap. reflexivity.
  - exists (false, 0). split; [reflexivity|]. rewrite Hc. split; [vm_compute; discriminate|].
    intros t Ht%heard_receptions. assert (H : Forall (fun t => 0 <= t) (receptions (history live_watch))) by decide_now.
    rewrite Forall_forall in H. by apply H.
  - exists (false, ms 9900). split; [decide_now|]. rewrite Hc. done.
  - intros t pkt Hin _. exists (t + ms 5), "10.0.0.7", 0. split; [unfold ms; lia|].
    assert (H : Forall (fun b => (b.1 + ms 5, b.2, "10.0.0.7", b.1 + ms 5, 0) ∈ received (history live_watch))
                  (broadcast_loop 2000 (fun _ => pi_1) (steady_looks 200)).1) by decide_now.
    rewrite Forall_forall in H. exact (received_in _ _ _ _ _ _ (H _ Hin)).
Defined.
