(* ===== verification/Daemon.v ===== *)
(** The daemon of [app/main.cpp] from start to exit: the callbacks [Orchestrator::start]
    registers with [PeerDiscovery], the main loop, the work other threads do between its
    turns, the shutdown, and the log and metrics streams that are left behind. *)

From Stdlib Require Import ZArith Lia.
From stdpp Require Import base gmap strings relations numbers pretty list.
From S2P Require Import Prelude Text Float32 Core Dag Config MemoryPool TaskRunner Scheduler Greedy Threshold Optimizer.
From S2P Require Import OptimizerTheorems Codec CodecTheorems Transport Cluster Discovery Telemetry TelemetryTheorems Monitor Main.
From S2P Require Import Orchestrator.

Local Open Scope Z_scope.

(** * Callbacks *)

(** [on_discovered_] and [on_lost_] of a [PeerDiscovery] whose callbacks act on [S]. *)
Record callbacks (S : Type) := mkCallbacks {
  on_discovered_ : list (PeerInfo -> S -> S);
  on_lost_ : list (PeerInfo -> S -> S)
}.
Arguments mkCallbacks {S}. Arguments on_discovered_ {S}. Arguments on_lost_ {S}.

Definition on_peer_discovered {S} (cb : PeerInfo -> S -> S) (c : callbacks S) : callbacks S :=
  mkCallbacks (on_discovered_ c ++ [cb]) (on_lost_ c).
Definition on_peer_lost {S} (cb : PeerInfo -> S -> S) (c : callbacks S) : callbacks S :=
  mkCallbacks (on_discovered_ c) (on_lost_ c ++ [cb]).

Definition notify_discovered {S} (c : callbacks S) (peer : PeerInfo) (s : S) : S :=
  foldl (fun s cb => cb peer s) s (on_discovered_ c).
Definition notify_lost {S} (c : callbacks S) (peer : PeerInfo) (s : S) : S :=
  foldl (fun s cb => cb peer s) s (on_lost_ c).

(** * The running daemon *)

Record daemon := mkDaemon {
  d_services : services;
  d_callbacks : callbacks Orchestrator;
  d_orch : Orchestrator
}.

Definition new_daemon (c : Config) : daemon :=
  mkDaemon services_off (mkCallbacks [] []) (new_orchestrator c).

(** [Orchestrator::start] with the registrations. *)
Definition daemon_start (listened : Result unit) (d : daemon) : Result unit * daemon :=
  let '(r, s, o) := Orchestrator.start listened (d_services d) (d_orch d) in
  let c := if running_ (d_services d) then d_callbacks d
           else on_peer_lost on_lost (on_peer_discovered on_discovered (d_callbacks d)) in
  (r, mkDaemon s c o).

Definition with_services (s : services) (d : daemon) : daemon := mkDaemon s (d_callbacks d) (d_orch d).
Definition daemon_log (l : LogLevel) (msg : string) (d : daemon) : daemon :=
  mkDaemon (d_services d) (d_callbacks d) (logs l msg (d_orch d)).

(** [stop] while no other thread does anything. *)
Definition stop_alone (d : daemon) : daemon :=
  let '(s, o) := Orchestrator.stop (d_services d) (d_orch d) in mkDaemon s (d_callbacks d) o.

Section daemon.
Context {PB : Protobuf} (strerror : Z -> string).
Context {IO : IterOrder} {SS : StdSort} {R : Rng}.

(** What the other threads do: serve a request, deliver a notification, refresh the
    advertised resources.  An activity is one step here; each records at most one event when
    no client is served, so every order of the metrics stream is a list of activities. *)
Inductive activity :=
  | Serves (request : list Z) (e : message_env)
  | Announces (peer : PeerInfo)
  | Withdraws (peer : PeerInfo)
  | Refreshes (snap : Result ResourceSnapshot).

(** The service that does it is up. *)
Definition active (a : activity) (s : services) : bool :=
  match a with
  | Serves _ _ => server_on s
  | Announces _ | Withdraws _ => discovery_on s
  | Refreshes _ => resource_thread_on s
  end.

(** [None] when the service is down, or a request is still being served. *)
Definition background (a : activity) (d : daemon) : option daemon :=
  if active a (d_services d) then
  match a with
  | Serves request e =>
      '(_, o) ← handle_message strerror request e (d_orch d);
      Some (mkDaemon (d_services d) (d_callbacks d) o)
  | Announces peer =>
      Some (mkDaemon (d_services d) (d_callbacks d) (notify_discovered (d_callbacks d) peer (d_orch d)))
  | Withdraws peer =>
      Some (mkDaemon (d_services d) (d_callbacks d) (notify_lost (d_callbacks d) peer (d_orch d)))
  | Refreshes snap => Some (mkDaemon (d_services d) (d_callbacks d) (resource_round snap (d_orch d)))
  end
  else None.

Fixpoint run_background (acts : list activity) (d : daemon) : option daemon :=
  match acts with
  | [] => Some d
  | a :: acts' => d' ← background a d; run_background acts' d'
  end.

(** One test of the loop's condition: what happened before it, the flag the signal handler
    sets, and what the monitor answers. *)
Record main_turn := mkMainTurn {
  mt_before : list activity;
  mt_shutdown : bool;
  mt_snap : Result ResourceSnapshot
}.

Definition reports (l : list (LogLevel * string)) (es : list event) (o : Orchestrator) : Orchestrator :=
  mkOrchestrator (config_ o) (memory_pool_ o) (cluster_mgr_ o) (discovery_ o)
    (log_calls o ++ l) (metric_events o ++ es).

(** The body of the loop but for the sleep. *)
Definition main_body (undef loop_count : Z) (snap : Result ResourceSnapshot) (d : daemon) : daemon :=
  let '(l, es) := status_round undef loop_count snap (size (cluster_mgr_ (d_orch d))) in
  mkDaemon (d_services d) (d_callbacks d) (reports l es (d_orch d)).

(** [None] while the loop runs. *)
Fixpoint main_loop (undef loop_count : Z) (turns : list main_turn) (d : daemon) : option daemon :=
  match turns with
  | [] => None
  | t :: turns' =>
      d ← run_background (mt_before t) d;
      if mt_shutdown t then Some d
      else main_loop undef (u64 (loop_count + 1)) turns' (main_body undef loop_count (mt_snap t) d)
  end.

(** What the other threads still do after the loop: before [main] logs that it shuts down,
    until the resource thread is joined, until [discovery_.stop()] returns, and until
    [offload_server_.stop_serving()] returns. *)
Record stop_course := mkStopping {
  sp_requested : list activity;
  sp_joining : list activity;
  sp_discovery : list activity;
  sp_server : list activity
}.

(** [Orchestrator::stop]. *)
Definition daemon_stop (sp : stop_course) (d : daemon) : option daemon :=
  let s := d_services d in
  if running_ s then
    let d := with_services (mkServices false (monitor_on s) (server_on s) (discovery_on s) (resource_thread_on s)) d in
    d ← run_background (sp_joining sp) (daemon_log Info "Orchestrator shutting down..." d);
    let d := with_services (mkServices false (monitor_on s) (server_on s) (discovery_on s) false) d in
    d ← run_background (sp_discovery sp) d;
    let d := with_services (mkServices false (monitor_on s) (server_on s) false false) d in
    d ← run_background (sp_server sp) d;
    Some (daemon_log Info "Orchestrator stopped" (with_services services_off d))
  else Some d.

(** What [main] does without [--demo]: its exit status and the daemon at the end. *)
Definition run_daemon (undef : Z) (c : Config) (listened : Result unit) (turns : list main_turn) (sp : stop_course)
  : option (Z * daemon) :=
  let '(r, d) := daemon_start listened (new_daemon c) in
  match r with
  | Err _ => Some (1, d)
  | Ok _ =>
      let d := daemon_log Info "Entering main loop. Press Ctrl+C to shutdown." d in
      d ← main_loop undef 0 turns d;
      d ← run_background (sp_requested sp) d;
      d ← daemon_stop sp (daemon_log Info "Shutdown requested. Cleaning up..." d);
      Some (0, d)
  end.







(** * The life of a daemon without clients *)












(** With nothing else going on [daemon_stop] is [Orchestrator::stop]. *)
Lemma daemon_stop_alone d : daemon_stop (mkStopping [] [] [] []) d = Some (stop_alone d) \/ running_ (d_services d) = false.
Proof.
  unfold daemon_stop, stop_alone, Orchestrator.stop. destruct (running_ (d_services d)); [left|by right].
  reflexivity.
Qed.





(** * Properties *)

End daemon.

(** The branch of [main] for a failed start is dead: [start] on a new orchestrator never
    fails, and a daemon whose port is taken runs on without a server. *)
Lemma failed_start_is_dead {PB : Protobuf} strerror {IO : IterOrder} {SS : StdSort} {R : Rng}
    undef c listened turns sp status d :
  run_daemon strerror undef c listened turns sp = Some (status, d) -> status = 0.
Proof.
  unfold run_daemon, daemon_start. cbn [new_daemon d_services services_off running_ Orchestrator.start].
  destruct listened; cbn [mbind option_bind]; (destruct (main_loop _ _ _ _ _) as [d1|]; [|done]); cbn [mbind option_bind];
    (destruct (run_background _ _ d1) as [d2|]; [|done]); cbn [mbind option_bind];
    (destruct (daemon_stop _ _ _); [|done]); by intros [= <- _].
Qed.

(** [n] starts with a stop between them. *)
Fixpoint restarted (n : nat) (listened : Result unit) (d : daemon) : daemon :=
  match n with
  | O => d
  | S n' => restarted n' listened (stop_alone (daemon_start listened d).2)
  end.

Lemma restarted_callbacks n listened d : running_ (d_services d) = false ->
  d_callbacks (restarted n listened d) =
  mkCallbacks (on_discovered_ (d_callbacks d) ++ replicate n on_discovered)
    (on_lost_ (d_callbacks d) ++ replicate n on_lost).
Proof.
  revert d. induction n as [|n IH]; intros d Hd; cbn [restarted replicate].
  - destruct (d_callbacks d). by rewrite !app_nil_r.
  - rewrite IH.
    + unfold stop_alone, daemon_start, Orchestrator.start, Orchestrator.stop. rewrite Hd. cbn.
      destruct listened; cbn; by rewrite <- !app_assoc.
    + unfold stop_alone, daemon_start, Orchestrator.start, Orchestrator.stop. rewrite Hd. by destruct listened.
Qed.

(** Registrations are never taken back: after [n] starts one discovery is recorded [n]
    times, although the view is the same. *)
Lemma restarts_repeat_events n listened c peer :
  let d := restarted n listened (new_daemon c) in
  let o := notify_discovered (d_callbacks d) peer (d_orch d) in
  metric_events o = metric_events (d_orch d) ++ replicate n (EPeer (peer_node_id peer) "discovered").
Proof.
  cbn. rewrite restarted_callbacks by done. unfold notify_discovered. cbn.
  generalize (d_orch (restarted n listened (new_daemon c))). induction n as [|n IH]; intros o; cbn.
  - by rewrite app_nil_r.
  - rewrite IH. cbn. by rewrite <- app_assoc.
Qed.

(** * A concrete run *)



