(* ===== verification/EndToEnd.v ===== *)
(** Two nodes talking: a task offloaded by [offload_to_peer] and a DAG sent as a workload
    submission, through the codec, the framing and the peer's [handle_message]. *)

From Stdlib Require Import ZArith Lia.
From stdpp Require Import base gmap strings relations numbers pretty list.
From S2P Require Import Prelude Float32 Core Dag Kahn Cycle Metrics DagTheorems Config MemoryPool TaskRunner.
From S2P Require Import Scheduler Greedy Threshold Optimizer OptimizerTheorems Codec CodecTheorems Transport Reactor.
From S2P Require Import AsyncTransport Cluster Discovery Telemetry Orchestrator OrchestratorTheorems.

Local Open Scope Z_scope.

Section end_to_end.
Context {PB : Protobuf} {PL : ProtobufLaws PB} (strerror : Z -> string)
        {IO : IterOrder} {SS : StdSort} {R : Rng}.

(** * A task *)

(** The answer to an offload request that ran. *)
Definition response_to (r : ExecutionResult) : list Z :=
  encode_response (bool_decide (er_final_state r = Completed)) (er_actual_duration r)
    (er_peak_memory_bytes r) (default "" (er_error_message r)) [].

Definition response_envelope_of (r : ExecutionResult) : Envelope :=
  response_envelope (bool_decide (er_final_state r = Completed)) (er_actual_duration r)
    (er_peak_memory_bytes r) (default "" (er_error_message r)) [].

Lemma request_arrives id p : profile_ok p -> transmissible (request_envelope id p []) ->
  classify (encode_request id p []) = KindOffloadRequest /\
  decode_request (encode_request id p []) = Some (id, p, []).
Proof.
  intros Hp T. unfold classify, decode_request, encode_request. rewrite buffer_roundtrip by done.
  cbn -[msg_profile profile_msg]. by rewrite profile_roundtrip.
Qed.

Lemma response_arrives r : is_i64 (er_actual_duration r) -> transmissible (response_envelope_of r) ->
  decode_response (response_to r) =
  Some (bool_decide (er_final_state r = Completed), er_actual_duration r, er_peak_memory_bytes r,
        default "" (er_error_message r), []).
Proof.
  intros Hd T. unfold decode_response, response_to, encode_response. rewrite buffer_roundtrip by done.
  cbn. by rewrite i64_u64.
Qed.

(** The peer executes the task it was sent and answers with what happened. *)
Lemma handle_offload_message id p e o r pool' :
  profile_ok p -> transmissible (request_envelope id p []) ->
  execute id p (memory_pool_ o) (me_run e) = Some (r, pool') ->
  exists o', handle_message strerror (encode_request id p []) e o = Some (response_to r, o') /\
    task_reports o' = task_reports o ++ [id] /\
    memory_pool_ o' = (if me_owns_lock e then reset pool' else pool').
Proof.
  intros Hp T Hx. destruct (request_arrives id p Hp T) as [Hk Hd].
  unfold handle_message. rewrite Hk. unfold handle_offload_request. rewrite Hd. cbv zeta.
  unfold run_task. cbn [memory_pool_ logs]. rewrite Hx. cbn [mbind option_bind].
  eexists. split; [done|]. split; [|by destruct (me_owns_lock e)].
  by rewrite task_reports_reset, task_reports_records.
Qed.

(** The message handler as the server thread calls it: the bytes it answers with. *)
Definition answers (e : message_env) (o : Orchestrator) (request : list Z) : list Z :=
  default [] (fst <$> handle_message strerror request e o).

(** C4: offloading is faithful end to end.  When the peer is known, the connection opens and
    no transfer breaks, the peer's server receives exactly the task sent, runs it in its own arena,
    and [offload_to_peer] reports a good transport and exactly the state, duration and error
    of that run -- for every fragmentation of the four transfers. *)
Theorem offload_end_to_end cluster id p target peer ce ss rs srv me o r pool' :
  peer_info cluster target = Some peer -> peer_address peer <> "" -> peer_tcp_port peer <> 0 ->
  (connect strerror ce (peer_address peer) new_transport).1 = Ok tt ->
  profile_ok p -> transmissible (request_envelope id p []) ->
  execute id p (memory_pool_ o) (me_run me) = Some (r, pool') ->
  is_i64 (er_actual_duration r) -> transmissible (response_envelope_of r) ->
  Z.of_nat (length (encode_request id p [])) <= MAX_MESSAGE_SIZE ->
  Z.of_nat (length (response_to r)) <= MAX_MESSAGE_SIZE ->
  Forall benign (ss ++ rs) -> Forall prompt srv ->
  (length (frame (encode_request id p [])) <= moves ss)%nat ->
  (length (frame (response_to r)) <= moves rs)%nat ->
  (length (frame (encode_request id p [])) + length (frame (response_to r)) <= amoves srv)%nat ->
  let client := (connect strerror ce (peer_address peer) new_transport).2 in
  exists request reply ss',
    send ss (encode_request id p []) client = Some (Ok tt, request, ss') /\
    handle_connection (answers me o) false srv request = Some reply /\
    offload_to_peer strerror cluster id p target (mkOffload ce ss rs reply) =
      Some (mkOutcome true (bool_decide (er_final_state r = Completed)) (er_actual_duration r)
              (default "" (er_error_message r))).
Proof.
  intros Hpeer Ha Hport Hconn Hp T1 Hx Hdur T2 Hl1 Hl2 Hb Hbv Hm1 Hm2 Hm3 client.
  apply Forall_app in Hb as [Hbs Hbr].
  destruct (handle_offload_message id p me o r pool' Hp T1 Hx) as (o' & Hh & _).
  assert (answers me o (encode_request id p []) = response_to r) as Eans by (unfold answers; by rewrite Hh).
  destruct (send_on_fd_live ss _ Hl1 Hbs Hm1) as [ss' Hs].
  assert (client_fd_ client <? 0 = false) as Hc.
  { pose proof (owns_connect strerror ce (peer_address peer) new_transport) as H.
    unfold client in *. destruct (connect _ _ _ _) as [res t]. cbn [fst snd] in *.
    destruct H as (_ & H & _); [split; [set_solver|simpl; lia]|set_solver|].
    specialize (H Hconn). unfold is_connected in H. rewrite Z.geb_leb in H. apply Z.ltb_ge. by apply Z.leb_le. }
  assert (send ss (encode_request id p []) client = Some (Ok tt, frame (encode_request id p []), ss')) as Hsend
    by (unfold send; by rewrite Hc).
  exists (frame (encode_request id p [])), (frame (response_to r)), ss'.
  split_and!; [done| |].
  { rewrite <- (app_nil_r (frame (encode_request id p []))), <- Eans.
    apply handle_connection_live; rewrite ?Eans; done. }
  unfold offload_to_peer. rewrite Hpeer, decide_False by naive_solver. cbn [oe_connect oe_send oe_recv oe_reply].
  unfold client in *. destruct (connect _ _ _ _) as [res t]. cbn [fst snd] in *. subst res.
  rewrite Hsend. cbn [mbind option_bind]. unfold receive. rewrite Hc.
  destruct (recv_on_fd_live rs (response_to r) []) as (rs' & Hr & _); [done..|].
  rewrite app_nil_r in Hr. rewrite Hr. cbn [mbind option_bind]. by rewrite response_arrives.
Qed.

(** * A workload *)

Lemma same_tasks_count (d d' : WorkloadDAG) (f : Task -> Task) :
  tasks_ d' = f <$> tasks_ d -> task_count d' = task_count d.
Proof. unfold task_count. intros ->. apply map_size_fmap. Qed.

Lemma same_tasks_closed (d d' : WorkloadDAG) (f : Task -> Task) :
  tasks_ d' = f <$> tasks_ d -> (forall u v, edge d' u v <-> edge d u v) -> closed d -> closed d'.
Proof.
  intros Ht He Hc u v Huv%He. destruct (Hc u v Huv). unfold known in *.
  by rewrite Ht, !lookup_fmap, !fmap_is_Some.
Qed.

(** The tasks in either node's order are the same, the iteration orders of the two hash
    tables notwithstanding. *)
Lemma same_tasks_order (d d' : WorkloadDAG) (f : Task -> Task) :
  tasks_ d' = f <$> tasks_ d -> closed d -> closed d' -> is_valid d = true -> is_valid d' = true ->
  topological_order d' ≡ₚ topological_order d.
Proof.
  intros Ht Hc Hc' Hv Hv'. rewrite (valid_closed_perm d Hc Hv), (valid_closed_perm d' Hc' Hv').
  apply NoDup_Permutation; [apply NoDup_iter_fst..|]. intros v. rewrite !elem_of_iter_fst, Ht, lookup_fmap.
  by rewrite fmap_is_Some.
Qed.

Lemma accounted_same d d' P r ran :
  topological_order d' ≡ₚ topological_order d -> task_count d' = task_count d ->
  accounted d' P r ran -> accounted d P r ran.
Proof. intros Hp Hn []. split; rewrite <- ?Hp, <- ?Hn; done. Qed.

Lemma result_arrives w r r0 : result_ok r -> transmissible (workload_result_envelope w true "" r) ->
  exists r1, decode_workload_result (encode_workload_result w true "" r) r0 = Some (w, true, "", r1) /\
    local_tasks r1 = local_tasks r /\ offloaded_tasks r1 = offloaded_tasks r /\
    completed_tasks r1 = completed_tasks r /\ failed_tasks r1 = failed_tasks r /\
    offload_fallbacks r1 = offload_fallbacks r /\ total_duration r1 = total_duration r.
Proof.
  intros [? ?] T. unfold decode_workload_result, encode_workload_result. rewrite buffer_roundtrip by done.
  eexists. split_and!; [done|simpl; try done; by apply i64_u64..].
Qed.

Lemma submission_classified w dag : transmissible (submission_envelope w dag) ->
  classify (encode_submission w dag) = KindWorkloadSubmission.
Proof. intros T. unfold classify, encode_submission. by rewrite buffer_roundtrip. Qed.

(** What a peer does with an accepted submission, whoever encoded it. *)
Lemma submission_handled bytes w d' me o answer o' :
  classify bytes = KindWorkloadSubmission -> decode_submission bytes "" empty_dag = (true, w, d') ->
  closed d' -> is_valid d' = true ->
  handle_message strerror bytes me o = Some (answer, o') ->
  let in_time := Forall (timely (deadline_of (me_submit me))) (se_events (me_submit me)) in
  (exists r ran, answer = encode_workload_result w true "" r /\
     task_reports o' = task_reports o ++ ran /\ accounted d' in_time r ran) \/
  (exists err, se_snapshot (me_submit me) = Err err) /\
  answer = encode_workload_result w false "Resource monitor not ready" empty_result.
Proof.
  intros Hk Hdec Hc Hv. unfold handle_message. rewrite Hk. unfold handle_workload_submission. rewrite Hdec.
  cbn [negb]. set (o1 := logs Info _ o). intros H. cbv zeta.
  destruct (submit_workload strerror (me_submit me) d' o1) as [[[r|err] o2]|] eqn:Hs; [| |done];
    injection H as <- <-.
  - left. destruct (submit_workload_accounted strerror _ _ _ _ _ Hc Hv Hs) as (ran & Hr & Ha). by exists r, ran.
  - right. unfold submit_workload in Hs. destruct (se_snapshot (me_submit me)) as [snap|e0] eqn:Esn.
    + exfalso. cbv zeta in Hs. destruct (sub_run _ _ _ _ _ _) as [s'|]; [|done]. cbn in Hs. by destruct (s_waiter s').
    + injection Hs as <- _. split; [by exists e0|done].
Qed.

(** C3: submitting a DAG to another node, end to end.  A valid closed DAG sent to a peer is
    accepted there; the peer runs tasks of that DAG, each at most once and every one of them
    when no deadline cut the call short; and the client decodes a result whose counts are
    the peer's.  Only a monitor that is not ready makes the peer refuse. *)
Theorem submission_end_to_end w dag me o bytes o' :
  dag_wf dag -> deps_mirror dag -> closed dag -> is_valid dag = true -> profiles_ok dag ->
  transmissible (submission_envelope w dag) ->
  handle_message strerror (encode_submission w dag) me o = Some (bytes, o') ->
  let in_time := Forall (timely (deadline_of (me_submit me))) (se_events (me_submit me)) in
  (exists r ran, bytes = encode_workload_result w true "" r /\
     task_reports o' = task_reports o ++ ran /\ accounted dag in_time r ran /\
     (result_ok r -> transmissible (workload_result_envelope w true "" r) ->
      exists r1, decode_workload_result bytes empty_result = Some (w, true, "", r1) /\
        accounted dag in_time r1 ran)) \/
  (exists err, se_snapshot (me_submit me) = Err err) /\
  bytes = encode_workload_result w false "Resource monitor not ready" empty_result.
Proof.
  intros Hwf Hm Hc Hv Hp T H in_time.
  destruct (decode_encode_submission w "" dag) as (d' & Hdec & Ht & He & Hv'); [done..|].
  pose proof (same_tasks_closed dag d' _ Ht He Hc) as Hc'.
  destruct (submission_handled _ _ _ _ _ _ _ (submission_classified w dag T) Hdec Hc' Hv' H)
    as [(r & ran & -> & Hr & Ha)|]; [left|by right].
  apply (accounted_same dag d') in Ha; [|by eapply same_tasks_order|by eapply same_tasks_count].
  exists r, ran. split_and!; [done|done|done|]. intros Hok Tr.
  destruct (result_arrives w r empty_result Hok Tr) as (r1 & Hd & E1 & E2 & E3 & E4 & E5 & _).
  exists r1. split; [done|]. destruct Ha. split; rewrite ?E1, ?E2, ?E3, ?E4, ?E5; done.
Qed.
End end_to_end.

(** * Two concrete nodes *)

#[local] Existing Instance IterCanonical.
#[local] Existing Instance InsertionSort.
#[local] Existing Instance CounterRng.
#[local] Existing Instance BitProtobuf.

Definition sample_message : message_env := mkMessageEnv sample_run true sample_submit.
Definition far_peer : PeerInfo := mkPeer "pi-3" (sample_snapshot "pi-3" 30 60 100) "10.0.0.3" 5201 true.
Definition far_node : Orchestrator := new_orchestrator default_config.
Definition far_result : ExecutionResult := mkExec "t" Completed 30 64 None.

(** Enough answers, each moving up to fifty bytes, one of them interrupted. *)
Definition sample_io : list io := mkIo 1 (-1) EAGAIN :: replicate 2000 (mkIo 1 50 0).

Definition sample_aio : list aio := mkAio (-1) EAGAIN true :: replicate 2000 (mkAio 50 0 true).

Lemma sample_io_benign : Forall benign (sample_io ++ sample_io).
Proof. decide_now. Qed.

Lemma sample_aio_prompt : Forall prompt sample_aio.
Proof. decide_now. Qed.

Lemma sample_profile_ok : profile_ok CodecTheorems.sample_profile.
Proof. repeat split; vm_compute; congruence. Qed.

Definition quick_message : message_env :=
  mkMessageEnv (mkEnv 0 0 [mkTick false 2000000] 30000 false false) true sample_submit.

Lemma offload_end_to_end_witness :
  peer_info (cluster_mgr_ sample_node) "pi-3" = Some far_peer /\
  exists reply,
    offload_to_peer sample_strerror (cluster_mgr_ sample_node) "t" CodecTheorems.sample_profile "pi-3"
      (mkOffload (mkConnect 7 0 1 0 0 0 0) sample_io sample_io reply) = Some (mkOutcome true true 30 "").
Proof.
  split; [vm_compute; reflexivity|].
  destruct (offload_end_to_end sample_strerror (cluster_mgr_ sample_node) "t" CodecTheorems.sample_profile "pi-3"
    far_peer (mkConnect 7 0 1 0 0 0 0) sample_io sample_io sample_aio quick_message far_node far_result
    (mkPool 67108864 64)) as (request & reply & ss' & _ & _ & H);
    [vm_compute; reflexivity|discriminate|discriminate|vm_compute; reflexivity|exact sample_profile_ok
    |apply bit_transmissible; vm_compute; reflexivity|vm_compute; reflexivity|split; vm_compute; congruence
    |apply bit_transmissible; vm_compute; reflexivity|vm_compute; congruence|vm_compute; congruence
    |exact sample_io_benign|exact sample_aio_prompt|apply Nat.leb_le; vm_compute; reflexivity..|].
  exists reply. exact H.
Defined.

Definition sample_answer : option (list Z * Orchestrator) :=
  handle_message sample_strerror (encode_submission "w" diamond_dag) sample_message sample_node.

Lemma diamond_transmissible : transmissible (submission_envelope "w" diamond_dag).
Proof. apply bit_transmissible. vm_compute. reflexivity. Qed.

Lemma sample_answered : bool_decide (is_Some sample_answer) = true.
Proof. vm_compute. reflexivity. Qed.

Lemma submission_end_to_end_witness :
  exists bytes o', sample_answer = Some (bytes, o') /\
    exists r ran, bytes = encode_workload_result "w" true "" r /\
      completed_tasks r + failed_tasks r = 4 /\ ran ≡ₚ topological_order diamond_dag.
Proof.
  destruct sample_answer as [[bytes o']|] eqn:E; [|pose proof sample_answered as H; rewrite E in H; discriminate H].
  exists bytes, o'. split; [reflexivity|].
  pose proof (submission_end_to_end sample_strerror "w" diamond_dag sample_message sample_node bytes o') as H.
  specialize (H (build_wf _ _) (deps_mirror_build _ _) diamond_closed diamond_valid diamond_profiles_ok
                diamond_transmissible E).
  destruct H as [(r & ran & Hb & _ & Ha & _)|[[err Herr] _]]; [|discriminate Herr].
  exists r, ran. split; [exact Hb|]. destruct (acc_all _ _ _ _ Ha) as [Hp Hc]; [decide_now|].
  split; [exact Hc|exact Hp].
Defined.
