(* ===== verification/ErrorPaths.v ===== *)
(** The error paths of [orchestrator/orchestrator.hpp]: what becomes of a task whose round
    trip to a peer breaks, and of a request the node cannot serve. *)

From Stdlib Require Import ZArith Lia.
From stdpp Require Import base gmap strings relations numbers pretty list.
From S2P Require Import Prelude Float32 Core Dag Kahn Config MemoryPool TaskRunner Scheduler Greedy Threshold Optimizer.
From S2P Require Import OptimizerTheorems Codec CodecTheorems Transport Cluster Discovery Telemetry Orchestrator.
From S2P Require Import OrchestratorTheorems EndToEnd.

Local Open Scope Z_scope.

Section errors.
Context {PB : Protobuf} {PL : ProtobufLaws PB} (strerror : Z -> string)
        {IO : IterOrder} {SS : StdSort} {R : Rng}.

(** * Broken round trips *)

(** Where a round trip can break. *)
Definition stages : list string :=
  ["no known endpoint for "; "connect: "; "send: "; "receive: "; "malformed response"].

(** A round trip that broke reports its stage and no task result. *)
Lemma broken_outcome cluster id profile target e outcome :
  offload_to_peer strerror cluster id profile target e = Some outcome -> transport_ok outcome = false ->
  task_ok outcome = false /\ out_duration outcome = 0 /\
  exists stage detail, stage ∈ stages /\ out_error outcome = stage +:+ detail.
Proof.
  assert (Hf : forall stage detail oc, stage ∈ stages -> offload_failed (stage +:+ detail) = Some oc ->
    task_ok oc = false /\ out_duration oc = 0 /\ exists s d, s ∈ stages /\ out_error oc = s +:+ d).
  { intros stage detail oc Hin [= <-]. split_and!; [done..|]. by exists stage, detail. }
  unfold offload_to_peer. intros H Hok. revert H.
  destruct (peer_info cluster target) as [peer|]; [|apply Hf; set_solver].
  case_decide; [apply Hf; set_solver|].
  destruct (connect _ _ _ _) as [[?|er] client]; [|apply Hf; set_solver].
  destruct (send _ _ client) as [[[[?|er] ?] ?]|]; [|apply Hf; set_solver|done]. cbn.
  destruct (receive _ _ client) as [[[[bytes|er] ?] ?]|]; [|apply Hf; set_solver|done]. cbn.
  destruct (decode_response bytes) as [[[[[] ] ] ]|]; [intros [= <-]; done..|].
  apply (Hf "malformed response" EmptyString). set_solver.
Qed.

(** The steps of a job whose round trip breaks: the round trip, the warning, the event, the
    count, the run on this node, its report and its count. *)
Definition fallback_steps (i : nat) (e : offload_env) (env : run_env) : list sub_event :=
  [EvOffload i e; EvJob i; EvJob i; EvJob i; EvRun i env; EvJob i; EvJob i].

Lemma sub_run_step dag total deadline ev evs s s1 s2 : sub_next strerror dag total deadline ev s = Some s1 ->
  sub_run strerror dag total deadline evs s1 = Some s2 -> sub_run strerror dag total deadline (ev :: evs) s = Some s2.
Proof. intros H1 H2. cbn [sub_run]. by rewrite H1. Qed.

(** The state of the job that has just moved. *)
Ltac rewrite_job :=
  cbn [s_jobs with_job count_fallback]; rewrite list_lookup_insert_eq by (cbn [s_jobs]; by rewrite ?length_insert).

(** C8: A task is not lost when its round trip breaks, whatever broke.  The warning names the
    stage, the fallback is counted and recorded, and the same job then runs on this node: it
    ends exactly once, with the local result, and is counted as completed or failed by it. *)
Theorem broken_offload_falls_back dag total deadline i j target e s outcome env r o1 :
  s_jobs s !! i = Some (Queued j) -> j_target j = Some target ->
  offload_to_peer strerror (cluster_mgr_ (s_orch s)) (j_id j) (j_profile j) target e = Some outcome ->
  transport_ok outcome = false ->
  run_task (j_id j) (j_profile j) env (s_orch s) = Some (r, o1) ->
  exists s2, sub_run strerror dag total deadline (fallback_steps i e env) s = Some s2 /\
    s_jobs s2 = <[i := Finished j (bool_decide (er_final_state r = Completed)) true]> (s_jobs s) /\
    (s_completed s2 + s_failed s2 = S (s_completed s + s_failed s))%nat /\
    (s_completed s2 = S (s_completed s) <-> er_final_state r = Completed) /\
    s_fallbacks s2 = S (s_fallbacks s) /\
    memory_pool_ (s_orch s2) = memory_pool_ o1 /\
    metric_events (s_orch s2) = metric_events (s_orch s) ++
      [ECustom "offload_fallback" (fallback_payload (j_id j) target);
       ETask (j_id j) (er_final_state r) (er_actual_duration r)] /\
    exists stage detail, stage ∈ stages /\
      log_calls (s_orch s2) = log_calls (s_orch s) ++
        [(Warn, "Offload of " +:+ j_id j +:+ " to " +:+ target +:+ " failed (" +:+ (stage +:+ detail)
                  +:+ "); executing locally")].
Proof.
  intros Hj Ht Hoff Hok Hrun. destruct (broken_outcome _ _ _ _ _ _ Hoff Hok) as (_ & _ & stage & detail & Hst & Herr).
  unfold run_task in Hrun. destruct (execute _ _ _ _) as [[r' p]|] eqn:Hx; [|done]. injection Hrun as -> <-.
  assert (Hlt : (i < length (s_jobs s))%nat) by (by eapply lookup_lt_Some).
  unfold fallback_steps. eexists. split.
  { eapply sub_run_step.
    { cbn [sub_next]. unfold offload_step. rewrite Hj, Ht. cbn [mbind option_bind]. rewrite Hoff. reflexivity. }
    do 3 (eapply sub_run_step; [cbn [sub_next]; unfold job_step; rewrite_job; rewrite ?Hok; reflexivity|]).
    eapply sub_run_step.
    { cbn [sub_next]. unfold task_step. rewrite_job. unfold run_task. cbn [s_orch with_job count_fallback memory_pool_ records logs].
      rewrite Hx. reflexivity. }
    do 2 (eapply sub_run_step; [cbn [sub_next]; unfold job_step; rewrite_job; reflexivity|]). reflexivity. }
  cbn -[bool_decide]. rewrite !list_insert_insert_eq, <- app_assoc.
  split; [done|]. destruct (decide (er_final_state r = Completed)) as [Hc|Hc];
    [rewrite bool_decide_true by done|rewrite bool_decide_false by done]; (split_and!; [lia|naive_solver lia|done..|]);
    exists stage, detail; by rewrite Herr.
Qed.

(** * Requests that cannot be served *)

(** Nothing but the log changed. *)
Definition only_logged (o o' : Orchestrator) : Prop :=
  exists l, o' = mkOrchestrator (config_ o) (memory_pool_ o) (cluster_mgr_ o) (discovery_ o) (log_calls o ++ l)
                   (metric_events o).

(** A refusal of a submission as the client reads it. *)
Definition refused (w reason : string) (bytes : list Z) : Prop :=
  exists r, decode_workload_result bytes empty_result = Some (w, false, reason, r) /\
    local_tasks r = 0 /\ offloaded_tasks r = 0 /\ completed_tasks r = 0 /\ failed_tasks r = 0.

Lemma refusal_arrives w reason :
  transmissible (workload_result_envelope w false reason empty_result) ->
  refused w reason (encode_workload_result w false reason empty_result).
Proof.
  intros T. unfold refused, decode_workload_result, encode_workload_result. rewrite buffer_roundtrip by done.
  eexists. split_and!; [reflexivity|done..].
Qed.

(** C9: A request that cannot be served is answered with its reason, and serving it leaves no
    trace but in the log: a message of another kind or unparseable bytes, a submission whose
    DAG is empty or cyclic, and a submission before the monitor has a snapshot.  A message
    classified as an offload request always decodes. *)
Theorem bad_requests_are_refused request me o :
  (classify request <> KindOffloadRequest -> classify request <> KindWorkloadSubmission ->
   transmissible (response_envelope false 0 0 "Unsupported message type" []) ->
   exists bytes o', handle_message strerror request me o = Some (bytes, o') /\ only_logged o o' /\
     decode_response bytes = Some (false, 0, 0, "Unsupported message type", [])) /\
  (classify request = KindOffloadRequest -> is_Some (decode_request request)) /\
  (forall w d, classify request = KindWorkloadSubmission ->
   decode_submission request EmptyString empty_dag = (false, w, d) ->
   transmissible (workload_result_envelope w false "Invalid workload submission" empty_result) ->
   exists bytes, handle_message strerror request me o = Some (bytes, o) /\
     refused w "Invalid workload submission" bytes) /\
  (forall w d err, classify request = KindWorkloadSubmission ->
   decode_submission request EmptyString empty_dag = (true, w, d) -> se_snapshot (me_submit me) = Err err ->
   transmissible (workload_result_envelope w false "Resource monitor not ready" empty_result) ->
   exists bytes o', handle_message strerror request me o = Some (bytes, o') /\ only_logged o o' /\
     refused w "Resource monitor not ready" bytes).
Proof.
  split_and!.
  - intros H1 H2 T. unfold handle_message.
    assert (Hd : decode_response (encode_response false 0 0 "Unsupported message type" [])
                 = Some (false, 0, 0, "Unsupported message type", [])).
    { unfold decode_response, encode_response. by rewrite buffer_roundtrip. }
    destruct (classify request); try done; eexists _, _; (split; [reflexivity|]); (split; [by eexists|exact Hd]).
  - unfold classify, decode_request. destruct (of_buffer request) as [[[[]|]]|]; try done.
  - intros w d Hk Hd T. unfold handle_message. rewrite Hk. unfold handle_workload_submission. rewrite Hd. cbn [negb].
    eexists. split; [reflexivity|]. by apply refusal_arrives.
  - intros w d err Hk Hd Hs T. unfold handle_message. rewrite Hk. unfold handle_workload_submission. rewrite Hd.
    cbn [negb]. unfold submit_workload. rewrite Hs. cbn. eexists _, _. split; [reflexivity|].
    split; [by eexists|by apply refusal_arrives].
Qed.
End errors.

(** * Concrete errors *)

#[local] Existing Instance IterCanonical.
#[local] Existing Instance InsertionSort.
#[local] Existing Instance CounterRng.
#[local] Existing Instance BitProtobuf.

Definition lost_job : job := mkJob "t" CodecTheorems.sample_profile (Some "pi-9").
Definition lost_submission : submission := mkSubmission' far_node [Queued lost_job] 0 1 0 0 0 WTest.
Definition no_route : offload_env := mkOffload (mkConnect 7 0 1 0 0 0 0) [] [] [].

Lemma broken_offload_falls_back_witness :
  exists s2, sub_run sample_strerror empty_dag 1 0 (fallback_steps 0 no_route (me_run quick_message)) lost_submission
      = Some s2 /\
    s_fallbacks s2 = 1%nat /\ s_jobs s2 = [Finished lost_job true true].
Proof.
  destruct (broken_offload_falls_back sample_strerror empty_dag 1 0 0 lost_job "pi-9" no_route lost_submission
    (mkOutcome false false 0 "no known endpoint for pi-9") (me_run quick_message) far_result
    (with_pool far_node (mkPool 67108864 64))) as (s2 & H1 & H3 & _ & _ & H4 & _);
    [reflexivity|reflexivity|vm_compute; reflexivity|reflexivity|vm_compute; reflexivity|].
  exists s2. split; [exact H1|]. split; [exact H4|]. rewrite H3. reflexivity.
Defined.

Lemma bad_requests_are_refused_witness :
  exists bytes o', handle_message sample_strerror [1; 2; 3] sample_message far_node = Some (bytes, o') /\
    decode_response bytes = Some (false, 0, 0, "Unsupported message type", []).
Proof.
  destruct (bad_requests_are_refused sample_strerror [1; 2; 3] sample_message far_node) as [H _].
  destruct H as (bytes & o' & H1 & _ & H2);
    [vm_compute; discriminate|vm_compute; discriminate|apply bit_transmissible; vm_compute; reflexivity|].
  exists bytes, o'. split; [exact H1|exact H2].
Defined.
