(* ===== verification/Observed.v ===== *)
(** A submission as its metrics show it: the events [submit_workload] records, written to the
    metrics file and read by the log analyzer, give the counts of the returned result. *)

From Stdlib Require Import ZArith Lia.
From stdpp Require Import base gmap strings relations numbers pretty list.
From S2P Require Import Prelude Text Float32 Core Dag Kahn Cycle DagTheorems Config MemoryPool TaskRunner Scheduler Greedy.
From S2P Require Import Threshold Optimizer OptimizerTheorems Codec CodecTheorems Transport Cluster Discovery Telemetry.
From S2P Require Import TelemetryTheorems Json JsonTheorems LogAnalyzer LogAnalyzerTheorems Orchestrator OrchestratorTheorems.

Local Open Scope Z_scope.

(** * Payloads *)




(** * Counting events *)





Section counts.
Context {PB : Protobuf} (strerror : Z -> string) {IO : IterOrder} {SS : StdSort} {R : Rng}.















(** * The events are ones the analyzer can read *)

















End counts.

(** * The sample submission *)

#[local] Existing Instance IterCanonical.
#[local] Existing Instance InsertionSort.
#[local] Existing Instance CounterRng.
#[local] Existing Instance BitProtobuf.

