(* ===== verification/Injector.v ===== *)
(** [tools/workload_injector.py]: the client that submits synthetic workloads to a daemon.

    [protocol_pb2] is generated from the same [protocol.proto] as the daemon's classes, so
    it has the messages of [Codec] and the operations of [Protobuf].  An integer is a Python
    integer until it is assigned to a field.  An exception is [None] or [Raised]. *)

From Stdlib Require Import ZArith Lia Ascii SpecFloat.
From stdpp Require Import base gmap strings numbers pretty list.
From S2P Require Import Prelude Text Core Dag Config Codec Transport Generator.

Local Open Scope Z_scope.

(** [int(x)] of a float: towards zero, an exception on infinities and NaN. *)
Definition py_int (x : float64) : option Z :=
  match x with
  | S754_zero _ => Some 0
  | S754_infinity _ | S754_nan => None
  | S754_finite s m e =>
      let mag := if 0 <=? e then Zpos m * 2 ^ e else Zpos m / 2 ^ (- e) in
      Some (if s then - mag else mag)
  end.

(** * The target *)

(** [target.split(":")]. *)
Fixpoint split_colons (cur : list ascii) (l : list ascii) : list string :=
  match l with
  | [] => [unchars (rev cur)]
  | c :: l' => if decide (c = ":"%char) then unchars (rev cur) :: split_colons [] l' else split_colons (c :: cur) l'
  end.

(** The white space of ASCII that [int] skips. *)
Definition int_space (c : ascii) : bool :=
  let n := nat_of_ascii c in ((9 <=? n) && (n <=? 13) || (28 <=? n) && (n <=? 32))%nat.

Fixpoint int_strip (l : list ascii) : list ascii :=
  match l with
  | c :: l' => if int_space c then int_strip l' else l
  | [] => []
  end.

(** After the first digit: digits, each after at most one underscore. *)
Fixpoint py_digits (acc : Z) (l : list ascii) : option Z :=
  match l with
  | [] => Some acc
  | c :: l' =>
      match digit c, l' with
      | Some d, _ => py_digits (acc * 10 + d) l'
      | None, c' :: l'' =>
          if decide (c = "_"%char) then d ← digit c'; py_digits (acc * 10 + d) l'' else None
      | None, [] => None
      end
  end.

(** [int(s)] of an ASCII text; a [ValueError] also for more than 4300 digits. *)
Definition py_int_of_text (s : string) : option Z :=
  let l := rev (int_strip (rev (int_strip (chars s)))) in
  let '(sign, l) := match l with
                    | c :: l' => if decide (c = "-"%char) then (-1, l') else if decide (c = "+"%char) then (1, l') else (1, l)
                    | [] => (1, l)
                    end in
  match l with
  | c :: l' =>
      d ← digit c; n ← py_digits d l';
      if decide (length (filter (fun c => is_Some (digit c)) l) <= 4300)%nat then Some (sign * n) else None
  | [] => None
  end.

(** [host, port_str = target.split(":")] and [port = int(port_str)]: exactly two parts. *)
Definition parse_target (target : string) : option (string * Z) :=
  match split_colons [] (chars target) with
  | [host; port_str] => port ← py_int_of_text port_str; Some (host, port)
  | _ => None
  end.

Section injector.
Context {PB : Protobuf}.

(** Assignment to a [uint64] field, which raises when it refuses the value. *)
Variable assign : Z -> option Z.

(** [submission.tasks.add()] and the assignments to the new element. *)
Definition task_message (id name : string) (compute memory input output : Z) (deps : list string)
  : option TaskSpec :=
  c ← assign compute; m ← assign memory; i ← assign input; o ← assign output;
  Some (mkSpec id name (Some (mkProfileMsg c m i o)) deps).

Definition chain_message (compute_ms : float64) (memory_kb : Z) (i : nat) : option TaskSpec :=
  cost ← py_int (SFmul 53 1024 compute_ms (f64_of_Z 1000));
  task_message ("chain_" +:+ pretty i) ("Chain Task " +:+ pretty i) cost (memory_kb * 1024) 1024 1024
    (if decide (0 < i)%nat then ["chain_" +:+ pretty (i - 1)%nat] else []).

Definition create_linear_chain (num_tasks : Z) (compute_ms : float64) (memory_kb : Z)
  : option WorkloadSubmission :=
  tasks ← mapM (chain_message compute_ms memory_kb) (seq 0 (Z.to_nat num_tasks));
  Some (mkSubmission ("chain-" +:+ pretty num_tasks) tasks).

Definition layer_messages (hidden_dim : Z) (i : nat) : option (list TaskSpec) :=
  attn ← task_message ("layer_" +:+ pretty i +:+ "_attn") ("Layer " +:+ pretty i +:+ " Attention")
    (hidden_dim * 2) (hidden_dim * hidden_dim * 4) (hidden_dim * 4) (hidden_dim * 4)
    (if decide (0 < i)%nat then ["layer_" +:+ pretty (i - 1)%nat +:+ "_ffn"] else []);
  ffn ← task_message ("layer_" +:+ pretty i +:+ "_ffn") ("Layer " +:+ pretty i +:+ " FFN")
    (hidden_dim * 4) (hidden_dim * hidden_dim * 4 * 4) (hidden_dim * 4) (hidden_dim * 4)
    [spec_task_id attn];
  Some [attn; ffn].

Definition create_transformer (num_layers hidden_dim : Z) : option WorkloadSubmission :=
  layers ← mapM (layer_messages hidden_dim) (seq 0 (Z.to_nat num_layers));
  Some (mkSubmission ("transformer-" +:+ pretty num_layers) (concat layers)).

(** The two calls that build a workload. *)
Inductive topology :=
  | chain (tasks : Z) (compute_ms : float64) (memory_kb : Z)
  | transformer (layers hidden_dim : Z).

Definition create (t : topology) : option WorkloadSubmission :=
  match t with
  | chain n ms kb => create_linear_chain n ms kb
  | transformer n h => create_transformer n h
  end.

(** * The exchange *)

Definition SerializeToString (e : Envelope) : option (list Z) := SerializeToArray e (ByteSizeLong e).
Definition ParseFromString (data : list Z) : option Envelope := ParseFromArray data (Z.of_nat (length data)).

(** One [sock.recv]: [None] is an exception, [Some 0] the end of the stream, otherwise the
    call waits for data and returns at most that much of it.  The first component of the
    answer is [false] for an exception. *)
Fixpoint recv_exact (script : list (option nat)) (len : nat) (stream : list Z)
  : option (bool * list Z * list Z * list (option nat)) :=
  match len, script with
  | O, _ => Some (true, [], stream, script)
  | _, [] => None
  | _, None :: script' => Some (false, [], stream, script')
  | _, Some O :: script' => Some (false, [], stream, script')
  | _, Some (S k) :: script' =>
      let n := Nat.min (S k) (Nat.min len (length stream)) in
      '(ok, got, stream', rest) ← recv_exact script' (len - n) (drop n stream);
      Some (ok, take n stream ++ got, stream', rest)
  end.

Inductive outcome :=
  | Returned (code : Z) (out err : list string)
  | Raised.

(** [struct.pack("!I", len(payload)) + payload]; [pack] raises on a length of 33 bits. *)
Definition request_bytes (submission : WorkloadSubmission) : option (list Z) :=
  payload ← SerializeToString (mkEnvelope (Some (PWorkloadSubmission submission)));
  if Z.of_nat (length payload) <? 2 ^ 32 then Some (frame payload) else None.

Definition result_lines (r : WorkloadResult) : list string :=
  ["Workload '" +:+ res_workload_id r +:+ "' complete:";
   "  local tasks:       " +:+ pretty (res_local_tasks r);
   "  offloaded tasks:   " +:+ pretty (res_offloaded_tasks r);
   "  completed:         " +:+ pretty (res_completed_tasks r);
   "  failed:            " +:+ pretty (res_failed_tasks r);
   "  offload fallbacks: " +:+ pretty (res_offload_fallbacks r);
   "  est. makespan:     " +:+ pretty (makespan_estimate_us r) +:+ " us";
   "  wall time:         " +:+ pretty (total_duration_us r) +:+ " us"].

(** The end of [send_workload]: what is printed for the decoded answer and the exit code. *)
Definition report (out : list string) (response : Envelope) : outcome :=
  match payload response with
  | Some (PWorkloadResult r) =>
      if res_accepted r
      then Returned (if res_failed_tasks r =? 0 then 0 else 1) (out ++ result_lines r) []
      else Returned 1 out ["REJECTED: " +:+ res_error_message r]
  | _ => Returned 1 out ["Unexpected response type from daemon"]
  end.

(** [connected] is whether [create_connection] and [sendall] went through, [script] and
    [reply] what the daemon's side of the connection yields; [None] while the call waits. *)
Definition send_workload (target : string) (submission : WorkloadSubmission) (connected : bool)
    (script : list (option nat)) (reply : list Z) : option outcome :=
  match parse_target target, request_bytes submission with
  | Some (host, port), Some request =>
      let out := ["Connecting to " +:+ host +:+ ":" +:+ pretty port +:+ "...";
                  "Submitting '" +:+ sub_workload_id submission +:+ "' (" +:+ pretty (length (sub_tasks submission))
                  +:+ " tasks, " +:+ pretty (length request - 4)%nat +:+ " bytes)"] in
      if connected then
        '(ok, header, reply, script) ← recv_exact script 4 reply;
        if ok : bool then
          '(ok, data, _, _) ← recv_exact script (Z.to_nat (decode_u32 header)) reply;
          if ok : bool then Some (match ParseFromString data with
                                  | Some response => report out response
                                  | None => Raised
                                  end)
          else Some Raised
        else Some Raised
      else Some Raised
  | _, _ => Some Raised
  end.

(** * [main] *)

(** What [parser.parse_args()] returns, without the time-out; [choices] leaves two topologies. *)
Record injector_args := mkInjectorArgs {
  inj_target : string;
  inj_chain : bool;
  inj_tasks : Z;
  inj_layers : Z;
  inj_hidden_dim : Z;
  inj_compute_ms : float64;
  inj_memory_kb : Z
}.

(** The defaults of the options. *)
Definition default_injector_args : injector_args :=
  mkInjectorArgs "localhost:5201" true 10 12 768 (f64_of_Z 5) 64.

Definition topology_of (args : injector_args) : topology :=
  if inj_chain args then chain (inj_tasks args) (inj_compute_ms args) (inj_memory_kb args)
  else transformer (inj_layers args) (inj_hidden_dim args).

(** The workload and its exit code; an exception of either call ends the program. *)
Definition injector_main (args : injector_args) (connected : bool) (script : list (option nat)) (reply : list Z)
  : option outcome :=
  match create (topology_of args) with
  | Some submission => send_workload (inj_target args) submission connected script reply
  | None => Some Raised
  end.
End injector.
