(* ===== verification/InjectorTheorems.v ===== *)
(** The injector's workloads: they are the DAGs of the daemon's own generator, and a daemon
    that receives one runs it and answers with counts the injector reports. *)

From Stdlib Require Import ZArith Lia Ascii SpecFloat.
From stdpp Require Import base gmap strings relations numbers pretty list.
From S2P Require Import Prelude Float32 Core Dag Kahn Cycle Metrics DagTheorems Config MemoryPool TaskRunner.
From S2P Require Import Scheduler Greedy Threshold Optimizer OptimizerTheorems Codec CodecTheorems Transport Reactor.
From S2P Require Import AsyncTransport Cluster Discovery Generator GeneratorTheorems Telemetry Orchestrator.
From S2P Require Import OrchestratorTheorems EndToEnd Injector.

Local Open Scope Z_scope.

(** * Building a DAG spec by spec *)

(** A task and its edges at once, as the generator adds them. *)
Definition grow (d : WorkloadDAG) (s : TaskSpec) : WorkloadDAG := add_spec_edges (add_spec d s) s.

(** Task by task or in two passes, the same tasks and the same edges. *)
Lemma grow_spec specs :
  NoDup (spec_ids specs) -> (forall s, s ∈ specs -> NoDup (spec_dependencies s)) ->
  let d := foldl grow empty_dag specs in
  (forall v t, tasks_ d !! v = Some t <-> exists s, s ∈ specs /\ v = spec_task_id s /\ t = full_task s) /\
  (forall x y, edge d x y <-> exists s, s ∈ specs /\ x ∈ spec_dependencies s /\ y = spec_task_id s).
Proof.
  induction specs as [|s specs IH] using rev_ind; intros Hnd Hdeps.
  { split; [intros v t; simpl; rewrite lookup_empty|intros x y; unfold edge, dependents; simpl; rewrite lookup_empty];
      set_solver. }
  rewrite foldl_snoc. rewrite fmap_app in Hnd. apply NoDup_app in Hnd as (Hnd & Hs & _).
  destruct IH as [Ht He]; [done|set_solver|]. set (d := foldl grow empty_dag specs) in *. unfold grow.
  assert (tasks_ d !! spec_task_id s = None) as Hnew.
  { apply eq_None_not_Some. intros [t (s' & Hs' & Heq & _)%Ht].
    apply (Hs (spec_task_id s)); [rewrite Heq; by apply list_elem_of_fmap_2|csimpl; set_solver]. }
  assert (tasks_ (add_spec d s) = <[spec_task_id s := spec_task s]> (tasks_ d)) as Ea.
  { unfold add_spec, add_task. simpl. by rewrite Hnew. }
  assert (forall x y, edge (add_spec d s) x y <-> edge d x y) as Eb by (intros x y; apply edge_add_task).
  revert Ea Eb. generalize (add_spec d s). intros d1 Ea Eb.
  destruct (add_edges_spec (spec_task_id s) (spec_dependencies s) d1 (spec_task s)) as [Et Hedge];
    [by rewrite Ea, lookup_insert_eq|apply Hdeps; set_solver|].
  fold (add_spec_edges d1 s) in Et, Hedge. simpl in Et. fold (full_task s) in Et. split.
  - intros v t. rewrite Et, Ea, insert_insert_eq, lookup_insert_Some, Ht. setoid_rewrite elem_of_app.
    setoid_rewrite list_elem_of_singleton. split; [naive_solver|]. intros (s' & [Hs'| ->] & -> & ->); [|by left].
    right. split; [|by exists s']. intros Heq. apply (Hs (spec_task_id s')); [by apply list_elem_of_fmap_2|].
    rewrite <- Heq. csimpl. set_solver.
  - intros x y. rewrite Hedge, Eb, He. setoid_rewrite elem_of_app.
    setoid_rewrite list_elem_of_singleton. naive_solver.
Qed.

Definition same_dag (d d' : WorkloadDAG) : Prop :=
  tasks_ d = tasks_ d' /\ forall u v, edge d u v <-> edge d' u v.

Lemma read_specs_grow specs :
  NoDup (spec_ids specs) -> (forall s, s ∈ specs -> NoDup (spec_dependencies s)) ->
  same_dag (read_specs specs empty_dag) (foldl grow empty_dag specs).
Proof.
  intros H1 H2. destruct (read_specs_spec specs H1 H2) as [Ta Ea]. destruct (grow_spec specs H1 H2) as [Tb Eb].
  split; [|intros u v; by rewrite Ea, Eb].
  apply map_eq. intros v. apply option_eq. intros t. by rewrite Ta, Tb.
Qed.

(** * The two generators agree *)

Lemma mapM_snoc_inv {A B} (f : A -> option B) l x k : mapM f (l ++ [x]) = Some k ->
  exists k' y, mapM f l = Some k' /\ f x = Some y /\ k = k' ++ [y].
Proof.
  intros (k' & k'' & H1 & H2 & ->)%mapM_Some_1%Forall2_app_inv_l.
  apply Forall2_cons_inv_l in H2 as (y & ? & Hy & H2 & ->). apply Forall2_nil_inv_l in H2 as ->.
  exists k', y. split_and!; [by apply mapM_Some_2|done|done].
Qed.

Section agree.
Variable assign : Z -> option Z.

(** A field keeps the value assigned to it, and that value is in its range. *)
Hypothesis assign_keeps : forall v w, assign v = Some w -> w = v /\ is_u64 v.

Lemma task_message_inv id name c m i o deps s : task_message assign id name c m i o deps = Some s ->
  s = mkSpec id name (Some (mkProfileMsg c m i o)) deps /\ is_u64 c /\ is_u64 m /\ is_u64 i /\ is_u64 o.
Proof.
  unfold task_message.
  destruct (assign c) as [c'|] eqn:Ec; [apply assign_keeps in Ec as [-> ?]|done].
  destruct (assign m) as [m'|] eqn:Em; [apply assign_keeps in Em as [-> ?]|done].
  destruct (assign i) as [i'|] eqn:Ei; [apply assign_keeps in Ei as [-> ?]|done].
  destruct (assign o) as [o'|] eqn:Eo; [apply assign_keeps in Eo as [-> ?]|done].
  by intros [= <-].
Qed.

Definition chain_profile (cost memory_kb : Z) : TaskProfile := mkProfile (i64 cost) (memory_kb * 1024) 1024 1024.

Lemma chain_messages_grow ms kb n specs :
  mapM (chain_message assign ms kb) (seq 0 n) = Some specs ->
  spec_ids specs = chain_id <$> seq 0 n /\ (forall s, s ∈ specs -> NoDup (spec_dependencies s)) /\
  ((0 < n)%nat -> exists cost, py_int (SFmul 53 1024 ms (f64_of_Z 1000)) = Some cost) /\
  forall cost, py_int (SFmul 53 1024 ms (f64_of_Z 1000)) = Some cost ->
    foldl grow empty_dag specs = linear_chain n (chain_profile cost kb).
Proof.
  assert (forall p n, (foldl (chain_step p) (empty_dag, "") (seq 0 (S n))).2 = chain_id n) as Hprev.
  { intros p k. rewrite seq_S, foldl_app. cbn [foldl Nat.add]. by destruct (foldl _ _ _). }
  revert specs. induction n as [|n IH]; intros specs.
  { intros [= <-]. split_and!; [done|set_solver|lia|done]. }
  rewrite seq_S. intros (l1 & s & Hl1 & Es & ->)%mapM_snoc_inv.
  destruct (IH _ Hl1) as (I1 & I2 & _ & I4). cbn [Nat.add] in Es.
  unfold chain_message in Es. apply bind_Some in Es as (cost & Hcost & [-> _]%task_message_inv).
  rewrite !fmap_app, I1. split_and!; [done| |by exists cost|].
  - intros s [Hs| ->%list_elem_of_singleton]%elem_of_app; [by apply I2|]. simpl.
    case_decide; [apply NoDup_singleton|constructor].
  - intros cost' Hc. assert (cost' = cost) as -> by congruence. rewrite foldl_snoc, (I4 cost Hc).
    unfold linear_chain. rewrite seq_S, foldl_app. cbn [foldl Nat.add].
    destruct n as [|n]; [done|]. specialize (Hprev (chain_profile cost kb) n).
    destruct (foldl (chain_step (chain_profile cost kb)) (empty_dag, "") (seq 0 (S n))) as [d prev].
    cbn [fst snd] in *. subst prev. unfold grow, add_spec_edges. cbn [spec_dependencies chain_step].
    rewrite !decide_True by lia. cbn [foldl]. by rewrite Nat.sub_succ, Nat.sub_0_r.
Qed.
Lemma layer_message_inv h i l : layer_messages assign h i = Some l ->
  exists attn ffn, l = [attn; ffn] /\ is_u64 (h * 4) /\ is_u64 (h * h * 4 * 4) /\
    attn = mkSpec (attn_id i) ("Layer " +:+ pretty i +:+ " Attention")
             (Some (mkProfileMsg (h * 2) (h * h * 4) (h * 4) (h * 4)))
             (if decide (0 < i)%nat then [ffn_id (i - 1)] else []) /\
    ffn = mkSpec (ffn_id i) ("Layer " +:+ pretty i +:+ " FFN")
            (Some (mkProfileMsg (h * 4) (h * h * 4 * 4) (h * 4) (h * 4))) [attn_id i].
Proof.
  unfold layer_messages. destruct (task_message _ _ _ _ _ _ _ _) as [attn|] eqn:Ha; [|done].
  cbn [mbind option_bind]. destruct (task_message _ (_ +:+ _ +:+ "_ffn") _ _ _ _ _ _) as [ffn|] eqn:Hf; [|done].
  intros [= <-]. apply task_message_inv in Ha as (-> & _), Hf as (-> & _ & ? & ? & _).
  by eexists _, _.
Qed.

(** In range, the daemon's wrapping arithmetic is the injector's. *)
Lemma layer_profiles h : is_u64 (h * 4) -> is_u64 (h * h * 4 * 4) ->
  (u64 (h * 2) = h * 2 /\ u64 (h * 4) = h * 4 /\ u64 (h * h) = h * h /\ u64 (h * h * 4) = h * h * 4 /\
   u64 (h * h * 4 * 4) = h * h * 4 * 4)%Z.
Proof. unfold is_u64. intros. rewrite !u64_small by (unfold is_u64; nia). done. Qed.

Lemma layer_step_grow h n d prev : is_u64 (h * 4) -> is_u64 (h * h * 4 * 4) ->
  n = 0%nat \/ prev = ffn_id (n - 1) ->
  grow (grow d (mkSpec (attn_id n) ("Layer " +:+ pretty n +:+ " Attention")
                  (Some (mkProfileMsg (h * 2) (h * h * 4) (h * 4) (h * 4)))
                  (if decide (0 < n)%nat then [ffn_id (n - 1)] else [])))
         (mkSpec (ffn_id n) ("Layer " +:+ pretty n +:+ " FFN")
            (Some (mkProfileMsg (h * 4) (h * h * 4 * 4) (h * 4) (h * 4))) [attn_id n])
  = (layer_step h 0 (d, prev) n).1.
Proof.
  intros R1 R2 Hp. destruct (layer_profiles h R1 R2) as (E1 & E2 & E3 & E4 & E5).
  unfold layer_step. cbv zeta. rewrite E3, E4, E1, E2, E5.
  assert (u64 (h * h * 4 + u64 (0 * u64 (Z.of_nat n + 1))) = h * h * 4) as ->.
  { rewrite Z.mul_0_l. change (u64 0) with 0. by rewrite Z.add_0_r. }
  unfold grow, add_spec_edges, add_spec, put, spec_task, msg_profile, fresh_task.
  cbn [spec_dependencies spec_task_id spec_name spec_profile default from_option id compute_cost_us pb_memory_bytes
       pb_input_bytes pb_output_bytes foldl fst].
  destruct Hp as [->| ->]; [done|]. case_decide; done.
Qed.

Lemma layer_messages_grow h n ls :
  mapM (layer_messages assign h) (seq 0 n) = Some ls ->
  spec_ids (concat ls) = layer_ids n /\ (forall s, s ∈ concat ls -> NoDup (spec_dependencies s)) /\
  foldl grow empty_dag (concat ls) = transformer_layers n h 0.
Proof.
  assert (forall n, (foldl (layer_step h 0) (empty_dag, "") (seq 0 (S n))).2 = ffn_id n) as Hprev.
  { intros k. rewrite seq_S, foldl_app. cbn [foldl Nat.add]. by destruct (foldl _ _ _). }
  revert ls. induction n as [|n IH]; intros ls; [intros [= <-]; split_and!; [done|set_solver|done]|].
  rewrite seq_S. intros (l1 & l & Hl1 & El & ->)%mapM_snoc_inv. cbn [Nat.add] in El.
  destruct (IH _ Hl1) as (I1 & I2 & I3).
  apply layer_message_inv in El as (attn & ffn & -> & R1 & R2 & -> & ->).
  rewrite concat_app. cbn [concat app]. rewrite fmap_app, I1, layer_ids_S. split_and!; [done| |].
  - intros s [Hs|Hs]%elem_of_app; [by apply I2|].
    apply elem_of_cons in Hs as [->|Hs]; [|apply list_elem_of_singleton in Hs as ->]; simpl;
      [case_decide|]; repeat constructor; set_solver.
  - rewrite foldl_app, I3. unfold transformer_layers. rewrite seq_S, foldl_app. cbn [foldl Nat.add].
    assert (n = 0%nat \/ (foldl (layer_step h 0) (empty_dag, "") (seq 0 n)).2 = ffn_id (n - 1)) as Hn.
    { destruct n as [|n]; [by left|right]. rewrite Hprev. f_equal. lia. }
    destruct (foldl (layer_step h 0) (empty_dag, "") (seq 0 n)) as [d prev]. cbn [fst snd] in *.
    by apply layer_step_grow.
Qed.
End agree.

(** The DAG the daemon's own generator builds for the same parameters. *)
Definition workload_of (t : topology) : WorkloadDAG :=
  match t with
  | chain n ms kb =>
      linear_chain (Z.to_nat n) (chain_profile (default 0 (py_int (SFmul 53 1024 ms (f64_of_Z 1000)))) kb)
  | transformer n h => transformer_layers (Z.to_nat n) h 0
  end.

Definition workload_size (t : topology) : nat :=
  match t with chain n _ _ => Z.to_nat n | transformer n _ => 2 * Z.to_nat n end.

Section served.
Context {PB : Protobuf} {PL : ProtobufLaws PB} (strerror : Z -> string)
        {IO : IterOrder} {SS : StdSort} {R : Rng}.
Variable assign : Z -> option Z.
Hypothesis assign_keeps : forall v w, assign v = Some w -> w = v /\ is_u64 v.

Lemma created_same_dag t sub : create assign t = Some sub ->
  same_dag (read_specs (sub_tasks sub) empty_dag) (workload_of t) /\ length (sub_tasks sub) = workload_size t.
Proof.
  destruct t as [n ms kb|n h]; cbn [create].
  - intros (specs & Hs & [= <-])%bind_Some. cbn [sub_tasks workload_size].
    destruct (chain_messages_grow assign assign_keeps _ _ _ _ Hs) as (Hid & Hd & Hc & Hg). split.
    + assert (foldl grow empty_dag specs = workload_of (chain n ms kb)) as <-.
      { cbn [workload_of]. destruct (Z.to_nat n) as [|k] eqn:En; [by injection Hs as <-|].
        destruct Hc as [cost Hcost]; [lia|]. rewrite Hcost. by apply Hg. }
      apply read_specs_grow; [|done]. rewrite Hid. apply (gen_distinct _ _ (linear_chain_generated _ (chain_profile 0 0))).
    + apply (f_equal length) in Hid. by rewrite !length_fmap, length_seq in Hid.
  - intros (ls & Hs & [= <-])%bind_Some. cbn [sub_tasks workload_of workload_size].
    destruct (layer_messages_grow assign assign_keeps _ _ _ Hs) as (Hid & Hd & Hg). split.
    + rewrite <- Hg. apply read_specs_grow; [|done]. rewrite Hid. apply (gen_distinct _ _ (transformer_generated _ 0 0)).
    + apply (f_equal length) in Hid. by rewrite length_fmap, length_layer_ids in Hid.
Qed.

Lemma workload_of_usable t : usable (workload_size t) (workload_of t).
Proof.
  destruct t as [n ms kb|n h]; cbn [workload_of workload_size].
  - pose proof (generated_usable _ _ (linear_chain_generated (Z.to_nat n)
      (chain_profile (default 0 (py_int (SFmul 53 1024 ms (f64_of_Z 1000)))) kb))) as H.
    by rewrite length_fmap, length_seq in H.
  - pose proof (generated_usable _ _ (transformer_generated (Z.to_nat n) h 0)) as H.
    by rewrite length_layer_ids in H.
Qed.

(** The injector and the daemon build the same workloads.  When no field assignment is
    refused, the DAG the daemon assembles from the injector's message has exactly the tasks
    -- ids, names, profiles, dependency vectors -- and the edges of the one its own generator
    builds for these parameters (without a key-value cache). *)
Theorem injector_matches_generator t sub :
  create assign t = Some sub ->
  same_dag (read_specs (sub_tasks sub) empty_dag) (workload_of t) /\
  usable (workload_size t) (workload_of t) /\ length (sub_tasks sub) = workload_size t.
Proof. intros H. destruct (created_same_dag t sub H). split_and!; [done|apply workload_of_usable|done]. Qed.

Lemma created_decodes t sub bytes : create assign t = Some sub -> sub_tasks sub <> [] ->
  of_buffer bytes = Some (mkEnvelope (Some (PWorkloadSubmission sub))) ->
  classify bytes = KindWorkloadSubmission /\
  let d := read_specs (sub_tasks sub) empty_dag in
  decode_submission bytes "" empty_dag = (true, sub_workload_id sub, d) /\
  same_dag d (workload_of t) /\ closed d /\ is_valid d = true.
Proof.
  intros Hc Hne Hb. destruct (created_same_dag t sub Hc) as [[Ht He] Hl].
  destruct (workload_of_usable t) as (W & V & _).
  assert (0 < workload_size t)%nat by (destruct (sub_tasks sub); [done|simpl in Hl; lia]).
  rewrite bool_decide_eq_true_2 in V by done.
  unfold classify, decode_submission. rewrite Hb. cbn [payload]. cbv zeta. split; [done|].
  set (d := read_specs _ _) in *.
  assert (is_valid d = true) as Hv.
  { eapply same_graph_valid, V; [|done]. intros v. unfold known. by rewrite Ht. }
  split_and!; [|done| |done].
  - rewrite Hv. unfold is_valid in Hv. by apply andb_true_iff in Hv as [_ ->].
  - intros u v Huv%He. apply (wg_closed _ _ W) in Huv. unfold known in *. by rewrite Ht.
Qed.
(** ** The exchange *)

Definition delivers (a : option nat) : Prop := exists k, a = Some (S k).

Lemma recv_exact_live script len stream :
  Forall delivers script -> (len <= length script)%nat -> (len <= length stream)%nat ->
  exists rest, recv_exact script len stream = Some (true, take len stream, drop len stream, rest) /\
    Forall delivers rest /\ (length script <= length rest + len)%nat.
Proof.
  intros H. revert len stream. induction H as [|a script [k ->] Hs IH]; intros [|len] stream Hm Hl; cbn -[Nat.min drop take].
  - exists []. split_and!; [by rewrite take_0, drop_0|done|lia].
  - simpl in Hm. lia.
  - exists (Some (S k) :: script). split_and!; [by rewrite take_0, drop_0|by constructor; [exists k|]|simpl; lia].
  - set (n := Nat.min (S k) (Nat.min (S len) (length stream))).
    assert (1 <= n <= S len)%nat as [? ?] by (subst n; lia).
    destruct (IH (S len - n)%nat (drop n stream)) as (rest & -> & Hr & Hm').
    { simpl in Hm. lia. }
    { rewrite length_drop. lia. }
    exists rest. cbn [mbind option_bind]. rewrite take_take_drop, drop_drop.
    replace (n + (S len - n))%nat with (S len) by lia. split_and!; [done|done|lia].
Qed.

(** What a client that reads the whole of a framed answer makes of it. *)
Lemma send_workload_live target host port sub request script e payload :
  parse_target target = Some (host, port) -> request_bytes sub = Some request -> Forall delivers script ->
  SerializeToString e = Some payload -> Z.of_nat (length payload) < 2 ^ 31 -> ParseFromString payload = Some e ->
  (length (frame payload) <= length script)%nat ->
  exists out, send_workload target sub true script (frame payload) = Some (report out e).
Proof.
  intros Ht Hreq Hs Hser Hlen Hparse Hm. unfold send_workload. rewrite Ht, Hreq. rewrite length_frame in Hm.
  set (out := _ :: _). exists out. unfold frame.
  assert (u32 (Z.of_nat (length payload)) = Z.of_nat (length payload)) as -> by (unfold u32; rewrite Z.mod_small; lia).
  destruct (recv_exact_live script 4 (encode_u32 (Z.of_nat (length payload)) ++ payload)) as (s1 & -> & Hs1 & Hm1);
    [done|lia|rewrite length_app; simpl; lia|]. cbn [mbind option_bind].
  rewrite take_app_length' by done. rewrite drop_app_length' by done. rewrite header_roundtrip, Nat2Z.id by lia.
  destruct (recv_exact_live s1 (length payload) payload) as (s2 & -> & _ & _); [done|lia|lia|].
  cbn [mbind option_bind]. by rewrite take_ge, Hparse by lia.
Qed.

(** A transmissible message goes through the buffers of either side. *)
Lemma transmissible_bytes e : transmissible e ->
  exists bytes, SerializeToString e = Some bytes /\ Z.of_nat (length bytes) < 2 ^ 31 /\
    ParseFromString bytes = Some e /\ of_buffer bytes = Some e /\ to_buffer e = bytes.
Proof.
  intros T. pose proof (buffer_roundtrip e T) as Hb. destruct (serialize_parse e T) as (bytes & Hs & Hl & Hp).
  pose proof (ByteSizeLong_nonneg e). destruct T as (_ & _ & Hsize).
  assert (to_buffer e = bytes) as E by (unfold to_buffer; rewrite i32_small, Hs by lia; done).
  exists bytes. rewrite E in Hb. unfold SerializeToString, ParseFromString. rewrite Hl. split_and!; [done|lia|done..].
Qed.

(** C5: a workload injected into a daemon, end to end.  For every non-empty workload the
    injector can build, the daemon's server decodes the request, runs tasks of the
    corresponding generated DAG, each at most once and every one of them when no deadline
    cut the call short, and the injector prints the counts of that run and exits with 0
    exactly if no task failed -- for every fragmentation of the two transfers.  Only a
    monitor that is not ready makes the daemon refuse. *)
Theorem injected_workload_served args host port sub srv script me o answer o' :
  let t := topology_of args in
  let e := mkEnvelope (Some (PWorkloadSubmission sub)) in
  parse_target (inj_target args) = Some (host, port) ->
  create assign t = Some sub -> sub_tasks sub <> [] -> transmissible e ->
  handle_message strerror (to_buffer e) me o = Some (answer, o') ->
  Z.of_nat (length (to_buffer e)) <= MAX_MESSAGE_SIZE ->
  Forall prompt srv -> (length (frame (to_buffer e)) + length (frame answer) <= amoves srv)%nat ->
  Forall delivers script -> (length (frame answer) <= length script)%nat ->
  let in_time := Forall (timely (deadline_of (me_submit me))) (se_events (me_submit me)) in
  let handler := answers strerror me o in
  exists request, request_bytes sub = Some request /\
    handle_connection handler false srv request = Some (frame answer) /\
    ((exists r ran, task_reports o' = task_reports o ++ ran /\ accounted (workload_of t) in_time r ran /\
        (transmissible (workload_result_envelope (sub_workload_id sub) true "" r) ->
         exists out res, workload_result_envelope (sub_workload_id sub) true "" r
             = mkEnvelope (Some (PWorkloadResult res)) /\
           injector_main assign args true script (frame answer) =
             Some (Returned (if failed_tasks r =? 0 then 0 else 1) (out ++ result_lines res) []))) \/
     (exists err, se_snapshot (me_submit me) = Err err)).
Proof.
  intros t e Htg Hc Hne T Hh Hmax Hp Hmv Hd Hms in_time handler.
  destruct (transmissible_bytes e T) as (bytes & Hs & Hl & _ & Hb & Eb). rewrite Eb in *.
  assert (handler bytes = answer) as Ea by (unfold handler, answers; by rewrite Hh).
  assert (request_bytes sub = Some (frame bytes)) as Hreq.
  { unfold request_bytes. fold e. rewrite Hs. cbn [mbind option_bind]. by rewrite (proj2 (Z.ltb_lt _ _)) by lia. }
  exists (frame bytes). split_and!; [done| |].
  { rewrite <- (app_nil_r (frame bytes)), <- Ea. apply handle_connection_live; rewrite ?Ea; done. }
  destruct (created_decodes t sub bytes Hc Hne Hb) as (Hk & Hdec & [Ht He] & Hcl & Hv).
  destruct (submission_handled strerror _ _ _ _ _ _ _ Hk Hdec Hcl Hv Hh) as [(r & ran & Hans & Hr & Ha)|[Herr _]];
    [left|by right]. exists r, ran. destruct (workload_of_usable t) as (W & V & _).
  assert (is_valid (workload_of t) = true) as V'.
  { eapply same_graph_valid, Hv; [intros v; unfold known; by rewrite Ht|intros; by rewrite He]. }
  split_and!; [done| |].
  - eapply accounted_same, Ha; [|unfold task_count; by rewrite Ht].
    apply (same_tasks_order _ _ id); [by rewrite map_fmap_id|apply (wg_closed _ _ W)|done..].
  - intros Tr. destruct (transmissible_bytes _ Tr) as (ab & Hs2 & Hl2 & Hp2 & _ & E2).
    assert (answer = ab) as -> by (rewrite Hans; exact E2).
    destruct (send_workload_live _ _ _ sub (frame bytes) script _ ab Htg Hreq Hd Hs2 Hl2 Hp2 Hms) as [out Hout].
    eexists out, _. split; [done|]. unfold injector_main. fold t. by rewrite Hc, Hout.
Qed.
End served.

(** * A concrete injection *)

#[local] Existing Instance IterCanonical.
#[local] Existing Instance InsertionSort.
#[local] Existing Instance CounterRng.
#[local] Existing Instance BitProtobuf.

Definition checked (v : Z) : option Z := if (0 <=? v) && (v <? 2 ^ 64) then Some v else None.

Lemma checked_keeps v w : checked v = Some w -> w = v /\ is_u64 v.
Proof.
  unfold checked, is_u64. destruct ((0 <=? v) && (v <? 2 ^ 64)) eqn:E; [|done].
  apply andb_true_iff in E as [?%Z.leb_le ?%Z.ltb_lt]. by intros [= <-].
Qed.

(** [--tasks 3], and the message it gives. *)
Definition sample_args : injector_args := mkInjectorArgs "localhost:5201" true 3 12 768 (f64_of_Z 5) 64.
Definition sample_topology : topology := topology_of sample_args.
Definition sample_sub : WorkloadSubmission := default (mkSubmission "" []) (create checked sample_topology).
Definition sample_envelope : Envelope := mkEnvelope (Some (PWorkloadSubmission sample_sub)).

Lemma injector_matches_generator_witness :
  create checked (transformer 2 768) <> None /\
  workload_size sample_topology = 3%nat /\
  same_dag (read_specs (sub_tasks sample_sub) empty_dag)
           (linear_chain 3 (mkProfile 5000 65536 1024 1024)).
Proof.
  split; [vm_compute; discriminate|]. split; [reflexivity|].
  apply (injector_matches_generator checked checked_keeps sample_topology sample_sub). vm_compute. reflexivity.
Defined.

(** A daemon without peers runs the three tasks itself, the polling thread watching. *)
Definition slow_run : run_env := mkEnv 0 0 [mkTick false 6000000] 6000000 false false.
Definition runs_locally (i : nat) : list sub_event := [EvRun i slow_run; EvJob i; EvJob i].
Definition chain_message_env : message_env :=
  mkMessageEnv slow_run true
    (mkSubmitEnv (Ok (sample_snapshot "node-01" 30 1000000 2000000)) 0 0 0
       (replicate 7 (EvCaller 5) ++ runs_locally 1 ++ [EvCaller 10] ++ runs_locally 0 ++ runs_locally 2 ++ replicate 6 (EvCaller 30))
       true 90000).

Definition injected_answer : option (list Z * Orchestrator) :=
  handle_message sample_strerror (to_buffer sample_envelope) chain_message_env far_node.

Lemma injected_answered : bool_decide (is_Some injected_answer) = true.
Proof. vm_compute. reflexivity. Qed.

(** The daemon's side moves fifty bytes per call, the injector reads seven at a time. *)
Lemma seven_delivers n : Forall delivers (replicate n (Some 7%nat)).
Proof. apply Forall_replicate. by exists 6%nat. Qed.

Lemma injected_workload_served_witness :
  exists answer o', injected_answer = Some (answer, o') /\
    exists r ran, ran ≡ₚ topological_order (workload_of sample_topology) /\ completed_tasks r + failed_tasks r = 3 /\
      task_reports o' = task_reports far_node ++ ran.
Proof.
  destruct injected_answer as [[answer o']|] eqn:E; [|pose proof injected_answered as H; rewrite E in H; discriminate H].
  exists answer, o'. split; [reflexivity|].
  pose proof (injected_workload_served sample_strerror checked checked_keeps sample_args "localhost" 5201 sample_sub
                (replicate (length (frame (to_buffer sample_envelope)) + length (frame answer)) (mkAio 50 0 true))
                (replicate (length (frame answer)) (Some 7%nat)) chain_message_env far_node answer o') as H.
  cbv zeta in H. fold sample_envelope in H. fold sample_topology in H.
  destruct H as (request & _ & _ & [(r & ran & Hr & Ha & _)|[err Herr]]).
  - vm_compute. reflexivity.
  - vm_compute. reflexivity.
  - vm_compute. discriminate.
  - apply bit_transmissible. vm_compute. reflexivity.
  - exact E.
  - vm_compute. discriminate.
  - apply Forall_replicate. split; [reflexivity|left; reflexivity].
  - unfold amoves, moves. rewrite filter_all; [by rewrite length_map, length_replicate|].
    apply Forall_map, Forall_replicate. reflexivity.
  - apply seven_delivers.
  - by rewrite length_replicate.
  - exists r, ran. destruct (acc_all _ _ _ _ Ha) as [Hp Hc]; [decide_now|].
    split; [exact Hp|]. split; [exact Hc|exact Hr].
  - discriminate Herr.
Defined.
